(* ===== verification/_CoqProject ===== *)
-Q . S2P
Prelude.v
RustStr.v
Sync.v
External.v
Models.v
Errors.v
Uuid.v
Header.v
EventTables.v
Collect.v
Session.v
Crypto.v
Auth.v
Store.v
Dirs.v
Scan.v
Pending.v
State.v
Handler.v
World.v
Reader.v
Writer.v
Duplex.v
Tls.v
Http.v
Config.v
Handshake.v
Refresh.v
Steps.v
Frame.v
Live.v
Supervisor.v
Lifecycle.v
Dialogue.v
Typed.v
Wire.v
Correlate.v
Reconnect.v
Shutdown.v
Accounting.v
Client.v
Progress.v
Redact.v
Listen.v
UnitData.v
UnitClient.v
