(* ===== verification/Prelude.v ===== *)
(** * Verification of loxwebsocket, a client for the Loxone Miniserver

    The crate (under [src/src/]) keeps an authenticated, encrypted WebSocket
    session to a home-automation server, decodes the binary tables the server
    pushes, correlates commands with their answers, and reconnects. This library
    translates it into Rocq definitions, one file per component, and proves the
    properties that make the components, and the client they form, correct.

    ** The program and the files

    An application talks to [LoxClient] ([client/mod.rs]). [connect] spawns the IO
    supervisor ([client/io.rs]), which connects, runs a session and decides whether
    to connect again. A session is a handshake ([client/handshake.rs]) over HTTP
    ([client/http.rs]), TLS ([client/tls.rs]) and a WebSocket
    ([client/connect.rs]), followed by three tasks: the reader ([client/reader.rs])
    decodes frames and calls the application's handler ([client/handler.rs]), the
    writer ([client/writer.rs]) encrypts and sends commands, the refresher
    ([client/refresh.rs]) renews the token. They share the queue of waiting
    commands ([client/pending.rs]), the state of [client/state.rs] and
    [metrics.rs], and a command channel.

    - [Prelude]: bytes, integers at their width, lists, the result type with its
      monad, tactics and hints. [RustStr]: the string functions of the Rust
      standard library the source uses, on bytes. [Sync] ([sync.rs]): a mutex with
      its poison flag and the lock that ignores it. [External]: the crates the
      source calls, as classes of operations with separate classes of laws.
      [Models]: instances of these classes, used by samples only.
    - [Errors] ([error.rs]); [Uuid] ([uuid.rs]); [Header] ([proto/header.rs]);
      [EventTables], with a Module each for values, texts, daytimers and weather
      ([proto/]); [Collect] ([collect.rs]).
    - [Session] ([crypto/session.rs]): session keys, the salt sequence, command
      encryption. [Crypto] ([crypto/hash.rs], [crypto/rsa_key.rs]). [Auth]
      ([auth/token.rs], [auth/flow.rs]). [Store] ([auth/store.rs]): the token file,
      with a small file system whose calls may each fail. [Dirs]: the directories
      of that file and their permission bits.
    - [Scan] and [Pending] ([client/pending.rs], [client/visu.rs]): the scanner
      for [LL.control] and the queue of waiters. [State] ([client/state.rs],
      [client/keepalive.rs], [client/reconnect.rs], [metrics.rs]). [Handler]
      ([client/handler.rs]): a callback returns or unwinds; the guard records it. Its
      class [Steady], a set of handler states no callback unwinds from, is what
      the theorems on progress ask of a handler.
    - [World]: what the tasks of a session share, and the monad
      [M W A := W -> W * Result A] the tasks are written in. [Reader], [Writer]:
      the two tasks, one Definition per function of the source; a read result, the
      arm of [select!] that fires, the clock and the outcome of a write are inputs
      of a step. [Duplex]: all interleavings of the two tasks as an inductive
      relation, [duplex], with its invariant.
    - [Tls]: the modes, the pin, the three certificate verifiers and a TLS handshake
      (certificate, signature, rest). [Http] ([client/http.rs], [client/connect.rs]):
      endpoints, the abortable read half, the split socket, requests and answers.
      [Config], [Handshake]: the configuration, the handshake up to the subscription.
    - [Refresh]: the refresher, with what other tasks may do at each point where
      it holds no lock.
    - [Steps]: the class [Stepped], a preorder on the world closed under the writes
      the tasks make, and the proof, once, that every step of the reader, the
      writer, the shutdown and the handshake stays in such a preorder. [Frame]: two
      instances, for what a task leaves alone (connection counters, lifecycle
      events, connection state). [Live]: the connected phase as a schedule of
      actions, shown to be a run of [duplex]. [Supervisor]: the loop of
      [run_supervisor] over the inputs of each session and wait. [Lifecycle],
      [Typed], [Reconnect], [Accounting]: what holds of every run of it. [Dialogue]: a
      Miniserver that answers the handshake, as a relation on the inputs, and the
      rules by which each request of it gets its answer. [Wire]: the wire of a whole
      session, handshake and connected phase. [Correlate]: the commands of a session,
      the answers and the callers, put together. [Shutdown]: how a session ends.
      [Client]: the façade, [connect], [stop] and the destructor. [Progress]: the
      network before the handshake, and [connect] on it.
    - [Redact]: the formatter of the standard library and every hand-written [Debug]
      and [Display] of the crate. [Listen] ([examples/listen.rs]): the example program
      and its handler, an instance of [Steady]. [UnitData], [UnitClient]: the unit tests the
      sources carry, each a definition with the name it has there, evaluated on
      the model; they tie the definitions to the values the authors expect.

    ** What the theorems show

    - Decoding. The read loop dispatches exactly the messages a stream of frames
      carries, however it is cut, and reports a handler panic exactly when there
      was one ([Reader]); each table walk yields exactly the records of the
      longest well-formed prefix and inverts an encoder ([EventTables],
      [Header]); UUIDs round-trip through their text ([Uuid]); collected maps hold
      the last record ([Collect]).
    - Commands. A sequence of encrypted commands with its salt rotation is accepted
      by a server that follows the documented protocol, and the buffer-reusing
      encryption equals the reference pipeline ([Session]); the word-at-a-time
      scanner equals a byte-wise one ([Scan]); an echo resolves its own command,
      waiters are answered once each and in order, labels hide secrets
      ([Pending]). In every interleaving of reader and writer all callers are
      accounted for, the queue is the tail of the wire, and the limits on waiters
      and missed keepalives hold ([Duplex]). From the first encrypted text of the
      handshake to the shutdown everything on the wire is served ([Wire]). While
      nothing times out and nothing unasked arrives, the n-th answer goes to the
      caller of the n-th command ([Correlate]).
    - Tokens and trust. A token never reaches another identity ([State], [Store]);
      saving is atomic, round-trips and never makes a file, or a directory
      ([Dirs]), others can read; authentication costs a token only on an
      invalidating status ([Handshake]); a refresh never overwrites a token it has
      not refreshed ([Refresh]); a pin never moves and is matched only by a peer that
      has proved its key ([Tls]); what is printed does not depend on a secret
      ([Redact]).
    - The client as a whole, over any number of sessions: lifecycle events, the
      answer to [connect], the connection state and the counters agree
      ([Lifecycle], [Client]); every shared object keeps its machine type, in every
      state of every session ([Typed]); every command that entered the channel and every
      caller is accounted for ([Accounting]); sessions are bounded by the attempt
      limit, waits end, a stop is final ([Reconnect]); the calls of the façade are
      the steps these theorems allow callers ([Client]).

    - Progress. A Miniserver that follows the documented dialogue, keepalives,
      tables and other frames in between, takes the handshake to its end, with a new
      token, a reusable one or one it has revoked ([Dialogue]); when it can be
      reached and its certificate is accepted, the session is connected and
      [connect] returns a client ([Progress]), the example's among them ([Listen]).
      Once a stop is in the channel, a bounded number of turns of the writer closes
      the session: one per command before it and per message of the reader, old or
      new, and two more ([Shutdown]).

    ** Conventions

    Integers are [Z], with the wrap-around written out where a width matters
    (counters and hashes modulo [2^64], [u32] attempts, [i64] seconds with and
    without overflow checks). A panic is a value: [None], [Panicked], [Died] or
    [Overflowed]. Durations and instants are nanoseconds. An [f64] is its bit
    pattern. A lock protects one step, so code between two critical sections can
    be interleaved with other tasks. Tokio's bounded channels are lists with a
    bound and oneshots are identifiers with a log of their answers; a [HashMap] is
    a [gmap].

    Loops of the source that end with their input are structural recursions; loops
    that wait for input (the read loop, the writer, the refresher, the waits and the
    supervisor) recurse on the list of inputs, so that every theorem covers every
    finite prefix of a run. A loop with fuel ([walk_fuel] under the table walks, the
    key search of [Scan], replacing and stripping in [RustStr] and [Crypto],
    decimal digits) gets at least the length of its input, of which every iteration
    consumes a byte (or digit); [walk_fuel_enough] and the exactness theorems of
    [EventTables] and [Scan] show that none of it is missing there. The recursion
    over parent directories has one more than the length of the path
    ([create_dir_all_succeeds]). The handshake's own bound of 64 interleaved frames is
    the source's.

    Crates outside the repository (AES-CBC, Base64, hex, percent-decoding, digests,
    RSA, JSON, zerocopy, X.509, the signatures of rustls, URLs) are classes in [External], [Tls] and [Http];
    the laws assumed of them are their documented behaviour, and [Models] has an
    instance for the samples that show each theorem's hypotheses can be met.

    ** Not modelled

    - Sockets, the TLS record layer, the WebSocket framing of fastwebsockets, DNS:
      their results are inputs. The tokio runtime: scheduling is the choice of the
      next step. Cancellation of a future of the façade by its caller. The bound of
      the channel from reader to writer: a send that would wait is immediate.
    - A writer task that outlives the ten seconds the supervisor waits for it: what
      it still does afterwards is not followed; its callers are counted as adrift.
    - Re-exports, log output, derived [Debug] where no hand-written one prints it,
      the text of an [f64] and of the metrics.
    - Unit tests that need a real digest, RSA key or certificate, or that look at
      the layout of memory; the tests of [src/tests/] against a simulated server. *)

From Stdlib Require Export ZArith NArith Lia Bool.
From Stdlib Require Import String.
From Stdlib Require Strings.Byte.
From stdpp Require Export base list numbers option gmap.
Export String.StringSyntax.
#[global] Open Scope Z_scope.

(** ** Bytes *)

Abbreviation byte := Byte.byte.
Abbreviation bytes := (list Byte.byte).

(** A UTF-8 literal of the source, as its bytes. *)
Definition bs (s : string) : bytes := String.list_byte_of_string s.
Arguments bs s%_string_scope.

#[export] Instance byte_eq_dec : EqDecision byte := Byte.byte_eq_dec.

Lemma default_of_to_N b : default Byte.x00 (Byte.of_N (Byte.to_N b)) = b.
Proof. by rewrite Byte.of_to_N. Qed.

#[export] Instance byte_countable : Countable byte :=
  inj_countable' Byte.to_N (fun n => default Byte.x00 (Byte.of_N n)) default_of_to_N.

(** [b as u64], and the truncating cast [z as u8]. *)
Definition u8 (b : byte) : Z := Z.of_N (Byte.to_N b).
Definition byte_of (z : Z) : byte := default Byte.x00 (Byte.of_N (Z.to_N (z mod 256))).

Definition byteb (a b : byte) : bool := bool_decide (a = b).

Lemma u8_range b : 0 <= u8 b < 256.
Proof.
  unfold u8. pose proof (Byte.to_N_bounded b). lia.
Qed.

Lemma u8_inj a b : u8 a = u8 b → a = b.
Proof.
  unfold u8. intros H%N2Z.inj.
  pose proof (Byte.of_to_N a) as Ha. pose proof (Byte.of_to_N b) as Hb.
  rewrite H in Ha. congruence.
Qed.

Lemma u8_byte_of z : u8 (byte_of z) = z mod 256.
Proof.
  unfold byte_of. pose proof (Z.mod_pos_bound z 256 eq_refl) as Hz.
  destruct (Byte.of_N _) as [b|] eqn:E; simpl.
  - apply Byte.to_of_N in E. unfold u8. rewrite E. lia.
  - apply Byte.of_N_None_iff in E. lia.
Qed.

Lemma byte_of_u8 b : byte_of (u8 b) = b.
Proof.
  apply u8_inj. rewrite u8_byte_of. apply Z.mod_small, u8_range.
Qed.

Lemma byte_of_inj x y : 0 <= x < 256 → 0 <= y < 256 → byte_of x = byte_of y → x = y.
Proof.
  intros Hx Hy H%(f_equal u8). rewrite !u8_byte_of in H.
  by rewrite !Z.mod_small in H by lia.
Qed.

(** ** Lengths and slices

    [usize] values are [Z]; [zlen] is [slice::len]. *)

Definition zlen {A} (l : list A) : Z := Z.of_nat (length l).

Lemma zlen_nonneg {A} (l : list A) : 0 <= zlen l.
Proof. unfold zlen. lia. Qed.

Lemma zlen_cons {A} (x : A) l : zlen (x :: l) = zlen l + 1.
Proof. unfold zlen. cbn [length]. lia. Qed.

Lemma zlen_app {A} (l k : list A) : zlen (l ++ k) = zlen l + zlen k.
Proof. unfold zlen. rewrite length_app. lia. Qed.

(** [slice.get(..n)] *)
Definition get_to {A} (l : list A) (n : Z) : option (list A) :=
  if n <=? zlen l then Some (take (Z.to_nat n) l) else None.

(** [slice.get(n..)] *)
Definition get_from {A} (l : list A) (n : Z) : option (list A) :=
  if n <=? zlen l then Some (drop (Z.to_nat n) l) else None.

(** [slice.get(a..b)] *)
Definition get_range {A} (l : list A) (a b : Z) : option (list A) :=
  if (a <=? b) && (b <=? zlen l)
  then Some (take (Z.to_nat (b - a)) (drop (Z.to_nat a) l)) else None.

Lemma get_to_app {A} (l k : list A) n : n = zlen l → get_to (l ++ k) n = Some l.
Proof.
  intros ->. unfold get_to. rewrite zlen_app. pose proof (zlen_nonneg k).
  rewrite (proj2 (Z.leb_le _ _)) by lia. unfold zlen. rewrite Nat2Z.id.
  by rewrite take_app_length.
Qed.

Lemma get_from_app {A} (l k : list A) n : n = zlen l → get_from (l ++ k) n = Some k.
Proof.
  intros ->. unfold get_from. rewrite zlen_app. pose proof (zlen_nonneg k).
  rewrite (proj2 (Z.leb_le _ _)) by lia. unfold zlen. rewrite Nat2Z.id.
  by rewrite drop_app_length.
Qed.

Lemma get_to_Some {A} (l t : list A) n :
  0 <= n → get_to l n = Some t → zlen t = n ∧ t = take (Z.to_nat n) l.
Proof.
  unfold get_to, zlen. intros Hn. destruct (Z.leb_spec n (Z.of_nat (length l))); [|done].
  intros [= <-]. split; [|done]. rewrite length_take. lia.
Qed.

Lemma get_from_Some {A} (l t : list A) n :
  0 <= n → get_from l n = Some t → zlen t = zlen l - n ∧ t = drop (Z.to_nat n) l.
Proof.
  unfold get_from, zlen. intros Hn. destruct (Z.leb_spec n (Z.of_nat (length l))); [|done].
  intros [= <-]. split; [|done]. rewrite length_drop. lia.
Qed.

Lemma get_range_length {A} (l t : list A) a b :
  0 <= a → get_range l a b = Some t → zlen t = b - a.
Proof.
  unfold get_range, zlen. intros Ha. destruct (Z.leb_spec a b); [|done].
  destruct (Z.leb_spec b (Z.of_nat (length l))); [|done]. simpl. intros [= <-].
  rewrite length_take, length_drop. lia.
Qed.

(** ** Little-endian integers *)

Fixpoint le_Z (l : bytes) : Z :=
  match l with
  | [] => 0
  | b :: l => u8 b + 256 * le_Z l
  end.

Fixpoint le_bytes (n : nat) (z : Z) : bytes :=
  match n with
  | O => []
  | S n => byte_of z :: le_bytes n (z / 256)
  end.

(** [u16::from_be_bytes] *)
Definition be_u16 (hi lo : byte) : Z := 256 * u8 hi + u8 lo.

Lemma le_bytes_length n z : length (le_bytes n z) = n.
Proof. revert z. induction n; intros; simpl; congruence. Qed.

Lemma le_Z_range l : 0 <= le_Z l < 256 ^ zlen l.
Proof.
  unfold zlen. induction l as [|b l IH]; [simpl; lia|].
  cbn [le_Z length]. rewrite Nat2Z.inj_succ, Z.pow_succ_r by lia.
  pose proof (u8_range b). lia.
Qed.

Lemma le_Z_le_bytes n z : le_Z (le_bytes n z) = z mod 256 ^ Z.of_nat n.
Proof.
  revert z. induction n as [|n IH]; intros z; [by rewrite Z.mod_1_r|].
  cbn [le_bytes le_Z]. rewrite IH, u8_byte_of, Nat2Z.inj_succ, Z.pow_succ_r by lia.
  rewrite Z.rem_mul_r by lia. lia.
Qed.

Lemma le_bytes_le_Z l n : length l = n → le_bytes n (le_Z l) = l.
Proof.
  intros <-. induction l as [|b l IH]; [done|]. cbn [length le_Z le_bytes]. f_equal.
  - apply u8_inj. rewrite u8_byte_of, (Z.mul_comm 256), Z.mod_add by lia.
    apply Z.mod_small, u8_range.
  - rewrite (Z.mul_comm 256), Z.div_add by lia.
    rewrite Z.div_small by apply u8_range. exact IH.
Qed.

Lemma le_Z_inj k l : length k = length l → le_Z k = le_Z l → k = l.
Proof.
  intros Hlen H. rewrite <- (le_bytes_le_Z k _ eq_refl), <- (le_bytes_le_Z l _ eq_refl).
  by rewrite Hlen, H.
Qed.

(** Two's complement reading of a [w]-bit pattern, and its inverse. *)
Definition to_signed (w z : Z) : Z := if z <? 2 ^ (w - 1) then z else z - 2 ^ w.
Definition wrap (w z : Z) : Z := z mod 2 ^ w.
Definition wrap_signed (w z : Z) : Z := to_signed w (wrap w z).

Definition fits_signed (w z : Z) : Prop := - 2 ^ (w - 1) <= z < 2 ^ (w - 1).

Lemma wrap_signed_id w z : 0 < w → fits_signed w z → wrap_signed w z = z.
Proof.
  unfold wrap_signed, to_signed, wrap, fits_signed. intros Hw Hz.
  assert (2 ^ w = 2 * 2 ^ (w - 1)) as Hp.
  { rewrite <- Z.pow_succ_r by lia. f_equal. lia. }
  destruct (Z.le_gt_cases 0 z).
  - rewrite Z.mod_small by lia. destruct (Z.ltb_spec z (2 ^ (w - 1))); lia.
  - rewrite <- (Z.mod_add z 1) by lia. rewrite Z.mod_small by lia.
    destruct (Z.ltb_spec (z + 1 * 2 ^ w) (2 ^ (w - 1))); lia.
Qed.

(** [u64::saturating_sub] *)
Definition saturating_sub (a b : Z) : Z := Z.max 0 (a - b).

(** ** Results *)

Inductive result (E A : Type) : Type :=
| Ok (a : A)
| Err (e : E).
Arguments Ok {E A} a.
Arguments Err {E A} e.

#[export] Instance result_ret E : MRet (result E) := λ A a, Ok a.
#[export] Instance result_bind E : MBind (result E) := λ A B f r,
  match r with Ok a => f a | Err e => Err e end.
#[export] Instance result_fmap E : FMap (result E) := λ A B f r,
  match r with Ok a => Ok (f a) | Err e => Err e end.

(** [Result::map_err], [Option::ok_or], [Result::ok] *)
Definition map_err {E F A} (f : E → F) (r : result E A) : result F A :=
  match r with Ok a => Ok a | Err e => Err (f e) end.
Definition ok_or {E A} (o : option A) (e : E) : result E A :=
  match o with Some a => Ok a | None => Err e end.
Definition res_ok {E A} (r : result E A) : option A :=
  match r with Ok a => Some a | Err _ => None end.
(** [Option::or] *)
Definition opt_or {A} (a b : option A) : option A :=
  match a with Some _ => a | None => b end.

(** ** Loops

    [while let Some((a, s')) = step(s) { emit a; s = s' }]. The fuel of [walk]
    is one more than the length of the list the loop consumes; [walk_unfold]
    shows that it never runs out when every step shortens the list. *)

Fixpoint walk_fuel {S A} (step : S → option (A * S)) (fuel : nat) (s : S) : list A :=
  match fuel with
  | O => []
  | Datatypes.S fuel =>
      match step s with
      | Some (a, s') => a :: walk_fuel step fuel s'
      | None => []
      end
  end.

Definition walk {X A} (step : list X → option (A * list X)) (s : list X) : list A :=
  walk_fuel step (S (length s)) s.

Section walk.
Context {X A : Type} (step : list X → option (A * list X)).
Hypothesis step_shorter : ∀ s a s', step s = Some (a, s') → (length s' < length s)%nat.

Lemma walk_fuel_enough n m s :
  (length s < n)%nat → (length s < m)%nat → walk_fuel step n s = walk_fuel step m s.
Proof.
  revert m s. induction n as [|n IH]; intros m s Hn Hm; [lia|].
  destruct m as [|m]; [lia|]. simpl.
  destruct (step s) as [[a s']|] eqn:E; [|done].
  apply step_shorter in E. f_equal. apply IH; lia.
Qed.

Lemma walk_unfold s :
  walk step s = match step s with Some (a, s') => a :: walk step s' | None => [] end.
Proof.
  unfold walk at 1. cbn [walk_fuel]. destruct (step s) as [[a s']|] eqn:E; [|done].
  apply step_shorter in E. f_equal. apply walk_fuel_enough; lia.
Qed.
End walk.

(** Two loops over the same input, one of which maps what the other emits. *)
Lemma walk_map {X A B} (f : A → B) (step : list X → option (A * list X))
    (step' : list X → option (B * list X)) :
  (∀ s, step' s = match step s with Some (a, s') => Some (f a, s') | None => None end) →
  ∀ s, walk step' s = map f (walk step s).
Proof.
  intros H s. unfold walk. generalize (S (length s)) as n. intros n. revert s.
  induction n as [|n IH]; intros s; [done|]. cbn [walk_fuel]. rewrite H.
  destruct (step s) as [[a s']|]; [|done]. cbn [map]. by rewrite IH.
Qed.

(** [slice::chunks(n)] and the complete chunks of [slice::as_chunks::<n>]. *)
Definition chunk_step {A} (n : nat) (l : list A) : option (list A * list A) :=
  if (n <=? length l)%nat then Some (take n l, drop n l) else None.
Definition as_chunks {A} (n : nat) (l : list A) : list (list A) * list A :=
  (walk (chunk_step n) l, drop (length l / n * n) l).

Lemma chunk_step_shorter {A} n (l c r : list A) :
  (0 < n)%nat → chunk_step n l = Some (c, r) → (length r < length l)%nat.
Proof.
  unfold chunk_step. intros Hn. destruct (Nat.leb_spec n (length l)); [|done].
  intros [= <- <-]. rewrite length_drop. lia.
Qed.

Lemma list_filter_all {A} (P : A → Prop) `{!∀ x, Decision (P x)} (l : list A) :
  Forall P l → filter P l = l.
Proof. induction 1 as [|x l Hx _ IH]; [done|]. by rewrite filter_cons_True, IH. Qed.

Lemma list_filter_none {A} (P : A → Prop) `{!∀ x, Decision (P x)} (l : list A) :
  Forall (λ x, ¬ P x) l → filter P l = [].
Proof. induction 1 as [|x l Hx _ IH]; [done|]. by rewrite filter_cons_False. Qed.

(** ** Automation *)

Create HintDb lox.
Create Rewrite HintDb lox.
#[export] Hint Resolve u8_range zlen_nonneg le_bytes_length : lox.
#[export] Hint Rewrite @zlen_app @length_app le_bytes_length : lox.

(** Splits a hypothesis [(x ← m; k) = Ok v] or [= Some v] into its two steps. *)
Ltac bind_inv H :=
  let E := fresh "E" in
  match type of H with
  | mbind _ ?m = Ok _ => destruct m eqn:E; simplify_eq/=
  | mbind _ ?m = Some _ => destruct m eqn:E; simplify_eq/=
  end.

(** Right-associates the concatenations of the goal. *)
Ltac app_norm := repeat progress (rewrite <- ?app_assoc; cbn [app]).

(** Decides the boolean comparisons of the goal. *)
Ltac zbool :=
  repeat match goal with
  | |- context [?a <=? ?b] => destruct (Z.leb_spec a b); try lia
  | |- context [?a <? ?b] => destruct (Z.ltb_spec a b); try lia
  | |- context [?a =? ?b] => destruct (Z.eqb_spec a b); try lia
  end.

(** ** Machine words

    [usize] is 64 bits wide. *)

Definition checked_add (a b : Z) : option Z :=
  if a + b <? 2 ^ 64 then Some (a + b) else None.
Definition checked_mul (a b : Z) : option Z :=
  if a * b <? 2 ^ 64 then Some (a * b) else None.
(** [usize::try_from(i32)] *)
Definition usize_try_from (z : Z) : option Z := if z <? 0 then None else Some z.
(** [u64::from_ne_bytes] on a target of either endianness. *)
Definition ne_Z (big_endian : bool) (l : bytes) : Z :=
  le_Z (if big_endian then rev l else l).
(** [u64::rotate_left(5)] generalised to [k] bits *)
Definition rotl64 (k z : Z) : Z := Z.lor (wrap 64 (Z.shiftl z k)) (Z.shiftr z (64 - k)).

(** The rotation by five keeps the low 59 bits above the high 5. *)
Lemma rotl64_spec z : 0 <= z < 2 ^ 64 → rotl64 5 z = z mod 2 ^ 59 * 2 ^ 5 + z / 2 ^ 59.
Proof.
  intros Hz. unfold rotl64, wrap. rewrite Z.shiftr_div_pow2, Z.shiftl_mul_pow2 by lia.
  change (64 - 5) with 59.
  replace (z * 2 ^ 5 mod 2 ^ 64) with (z mod 2 ^ 59 * 2 ^ 5).
  2: { change (2 ^ 64) with (2 ^ 59 * 2 ^ 5). by rewrite Z.mul_mod_distr_r by lia. }
  pose proof (Z.add_lor_land (z mod 2 ^ 59 * 2 ^ 5) (z / 2 ^ 59)) as H.
  enough (Z.land (z mod 2 ^ 59 * 2 ^ 5) (z / 2 ^ 59) = 0) as E by lia.
  apply Z.bits_inj'. intros i Hi. rewrite Z.land_spec, Z.bits_0.
  destruct (Z.lt_ge_cases i 5) as [Hl|Hl].
  - by rewrite Z.mul_pow2_bits_low.
  - apply andb_false_intro2. destruct (Z.eq_dec (z / 2 ^ 59) 0) as [->|Hn]; [apply Z.bits_0|].
    assert (0 <= z / 2 ^ 59 < 2 ^ 5) as Hd
      by (split; [apply Z.div_pos; lia|apply Z.div_lt_upper_bound; lia]).
    apply Z.bits_above_log2; [lia|]. eapply Z.lt_le_trans; [|exact Hl].
    apply Z.log2_lt_pow2; lia.
Qed.

Lemma rotl64_range z : 0 <= z < 2 ^ 64 → 0 <= rotl64 5 z < 2 ^ 64.
Proof.
  intros Hz. rewrite rotl64_spec by done.
  assert (0 <= z / 2 ^ 59 < 2 ^ 5) by (split; [apply Z.div_pos; lia|apply Z.div_lt_upper_bound; lia]).
  pose proof (Z.mod_pos_bound z (2 ^ 59)). lia.
Qed.

Lemma rotl64_inj x y :
  0 <= x < 2 ^ 64 → 0 <= y < 2 ^ 64 → rotl64 5 x = rotl64 5 y → x = y.
Proof.
  intros Hx Hy. rewrite !rotl64_spec by done. intros E.
  assert (∀ z, 0 <= z < 2 ^ 64 → 0 <= z / 2 ^ 59 < 2 ^ 5)
    by (intros; split; [apply Z.div_pos; lia|apply Z.div_lt_upper_bound; lia]).
  pose proof (H x Hx). pose proof (H y Hy).
  rewrite (Z.div_mod x (2 ^ 59)), (Z.div_mod y (2 ^ 59)) by lia. lia.
Qed.

Lemma testbit_high w z i : 0 <= z < 2 ^ w → w <= i → Z.testbit z i = false.
Proof.
  intros Hz Hi. destruct (Z.eq_dec z 0) as [->|]; [apply Z.bits_0|].
  apply Z.bits_above_log2; [lia|]. eapply Z.lt_le_trans; [|exact Hi]. apply Z.log2_lt_pow2; lia.
Qed.

Lemma bits_lt w z : 0 <= w → 0 <= z → (∀ i, w <= i → Z.testbit z i = false) → z < 2 ^ w.
Proof.
  intros Hw Hz Hb. destruct (Z.eq_dec z 0) as [->|]; [lia|].
  apply Z.log2_lt_pow2; [lia|]. apply Z.nle_gt. intros Hi.
  specialize (Hb _ Hi). rewrite Z.bit_log2 in Hb by lia. done.
Qed.

(** A bitwise operation keeps words in range, and works byte by byte. *)
Section bitwise.
Context (op : Z → Z → Z) (f : bool → bool → bool).
Hypothesis f_00 : f false false = false.
Hypothesis op_spec : ∀ a b i, 0 <= i → Z.testbit (op a b) i = f (Z.testbit a i) (Z.testbit b i).
Hypothesis op_nonneg : ∀ a b, 0 <= a → 0 <= b → 0 <= op a b.

Lemma op_range w x y : 0 <= w → 0 <= x < 2 ^ w → 0 <= y < 2 ^ w → 0 <= op x y < 2 ^ w.
Proof using All.
  intros Hw Hx Hy. split; [apply op_nonneg; lia|].
  apply bits_lt; [done|apply op_nonneg; lia|]. intros i Hi.
  rewrite op_spec, !(testbit_high w) by lia. done.
Qed.

Lemma testbit_byte u v i : 0 <= u < 256 → 0 <= i →
  Z.testbit (u + 256 * v) i = if i <? 8 then Z.testbit u i else Z.testbit v (i - 8).
Proof using.
  intros Hu Hi. assert ((u + 256 * v) / 2 ^ 8 = v ∧ (u + 256 * v) mod 2 ^ 8 = u) as [Hd Hm].
  { change (2 ^ 8) with 256. rewrite (Z.mul_comm 256), Z.div_add, Z.mod_add by lia.
    rewrite Z.div_small, Z.mod_small by lia. lia. }
  destruct (Z.ltb_spec i 8).
  - rewrite <- (Z.mod_pow2_bits_low (u + 256 * v) 8 i) by lia. by rewrite Hm.
  - transitivity (Z.testbit ((u + 256 * v) / 2 ^ 8) (i - 8)); [|by rewrite Hd].
    rewrite Z.div_pow2_bits by lia. f_equal. lia.
Qed.

Lemma op_byte a b x y : 0 <= a < 256 → 0 <= b < 256 →
  op (a + 256 * x) (b + 256 * y) = op a b + 256 * op x y.
Proof using All.
  intros Ha Hb. apply Z.bits_inj'. intros i Hi.
  rewrite op_spec by done. rewrite !testbit_byte by (done || apply (op_range 8); lia).
  destruct (Z.ltb_spec i 8); by rewrite op_spec by lia.
Qed.
End bitwise.

Lemma lxor_nonneg' a b : 0 <= a → 0 <= b → 0 <= Z.lxor a b.
Proof. intros. apply Z.lxor_nonneg. lia. Qed.
Lemma land_nonneg' a b : 0 <= a → 0 <= b → 0 <= Z.land a b.
Proof. intros. apply Z.land_nonneg. lia. Qed.
Lemma lor_nonneg' a b : 0 <= a → 0 <= b → 0 <= Z.lor a b.
Proof. intros. apply Z.lor_nonneg. lia. Qed.

Definition lxor_range := op_range Z.lxor xorb eq_refl (λ a b i _, Z.lxor_spec a b i) lxor_nonneg'.
Definition lxor_byte := op_byte Z.lxor xorb eq_refl (λ a b i _, Z.lxor_spec a b i) lxor_nonneg'.
Definition land_byte := op_byte Z.land andb eq_refl (λ a b i _, Z.land_spec a b i) land_nonneg'.
Definition lor_byte := op_byte Z.lor orb eq_refl (λ a b i _, Z.lor_spec a b i) lor_nonneg'.

Lemma lxor_cancel a x y : Z.lxor a x = Z.lxor a y → x = y.
Proof.
  intros H%(f_equal (Z.lxor a)).
  by rewrite <- !Z.lxor_assoc, !Z.lxor_nilpotent, !Z.lxor_0_l in H.
Qed.

Lemma ne_Z_inj be k l : length k = length l → ne_Z be k = ne_Z be l → k = l.
Proof.
  unfold ne_Z. intros Hlen. destruct be; intros H; apply le_Z_inj in H;
    rewrite ?length_rev; try done.
  by rewrite <- (rev_involutive k), <- (rev_involutive l), H.
Qed.

(** A loop whose body may also emit and then leave:
    [None] leaves, [Some (a, None)] emits and leaves, [Some (a, Some s)] goes on. *)
Fixpoint walk_opt_fuel {S A} (step : S → option (A * option S)) (fuel : nat) (s : S) : list A :=
  match fuel with
  | O => []
  | Datatypes.S fuel =>
      match step s with
      | Some (a, Some s') => a :: walk_opt_fuel step fuel s'
      | Some (a, None) => [a]
      | None => []
      end
  end.

Definition walk_opt {X A} (step : list X → option (A * option (list X))) (s : list X) : list A :=
  walk_opt_fuel step (S (length s)) s.

Section walk_opt.
Context {X A : Type} (step : list X → option (A * option (list X))).
Hypothesis step_shorter :
  ∀ s a s', step s = Some (a, Some s') → (length s' < length s)%nat.

Lemma walk_opt_fuel_enough n m s :
  (length s < n)%nat → (length s < m)%nat → walk_opt_fuel step n s = walk_opt_fuel step m s.
Proof.
  revert m s. induction n as [|n IH]; intros m s Hn Hm; [lia|].
  destruct m as [|m]; [lia|]. simpl.
  destruct (step s) as [[a [s'|]]|] eqn:E; [|done|done].
  apply step_shorter in E. f_equal. apply IH; lia.
Qed.

Lemma walk_opt_unfold s :
  walk_opt step s = match step s with
                    | Some (a, Some s') => a :: walk_opt step s'
                    | Some (a, None) => [a]
                    | None => []
                    end.
Proof.
  unfold walk_opt at 1. cbn [walk_opt_fuel].
  destruct (step s) as [[a [s'|]]|] eqn:E; [|done|done].
  apply step_shorter in E. f_equal. apply walk_opt_fuel_enough; lia.
Qed.
End walk_opt.

(** Every list is a run of records of [n] elements and a shorter tail. *)
Lemma records_decomp {A} (n : Z) (l : list A) : 0 < n →
  ∃ recs tail, l = concat recs ++ tail ∧ Forall (λ r, zlen r = n) recs
               ∧ zlen recs = zlen l / n ∧ zlen tail < n.
Proof.
  intros Hn. remember (length l) as k eqn:Hk. revert l Hk.
  induction k as [k IH] using lt_wf_ind. intros l ->.
  destruct (Z.lt_ge_cases (zlen l) n) as [Hs|Hs].
  - exists [], l. split; [done|]. split; [constructor|]. split; [|done].
    rewrite Z.div_small; [done|]. pose proof (zlen_nonneg l). lia.
  - unfold zlen in Hs.
    destruct (IH (length (drop (Z.to_nat n) l))) with (l := drop (Z.to_nat n) l)
      as (recs & tail & Hl & Hr & Hc & Ht); [rewrite length_drop; lia|done|].
    exists (take (Z.to_nat n) l :: recs), tail. split.
    { cbn [concat]. rewrite <- app_assoc, <- Hl. by rewrite take_drop. }
    split; [constructor; [unfold zlen; rewrite length_take; lia|done]|]. split; [|done].
    replace (zlen l / n) with (1 + (zlen l - n) / n).
    + replace (zlen l - n) with (zlen (drop (Z.to_nat n) l)).
      * rewrite <- Hc. unfold zlen. simpl. lia.
      * unfold zlen. rewrite length_drop. lia.
    + replace (zlen l) with ((zlen l - n) + 1 * n) at 2 by lia.
      rewrite Z.div_add by lia. lia.
Qed.

Lemma zlen_concat {A} (recs : list (list A)) n :
  Forall (λ r, zlen r = n) recs → zlen (concat recs) = n * zlen recs.
Proof.
  induction 1 as [|r recs Hr _ IH]; [unfold zlen; simpl; lia|].
  cbn [concat]. rewrite zlen_app, IH, Hr. unfold zlen. simpl. lia.
Qed.

Lemma take_zlen_app {A} (l k : list A) n : n = zlen l → take (Z.to_nat n) (l ++ k) = l.
Proof. intros ->. unfold zlen. rewrite Nat2Z.id. apply take_app_length. Qed.

Lemma drop_zlen_app {A} (l k : list A) n : n = zlen l → drop (Z.to_nat n) (l ++ k) = k.
Proof. intros ->. unfold zlen. rewrite Nat2Z.id. apply drop_app_length. Qed.

Lemma walk_chunks {A} (n : nat) (recs : list (list A)) (tail : list A) :
  (0 < n)%nat → Forall (λ r, length r = n) recs → (length tail < n)%nat →
  walk (chunk_step n) (concat recs ++ tail) = recs.
Proof.
  intros Hn Hr Ht. assert (∀ l c r : list A, chunk_step n l = Some (c, r) → (length r < length l)%nat)
    as Hs by (intros; by eapply chunk_step_shorter).
  induction Hr as [|r recs Hr _ IH]; rewrite (walk_unfold _ Hs); unfold chunk_step at 1.
  - cbn [concat app]. by rewrite (proj2 (Nat.leb_gt _ _)).
  - cbn [concat]. rewrite <- app_assoc, length_app, Hr, (proj2 (Nat.leb_le _ _)) by lia.
    rewrite take_app_length', drop_app_length' by done. f_equal. exact IH.
Qed.

Lemma as_chunks_concat {A} (n : nat) (recs : list (list A)) (tail : list A) :
  (0 < n)%nat → Forall (λ r, length r = n) recs → (length tail < n)%nat →
  as_chunks n (concat recs ++ tail) = (recs, tail).
Proof.
  intros Hn Hr Ht. unfold as_chunks. rewrite walk_chunks by done. f_equal.
  assert (length (concat recs) = (length recs * n)%nat) as Hc.
  { clear Ht. induction Hr as [|r recs Hr _ IH]; [done|]. cbn [concat length].
    rewrite length_app, IH, Hr. lia. }
  rewrite length_app, Hc, Nat.add_comm, Nat.div_add, Nat.div_small, Nat.add_0_l by lia.
  rewrite <- Hc. apply drop_app_length.
Qed.

(** [(x + 3) & !3] *)
Lemma land_lnot_3 x : 0 <= x → Z.land (x + 3) (Z.lnot 3) = (x + 3) / 4 * 4.
Proof.
  intros Hx. rewrite <- Z.ldiff_land. change 3 with (Z.ones 2).
  rewrite Z.ldiff_ones_r by lia. rewrite Z.shiftl_mul_pow2, Z.shiftr_div_pow2 by lia. done.
Qed.
