(* ===== verification/RustStr.v ===== *)
(** * The parts of Rust's [str] and [u8] the client uses

    Strings are their UTF-8 bytes. The definitions follow the documentation of
    the standard library: [str::strip_prefix], [split], [split_once], [rsplit],
    [trim], [trim_end_matches], [lines], [find], [parse::<i64>], integer
    [Display], [str::from_utf8]. *)

From S2P Require Import Prelude.

(** ** Prefixes *)

Fixpoint strip_prefix (p s : bytes) : option bytes :=
  match p, s with
  | [], _ => Some s
  | a :: p, b :: s => if byteb a b then strip_prefix p s else None
  | _ :: _, [] => None
  end.

Definition starts_with (p s : bytes) : bool :=
  match strip_prefix p s with Some _ => true | None => false end.

Lemma byteb_refl b : byteb b b = true.
Proof. unfold byteb. by rewrite bool_decide_true. Qed.

Lemma byteb_true a b : byteb a b = true → a = b.
Proof. unfold byteb. apply bool_decide_eq_true_1. Qed.

Lemma byteb_false a b : byteb a b = false → a ≠ b.
Proof. unfold byteb. apply bool_decide_eq_false_1. Qed.

Lemma byteb_neq a b : a ≠ b → byteb a b = false.
Proof. intros H. unfold byteb. by rewrite bool_decide_false. Qed.

Lemma strip_prefix_app p s : strip_prefix p (p ++ s) = Some s.
Proof. induction p as [|a p IH]; [done|]. simpl. by rewrite byteb_refl. Qed.

Lemma strip_prefix_Some p s r : strip_prefix p s = Some r → s = p ++ r.
Proof.
  revert s. induction p as [|a p IH]; intros s; simpl; [by intros [= ->]|].
  destruct s as [|b s]; [done|]. destruct (byteb a b) eqn:E; [|done].
  apply byteb_true in E as ->. intros H. by rewrite (IH s H).
Qed.

Lemma starts_with_app p s : starts_with p (p ++ s) = true.
Proof. unfold starts_with. by rewrite strip_prefix_app. Qed.

Lemma starts_with_true p s : starts_with p s = true → ∃ r, s = p ++ r.
Proof.
  unfold starts_with. destruct (strip_prefix p s) as [r|] eqn:E; [|done].
  intros _. exists r. by apply strip_prefix_Some.
Qed.

(** ** Splitting *)

(** [s.split_once(c)] *)
Fixpoint split_once (c : byte) (s : bytes) : option (bytes * bytes) :=
  match s with
  | [] => None
  | b :: s =>
      if byteb b c then Some ([], s)
      else match split_once c s with
           | Some (l, r) => Some (b :: l, r)
           | None => None
           end
  end.

(** [s.split(c)], never empty. *)
Fixpoint split (c : byte) (s : bytes) : list bytes :=
  match s with
  | [] => [[]]
  | b :: s =>
      if byteb b c then [] :: split c s
      else match split c s with
           | h :: t => (b :: h) :: t
           | [] => [[b]]
           end
  end.

Lemma split_once_app c l r : c ∉ l → split_once c (l ++ c :: r) = Some (l, r).
Proof.
  induction l as [|b l IH]; intros Hc; simpl; [by rewrite byteb_refl|].
  apply not_elem_of_cons in Hc as [Hb Hl].
  rewrite byteb_neq by congruence. by rewrite IH.
Qed.

Lemma split_once_Some c s l r : split_once c s = Some (l, r) → s = l ++ c :: r ∧ c ∉ l.
Proof.
  revert l r. induction s as [|b s IH]; intros l r; simpl; [done|].
  destruct (byteb b c) eqn:E.
  - apply byteb_true in E as ->. intros [= <- <-]. split; [done|]. apply not_elem_of_nil.
  - destruct (split_once c s) as [[l' r']|] eqn:Es; [|done]. intros [= <- <-].
    destruct (IH _ _ eq_refl) as [-> Hn]. split; [done|].
    apply byteb_false in E. apply not_elem_of_cons. split; congruence.
Qed.

Lemma split_once_None c s : split_once c s = None ↔ c ∉ s.
Proof.
  split.
  - induction s as [|b s IH]; simpl; [intros _; apply not_elem_of_nil|].
    destruct (byteb b c) eqn:E; [done|]. destruct (split_once c s) as [[]|] eqn:Es; [done|].
    intros _. apply byteb_false in E. apply not_elem_of_cons. split; [congruence|by apply IH].
  - intros Hc. destruct (split_once c s) as [[l r]|] eqn:E; [|done].
    apply split_once_Some in E as [-> _]. set_solver.
Qed.

Lemma split_nonempty c s : split c s ≠ [].
Proof.
  destruct s as [|b s]; simpl; [done|].
  destruct (byteb b c); [done|]. by destruct (split c s).
Qed.

(** The tail of [s] after the rightmost occurrence of [p]; [s.rsplit(p).next()]
    is this tail, or [s] when there is none. *)
Fixpoint after_last (p s : bytes) : option bytes :=
  match s with
  | [] => None
  | _ :: t =>
      match after_last p t with
      | Some r => Some r
      | None => strip_prefix p s
      end
  end.
Definition rsplit_next (p s : bytes) : bytes := default s (after_last p s).

(** A pattern that ends in a byte the tail does not have is found where it was
    written last. *)
Lemma after_last_short q c u body :
  c ∉ body → (length u <= length q)%nat → after_last (q ++ [c]) (u ++ body) = None.
Proof.
  intros Hc. assert (∀ u, (length u <= length q)%nat → strip_prefix (q ++ [c]) (u ++ body) = None)
    as Hno.
  { intros v Hv. destruct (strip_prefix _ _) as [r|] eqn:E; [|done].
    apply strip_prefix_Some in E. exfalso. apply Hc.
    apply (f_equal (drop (length v))) in E. rewrite drop_app_length in E. rewrite E.
    rewrite <- app_assoc, drop_app_le by lia. set_solver. }
  induction u as [|a u IH]; intros Hu.
  - clear Hu. simpl. assert (∃ k, body = drop k body) as [k Hk] by (by exists 0%nat).
    clear Hno Hk k. induction body as [|b t IH]; [done|].
    apply not_elem_of_cons in Hc as [Hb Ht]. simpl. rewrite IH by done.
    destruct (strip_prefix (q ++ [c]) (b :: t)) as [r|] eqn:E; [|done].
    apply strip_prefix_Some in E. assert (c ∈ b :: t) by (rewrite E; set_solver). set_solver.
  - cbn [app after_last]. rewrite IH by (simpl in Hu; lia). exact (Hno (a :: u) Hu).
Qed.

Lemma after_last_app q c pre body :
  c ∉ body → after_last (q ++ [c]) (pre ++ (q ++ [c]) ++ body) = Some body.
Proof.
  intros Hc. induction pre as [|a pre IH].
  - destruct (q ++ [c]) as [|a p'] eqn:E; [by destruct q|]. cbn [app after_last].
    rewrite <- E at 1. rewrite after_last_short; [|done|].
    + change (a :: p' ++ body) with ((a :: p') ++ body). by rewrite strip_prefix_app.
    + apply (f_equal length) in E. rewrite length_app in E. simpl in E. lia.
  - cbn [app after_last]. by rewrite IH.
Qed.

(** [s.find(p)] and [s.contains(p)] *)
Fixpoint find (p s : bytes) : option Z :=
  if starts_with p s then Some 0
  else match s with
       | [] => None
       | _ :: t => match find p t with Some i => Some (i + 1) | None => None end
       end.
Definition contains (p s : bytes) : bool :=
  match find p s with Some _ => true | None => false end.

Lemma contains_prefix p s : contains p (p ++ s) = true.
Proof. unfold contains. destruct (p ++ s) eqn:E; simpl; rewrite <- E, starts_with_app; done. Qed.

Lemma find_Some p s i :
  find p s = Some i → 0 <= i ∧ i + zlen p <= zlen s ∧ starts_with p (drop (Z.to_nat i) s) = true.
Proof.
  revert i. induction s as [|b s IH]; intros i; cbn [find].
  - destruct (starts_with p []) eqn:E; [|done]. intros [= <-]. split; [lia|].
    apply starts_with_true in E as [r Hr]. symmetry in Hr. by apply app_nil in Hr as [-> ->].
  - destruct (starts_with p (b :: s)) eqn:E.
    + intros [= <-]. split; [lia|]. split; [|done]. apply starts_with_true in E as [r ->].
      rewrite zlen_app. pose proof (zlen_nonneg r). lia.
    + destruct (find p s) as [j|] eqn:Ej; [|done]. intros [= <-].
      destruct (IH j eq_refl) as (? & ? & ?). split; [lia|].
      split; [unfold zlen in *; cbn [length]; lia|].
      rewrite Z2Nat.inj_add by lia. change (Z.to_nat 1) with 1%nat. by rewrite Nat.add_1_r.
Qed.

(** Text without the first byte of the pattern is skipped. *)
Lemma find_skip c p u t : c ∉ u →
  find (c :: p) (u ++ t) = match find (c :: p) t with Some i => Some (zlen u + i) | None => None end.
Proof.
  induction u as [|b u IH]; intros Hc.
  - cbn [app]. change (zlen []) with 0. by destruct (find (c :: p) t).
  - apply not_elem_of_cons in Hc as [Hb Hu].
    assert (starts_with (c :: p) ((b :: u) ++ t) = false) as E.
    { unfold starts_with. cbn [app strip_prefix]. by rewrite byteb_neq by congruence. }
    cbn [app find]. change (b :: u ++ t) with ((b :: u) ++ t). rewrite E, IH by done.
    destruct (find (c :: p) t); [|done]. f_equal. unfold zlen. cbn [length]. lia.
Qed.

(** ** Trimming *)

(** [s.trim_end_matches(c)] *)
Fixpoint trim_end_matches (c : byte) (s : bytes) : bytes :=
  match s with
  | [] => []
  | b :: s =>
      match trim_end_matches c s with
      | [] => if byteb b c then [] else [b]
      | t => b :: t
      end
  end.

Lemma trim_end_matches_pad c s n :
  trim_end_matches c (s ++ replicate n c) = trim_end_matches c s.
Proof.
  induction s as [|b s IH]; simpl.
  - induction n as [|n IHn]; simpl; [done|]. by rewrite IHn, byteb_refl.
  - by rewrite IH.
Qed.

Lemma trim_end_matches_id c s : last s ≠ Some c → trim_end_matches c s = s.
Proof.
  induction s as [|b s IH]; intros H; simpl; [done|].
  destruct s as [|d s].
  - simpl in *. rewrite byteb_neq; [done|congruence].
  - rewrite IH by exact H. done.
Qed.

Lemma trim_end_matches_decomp c s :
  ∃ n, s = trim_end_matches c s ++ replicate n c.
Proof.
  induction s as [|b s [n IH]]; simpl; [by exists 0%nat|].
  destruct (trim_end_matches c s) as [|d t] eqn:E.
  - destruct (byteb b c) eqn:Eb.
    + apply byteb_true in Eb as ->. exists (S n). simpl in *. by rewrite IH at 1.
    + exists n. simpl in *. by rewrite IH at 1.
  - exists n. simpl in *. by rewrite IH at 1.
Qed.

Lemma trim_end_matches_last c s : last (trim_end_matches c s) ≠ Some c.
Proof.
  induction s as [|b s IH]; simpl; [done|].
  destruct (trim_end_matches c s) as [|d t] eqn:E.
  - destruct (byteb b c) eqn:Eb; [done|]. apply byteb_false in Eb. simpl. congruence.
  - exact IH.
Qed.

(** The UTF-8 encodings of the characters with the Unicode [White_Space]
    property, which is what [str::trim] removes. UTF-8 is self-synchronising,
    so matching whole encodings at either end of a valid string matches whole
    characters. *)
Definition white_space : list bytes :=
  map (λ z, [byte_of z]) [9; 10; 11; 12; 13; 32] ++
  map (λ z, [Byte.xc2; byte_of z]) [133; 160] ++
  [[Byte.xe1; Byte.x9a; Byte.x80]] ++
  map (λ z, [Byte.xe2; Byte.x80; byte_of z])
    [128; 129; 130; 131; 132; 133; 134; 135; 136; 137; 138; 168; 169; 175] ++
  [[Byte.xe2; Byte.x81; Byte.x9f]; [Byte.xe3; Byte.x80; Byte.x80]].

Fixpoint strip_any (ps : list bytes) (s : bytes) : option bytes :=
  match ps with
  | [] => None
  | p :: ps => match strip_prefix p s with Some r => Some r | None => strip_any ps s end
  end.

Fixpoint strip_all_fuel (ps : list bytes) (fuel : nat) (s : bytes) : bytes :=
  match fuel with
  | O => s
  | S fuel => match strip_any ps s with Some r => strip_all_fuel ps fuel r | None => s end
  end.

Definition trim_start (s : bytes) : bytes := strip_all_fuel white_space (length s) s.
Definition trim_end (s : bytes) : bytes :=
  rev (strip_all_fuel (map (@rev byte) white_space) (length s) (rev s)).
Definition trim (s : bytes) : bytes := trim_end (trim_start s).

(** [u8::is_ascii_whitespace] *)
Definition is_ascii_whitespace (b : byte) : bool :=
  bool_decide (u8 b ∈ [9; 10; 12; 13; 32]).

(** ** Lines *)

Definition nl : byte := Byte.x0a.
Definition cr : byte := Byte.x0d.

(** [line.strip_suffix('\r').unwrap_or(line)] *)
Definition strip_cr (l : bytes) : bytes :=
  match last l with
  | Some c => if byteb c cr then take (length l - 1) l else l
  | None => l
  end.

Definition line_step (s : bytes) : option (bytes * bytes) :=
  match s with
  | [] => None
  | _ => match split_once nl s with
         | Some (l, r) => Some (strip_cr l, r)
         | None => Some (s, [])
         end
  end.

Definition lines (s : bytes) : list bytes := walk line_step s.

Lemma line_step_shorter s l r : line_step s = Some (l, r) → (length r < length s)%nat.
Proof.
  unfold line_step. destruct s as [|b s]; [done|].
  destruct (split_once nl (b :: s)) as [[l' r']|] eqn:E; intros [= <- <-]; [|simpl; lia].
  apply split_once_Some in E as [-> _]. rewrite length_app. simpl. lia.
Qed.

Lemma strip_cr_id l : cr ∉ l → strip_cr l = l.
Proof.
  intros H. unfold strip_cr. destruct (last l) as [c|] eqn:E; [|done].
  rewrite byteb_neq; [done|]. intros ->. apply H. by apply last_Some_elem_of.
Qed.

Lemma lines_cons l s : nl ∉ l → cr ∉ l → lines (l ++ nl :: s) = l :: lines s.
Proof.
  intros Hn Hc. unfold lines. rewrite walk_unfold by apply line_step_shorter.
  unfold line_step. destruct (l ++ nl :: s) as [|b t] eqn:E; [by destruct l|].
  rewrite <- E, split_once_app, strip_cr_id by done. done.
Qed.

(** ** Decimal integers *)

Definition digit (z : Z) : byte := byte_of (48 + z).

Definition digit_val (b : byte) : option Z :=
  if (48 <=? u8 b) && (u8 b <=? 57) then Some (u8 b - 48) else None.

Fixpoint dec_fuel (fuel : nat) (z : Z) : bytes :=
  match fuel with
  | O => []
  | S fuel => (if z <? 10 then [] else dec_fuel fuel (z / 10)) ++ [digit (z mod 10)]
  end.

(** [Display] of an integer of at most 64 bits: [u64::MAX] has 20 digits. *)
Definition display_Z (z : Z) : bytes :=
  if z <? 0 then bs "-" ++ dec_fuel 20 (- z) else dec_fuel 20 z.

Fixpoint parse_digits (acc : Z) (s : bytes) : option Z :=
  match s with
  | [] => Some acc
  | b :: s => match digit_val b with
              | Some d => parse_digits (10 * acc + d) s
              | None => None
              end
  end.

Definition parse_nonempty (s : bytes) : option Z :=
  match s with [] => None | _ => parse_digits 0 s end.

Definition in_range (lo hi : Z) (o : option Z) : option Z :=
  match o with Some z => if (lo <=? z) && (z <=? hi) then Some z else None | None => None end.

Definition plus_sign : byte := Byte.x2b.
Definition minus_sign : byte := Byte.x2d.

(** [s.parse::<i64>().ok()] and [s.parse::<u64>().ok()]: the accumulator of the
    standard library is checked at every digit, which is the check of the final
    value because every prefix has a smaller magnitude. *)
Definition parse_i64 (s : bytes) : option Z :=
  in_range (- 2 ^ 63) (2 ^ 63 - 1)
    match s with
    | b :: t =>
        if byteb b minus_sign then Z.opp <$> parse_nonempty t
        else if byteb b plus_sign then parse_nonempty t else parse_nonempty s
    | [] => None
    end.
Definition parse_u64 (s : bytes) : option Z :=
  in_range 0 (2 ^ 64 - 1)
    match s with
    | b :: t => if byteb b plus_sign then parse_nonempty t else parse_nonempty s
    | [] => None
    end.

Lemma digit_val_digit z : 0 <= z < 10 → digit_val (digit z) = Some z.
Proof.
  intros Hz. unfold digit_val, digit. rewrite u8_byte_of, Z.mod_small by lia.
  zbool. simpl. f_equal. lia.
Qed.

Lemma parse_digits_app acc s t :
  parse_digits acc (s ++ t) = match parse_digits acc s with
                              | Some z => parse_digits z t | None => None end.
Proof.
  revert acc. induction s as [|b s IH]; intros acc; simpl; [done|].
  destruct (digit_val b); [apply IH|done].
Qed.

Lemma parse_digits_dec n z :
  (0 < n)%nat → 0 <= z < 10 ^ Z.of_nat n → parse_digits 0 (dec_fuel n z) = Some z.
Proof.
  revert z. induction n as [|n IH]; intros z Hn Hz; [lia|]. cbn [dec_fuel].
  pose proof (Z.mod_pos_bound z 10 eq_refl).
  rewrite parse_digits_app. destruct (Z.ltb_spec z 10) as [Hlt|Hge].
  - simpl. rewrite digit_val_digit by lia. by rewrite Z.mod_small by lia.
  - rewrite Nat2Z.inj_succ, Z.pow_succ_r in Hz by lia.
    destruct n as [|n]; [simpl in Hz; lia|].
    rewrite IH; [|lia|split; [apply Z.div_pos; lia|apply Z.div_lt_upper_bound; lia]].
    simpl. rewrite digit_val_digit by lia. f_equal. rewrite (Z.div_mod z 10) at 3 by lia. lia.
Qed.

Lemma dec_fuel_digits n z : 0 <= z → Forall (λ b, 48 <= u8 b <= 57) (dec_fuel n z).
Proof.
  revert z. induction n as [|n IH]; intros z Hz; cbn [dec_fuel]; [constructor|].
  apply Forall_app. split.
  - destruct (z <? 10); [constructor|]. apply IH, Z.div_pos; lia.
  - constructor; [|constructor]. unfold digit. rewrite u8_byte_of.
    pose proof (Z.mod_pos_bound z 10 eq_refl). rewrite Z.mod_small by lia. lia.
Qed.

Lemma dec_fuel_nonempty n z : (0 < n)%nat → dec_fuel n z ≠ [].
Proof. destruct n; [lia|]. intros _ H. cbn [dec_fuel] in H. by apply app_nil in H as [_ ?]. Qed.

Lemma parse_nonempty_dec z : 0 <= z < 10 ^ 20 → parse_nonempty (dec_fuel 20 z) = Some z.
Proof.
  intros Hz. unfold parse_nonempty. pose proof (dec_fuel_nonempty 20 z ltac:(lia)).
  destruct (dec_fuel 20 z) eqn:E; [done|]. rewrite <- E. by apply parse_digits_dec; [lia|].
Qed.

(** Printing and reading back an [i64] is the identity. *)
Lemma parse_i64_display z : fits_signed 64 z → parse_i64 (display_Z z) = Some z.
Proof.
  unfold fits_signed. intros Hz. unfold parse_i64, display_Z.
  destruct (Z.ltb_spec z 0) as [Hneg|Hpos].
  - change (bs "-") with [minus_sign]. cbn [app]. rewrite byteb_refl.
    rewrite parse_nonempty_dec by lia. simpl. zbool. simpl. f_equal. lia.
  - pose proof (dec_fuel_nonempty 20 z ltac:(lia)) as Hne.
    pose proof (dec_fuel_digits 20 z Hpos) as Hd.
    pose proof (parse_nonempty_dec z ltac:(lia)) as Hp.
    destruct (dec_fuel 20 z) as [|b t]; [done|].
    apply Forall_cons in Hd as [Hb _].
    rewrite !byteb_neq; [rewrite Hp; simpl; zbool; done| |];
      intros ->; [change (u8 plus_sign) with 43 in Hb|change (u8 minus_sign) with 45 in Hb]; lia.
Qed.

Lemma display_Z_no b z : (u8 b < 45 ∨ 57 < u8 b) → b ∉ display_Z z.
Proof.
  intros Hb Hin. unfold display_Z in Hin.
  assert (∀ y, 0 <= y → b ∉ dec_fuel 20 y) as Hd.
  { intros y Hy Hiny. pose proof (dec_fuel_digits 20 y Hy) as HF.
    rewrite Forall_forall in HF. specialize (HF b Hiny). simpl in HF. lia. }
  destruct (Z.ltb_spec z 0).
  - apply elem_of_app in Hin as [Hin|Hin]; [|by eapply Hd; [|exact Hin]; lia].
    change (bs "-") with [minus_sign] in Hin. apply list_elem_of_singleton in Hin as ->.
    change (u8 minus_sign) with 45 in Hb. lia.
  - by eapply Hd; [|exact Hin].
Qed.

(** ** UTF-8 validation ([core::str::from_utf8]) *)

Definition btw (lo hi : Z) (b : byte) : bool := (lo <=? u8 b) && (u8 b <=? hi).
Definition cont : byte → bool := btw 128 191.

Fixpoint utf8_valid (s : bytes) : bool :=
  match s with
  | [] => true
  | a :: s1 =>
      if u8 a <? 128 then utf8_valid s1
      else match s1 with
      | [] => false
      | b :: s2 =>
          if btw 194 223 a then cont b && utf8_valid s2
          else match s2 with
          | [] => false
          | c :: s3 =>
              if btw 224 239 a then
                (if u8 a =? 224 then btw 160 191 b
                 else if u8 a =? 237 then btw 128 159 b else cont b)
                && cont c && utf8_valid s3
              else match s3 with
              | [] => false
              | d :: s4 =>
                  btw 240 244 a
                  && (if u8 a =? 240 then btw 144 191 b
                      else if u8 a =? 244 then btw 128 143 b else cont b)
                  && cont c && cont d && utf8_valid s4
              end
          end
      end
  end.

Definition is_ascii (b : byte) : bool := u8 b <? 128.

Lemma utf8_valid_app s t : utf8_valid s = true → utf8_valid (s ++ t) = utf8_valid t.
Proof.
  remember (length s) as n eqn:Hn. assert (length s <= n)%nat as Hle by lia. clear Hn.
  revert s Hle. induction n as [|n IH]; intros s Hle Hv.
  { by destruct s; [|simpl in Hle; lia]. }
  destruct s as [|a s]; [done|]. simpl in Hle. cbn [app utf8_valid] in *.
  destruct (u8 a <? 128); [apply IH; [lia|done]|].
  destruct s as [|b s]; [done|]. cbn [app] in *. simpl in Hle.
  destruct (btw 194 223 a).
  { apply andb_true_iff in Hv as [-> Hv]. cbn [andb]. apply IH; [lia|done]. }
  destruct s as [|c s]; [done|]. cbn [app] in *. simpl in Hle.
  destruct (btw 224 239 a).
  { apply andb_true_iff in Hv as [Hc Hv]. rewrite Hc. cbn [andb]. apply IH; [lia|done]. }
  destruct s as [|d s]; [done|]. cbn [app] in *. simpl in Hle.
  apply andb_true_iff in Hv as [Hc Hv]. rewrite Hc. cbn [andb]. apply IH; [lia|done].
Qed.

Lemma utf8_valid_ascii s : Forall (λ b, is_ascii b = true) s → utf8_valid s = true.
Proof.
  induction 1 as [|b s Hb _ IH]; [done|]. simpl. unfold is_ascii in Hb. by rewrite Hb.
Qed.
