(* ===== verification/Sync.v ===== *)
(** * sync.rs: poison-tolerant locking

    A [Mutex] of the standard library holds a value and remembers whether a
    holder panicked. The client's mutexes are all taken through [lock]. *)

From S2P Require Import Prelude.

Record Mutex (T : Type) := { guarded : T; poisoned : bool }.
Arguments guarded {_}. Arguments poisoned {_}. Arguments Build_Mutex {_}.

(** [Mutex::lock]: the guard, inside the error when a holder has panicked. *)
Definition mutex_lock {T} (m : Mutex T) : T + T :=
  if poisoned m then inr (guarded m) else inl (guarded m).

Definition lock {T} (m : Mutex T) : T :=
  match mutex_lock m with inl guard => guard | inr guard => guard end.

(** What a task does with the guard: leave a value, or panic having left one. *)
Inductive critical (T : Type) :=
  | Returns (f : T → T)
  | Panics (f : T → T).
Arguments Returns {_}. Arguments Panics {_}.

(** A task that takes the lock with [lock], and one that unwraps [Mutex::lock]
    (which panics on a poisoned mutex without touching the value). *)
Definition locked {T} (c : critical T) (m : Mutex T) : Mutex T :=
  match c with
  | Returns f => {| guarded := f (lock m); poisoned := poisoned m |}
  | Panics f => {| guarded := f (lock m); poisoned := true |}
  end.
Definition unwrapped {T} (c : critical T) (m : Mutex T) : Mutex T :=
  match mutex_lock m with
  | inl _ => locked c m
  | inr _ => m
  end.

Definition effect {T} (c : critical T) : T → T := match c with Returns f | Panics f => f end.
Definition panics {T} (c : critical T) : bool := match c with Panics _ => true | Returns _ => false end.

(** With [lock] poisoning is invisible: the value is what the critical sections
    make of it one after the other, whoever panicked on the way. *)
Lemma lock_recovers {T} (cs : list (critical T)) (m : Mutex T) :
  let m' := fold_left (λ m c, locked c m) cs m in
  lock m' = fold_left (λ x c, effect c x) cs (lock m)
  ∧ poisoned m' = poisoned m || existsb panics cs.
Proof.
  assert (∀ m : Mutex T, lock m = guarded m) as Hl.
  { intros m0. unfold lock, mutex_lock. by destruct (poisoned m0). }
  revert m. induction cs as [|c cs IH]; intros m; cbn; [by rewrite orb_false_r|].
  destruct (IH (locked c m)) as [E1 E2]. rewrite E1, E2, !Hl.
  destruct c; cbn; rewrite ?Hl; split; try done; by destruct (poisoned m).
Qed.

(** Without it one panic freezes the value for good. *)
Lemma unwrap_dies {T} (f : T → T) (cs : list (critical T)) (m : Mutex T) :
  poisoned m = false →
  guarded (fold_left (λ m c, unwrapped c m) (Panics f :: cs) m) = f (guarded m).
Proof.
  intros Hp. cbn. unfold unwrapped at 2, mutex_lock. rewrite Hp. cbn.
  assert (lock m = guarded m) as -> by (unfold lock, mutex_lock; by rewrite Hp).
  generalize (f (guarded m)). induction cs as [|c cs IH]; intros x; [done|]. cbn. apply IH.
Qed.
