(* ===== verification/External.v ===== *)
(** * Third-party crates, as interfaces

    Code outside the repository is a parameter of the model. Each crate is an
    operations class; what the client relies on is a separate class of laws
    that state the crate's documented behaviour. Nothing here is an
    implementation: concrete instances, used only to evaluate the witnesses,
    are in the file Models. *)

From S2P Require Import Prelude.

(** ** zerocopy: reinterpreting bytes as [repr(C)], unaligned records

    A reference to a record is the slice of bytes it covers. *)
Class ZeroCopy := {
  (** [T::ref_from_prefix(bytes)] for [size_of::<T>() = size] *)
  ref_from_prefix (size : Z) (buf : bytes) : option (bytes * bytes);
  (** [<[T]>::ref_from_prefix_with_elems(bytes, count)] *)
  ref_from_prefix_with_elems (size : Z) (buf : bytes) (count : Z) :
    option (list bytes * bytes);
  (** [T::read_from_bytes(bytes)] *)
  read_from_bytes (size : Z) (buf : bytes) : option bytes;
  (** [little_endian::{U32, I32, F64}]: the bit pattern read by [get], and the
      bytes stored by [new]. *)
  le_get (field : bytes) : Z;
  le_new (width : nat) (v : Z) : bytes;
}.

Class ZeroCopyLaws `{ZeroCopy} : Prop := {
  (** The first [size] bytes and the rest, when there are that many. *)
  ref_from_prefix_spec size buf :
    ref_from_prefix size buf =
      if size <=? zlen buf
      then Some (take (Z.to_nat size) buf, drop (Z.to_nat size) buf) else None;
  (** [count] consecutive records from the start, when they fit. *)
  with_elems_fits (recs : list bytes) tail size :
    Forall (λ r, zlen r = size) recs →
    ref_from_prefix_with_elems size (concat recs ++ tail) (zlen recs) = Some (recs, tail);
  with_elems_too_long size buf count :
    0 <= size → 0 <= count → zlen buf < size * count →
    ref_from_prefix_with_elems size buf count = None;
  (** All of the bytes, when there are exactly [size]. *)
  read_from_bytes_spec size buf :
    read_from_bytes size buf = if zlen buf =? size then Some buf else None;
  le_get_spec field : le_get field = le_Z field;
  le_new_spec width v : le_new width v = le_bytes width v;
}.

(** ** hex *)
Class Hex := {
  hex_encode : bytes → bytes;
  hex_encode_upper : bytes → bytes;
  hex_decode : bytes → result bytes bytes;
}.

Definition is_hex_lower (b : byte) : bool :=
  ((48 <=? u8 b) && (u8 b <=? 57)) || ((97 <=? u8 b) && (u8 b <=? 102)).

Class HexLaws `{Hex} : Prop := {
  hex_encode_length l : length (hex_encode l) = (2 * length l)%nat;
  hex_encode_digits l : Forall (λ b, is_hex_lower b = true) (hex_encode l);
  hex_decode_encode l : hex_decode (hex_encode l) = Ok l;
}.

(** ** base64, [general_purpose::STANDARD] *)
Class Base64 := {
  b64_encode : bytes → bytes;
  b64_decode : bytes → result bytes bytes;
  (** [encode_slice(input, &mut out)] with [out.len() = cap]: the bytes written. *)
  b64_encode_slice (input : bytes) (cap : Z) : option bytes;
}.

(** The characters of the alphabet that [encodeURIComponent] leaves alone. *)
Definition is_alnum (b : byte) : bool :=
  ((48 <=? u8 b) && (u8 b <=? 57)) || ((65 <=? u8 b) && (u8 b <=? 90))
  || ((97 <=? u8 b) && (u8 b <=? 122)).
Definition is_b64 (b : byte) : bool :=
  is_alnum b || bool_decide (u8 b ∈ [43; 47; 61]).

Class Base64Laws `{Base64} : Prop := {
  b64_encode_alphabet l : Forall (λ b, is_b64 b = true) (b64_encode l);
  b64_encode_length l : zlen (b64_encode l) = (zlen l + 2) / 3 * 4;
  b64_decode_encode l : b64_decode (b64_encode l) = Ok l;
  b64_encode_slice_spec l cap :
    b64_encode_slice l cap = if zlen (b64_encode l) <=? cap then Some (b64_encode l) else None;
}.

(** ** aes / cbc *)
Class AesCbc := {
  (** Expanded round keys ([Aes256Enc]). *)
  Cipher : Type;
  cipher_new (key : bytes) : Cipher;
  (** [Encryptor::inner_iv_init(cipher, iv).encrypt_padded::<NoPadding>] and
      [Encryptor::new(key, iv).encrypt_padded::<NoPadding>]. *)
  cbc_encrypt_with (c : Cipher) (iv data : bytes) : option bytes;
  cbc_encrypt (key iv data : bytes) : option bytes;
  (** [Decryptor::new(key, iv).decrypt_padded::<NoPadding>] *)
  cbc_decrypt (key iv data : bytes) : option bytes;
}.

Class AesCbcLaws `{AesCbc} : Prop := {
  cbc_encrypt_with_new key iv data :
    cbc_encrypt_with (cipher_new key) iv data = cbc_encrypt key iv data;
  (** CBC over whole blocks is total, keeps the length and is inverted by
      decryption under the same key and IV. *)
  cbc_roundtrip key iv data :
    zlen data mod 16 = 0 →
    ∃ c, cbc_encrypt key iv data = Some c ∧ zlen c = zlen data
         ∧ cbc_decrypt key iv c = Some data;
}.

(** ** percent-encoding *)
Class PercentDecode := { percent_decode : bytes → bytes }.

Definition percent : byte := Byte.x25.

Class PercentDecodeLaws `{PercentDecode} : Prop := {
  percent_decode_nil : percent_decode [] = [];
  percent_decode_plain b s :
    b ≠ percent → percent_decode (b :: s) = b :: percent_decode s;
  (** The three escapes the client writes. *)
  percent_decode_plus s : percent_decode (bs "%2B" ++ s) = Byte.x2b :: percent_decode s;
  percent_decode_slash s : percent_decode (bs "%2F" ++ s) = Byte.x2f :: percent_decode s;
  percent_decode_equals s : percent_decode (bs "%3D" ++ s) = Byte.x3d :: percent_decode s;
}.

(** ** sha1, sha2, hmac *)
Class Digests := {
  sha1 : bytes → bytes;
  sha256 : bytes → bytes;
  (** [new_from_slice(key)] followed by [update] and [finalize]. *)
  hmac_sha1 (key data : bytes) : result bytes bytes;
  hmac_sha256 (key data : bytes) : result bytes bytes;
}.

(** ** sonic-rs *)
Class Json := {
  Value : Type;
  from_slice : bytes → result bytes Value;
  value_get : Value → bytes → option Value;
  as_str : Value → option bytes;
  as_i64 : Value → option Z;
  as_u64 : Value → option Z;
  as_bool : Value → option bool;
  is_object : Value → bool;
}.

(** The numeric accessors return values of their type. *)
Class JsonLaws `{Json} : Prop := {
  as_i64_range v z : as_i64 v = Some z → fits_signed 64 z;
  as_u64_range v z : as_u64 v = Some z → 0 <= z < 2 ^ 64;
}.

(** ** rsa *)
Class Rsa := {
  RsaPublicKey : Type;
  from_public_key_pem : bytes → result bytes RsaPublicKey;
  from_pkcs1_pem : bytes → result bytes RsaPublicKey;
  (** [key.encrypt(&mut rng, Pkcs1v15Encrypt, msg)] with the randomness drawn. *)
  rsa_encrypt (k : RsaPublicKey) (rng msg : bytes) : result bytes bytes;
}.
