(* ===== verification/Models.v ===== *)
(** * Concrete instances of the external interfaces

    Used only to evaluate the witnesses: they show that the laws of External
    can hold together. Nothing in the model of the client depends on them. *)

From S2P Require Import Prelude RustStr External.

(** ** zerocopy *)

Fixpoint split_records (size count : nat) (buf : bytes) : list bytes :=
  match count with
  | O => []
  | S count => take size buf :: split_records size count (drop size buf)
  end.

Definition zerocopy_model : ZeroCopy := {|
  ref_from_prefix size buf :=
    if size <=? zlen buf
    then Some (take (Z.to_nat size) buf, drop (Z.to_nat size) buf) else None;
  ref_from_prefix_with_elems size buf count :=
    if size * count <=? zlen buf
    then Some (split_records (Z.to_nat size) (Z.to_nat count) buf,
               drop (Z.to_nat (size * count)) buf)
    else None;
  read_from_bytes size buf := if zlen buf =? size then Some buf else None;
  le_get := le_Z;
  le_new := le_bytes;
|}.

Lemma split_records_concat size recs tail :
  Forall (λ r, length r = size) recs →
  split_records size (length recs) (concat recs ++ tail) = recs.
Proof.
  induction 1 as [|r recs Hr _ IH]; [done|]. cbn [length concat split_records].
  rewrite <- app_assoc. rewrite <- Hr, take_app_length, drop_app_length. by rewrite Hr, IH.
Qed.

Lemma zerocopy_model_laws : @ZeroCopyLaws zerocopy_model.
Proof.
  constructor; simpl; try done.
  - intros recs tail size Hr. pose proof (zlen_concat _ _ Hr) as Hc.
    rewrite zlen_app, Hc. pose proof (zlen_nonneg tail).
    rewrite (proj2 (Z.leb_le _ _)) by lia. rewrite drop_zlen_app by done.
    unfold zlen at 1. rewrite Nat2Z.id, split_records_concat; [done|].
    eapply Forall_impl; [exact Hr|]. intros r <-. unfold zlen. by rewrite Nat2Z.id.
  - intros size buf count _ _ H. by rewrite (proj2 (Z.leb_gt _ _)) by lia.
Qed.

(** ** hex *)

Definition hex_chars : bytes := bs "0123456789abcdef".
Definition hex_char (z : Z) : byte := nth (Z.to_nat z) hex_chars Byte.x00.
Definition hex_val (b : byte) : option Z :=
  let z := u8 b in
  if (48 <=? z) && (z <=? 57) then Some (z - 48)
  else if (97 <=? z) && (z <=? 102) then Some (z - 87)
  else if (65 <=? z) && (z <=? 70) then Some (z - 55) else None.

Fixpoint hex_enc (l : bytes) : bytes :=
  match l with
  | [] => []
  | b :: l => hex_char (u8 b / 16) :: hex_char (u8 b mod 16) :: hex_enc l
  end.
Definition to_upper (b : byte) : byte :=
  if (97 <=? u8 b) && (u8 b <=? 122) then byte_of (u8 b - 32) else b.
Fixpoint hex_dec (s : bytes) : option bytes :=
  match s with
  | [] => Some []
  | h :: l :: s =>
      match hex_val h, hex_val l, hex_dec s with
      | Some x, Some y, Some r => Some (byte_of (16 * x + y) :: r)
      | _, _, _ => None
      end
  | _ => None
  end.

Definition hex_model : Hex := {|
  hex_encode := hex_enc;
  hex_encode_upper l := map to_upper (hex_enc l);
  hex_decode s := ok_or (hex_dec s) (bs "invalid hex");
|}.

Lemma hex_char_byte b :
  is_hex_lower (hex_char (u8 b / 16)) = true ∧ is_hex_lower (hex_char (u8 b mod 16)) = true
  ∧ hex_val (hex_char (u8 b / 16)) = Some (u8 b / 16)
  ∧ hex_val (hex_char (u8 b mod 16)) = Some (u8 b mod 16).
Proof. by destruct b. Qed.

Lemma hex_model_laws : @HexLaws hex_model.
Proof.
  constructor; simpl; intros l.
  - induction l; simpl; lia.
  - induction l as [|b l IH]; [constructor|]. destruct (hex_char_byte b) as (?&?&_).
    by repeat constructor.
  - enough (hex_dec (hex_enc l) = Some l) as -> by done.
    induction l as [|b l IH]; [done|]. cbn [hex_enc hex_dec].
    destruct (hex_char_byte b) as (_&_&->&->). rewrite IH, <- Z.div_mod by lia.
    by rewrite byte_of_u8.
Qed.

(** ** base64 *)

Definition b64_chars : bytes :=
  bs "ABCDEFGHIJKLMNOPQRSTUVWXYZabcdefghijklmnopqrstuvwxyz0123456789+/".
Definition b64_char (z : Z) : byte := nth (Z.to_nat z) b64_chars Byte.x00.
Definition b64_val (b : byte) : option Z :=
  let z := u8 b in
  if (65 <=? z) && (z <=? 90) then Some (z - 65)
  else if (97 <=? z) && (z <=? 122) then Some (z - 71)
  else if (48 <=? z) && (z <=? 57) then Some (z + 4)
  else if z =? 43 then Some 62 else if z =? 47 then Some 63 else None.
Definition pad_char : byte := Byte.x3d.

Fixpoint b64_enc (l : bytes) : bytes :=
  match l with
  | a :: b :: c :: l =>
      [b64_char (u8 a / 4); b64_char (u8 a mod 4 * 16 + u8 b / 16);
       b64_char (u8 b mod 16 * 4 + u8 c / 64); b64_char (u8 c mod 64)] ++ b64_enc l
  | [a; b] => [b64_char (u8 a / 4); b64_char (u8 a mod 4 * 16 + u8 b / 16);
               b64_char (u8 b mod 16 * 4); pad_char]
  | [a] => [b64_char (u8 a / 4); b64_char (u8 a mod 4 * 16); pad_char; pad_char]
  | [] => []
  end.

Fixpoint b64_dec (s : bytes) : option bytes :=
  match s with
  | [] => Some []
  | w :: x :: y :: z :: s =>
      match b64_val w, b64_val x, b64_val y, b64_val z with
      | Some w, Some x, Some y, Some z =>
          match b64_dec s with
          | Some r => Some (byte_of (w * 4 + x / 16) :: byte_of (x mod 16 * 16 + y / 4)
                            :: byte_of (y mod 4 * 64 + z) :: r)
          | None => None
          end
      | Some w, Some x, Some y, None =>
          match s with [] => Some [byte_of (w * 4 + x / 16); byte_of (x mod 16 * 16 + y / 4)]
                     | _ => None end
      | Some w, Some x, None, None =>
          match s with [] => Some [byte_of (w * 4 + x / 16)] | _ => None end
      | _, _, _, _ => None
      end
  | _ => None
  end.

Definition base64_model : Base64 := {|
  b64_encode := b64_enc;
  b64_decode s := ok_or (b64_dec s) (bs "invalid base64");
  b64_encode_slice l cap := if zlen (b64_enc l) <=? cap then Some (b64_enc l) else None;
|}.

Lemma b64_char_ok z : 0 <= z < 64 → is_b64 (b64_char z) = true ∧ b64_val (b64_char z) = Some z.
Proof.
  intros Hz. rewrite <- (Z2Nat.id z) in * by lia. generalize dependent (Z.to_nat z).
  intros n Hn. do 64 (destruct n as [|n]; [by split|]). lia.
Qed.

(** The four digits of a three-byte group are in range, and give it back. *)
Lemma b64_group a b c : 0 <= a < 256 → 0 <= b < 256 → 0 <= c < 256 →
  0 <= a / 4 < 64 ∧ 0 <= a mod 4 * 16 + b / 16 < 64 ∧ 0 <= b mod 16 * 4 + c / 64 < 64
  ∧ 0 <= c mod 64 < 64
  ∧ a / 4 * 4 + (a mod 4 * 16 + b / 16) / 16 = a
  ∧ (a mod 4 * 16 + b / 16) mod 16 * 16 + (b mod 16 * 4 + c / 64) / 4 = b
  ∧ (b mod 16 * 4 + c / 64) mod 4 * 64 + c mod 64 = c.
Proof. intros. Z.to_euclidean_division_equations. lia. Qed.

Lemma b64_group2 a b : 0 <= a < 256 → 0 <= b < 256 →
  0 <= b mod 16 * 4 < 64
  ∧ (a mod 4 * 16 + b / 16) mod 16 * 16 + (b mod 16 * 4) / 4 = b.
Proof. intros. Z.to_euclidean_division_equations. lia. Qed.

Lemma b64_group1 a : 0 <= a < 256 →
  0 <= a mod 4 * 16 < 64 ∧ a / 4 * 4 + (a mod 4 * 16) / 16 = a.
Proof. intros. Z.to_euclidean_division_equations. lia. Qed.

(** Induction by groups of three. *)
Lemma triples_ind (P : bytes → Prop) :
  P [] → (∀ a, P [a]) → (∀ a b, P [a; b]) → (∀ a b c l, P l → P (a :: b :: c :: l)) →
  ∀ l, P l.
Proof.
  intros H0 H1 H2 H3 l. remember (length l) as n eqn:Hn. revert l Hn.
  induction n as [n IH] using lt_wf_ind. intros l ->.
  destruct l as [|a [|b [|c l]]]; auto. apply H3. apply (IH (length l)); simpl; [lia|done].
Qed.

Ltac b64_ranges a b c :=
  pose proof (u8_range a); pose proof (u8_range b); pose proof (u8_range c);
  destruct (b64_group (u8 a) (u8 b) (u8 c)) as (?&?&?&?&?&?&?); try done.

Lemma b64_enc_alphabet l : Forall (λ b, is_b64 b = true) (b64_enc l).
Proof.
  induction l as [|a|a b|a b c l IH] using triples_ind; cbn [b64_enc]; [constructor|..].
  - b64_ranges a a a. destruct (b64_group1 (u8 a)); [done|].
    repeat constructor; by apply b64_char_ok.
  - b64_ranges a b b. destruct (b64_group2 (u8 a) (u8 b)); [done|done|].
    repeat constructor; by apply b64_char_ok.
  - b64_ranges a b c. apply Forall_app_2; [|done].
    repeat constructor; by apply b64_char_ok.
Qed.

Lemma b64_enc_length l : zlen (b64_enc l) = (zlen l + 2) / 3 * 4.
Proof.
  induction l as [|a|a b|a b c l IH] using triples_ind; [done..|].
  cbn [b64_enc]. rewrite zlen_app, IH. unfold zlen. cbn [length].
  rewrite !Nat2Z.inj_succ.
  replace (Z.succ (Z.succ (Z.succ (Z.of_nat (length l)))) + 2)
    with (Z.of_nat (length l) + 2 + 1 * 3) by lia.
  rewrite Z.div_add by lia. lia.
Qed.

Lemma b64_dec_enc l : b64_dec (b64_enc l) = Some l.
Proof.
  induction l as [|a|a b|a b c l IH] using triples_ind; cbn [b64_enc]; [done|..].
  - b64_ranges a a a. destruct (b64_group1 (u8 a)) as [? Ha]; [done|].
    cbn [b64_dec]. rewrite !(fun z H => proj2 (b64_char_ok z H)) by done.
    simpl. by rewrite Ha, byte_of_u8.
  - b64_ranges a b b. destruct (b64_group2 (u8 a) (u8 b)) as [? Hb]; [done|done|].
    cbn [b64_dec]. rewrite !(fun z H => proj2 (b64_char_ok z H)) by done.
    simpl. rewrite Hb. match goal with E : _ = u8 a |- _ => rewrite E end.
    by rewrite !byte_of_u8.
  - b64_ranges a b c. cbn [app b64_dec].
    rewrite !(fun z H => proj2 (b64_char_ok z H)) by done. rewrite IH.
    repeat match goal with E : _ = u8 _ |- _ => rewrite E; clear E end.
    by rewrite !byte_of_u8.
Qed.

Lemma base64_model_laws : @Base64Laws base64_model.
Proof.
  constructor; simpl; intros.
  - apply b64_enc_alphabet.
  - apply b64_enc_length.
  - by rewrite b64_dec_enc.
  - done.
Qed.

(** ** percent decoding *)

Fixpoint percent_dec (s : bytes) : bytes :=
  match s with
  | [] => []
  | b :: t =>
      if byteb b percent then
        match t with
        | x :: y :: r =>
            match hex_val x, hex_val y with
            | Some h, Some l => byte_of (16 * h + l) :: percent_dec r
            | _, _ => b :: percent_dec t
            end
        | _ => b :: percent_dec t
        end
      else b :: percent_dec t
  end.

Definition percent_model : PercentDecode := {| percent_decode := percent_dec |}.

Lemma percent_model_laws : @PercentDecodeLaws percent_model.
Proof.
  constructor; simpl; try done. intros b s Hb. by rewrite byteb_neq.
Qed.

(** ** A cipher that leaves whole blocks unchanged *)

Definition aes_model : AesCbc := {|
  Cipher := bytes;
  cipher_new key := key;
  cbc_encrypt_with _ _ data := if zlen data mod 16 =? 0 then Some data else None;
  cbc_encrypt _ _ data := if zlen data mod 16 =? 0 then Some data else None;
  cbc_decrypt _ _ data := if zlen data mod 16 =? 0 then Some data else None;
|}.

Lemma aes_model_laws : @AesCbcLaws aes_model.
Proof.
  constructor; cbn [cbc_encrypt_with cbc_encrypt cbc_decrypt aes_model]; [done|].
  intros _ _ data H. exists data. by rewrite H.
Qed.

(** ** Digests that pad or truncate *)

Definition fixed (n : nat) (d : bytes) : bytes := take n (d ++ replicate n Byte.x00).

Definition digests_model : Digests := {|
  sha1 := fixed 20;
  sha256 := fixed 32;
  hmac_sha1 k d := Ok (fixed 20 (k ++ d));
  hmac_sha256 k d := Ok (fixed 32 (k ++ d));
|}.

(** ** JSON documents: objects, strings, integers and booleans *)

Inductive json :=
| JNull
| JBool (b : bool)
| JNum (z : Z)
| JStr (s : bytes)
| JObj (fields : list (bytes * json)).

Definition quote : byte := Byte.x22.
(** A document written with single quotes. *)
Definition json_text (s : bytes) : bytes := map (λ b, if byteb b Byte.x27 then quote else b) s.
Definition json_ws (b : byte) : bool := bool_decide (u8 b ∈ [9; 10; 13; 32]).

Fixpoint skip_ws (s : bytes) : bytes :=
  match s with b :: t => if json_ws b then skip_ws t else s | [] => [] end.

(** The characters up to the closing quote; a backslash takes the next one. *)
Fixpoint json_string (s : bytes) : option (bytes * bytes) :=
  match s with
  | [] => None
  | b :: t =>
      if byteb b quote then Some ([], t)
      else if byteb b Byte.x5c then
        match t with
        | c :: t => match json_string t with Some (l, r) => Some (c :: l, r) | None => None end
        | [] => None
        end
      else match json_string t with Some (l, r) => Some (b :: l, r) | None => None end
  end.

Fixpoint span_digits (s : bytes) : bytes * bytes :=
  match s with
  | b :: t => match digit_val b with
              | Some _ => let '(l, r) := span_digits t in (b :: l, r)
              | None => ([], s)
              end
  | [] => ([], [])
  end.

Fixpoint json_value (fuel : nat) (s : bytes) : option (json * bytes) :=
  match fuel with
  | O => None
  | S fuel =>
      let s := skip_ws s in
      match strip_prefix (bs "true") s, strip_prefix (bs "false") s, strip_prefix (bs "null") s with
      | Some r, _, _ => Some (JBool true, r)
      | _, Some r, _ => Some (JBool false, r)
      | _, _, Some r => Some (JNull, r)
      | _, _, _ =>
          match s with
          | [] => None
          | b :: t =>
              if byteb b quote then
                match json_string t with Some (l, r) => Some (JStr l, r) | None => None end
              else if byteb b Byte.x7b then
                (fix fields (n : nat) (acc : list (bytes * json)) (s : bytes) :=
                   match n with
                   | O => None
                   | S n =>
                       match skip_ws s with
                       | c :: s =>
                           if byteb c Byte.x7d then Some (JObj (rev acc), s)
                           else if byteb c Byte.x2c then fields n acc s
                           else if byteb c quote then
                             match json_string s with
                             | Some (k, r) =>
                                 match skip_ws r with
                                 | d :: r =>
                                     if byteb d Byte.x3a then
                                       match json_value fuel r with
                                       | Some (v, r) => fields n ((k, v) :: acc) r
                                       | None => None
                                       end
                                     else None
                                 | [] => None
                                 end
                             | None => None
                             end
                           else None
                       | [] => None
                       end
                   end) fuel [] t
              else
                match parse_digits 0 (fst (span_digits s)), fst (span_digits s) with
                | Some z, _ :: _ => Some (JNum z, snd (span_digits s))
                | _, _ => None
                end
          end
      end
  end.

Definition json_from_slice (s : bytes) : result bytes json :=
  match json_value (S (length s)) s with
  | Some (v, r) => match skip_ws r with [] => Ok v | _ => Err (bs "trailing characters") end
  | None => Err (bs "invalid JSON")
  end.

Fixpoint assoc (k : bytes) (l : list (bytes * json)) : option json :=
  match l with
  | [] => None
  | (k', v) :: l => if bool_decide (k = k') then Some v else assoc k l
  end.

Definition json_model : Json := {|
  Value := json;
  from_slice := json_from_slice;
  value_get v k := match v with JObj l => assoc k l | _ => None end;
  as_str v := match v with JStr s => Some s | _ => None end;
  as_i64 v := match v with
              | JNum z => in_range (- 2 ^ 63) (2 ^ 63 - 1) (Some z) | _ => None end;
  as_u64 v := match v with JNum z => in_range 0 (2 ^ 64 - 1) (Some z) | _ => None end;
  as_bool v := match v with JBool b => Some b | _ => None end;
  is_object v := match v with JObj _ => true | _ => false end;
|}.

Lemma json_model_laws : @JsonLaws json_model.
Proof.
  constructor; simpl; intros [| | z | |] w; try done; unfold in_range, fits_signed;
    zbool; simpl; intros [= <-]; lia.
Qed.

(** ** RSA: the wrapped payload, prefixed by the randomness *)

Definition rsa_model : Rsa := {|
  RsaPublicKey := bytes;
  from_public_key_pem pem := Ok pem;
  from_pkcs1_pem _ := Err (bs "not PKCS#1");
  rsa_encrypt _ rng msg := Ok (rng ++ msg);
|}.
