(* ===== verification/Errors.v ===== *)
(** * error.rs: the error type and its classification *)

From S2P Require Import Prelude RustStr.

Inductive Error : Type :=
| Http (msg : bytes)
| HttpStatus (status : Z) (message : bytes)
| WebSocket (msg : bytes)
| Tls (msg : bytes)
| TlsPinMismatch (expected actual : bytes)
| Protocol (msg : bytes)
| Auth (msg : bytes)
| Crypto (msg : bytes)
| JsonError (msg : bytes)
| Io (msg : bytes)
| Timeout (msg : bytes)
| Closed (msg : bytes)
| ReconnectExhausted (attempts : Z)
| NoEventSlots
| TooManyConnections
| UserDisabled
| NotLocal
| HandlerPanic
| Stopped
| InvalidUuid (msg : bytes)
| NotConnected
| Backpressure
| ChannelClosed.

(** [Result<T>] of the crate. *)
Abbreviation Result := (result Error).

#[export] Instance Error_eq_dec : EqDecision Error.
Proof. solve_decision. Defined.

(** The [#[error(...)]] texts. *)
Definition error_display (e : Error) : bytes :=
  match e with
  | Http m => bs "HTTP error: " ++ m
  | HttpStatus s m => bs "HTTP status " ++ display_Z s ++ bs ": " ++ m
  | WebSocket m => bs "WebSocket error: " ++ m
  | Tls m => bs "TLS error: " ++ m
  | TlsPinMismatch x a =>
      bs "certificate pin mismatch: expected SPKI " ++ x ++ bs ", got " ++ a
  | Protocol m => bs "protocol error: " ++ m
  | Auth m => bs "authentication failed: " ++ m
  | Crypto m => bs "encryption error: " ++ m
  | JsonError m => bs "JSON error: " ++ m
  | Io m => bs "I/O error: " ++ m
  | Timeout m => bs "timeout: " ++ m
  | Closed m => bs "connection closed: " ++ m
  | ReconnectExhausted n => bs "reconnect failed after " ++ display_Z n ++ bs " attempts"
  | NoEventSlots => bs "Miniserver has no free event slots"
  | TooManyConnections => bs "Miniserver has reached its connection limit"
  | UserDisabled => bs "the Miniserver has disabled this user"
  | NotLocal => bs "connection is not local"
  | HandlerPanic => bs "the event handler panicked"
  | Stopped => bs "client stopped"
  | InvalidUuid m => bs "invalid UUID: " ++ m
  | NotConnected => bs "not connected"
  | Backpressure => bs "command channel is full"
  | ChannelClosed => bs "command channel closed"
  end.

Definition is_terminal (e : Error) : bool :=
  match e with NotLocal | UserDisabled | HandlerPanic => true | _ => false end.

Definition needs_long_backoff (e : Error) : bool :=
  match e with NoEventSlots | TooManyConnections => true | _ => false end.

(** [Error::in_step]: prefix the message with the handshake step. *)
Definition in_step (step : bytes) (e : Error) : Error :=
  if is_terminal e || needs_long_backoff e then e
  else Auth (step ++ bs ": " ++ error_display e).

(** What the supervisor dispatches on. *)
Definition verdict (e : Error) : bool * bool := (is_terminal e, needs_long_backoff e).

Lemma in_step_verdict step e : verdict (in_step step e) = verdict e.
Proof. by destruct e. Qed.

Lemma in_step_idem step step' e :
  is_terminal e || needs_long_backoff e = true → in_step step (in_step step' e) = e.
Proof. by destruct e. Qed.
