(* ===== verification/Uuid.v ===== *)
(** * uuid.rs: the 16-byte wire UUID and its Loxone string form *)

From S2P Require Import Prelude RustStr Errors.

Definition LOXONE_UUID_STR_LEN : nat := 35.

(** [LoxoneUuid(pub [u8; 16])]; [wf_uuid] is the array type. *)
Record LoxoneUuid := LoxUuid { uuid_bytes : bytes }.
Definition wf_uuid (u : LoxoneUuid) : Prop := length (uuid_bytes u) = 16%nat.

(** [LoxoneUuidStr([u8; 35])] *)
Record LoxoneUuidStr := LoxUuidStr { key_bytes : bytes }.

#[export] Instance LoxoneUuid_eq_dec : EqDecision LoxoneUuid.
Proof. solve_decision. Defined.
#[export] Instance LoxoneUuidStr_eq_dec : EqDecision LoxoneUuidStr.
Proof. solve_decision. Defined.
Lemma LoxUuid_eta u : LoxUuid (uuid_bytes u) = u.
Proof. by destruct u. Qed.
Lemma LoxUuidStr_eta u : LoxUuidStr (key_bytes u) = u.
Proof. by destruct u. Qed.
#[export] Instance LoxoneUuid_countable : Countable LoxoneUuid :=
  inj_countable' uuid_bytes LoxUuid LoxUuid_eta.
#[export] Instance LoxoneUuidStr_countable : Countable LoxoneUuidStr :=
  inj_countable' key_bytes LoxUuidStr LoxUuidStr_eta.

(** ** Formatting *)

Definition digits : bytes := bs "0123456789abcdef".
Definition nth_byte (l : bytes) (i : nat) : byte := nth i l Byte.x00.

(** The [while byte < 256] loop that fills the table. *)
Definition build_hex_lut : bytes :=
  fold_left (λ lut n,
      <[(n * 2 + 1)%nat := nth_byte digits (Z.to_nat (Z.land (Z.of_nat n) 15))]>
        (<[(n * 2)%nat := nth_byte digits (Z.to_nat (Z.shiftr (Z.of_nat n) 4))]> lut))
    (seq 0 256) (replicate 512 Byte.x00).

Definition HEX : bytes := Eval vm_compute in build_hex_lut.

Definition put_hex (out : bytes) (at_ : nat) (b : byte) : bytes :=
  let i := (Z.to_nat (u8 b) * 2)%nat in
  <[(at_ + 1)%nat := nth_byte HEX (i + 1)]> (<[at_ := nth_byte HEX i]> out).

Definition dash : byte := Byte.x2d.

Definition format_loxone_bytes (u : LoxoneUuid) : bytes :=
  let b := nth_byte (uuid_bytes u) in
  let out := replicate LOXONE_UUID_STR_LEN dash in
  let out := put_hex out 0 (b 3%nat) in
  let out := put_hex out 2 (b 2%nat) in
  let out := put_hex out 4 (b 1%nat) in
  let out := put_hex out 6 (b 0%nat) in
  let out := put_hex out 9 (b 5%nat) in
  let out := put_hex out 11 (b 4%nat) in
  let out := put_hex out 14 (b 7%nat) in
  let out := put_hex out 16 (b 6%nat) in
  (* while src < 16 { ...; src += 1; dst += 2 } from src = 8, dst = 19 *)
  fst (fold_left (λ '(out, dst) src, (put_hex out dst (b src), (dst + 2)%nat))
         (seq 8 8) (out, 19%nat)).

(** [std::str::from_utf8(buf).unwrap_or("")] *)
Definition as_ascii (buf : bytes) : bytes := if utf8_valid buf then buf else [].

Definition format_loxone_into (u : LoxoneUuid) (buf : bytes) : bytes :=
  buf ++ as_ascii (format_loxone_bytes u).
Definition format_loxone (u : LoxoneUuid) : bytes := format_loxone_into u [].
Definition format_loxone_key (u : LoxoneUuid) : LoxoneUuidStr :=
  LoxUuidStr (format_loxone_bytes u).
Definition key_as_str (k : LoxoneUuidStr) : bytes := as_ascii (key_bytes k).

(** ** Parsing *)

Definition hex_value (c : byte) : option Z :=
  let z := u8 c in
  if (48 <=? z) && (z <=? 57) then Some (z - 48)
  else if (97 <=? z) && (z <=? 102) then Some (z - 97 + 10)
  else if (65 <=? z) && (z <=? 70) then Some (z - 65 + 10)
  else None.

Definition hex_digit (z : Z) : byte := nth_byte digits (Z.to_nat z).

(** [{:?}] of [c as char], a Latin-1 character. *)
Definition char_debug (c : byte) : bytes :=
  let z := u8 c in
  let q := Byte.x27 in
  let bsl := Byte.x5c in
  let body :=
    if z =? 0 then [bsl; Byte.x30] else if z =? 9 then [bsl; Byte.x74]
    else if z =? 13 then [bsl; Byte.x72] else if z =? 10 then [bsl; Byte.x6e]
    else if z =? 39 then [bsl; q] else if z =? 92 then [bsl; bsl]
    else if (32 <=? z) && (z <=? 126) then [c]
    else if (z <? 161) || (z =? 173) then
      bsl :: bs "u{" ++ (if z <? 16 then [] else [hex_digit (z / 16)])
        ++ [hex_digit (z mod 16)] ++ bs "}"
    else [byte_of (192 + z / 64); byte_of (128 + z mod 64)] in
  [q] ++ body ++ [q].

Fixpoint parse_loop (s raw : bytes) (nibbles : nat) : Result (bytes * nat) :=
  match s with
  | [] => Ok (raw, nibbles)
  | c :: s =>
      if byteb c dash then parse_loop s raw nibbles
      else match hex_value c with
      | None => Err (InvalidUuid (bs "invalid hex digit " ++ char_debug c))
      | Some v =>
          if (32 <=? nibbles)%nat
          then Err (InvalidUuid (bs "expected 32 hex digits, got more"))
          else
            let i := Nat.div nibbles 2 in
            let raw_i := if Nat.even nibbles then byte_of (Z.shiftl v 4)
                         else byte_of (Z.lor (u8 (nth_byte raw i)) v) in
            parse_loop s (<[i := raw_i]> raw) (nibbles + 1)
      end
  end.

(** data1/2/3 are stored little-endian on the wire. *)
Definition wire_order (raw : bytes) : bytes :=
  map (nth_byte raw) [3; 2; 1; 0; 5; 4; 7; 6; 8; 9; 10; 11; 12; 13; 14; 15]%nat.

Definition parse (s : bytes) : Result LoxoneUuid :=
  '(raw, nibbles) ← parse_loop s (replicate 16 Byte.x00) 0;
  if Nat.eqb nibbles 32 then Ok (LoxUuid (wire_order raw))
  else Err (InvalidUuid (bs "expected 32 hex digits, got " ++ display_Z (Z.of_nat nibbles))).

(** ** Raw access *)

Definition read_at (buf : bytes) (offset : Z) : option LoxoneUuid :=
  end_ ← checked_add offset 16;
  slice ← get_range buf offset end_;
  Some (LoxUuid slice).

Definition as_u64_pair (be : bool) (u : LoxoneUuid) : Z * Z :=
  (ne_Z be (take 8 (uuid_bytes u)), ne_Z be (take 8 (drop 8 (uuid_bytes u)))).

(** [impl Hash]: two [write_u64] on the hasher. *)
Definition hash_uuid {H} (be : bool) (write_u64 : H → Z → H) (u : LoxoneUuid) (st : H) : H :=
  let '(lo, hi) := as_u64_pair be u in write_u64 (write_u64 st lo) hi.

(** ** The reference layout: [8-4-4-16] lowercase digits, as [format!] prints it *)

Definition hex2 (b : byte) : bytes := [hex_digit (u8 b / 16); hex_digit (u8 b mod 16)].

Definition reference_format (u : LoxoneUuid) : bytes :=
  let b := nth_byte (uuid_bytes u) in
  hex2 (b 3%nat) ++ hex2 (b 2%nat) ++ hex2 (b 1%nat) ++ hex2 (b 0%nat) ++ [dash]
  ++ hex2 (b 5%nat) ++ hex2 (b 4%nat) ++ [dash] ++ hex2 (b 7%nat) ++ hex2 (b 6%nat)
  ++ [dash] ++ concat (map (λ i, hex2 (b i)) (seq 8 8)).

Lemma HEX_is_built : HEX = build_hex_lut.
Proof. vm_compute. reflexivity. Qed.

Lemma HEX_hi b : nth_byte HEX (Z.to_nat (u8 b) * 2) = hex_digit (u8 b / 16).
Proof. by destruct b. Qed.
Lemma HEX_lo b : nth_byte HEX (Z.to_nat (u8 b) * 2 + 1) = hex_digit (u8 b mod 16).
Proof. by destruct b. Qed.

Lemma put_hex_eq out at_ b :
  put_hex out at_ b =
    <[(at_ + 1)%nat := hex_digit (u8 b mod 16)]> (<[at_ := hex_digit (u8 b / 16)]> out).
Proof. unfold put_hex. by rewrite HEX_hi, HEX_lo. Qed.

Lemma format_is_reference u : format_loxone_bytes u = reference_format u.
Proof.
  unfold format_loxone_bytes. cbn [fold_left seq fst]. rewrite !put_hex_eq. reflexivity.
Qed.

Lemma nibble_bounds b : 0 <= u8 b / 16 < 16 ∧ 0 <= u8 b mod 16 < 16.
Proof.
  pose proof (u8_range b). split; [|by apply Z.mod_pos_bound].
  split; [apply Z.div_pos; lia|apply Z.div_lt_upper_bound; lia].
Qed.

(** Case analysis on a digit value. *)
Ltac nibble_cases z Hz :=
  rewrite <- (Z2Nat.id z) in * by lia; generalize dependent (Z.to_nat z);
  let n := fresh "n" in let Hn := fresh "Hn" in
  intros n Hn; do 16 (destruct n as [|n]; [reflexivity|]); lia.

Lemma hex_value_digit z : 0 <= z < 16 → hex_value (hex_digit z) = Some z.
Proof.
  intros Hz. nibble_cases z Hz.
Qed.

Lemma hex_digit_not_dash z : 0 <= z < 16 → byteb (hex_digit z) dash = false.
Proof.
  intros Hz. nibble_cases z Hz.
Qed.

Lemma hex_digit_ascii z : 0 <= z < 16 → is_ascii (hex_digit z) = true.
Proof.
  intros Hz. nibble_cases z Hz.
Qed.

Lemma reference_ascii u : Forall (λ b, is_ascii b = true) (reference_format u).
Proof.
  assert (∀ b, Forall (λ b, is_ascii b = true) (hex2 b)) as H2.
  { intros b. destruct (nibble_bounds b). unfold hex2.
    repeat constructor; by apply hex_digit_ascii. }
  unfold reference_format. cbn [seq map concat].
  repeat (apply Forall_app_2; [first [apply H2 | repeat constructor]|]). constructor.
Qed.

Lemma reference_length u : length (reference_format u) = LOXONE_UUID_STR_LEN.
Proof. reflexivity. Qed.

Lemma as_ascii_format u : as_ascii (format_loxone_bytes u) = reference_format u.
Proof.
  rewrite format_is_reference. unfold as_ascii.
  by rewrite utf8_valid_ascii by apply reference_ascii.
Qed.

(** ** The digits of a string *)

(** The value of every character that is not a dash, if all are hex digits. *)
Fixpoint nibbles_of (s : bytes) : option (list Z) :=
  match s with
  | [] => Some []
  | c :: s =>
      if byteb c dash then nibbles_of s
      else match hex_value c, nibbles_of s with
           | Some v, Some vs => Some (v :: vs)
           | _, _ => None
           end
  end.

(** Two digits per byte, high digit first. *)
Fixpoint pack (vs : list Z) : bytes :=
  match vs with
  | h :: l :: vs => byte_of (16 * h + l) :: pack vs
  | [h] => [byte_of (16 * h)]
  | [] => []
  end.

Definition nibble (v : Z) : Prop := 0 <= v < 16.

Lemma hex_value_nibble c v : hex_value c = Some v → nibble v.
Proof.
  unfold hex_value, nibble. pose proof (u8_range c).
  repeat (case_match; [intros [= <-]; lia|]); done.
Qed.

Lemma pack_pairs vs ws :
  Nat.even (length vs) = true → pack (vs ++ ws) = pack vs ++ pack ws.
Proof.
  remember (length vs) as n eqn:Hn. assert (length vs <= n)%nat as Hle by lia.
  intros Hev. rewrite Hn in Hev. clear Hn. revert vs Hle Hev.
  induction n as [|n IH]; intros vs Hle Hev.
  { by destruct vs; [|simpl in Hle; lia]. }
  destruct vs as [|h [|l vs]]; [done|done|]. cbn [app pack].
  f_equal. apply IH; [simpl in Hle; lia|done].
Qed.

Lemma pack_length vs : length (pack vs) = Nat.div (length vs + 1) 2.
Proof.
  remember (length vs) as n eqn:Hn. revert vs Hn.
  induction n as [n IH] using lt_wf_ind. intros vs ->.
  destruct vs as [|h [|l vs]]; [done|done|]. cbn [pack length].
  rewrite (IH (length vs)) with (vs := vs) by (simpl; lia).
  replace (S (S (length vs)) + 1)%nat with (length vs + 1 + 1 * 2)%nat by lia.
  rewrite Nat.div_add by lia. lia.
Qed.

(** ** Correctness of [parse] *)

(** The 16-byte buffer after the digits [vs] have been read. *)
Definition raw_of (vs : list Z) : bytes :=
  pack vs ++ replicate (16 - length (pack vs)) Byte.x00.

Lemma lor_nibble h v : nibble h → nibble v → Z.lor (16 * h) v = 16 * h + v.
Proof.
  unfold nibble. intros Hh Hv.
  replace (16 * h) with (Z.shiftl h 4) by (rewrite Z.shiftl_mul_pow2; lia).
  rewrite Z.lor_comm, <- Z.add_nocarry_lor; [lia|].
  apply Z.bits_inj'. intros n Hn. rewrite Z.land_spec, Z.bits_0.
  destruct (Z.lt_ge_cases n 4).
  - rewrite Z.shiftl_spec_low by lia. apply andb_false_r.
  - rewrite <- (Z.mod_small v (2 ^ 4)) by lia. rewrite Z.mod_pow2_bits_high by lia. done.
Qed.

Lemma insert_after_pack (l : bytes) k x :
  (length l < k)%nat →
  <[length l := x]> (l ++ replicate (k - length l) Byte.x00)
  = l ++ [x] ++ replicate (k - (length l + 1)) Byte.x00.
Proof.
  intros Hl. rewrite insert_app_r_alt, Nat.sub_diag by lia.
  destruct (k - length l)%nat as [|m] eqn:E; [lia|]. simpl.
  do 3 f_equal. lia.
Qed.

Lemma raw_of_snoc vs v :
  (length vs < 32)%nat → Forall nibble vs → nibble v →
  raw_of (vs ++ [v]) =
    <[Nat.div (length vs) 2 :=
        (if Nat.even (length vs) then byte_of (Z.shiftl v 4)
         else byte_of (Z.lor (u8 (nth_byte (raw_of vs) (Nat.div (length vs) 2))) v))]>
      (raw_of vs).
Proof.
  intros Hlen Hvs Hv. destruct (Nat.even (length vs)) eqn:Hev.
  - assert (Nat.div (length vs) 2 = length (pack vs)) as Hdiv.
    { rewrite pack_length. apply Nat.even_spec in Hev as [k ->].
      rewrite Nat.mul_comm, Nat.div_mul, Nat.div_add_l by lia. simpl. lia. }
    assert (length (pack vs) < 16)%nat by (rewrite <- Hdiv; apply Nat.Div0.div_lt_upper_bound; lia).
    rewrite Hdiv. unfold raw_of at 2. rewrite insert_after_pack by done.
    unfold raw_of. rewrite pack_pairs by done. rewrite length_app, <- app_assoc.
    cbn [pack length app]. rewrite Z.shiftl_mul_pow2 by lia. do 2 f_equal. f_equal. lia.
  - destruct vs as [|h vs _] using rev_ind; [done|].
    apply Forall_app in Hvs as [_ Hh]. apply Forall_cons in Hh as [Hh _].
    rewrite length_app in *. cbn [length] in *. rewrite Nat.add_1_r, Nat.even_succ in Hev.
    rewrite <- Nat.negb_even in Hev. apply negb_false_iff in Hev.
    assert (Nat.div (length vs + 1) 2 = length (pack vs)) as Hdiv by (by rewrite pack_length).
    rewrite Hdiv. unfold raw_of. rewrite <- app_assoc. cbn [app].
    rewrite !pack_pairs by done. cbn [pack].
    rewrite !length_app. cbn [length]. rewrite <- !app_assoc. cbn [app].
    unfold nth_byte. rewrite nth_middle, insert_app_r_alt, Nat.sub_diag by lia. simpl.
    do 2 f_equal. unfold nibble in *. rewrite u8_byte_of, Z.mod_small by lia.
    by rewrite lor_nibble.
Qed.

Lemma nibbles_of_nibble s vs : nibbles_of s = Some vs → Forall nibble vs.
Proof.
  revert vs. induction s as [|c s IH]; intros vs; simpl; [by intros [= <-]|].
  destruct (byteb c dash); [apply IH|].
  destruct (hex_value c) eqn:E; [|done]. destruct (nibbles_of s); [|done].
  intros [= <-]. constructor; [by eapply hex_value_nibble|by apply IH].
Qed.

Lemma parse_loop_spec s vs r :
  Forall nibble vs → (length vs <= 32)%nat →
  parse_loop s (raw_of vs) (length vs) = Ok r ↔
  ∃ ws, nibbles_of s = Some ws ∧ (length (vs ++ ws) <= 32)%nat
        ∧ r = (raw_of (vs ++ ws), length (vs ++ ws)).
Proof.
  revert vs. induction s as [|c s IH]; intros vs Hvs Hlen; cbn [parse_loop nibbles_of].
  { split; [intros [= <-]; exists []; rewrite app_nil_r; done|].
    intros (ws & [= <-] & _ & ->). by rewrite app_nil_r. }
  destruct (byteb c dash); [by apply IH|].
  destruct (hex_value c) as [v|] eqn:Ev; [|by split; [|intros (? & ? & _)]].
  pose proof (hex_value_nibble _ _ Ev) as Hv.
  destruct (Nat.leb_spec 32 (length vs)) as [Hge|Hlt].
  - split; [done|]. intros (ws & Hws & Hl & _). destruct (nibbles_of s); [|done].
    injection Hws as <-. rewrite length_app in Hl. simpl in Hl. lia.
  - rewrite <- raw_of_snoc by done.
    replace (length vs + 1)%nat with (length (vs ++ [v])) by (rewrite length_app; done).
    rewrite IH; [|by apply Forall_app_2; [|constructor]|rewrite length_app; simpl; lia].
    split; intros (ws & Hws & Hl & ->).
    + exists (v :: ws). rewrite Hws. rewrite <- app_assoc in *. by split.
    + destruct (nibbles_of s) as [us|]; [|done]. injection Hws as <-.
      exists us. rewrite <- app_assoc. by split.
Qed.

(** [parse] succeeds exactly on the strings with 32 hex digits among dashes. *)
Lemma parse_Ok s u :
  parse s = Ok u ↔
  ∃ ws, nibbles_of s = Some ws ∧ length ws = 32%nat ∧ u = LoxUuid (wire_order (pack ws)).
Proof.
  unfold parse. change (replicate 16 Byte.x00) with (raw_of []).
  pose proof (parse_loop_spec s [] ) as Hspec.
  assert (∀ ws, length ws = 32%nat → raw_of ws = pack ws) as Hfull.
  { intros ws Hws. unfold raw_of. by rewrite pack_length, Hws, app_nil_r. }
  split.
  - intros H. destruct (parse_loop s (raw_of []) 0) as [[raw n]|] eqn:E; [|done].
    apply Hspec in E as (ws & Hws & _ & [= -> ->]); [|constructor|simpl; lia].
    simpl in H. destruct (Nat.eqb_spec (length ws) 32) as [Hl|]; [|done].
    injection H as <-. exists ws. by rewrite Hfull.
  - intros (ws & Hws & Hl & ->).
    assert (parse_loop s (raw_of []) 0 = Ok (raw_of ws, length ws)) as ->.
    { apply Hspec; [constructor|simpl; lia|]. exists ws. simpl. rewrite Hl. done. }
    simpl. rewrite Hl, Hfull by done. done.
Qed.

Lemma nibbles_of_app s t :
  nibbles_of (s ++ t) =
    match nibbles_of s, nibbles_of t with Some a, Some b => Some (a ++ b) | _, _ => None end.
Proof.
  induction s as [|c s IH]; simpl; [by destruct (nibbles_of t)|].
  destruct (byteb c dash); [exact IH|]. rewrite IH.
  by destruct (hex_value c), (nibbles_of s), (nibbles_of t).
Qed.

Lemma nibbles_of_hex2 b : nibbles_of (hex2 b) = Some [u8 b / 16; u8 b mod 16].
Proof.
  destruct (nibble_bounds b). unfold hex2. cbn [nibbles_of].
  by rewrite !hex_digit_not_dash, !hex_value_digit by done.
Qed.

Lemma pack_nibbles b vs : pack (u8 b / 16 :: u8 b mod 16 :: vs) = b :: pack vs.
Proof.
  cbn [pack]. f_equal. rewrite <- Z.div_mod by lia. apply byte_of_u8.
Qed.

Lemma wf_uuid_cases u : wf_uuid u → ∃ b0 b1 b2 b3 b4 b5 b6 b7 b8 b9 b10 b11 b12 b13 b14 b15,
  u = LoxUuid [b0;b1;b2;b3;b4;b5;b6;b7;b8;b9;b10;b11;b12;b13;b14;b15].
Proof.
  destruct u as [l]. unfold wf_uuid. simpl. intros H.
  do 16 (destruct l as [|? l]; [done|]). destruct l; [|done]. by repeat eexists.
Qed.

Lemma parse_reference (u : LoxoneUuid) : wf_uuid u → parse (reference_format u) = Ok u.
Proof.
  intros (b0&b1&b2&b3&b4&b5&b6&b7&b8&b9&b10&b11&b12&b13&b14&b15&->)%wf_uuid_cases.
  apply parse_Ok.
  unfold reference_format. cbn [uuid_bytes nth_byte nth seq map concat].
  rewrite !nibbles_of_app, !nibbles_of_hex2. eexists. split; [reflexivity|].
  split; [reflexivity|]. cbn [app]. rewrite !pack_nibbles. reflexivity.
Qed.

Lemma format_loxone_reference u : format_loxone u = reference_format u.
Proof. unfold format_loxone, format_loxone_into. by rewrite as_ascii_format. Qed.

Lemma format_loxone_key_inj u v :
  wf_uuid u → wf_uuid v → format_loxone_key u = format_loxone_key v → u = v.
Proof.
  intros Hu Hv H%(f_equal key_bytes). cbn [format_loxone_key key_bytes] in H.
  rewrite !format_is_reference in H.
  pose proof (parse_reference u Hu) as Pu. rewrite H, parse_reference in Pu by done.
  congruence.
Qed.

Lemma wire_order_inj k l :
  length k = 16%nat → length l = 16%nat → wire_order k = wire_order l → k = l.
Proof.
  intros Hk Hl. do 16 (destruct k as [|? k]; [done|]). destruct k; [|done].
  do 16 (destruct l as [|? l]; [done|]). destruct l; [|done].
  unfold wire_order. cbn [map nth_byte nth]. by intros [= -> -> -> -> -> -> -> -> -> -> -> -> -> -> -> ->].
Qed.

Lemma pack_inj vs ws :
  length vs = length ws → Forall nibble vs → Forall nibble ws → pack vs = pack ws → vs = ws.
Proof.
  remember (length vs) as n eqn:Hn. revert vs ws Hn.
  induction n as [n IH] using lt_wf_ind. intros vs ws -> Hlen Hv Hw H.
  unfold nibble in *.
  destruct vs as [|h [|l vs]], ws as [|h' [|l' ws]]; try done.
  - injection H as H. decompose_Forall_hyps. apply byte_of_inj in H; [|lia|lia]. f_equal. lia.
  - cbn [pack] in H. apply (inj2 cons) in H as [H Hp]. decompose_Forall_hyps.
    apply byte_of_inj in H; [|lia|lia].
    rewrite (IH (length vs)) with (vs := vs) (ws := ws); simpl in *; try done; try lia.
    f_equal; [lia|]. f_equal. lia.
Qed.

Lemma parse_wf s u : parse s = Ok u → wf_uuid u.
Proof. intros (ws & _ & _ & ->)%parse_Ok. reflexivity. Qed.

Lemma parse_Err s e : parse s = Err e → ∃ m, e = InvalidUuid m.
Proof.
  unfold parse. intros H.
  assert (∀ s raw n e, parse_loop s raw n = Err e → ∃ m, e = InvalidUuid m) as Hloop.
  { clear. induction s as [|c s IH]; intros raw n e; cbn [parse_loop]; [done|].
    destruct (byteb c dash); [apply IH|]. destruct (hex_value c); [|intros [= <-]; by eexists].
    destruct (32 <=? n)%nat; [intros [= <-]; by eexists|apply IH]. }
  destruct (parse_loop _ _ _) as [[raw n]|e'] eqn:E; simpl in H.
  - destruct (Nat.eqb n 32); [done|]. injection H as <-. by eexists.
  - injection H as <-. by eapply Hloop.
Qed.

(** [C34] Formatting a UUID and parsing the result gives the UUID back, for the
    [String] form and for the inline map key alike. *)
Theorem parse_format_roundtrip (u : LoxoneUuid) :
  wf_uuid u →
  parse (format_loxone u) = Ok u ∧ parse (key_as_str (format_loxone_key u)) = Ok u.
Proof.
  intros Hu. unfold key_as_str, format_loxone_key. cbn [key_bytes].
  rewrite as_ascii_format, format_loxone_reference. split; by apply parse_reference.
Qed.

Definition sample_uuid : LoxoneUuid :=
  LoxUuid (map byte_of [154; 95; 252; 237; 63; 223; 173; 76; 157; 221; 205; 196; 44; 115; 43; 226]).

Lemma parse_format_roundtrip_witness :
  format_loxone sample_uuid = bs "edfc5f9a-df3f-4cad-9dddcdc42c732be2" ∧
  parse (format_loxone sample_uuid) = Ok sample_uuid ∧
  parse (key_as_str (format_loxone_key sample_uuid)) = Ok sample_uuid.
Proof. split; [reflexivity|]. apply (parse_format_roundtrip sample_uuid). reflexivity. Defined.

(** The lookup-table formatter prints exactly the reference layout
    [8-4-4-16] of lowercase digits, for every UUID: 35 ASCII bytes with dashes
    at 8, 13 and 18, appended to the buffer without touching its contents. *)
Lemma format_loxone_into_spec (u : LoxoneUuid) (buf : bytes) :
  format_loxone_into u buf = buf ++ reference_format u
  ∧ length (format_loxone_bytes u) = LOXONE_UUID_STR_LEN
  ∧ Forall (λ b, is_ascii b = true) (format_loxone_bytes u)
  ∧ (∀ i, (i < 35)%nat → format_loxone_bytes u !! i = Some dash ↔ i ∈ [8; 13; 18]%nat).
Proof.
  unfold format_loxone_into. rewrite as_ascii_format, format_is_reference.
  split; [done|]. split; [done|]. split; [apply reference_ascii|].
  intros i Hi. assert (∀ z, 0 <= z < 16 → hex_digit z ≠ dash) as Hnd.
  { intros z Hz H. pose proof (hex_digit_not_dash z Hz) as E. by rewrite H in E. }
  unfold reference_format, hex2. cbn [seq map concat app].
  do 35 (destruct i as [|i]; [cbn [lookup list_lookup];
    rewrite !elem_of_cons, elem_of_nil;
    first [ split; [intros _; lia|done]
          | split; [intros [= E]; exfalso; revert E; apply Hnd, nibble_bounds|lia] ] |]).
  lia.
Qed.

(** [parse] accepts exactly the strings with 32 hex digits, wherever the
    dashes are and whatever the case of the digits; formatting what it returns
    spells the same digits again. Everything else is an [InvalidUuid] error. *)
Lemma parse_normalises (s : bytes) :
  match parse s with
  | Ok u => wf_uuid u ∧ nibbles_of (format_loxone u) = nibbles_of s
  | Err e => (∃ m, e = InvalidUuid m)
             ∧ ¬ ∃ ws, nibbles_of s = Some ws ∧ length ws = 32%nat
  end.
Proof.
  destruct (parse s) as [u|e] eqn:E.
  - pose proof (parse_wf _ _ E) as Hu. split; [done|].
    rewrite format_loxone_reference. pose proof (parse_reference u Hu) as Pu.
    apply parse_Ok in E as (ws & Ews & Hl & ->).
    apply parse_Ok in Pu as (vs & Evs & Hl' & Heq%(f_equal uuid_bytes)).
    cbn [uuid_bytes] in Heq. apply wire_order_inj in Heq; [|by rewrite pack_length, ?Hl, ?Hl'..].
    rewrite Ews, Evs. f_equal.
    apply pack_inj; [congruence|by eapply nibbles_of_nibble|by eapply nibbles_of_nibble|done].
  - split; [by eapply parse_Err|]. intros (ws & Hws & Hl).
    assert (parse s = Ok (LoxUuid (wire_order (pack ws)))) by (apply parse_Ok; eauto).
    congruence.
Qed.
