(* ===== verification/Header.v ===== *)
(** * proto/header.rs: the 8-byte message header *)

From S2P Require Import Prelude RustStr External Models Errors.

Inductive MessageType :=
| Text | BinaryFile | ValueStates | TextStates | DaytimerStates | OutOfService
| Keepalive | WeatherStates.

Definition mt_as_u8 (t : MessageType) : Z :=
  match t with
  | Text => 0 | BinaryFile => 1 | ValueStates => 2 | TextStates => 3
  | DaytimerStates => 4 | OutOfService => 5 | Keepalive => 6 | WeatherStates => 7
  end.

(** [MessageType::from_u8] *)
Definition mt_from_u8 (v : Z) : option MessageType :=
  match v with
  | 0 => Some Text | 1 => Some BinaryFile | 2 => Some ValueStates | 3 => Some TextStates
  | 4 => Some DaytimerStates | 5 => Some OutOfService | 6 => Some Keepalive
  | 7 => Some WeatherStates | _ => None
  end.

#[export] Instance MessageType_eq_dec : EqDecision MessageType.
Proof. solve_decision. Defined.

Record WsBinHdr := {
  bin_type : byte;
  identifier : byte;
  info : byte;
  reserved : byte;
  len : bytes;  (* [u8; 4] *)
}.
Definition wf_hdr (h : WsBinHdr) : Prop := length (len h) = 4%nat.

Definition HDR_SIZE : Z := 8.
Definition MAGIC : byte := Byte.x03.
Definition INFO_ESTIMATED : Z := 1.

(** [u32::from_le_bytes(self.len)] *)
Definition payload_len (h : WsBinHdr) : Z := le_Z (len h).
Definition is_estimated (h : WsBinHdr) : bool := negb (Z.land (u8 (info h)) INFO_ESTIMATED =? 0).
Definition message_type (h : WsBinHdr) : option MessageType := mt_from_u8 (u8 (identifier h)).

(** The [repr(C)] layout. *)
Definition hdr_of_bytes (raw : bytes) : WsBinHdr :=
  let b := λ i, nth i raw Byte.x00 in
  {| bin_type := b 0%nat; identifier := b 1%nat; info := b 2%nat; reserved := b 3%nat;
     len := take 4 (drop 4 raw) |}.

Section header.
Context `{!ZeroCopy}.

Definition parse_header (buf : bytes) : Result (option WsBinHdr) :=
  if negb (zlen buf =? HDR_SIZE) then Ok None
  else
    hdr ← match read_from_bytes HDR_SIZE buf with
          | Some raw => Ok (hdr_of_bytes raw)
          | None => Err (Protocol (bs "invalid header layout"))
          end;
    if negb (byteb (bin_type hdr) MAGIC) then Ok None else Ok (Some hdr).
End header.

(** ** Correctness *)

(** The frame a peer sends for a header. *)
Definition encode_header (h : WsBinHdr) : bytes :=
  [bin_type h; identifier h; info h; reserved h] ++ len h.

Lemma encode_header_length h : wf_hdr h → zlen (encode_header h) = 8.
Proof. unfold wf_hdr, encode_header, zlen. rewrite length_app. intros ->. done. Qed.

Lemma hdr_of_encode h : wf_hdr h → hdr_of_bytes (encode_header h) = h.
Proof.
  destruct h as [a b c d l]. unfold wf_hdr. simpl. intros Hl.
  do 4 (destruct l as [|? l]; [done|]). by destruct l.
Qed.

Section header_facts.
Context `{!ZeroCopy, !ZeroCopyLaws}.

Lemma parse_header_encode h :
  wf_hdr h → bin_type h = MAGIC → parse_header (encode_header h) = Ok (Some h).
Proof.
  intros Hw Hm. unfold parse_header. rewrite encode_header_length by done. simpl.
  rewrite read_from_bytes_spec, encode_header_length by done. simpl.
  rewrite hdr_of_encode by done. by rewrite Hm.
Qed.

Lemma parse_header_Some buf h :
  parse_header buf = Ok (Some h) → wf_hdr h ∧ bin_type h = MAGIC ∧ buf = encode_header h.
Proof.
  unfold parse_header. destruct (Z.eqb_spec (zlen buf) HDR_SIZE) as [Hl|]; [|done].
  simpl. rewrite read_from_bytes_spec, Hl, Z.eqb_refl. simpl.
  unfold HDR_SIZE, zlen in Hl.
  do 8 (destruct buf as [|? buf]; [simpl in Hl; lia|]).
  destruct buf; [|simpl in Hl; lia]. simpl.
  destruct (byteb _ MAGIC) eqn:E; [|done]. apply byteb_true in E. simpl.
  intros [= <-]. by rewrite <- E.
Qed.

Lemma parse_header_never_fails buf e : parse_header buf ≠ Err e.
Proof.
  unfold parse_header. destruct (Z.eqb_spec (zlen buf) HDR_SIZE) as [Hl|]; [|done].
  simpl. rewrite read_from_bytes_spec, Hl, Z.eqb_refl. simpl.
  by destruct (byteb _ MAGIC).
Qed.

(** [parse_header] recognises exactly the 8-byte frames that start with
    the magic byte and reads them back field by field; every other frame is
    [Ok(None)], and the layout error branch is unreachable. *)
Lemma parse_header_exact (buf : bytes) :
  (∃ h, wf_hdr h ∧ bin_type h = MAGIC ∧ buf = encode_header h
        ∧ parse_header buf = Ok (Some h) ∧ 0 <= payload_len h < 2 ^ 32)
  ∨ ((zlen buf ≠ 8 ∨ head buf ≠ Some MAGIC) ∧ parse_header buf = Ok None).
Proof.
  destruct (parse_header buf) as [[h|]|e] eqn:E.
  - apply parse_header_Some in E as (Hw & Hm & ->). left. exists h.
    repeat split; try done; [apply le_Z_range|].
    pose proof (le_Z_range (len h)) as Hr. unfold payload_len, zlen, wf_hdr in *.
    rewrite Hw in Hr. exact (proj2 Hr).
  - right. split; [|done].
    destruct (decide (zlen buf = 8)) as [Hl|]; [right|by left]. intros Hh.
    destruct buf as [|b buf]; [done|]. simpl in Hh. injection Hh as ->.
    assert (parse_header (MAGIC :: buf)
            = Ok (Some (hdr_of_bytes (MAGIC :: buf)))) as E'; [|congruence].
    unfold parse_header. rewrite Hl. simpl. rewrite read_from_bytes_spec, Hl. done.
  - by apply parse_header_never_fails in E.
Qed.
End header_facts.

Lemma mt_from_as t : mt_from_u8 (mt_as_u8 t) = Some t.
Proof. by destruct t. Qed.

(** A keepalive header, and a frame of another length. *)
Lemma parse_header_exact_witness :
  let buf := [Byte.x03; Byte.x06; Byte.x00; Byte.x00; Byte.x00; Byte.x00; Byte.x00; Byte.x00] in
  @parse_header zerocopy_model buf = Ok (Some (hdr_of_bytes buf))
  ∧ ((∃ h, wf_hdr h ∧ bin_type h = MAGIC ∧ buf = encode_header h
          ∧ @parse_header zerocopy_model buf = Ok (Some h) ∧ 0 <= payload_len h < 2 ^ 32)
    ∨ ((zlen buf ≠ 8 ∨ head buf ≠ Some MAGIC) ∧ @parse_header zerocopy_model buf = Ok None)).
Proof.
  intros buf. split; [reflexivity|].
  exact (@parse_header_exact zerocopy_model zerocopy_model_laws buf).
Defined.
