(* ===== verification/EventTables.v ===== *)
(** * proto/{value,text,daytimer,weather}.rs: the event-table walkers

    A walker takes a callback and returns nothing; its meaning is the list of
    the invocations of the callback, in order. A [repr(C)] record borrowed from
    the payload is decoded field by field at its offsets. [f64] values are their
    64-bit patterns. *)

From S2P Require Import Prelude RustStr External Models Errors Uuid.

(** ** Record layouts *)

(** The [n] bytes of a record at offset [off]. *)
Definition field (off n : nat) (r : bytes) : bytes := take n (drop off r).

Lemma field_here (a r : bytes) n : length a = n → field 0 n (a ++ r) = a.
Proof. intros <-. unfold field. by rewrite drop_0, take_app_length. Qed.

Lemma field_skip (a r : bytes) k off n :
  length a = k → field (k + off) n (a ++ r) = field off n r.
Proof.
  intros <-. unfold field. rewrite drop_app, drop_ge by lia. simpl.
  by replace (length a + off - length a)%nat with off by lia.
Qed.

Lemma field_last (a : bytes) n : length a = n → field 0 n a = a.
Proof. intros <-. unfold field. by rewrite drop_0, firstn_all. Qed.

Lemma field_chain off n r : field off n r ++ drop (off + n) r = drop off r.
Proof. unfold field. by rewrite <- drop_drop, take_drop. Qed.

Lemma field_end off n (r : bytes) : length r = (off + n)%nat → field off n r = drop off r.
Proof. intros H. unfold field. apply take_ge. rewrite length_drop. lia. Qed.

Lemma field_length off n (r : bytes) : (off + n <= length r)%nat → length (field off n r) = n.
Proof. intros H. unfold field. rewrite length_take, length_drop. lia. Qed.

(** Reads back the fields of a record written as the concatenation of its fields. *)
Ltac fields_of_encode :=
  repeat first
    [ rewrite field_here by done
    | rewrite field_last by done
    | match goal with
      | |- context [field ?o ?n (?a ++ ?r)] =>
          match goal with
          | H : length a = ?k |- _ =>
              let d := eval cbv in (o - k)%nat in
              change (field o n (a ++ r)) with (field (k + d) n (a ++ r));
              rewrite (field_skip a r k d n) by done
          end
      end ].

(** A signed 32-bit field, [I32::get]. *)
Definition get_i32 `{!ZeroCopy} (f : bytes) : Z := to_signed 32 (le_get f).
(** [I32::new] *)
Definition new_i32 `{!ZeroCopy} (v : Z) : bytes := le_new 4 (wrap 32 v).
(** [F64::new] of a bit pattern *)
Definition new_f64 `{!ZeroCopy} (v : Z) : bytes := le_new 8 v.

Section i32.
Context {zc : ZeroCopy} {zl : ZeroCopyLaws}.

Lemma get_new_i32 v : fits_signed 32 v → get_i32 (new_i32 v) = v.
Proof.
  intros Hv. unfold get_i32, new_i32. rewrite le_get_spec, le_new_spec, le_Z_le_bytes.
  unfold wrap. change (256 ^ Z.of_nat 4) with (2 ^ 32).
  rewrite Zmod_mod. exact (wrap_signed_id 32 v ltac:(lia) Hv).
Qed.

Lemma get_new_f64 v : 0 <= v < 2 ^ 64 → le_get (new_f64 v) = v.
Proof.
  intros Hv. unfold new_f64. rewrite le_get_spec, le_new_spec, le_Z_le_bytes.
  apply Z.mod_small. exact Hv.
Qed.

(** Non-negative counts. *)
Lemma get_i32_count n : 0 <= n < 2 ^ 31 → get_i32 (le_bytes 4 n) = n.
Proof.
  intros Hn. unfold get_i32, to_signed. rewrite le_get_spec, le_Z_le_bytes.
  rewrite Z.mod_small by (change (256 ^ Z.of_nat 4) with (2 ^ 32); lia).
  zbool.
Qed.

Lemma get_i32_le_Z f : length f = 4%nat →
  get_i32 f < 2 ^ 31 ∧ (0 <= get_i32 f → get_i32 f = le_Z f).
Proof.
  intros Hf. unfold get_i32, to_signed. rewrite le_get_spec.
  pose proof (le_Z_range f) as Hr. unfold zlen in Hr. rewrite Hf in Hr.
  change (256 ^ Z.of_nat 4) with (2 ^ 32) in Hr. zbool.
Qed.

Lemma new_i32_length v : length (new_i32 v) = 4%nat.
Proof. unfold new_i32. by rewrite le_new_spec, le_bytes_length. Qed.
Lemma new_f64_length v : length (new_f64 v) = 8%nat.
Proof. unfold new_f64. by rewrite le_new_spec, le_bytes_length. Qed.
End i32.
#[export] Hint Resolve new_i32_length new_f64_length : lox.

(** ** value.rs: type-2 tables of 24-byte records *)
Module Value.

Definition VALUE_RECORD_SIZE : Z := 24.

Record ValueRecord := {
  uuid : LoxoneUuid;
  value : bytes;  (* F64 *)
}.

Definition record_of (r : bytes) : ValueRecord :=
  {| uuid := LoxUuid (field 0 16 r); value := field 16 8 r |}.

Definition walk_values `{!ZeroCopy} (payload : bytes) : list (LoxoneUuid * Z) :=
  let count := zlen payload / VALUE_RECORD_SIZE in
  match ref_from_prefix_with_elems VALUE_RECORD_SIZE payload count with
  | None => []
  | Some (records, _tail) =>
      map (λ r, let record := record_of r in (uuid record, le_get (value record))) records
  end.

(** The wire form of a table. *)
Definition wf_event (e : LoxoneUuid * Z) : Prop := wf_uuid e.1 ∧ 0 <= e.2 < 2 ^ 64.
Definition encode_value (e : LoxoneUuid * Z) : bytes := uuid_bytes e.1 ++ le_bytes 8 e.2.
Definition encode_values (l : list (LoxoneUuid * Z)) : bytes := concat (map encode_value l).

Section facts.
Context {zc : ZeroCopy} {zl : ZeroCopyLaws}.

Lemma encode_value_length e : wf_event e → zlen (encode_value e) = 24.
Proof.
  intros [Hu _]. unfold encode_value, zlen.
  rewrite length_app, Hu, le_bytes_length. done.
Qed.

Lemma record_encode e : wf_event e →
  (uuid (record_of (encode_value e)), le_get (value (record_of (encode_value e)))) = e.
Proof.
  destruct e as [[u] v]. intros [Hu Hv]. unfold record_of, encode_value. cbn -[field le_bytes] in *.
  unfold wf_uuid in Hu. cbn in Hu. pose proof (le_bytes_length 8 v).
  fields_of_encode. rewrite le_get_spec, le_Z_le_bytes. f_equal. apply Z.mod_small. exact Hv.
Qed.

Lemma encode_record (r : bytes) : length r = 24%nat →
  let e := (uuid (record_of r), le_get (value (record_of r))) in
  wf_event e ∧ encode_value e = r.
Proof.
  intros Hr. unfold wf_event, wf_uuid, encode_value. cbn -[field le_bytes le_get].
  rewrite le_get_spec, le_bytes_le_Z by (apply field_length; lia).
  split; [split|].
  - apply field_length. lia.
  - pose proof (le_Z_range (field 16 8 r)) as Hv. unfold zlen in Hv.
    rewrite field_length in Hv by lia. exact Hv.
  - rewrite (field_end 16 8) by done. apply (field_chain 0 16).
Qed.

Lemma walk_values_encode l tail :
  Forall wf_event l → zlen tail < 24 → walk_values (encode_values l ++ tail) = l.
Proof.
  intros Hl Ht. unfold walk_values, encode_values.
  assert (Forall (λ r, zlen r = 24) (map encode_value l)) as Hr.
  { apply Forall_map. eapply Forall_impl; [exact Hl|]. apply encode_value_length. }
  assert (zlen (concat (map encode_value l) ++ tail) / VALUE_RECORD_SIZE
          = zlen (map encode_value l)) as ->.
  { rewrite zlen_app, (zlen_concat _ 24) by done. unfold VALUE_RECORD_SIZE.
    rewrite (Z.mul_comm 24), Z.div_add_l by lia.
    rewrite (Z.div_small (zlen tail)) by (pose proof (zlen_nonneg tail); lia). lia. }
  rewrite with_elems_fits by done. rewrite map_map.
  clear Hr. induction Hl as [|e l He _ IH]; [done|].
  cbn [map]. rewrite IH. f_equal. exact (record_encode e He).
Qed.

Lemma walk_values_decomp payload :
  ∃ l tail, payload = encode_values l ++ tail ∧ zlen tail < 24 ∧ Forall wf_event l.
Proof.
  destruct (records_decomp 24 payload) as (recs & tail & -> & Hr & _ & Ht); [lia|].
  exists (map (λ r, (uuid (record_of r), le_get (value (record_of r)))) recs), tail.
  unfold encode_values. split; [f_equal|split; [done|]].
  - induction Hr as [|r recs Hr _ IH]; [done|]. cbn [map concat].
    destruct (encode_record r) as [_ ->]; [unfold zlen in Hr; lia|]. by rewrite <- IH.
  - apply Forall_map. eapply Forall_impl; [exact Hr|]. intros r Hlen.
    apply encode_record. unfold zlen in Hlen. lia.
Qed.

(** [C36] [walk_values] decodes exactly the complete 24-byte records of the
    payload, in order: the payload is the encoding of the events it
    dispatches followed by fewer than 24 bytes, and conversely every table of
    encoded records, whatever its truncated tail, is dispatched record by
    record. In particular the early return never loses a record. *)
Theorem walk_values_exact payload :
  (∃ tail, payload = encode_values (walk_values payload) ++ tail ∧ zlen tail < 24
           ∧ Forall wf_event (walk_values payload))
  ∧ (∀ l tail, Forall wf_event l → zlen tail < 24 →
       walk_values (encode_values l ++ tail) = l).
Proof.
  split; [|apply walk_values_encode].
  destruct (walk_values_decomp payload) as (l & tail & -> & Ht & Hl).
  exists tail. by rewrite walk_values_encode.
Qed.
End facts.

(** Two records and three stray bytes. *)
Definition sample_values : bytes :=
  replicate 16 Byte.x01 ++ le_bytes 8 5 ++ replicate 16 Byte.x02 ++ le_bytes 8 7
  ++ [Byte.xff; Byte.xff; Byte.xff].

Lemma walk_values_exact_witness :
  @walk_values zerocopy_model sample_values
    = [(LoxUuid (replicate 16 Byte.x01), 5); (LoxUuid (replicate 16 Byte.x02), 7)]
  ∧ ∃ tail, sample_values = encode_values (@walk_values zerocopy_model sample_values) ++ tail
            ∧ zlen tail < 24 ∧ Forall wf_event (@walk_values zerocopy_model sample_values).
Proof.
  split; [vm_compute; reflexivity|].
  exact (proj1 (@walk_values_exact zerocopy_model zerocopy_model_laws sample_values)).
Defined.
End Value.

(** ** text.rs: type-3 tables of padded text records *)
Module Text.

Definition TEXT_HEADER_SIZE : Z := 36.

Record RecordHeader := {
  uuid : bytes;         (* [u8; 16] *)
  uuid_icon : bytes;    (* [u8; 16] *)
  text_length : bytes;  (* U32 *)
}.

Definition header_of (r : bytes) : RecordHeader :=
  {| uuid := field 0 16 r; uuid_icon := field 16 16 r; text_length := field 32 4 r |}.

Definition event : Type := LoxoneUuid * LoxoneUuid * bytes.

(** One turn of the [while let]: [None] leaves the loop before the callback,
    [Some (e, None)] after it. *)
Definition text_step `{!ZeroCopy} (rest : bytes) : option (event * option bytes) :=
  match ref_from_prefix TEXT_HEADER_SIZE rest with
  | None => None
  | Some (raw, after_header) =>
      let header := header_of raw in
      let text_len := le_get (text_length header) in
      match get_to after_header text_len with
      | None => None
      | Some text =>
          let e := (LoxUuid (uuid header), LoxUuid (uuid_icon header), text) in
          let record_len := Z.land (TEXT_HEADER_SIZE + text_len + 3) (Z.lnot 3) in
          Some (e, get_from rest record_len)
      end
  end.

Definition walk_texts `{!ZeroCopy} (payload : bytes) : list event := walk_opt text_step payload.

(** *** The table format

    A record is its two UUIDs, the length of the text, the text, and padding to
    a multiple of four. *)
Definition padding (n : Z) : Z := (n + 3) / 4 * 4 - n.
Definition encode_header (e : event) : bytes :=
  uuid_bytes e.1.1 ++ uuid_bytes e.1.2 ++ le_bytes 4 (zlen e.2).
Definition wf_event (e : event) : Prop :=
  wf_uuid e.1.1 ∧ wf_uuid e.1.2 ∧ zlen e.2 < 2 ^ 32.

(** [text_table p evs]: a walk of [p] has to dispatch [evs]. *)
Inductive text_table : bytes → list event → Prop :=
| table_truncated p :
    zlen p < TEXT_HEADER_SIZE → text_table p []
| table_overlong hdr n body :
    length hdr = 32%nat → zlen body < n < 2 ^ 32 → text_table (hdr ++ le_bytes 4 n ++ body) []
| table_unpadded e pad :
    wf_event e → zlen pad < padding (zlen e.2) →
    text_table (encode_header e ++ e.2 ++ pad) [e]
| table_record e pad rest evs :
    wf_event e → zlen pad = padding (zlen e.2) → text_table rest evs →
    text_table (encode_header e ++ e.2 ++ pad ++ rest) (e :: evs).

Lemma padding_bound n : 0 <= padding n <= 3.
Proof. unfold padding. Z.to_euclidean_division_equations. lia. Qed.

Section facts.
Context {zc : ZeroCopy} {zl : ZeroCopyLaws}.

(** What one turn does to a payload that holds a whole header. *)
Lemma text_step_header hdr n body :
  length hdr = 32%nat → 0 <= n < 2 ^ 32 →
  text_step (hdr ++ le_bytes 4 n ++ body) =
    match get_to body n with
    | None => None
    | Some text => Some ((LoxUuid (take 16 hdr), LoxUuid (drop 16 hdr), text),
                         get_from body (n + padding n))
    end.
Proof.
  intros Hh Hn. unfold text_step. rewrite ref_from_prefix_spec.
  assert (zlen (hdr ++ le_bytes 4 n) = 36) as Hl.
  { unfold zlen. rewrite length_app, Hh. done. }
  rewrite app_assoc, zlen_app, Hl. pose proof (zlen_nonneg body).
  rewrite (proj2 (Z.leb_le _ _)) by (unfold TEXT_HEADER_SIZE; lia).
  rewrite take_zlen_app, drop_zlen_app by done. unfold header_of, field.
  cbn [uuid uuid_icon text_length]. rewrite drop_0, take_app_le by lia.
  rewrite (drop_app_le _ _ 16), take_app_le by (rewrite ?length_drop; lia).
  rewrite (take_ge (drop 16 hdr)) by (rewrite length_drop; lia).
  rewrite drop_app_length' by done. rewrite take_ge by done.
  rewrite le_get_spec, le_Z_le_bytes, Z.mod_small by exact Hn.
  destruct (get_to body n) as [text|]; [|done]. do 2 f_equal.
  unfold TEXT_HEADER_SIZE. rewrite land_lnot_3 by lia.
  replace ((36 + n + 3) / 4 * 4) with (36 + (n + padding n))
    by (unfold padding; Z.to_euclidean_division_equations; lia).
  pose proof (padding_bound n). unfold get_from. rewrite zlen_app, Hl.
  zbool; [|done]. f_equal. rewrite Z2Nat.inj_add by lia. rewrite <- drop_drop.
  by rewrite drop_zlen_app.
Qed.

Lemma text_step_short p : zlen p < 36 → text_step p = None.
Proof.
  intros Hp. unfold text_step. rewrite ref_from_prefix_spec.
  unfold TEXT_HEADER_SIZE. by rewrite (proj2 (Z.leb_gt _ _)) by lia.
Qed.

(** A payload is too short for a header, or starts with one. *)
Lemma header_cases p :
  zlen p < 36 ∨ ∃ hdr n body, p = hdr ++ le_bytes 4 n ++ body
                              ∧ length hdr = 32%nat ∧ 0 <= n < 2 ^ 32.
Proof.
  destruct (Z.lt_ge_cases (zlen p) 36) as [|Hp]; [by left|right]. unfold zlen in Hp.
  exists (take 32 p), (le_Z (field 32 4 p)), (drop 36 p).
  pose proof (field_length 32 4 p ltac:(lia)) as Hf. split; [|split].
  - rewrite le_bytes_le_Z by done. rewrite (field_chain 32 4). by rewrite take_drop.
  - rewrite length_take. lia.
  - pose proof (le_Z_range (field 32 4 p)) as Hr. unfold zlen in Hr. rewrite Hf in Hr. exact Hr.
Qed.

Lemma text_step_shorter p e p' :
  text_step p = Some (e, Some p') → (length p' < length p)%nat.
Proof.
  destruct (header_cases p) as [Hp|(hdr & n & body & -> & Hh & Hn)];
    [by rewrite text_step_short|].
  rewrite text_step_header by done. destruct (get_to body n); [|done].
  pose proof (padding_bound n). intros [= _ Hf%get_from_Some]; [|lia].
  unfold zlen in Hf. rewrite !length_app, le_bytes_length. lia.
Qed.

Lemma walk_texts_unfold p :
  walk_texts p = match text_step p with
                 | Some (e, Some p') => e :: walk_texts p'
                 | Some (e, None) => [e]
                 | None => []
                 end.
Proof. apply walk_opt_unfold, text_step_shorter. Qed.

Lemma text_step_event e body :
  wf_event e →
  text_step (encode_header e ++ e.2 ++ body)
    = Some (e, get_from body (padding (zlen e.2))).
Proof.
  destruct e as [[[u] [i]] t]. intros (Hu & Hi & Ht). unfold wf_uuid in *. cbn in Hu, Hi, Ht.
  unfold encode_header. cbn [fst snd uuid_bytes]. rewrite <- !app_assoc, (app_assoc u).
  pose proof (zlen_nonneg t).
  rewrite text_step_header by (rewrite ?length_app; lia). rewrite get_to_app by done.
  rewrite take_app_length', drop_app_length' by done. do 2 f_equal.
  unfold get_from. rewrite zlen_app. pose proof (padding_bound (zlen t)).
  zbool; [|done]. f_equal. rewrite Z2Nat.inj_add by lia. rewrite <- drop_drop.
  by rewrite drop_zlen_app.
Qed.

Lemma text_table_walk p evs : text_table p evs → walk_texts p = evs.
Proof.
  induction 1 as [p Hp|hdr n body Hh Hn|e pad He Hpad|e pad rest evs He Hpad _ IH];
    rewrite walk_texts_unfold.
  - by rewrite text_step_short.
  - pose proof (zlen_nonneg body). rewrite text_step_header by lia. unfold get_to.
    by rewrite (proj2 (Z.leb_gt _ _)) by lia.
  - rewrite text_step_event by done. unfold get_from.
    by rewrite (proj2 (Z.leb_gt _ _)) by lia.
  - rewrite text_step_event by done. rewrite get_from_app by done. by rewrite IH.
Qed.

Lemma text_table_total p : ∃ evs, text_table p evs.
Proof.
  remember (length p) as k eqn:Hk. revert p Hk.
  induction k as [k IH] using lt_wf_ind. intros p ->.
  destruct (header_cases p) as [Hp|(hdr & n & body & -> & Hh & Hn)];
    [eexists; by apply table_truncated|].
  destruct (Z.lt_ge_cases (zlen body) n) as [Hb|Hb];
    [eexists; apply table_overlong; [done|lia]|].
  set (e := (LoxUuid (take 16 hdr), LoxUuid (drop 16 hdr), take (Z.to_nat n) body) : event).
  assert (zlen e.2 = n) as Hz by (unfold e, zlen in *; cbn; rewrite length_take; lia).
  assert (wf_event e) as He.
  { repeat split; [| |lia]; unfold wf_uuid; cbn [e fst snd uuid_bytes];
      rewrite ?length_take, ?length_drop; lia. }
  assert (hdr ++ le_bytes 4 n ++ body
          = encode_header e ++ e.2 ++ drop (Z.to_nat n) body) as ->.
  { unfold encode_header. rewrite Hz. cbn [e fst snd uuid_bytes].
    rewrite <- !app_assoc, (app_assoc (take 16 hdr)), !take_drop. done. }
  pose proof (padding_bound n). set (tl := drop (Z.to_nat n) body).
  destruct (Z.lt_ge_cases (zlen tl) (padding n)) as [Ht|Ht];
    [eexists; apply table_unpadded; [done|by rewrite Hz]|].
  unfold zlen in Ht.
  destruct (IH (length (drop (Z.to_nat (padding n)) tl))) with (p := drop (Z.to_nat (padding n)) tl)
    as [evs Hevs]; [|done|].
  - unfold tl. rewrite !length_app, !length_drop, le_bytes_length. lia.
  - rewrite <- (take_drop (Z.to_nat (padding n)) tl).
    exists (e :: evs). apply table_record; [done| |done].
    rewrite Hz. unfold zlen. rewrite length_take. lia.
Qed.

(** [C35] [walk_texts] dispatches exactly the events of the type-3 table
    format, for every payload: record by record through the padding, the last
    record also when its padding is cut short, and nothing from the first
    header that is truncated or announces more text than is left. *)
Theorem walk_texts_exact payload evs :
  walk_texts payload = evs ↔ text_table payload evs.
Proof.
  split; [|apply text_table_walk]. intros <-.
  destruct (text_table_total payload) as [evs Hevs].
  by rewrite (text_table_walk _ _ Hevs).
Qed.

(** Every dispatched record took its header and its text from the payload. *)
Lemma walk_texts_work payload :
  foldr (λ e n, 36 + zlen e.2 + n) 0 (walk_texts payload) <= zlen payload.
Proof.
  destruct (text_table_total payload) as [evs Hevs].
  rewrite (text_table_walk _ _ Hevs).
  assert (∀ e, wf_event e → zlen (encode_header e) = 36) as Hhdr.
  { intros e (Hu & Hi & _). unfold wf_uuid, encode_header, zlen in *.
    rewrite !length_app, le_bytes_length, Hu, Hi. done. }
  induction Hevs as [p|hdr n body|e pad He|e pad rest evs He Hpad _ IH]; cbn [foldr];
    rewrite ?zlen_app, ?Hhdr by done; auto with lox.
  - pose proof (zlen_nonneg hdr); pose proof (zlen_nonneg (le_bytes 4 n));
      pose proof (zlen_nonneg body); lia.
  - pose proof (zlen_nonneg pad). lia.
  - pose proof (zlen_nonneg pad). lia.
Qed.
End facts.

(** A padded record, an unpadded last one. *)
Definition sample_texts : bytes :=
  replicate 32 Byte.x05 ++ le_bytes 4 5 ++ bs "hello" ++ replicate 3 Byte.x00
  ++ replicate 32 Byte.x06 ++ le_bytes 4 2 ++ bs "hi".

Lemma walk_texts_exact_witness :
  text_table sample_texts (@walk_texts zerocopy_model sample_texts)
  ∧ map snd (@walk_texts zerocopy_model sample_texts) = [bs "hello"; bs "hi"].
Proof.
  split; [|vm_compute; reflexivity].
  apply (@walk_texts_exact zerocopy_model zerocopy_model_laws). reflexivity.
Defined.
End Text.

(** ** Tables of a header and a counted array of entries

    The proofs that daytimer.rs and weather.rs share. [hs] and [es] are the
    sizes of the header and of an entry, [nr] reads the announced count, [dec]
    builds the event that is dispatched and [enc] is its wire form. *)
Section counted.
Context {zc : ZeroCopy} {zl : ZeroCopyLaws} {Ev : Type}.
Context (hs es : Z) (nr : bytes → Z) (dec : bytes → bytes → Ev)
        (enc : Ev → bytes * bytes) (wf : Ev → Prop).

Definition split_counted (payload : bytes) : option (bytes * bytes * bytes) :=
  '(header, after_header) ← ref_from_prefix hs payload;
  count ← usize_try_from (nr header);
  entries_len ← checked_mul count es;
  entries ← get_to after_header entries_len;
  rest ← get_from after_header entries_len;
  Some (header, entries, rest).

Definition counted_step (payload : bytes) : option (Ev * bytes) :=
  match split_counted payload with
  | Some (header, entry_bytes, tail) => Some (dec header entry_bytes, tail)
  | None => None
  end.

(** A header and the number of entry bytes it announces. *)
Definition raw_table (h e : bytes) : Prop :=
  zlen h = hs ∧ 0 <= nr h ∧ zlen e = es * nr h.
(** The walk stops at a truncated header, a negative count, or an entry array
    that runs past the payload. *)
Definition malformed (p : bytes) : Prop :=
  zlen p < hs
  ∨ nr (take (Z.to_nat hs) p) < 0
  ∨ zlen p < hs + es * nr (take (Z.to_nat hs) p).

Definition encode_tables (evs : list Ev) : bytes :=
  concat (map (λ ev, (enc ev).1 ++ (enc ev).2) evs).

Hypothesis hs_pos : 0 < hs.
Hypothesis es_pos : 0 < es.
Hypothesis nr_bound : ∀ h, zlen h = hs → nr h * es < 2 ^ 64.

Lemma split_counted_spec p :
  split_counted p =
    let h := take (Z.to_nat hs) p in
    if (hs <=? zlen p) && (0 <=? nr h) && (hs + es * nr h <=? zlen p)
    then Some (h, take (Z.to_nat (es * nr h)) (drop (Z.to_nat hs) p),
               drop (Z.to_nat (es * nr h)) (drop (Z.to_nat hs) p))
    else None.
Proof using zl hs_pos es_pos nr_bound.
  unfold split_counted. rewrite ref_from_prefix_spec. simpl.
  destruct (Z.leb_spec hs (zlen p)) as [Hp|]; [|done]. unfold zlen in Hp. simpl.
  set (h := take (Z.to_nat hs) p).
  assert (zlen h = hs) as Hh by (unfold h, zlen; rewrite length_take; lia).
  pose proof (nr_bound h Hh). unfold usize_try_from, checked_mul.
  destruct (Z.ltb_spec (nr h) 0), (Z.leb_spec 0 (nr h)); try lia; [done|]. simpl.
  rewrite (proj2 (Z.ltb_lt _ _)) by done. simpl.
  rewrite (Z.mul_comm (nr h)). unfold get_to, get_from.
  assert (zlen (drop (Z.to_nat hs) p) = zlen p - hs) as ->
    by (unfold zlen; rewrite length_drop; lia).
  destruct (Z.leb_spec (es * nr h) (zlen p - hs)), (Z.leb_spec (hs + es * nr h) (zlen p));
    try lia; done.
Qed.

Lemma split_counted_app h e rest :
  raw_table h e → split_counted (h ++ e ++ rest) = Some (h, e, rest).
Proof using zl hs_pos es_pos nr_bound.
  intros (Hh & Hn & He). rewrite split_counted_spec. cbn zeta.
  rewrite !zlen_app, take_zlen_app, drop_zlen_app by done.
  pose proof (zlen_nonneg rest). pose proof (zlen_nonneg e). rewrite <- He.
  rewrite take_zlen_app, drop_zlen_app by done. by zbool.
Qed.

Lemma split_counted_Some p h e rest :
  split_counted p = Some (h, e, rest) → raw_table h e ∧ p = h ++ e ++ rest.
Proof using zl hs_pos es_pos nr_bound.
  rewrite split_counted_spec. cbn zeta. zbool; try done. simpl. intros [= <- <- <-].
  set (h := take (Z.to_nat hs) p) in *.
  assert (0 <= es * nr h) by (apply Z.mul_nonneg_nonneg; lia).
  split; [|by rewrite take_drop; unfold h; rewrite take_drop].
  unfold raw_table, zlen in *. rewrite length_take, length_drop.
  split; [|lia]. unfold h. rewrite length_take. lia.
Qed.

Lemma split_counted_None p : split_counted p = None ↔ malformed p.
Proof using zl hs_pos es_pos nr_bound.
  rewrite split_counted_spec. unfold malformed. cbn zeta.
  zbool; simpl; split; intros; try done; lia.
Qed.

Hypothesis dec_enc : ∀ ev, wf ev → dec (enc ev).1 (enc ev).2 = ev.
Hypothesis enc_raw : ∀ ev, wf ev → raw_table (enc ev).1 (enc ev).2.
Hypothesis enc_dec : ∀ h e, raw_table h e → wf (dec h e) ∧ enc (dec h e) = (h, e).

Lemma counted_step_shorter p ev p' :
  counted_step p = Some (ev, p') → (length p' < length p)%nat.
Proof using zl hs_pos es_pos nr_bound.
  unfold counted_step. destruct (split_counted p) as [[[h e] t]|] eqn:E; [|done].
  apply split_counted_Some in E as [(Hh & _) ->]. intros [= _ <-].
  unfold zlen in Hh. rewrite !length_app. lia.
Qed.

Lemma walk_counted_encode evs tail :
  Forall wf evs → malformed tail → walk counted_step (encode_tables evs ++ tail) = evs.
Proof using All.
  intros Hevs Ht. induction Hevs as [|ev evs Hev _ IH];
    rewrite (walk_unfold _ counted_step_shorter); unfold counted_step at 1.
  - simpl. by rewrite (proj2 (split_counted_None tail) Ht).
  - unfold encode_tables. cbn [map concat]. rewrite <- !app_assoc.
    rewrite split_counted_app by auto. rewrite dec_enc by done. f_equal. exact IH.
Qed.

Lemma counted_decomp p :
  ∃ evs tail, p = encode_tables evs ++ tail ∧ Forall wf evs ∧ malformed tail.
Proof using All.
  remember (length p) as k eqn:Hk. revert p Hk.
  induction k as [k IH] using lt_wf_ind. intros p ->.
  destruct (split_counted p) as [[[h e] t]|] eqn:E.
  - apply split_counted_Some in E as [Hraw ->]. destruct (enc_dec h e Hraw) as [Hw He].
    destruct (IH (length t)) with (p := t) as (evs & tail & -> & Hevs & Ht); [|done|].
    { destruct Hraw as (Hh & _). unfold zlen in Hh. rewrite !length_app. lia. }
    exists (dec h e :: evs), tail. split; [|by auto].
    unfold encode_tables. cbn [map concat]. rewrite He. cbn [fst snd].
    by rewrite <- !app_assoc.
  - exists [], p. split; [done|]. split; [constructor|]. by apply split_counted_None.
Qed.

Lemma walk_counted_exact p evs :
  walk counted_step p = evs ↔
  ∃ tail, p = encode_tables evs ++ tail ∧ Forall wf evs ∧ malformed tail.
Proof using All.
  split; [|intros (tail & -> & ? & ?); by apply walk_counted_encode]. intros <-.
  destruct (counted_decomp p) as (evs & tail & -> & Hevs & Ht). exists tail.
  by rewrite walk_counted_encode.
Qed.
End counted.

(** [<[Entry]>::ref_from_prefix_with_elems] on a whole number of entries. *)
Lemma entries_whole {zc : ZeroCopy} {zl : ZeroCopyLaws} (es : Z) (b : bytes) (n : Z) :
  0 < es → 0 <= n → zlen b = es * n →
  ∃ recs, b = concat recs ∧ Forall (λ r, zlen r = es) recs ∧ zlen recs = n
          ∧ ref_from_prefix_with_elems es b (zlen b / es) = Some (recs, []).
Proof.
  intros Hes Hn Hb. destruct (records_decomp es b Hes) as (recs & tail & -> & Hr & Hc & Ht).
  rewrite Hb, Z.mul_comm, Z.div_mul in Hc by lia.
  rewrite zlen_app, (zlen_concat _ es), Hc in Hb by done.
  assert (tail = []) as ->.
  { destruct tail as [|x tail]; [done|]. unfold zlen in Hb. simpl in Hb. lia. }
  exists recs. rewrite app_nil_r. repeat split; try done.
  rewrite (zlen_concat _ es) by done. rewrite Z.mul_comm, Z.div_mul by lia.
  rewrite <- (app_nil_r (concat recs)). by apply with_elems_fits.
Qed.

(** Arrays of entries: [ent] reads an entry of [es] bytes and [raw] writes it. *)
Section entries.
Context {zc : ZeroCopy} {zl : ZeroCopyLaws} {E : Type}.
Context (es : Z) (ent : bytes → E) (raw : E → bytes) (wf : E → Prop).
Hypothesis es_pos : 0 < es.
Hypothesis raw_ent : ∀ r, zlen r = es → wf (ent r) ∧ raw (ent r) = r.
Hypothesis ent_raw : ∀ e, wf e → ent (raw e) = e.
Hypothesis raw_len : ∀ e, wf e → zlen (raw e) = es.

Definition entries_gen (b : bytes) : list E :=
  let count := zlen b / es in
  match ref_from_prefix_with_elems es b count with
  | Some (recs, _) => map ent recs
  | None => []
  end.

Lemma entries_decode b n : 0 <= n → zlen b = es * n →
  Forall wf (entries_gen b) ∧ concat (map raw (entries_gen b)) = b ∧ zlen (entries_gen b) = n.
Proof using zl es_pos raw_ent.
  intros Hn Hb. destruct (entries_whole es b n es_pos Hn Hb) as (recs & -> & Hr & <- & He).
  unfold entries_gen. rewrite He. split; [|split].
  - apply Forall_map. eapply Forall_impl; [exact Hr|]. apply raw_ent.
  - rewrite map_map. f_equal. clear -Hr raw_ent.
    induction Hr as [|r recs Hr _ IH]; [done|]. cbn [map].
    rewrite IH. f_equal. by apply raw_ent.
  - unfold zlen. by rewrite length_map.
Qed.

Lemma entries_encode l : Forall wf l → entries_gen (concat (map raw l)) = l.
Proof using zl es_pos ent_raw raw_len.
  intros Hl. assert (Forall (λ r, zlen r = es) (map raw l)) as Hr.
  { apply Forall_map. eapply Forall_impl; [exact Hl|]. apply raw_len. }
  unfold entries_gen. rewrite (zlen_concat _ es) by done.
  rewrite Z.mul_comm, Z.div_mul by lia. rewrite <- (app_nil_r (concat _)).
  rewrite with_elems_fits by done. rewrite map_map. clear Hr.
  induction Hl as [|e l He _ IH]; [done|]. cbn [map]. rewrite IH. f_equal. by apply ent_raw.
Qed.

(** Entry [i] is the one read at offset [es * i]. *)
Lemma entries_lookup (recs : list bytes) tail (i : nat) :
  Forall (λ r, zlen r = es) recs → zlen tail < es →
  entries_gen (concat recs ++ tail) !! i
    = ent <$> get_range (concat recs ++ tail) (es * Z.of_nat i) (es * Z.of_nat i + es).
Proof using zl es_pos.
  intros Hr Ht. unfold entries_gen.
  replace (zlen (concat recs ++ tail) / es) with (zlen recs).
  2: { rewrite zlen_app, (zlen_concat _ es) by done. rewrite Z.mul_comm, Z.div_add_l by lia.
       rewrite (Z.div_small (zlen tail)) by (pose proof (zlen_nonneg tail); lia). lia. }
  rewrite with_elems_fits by done. rewrite list_lookup_fmap. f_equal.
  revert i. induction Hr as [|r recs Hr Hrs IH]; intros i.
  - simpl. unfold get_range. pose proof (zlen_nonneg tail). rewrite andb_comm.
    rewrite (proj2 (Z.leb_gt _ (zlen tail))); [done|]. pose proof (Zle_0_nat i). nia.
  - cbn [concat]. rewrite <- app_assoc. unfold get_range in *. destruct i as [|i].
    + rewrite zlen_app, Hr. cbn [lookup list_lookup]. rewrite Z.mul_0_r, drop_0.
      pose proof (zlen_nonneg (concat recs ++ tail)). zbool. simpl.
      by rewrite take_zlen_app by lia.
    + cbn [lookup list_lookup]. rewrite IH, (zlen_app r), Hr, Nat2Z.inj_succ.
      replace (es * Z.succ (Z.of_nat i)) with (es + es * Z.of_nat i) by lia.
      pose proof (Zle_0_nat i). assert (0 <= es * Z.of_nat i) by nia.
      replace (es + es * Z.of_nat i + es - (es + es * Z.of_nat i)) with es by lia.
      replace (es * Z.of_nat i + es - es * Z.of_nat i) with es by lia.
      rewrite Z2Nat.inj_add by lia. rewrite <- drop_drop, (drop_zlen_app r _ es) by done.
      by zbool.
Qed.
End entries.

(** ** daytimer.rs: type-4 tables *)
Module Daytimer.

Record DaytimerEntry := {
  e_mode : bytes;           (* I32 *)
  e_from_minutes : bytes;   (* I32 *)
  e_to_minutes : bytes;     (* I32 *)
  e_need_activate : bytes;  (* I32 *)
  e_value : bytes;          (* F64 *)
}.
Definition SIZE : Z := 24.

Record DaytimerEvent := {
  uuid : LoxoneUuid;
  default_value : Z;
  entries : list DaytimerEntry;
}.

(** The [repr(C)] layout of an entry. *)
Definition entry_of (r : bytes) : DaytimerEntry :=
  {| e_mode := field 0 4 r; e_from_minutes := field 4 4 r; e_to_minutes := field 8 4 r;
     e_need_activate := field 12 4 r; e_value := field 16 8 r |}.

Section entry.
Context {zc : ZeroCopy}.

Definition new (mode from_minutes to_minutes need_activate value : Z) : DaytimerEntry :=
  {| e_mode := new_i32 mode; e_from_minutes := new_i32 from_minutes;
     e_to_minutes := new_i32 to_minutes; e_need_activate := new_i32 need_activate;
     e_value := new_f64 value |}.

Definition mode (e : DaytimerEntry) : Z := get_i32 (e_mode e).
Definition from_minutes (e : DaytimerEntry) : Z := get_i32 (e_from_minutes e).
Definition to_minutes (e : DaytimerEntry) : Z := get_i32 (e_to_minutes e).
Definition need_activate (e : DaytimerEntry) : Z := get_i32 (e_need_activate e).
Definition value (e : DaytimerEntry) : Z := le_get (e_value e).

Definition read_at (buf : bytes) (offset : Z) : option DaytimerEntry :=
  end_ ← checked_add offset SIZE;
  slice ← get_range buf offset end_;
  entry_of <$> read_from_bytes SIZE slice.
End entry.

Definition DAYTIMER_HEADER_SIZE : Z := 28.

Record TableHeader := {
  th_uuid : bytes;           (* [u8; 16] *)
  th_default_value : bytes;  (* F64 *)
  th_nr_entries : bytes;     (* I32 *)
}.
Definition header_of (r : bytes) : TableHeader :=
  {| th_uuid := field 0 16 r; th_default_value := field 16 8 r; th_nr_entries := field 24 4 r |}.

(** The invocations of the two callbacks of [walk_daytimer_raw]. *)
Inductive raw_call :=
| TableFn (u : LoxoneUuid) (default_value : Z) (nr_entries : Z)
| EntryFn (u : LoxoneUuid) (e : DaytimerEntry).

Section walk.
Context {zc : ZeroCopy}.

Definition entries_of (b : bytes) : list DaytimerEntry :=
  let count := zlen b / SIZE in
  match ref_from_prefix_with_elems SIZE b count with
  | Some (recs, _) => map entry_of recs
  | None => []
  end.

Definition split_table (payload : bytes) : option (bytes * bytes * bytes) :=
  '(header, after_header) ← ref_from_prefix DAYTIMER_HEADER_SIZE payload;
  count ← usize_try_from (get_i32 (th_nr_entries (header_of header)));
  entries_len ← checked_mul count SIZE;
  entries ← get_to after_header entries_len;
  rest ← get_from after_header entries_len;
  Some (header, entries, rest).

Definition event_of (header entry_bytes : bytes) : DaytimerEvent :=
  {| uuid := LoxUuid (th_uuid (header_of header));
     default_value := le_get (th_default_value (header_of header));
     entries := entries_of entry_bytes |}.

Definition walk_daytimers (payload : bytes) : list DaytimerEvent :=
  walk (λ rest,
    match split_table rest with
    | Some (header, entry_bytes, tail) => Some (event_of header entry_bytes, tail)
    | None => None
    end) payload.

Definition walk_daytimer_raw (payload : bytes) : list raw_call :=
  concat (walk (λ rest,
    match split_table rest with
    | Some (header, entry_bytes, tail) =>
        let h := header_of header in
        let uuid := LoxUuid (th_uuid h) in
        Some (TableFn uuid (le_get (th_default_value h)) (get_i32 (th_nr_entries h))
                :: map (EntryFn uuid) (entries_of entry_bytes), tail)
    | None => None
    end) payload).
End walk.

(** *** The wire form *)
Definition as_bytes (e : DaytimerEntry) : bytes :=
  e_mode e ++ e_from_minutes e ++ e_to_minutes e ++ e_need_activate e ++ e_value e.
Definition wf_entry (e : DaytimerEntry) : Prop :=
  length (e_mode e) = 4%nat ∧ length (e_from_minutes e) = 4%nat
  ∧ length (e_to_minutes e) = 4%nat ∧ length (e_need_activate e) = 4%nat
  ∧ length (e_value e) = 8%nat.
Definition wf_event (ev : DaytimerEvent) : Prop :=
  wf_uuid (uuid ev) ∧ 0 <= default_value ev < 2 ^ 64 ∧ Forall wf_entry (entries ev)
  ∧ zlen (entries ev) < 2 ^ 31.
Definition encode_event (ev : DaytimerEvent) : bytes * bytes :=
  (uuid_bytes (uuid ev) ++ le_bytes 8 (default_value ev) ++ le_bytes 4 (zlen (entries ev)),
   concat (map as_bytes (entries ev))).
Definition encode_daytimers (evs : list DaytimerEvent) : bytes := encode_tables encode_event evs.
Definition announced `{ZeroCopy} (h : bytes) : Z := get_i32 (th_nr_entries (header_of h)).

Lemma as_bytes_entry_of r : length r = 24%nat → wf_entry (entry_of r) ∧ as_bytes (entry_of r) = r.
Proof.
  intros Hr. unfold wf_entry, as_bytes. cbn [entry_of e_mode e_from_minutes e_to_minutes
    e_need_activate e_value]. split; [repeat split; apply field_length; lia|].
  rewrite (field_end 16 8) by done.
  rewrite (field_chain 12 4), (field_chain 8 4), (field_chain 4 4). apply (field_chain 0 4).
Qed.

Lemma entry_of_as_bytes e : wf_entry e → entry_of (as_bytes e) = e.
Proof.
  destruct e as [a b c d v]. intros (Ha & Hb & Hc & Hd & Hv). cbn in Ha, Hb, Hc, Hd, Hv.
  unfold entry_of, as_bytes. cbn [e_mode e_from_minutes e_to_minutes e_need_activate e_value].
  by fields_of_encode.
Qed.

Lemma as_bytes_length e : wf_entry e → zlen (as_bytes e) = 24.
Proof.
  intros (Ha & Hb & Hc & Hd & Hv). unfold as_bytes, zlen. rewrite !length_app.
  by rewrite Ha, Hb, Hc, Hd, Hv.
Qed.

Lemma raw_entry r : zlen r = 24 → wf_entry (entry_of r) ∧ as_bytes (entry_of r) = r.
Proof. intros Hr. apply as_bytes_entry_of. unfold zlen in Hr. lia. Qed.

Section facts.
Context {zc : ZeroCopy} {zl : ZeroCopyLaws}.

Lemma announced_encode ev : wf_event ev → announced (encode_event ev).1 = zlen (entries ev).
Proof.
  destruct ev as [[u] d l]. intros (Hu & Hd & Hl & Hn). unfold wf_uuid in Hu.
  cbn -[le_bytes Z.pow] in *. unfold announced, header_of, th_nr_entries.
  pose proof (le_bytes_length 8 d). pose proof (le_bytes_length 4 (zlen l)).
  fields_of_encode. apply get_i32_count. pose proof (zlen_nonneg l). lia.
Qed.

Lemma announced_bound h : zlen h = 28 → announced h < 2 ^ 31.
Proof.
  intros Hh. apply get_i32_le_Z, field_length. unfold zlen in Hh. lia.
Qed.

Lemma encode_event_raw ev :
  wf_event ev → raw_table 28 24 announced (encode_event ev).1 (encode_event ev).2.
Proof.
  intros Hev. unfold raw_table. rewrite (announced_encode ev Hev).
  destruct Hev as (Hu & _ & Hl & _). split; [|split; [apply zlen_nonneg|]].
  - unfold encode_event, zlen. cbn [fst]. by rewrite !length_app, Hu, !le_bytes_length.
  - cbn [encode_event snd]. rewrite (zlen_concat _ 24).
    + unfold zlen. by rewrite length_map.
    + apply Forall_map. eapply Forall_impl; [exact Hl|]. apply as_bytes_length.
Qed.

Lemma event_of_encode ev :
  wf_event ev → event_of (encode_event ev).1 (encode_event ev).2 = ev.
Proof.
  intros Hev. unfold event_of.
  assert (entries_of (encode_event ev).2 = entries ev) as ->.
  { destruct Hev as (_ & _ & Hl & _).
    apply (entries_encode 24 entry_of as_bytes wf_entry ltac:(lia)
             entry_of_as_bytes as_bytes_length _ Hl). }
  destruct ev as [[u] d l], Hev as (Hu & Hd & _). unfold wf_uuid in Hu.
  cbn -[le_bytes field Z.pow] in *.
  pose proof (le_bytes_length 8 d). fields_of_encode.
  rewrite le_get_spec, le_Z_le_bytes, Z.mod_small by exact Hd. done.
Qed.

Lemma encode_event_of h e :
  raw_table 28 24 announced h e →
  wf_event (event_of h e) ∧ encode_event (event_of h e) = (h, e).
Proof.
  intros (Hh & Hn & He). pose proof (announced_bound h Hh).
  destruct (entries_decode 24 entry_of as_bytes wf_entry ltac:(lia) raw_entry e _ Hn He)
    as (Hw & Hc & Hz).
  change (entries_gen 24 entry_of e) with (entries_of e) in *.
  assert (length h = 28%nat) as Hh' by (unfold zlen in Hh; lia).
  pose proof (le_Z_range (field 16 8 h)) as Hd. unfold zlen in Hd.
  rewrite field_length in Hd by lia.
  unfold wf_event, encode_event, event_of. cbn [uuid default_value entries].
  rewrite Hz, Hc. split.
  - repeat split; try done; [apply field_length; lia|..]; rewrite le_get_spec; apply Hd.
  - f_equal. cbn [header_of th_uuid th_default_value uuid_bytes].
    rewrite le_get_spec, le_bytes_le_Z by (apply field_length; lia).
    assert (announced h = le_Z (field 24 4 h)) as ->
      by (apply get_i32_le_Z; [apply field_length; lia|done]).
    rewrite le_bytes_le_Z by (apply field_length; lia).
    rewrite (field_end 24 4) by done. rewrite (field_chain 16 8). apply (field_chain 0 16).
Qed.

Lemma announced_fits h : zlen h = 28 → announced h * 24 < 2 ^ 64.
Proof. intros Hh. pose proof (announced_bound h Hh). lia. Qed.

(** [C37] [walk_daytimers] dispatches [evs] exactly when the payload is the wire
    form of [evs] followed by a malformed table: a truncated header, a negative
    [nrEntries], or an entry array that runs past the payload. *)
Theorem walk_daytimers_exact payload evs :
  walk_daytimers payload = evs ↔
  ∃ tail, payload = encode_daytimers evs ++ tail ∧ Forall wf_event evs
          ∧ malformed 28 24 announced tail.
Proof.
  apply (walk_counted_exact 28 24 announced event_of encode_event wf_event);
    [lia|lia|apply announced_fits|apply event_of_encode|apply encode_event_raw
    |apply encode_event_of].
Qed.

(** What the raw walk does for one event. *)
Definition raw_calls (ev : DaytimerEvent) : list raw_call :=
  TableFn (uuid ev) (default_value ev) (zlen (entries ev)) :: map (EntryFn (uuid ev)) (entries ev).

(** [walk_daytimer_raw] visits the same tables and entries as
    [walk_daytimers], in the same order: one table call per event, with the
    number of entries that follow, then one entry call per entry. *)
Lemma walk_daytimer_raw_agrees payload :
  walk_daytimer_raw payload = concat (map raw_calls (walk_daytimers payload)).
Proof.
  unfold walk_daytimer_raw, walk_daytimers. f_equal. apply walk_map. intros s.
  destruct (split_table s) as [[[h e] t]|] eqn:E; [|done].
  apply (split_counted_Some 28 24 announced) in E as [Hraw _];
    [|lia|lia|apply announced_fits].
  destruct (encode_event_of h e Hraw) as [_ [= _ _]].
  destruct Hraw as (_ & Hn & He).
  destruct (entries_decode 24 entry_of as_bytes wf_entry ltac:(lia) raw_entry e _ Hn He)
    as (_ & _ & Hz).
  unfold raw_calls, event_of. cbn [uuid default_value entries].
  change (entries_gen 24 entry_of e) with (entries_of e) in Hz. rewrite Hz. done.
Qed.

(** The in-place slice of entries and the checked [read_at] agree: for any
    buffer, entry [i] of [entries_of] is what [read_at] returns at offset
    [24 * i], and it is absent exactly when [read_at] returns [None]. *)
Lemma entries_of_read_at buf (i : nat) :
  zlen buf < 2 ^ 63 → 24 * Z.of_nat i < 2 ^ 63 →
  entries_of buf !! i = read_at buf (24 * Z.of_nat i).
Proof.
  intros Hb Hi. unfold read_at, checked_add, SIZE.
  rewrite (proj2 (Z.ltb_lt _ _)) by lia. cbn [mbind option_bind].
  destruct (records_decomp 24 buf) as (recs & tail & -> & Hr & _ & Ht); [lia|].
  change entries_of with (entries_gen 24 entry_of).
  rewrite (entries_lookup 24 entry_of ltac:(lia)) by done.
  destruct (get_range _ _ _) as [r|] eqn:E; [|done]. cbn [mbind option_bind].
  rewrite read_from_bytes_spec. apply get_range_length in E as ->; [|lia].
  by rewrite (proj2 (Z.eqb_eq _ _)) by lia.
Qed.

(** The accessors return what [new] was given. *)
Lemma new_accessors m f t n v :
  fits_signed 32 m → fits_signed 32 f → fits_signed 32 t → fits_signed 32 n → 0 <= v < 2 ^ 64 →
  let e := new m f t n v in
  wf_entry e ∧ mode e = m ∧ from_minutes e = f ∧ to_minutes e = t ∧ need_activate e = n
  ∧ value e = v.
Proof.
  intros. split.
  - repeat split; apply new_i32_length || apply new_f64_length.
  - repeat split; (by apply get_new_i32) || (by apply get_new_f64).
Qed.
End facts.

Definition sample_entry : bytes := le_bytes 4 1 ++ le_bytes 4 480 ++ le_bytes 4 510 ++ le_bytes 4 1 ++ le_bytes 8 9.
(** A table of two entries, an empty table, and a table that announces more
    entries than the payload has. *)
Definition sample_daytimers : bytes :=
  replicate 16 Byte.x01 ++ le_bytes 8 3 ++ le_bytes 4 2 ++ sample_entry ++ sample_entry
  ++ replicate 16 Byte.x02 ++ le_bytes 8 4 ++ le_bytes 4 0
  ++ replicate 16 Byte.x03 ++ le_bytes 8 4 ++ le_bytes 4 1000.

Lemma walk_daytimers_exact_witness :
  map (λ ev, (default_value ev, zlen (entries ev)))
      (@walk_daytimers zerocopy_model sample_daytimers) = [(3, 2); (4, 0)]
  ∧ ∃ tail, sample_daytimers
              = encode_daytimers (@walk_daytimers zerocopy_model sample_daytimers) ++ tail
      ∧ Forall wf_event (@walk_daytimers zerocopy_model sample_daytimers)
      ∧ malformed 28 24 (@announced zerocopy_model) tail.
Proof.
  split; [vm_compute; reflexivity|].
  by apply (@walk_daytimers_exact zerocopy_model zerocopy_model_laws).
Defined.

Lemma walk_daytimer_raw_agrees_witness :
  @walk_daytimer_raw zerocopy_model sample_daytimers
    = concat (map raw_calls (@walk_daytimers zerocopy_model sample_daytimers))
  ∧ zlen (@walk_daytimer_raw zerocopy_model sample_daytimers) = 4.
Proof.
  split; [apply (@walk_daytimer_raw_agrees zerocopy_model zerocopy_model_laws)|].
  vm_compute. reflexivity.
Defined.

Lemma entries_of_read_at_witness :
  @entries_of zerocopy_model (sample_entry ++ sample_entry) !! 1%nat
    = @read_at zerocopy_model (sample_entry ++ sample_entry) 24
  ∧ @read_at zerocopy_model (sample_entry ++ sample_entry) 24 = Some (entry_of sample_entry).
Proof.
  split; [|vm_compute; reflexivity].
  apply (@entries_of_read_at zerocopy_model zerocopy_model_laws _ 1); reflexivity.
Defined.
End Daytimer.

(** ** weather.rs: type-7 tables *)
Module Weather.

Record WeatherEntry := {
  e_timestamp : bytes;
  e_weather_type : bytes;
  e_wind_direction : bytes;
  e_solar_radiation : bytes;
  e_relative_humidity : bytes;  (* I32 up to here *)
  e_temperature : bytes;        (* F64 from here *)
  e_perceived_temperature : bytes;
  e_dew_point : bytes;
  e_precipitation : bytes;
  e_wind_speed : bytes;
  e_barometric_pressure : bytes;
}.
Definition SIZE : Z := 68.

Record WeatherEvent := {
  uuid : LoxoneUuid;
  last_update : Z;
  entries : list WeatherEntry;
}.

(** The [repr(C)] layout: no padding before [temperature]. *)
Definition entry_of (r : bytes) : WeatherEntry :=
  {| e_timestamp := field 0 4 r; e_weather_type := field 4 4 r;
     e_wind_direction := field 8 4 r; e_solar_radiation := field 12 4 r;
     e_relative_humidity := field 16 4 r; e_temperature := field 20 8 r;
     e_perceived_temperature := field 28 8 r; e_dew_point := field 36 8 r;
     e_precipitation := field 44 8 r; e_wind_speed := field 52 8 r;
     e_barometric_pressure := field 60 8 r |}.

Section entry.
Context {zc : ZeroCopy}.

Definition new (timestamp weather_type wind_direction solar_radiation relative_humidity
    temperature perceived_temperature dew_point precipitation wind_speed
    barometric_pressure : Z) : WeatherEntry :=
  {| e_timestamp := new_i32 timestamp; e_weather_type := new_i32 weather_type;
     e_wind_direction := new_i32 wind_direction; e_solar_radiation := new_i32 solar_radiation;
     e_relative_humidity := new_i32 relative_humidity; e_temperature := new_f64 temperature;
     e_perceived_temperature := new_f64 perceived_temperature; e_dew_point := new_f64 dew_point;
     e_precipitation := new_f64 precipitation; e_wind_speed := new_f64 wind_speed;
     e_barometric_pressure := new_f64 barometric_pressure |}.

Definition timestamp (e : WeatherEntry) : Z := get_i32 (e_timestamp e).
Definition weather_type (e : WeatherEntry) : Z := get_i32 (e_weather_type e).
Definition wind_direction (e : WeatherEntry) : Z := get_i32 (e_wind_direction e).
Definition solar_radiation (e : WeatherEntry) : Z := get_i32 (e_solar_radiation e).
Definition relative_humidity (e : WeatherEntry) : Z := get_i32 (e_relative_humidity e).
Definition temperature (e : WeatherEntry) : Z := le_get (e_temperature e).
Definition perceived_temperature (e : WeatherEntry) : Z := le_get (e_perceived_temperature e).
Definition dew_point (e : WeatherEntry) : Z := le_get (e_dew_point e).
Definition precipitation (e : WeatherEntry) : Z := le_get (e_precipitation e).
Definition wind_speed (e : WeatherEntry) : Z := le_get (e_wind_speed e).
Definition barometric_pressure (e : WeatherEntry) : Z := le_get (e_barometric_pressure e).

Definition read_at (buf : bytes) (offset : Z) : option WeatherEntry :=
  end_ ← checked_add offset SIZE;
  slice ← get_range buf offset end_;
  entry_of <$> read_from_bytes SIZE slice.
End entry.

Definition WEATHER_HEADER_SIZE : Z := 24.

Record TableHeader := {
  th_uuid : bytes;         (* [u8; 16] *)
  th_last_update : bytes;  (* U32 *)
  th_nr_entries : bytes;   (* I32 *)
}.
Definition header_of (r : bytes) : TableHeader :=
  {| th_uuid := field 0 16 r; th_last_update := field 16 4 r; th_nr_entries := field 20 4 r |}.

Section walk.
Context {zc : ZeroCopy}.

Definition entries_of (b : bytes) : list WeatherEntry :=
  let count := zlen b / SIZE in
  match ref_from_prefix_with_elems SIZE b count with
  | Some (recs, _) => map entry_of recs
  | None => []
  end.

Definition split_table (payload : bytes) : option (bytes * bytes * bytes) :=
  '(header, after_header) ← ref_from_prefix WEATHER_HEADER_SIZE payload;
  count ← usize_try_from (get_i32 (th_nr_entries (header_of header)));
  entries_len ← checked_mul count SIZE;
  entries ← get_to after_header entries_len;
  rest ← get_from after_header entries_len;
  Some (header, entries, rest).

Definition event_of (header entry_bytes : bytes) : WeatherEvent :=
  {| uuid := LoxUuid (th_uuid (header_of header));
     last_update := le_get (th_last_update (header_of header));
     entries := entries_of entry_bytes |}.

Definition walk_weather (payload : bytes) : list WeatherEvent :=
  walk (λ rest,
    match split_table rest with
    | Some (header, entry_bytes, tail) => Some (event_of header entry_bytes, tail)
    | None => None
    end) payload.
End walk.

(** *** The wire form *)
Definition as_bytes (e : WeatherEntry) : bytes :=
  e_timestamp e ++ e_weather_type e ++ e_wind_direction e ++ e_solar_radiation e
  ++ e_relative_humidity e ++ e_temperature e ++ e_perceived_temperature e ++ e_dew_point e
  ++ e_precipitation e ++ e_wind_speed e ++ e_barometric_pressure e.
Definition wf_entry (e : WeatherEntry) : Prop :=
  length (e_timestamp e) = 4%nat ∧ length (e_weather_type e) = 4%nat
  ∧ length (e_wind_direction e) = 4%nat ∧ length (e_solar_radiation e) = 4%nat
  ∧ length (e_relative_humidity e) = 4%nat ∧ length (e_temperature e) = 8%nat
  ∧ length (e_perceived_temperature e) = 8%nat ∧ length (e_dew_point e) = 8%nat
  ∧ length (e_precipitation e) = 8%nat ∧ length (e_wind_speed e) = 8%nat
  ∧ length (e_barometric_pressure e) = 8%nat.
Definition wf_event (ev : WeatherEvent) : Prop :=
  wf_uuid (uuid ev) ∧ 0 <= last_update ev < 2 ^ 32 ∧ Forall wf_entry (entries ev)
  ∧ zlen (entries ev) < 2 ^ 31.
Definition encode_event (ev : WeatherEvent) : bytes * bytes :=
  (uuid_bytes (uuid ev) ++ le_bytes 4 (last_update ev) ++ le_bytes 4 (zlen (entries ev)),
   concat (map as_bytes (entries ev))).
Definition encode_weather (evs : list WeatherEvent) : bytes := encode_tables encode_event evs.
Definition announced `{ZeroCopy} (h : bytes) : Z := get_i32 (th_nr_entries (header_of h)).

Lemma weather_raw_entry r : zlen r = 68 → wf_entry (entry_of r) ∧ as_bytes (entry_of r) = r.
Proof.
  unfold zlen. intros Hr. unfold wf_entry, as_bytes.
  cbn -[field]. split; [repeat split; apply field_length; lia|].
  rewrite (field_end 60 8) by lia.
  rewrite (field_chain 52 8), (field_chain 44 8), (field_chain 36 8), (field_chain 28 8),
    (field_chain 20 8), (field_chain 16 4), (field_chain 12 4), (field_chain 8 4),
    (field_chain 4 4). apply (field_chain 0 4).
Qed.

Lemma weather_entry_of_as_bytes e : wf_entry e → entry_of (as_bytes e) = e.
Proof.
  destruct e. intros H. unfold wf_entry in H. cbn in H. destruct_and! H.
  unfold entry_of, as_bytes. cbn -[field]. by fields_of_encode.
Qed.

Lemma weather_as_bytes_length e : wf_entry e → zlen (as_bytes e) = 68.
Proof.
  intros H. unfold wf_entry in H. unfold as_bytes, zlen. rewrite !length_app. lia.
Qed.

Section facts.
Context {zc : ZeroCopy} {zl : ZeroCopyLaws}.

Lemma weather_announced_encode ev : wf_event ev → announced (encode_event ev).1 = zlen (entries ev).
Proof.
  destruct ev as [[u] d l]. intros (Hu & Hd & Hl & Hn). unfold wf_uuid in Hu.
  cbn -[le_bytes Z.pow] in *. unfold announced, header_of, th_nr_entries.
  pose proof (le_bytes_length 4 d). pose proof (le_bytes_length 4 (zlen l)).
  fields_of_encode. apply get_i32_count. pose proof (zlen_nonneg l). lia.
Qed.

Lemma weather_announced_bound h : zlen h = 24 → announced h < 2 ^ 31.
Proof. intros Hh. apply get_i32_le_Z, field_length. unfold zlen in Hh. lia. Qed.

Lemma weather_encode_event_raw ev :
  wf_event ev → raw_table 24 68 announced (encode_event ev).1 (encode_event ev).2.
Proof.
  intros Hev. unfold raw_table. rewrite (weather_announced_encode ev Hev).
  destruct Hev as (Hu & _ & Hl & _). split; [|split; [apply zlen_nonneg|]].
  - unfold encode_event, zlen. cbn [fst]. by rewrite !length_app, Hu, !le_bytes_length.
  - cbn [encode_event snd]. rewrite (zlen_concat _ 68).
    + unfold zlen. by rewrite length_map.
    + apply Forall_map. eapply Forall_impl; [exact Hl|]. apply weather_as_bytes_length.
Qed.

Lemma weather_event_of_encode ev :
  wf_event ev → event_of (encode_event ev).1 (encode_event ev).2 = ev.
Proof.
  intros Hev. unfold event_of.
  assert (entries_of (encode_event ev).2 = entries ev) as ->.
  { destruct Hev as (_ & _ & Hl & _).
    apply (entries_encode 68 entry_of as_bytes wf_entry ltac:(lia)
             weather_entry_of_as_bytes weather_as_bytes_length _ Hl). }
  destruct ev as [[u] d l], Hev as (Hu & Hd & _). unfold wf_uuid in Hu.
  cbn -[le_bytes field Z.pow] in *.
  pose proof (le_bytes_length 4 d). fields_of_encode.
  rewrite le_get_spec, le_Z_le_bytes, Z.mod_small by exact Hd. done.
Qed.

Lemma weather_encode_event_of h e :
  raw_table 24 68 announced h e →
  wf_event (event_of h e) ∧ encode_event (event_of h e) = (h, e).
Proof.
  intros (Hh & Hn & He). pose proof (weather_announced_bound h Hh).
  destruct (entries_decode 68 entry_of as_bytes wf_entry ltac:(lia) weather_raw_entry e _ Hn He)
    as (Hw & Hc & Hz).
  change (entries_gen 68 entry_of e) with (entries_of e) in *.
  assert (length h = 24%nat) as Hh' by (unfold zlen in Hh; lia).
  pose proof (le_Z_range (field 16 4 h)) as Hd. unfold zlen in Hd.
  rewrite field_length in Hd by lia.
  unfold wf_event, encode_event, event_of. cbn [uuid last_update entries].
  rewrite Hz, Hc. split.
  - repeat split; try done; [apply field_length; lia|..]; rewrite le_get_spec; apply Hd.
  - f_equal. cbn [header_of th_uuid th_last_update uuid_bytes].
    rewrite le_get_spec, le_bytes_le_Z by (apply field_length; lia).
    assert (announced h = le_Z (field 20 4 h)) as ->
      by (apply get_i32_le_Z; [apply field_length; lia|done]).
    rewrite le_bytes_le_Z by (apply field_length; lia).
    rewrite (field_end 20 4) by done. rewrite (field_chain 16 4). apply (field_chain 0 16).
Qed.

(** [walk_weather] dispatches [evs] exactly when the payload is the wire
    form of [evs] followed by a malformed table. *)
Lemma walk_weather_exact payload evs :
  walk_weather payload = evs ↔
  ∃ tail, payload = encode_weather evs ++ tail ∧ Forall wf_event evs
          ∧ malformed 24 68 announced tail.
Proof.
  apply (walk_counted_exact 24 68 announced event_of encode_event wf_event);
    [lia|lia| |apply weather_event_of_encode|apply weather_encode_event_raw|apply weather_encode_event_of].
  intros h Hh. pose proof (weather_announced_bound h Hh). lia.
Qed.
End facts.

(** One table of one entry, and a table with a negative count. *)
Definition sample_weather : bytes :=
  replicate 16 Byte.x01 ++ le_bytes 4 7 ++ le_bytes 4 1 ++ replicate 68 Byte.x09
  ++ replicate 16 Byte.x02 ++ le_bytes 4 7 ++ le_bytes 4 (2 ^ 32 - 1) ++ replicate 68 Byte.x09.

Lemma walk_weather_exact_witness :
  map (λ ev, (last_update ev, zlen (entries ev)))
      (@walk_weather zerocopy_model sample_weather) = [(7, 1)]
  ∧ ∃ tail, sample_weather
              = encode_weather (@walk_weather zerocopy_model sample_weather) ++ tail
      ∧ Forall wf_event (@walk_weather zerocopy_model sample_weather)
      ∧ malformed 24 68 (@announced zerocopy_model) tail.
Proof.
  split; [vm_compute; reflexivity|].
  by apply (@walk_weather_exact zerocopy_model zerocopy_model_laws).
Defined.
End Weather.
