(* ===== verification/Collect.v ===== *)
(** * collect.rs: owned snapshots of an event table, and their hasher

    A [HashMap] is a [gmap]; its hasher is modelled on its own. *)

From S2P Require Import Prelude RustStr External Models Errors Uuid EventTables.
Import EventTables.Value EventTables.Text.

(** ** The multiply-rotate hasher *)

Record LoxHasher := { hash : Z }.
Definition SEED : Z := 0x517cc1b727220a95.

Definition add (st : LoxHasher) (word : Z) : LoxHasher :=
  {| hash := wrap 64 (Z.lxor (rotl64 5 (hash st)) word * SEED) |}.

(** [Hasher::write] on a target of either endianness. *)
Definition write (be : bool) (st : LoxHasher) (bytes : bytes) : LoxHasher :=
  let '(chunks, rest) := as_chunks 8 bytes in
  let st := fold_left (λ st chunk, add st (ne_Z be chunk)) chunks st in
  match rest with
  | [] => st
  | _ => add st (ne_Z be (rest ++ replicate (8 - length rest) Byte.x00))
  end.

Definition write_u8 (st : LoxHasher) (n : byte) : LoxHasher := add st (u8 n).
Definition write_u64 (st : LoxHasher) (n : Z) : LoxHasher := add st n.
Definition write_usize (st : LoxHasher) (n : Z) : LoxHasher := add st n.
Definition finish (st : LoxHasher) : Z := hash st.

(** ** Snapshots *)

Abbreviation UuidMap := (gmap LoxoneUuid).
Abbreviation UuidStrMap := (gmap LoxoneUuidStr).

Definition own_text (text : bytes) : bytes := match text with [] => [] | _ => text end.
Definition text_capacity (payload : bytes) : Z := zlen payload / TEXT_HEADER_SIZE.

Section collect.
Context {zc : ZeroCopy}.

Definition collect_values (payload : bytes) : UuidMap Z :=
  fold_left (λ m '(uuid, value), <[uuid := value]> m) (walk_values payload) ∅.

Definition collect_texts (payload : bytes) : UuidMap bytes :=
  fold_left (λ m '(uuid, _, text), <[uuid := own_text text]> m) (walk_texts payload) ∅.

Definition collect_values_by_name (payload : bytes) : UuidStrMap Z :=
  fold_left (λ m '(uuid, value), <[format_loxone_key uuid := value]> m) (walk_values payload) ∅.

Definition collect_texts_by_name (payload : bytes) : UuidStrMap bytes :=
  fold_left (λ m '(uuid, _, text), <[format_loxone_key uuid := own_text text]> m)
    (walk_texts payload) ∅.
End collect.

(** ** Facts about the hasher *)

Definition wf_hasher (st : LoxHasher) : Prop := 0 <= hash st < 2 ^ 64.
Definition word (w : Z) : Prop := 0 <= w < 2 ^ 64.

(** [SEED] is odd: this is its inverse modulo [2^64]. *)
Definition SEED_INV : Z := 2323857671730065597.

Lemma seed_mul_inj x y : word x → word y → wrap 64 (x * SEED) = wrap 64 (y * SEED) → x = y.
Proof.
  unfold word, wrap. intros Hx Hy E.
  assert (∀ z, word z → (z * SEED mod 2 ^ 64) * SEED_INV mod 2 ^ 64 = z) as Hinv.
  { intros z Hz. rewrite Z.mul_mod_idemp_l, <- Z.mul_assoc by lia.
    rewrite <- Z.mul_mod_idemp_r by lia.
    change (SEED * SEED_INV mod 2 ^ 64) with 1. rewrite Z.mul_1_r. by apply Z.mod_small. }
  rewrite <- (Hinv x Hx), <- (Hinv y Hy). by rewrite E.
Qed.

Lemma add_wf st w : wf_hasher (add st w).
Proof. unfold wf_hasher, add, wrap. simpl. by apply Z.mod_pos_bound. Qed.

Lemma mixed_word st w : wf_hasher st → word w → word (Z.lxor (rotl64 5 (hash st)) w).
Proof. intros Hs Hw. by apply lxor_range; [|apply rotl64_range|]. Qed.

Lemma add_word_inj st w w' :
  wf_hasher st → word w → word w' → add st w = add st w' → w = w'.
Proof.
  intros Hs Hw Hw' E%(f_equal hash). cbn [add hash] in E.
  apply seed_mul_inj in E; auto using mixed_word. by apply lxor_cancel in E.
Qed.

Lemma add_state_inj st st' w :
  wf_hasher st → wf_hasher st' → word w → add st w = add st' w → st = st'.
Proof.
  intros Hs Hs' Hw E%(f_equal hash). cbn [add hash] in E.
  apply seed_mul_inj in E; auto using mixed_word. rewrite !(Z.lxor_comm _ w) in E.
  apply lxor_cancel, rotl64_inj in E; auto. destruct st, st'. by simpl in E; subst.
Qed.

Lemma add_words_inj ws st st' :
  Forall word ws → wf_hasher st → wf_hasher st' →
  fold_left add ws st = fold_left add ws st' → st = st'.
Proof.
  intros Hws. revert st st'. induction Hws as [|w ws Hw _ IH]; intros st st' Hs Hs' E; [done|].
  apply IH in E; auto using add_wf. by apply add_state_inj in E.
Qed.

Lemma ne_word be l : length l = 8%nat → word (ne_Z be l).
Proof.
  intros Hl. unfold ne_Z. pose proof (le_Z_range (if be then rev l else l)) as Hr.
  replace (zlen (if be then rev l else l)) with 8 in Hr; [exact Hr|].
  unfold zlen. destruct be; rewrite ?length_rev, Hl; done.
Qed.

Lemma finish_inj a b : finish a = finish b → a = b.
Proof. destruct a, b. unfold finish. simpl. by intros ->. Qed.

(** The hasher reads the whole UUID: on a target of either endianness and
    from any state, two different UUIDs that agree on their first or on their
    last eight bytes (in particular, that differ in one byte) have different
    hashes. *)
Lemma hash_reads_whole_uuid be st u v :
  wf_hasher st → wf_uuid u → wf_uuid v → u ≠ v →
  take 8 (uuid_bytes u) = take 8 (uuid_bytes v) ∨ drop 8 (uuid_bytes u) = drop 8 (uuid_bytes v) →
  finish (hash_uuid be write_u64 u st) ≠ finish (hash_uuid be write_u64 v st).
Proof.
  destruct u as [l], v as [k]. unfold wf_uuid, hash_uuid, as_u64_pair, write_u64.
  cbn [uuid_bytes]. intros Hs Hl Hk Hne Hhalf E%finish_inj. apply Hne. f_equal.
  assert (∀ x : bytes, length x = 16%nat →
    length (take 8 x) = 8%nat ∧ length (take 8 (drop 8 x)) = 8%nat ∧ take 8 (drop 8 x) = drop 8 x)
    as Hlen by (intros x Hx; rewrite (take_ge (drop 8 x)), length_take, length_drop
                by (rewrite length_drop; lia); repeat split; lia).
  destruct (Hlen l Hl) as (? & ? & El), (Hlen k Hk) as (? & ? & Ek).
  rewrite <- (take_drop 8 l), <- (take_drop 8 k). destruct Hhalf as [Hh|Hh].
  - rewrite Hh in E. apply add_word_inj in E; auto using add_wf, ne_word.
    apply ne_Z_inj in E; [|lia]. by rewrite Hh, <- El, <- Ek, E.
  - rewrite Hh in E. apply add_state_inj in E; auto using add_wf, ne_word.
    apply add_word_inj in E; auto using ne_word. apply ne_Z_inj in E; [|lia].
    by rewrite Hh, E.
Qed.

Lemma hash_reads_whole_uuid_witness :
  finish (hash_uuid false write_u64 (LoxUuid (replicate 16 Byte.x00)) {| hash := 0 |})
  ≠ finish (hash_uuid false write_u64 (LoxUuid (replicate 15 Byte.x00 ++ [Byte.x01])) {| hash := 0 |}).
Proof.
  apply (hash_reads_whole_uuid false {| hash := 0 |});
    [done|reflexivity|reflexivity|done|left; reflexivity].
Defined.

(** ** Facts about the maps *)

(** Inserting in order keeps, for each key, the last value. *)
Definition last_for {K V} `{EqDecision K} (k : K) (l : list (K * V)) : option V :=
  snd <$> last (filter (λ e, e.1 = k) l).

Lemma fold_insert_lookup {K V} `{Countable K} (l : list (K * V)) (m : gmap K V) k :
  fold_left (λ m e, <[e.1 := e.2]> m) l m !! k = opt_or (last_for k l) (m !! k).
Proof.
  unfold last_for. revert m. induction l as [|[k' v] l IH] using rev_ind; intros m; [done|].
  rewrite fold_left_app, filter_app. cbn [fold_left fst snd].
  destruct (decide (k' = k)) as [->|Hk].
  - rewrite lookup_insert_eq, filter_cons_True by done. by rewrite filter_nil, last_snoc.
  - rewrite lookup_insert_ne, IH, filter_cons_False by done. by rewrite filter_nil, app_nil_r.
Qed.

Lemma filter_map_inj {K K' V} `{EqDecision K} `{EqDecision K'} (f : K → K') (Q : K → Prop)
    (l : list (K * V)) k :
  (∀ a b, Q a → Q b → f a = f b → a = b) → Q k → Forall (λ e, Q e.1) l →
  last_for (f k) (map (λ e, (f e.1, e.2)) l) = last_for k l.
Proof.
  intros Hf Hk Hl. unfold last_for.
  assert (filter (λ e, e.1 = f k) (map (λ e, (f e.1, e.2)) l)
          = map (λ e : K * V, (f e.1, e.2)) (filter (λ e, e.1 = k) l)) as ->.
  { induction Hl as [|[a v] l Ha _ IH]; [done|]. cbn [map fst snd].
    destruct (decide (a = k)) as [->|Hne].
    - rewrite !filter_cons_True by done. cbn [map fst snd]. by rewrite IH.
    - rewrite !filter_cons_False; [done|done|]. cbn. intros E. by apply Hne, Hf. }
  destruct (filter _ l) as [|e l'] using rev_ind; [done|].
  rewrite map_app. simpl. by rewrite !last_snoc.
Qed.

Lemma fold_left_map {A B C} (f : C → B → C) (g : A → B) (l : list A) c :
  fold_left f (map g l) c = fold_left (λ c a, f c (g a)) l c.
Proof. revert c. induction l; intros; simpl; auto. Qed.

Lemma fold_left_ext {A B} (f g : B → A → B) (l : list A) b :
  (∀ b a, f b a = g b a) → fold_left f l b = fold_left g l b.
Proof. intros H. revert b. induction l; intros; simpl; [done|]. by rewrite H. Qed.

Definition text_entry (e : event) : LoxoneUuid * bytes := (e.1.1, e.2).
Definition by_name {V} (e : LoxoneUuid * V) : LoxoneUuidStr * V := (format_loxone_key e.1, e.2).

Lemma own_text_id t : own_text t = t.
Proof. by destruct t. Qed.

Section facts.
Context {zc : ZeroCopy} {zl : ZeroCopyLaws}.

Lemma collect_values_fold p :
  collect_values p = fold_left (λ m e, <[e.1 := e.2]> m) (walk_values p) ∅.
Proof using. apply fold_left_ext. by intros m []. Qed.

Lemma collect_texts_fold p :
  collect_texts p = fold_left (λ m e, <[e.1 := e.2]> m) (map text_entry (walk_texts p)) ∅.
Proof using.
  rewrite fold_left_map. apply fold_left_ext. intros m [[u i] t]. simpl. by rewrite own_text_id.
Qed.

Lemma collect_values_by_name_fold p :
  collect_values_by_name p
  = fold_left (λ m e, <[e.1 := e.2]> m) (map by_name (walk_values p)) ∅.
Proof using. rewrite fold_left_map. apply fold_left_ext. by intros m []. Qed.

Lemma collect_texts_by_name_fold p :
  collect_texts_by_name p
  = fold_left (λ m e, <[e.1 := e.2]> m) (map by_name (map text_entry (walk_texts p))) ∅.
Proof using.
  rewrite !fold_left_map. apply fold_left_ext. intros m [[u i] t]. simpl. by rewrite own_text_id.
Qed.

(** Later records win: the snapshot of a value or text table holds, for
    every UUID, the value of the last record of the walk for it, and nothing for
    a UUID the walk does not report. *)
Lemma collect_last_record payload u :
  collect_values payload !! u = last_for u (walk_values payload)
  ∧ collect_texts payload !! u = last_for u (map text_entry (walk_texts payload)).
Proof using.
  rewrite collect_values_fold, collect_texts_fold, !fold_insert_lookup, !lookup_empty.
  split; by destruct (last_for _ _).
Qed.

Lemma walk_values_wf p : Forall (λ e, wf_uuid e.1) (walk_values p).
Proof using zl.
  destruct (walk_values_decomp p) as (l & tail & -> & Ht & Hl).
  rewrite walk_values_encode by done. eapply Forall_impl; [exact Hl|]. by intros ? [? _].
Qed.

Lemma walk_texts_wf p : Forall (λ e, wf_uuid e.1) (map text_entry (walk_texts p)).
Proof using zl.
  destruct (text_table_total p) as [evs Hevs]. rewrite (text_table_walk _ _ Hevs).
  induction Hevs as [| |e pad (? & _)|e pad rest evs (? & _) _ _ IH]; simpl; auto.
Qed.

Lemma by_name_lookup {V} (l : list (LoxoneUuid * V)) u :
  Forall (λ e, wf_uuid e.1) l → wf_uuid u →
  fold_left (λ m e, <[e.1 := e.2]> m) (map by_name l) (∅ : UuidStrMap V)
    !! format_loxone_key u
  = fold_left (λ m e, <[e.1 := e.2]> m) l (∅ : UuidMap V) !! u.
Proof using.
  intros Hl Hu. rewrite !fold_insert_lookup, !lookup_empty.
  unfold by_name. rewrite (filter_map_inj format_loxone_key wf_uuid); auto.
  apply format_loxone_key_inj.
Qed.

(** The string-keyed snapshots hold the same entries as the UUID-keyed
    ones: whatever name parses to a UUID, looking up the key formatted from it
    gives what the UUID-keyed map has for that UUID. *)
Lemma collect_by_name_agrees payload name u :
  parse name = Ok u →
  collect_values_by_name payload !! format_loxone_key u = collect_values payload !! u
  ∧ collect_texts_by_name payload !! format_loxone_key u = collect_texts payload !! u.
Proof using zl.
  intros Hu%parse_wf.
  rewrite collect_values_by_name_fold, collect_texts_by_name_fold, collect_values_fold,
    collect_texts_fold.
  split; apply by_name_lookup; auto using walk_values_wf, walk_texts_wf.
Qed.

Lemma fold_insert_size {K V} `{Countable K} (l : list (K * V)) (m : gmap K V) :
  (size (fold_left (λ m e, <[e.1 := e.2]> m) l m) <= size m + length l)%nat.
Proof using.
  revert m. induction l as [|[k v] l IH]; intros m; simpl; [lia|].
  etrans; [apply IH|]. simpl. destruct (m !! k) eqn:E.
  - rewrite map_size_insert_Some by eauto. lia.
  - rewrite map_size_insert_None by done. lia.
Qed.

Lemma walk_values_count p : zlen (walk_values p) = zlen p / 24.
Proof using zl.
  destruct (walk_values_decomp p) as (l & tail & -> & Ht & Hl).
  rewrite walk_values_encode by done. rewrite zlen_app. unfold encode_values.
  rewrite (zlen_concat _ 24).
  - unfold zlen at 2. rewrite length_map. rewrite Z.mul_comm, Z.div_add_l by lia.
    rewrite (Z.div_small (zlen tail)) by (pose proof (zlen_nonneg tail); lia).
    unfold zlen. lia.
  - apply Forall_map. eapply Forall_impl; [exact Hl|]. apply encode_value_length.
Qed.

(** The capacities the snapshots reserve are upper bounds on their final
    sizes, so inserting the records never grows the table. *)
Lemma reserved_capacity_suffices payload :
  Z.of_nat (size (collect_values payload)) <= zlen payload / VALUE_RECORD_SIZE
  ∧ Z.of_nat (size (collect_texts payload)) <= text_capacity payload.
Proof using zl.
  rewrite collect_values_fold, collect_texts_fold. unfold VALUE_RECORD_SIZE, text_capacity.
  pose proof (fold_insert_size (walk_values payload) ∅) as Hv.
  pose proof (fold_insert_size (map text_entry (walk_texts payload)) ∅) as Ht.
  rewrite map_size_empty in Hv. rewrite map_size_empty in Ht. rewrite length_map in Ht.
  rewrite <- walk_values_count. split; [unfold zlen; lia|].
  etrans; [apply inj_le, Ht|]. apply Z.div_le_lower_bound; [done|].
  etrans; [|apply walk_texts_work]. unfold TEXT_HEADER_SIZE. clear Hv Ht.
  induction (walk_texts payload) as [|e l IH]; cbn [foldr length] in *; [done|].
  pose proof (zlen_nonneg e.2). lia.
Qed.
End facts.

Lemma collect_by_name_agrees_witness :
  parse (bs "01010101-0101-0101-0101010101010101") = Ok (LoxUuid (replicate 16 Byte.x01))
  ∧ @collect_values_by_name zerocopy_model sample_values
      !! format_loxone_key (LoxUuid (replicate 16 Byte.x01)) = Some 5
  ∧ (@collect_values_by_name zerocopy_model sample_values
       !! format_loxone_key (LoxUuid (replicate 16 Byte.x01))
       = @collect_values zerocopy_model sample_values !! LoxUuid (replicate 16 Byte.x01)
     ∧ @collect_texts_by_name zerocopy_model sample_values
       !! format_loxone_key (LoxUuid (replicate 16 Byte.x01))
       = @collect_texts zerocopy_model sample_values !! LoxUuid (replicate 16 Byte.x01)).
Proof.
  split; [vm_compute; reflexivity|]. split; [vm_compute; reflexivity|].
  apply (@collect_by_name_agrees zerocopy_model zerocopy_model_laws sample_values
           (bs "01010101-0101-0101-0101010101010101")).
  vm_compute. reflexivity.
Defined.

Lemma reserved_capacity_suffices_witness :
  size (@collect_values zerocopy_model sample_values) = 2%nat
  ∧ Z.of_nat (size (@collect_values zerocopy_model sample_values))
    <= zlen sample_values / VALUE_RECORD_SIZE
  ∧ Z.of_nat (size (@collect_texts zerocopy_model sample_values))
    <= text_capacity sample_values.
Proof.
  split; [vm_compute; reflexivity|].
  apply (@reserved_capacity_suffices zerocopy_model zerocopy_model_laws sample_values).
Defined.
