(* ===== verification/Session.v ===== *)
(** * crypto/session.rs: AES-256-CBC session encryption and the command salts

    The random bytes and the readings of the clock an operation makes are its
    inputs. A method on [&mut self] returns the state it leaves behind, also
    when it fails. The rendering of the standard library's [Utf8Error] is a
    parameter. *)

From S2P Require Import Prelude RustStr External Models Errors.

Definition IV_BYTES : Z := 16.
Definition AES_KEY_SIZE : Z := 32.
Definition AES_BLOCK_SIZE : Z := 16.
Definition SALT_BYTES : Z := 16.
Definition SALT_MAX_AGE_SECONDS : Z := 60 * 60.
Definition SALT_MAX_USE_COUNT : Z := 30.
Definition CMD_ENCRYPT : bytes := bs "jdev/sys/enc/".

Definition slash : byte := Byte.x2f.
Definition nul : byte := Byte.x00.

(** [Utf8Error::to_string] *)
Class Utf8Text := { utf8_error : bytes → bytes }.

(** [str::from_utf8] *)
Definition from_utf8 `{!Utf8Text} (s : bytes) : result bytes bytes :=
  if utf8_valid s then Ok s else Err (utf8_error s).

(** [usize::next_multiple_of], [usize::div_ceil], [Vec::resize(n, 0)] *)
Definition next_multiple_of (n m : Z) : Z := (n + m - 1) / m * m.
Definition div_ceil (n m : Z) : Z := (n + m - 1) / m.
Definition resize0 (v : bytes) (n : Z) : bytes :=
  take (Z.to_nat n) v ++ replicate (Z.to_nat n - length v) nul.

(** ** Percent encoding of Base64 *)

Definition escape_of (b : byte) : option bytes :=
  match u8 b with
  | 43 => Some (bs "%2B")
  | 47 => Some (bs "%2F")
  | 61 => Some (bs "%3D")
  | _ => None
  end.

(** The body of the [for (i, byte)] loop on [(out, run_start)]. *)
Definition encode_byte (encoded : bytes) (acc : bytes * nat) (ib : nat * byte) : bytes * nat :=
  let '(out, run_start) := acc in
  let '(i, b) := ib in
  match escape_of b with
  | Some esc => (out ++ take (i - run_start) (drop run_start encoded) ++ esc, S i)
  | None => (out, run_start)
  end.

Definition enumerate (s : bytes) : list (nat * byte) := zip (seq 0 (length s)) s.

Definition percent_encode_base64 (encoded out : bytes) : bytes :=
  let '(out, run_start) := fold_left (encode_byte encoded) (enumerate encoded) (out, 0%nat) in
  out ++ drop run_start encoded.

(** ** Salt prefixes *)

Definition strip_salt_prefix (plaintext : bytes) : bytes :=
  let trimmed := trim_end_matches nul plaintext in
  match strip_prefix (bs "nextSalt/") trimmed with
  | Some rest =>
      match split_once slash rest with
      | Some (_, rest) =>
          match split_once slash rest with Some (_, cmd) => cmd | None => trimmed end
      | None => trimmed
      end
  | None =>
      match strip_prefix (bs "salt/") trimmed with
      | Some rest => match split_once slash rest with Some (_, cmd) => cmd | None => trimmed end
      | None => trimmed
      end
  end.

Section session.
Context {U : Utf8Text} {A : AesCbc} {B : Base64} {X : Hex} {P : PercentDecode}.

(** ** AES with ZeroBytePadding *)

Definition aes_encrypt_zerobyte (key iv data : bytes) : Result bytes :=
  let pad := (16 - zlen data mod 16) mod 16 in
  let buf := data ++ replicate (Z.to_nat pad) nul in
  ok_or (cbc_encrypt key iv buf) (Crypto (bs "AES encrypt failed")).

Definition aes_decrypt_zerobyte (key iv data : bytes) : Result bytes :=
  if negb (zlen data mod 16 =? 0)
  then Err (Crypto (bs "ciphertext length not multiple of 16"))
  else
    buf ← ok_or (cbc_decrypt key iv data) (Crypto (bs "AES decrypt failed"));
    (* while buf.last() == Some(&0) { buf.pop(); } *)
    Ok (trim_end_matches nul buf).

(** ** SessionKeys *)

Record SessionKeys := { sk_key : bytes; sk_iv : bytes; sk_cipher : Cipher }.

Definition from_key_iv (key iv : bytes) : SessionKeys :=
  {| sk_key := key; sk_iv := iv; sk_cipher := cipher_new key |}.

(** The 32 and 16 bytes the generator fills the two arrays with. *)
Definition generate (rng_key rng_iv : bytes) : SessionKeys := from_key_iv rng_key rng_iv.

Definition session_payload (k : SessionKeys) : bytes :=
  hex_encode (sk_key k) ++ bs ":" ++ hex_encode (sk_iv k).

Definition decrypt_control_response (k : SessionKeys) (response : bytes) : Result bytes :=
  let encoded := rsplit_next CMD_ENCRYPT response in
  decoded_pct ← map_err Crypto (from_utf8 (percent_decode encoded));
  encrypted ← map_err Crypto (b64_decode decoded_pct);
  plain ← aes_decrypt_zerobyte (sk_key k) (sk_iv k) encrypted;
  map_err Crypto (from_utf8 plain).

(** ** SaltState *)

Record SaltState := {
  salt : bytes;
  salt_used_count : Z;
  salt_time_stamp : Z;
  scratch : bytes;
  encoded : bytes;
}.

Definition salt_default : SaltState :=
  {| salt := []; salt_used_count := 0; salt_time_stamp := 0; scratch := []; encoded := [] |}.

Definition reset (st : SaltState) : SaltState :=
  {| salt := []; salt_used_count := 0; salt_time_stamp := 0; scratch := []; encoded := [] |}.

(** What one command draws: 16 random bytes, and the clock when the age of the
    salt is checked and when a new salt is stamped. *)
Record Draw := { rng_salt : bytes; now_check : Z; now_stamp : Z }.

Definition generate_salt (d : Draw) (st : SaltState) : SaltState :=
  {| salt := hex_encode (rng_salt d); salt_used_count := 0; salt_time_stamp := now_stamp d;
     scratch := scratch st; encoded := encoded st |}.

Definition new_salt_needed (d : Draw) (st : SaltState) : SaltState * bool :=
  let used := salt_used_count st + 1 in
  ({| salt := salt st; salt_used_count := used; salt_time_stamp := salt_time_stamp st;
      scratch := scratch st; encoded := encoded st |},
   (SALT_MAX_USE_COUNT <? used)
   || (SALT_MAX_AGE_SECONDS <? saturating_sub (now_check d) (salt_time_stamp st))).

Definition set_scratch (s : bytes) (st : SaltState) : SaltState :=
  {| salt := salt st; salt_used_count := salt_used_count st;
     salt_time_stamp := salt_time_stamp st; scratch := s; encoded := encoded st |}.
Definition set_encoded (e : bytes) (st : SaltState) : SaltState :=
  {| salt := salt st; salt_used_count := salt_used_count st;
     salt_time_stamp := salt_time_stamp st; scratch := scratch st; encoded := e |}.
Definition is_empty (s : bytes) : bool := match s with [] => true | _ => false end.

Definition fill_salted_plaintext (d : Draw) (command : bytes) (st : SaltState) : SaltState :=
  let st := set_scratch [] st in
  let '(st, rotate) :=
    if is_empty (salt st) then (st, false) else new_salt_needed d st in
  let st :=
    if rotate then
      let previous := salt st in
      let st := generate_salt d st in
      set_scratch (scratch st ++ bs "nextSalt/" ++ previous ++ [slash]) st
    else
      let st := if is_empty (salt st) then generate_salt d st else st in
      set_scratch (scratch st ++ bs "salt/") st in
  set_scratch (scratch st ++ salt st ++ [slash] ++ command ++ [nul]) st.

(** The plaintext is valid UTF-8, so the lossy conversion is the identity. *)
Definition salted_plaintext (d : Draw) (command : bytes) (st : SaltState) : SaltState * bytes :=
  let st := fill_salted_plaintext d command st in (st, scratch st).

Definition encrypt (d : Draw) (keys : SessionKeys) (command : bytes) (st : SaltState) :
    SaltState * Result bytes :=
  let st := fill_salted_plaintext d command st in
  let padded := next_multiple_of (zlen (scratch st)) AES_BLOCK_SIZE in
  let st := set_scratch (resize0 (scratch st) padded) st in
  match cbc_encrypt_with (sk_cipher keys) (sk_iv keys) (scratch st) with
  | None => (st, Err (Crypto (bs "AES encrypt failed")))
  | Some c =>
      let st := set_scratch c st in
      let b64_len := div_ceil padded 3 * 4 in
      let st := set_encoded (resize0 (encoded st) b64_len) st in
      match b64_encode_slice (scratch st) b64_len with
      | None => (st, Err (Crypto (bs "base64 buffer too small")))
      | Some w =>
          let written := zlen w in
          let st := set_encoded (w ++ drop (length w) (encoded st)) st in
          let text := take (Z.to_nat written) (encoded st) in
          if utf8_valid text
          then (st, Ok (percent_encode_base64 text CMD_ENCRYPT))
          else (st, Err (Crypto (bs "base64 produced non-ASCII")))
      end
  end.
End session.
Arguments SessionKeys {A}.

(** ** Percent encoding *)

(** What [encodeURIComponent] does to a byte: letters and digits stay, anything
    else becomes [%XX]. *)
Definition upper_hex (z : Z) : byte := byte_of (if z <? 10 then 48 + z else 55 + z).
Definition general_encode_byte (b : byte) : bytes :=
  if is_alnum b then [b] else [percent; upper_hex (u8 b / 16); upper_hex (u8 b mod 16)].
Definition general_encode (s : bytes) : bytes := concat (map general_encode_byte s).

Definition escaped (b : byte) : bytes := default [b] (escape_of b).

Lemma encode_bytes_spec s t i run out :
  drop i s = t → (run <= i)%nat →
  (let '(out', run') := fold_left (encode_byte s) (zip (seq i (length t)) t) (out, run) in
   out' ++ drop run' s)
  = out ++ take (i - run) (drop run s) ++ concat (map escaped t).
Proof.
  revert i run out. induction t as [|b t IH]; intros i run out Ht Hr.
  - simpl. rewrite app_nil_r. f_equal. symmetry. apply take_ge. rewrite length_drop.
    apply (f_equal length) in Ht. rewrite length_drop in Ht. simpl in Ht. lia.
  - assert (drop (S i) s = t) as Ht'.
    { change (S i) with (1 + i)%nat. rewrite Nat.add_comm, <- drop_drop, Ht. done. }
    cbn [length seq zip zip_with fold_left encode_byte map concat]. unfold escaped at 1.
    destruct (escape_of b) as [esc|].
    + rewrite IH by (done || lia). rewrite Nat.sub_diag. cbn [take app default from_option].
      by rewrite <- !app_assoc.
    + rewrite IH by (done || lia). f_equal. cbn [default from_option].
      rewrite (app_assoc (take (i - run) _)). f_equal.
      replace (S i - run)%nat with ((i - run) + 1)%nat by lia.
      rewrite <- (take_take_drop (drop run s) (i - run) 1). f_equal.
      rewrite drop_drop. replace (run + (i - run))%nat with i by lia. by rewrite Ht.
Qed.

Lemma percent_encode_spec s out :
  percent_encode_base64 s out = out ++ concat (map escaped s).
Proof.
  unfold percent_encode_base64, enumerate. by rewrite (encode_bytes_spec s s 0 0 out).
Qed.

Lemma escaped_general b : is_b64 b = true → escaped b = general_encode_byte b.
Proof. destruct b; vm_compute; congruence. Qed.

(** On Base64 text, [percent_encode_base64] appends byte for byte what the
    general encoder with the [NON_ALPHANUMERIC] set gives, although it copies the
    runs between escapes wholesale. *)
Lemma percent_encode_base64_general s out :
  Forall (λ b, is_b64 b = true) s →
  percent_encode_base64 s out = out ++ general_encode s.
Proof.
  intros Hs. rewrite percent_encode_spec. f_equal. unfold general_encode. f_equal.
  induction Hs as [|b s Hb _ IH]; [done|]. cbn [map]. by rewrite escaped_general, IH.
Qed.

Lemma percent_encode_base64_general_witness :
  percent_encode_base64 (bs "A+B/C==") (bs "x") = bs "xA%2BB%2FC%3D%3D"
  ∧ percent_encode_base64 (bs "A+B/C==") (bs "x") = bs "x" ++ general_encode (bs "A+B/C==").
Proof.
  split; [reflexivity|]. apply percent_encode_base64_general. repeat constructor.
Defined.

Lemma escaped_no_slash b : slash ∉ escaped b.
Proof. destruct b; vm_compute escaped; rewrite !not_elem_of_cons; repeat split; done || apply not_elem_of_nil. Qed.

Lemma percent_decode_escaped `{PercentDecodeLaws} s :
  Forall (λ b, is_b64 b = true) s → percent_decode (concat (map escaped s)) = s.
Proof.
  induction 1 as [|b s Hb _ IH]; [apply percent_decode_nil|]. cbn [map concat].
  destruct (decide (b = Byte.x2b)) as [->|];
    [change (escaped Byte.x2b) with (bs "%2B"); by rewrite percent_decode_plus, IH|].
  destruct (decide (b = Byte.x2f)) as [->|];
    [change (escaped Byte.x2f) with (bs "%2F"); by rewrite percent_decode_slash, IH|].
  destruct (decide (b = Byte.x3d)) as [->|];
    [change (escaped Byte.x3d) with (bs "%3D"); by rewrite percent_decode_equals, IH|].
  assert (escaped b = [b]) as -> by (by destruct b).
  cbn [app]. rewrite percent_decode_plain; [by rewrite IH|]. by intros ->.
Qed.

(** ** The salt sequence *)

(** The two forms of a salted command. *)
Inductive message :=
| MSalt (salt cmd : bytes)
| MNext (prev next cmd : bytes).

Definition msg_cmd (m : message) : bytes :=
  match m with MSalt _ c => c | MNext _ _ c => c end.
Definition msg_text (m : message) : bytes :=
  match m with
  | MSalt s c => bs "salt/" ++ s ++ [slash] ++ c
  | MNext p n c => bs "nextSalt/" ++ p ++ [slash] ++ n ++ [slash] ++ c
  end.

(** What the Miniserver keeps: the current salt, the number of commands it has
    seen under it, and when the client made it. A salt is good for 31 commands
    and for an hour, and only its holder may replace it. *)
Record Server := { cur : bytes; seen : Z; born : Z }.

Definition server_accept (sv : option Server) (d : Draw) (m : message) : option Server :=
  match sv, m with
  | None, MSalt s _ => Some {| cur := s; seen := 1; born := now_stamp d |}
  | None, MNext _ _ _ => None
  | Some v, MSalt s _ =>
      if bool_decide (s = cur v) && (seen v <=? SALT_MAX_USE_COUNT)
         && (now_check d - born v <=? SALT_MAX_AGE_SECONDS)
      then Some {| cur := s; seen := seen v + 1; born := born v |} else None
  | Some v, MNext p n _ =>
      if bool_decide (p = cur v)
      then Some {| cur := n; seen := 1; born := now_stamp d |} else None
  end.

Definition is_salt (s : bytes) : Prop :=
  length s = 32%nat ∧ Forall (λ b, is_hex_lower b = true) s.

(** The client and the server agree on the salt, its age and its use. *)
Definition in_sync (st : SaltState) (sv : option Server) : Prop :=
  match sv with
  | None => salt st = []
  | Some v => salt st = cur v ∧ is_salt (cur v) ∧ seen v = salt_used_count st + 1
              ∧ born v = salt_time_stamp st ∧ 0 <= salt_used_count st <= SALT_MAX_USE_COUNT
  end.

Section salts.
Context {X : Hex} {XL : HexLaws}.

Lemma hex_salt d : zlen (rng_salt d) = SALT_BYTES → is_salt (hex_encode (rng_salt d)).
Proof.
  unfold zlen, SALT_BYTES. intros Hd. split; [rewrite hex_encode_length; lia|].
  apply hex_encode_digits.
Qed.

(** One command: what is sent, and that the server accepts it. *)
Lemma fill_in_sync d cmd st sv :
  zlen (rng_salt d) = SALT_BYTES → in_sync st sv →
  ∃ m v, scratch (fill_salted_plaintext d cmd st) = msg_text m ++ [nul]
         ∧ msg_cmd m = cmd ∧ server_accept sv d m = Some v
         ∧ in_sync (fill_salted_plaintext d cmd st) (Some v).
Proof using XL.
  intros Hd Hsync. pose proof (hex_salt d Hd) as Hhex. unfold fill_salted_plaintext.
  destruct sv as [v|]; simpl in Hsync.
  - destruct Hsync as (Hs & Hsalt & Hseen & Hborn & Hcount).
    assert (is_empty (salt st) = false) as Hne.
    { rewrite Hs. destruct Hsalt as [Hl _]. by destruct (cur v). }
    cbn [set_scratch salt]. rewrite Hne. cbn [new_salt_needed salt].
    cbn [set_scratch salt_used_count salt_time_stamp scratch].
    destruct ((SALT_MAX_USE_COUNT <? _) || _) eqn:E.
    + exists (MNext (cur v) (hex_encode (rng_salt d)) cmd),
        {| cur := hex_encode (rng_salt d); seen := 1; born := now_stamp d |}.
      cbn. rewrite Hs, bool_decide_true by done. split; [by app_norm|].
      repeat split; try done; apply Hhex.
    + apply orb_false_iff in E as [Hu%Z.ltb_ge Ha%Z.ltb_ge].
      unfold saturating_sub in Ha.
      exists (MSalt (salt st) cmd), {| cur := salt st; seen := seen v + 1; born := born v |}.
      cbn. rewrite bool_decide_true by done.
      rewrite (proj2 (Z.leb_le (seen v) _)) by lia.
      rewrite (proj2 (Z.leb_le (now_check d - born v) _)) by lia. rewrite Hs in Hne |- *.
      rewrite Hne. cbn. split; [by app_norm|]. repeat split; try done; try apply Hsalt; cbn; lia.
  - cbn [set_scratch salt]. rewrite Hsync. cbn.
    exists (MSalt (hex_encode (rng_salt d)) cmd),
      {| cur := hex_encode (rng_salt d); seen := 1; born := now_stamp d |}.
    cbn. rewrite Hsync. cbn. split; [by app_norm|]. repeat split; try done; apply Hhex.
Qed.

Lemma hex_not_slash s : Forall (λ b, is_hex_lower b = true) s → slash ∉ s.
Proof using.
  intros Hs Hin. rewrite Forall_forall in Hs. specialize (Hs _ Hin). done.
Qed.

Lemma last_app_ne {T} (s t : list T) c : t ≠ [] → last t ≠ Some c → last (s ++ t) ≠ Some c.
Proof using. intros Ht. rewrite last_app. by destruct (last t) eqn:E; [|apply last_None in E]. Qed.
End salts.

(** A message whose salts are salts reads back as its command. *)
Definition wf_msg (m : message) : Prop :=
  match m with MSalt s _ => is_salt s | MNext p n _ => is_salt p ∧ is_salt n end.
Definition is_command (cmd : bytes) : Prop := utf8_valid cmd = true ∧ last cmd ≠ Some nul.

Lemma trim_msg m : last (msg_cmd m) ≠ Some nul → trim_end_matches nul (msg_text m) = msg_text m.
Proof.
  intros Hc. apply trim_end_matches_id.
  assert (last (slash :: msg_cmd m) ≠ Some nul) as Hl.
  { destruct (msg_cmd m); [done|exact Hc]. }
  destruct m; cbn [msg_text msg_cmd] in *; rewrite !app_assoc, <- (app_assoc _ [slash]);
    by apply last_app_ne.
Qed.

Lemma strip_msg m : wf_msg m → last (msg_cmd m) ≠ Some nul →
  strip_salt_prefix (msg_text m) = msg_cmd m.
Proof.
  intros Hw Hc. unfold strip_salt_prefix. rewrite trim_msg by done.
  destruct m as [s c|p n c]; cbn [msg_text msg_cmd wf_msg] in *.
  - change (strip_prefix (bs "nextSalt/") (bs "salt/" ++ s ++ [slash] ++ c)) with (@None bytes).
    cbn iota. rewrite strip_prefix_app. cbn [app].
    by rewrite split_once_app by apply hex_not_slash, Hw.
  - rewrite strip_prefix_app. cbn [app].
    rewrite split_once_app by apply hex_not_slash, Hw.
    by rewrite split_once_app by apply hex_not_slash, Hw.
Qed.

Lemma is_salt_utf8 s : is_salt s → utf8_valid s = true.
Proof.
  intros [_ Hs]. apply utf8_valid_ascii. eapply Forall_impl; [exact Hs|].
  intros b. by destruct b.
Qed.

Lemma msg_utf8 m : wf_msg m → utf8_valid (msg_cmd m) = true → utf8_valid (msg_text m) = true.
Proof.
  intros Hw Hc. destruct m as [s c|p n c]; cbn [msg_text msg_cmd wf_msg] in *.
  - rewrite utf8_valid_app by done. rewrite utf8_valid_app by by apply is_salt_utf8.
    by rewrite utf8_valid_app.
  - destruct Hw. rewrite utf8_valid_app by done. rewrite utf8_valid_app by by apply is_salt_utf8.
    rewrite utf8_valid_app by done. rewrite utf8_valid_app by by apply is_salt_utf8.
    by rewrite utf8_valid_app.
Qed.

Lemma accept_wf sv d m v st' :
  in_sync st' (Some v) → server_accept sv d m = Some v →
  (∀ v0, sv = Some v0 → is_salt (cur v0)) → wf_msg m.
Proof.
  intros (_ & Hs & _) Ha Hv. destruct sv as [v0|], m as [s c|p n c]; simpl in *; try done.
  - destruct (_ && _) eqn:E; [|done]. by simplify_eq/=.
  - destruct (bool_decide (p = cur v0)) eqn:E; [|done]. apply bool_decide_eq_true in E as ->.
    simplify_eq/=. split; [by apply Hv|done].
  - by simplify_eq/=.
Qed.

(** ** Encryption *)

Lemma resize0_grow v n : zlen v <= n → resize0 v n = v ++ replicate (Z.to_nat (n - zlen v)) nul.
Proof.
  unfold resize0, zlen. intros Hn. rewrite take_ge by lia. do 2 f_equal. lia.
Qed.

Lemma next_multiple_bounds n : 0 <= n →
  n <= next_multiple_of n 16 ∧ next_multiple_of n 16 mod 16 = 0
  ∧ next_multiple_of n 16 - n = (16 - n mod 16) mod 16.
Proof.
  intros Hn. unfold next_multiple_of. rewrite Z.mod_mul by lia.
  repeat split; Z.to_euclidean_division_equations; lia.
Qed.

Lemma is_b64_ascii b : is_b64 b = true → is_ascii b = true.
Proof. destruct b; vm_compute; congruence. Qed.

Section encryption.
Context {U : Utf8Text} {A : AesCbc} {B : Base64} {X : Hex} {P : PercentDecode}.
Context {AL : AesCbcLaws} {BL : Base64Laws} {XL : HexLaws} {PL : PercentDecodeLaws}.

(** [SessionKeys] values are only built by [from_key_iv]. *)
Definition wf_keys (k : SessionKeys) : Prop := sk_cipher k = cipher_new (sk_key k).

(** The pipeline that allocates at every stage and uses the general encoder. *)
Definition reference_encrypt (k : SessionKeys) (plaintext : bytes) : Result bytes :=
  encrypted ← aes_encrypt_zerobyte (sk_key k) (sk_iv k) plaintext;
  Ok (CMD_ENCRYPT ++ general_encode (b64_encode encrypted)).

Lemma b64_utf8 l : utf8_valid (b64_encode l) = true.
Proof using BL.
  apply utf8_valid_ascii. eapply Forall_impl; [apply b64_encode_alphabet|apply is_b64_ascii].
Qed.

Lemma encrypt_spec d k cmd st :
  wf_keys k →
  let st' := fill_salted_plaintext d cmd st in
  ∃ c, aes_encrypt_zerobyte (sk_key k) (sk_iv k) (scratch st') = Ok c
       ∧ aes_decrypt_zerobyte (sk_key k) (sk_iv k) c = Ok (trim_end_matches nul (scratch st'))
       ∧ encrypt d k cmd st
         = ({| salt := salt st'; salt_used_count := salt_used_count st';
               salt_time_stamp := salt_time_stamp st'; scratch := c; encoded := b64_encode c |},
            Ok (CMD_ENCRYPT ++ concat (map escaped (b64_encode c)))).
Proof using AL BL.
  intros Hk st'. unfold encrypt. fold st'. set (n := zlen (scratch st')).
  destruct (next_multiple_bounds n) as (Hle & Hmod & Hpad); [apply zlen_nonneg|].
  unfold AES_BLOCK_SIZE. set (padded := next_multiple_of n 16) in *.
  cbn [set_scratch scratch]. rewrite resize0_grow by done. fold n. rewrite Hpad.
  unfold aes_encrypt_zerobyte. fold n.
  set (data := scratch st' ++ replicate _ nul).
  assert (zlen data = padded) as Hdata.
  { unfold data. rewrite zlen_app. unfold zlen at 2. rewrite length_replicate. fold n.
    pose proof (Z.mod_pos_bound (16 - n mod 16) 16 eq_refl). lia. }
  destruct (cbc_roundtrip (sk_key k) (sk_iv k) data) as (c & Hc & Hlen & Hdec);
    [by rewrite Hdata|].
  rewrite Hk, cbc_encrypt_with_new, Hc. exists c. split; [done|]. split.
  { unfold aes_decrypt_zerobyte. rewrite Hlen, Hdata, Hmod. simpl. rewrite Hdec. simpl.
    unfold data. by rewrite trim_end_matches_pad. }
  assert (div_ceil padded 3 * 4 = zlen (b64_encode c)) as ->.
  { rewrite b64_encode_length, Hlen, Hdata. unfold div_ceil. do 2 f_equal. lia. }
  cbn [set_scratch set_encoded scratch encoded]. rewrite b64_encode_slice_spec, Z.leb_refl.
  cbn [set_scratch set_encoded salt salt_used_count salt_time_stamp scratch encoded].
  assert (length (resize0 (encoded st') (zlen (b64_encode c))) = length (b64_encode c)) as Hr.
  { unfold resize0, zlen. rewrite length_app, length_take, length_replicate. lia. }
  rewrite (drop_ge (resize0 _ _)) by lia. rewrite app_nil_r.
  rewrite take_ge by (unfold zlen; lia). rewrite b64_utf8. by rewrite percent_encode_spec.
Qed.

(** [C39] The allocation-saving [encrypt] gives the same bytes as the reference
    pipeline applied to the salted plaintext, whatever the reused scratch
    buffers held before, advances the salt state in the same way, and does not
    fail. *)
Theorem encrypt_matches_reference d k cmd st :
  wf_keys k →
  (encrypt d k cmd st).2 = reference_encrypt k (salted_plaintext d cmd st).2
  ∧ (∃ wire, (encrypt d k cmd st).2 = Ok wire)
  ∧ salt (encrypt d k cmd st).1 = salt (salted_plaintext d cmd st).1
  ∧ salt_used_count (encrypt d k cmd st).1 = salt_used_count (salted_plaintext d cmd st).1
  ∧ salt_time_stamp (encrypt d k cmd st).1 = salt_time_stamp (salted_plaintext d cmd st).1.
Proof using AL BL.
  intros Hk. destruct (encrypt_spec d k cmd st Hk) as (c & Hc & _ & ->).
  unfold reference_encrypt, salted_plaintext. cbn [fst snd]. rewrite Hc.
  cbn [mbind result_bind salt salt_used_count salt_time_stamp].
  split; [|by eauto]. do 2 f_equal. unfold general_encode. f_equal.
  pose proof (b64_encode_alphabet c) as Hb.
  induction Hb as [|b s Hb _ IH]; [done|]. cbn [map]. by rewrite escaped_general, IH.
Qed.

Lemma escaped_text_no_slash s : slash ∉ concat (map escaped s).
Proof using.
  induction s as [|b s IH]; cbn [map concat]; [apply not_elem_of_nil|].
  apply not_elem_of_app. split; [apply escaped_no_slash|done].
Qed.

(** The wire text decrypts to what was encrypted, also behind other text. *)
Lemma decrypt_wire k pre c plain :
  aes_decrypt_zerobyte (sk_key k) (sk_iv k) c = Ok plain → utf8_valid plain = true →
  decrypt_control_response k (pre ++ CMD_ENCRYPT ++ concat (map escaped (b64_encode c)))
  = Ok plain.
Proof using BL PL.
  intros Hp Hu. unfold decrypt_control_response, rsplit_next.
  change CMD_ENCRYPT with (bs "jdev/sys/enc" ++ [slash]).
  rewrite after_last_app by apply escaped_text_no_slash. cbn [default from_option].
  unfold from_utf8. change (id ?x) with x.
  rewrite percent_decode_escaped by apply b64_encode_alphabet.
  rewrite b64_utf8. simpl. rewrite b64_decode_encode. simpl. rewrite Hp. simpl. by rewrite Hu.
Qed.

(** The commands of one connection, encrypted one after the other. *)
Fixpoint encrypt_all (k : SessionKeys) (cmds : list (Draw * bytes)) (st : SaltState) :
    list (Result bytes) :=
  match cmds with
  | [] => []
  | (d, cmd) :: cmds => let '(st, r) := encrypt d k cmd st in r :: encrypt_all k cmds st
  end.

(** The Miniserver's side: decrypt, check the salt, take the command. *)
Inductive served (k : SessionKeys) : option Server → list Draw → list bytes → list bytes → Prop :=
| served_nil sv : served k sv [] [] []
| served_cons sv d ds wire wires m v cmds :
    decrypt_control_response k wire = Ok (msg_text m) →
    strip_salt_prefix (msg_text m) = msg_cmd m →
    server_accept sv d m = Some v →
    served k (Some v) ds wires cmds →
    served k sv (d :: ds) (wire :: wires) (msg_cmd m :: cmds).

Lemma encrypt_all_served k cmds st sv :
  wf_keys k → in_sync st sv →
  Forall (λ dc, zlen (rng_salt dc.1) = SALT_BYTES ∧ is_command dc.2) cmds →
  ∃ wires, encrypt_all k cmds st = map Ok wires
           ∧ served k sv (map fst cmds) wires (map snd cmds).
Proof using AL BL XL PL.
  intros Hk Hsync Hc. revert st sv Hsync.
  induction Hc as [|[d cmd] cmds [Hd [Hu Hn]] _ IH]; intros st sv Hsync;
    [exists []; split; [done|constructor]|].
  cbn [fst snd] in *. destruct (fill_in_sync d cmd st sv Hd Hsync) as (m & v & Hm & Hmc & Ha & Hs').
  destruct (encrypt_spec d k cmd st Hk) as (c & _ & Hdec & He).
  assert (wf_msg m) as Hw.
  { eapply accept_wf; [exact Hs'|exact Ha|]. intros v0 ->. apply Hsync. }
  cbn [encrypt_all]. rewrite He.
  match goal with |- context [encrypt_all k cmds ?s] =>
    destruct (IH s (Some v)) as (wires & -> & Hserved); [exact Hs'|] end.
  eexists (_ :: wires). split; [done|]. cbn [map fst snd]. rewrite <- Hmc in Hu, Hn |- *.
  eapply served_cons; [|by apply strip_msg|exact Ha|exact Hserved].
  apply (decrypt_wire k [] c); [|by apply msg_utf8].
  rewrite Hdec, Hm, (trim_end_matches_pad nul _ 1). by rewrite trim_msg.
Qed.

Lemma map_ok_inj (l k : list bytes) : map (Ok (E := Error)) l = map Ok k → l = k.
Proof using.
  revert k. induction l as [|x l IH]; intros [|y k] E; simplify_eq/=; [done|]. f_equal. by apply IH.
Qed.

(** The same, for texts already known to be the encryption. *)
Lemma encrypted_served k cmds st sv wires :
  wf_keys k → in_sync st sv →
  Forall (λ d, zlen (rng_salt d) = SALT_BYTES) (map fst cmds) → Forall is_command (map snd cmds) →
  encrypt_all k cmds st = map Ok wires → served k sv (map fst cmds) wires (map snd cmds).
Proof using AL BL XL PL.
  intros Hk Hsync Hds Hcmds E. destruct (encrypt_all_served k cmds st sv) as (wires' & E' & Hs); [done|done| |].
  - rewrite Forall_map in Hds. rewrite Forall_map in Hcmds. by apply Forall_and.
  - rewrite E in E'. by apply map_ok_inj in E' as ->.
Qed.

(** [C13] End to end, for any sequence of commands sent on one connection from a
    reset salt state: every command is encrypted without error; decrypting the
    wire text gives back the salted command; a server that accepts a salt for at
    most 31 commands and one hour, and a [nextSalt] only from the current salt,
    accepts every message; and stripping the salt prefix yields the commands in
    the order they were sent. *)
Theorem encrypted_session_served k cmds st :
  wf_keys k →
  Forall (λ dc, zlen (rng_salt dc.1) = SALT_BYTES ∧ is_command dc.2) cmds →
  ∃ wires, encrypt_all k cmds (reset st) = map Ok wires
           ∧ served k None (map fst cmds) wires (map snd cmds).
Proof using AL BL XL PL. intros Hk Hc. by apply encrypt_all_served. Qed.
End encryption.

(** ** Concrete runs *)
#[local] Instance utf8_text_model : Utf8Text := {| utf8_error _ := bs "invalid utf-8" |}.

Definition sample_keys : @SessionKeys aes_model :=
  @from_key_iv aes_model (replicate 32 Byte.x01) (replicate 16 Byte.x02).
Definition sample_draw (n : Z) : Draw :=
  {| rng_salt := replicate 16 (byte_of n); now_check := 1000 + n; now_stamp := 1000 + n |}.

Lemma encrypt_matches_reference_witness :
  (@encrypt aes_model base64_model hex_model (sample_draw 1) sample_keys (bs "jdev/x") salt_default).2
  = @reference_encrypt aes_model base64_model sample_keys
      (@salted_plaintext hex_model (sample_draw 1) (bs "jdev/x") salt_default).2.
Proof.
  apply (@encrypt_matches_reference aes_model base64_model hex_model
           aes_model_laws base64_model_laws (sample_draw 1) sample_keys). reflexivity.
Defined.

(** Forty commands: the salt is replaced after the thirty-first. *)
Definition sample_cmds : list (Draw * bytes) :=
  map (λ n, (sample_draw (Z.of_nat n), bs "jdev/sps/io/x/on")) (seq 0 40).

Lemma encrypted_session_served_witness :
  ∃ wires,
    @encrypt_all aes_model base64_model hex_model sample_keys sample_cmds (reset salt_default)
      = map Ok wires
    ∧ @served utf8_text_model aes_model base64_model percent_model sample_keys None
        (map fst sample_cmds) wires (map snd sample_cmds).
Proof.
  apply (@encrypted_session_served utf8_text_model aes_model base64_model hex_model percent_model
           aes_model_laws base64_model_laws hex_model_laws percent_model_laws
           sample_keys sample_cmds salt_default); [reflexivity|].
  apply Forall_map, Forall_forall. intros n _. repeat split. discriminate.
Defined.
