(* ===== verification/Crypto.v ===== *)
(** * crypto/hash.rs and crypto/rsa_key.rs: credential hashes and the session-key wrap *)

From S2P Require Import Prelude RustStr External Models Errors Session.

(** ** hash.rs *)

Inductive HashAlg := Sha1 | Sha256.

#[export] Instance HashAlg_eq_dec : EqDecision HashAlg.
Proof. solve_decision. Defined.

Definition hash_alg_parse (s : bytes) : Result HashAlg :=
  if bool_decide (s = bs "SHA1") then Ok Sha1
  else if bool_decide (s = bs "SHA256") then Ok Sha256
  else Err (Crypto (bs "unrecognised hash algorithm: " ++ s)).

Definition hash_alg_as_str (a : HashAlg) : bytes :=
  match a with Sha1 => bs "SHA1" | Sha256 => bs "SHA256" end.

Lemma hash_alg_roundtrip a : hash_alg_parse (hash_alg_as_str a) = Ok a.
Proof. by destruct a. Qed.

Lemma hash_alg_parse_Ok s a : hash_alg_parse s = Ok a → s = hash_alg_as_str a.
Proof.
  unfold hash_alg_parse. repeat case_bool_decide; intros; by simplify_eq/=.
Qed.

Record KeySalt := { key_hex : bytes; ks_salt : bytes; hash_alg : HashAlg }.

Section hash.
Context {J : Json} {D : Digests} {X : Hex}.

Definition get_str (v : Value) (k : bytes) : option bytes := value_get v k ≫= as_str.

Definition from_ll_value (value : Value) : Result KeySalt :=
  key ← ok_or (get_str value (bs "key")) (Protocol (bs "missing key in key/salt response"));
  salt ← ok_or (get_str value (bs "salt")) (Protocol (bs "missing salt in key/salt response"));
  let alg := default (bs "SHA1") (get_str value (bs "hashAlg")) in
  a ← hash_alg_parse alg;
  Ok {| key_hex := key; ks_salt := salt; hash_alg := a |}.

Definition password_hash (alg : HashAlg) (password user_salt : bytes) : bytes :=
  let data := password ++ bs ":" ++ user_salt in
  match alg with
  | Sha1 => hex_encode_upper (sha1 data)
  | Sha256 => hex_encode_upper (sha256 data)
  end.

Definition hmac_hex (alg : HashAlg) (key data : bytes) : Result bytes :=
  match alg with
  | Sha1 => mac ← map_err Crypto (hmac_sha1 key data); Ok (hex_encode mac)
  | Sha256 => mac ← map_err Crypto (hmac_sha256 key data); Ok (hex_encode mac)
  end.

Definition hash_credentials (key_salt : KeySalt) (password username : bytes) : Result bytes :=
  let pw_hash := password_hash (hash_alg key_salt) password (ks_salt key_salt) in
  let user_pw := username ++ bs ":" ++ pw_hash in
  key ← map_err Crypto (hex_decode (key_hex key_salt));
  hmac_hex (hash_alg key_salt) key user_pw.

Definition hash_visu_password (key_salt : KeySalt) (visu_pw : bytes) : Result bytes :=
  let pw_hash := password_hash (hash_alg key_salt) visu_pw (ks_salt key_salt) in
  key ← map_err Crypto (hex_decode (key_hex key_salt));
  hmac_hex (hash_alg key_salt) key pw_hash.

Definition hash_token (alg : HashAlg) (key_hex token : bytes) : Result bytes :=
  key ← map_err Crypto (hex_decode key_hex);
  hmac_hex alg key token.
End hash.

(** ** rsa_key.rs

    [None] is a panic: the slice [s[start..b]] is out of order. *)

(** [s.replace(p, r)] for a non-empty pattern: non-overlapping, left to right. *)
Fixpoint replace_fuel (fuel : nat) (p r s : bytes) : bytes :=
  match fuel with
  | O => s
  | S fuel =>
      match s with
      | [] => []
      | b :: t =>
          match strip_prefix p s with
          | Some rest => r ++ replace_fuel fuel p r rest
          | None => b :: replace_fuel fuel p r t
          end
      end
  end.
Definition replace (p r s : bytes) : bytes := replace_fuel (S (length s)) p r s.

(** [chars().filter(|c| !c.is_whitespace())]: a white-space character is dropped
    whole; UTF-8 is self-synchronising, so its encoding starts at no other place. *)
Fixpoint drop_whitespace_fuel (fuel : nat) (s : bytes) : bytes :=
  match fuel with
  | O => []
  | S fuel =>
      match s with
      | [] => []
      | b :: t =>
          match strip_any white_space s with
          | Some rest => drop_whitespace_fuel fuel rest
          | None => b :: drop_whitespace_fuel fuel t
          end
      end
  end.
Definition drop_whitespace (s : bytes) : bytes := drop_whitespace_fuel (S (length s)) s.

Definition dash_char : byte := Byte.x2d.
Definition BEGIN : bytes := bs "-----BEGIN PUBLIC KEY-----".
Definition END : bytes := bs "-----END PUBLIC KEY-----".

(** [slice::chunks(n)]: the complete chunks, then what is left. *)
Definition chunks (n : nat) (s : bytes) : list bytes :=
  let '(full, rest) := as_chunks n s in
  match rest with [] => full | _ => full ++ [rest] end.

Definition pem_lines (body : bytes) : bytes :=
  concat (map (λ chunk, (if utf8_valid chunk then chunk else []) ++ [nl]) (chunks 64 body)).

Definition normalize_public_key_pem (pem : bytes) : option bytes :=
  let s := List.filter (λ b, negb (byteb b cr)) (trim pem) in
  let s := replace (bs "-----BEGIN CERTIFICATE-----") (bs "-----BEGIN PUBLIC KEY-----") s in
  let s := replace (bs "-----END CERTIFICATE-----") (bs "-----END PUBLIC KEY-----") s in
  body ← match find BEGIN s, find END s with
         | Some a, Some b =>
             let start := a + zlen BEGIN in
             drop_whitespace <$> get_range s start b
         | _, _ => Some (List.filter (λ c, negb (byteb c dash_char)) (drop_whitespace s))
         end;
  Some (BEGIN ++ [nl] ++ pem_lines body ++ END ++ [nl]).

Section rsa.
Context {R : Rsa} {B : Base64}.

Definition import_public_key (pem : bytes) : option (Result RsaPublicKey) :=
  normalized ← normalize_public_key_pem pem;
  Some (match from_public_key_pem normalized with
        | Ok key => Ok key
        | Err spki_err =>
            map_err (λ pkcs1_err, Crypto (bs "SPKI: " ++ spki_err ++ bs "; PKCS1: " ++ pkcs1_err))
              (from_pkcs1_pem normalized)
        end).

Definition wrap_session_key (rng public_key_pem session_payload : bytes) : option (Result bytes) :=
  imported ← import_public_key public_key_pem;
  Some (key ← imported;
        encrypted ← map_err (λ e, Crypto (bs "RSA encrypt failed: " ++ e))
                      (rsa_encrypt key rng session_payload);
        Ok (b64_encode encrypted)).
End rsa.

(** ** Facts *)

Definition relabel (pem : bytes) : bytes :=
  replace (bs "-----END CERTIFICATE-----") (bs "-----END PUBLIC KEY-----")
    (replace (bs "-----BEGIN CERTIFICATE-----") (bs "-----BEGIN PUBLIC KEY-----")
       (List.filter (λ b, negb (byteb b cr)) (trim pem))).

(** [C40] [normalize_public_key_pem] panics on exactly the keys, as relabelled,
    whose first END marker starts before the end of the first BEGIN marker. *)
Theorem normalize_panics_iff pem :
  normalize_public_key_pem pem = None ↔
  ∃ a b, find BEGIN (relabel pem) = Some a ∧ find END (relabel pem) = Some b
         ∧ b < a + zlen BEGIN.
Proof.
  unfold normalize_public_key_pem. fold (relabel pem). cbn zeta.
  destruct (find BEGIN (relabel pem)) as [a|] eqn:Ea;
    [destruct (find END (relabel pem)) as [b|] eqn:Eb|].
  - apply find_Some in Eb as (? & Hb & _). pose proof (zlen_nonneg END). unfold get_range.
    destruct (Z.leb_spec (a + zlen BEGIN) b).
    + rewrite (proj2 (Z.leb_le _ _)) by lia. split; [done|]. intros (? & ? & [= <-] & [= <-] & ?). lia.
    + split; [intros _; eauto|done].
  - split; [done|]. by intros (? & ? & _ & ? & _).
  - split; [done|]. by intros (? & ? & ? & _).
Qed.

(** The two markers sharing their dashes is enough. *)
Lemma normalize_panic_example :
  normalize_public_key_pem (bs "-----BEGIN PUBLIC KEY-----END PUBLIC KEY-----") = None.
Proof. reflexivity. Qed.
