(* ===== verification/Auth.v ===== *)
(** * auth/token.rs and auth/flow.rs: tokens, LL envelopes and the commands of the token flow *)

From S2P Require Import Prelude RustStr External Models Errors Session Crypto.

(** ** token.rs *)

Definition LOXONE_EPOCH : Z := 1230768000.

Record LxToken := { token : bytes; valid_until : Z; tok_hash_alg : HashAlg }.
Definition wf_token (t : LxToken) : Prop := fits_signed 64 (valid_until t).

Definition new_token (t : bytes) (v : Z) (a : HashAlg) : LxToken :=
  {| token := t; valid_until := v; tok_hash_alg := a |}.
(** [LxToken::default()] *)
Definition default_token : LxToken := new_token [] 0 Sha1.
Definition token_is_empty (t : LxToken) : bool := is_empty (token t).
Definition clear_token (t : LxToken) : LxToken :=
  {| token := []; valid_until := 0; tok_hash_alg := tok_hash_alg t |}.

(** [i64] addition: [None] is the panic of a build with overflow checks; a build
    without wraps around. *)
Definition add_i64 (checks : bool) (a b : Z) : option Z :=
  if (- 2 ^ 63 <=? a + b) && (a + b <? 2 ^ 63) then Some (a + b)
  else if checks then None else Some (wrap_signed 64 (a + b)).

Definition seconds_to_expire (checks : bool) (now : Z) (t : LxToken) : option Z :=
  expiry ← add_i64 checks LOXONE_EPOCH (valid_until t);
  add_i64 checks expiry (- now).

(** ** flow.rs *)

Definition DEFAULT_CLIENT_UUID : bytes := bs "edfc5f9a-df3f-4cad-9dddcdc42c732be2".
Definition DEFAULT_CLIENT_INFO : bytes := bs "loxinflux".
Definition CMD_GET_KEY_AND_SALT : bytes := bs "jdev/sys/getkey2/".
Definition CMD_REQUEST_TOKEN_JWT : bytes := bs "jdev/sys/getjwt/".
Definition CMD_GET_KEY : bytes := bs "jdev/sys/getkey".
Definition CMD_AUTH_WITH_TOKEN : bytes := bs "authwithtoken/".
Definition CMD_REFRESH_TOKEN_JWT : bytes := bs "jdev/sys/refreshjwt/".
Definition CMD_CHECK_TOKEN : bytes := bs "jdev/sys/checktoken/".
Definition CMD_KILL_TOKEN : bytes := bs "jdev/sys/killtoken/".
Definition CMD_GET_VISUAL_PASSWD : bytes := bs "jdev/sys/getvisusalt/".
Definition CMD_KEY_EXCHANGE : bytes := bs "jdev/sys/keyexchange/".
Definition CMD_ENABLE_UPDATES : bytes := bs "jdev/sps/enablebinstatusupdate".

Inductive TokenPermission := Web | App.
Definition permission_id (p : TokenPermission) : Z := match p with Web => 2 | App => 4 end.

(** The codes [match]ed on are string literals. *)
Definition codeb (code : bytes) (lit : bytes) : bool := bool_decide (code = lit).

Definition ll_status_hint (code : bytes) : bytes :=
  if codeb code (bs "400") then bs " (bad request — command must be encrypted)"
  else if codeb code (bs "401")
  then bs " (credentials or token rejected, or the request failed to decrypt)"
  else if codeb code (bs "403") then bs " (the requesting user lacks the rights for this request)"
  else if codeb code (bs "404") then bs " (unrecognized command)"
  else if codeb code (bs "420") then bs " (authentication timed out)"
  else if codeb code (bs "423") then bs " (the requesting user is disabled)"
  else if codeb code (bs "500") then bs " (Miniserver internal error)"
  else if codeb code (bs "503") then bs " (Miniserver is restarting and not ready for requests)"
  else if codeb code (bs "901") then bs " (maximum number of concurrent connections reached)"
  else [].

Definition ll_status_invalidates_token (code : bytes) : bool :=
  negb (codeb code (bs "200") || codeb code (bs "423") || codeb code (bs "500")
        || codeb code (bs "503") || codeb code (bs "901")).

Definition ll_status_error (code : bytes) : Error :=
  if codeb code (bs "423") then UserDisabled
  else if codeb code (bs "901") then TooManyConnections
  else Auth (bs "LL status " ++ code ++ ll_status_hint code).

(** Command builders *)
Definition cmd_getkey2 (username : bytes) : bytes := CMD_GET_KEY_AND_SALT ++ username.
Definition cmd_request_token (cred_hash username : bytes) (permission : TokenPermission)
    (client_uuid client_info : bytes) : bytes :=
  CMD_REQUEST_TOKEN_JWT ++ cred_hash ++ [slash] ++ username ++ [slash]
  ++ display_Z (permission_id permission) ++ [slash] ++ client_uuid ++ [slash] ++ client_info.
Definition cmd_auth_with_token (token_hash username : bytes) : bytes :=
  CMD_AUTH_WITH_TOKEN ++ token_hash ++ [slash] ++ username.
Definition cmd_refresh_token (token_hash username : bytes) : bytes :=
  CMD_REFRESH_TOKEN_JWT ++ token_hash ++ [slash] ++ username.
Definition cmd_check_token (token_hash username : bytes) : bytes :=
  CMD_CHECK_TOKEN ++ token_hash ++ [slash] ++ username.
Definition cmd_kill_token (token_hash username : bytes) : bytes :=
  CMD_KILL_TOKEN ++ token_hash ++ [slash] ++ username.
Definition cmd_get_visu_salt (username : bytes) : bytes := CMD_GET_VISUAL_PASSWD ++ username.

Section flow.
Context {J : Json} {D : Digests} {X : Hex}.

Definition ll_status_code (ll : Value) : option bytes :=
  opt_or (get_str ll (bs "Code")) (get_str ll (bs "code")).

Definition parse_json (payload : bytes) : Result Value := map_err JsonError (from_slice payload).

Definition require_ll_ok (root : Value) : Result Value :=
  ll ← ok_or (value_get root (bs "LL")) (Protocol (bs "missing LL in response"));
  let code := default [] (ll_status_code ll) in
  if negb (codeb code (bs "200")) then Err (ll_status_error code) else Ok ll.

Definition payload_ll_status (payload : bytes) : option bytes :=
  root ← res_ok (parse_json payload);
  ll ← value_get root (bs "LL");
  ll_status_code ll.

Definition parse_key_salt (payload : bytes) : Result KeySalt :=
  root ← parse_json payload;
  ll ← require_ll_ok root;
  value ← ok_or (value_get ll (bs "value")) (Protocol (bs "missing LL.value"));
  from_ll_value value.

Definition read_valid_until (value : Value) : Result Z :=
  ok_or
    (v ← value_get value (bs "validUntil");
     opt_or (as_i64 v)
       (opt_or (wrap_signed 64 <$> as_u64 v) (s ← as_str v; parse_i64 s)))
    (Auth (bs "missing validUntil")).

Definition parse_token_response (payload : bytes) (alg : HashAlg) : Result LxToken :=
  root ← parse_json payload;
  ll ← require_ll_ok root;
  value ← ok_or (value_get ll (bs "value")) (Protocol (bs "missing LL.value in token response"));
  until ← read_valid_until value;
  let tok := default [] (get_str value (bs "token")) in
  Ok (new_token tok until alg).

(** The token after the call, and its result. *)
Definition apply_valid_until (t : LxToken) (payload : bytes) : LxToken * Result unit :=
  match (root ← parse_json payload;
         ll ← require_ll_ok root;
         value ← ok_or (value_get ll (bs "value")) (Protocol (bs "missing LL.value"));
         until ← read_valid_until value;
         Ok (value, until)) with
  | Err e => (t, Err e)
  | Ok (value, until) =>
      let t := {| token := token t; valid_until := until; tok_hash_alg := tok_hash_alg t |} in
      match get_str value (bs "token") with
      | Some new_tok =>
          (if is_empty new_tok then t
           else {| token := new_tok; valid_until := until; tok_hash_alg := tok_hash_alg t |},
           Ok tt)
      | None => (t, Ok tt)
      end
  end.

Definition parse_getkey_value (payload : bytes) : Result bytes :=
  root ← parse_json payload;
  ll ← require_ll_ok root;
  ok_or (get_str ll (bs "value")) (Protocol (bs "missing getkey value")).

Definition build_acquire_token_cmd (getkey2_payload username password : bytes)
    (permission : TokenPermission) (client_uuid client_info : bytes) : Result (bytes * HashAlg) :=
  ks ← parse_key_salt getkey2_payload;
  cred ← hash_credentials ks password username;
  let cmd := cmd_request_token cred username permission client_uuid client_info in
  Ok (cmd, hash_alg ks).

Definition build_token_hash (getkey_payload : bytes) (t : LxToken) : Result bytes :=
  key ← parse_getkey_value getkey_payload;
  hash_token (tok_hash_alg t) key (token t).
End flow.

(** ** Facts *)

Lemma codeb_true c l : codeb c l = true ↔ c = l.
Proof. unfold codeb. by rewrite bool_decide_eq_true. Qed.

Ltac codes := unfold codeb in *; repeat (case_bool_decide; subst); try done.

(** The three readings of an LL status agree. A refusal that costs the token
    is an ordinary authentication failure, which the supervisor retries with
    fresh credentials; only 423 is terminal and only 901 earns the long backoff;
    the codes that keep the token are exactly 200, 423, 500, 503 and 901. *)
Lemma ll_status_policy code :
  (ll_status_invalidates_token code = true →
     verdict (ll_status_error code) = (false, false))
  ∧ (is_terminal (ll_status_error code) = true ↔ code = bs "423")
  ∧ (needs_long_backoff (ll_status_error code) = true ↔ code = bs "901")
  ∧ (ll_status_invalidates_token code = false ↔
     code ∈ [bs "200"; bs "423"; bs "500"; bs "503"; bs "901"]).
Proof.
  unfold ll_status_invalidates_token, ll_status_error. rewrite !elem_of_cons, elem_of_nil.
  repeat split; codes; intros; intuition congruence.
Qed.

Section facts.
Context {J : Json} {JL : JsonLaws}.

Lemma wrap_signed_range z : fits_signed 64 (wrap_signed 64 z).
Proof using.
  unfold fits_signed, wrap_signed, to_signed, wrap.
  pose proof (Z.mod_pos_bound z (2 ^ 64) eq_refl). zbool; lia.
Qed.

Lemma parse_i64_range s z : parse_i64 s = Some z → fits_signed 64 z.
Proof using.
  unfold parse_i64, in_range.
  match goal with |- match ?o with _ => _ end = _ → _ => destruct o as [y|]; [|done] end.
  destruct ((_ <=? y) && _) eqn:E; [|done]. intros [= <-].
  apply andb_true_iff in E as [?%Z.leb_le ?%Z.leb_le]. unfold fits_signed. lia.
Qed.

Lemma read_valid_until_range value z :
  read_valid_until value = Ok z → fits_signed 64 z.
Proof using JL.
  unfold read_valid_until. destruct (value_get value _) as [v|]; [|done]. simpl.
  destruct (as_i64 v) as [i|] eqn:Ei; simpl.
  { intros [= <-]. by eapply as_i64_range. }
  destruct (as_u64 v) as [u|]; simpl; [intros [= <-]; apply wrap_signed_range|].
  destruct (as_str v) as [s|]; [|done]. simpl. destruct (parse_i64 s) eqn:E; [|done].
  intros [= <-]. by eapply parse_i64_range.
Qed.

(** A refresh or authentication answer is applied all or nothing: a failed
    one leaves the token as it was; an accepted one replaces the expiry by an
    [i64], keeps the hash algorithm, and never replaces the token by an empty
    one. *)
Lemma apply_valid_until_atomic t payload :
  wf_token t →
  let '(t', r) := apply_valid_until t payload in
  wf_token t' ∧ tok_hash_alg t' = tok_hash_alg t
  ∧ match r with
    | Err _ => t' = t
    | Ok _ => token t' = token t ∨ token t' ≠ []
    end.
Proof using JL.
  intros Ht. unfold apply_valid_until.
  destruct (parse_json payload) as [root|]; [simpl|done].
  destruct (require_ll_ok root) as [ll|]; [simpl|done].
  destruct (value_get ll (bs "value")) as [value|]; [simpl|done].
  destruct (read_valid_until value) as [z|] eqn:Ez; [simpl|done].
  apply read_valid_until_range in Ez.
  destruct (get_str value (bs "token")) as [[|b s]|]; simpl; auto.
Qed.
End facts.

(** An answer with a new expiry and token. *)
Definition refresh_answer : bytes := Eval vm_compute in
  json_text (bs "{'LL':{'code':'200','value':{'token':'eyJ','validUntil':500000000}}}").

Lemma apply_valid_until_atomic_witness :
  let t := new_token (bs "old") 7 Sha256 in
  @apply_valid_until json_model t refresh_answer
    = (new_token (bs "eyJ") 500000000 Sha256, Ok tt)
  ∧ wf_token (@apply_valid_until json_model t refresh_answer).1.
Proof.
  intros t. split; [vm_compute; reflexivity|].
  pose proof (@apply_valid_until_atomic json_model json_model_laws t refresh_answer) as H.
  destruct (@apply_valid_until json_model t refresh_answer) as [t' r].
  apply H. split; vm_compute; congruence.
Defined.

Lemma wrap_twice z : fits_signed 64 z → ∀ a b, z = a + b → wrap_signed 64 (wrap_signed 64 a + b) = z.
Proof.
  intros Hz a b ->. rewrite <- (wrap_signed_id 64 (a + b)) by (lia || done).
  unfold wrap_signed at 1 3. f_equal. unfold wrap_signed, to_signed, wrap.
  zbool; [by rewrite Z.add_mod_idemp_l by lia|].
  replace (a mod 2 ^ 64 - 2 ^ 64 + b) with (a mod 2 ^ 64 + b + (-1) * 2 ^ 64) by lia.
  by rewrite Z.mod_add, Z.add_mod_idemp_l by lia.
Qed.

(** The remaining lifetime is computed in two 64-bit steps. Without overflow
    checks the result is exact for every expiry the Miniserver can send, because
    a wrap of the first step is undone by the second; with overflow checks it is
    exact as long as the expiry fits in 64 bits and panics beyond. *)
Lemma seconds_to_expire_exact t now :
  wf_token t → LOXONE_EPOCH <= now < 2 ^ 62 → - 2 ^ 62 <= valid_until t →
  let left := LOXONE_EPOCH + valid_until t - now in
  seconds_to_expire false now t = Some left
  ∧ seconds_to_expire true now t
    = if LOXONE_EPOCH + valid_until t <? 2 ^ 63 then Some left else None.
Proof.
  intros Ht Hnow Hv left. unfold wf_token, fits_signed in Ht.
  assert (fits_signed 64 left) as Hl by (unfold fits_signed, left, LOXONE_EPOCH in *; lia).
  unfold seconds_to_expire, add_i64.
  rewrite (proj2 (Z.leb_le (- 2 ^ 63) (LOXONE_EPOCH + valid_until t)))
    by (unfold LOXONE_EPOCH; lia). cbn [andb].
  destruct (Z.ltb_spec (LOXONE_EPOCH + valid_until t) (2 ^ 63)); simpl.
  - unfold LOXONE_EPOCH in *. zbool. simpl. unfold left.
    split; f_equal; lia.
  - split; [|done]. destruct (_ && _) eqn:E.
    + apply andb_true_iff in E as [?%Z.leb_le ?%Z.ltb_lt]. f_equal.
      rewrite <- (wrap_twice left Hl (LOXONE_EPOCH + valid_until t) (- now))
        by (unfold left, LOXONE_EPOCH; lia).
      symmetry. apply wrap_signed_id; [lia|]. unfold fits_signed. lia.
    + f_equal. apply (wrap_twice left Hl). unfold left, LOXONE_EPOCH. lia.
Qed.

Lemma seconds_to_expire_exact_witness :
  let t := new_token (bs "t") (2 ^ 63 - 1) Sha1 in
  seconds_to_expire true 1800000000 t = None
  ∧ seconds_to_expire false 1800000000 t = Some (LOXONE_EPOCH + (2 ^ 63 - 1) - 1800000000).
Proof.
  intros t.
  destruct (seconds_to_expire_exact t 1800000000) as [H1 H2];
    [done|done|done|].
  split; [exact H2|exact H1].
Defined.
