(* ===== verification/Store.v ===== *)
(** * auth/store.rs: the token file

    The file system is a map from paths to files. What can go wrong with each
    system call is an input; [write_record] returns every state of the file
    system it passes through, so that a crash at any point can be discussed.
    That making the directory can fail is an input here as well; [Dirs] computes
    it. The effects of logging are not tracked. *)

From S2P Require Import Prelude RustStr External Models Errors Session Crypto Auth.

Record File := { data : bytes; mode : Z }.
Abbreviation FS := (@gmap (list Byte.byte) list_eq_dec list_countable File).

(** ** The binding *)

Definition equals_sign : byte := Byte.x3d.

Section binding.
Context {D : Digests} {X : Hex}.

(** What the hasher is fed, part by part. *)
Definition binding_part (part : bytes) : bytes := le_bytes 8 (zlen part) ++ part.
Definition binding_preimage (loxone_url username client_uuid : bytes) : bytes :=
  concat (map binding_part [loxone_url; username; client_uuid]).
Definition token_binding (loxone_url username client_uuid : bytes) : bytes :=
  hex_encode (sha256 (binding_preimage loxone_url username client_uuid)).
End binding.

(** ** The record format *)

Definition TOKEN_MAGIC : bytes := bs "loxwebsocket-token 1".

Record Fields := {
  f_binding : option bytes;
  f_token : option bytes;
  f_valid_until : option Z;
  f_hash_alg : option HashAlg;
}.
Definition no_fields : Fields :=
  {| f_binding := None; f_token := None; f_valid_until := None; f_hash_alg := None |}.

Definition is_none {A} (o : option A) : bool := match o with None => true | Some _ => false end.

(** The body of the [for line in lines] loop. *)
Definition read_line (f : Fields) (line : bytes) : Fields :=
  match split_once equals_sign line with
  | None => f
  | Some (key, value) =>
      if bool_decide (key = bs "binding") && is_none (f_binding f) then
        {| f_binding := Some value; f_token := f_token f;
           f_valid_until := f_valid_until f; f_hash_alg := f_hash_alg f |}
      else if bool_decide (key = bs "token") && is_none (f_token f) then
        {| f_binding := f_binding f; f_token := Some value;
           f_valid_until := f_valid_until f; f_hash_alg := f_hash_alg f |}
      else if bool_decide (key = bs "valid_until") && is_none (f_valid_until f) then
        {| f_binding := f_binding f; f_token := f_token f;
           f_valid_until := parse_i64 value; f_hash_alg := f_hash_alg f |}
      else if bool_decide (key = bs "hash_alg") && is_none (f_hash_alg f) then
        {| f_binding := f_binding f; f_token := f_token f;
           f_valid_until := f_valid_until f; f_hash_alg := res_ok (hash_alg_parse value) |}
      else f
  end.

Definition parse_record (raw : bytes) : option (bytes * LxToken) :=
  match lines raw with
  | first :: rest =>
      if bool_decide (first = TOKEN_MAGIC) then
        let f := fold_left read_line rest no_fields in
        match f_binding f, f_token f, f_valid_until f, f_hash_alg f with
        | Some b, Some t, Some v, Some a =>
            if is_empty t then None else Some (b, new_token t v a)
        | _, _, _, _ => None
        end
      else None
  | [] => None
  end.

(** [read_ok] is false when the file is there but cannot be read. *)
Definition read_record (read_ok : bool) (path : bytes) (fs : FS) : option (bytes * LxToken) :=
  match fs !! path with
  | None => None
  | Some f => if read_ok && utf8_valid (data f) then parse_record (data f) else None
  end.

Definition record_text (binding : bytes) (t : LxToken) : bytes :=
  TOKEN_MAGIC ++ [nl] ++ bs "binding=" ++ binding ++ [nl]
  ++ bs "hash_alg=" ++ hash_alg_as_str (tok_hash_alg t) ++ [nl]
  ++ bs "valid_until=" ++ display_Z (valid_until t) ++ [nl]
  ++ bs "token=" ++ token t ++ [nl].

(** ** Writing *)

(** [Path::with_extension] for a path that ends in a file name. *)
Fixpoint split_last (c : byte) (s : bytes) : option (bytes * bytes) :=
  match s with
  | [] => None
  | b :: t =>
      match split_last c t with
      | Some (l, r) => Some (b :: l, r)
      | None => if byteb b c then Some ([], t) else None
      end
  end.
Definition dot : byte := Byte.x2e.
Definition stem_of (name : bytes) : bytes :=
  match split_last dot name with Some ((_ :: _) as stem, _) => stem | _ => name end.
Definition with_extension (path ext : bytes) : bytes :=
  match split_last slash path with
  | Some (dir, name) => dir ++ [slash] ++ stem_of name ++ [dot] ++ ext
  | None => stem_of path ++ [dot] ++ ext
  end.
(** [path.parent().filter(|p| !p.as_os_str().is_empty())] is some directory. *)
Definition has_parent (path : bytes) : bool := bool_decide (slash ∈ path).

(** The outcome of each system call; [written] is the number of bytes that
    reached the file when [write_all] fails. *)
Record Io := {
  mkdir_ok : bool;
  remove_ok : bool;
  create_ok : bool;
  written : option nat;
  sync_ok : bool;
  rename_ok : bool;
}.
Definition all_ok : Io :=
  {| mkdir_ok := true; remove_ok := true; create_ok := true; written := None;
     sync_ok := true; rename_ok := true |}.

(** [OpenOptions] with [create], [truncate] and mode [0600]: the mode of a file
    that is already there stays. *)
Definition create_private_file (path : bytes) (fs : FS) : FS :=
  <[path := {| data := []; mode := match fs !! path with Some f => mode f | None => 0x180 end |}]> fs.
Definition put_data (path d : bytes) (fs : FS) : FS :=
  <[path := {| data := d; mode := match fs !! path with Some f => mode f | None => 0x180 end |}]> fs.

(** The states passed through, oldest first, and whether the call succeeded. *)
Definition write_record (io : Io) (path binding : bytes) (t : LxToken) (fs : FS) :
    list FS * bool :=
  if bool_decide (nl ∈ token t) || bool_decide (cr ∈ token t) then ([], false)
  else if has_parent path && negb (mkdir_ok io) then ([], false)
  else
    let tmp := with_extension path (bs "tmp") in
    let fs1 := if remove_ok io then delete tmp fs else fs in
    let record := record_text binding t in
    if negb (create_ok io) then ([fs1], false)
    else
      let fs2 := create_private_file tmp fs1 in
      let upto := match written io with Some n => Nat.min n (length record) | None => length record end in
      let writing := map (λ n, put_data tmp (take n record) fs2) (seq 0 (S upto)) in
      let st := [fs1; fs2] ++ writing in
      match written io with
      | Some _ => (st, false)
      | None =>
          if negb (sync_ok io) || negb (rename_ok io) then (st, false)
          else
            let fs3 := put_data tmp record fs2 in
            let file := match fs3 !! tmp with Some f => f | None => {| data := record; mode := 0x180 |} end in
            (st ++ [<[path := file]> (delete tmp fs3)], true)
      end.

(** Whether reading the file warns: somebody beside its owner may read it. *)
Definition widely_readable (f : File) : bool := negb (Z.land (Z.land (mode f) 0x1ff) 0x3f =? 0).
Definition warn_if_widely_readable (path : bytes) (fs : FS) : bool :=
  match fs !! path with None => false | Some f => widely_readable f end.

(** [TokenStore for FileTokenStore] *)
Definition load (read_ok : bool) (path binding : bytes) (fs : FS) : option LxToken :=
  '(saved_binding, t) ← read_record read_ok path fs;
  if bool_decide (saved_binding ≠ binding) then None else Some t.

Definition clear (io : Io) (path : bytes) (fs : FS) : FS :=
  if remove_ok io then delete path fs else fs.

Definition save (io : Io) (path binding : bytes) (t : LxToken) (fs : FS) : list FS :=
  if token_is_empty t then [clear io path fs] else fst (write_record io path binding t fs).

(** The file system when the call is over. *)
Definition final (fs : FS) (states : list FS) : FS := default fs (last states).

(** ** Facts *)

Lemma final_elem (fs : FS) states : states ≠ [] → final fs states ∈ states.
Proof.
  intros Hne. unfold final. destruct (last states) eqn:E; [by apply last_Some_elem_of|].
  by apply last_None in E.
Qed.

(** [C25] The preimage of a binding determines the Miniserver URL, the user and the
    client UUID: the length prefixes keep the parts apart. Two identities can
    therefore share a binding only through a collision of SHA-256. *)
Theorem binding_preimage_injective u n c u' n' c' :
  zlen u < 2 ^ 64 → zlen n < 2 ^ 64 → zlen c < 2 ^ 64 →
  zlen u' < 2 ^ 64 → zlen n' < 2 ^ 64 → zlen c' < 2 ^ 64 →
  binding_preimage u n c = binding_preimage u' n' c' → u = u' ∧ n = n' ∧ c = c'.
Proof.
  assert (∀ a a' r r' : bytes, zlen a < 2 ^ 64 → zlen a' < 2 ^ 64 →
    binding_part a ++ r = binding_part a' ++ r' → a = a' ∧ r = r') as Hpart.
  { intros a a' r r' Ha Ha' E. unfold binding_part in E. rewrite <- !app_assoc in E.
    apply app_inj_1 in E as [El E]; [|by rewrite !le_bytes_length].
    apply (f_equal le_Z) in El. rewrite !le_Z_le_bytes in El.
    pose proof (zlen_nonneg a). pose proof (zlen_nonneg a').
    rewrite !Z.mod_small in El by (change (256 ^ Z.of_nat 8) with (2 ^ 64); lia).
    apply app_inj_1 in E; [done|]. unfold zlen in El. lia. }
  intros Hu Hn Hc Hu' Hn' Hc'. unfold binding_preimage. cbn [map concat]. intros E.
  apply Hpart in E as [-> E]; [|done|done]. apply Hpart in E as [-> E]; [|done|done].
  by apply Hpart in E as [-> _].
Qed.

Lemma binding_preimage_injective_witness :
  binding_preimage (bs "ab") (bs "c") [] ≠ binding_preimage (bs "a") (bs "bc") []
  ∧ (binding_preimage (bs "ab") (bs "c") [] = binding_preimage (bs "ab") (bs "c") [] →
     bs "ab" = bs "ab" ∧ bs "c" = bs "c" ∧ ([] : bytes) = []).
Proof.
  split; [vm_compute; congruence|].
  apply (binding_preimage_injective (bs "ab") (bs "c") [] (bs "ab") (bs "c") []); reflexivity.
Defined.

(** A value that fits on a line. *)
Definition one_line (s : bytes) : Prop := (nl ∉ s) ∧ (cr ∉ s).

Lemma one_line_app s t : one_line s → one_line t → one_line (s ++ t).
Proof. unfold one_line. rewrite !not_elem_of_app. tauto. Qed.

Lemma one_line_display z : one_line (display_Z z).
Proof. split; apply display_Z_no; [left|left]; vm_compute; reflexivity. Qed.

Definition one_lineb (s : bytes) : bool := forallb (λ b, negb (byteb b nl) && negb (byteb b cr)) s.
Lemma one_lineb_true s : one_lineb s = true → one_line s.
Proof.
  unfold one_lineb. rewrite forallb_forall. intros H.
  split; intros Hin; apply list_elem_of_In in Hin; specialize (H _ Hin); done.
Qed.

Lemma lines_step l s : one_line l → lines (l ++ [nl] ++ s) = l :: lines s.
Proof. intros [? ?]. by apply lines_cons. Qed.

Lemma lines_record b t :
  one_line b → one_line (token t) →
  lines (record_text b t)
  = [TOKEN_MAGIC; bs "binding=" ++ b; bs "hash_alg=" ++ hash_alg_as_str (tok_hash_alg t);
     bs "valid_until=" ++ display_Z (valid_until t); bs "token=" ++ token t].
Proof.
  intros Hb Ht. unfold record_text.
  rewrite lines_step by by apply one_lineb_true.
  rewrite (app_assoc (bs "binding=") b).
  rewrite lines_step by (apply one_line_app; [by apply one_lineb_true|done]).
  rewrite (app_assoc (bs "hash_alg=")).
  rewrite lines_step by (apply one_line_app; by apply one_lineb_true; destruct (tok_hash_alg t)).
  rewrite (app_assoc (bs "valid_until=")).
  rewrite lines_step by (apply one_line_app; [by apply one_lineb_true|apply one_line_display]).
  rewrite (app_assoc (bs "token=")), <- (app_nil_r [nl]).
  rewrite lines_step by (apply one_line_app; [by apply one_lineb_true|done]).
  done.
Qed.

Lemma split_field key value :
  equals_sign ∉ key → split_once equals_sign ((key ++ [equals_sign]) ++ value) = Some (key, value).
Proof. intros H. rewrite <- app_assoc. by apply split_once_app. Qed.

Lemma read_binding v :
  read_line no_fields (bs "binding=" ++ v)
  = {| f_binding := Some v; f_token := None; f_valid_until := None; f_hash_alg := None |}.
Proof. unfold read_line. by rewrite (split_field (bs "binding")) by by apply (bool_decide_unpack _). Qed.

Lemma read_hash_alg b a :
  read_line {| f_binding := Some b; f_token := None; f_valid_until := None; f_hash_alg := None |}
    (bs "hash_alg=" ++ hash_alg_as_str a)
  = {| f_binding := Some b; f_token := None; f_valid_until := None; f_hash_alg := Some a |}.
Proof.
  unfold read_line. rewrite (split_field (bs "hash_alg")) by by apply (bool_decide_unpack _).
  by destruct a.
Qed.

Lemma read_valid_until_line b a v :
  fits_signed 64 v →
  read_line {| f_binding := Some b; f_token := None; f_valid_until := None; f_hash_alg := Some a |}
    (bs "valid_until=" ++ display_Z v)
  = {| f_binding := Some b; f_token := None; f_valid_until := Some v; f_hash_alg := Some a |}.
Proof.
  intros Hv. unfold read_line.
  rewrite (split_field (bs "valid_until")) by by apply (bool_decide_unpack _).
  by rewrite parse_i64_display.
Qed.

Lemma read_token_line b a v t :
  read_line {| f_binding := Some b; f_token := None; f_valid_until := Some v; f_hash_alg := Some a |}
    (bs "token=" ++ t)
  = {| f_binding := Some b; f_token := Some t; f_valid_until := Some v; f_hash_alg := Some a |}.
Proof. unfold read_line. by rewrite (split_field (bs "token")) by by apply (bool_decide_unpack _). Qed.

Lemma parse_record_text b t :
  one_line b → one_line (token t) → token t ≠ [] → wf_token t →
  parse_record (record_text b t) = Some (b, t).
Proof.
  intros Hb Ht Hne Hw. unfold parse_record. rewrite lines_record by done.
  rewrite bool_decide_true by done. cbn [fold_left].
  rewrite read_binding, read_hash_alg, read_valid_until_line, read_token_line by done.
  destruct t as [tk v a]. cbn in *. by destruct tk.
Qed.

(** Every state a save passes through leaves the file as it was, or complete. *)
Lemma write_record_states io path b t fs fs' :
  with_extension path (bs "tmp") ≠ path →
  fs' ∈ (write_record io path b t fs).1 →
  one_line (token t)
  ∧ (fs' !! path = fs !! path ∨ ∃ m, fs' !! path = Some {| data := record_text b t; mode := m |}).
Proof.
  intros Htmp. unfold write_record.
  destruct (bool_decide (nl ∈ token t)) eqn:En; [by intros ?%not_elem_of_nil|].
  destruct (bool_decide (cr ∈ token t)) eqn:Ec; [by intros ?%not_elem_of_nil|].
  apply bool_decide_eq_false in En, Ec. cbn [orb].
  destruct (has_parent path && _); [by intros ?%not_elem_of_nil|].
  set (tmp := with_extension path (bs "tmp")) in *. intros Hin. split; [done|].
  assert (∀ fs0 : FS, fs0 !! path = fs !! path → ∀ f, <[tmp := f]> fs0 !! path = fs !! path) as Hins.
  { intros fs0 H0 f. by rewrite lookup_insert_ne. }
  assert ((if remove_ok io then delete tmp fs else fs) !! path = fs !! path) as H1.
  { destruct (remove_ok io); [by rewrite lookup_delete_ne|done]. }
  set (fs1 := if remove_ok io then delete tmp fs else fs) in *.
  destruct (negb (create_ok io)).
  { apply list_elem_of_singleton in Hin as ->. by left. }
  assert (∀ l, fs' ∈ [fs1; create_private_file tmp fs1]
             ++ map (λ n, put_data tmp (take n (record_text b t)) (create_private_file tmp fs1)) l →
             fs' !! path = fs !! path) as Hst.
  { intros l [Hin'|Hin']%elem_of_app.
    - rewrite !elem_of_cons in Hin'. destruct Hin' as [->|[->|?%not_elem_of_nil]]; [done| |done].
      by apply Hins.
    - apply list_elem_of_fmap in Hin' as (n & -> & _). by apply Hins, Hins. }
  destruct (written io); [left; by eapply Hst|].
  destruct (_ || _); [left; by eapply Hst|]. cbn [fst] in Hin.
  apply elem_of_app in Hin as [Hin|Hin]; [left; by eapply Hst|right].
  apply list_elem_of_singleton in Hin as ->. unfold put_data.
  rewrite lookup_insert_eq, lookup_insert_eq. eauto.
Qed.

Lemma load_new_record ro path b b' t (t' : LxToken) (fs : FS) m :
  one_line b → one_line (token t) → token t ≠ [] → wf_token t →
  fs !! path = Some {| data := record_text b t; mode := m |} →
  load ro path b' fs = Some t' → b' = b ∧ t' = t.
Proof.
  intros Hb Ht Hne Hw Hf. unfold load, read_record. rewrite Hf. cbn [data].
  destruct (ro && _); [|done]. rewrite parse_record_text by done. cbn [mbind option_bind].
  case_bool_decide; [done|]. intros [= <-]. split; [|done]. apply dec_stable. congruence.
Qed.


Lemma record_text_utf8 b t :
  utf8_valid b = true → utf8_valid (token t) = true → utf8_valid (record_text b t) = true.
Proof.
  intros Hb Ht. unfold record_text. rewrite utf8_valid_app by done.
  rewrite utf8_valid_app, utf8_valid_app, utf8_valid_app, utf8_valid_app, utf8_valid_app by done.
  rewrite utf8_valid_app by (by destruct (tok_hash_alg t)).
  rewrite utf8_valid_app, utf8_valid_app by done.
  rewrite utf8_valid_app.
  - rewrite utf8_valid_app, utf8_valid_app, utf8_valid_app by done. done.
  - apply utf8_valid_ascii, Forall_forall. intros x Hx. unfold is_ascii.
    destruct (Z.ltb_spec (u8 x) 128); [done|]. exfalso.
    apply (display_Z_no x (valid_until t)) in Hx; [done|lia].
Qed.

(** [C24] What is saved is loaded back: when the system calls succeed, saving a
    non-empty token without line breaks and loading it under the same binding
    returns the token with its expiry and algorithm, from a file only its owner
    can read; under every other binding nothing is found. *)
Theorem save_load_roundtrip path b t (fs : FS) :
  one_line b → utf8_valid b = true →
  one_line (token t) → utf8_valid (token t) = true → token t ≠ [] → wf_token t →
  let fs' := final fs (save all_ok path b t fs) in
  load true path b fs' = Some t
  ∧ (∀ b', b' ≠ b → load true path b' fs' = None)
  ∧ mode <$> fs' !! path = Some 0x180.
Proof.
  intros Hb Hbu [Hn Hc] Htu Hne Hw fs'.
  assert (fs' !! path = Some {| data := record_text b t; mode := 0x180 |}) as Hf.
  { unfold fs', final, save. replace (token_is_empty t) with false
      by (unfold token_is_empty; by destruct (token t)).
    unfold write_record. rewrite !bool_decide_false by done. rewrite andb_false_r. cbn [orb].
    cbn [all_ok remove_ok create_ok written sync_ok rename_ok negb orb fst].
    rewrite last_snoc. cbn [default from_option]. unfold put_data, create_private_file.
    rewrite !lookup_insert_eq. cbn [mode id].
    by rewrite lookup_delete_eq, lookup_insert_eq. }
  assert (read_record true path fs' = Some (b, t)) as Hr.
  { unfold read_record. rewrite Hf. cbn [data andb]. rewrite record_text_utf8 by done.
    by apply parse_record_text. }
  unfold load. rewrite Hr, Hf. cbn [mbind option_bind]. split; [|split; [|done]].
  - by rewrite bool_decide_false by (intros ?; congruence).
  - intros b' Hb'. by rewrite bool_decide_true.
Qed.

(** *** Privacy *)

(** Every file of [fs'] is one of [fs] or its owner's alone. *)
Definition private_since (fs fs' : FS) : Prop :=
  ∀ p f, fs' !! p = Some f → fs !! p = Some f ∨ widely_readable f = false.

Lemma private_since_delete (fs fs' : FS) p : private_since fs fs' → private_since fs (delete p fs').
Proof. intros Hp q f. rewrite lookup_delete_Some. intros [_ Hq]. by apply Hp. Qed.

Lemma private_since_insert (fs fs' : FS) p f :
  private_since fs fs' → widely_readable f = false → private_since fs (<[p := f]> fs').
Proof. intros Hp Hf q f'. rewrite lookup_insert_Some. intros [[_ <-]|[_ Hq]]; [by right|by apply Hp]. Qed.

(** Writing to a file that is not widely readable keeps it so. *)
Lemma private_since_put tmp d (fs fs' : FS) :
  warn_if_widely_readable tmp fs' = false → private_since fs fs' →
  private_since fs (put_data tmp d fs') ∧ warn_if_widely_readable tmp (put_data tmp d fs') = false.
Proof.
  unfold warn_if_widely_readable, put_data. rewrite lookup_insert_eq. intros Hw Hp.
  split; [apply private_since_insert; [done|]|]; by destruct (fs' !! tmp).
Qed.

Lemma write_record_private io path b t (fs fs' : FS) :
  remove_ok io = true ∨ fs !! with_extension path (bs "tmp") = None →
  fs' ∈ (write_record io path b t fs).1 → private_since fs fs'.
Proof.
  intros Hrm. unfold write_record. destruct (_ || _); [by intros ?%not_elem_of_nil|].
  destruct (has_parent path && _); [by intros ?%not_elem_of_nil|].
  set (tmp := with_extension path (bs "tmp")) in *. cbn zeta.
  set (fs1 := if remove_ok io then delete tmp fs else fs).
  assert (private_since fs fs1 ∧ warn_if_widely_readable tmp fs1 = false) as [H1 H1w].
  { unfold fs1, warn_if_widely_readable. destruct (remove_ok io).
    - rewrite lookup_delete_eq. split; [|done]. apply private_since_delete. by left.
    - destruct Hrm as [[=]| ->]. split; [|done]. by left. }
  destruct (negb (create_ok io)); [by intros ->%list_elem_of_singleton|].
  change (create_private_file tmp fs1) with (put_data tmp [] fs1).
  destruct (private_since_put tmp [] fs fs1 H1w H1) as [H2 H2w]. set (fs2 := put_data tmp [] fs1) in *.
  assert (∀ l, fs' ∈ [fs1; fs2] ++ map (λ n, put_data tmp (take n (record_text b t)) fs2) l → private_since fs fs') as Hst.
  { intros l [Hin|Hin]%elem_of_app.
    - rewrite !elem_of_cons in Hin. by destruct Hin as [->|[->|?%not_elem_of_nil]].
    - apply list_elem_of_fmap in Hin as (n & -> & _). by apply private_since_put. }
  destruct (written io); [apply Hst|]. destruct (_ || _); [apply Hst|]. cbn [fst].
  intros [Hin| ->%list_elem_of_singleton]%elem_of_app; [by eapply Hst|].
  destruct (private_since_put tmp (record_text b t) fs fs2 H2w H2) as [H3 H3w].
  apply private_since_insert; [by apply private_since_delete|].
  unfold warn_if_widely_readable in H3w. by destruct (put_data tmp (record_text b t) fs2 !! tmp).
Qed.

(** [C23] A token is never left where others can read it. In every state a save
    passes through, whatever system call fails and wherever the process dies, every
    file that is not as it was before can be read by its owner alone, unless the
    temporary of an earlier save was there and could not be removed. *)
Theorem save_private io path b t (fs fs' : FS) p f :
  remove_ok io = true ∨ fs !! with_extension path (bs "tmp") = None →
  fs' ∈ save io path b t fs → fs' !! p = Some f →
  fs !! p = Some f ∨ widely_readable f = false.
Proof.
  intros Hrm Hin. revert p f. change (private_since fs fs'). revert Hin. unfold save.
  destruct (token_is_empty t); [|by apply write_record_private].
  intros ->%list_elem_of_singleton. unfold clear. destruct (remove_ok io); [apply private_since_delete|]; by left.
Qed.

(** A temporary that others can read and that cannot be removed makes the token
    readable for them. *)
Lemma leftover_stays_readable :
  let left := {| data := []; mode := 0x1a4 |} in
  let stuck := {| mkdir_ok := true; remove_ok := false; create_ok := true; written := None;
                  sync_ok := true; rename_ok := true |} in
  let t := new_token (bs "ey") 1 Sha1 in
  warn_if_widely_readable (bs "a.cfg") (final ∅ (save stuck (bs "a.cfg") (bs "aa") t {[ bs "a.tmp" := left ]})) = true.
Proof. vm_compute. done. Qed.

Definition sample_path : bytes := bs "/var/lib/app/lox_token.cfg".
Definition sample_token : LxToken := new_token (bs "ey=J.x") 500000000 Sha256.


Lemma save_private_witness :
  let short := {| mkdir_ok := true; remove_ok := true; create_ok := true;
                  written := Some 3%nat; sync_ok := true; rename_ok := true |} in
  let fs := {[ bs "a.tmp" := {| data := []; mode := 0x1a4 |} ]} : FS in
  let fs' := final fs (save short (bs "a.cfg") (bs "aa") sample_token fs) in
  ∃ f, fs' !! bs "a.tmp" = Some f ∧ (fs !! bs "a.tmp" = Some f ∨ widely_readable f = false).
Proof.
  intros short fs fs'. eexists. split; [vm_compute; reflexivity|].
  apply (save_private short (bs "a.cfg") (bs "aa") sample_token fs fs' (bs "a.tmp")).
  - by left.
  - apply final_elem. intros E%(f_equal length). vm_compute in E. done.
  - vm_compute. reflexivity.
Defined.

Lemma save_load_roundtrip_witness :
  load true sample_path (bs "aa") (final ∅ (save all_ok sample_path (bs "aa") sample_token ∅))
  = Some sample_token.
Proof.
  apply (save_load_roundtrip sample_path (bs "aa") sample_token ∅);
    [by apply one_lineb_true|reflexivity|by apply one_lineb_true|reflexivity|done|done].
Defined.

(** When the path itself ends in [.tmp] the temporary is the file: a save that
    dies while writing leaves a record whose token is cut short, and it loads. *)
Lemma tmp_path_not_atomic :
  let path := bs "token.tmp" in
  let short := {| mkdir_ok := true; remove_ok := true; create_ok := true;
                  written := Some 79%nat; sync_ok := true; rename_ok := true |} in
  with_extension path (bs "tmp") = path
  ∧ load true path (bs "aa") (final ∅ (save short path (bs "aa") sample_token ∅))
    = Some (new_token (bs "ey=") 500000000 Sha256).
Proof. vm_compute. auto. Qed.
