(* ===== verification/Dirs.v ===== *)
(** * auth/store.rs, [create_private_dir]: the directory of the token file

    [Store] takes the outcome of making the directory as an input; here it is
    computed. A directory tree is a map from paths to permission bits beside the map
    of files. [mkdir] is the system call, which may be denied for any path, and
    [create_dir_all] is the recursion of the standard library's [DirBuilder]. Paths
    have no trailing or doubled slash. *)

From S2P Require Import Prelude RustStr External Models Errors Session Crypto Auth Store.

Abbreviation Dirs := (@gmap (list Byte.byte) list_eq_dec list_countable Z).

Inductive MkdirError := NotFound | AlreadyExists | Denied | NotADirectory.

(** [Path::parent]; the root has none. *)
Definition parent (p : bytes) : option bytes :=
  match split_last slash p with
  | Some ([], []) => None
  | Some ([], _) => Some [slash]
  | Some (dir, _) => Some dir
  | None => match p with [] => None | _ => Some [] end
  end.

Section tree.
(** the paths at which the kernel refuses to make a directory, and the umask *)
Context (denied : bytes → bool) (umask : Z).
Implicit Types (ds : Dirs) (fs : FS) (p : bytes).

(** The working directory and the root are there. *)
Definition is_dir ds p : bool := bool_decide (p = []) || bool_decide (p = [slash]) || bool_decide (is_Some (ds !! p)).

Definition mkdir (dir_mode : Z) p ds fs : result MkdirError Dirs :=
  if is_dir ds p || bool_decide (is_Some (fs !! p)) then Err AlreadyExists
  else
    match parent p with
    | None => Err NotFound
    | Some q =>
        if is_dir ds q then
          if denied p then Err Denied else Ok (<[p := Z.land dir_mode (Z.lnot umask)]> ds)
        else if bool_decide (is_Some (fs !! q)) then Err NotADirectory else Err NotFound
    end.

(** [DirBuilder::create] with [recursive(true)]: the directories after the call, and
    its result. *)
Fixpoint create_dir_all (fuel : nat) (dir_mode : Z) p ds fs : Dirs * result MkdirError unit :=
  match fuel with
  | O => (ds, Err NotFound)
  | S fuel =>
      if bool_decide (p = []) then (ds, Ok tt)
      else
        match mkdir dir_mode p ds fs with
        | Ok ds => (ds, Ok tt)
        | Err NotFound =>
            match parent p with
            | None => (ds, Err NotFound)
            | Some q =>
                match create_dir_all fuel dir_mode q ds fs with
                | (ds, Err e) => (ds, Err e)
                | (ds, Ok _) =>
                    match mkdir dir_mode p ds fs with
                    | Ok ds => (ds, Ok tt)
                    | Err e => (ds, if is_dir ds p then Ok tt else Err e)
                    end
                end
            end
        | Err e => (ds, if is_dir ds p then Ok tt else Err e)
        end
  end.

Definition create_private_dir p ds fs : Dirs * result MkdirError unit :=
  create_dir_all (S (length p)) 0x1c0 p ds fs.

(** ** The path shrinks *)

Lemma split_last_length c p l r : split_last c p = Some (l, r) → length p = S (length l + length r).
Proof using.
  revert l r. induction p as [|b p IH]; intros l r; cbn [split_last]; [done|].
  destruct (split_last c p) as [[l0 r0]|].
  - intros [= <- <-]. cbn. rewrite (IH l0 r0 eq_refl). lia.
  - destruct (byteb b c); [|done]. intros [= <- <-]. done.
Qed.

Lemma parent_shorter p q : parent p = Some q → (length q < length p)%nat.
Proof using.
  unfold parent. destruct (split_last slash p) as [[l r]|] eqn:E.
  - apply split_last_length in E. destruct l as [|b l]; [destruct r; [done|]|]; intros [= <-]; cbn in *; lia.
  - destruct p; [done|]. intros [= <-]. cbn. lia.
Qed.

Lemma parent_none p : parent p = None → p = [] ∨ p = [slash].
Proof using.
  unfold parent. destruct (split_last slash p) as [[[|? ?] [|? ?]]|] eqn:E; try done; [|destruct p; [by left|done]].
  intros _. right. apply split_last_length in E as Hlen. destruct p as [|b [|]]; try done. cbn in E.
  destruct (byteb b slash) eqn:Eb; [|done]. apply bool_decide_eq_true in Eb as ->. done.
Qed.

(** ** What a call leaves *)

Definition private_mode (m : Z) : Prop := Z.land m 0x3f = 0.
(** Directories are added, with mode [m], and none is touched. *)
Definition grows (m : Z) ds ds' : Prop :=
  ds ⊆ ds' ∧ ∀ q k, ds' !! q = Some k → ds !! q = Some k ∨ k = m.

#[local] Instance grows_preorder m : PreOrder (grows m).
Proof using.
  split; [by split; auto|]. intros d1 d2 d3 [H1 G1] [H2 G2]. split; [by etrans|].
  intros q k [Hq|]%G2; [|by right]. by apply G1.
Qed.

Lemma is_dir_mono m ds ds' p : grows m ds ds' → is_dir ds p = true → is_dir ds' p = true.
Proof using.
  intros [Hs _]. unfold is_dir. rewrite !orb_true_iff, !bool_decide_eq_true. intros [?|[k Hk]]; [by left|right].
  exists k. by eapply lookup_weaken.
Qed.

Lemma mkdir_grows dir_mode p ds ds' fs :
  mkdir dir_mode p ds fs = Ok ds' → grows (Z.land dir_mode (Z.lnot umask)) ds ds' ∧ is_dir ds' p = true.
Proof using.
  unfold mkdir. destruct (is_dir ds p) eqn:Hp; [done|]. cbn [orb]. case_bool_decide; [done|].
  destruct (parent p) as [q|]; [|done]. destruct (is_dir ds q); [|by case_bool_decide].
  destruct (denied p); [done|]. intros [= <-].
  assert (ds !! p = None) as Hn.
  { unfold is_dir in Hp. rewrite !orb_false_iff, !bool_decide_eq_false in Hp. destruct Hp as [_ Hp].
    by apply eq_None_not_Some. }
  split; [split|].
  - by apply insert_subseteq.
  - intros q0 k. destruct (decide (p = q0)) as [<-|Hne].
    + rewrite lookup_insert_eq. intros [= <-]. by right.
    + rewrite lookup_insert_ne by done. by left.
  - unfold is_dir. rewrite lookup_insert_eq. rewrite (bool_decide_true (is_Some _)) by eauto. by rewrite !orb_true_r.
Qed.

(** An answer of [mkdir], as [create_dir_all] takes it. *)
Definition settles p ds (r : result MkdirError Dirs) : Dirs * result MkdirError unit :=
  match r with Ok ds => (ds, Ok tt) | Err e => (ds, if is_dir ds p then Ok tt else Err e) end.

Lemma settles_spec dir_mode p ds fs (out := settles p ds (mkdir dir_mode p ds fs)) :
  grows (Z.land dir_mode (Z.lnot umask)) ds out.1 ∧ (out.2 = Ok tt → is_dir out.1 p = true).
Proof using.
  unfold out, settles. destruct (mkdir dir_mode p ds fs) as [ds'|e] eqn:E.
  - by apply mkdir_grows in E as [Hg Hd].
  - split; [done|]. cbn. by destruct (is_dir ds p).
Qed.

Lemma create_dir_all_spec fuel dir_mode p ds fs (out := create_dir_all fuel dir_mode p ds fs) :
  grows (Z.land dir_mode (Z.lnot umask)) ds out.1 ∧ (out.2 = Ok tt → is_dir out.1 p = true).
Proof using.
  unfold out. clear out. revert p ds. induction fuel as [|fuel IH]; intros p ds; cbn [create_dir_all]; [done|].
  case_bool_decide as Hp; [by subst|].
  pose proof (settles_spec dir_mode p ds fs) as Hs. destruct (mkdir dir_mode p ds fs) as [ds'|[]]; try exact Hs.
  destruct (parent p) as [q|]; [|done]. destruct (IH q ds) as [Hg Hd].
  destruct (create_dir_all fuel dir_mode q ds fs) as [ds1 [[]|e]]; cbn [fst snd] in *; [|done].
  destruct (settles_spec dir_mode p ds1 fs) as [Hg1 Hd1].
  split; [etransitivity; [exact Hg|exact Hg1]|exact Hd1].
Qed.

(** Nothing stands in the way of [p]: no file on the path to it, no refusal. *)
Definition clear_way p fs : Prop :=
  ∀ q, rtc (λ a b, parent a = Some b) p q → fs !! q = None ∧ denied q = false.

Lemma is_dir_file_free ds p fs : fs !! p = None → is_dir ds p || bool_decide (is_Some (fs !! p)) = is_dir ds p.
Proof using. intros ->. by rewrite bool_decide_false, orb_false_r by (by intros []). Qed.

Lemma mkdir_in_parent dir_mode p q ds fs :
  clear_way p fs → parent p = Some q → is_dir ds q = true → is_dir ds p = false → is_Some (res_ok (mkdir dir_mode p ds fs)).
Proof using.
  intros Hc Hp Hq Hn. destruct (Hc p) as [Hf Hd]; [done|]. unfold mkdir.
  rewrite is_dir_file_free, Hn, Hp, Hq, Hd by done. by eexists.
Qed.

(** With enough fuel, which is one more than the length of the path. *)
Lemma create_dir_all_succeeds fuel dir_mode p ds fs :
  (length p < fuel)%nat → clear_way p fs → (create_dir_all fuel dir_mode p ds fs).2 = Ok tt.
Proof using.
  revert p ds. induction fuel as [|fuel IH]; intros p ds Hl Hc; [lia|]. cbn [create_dir_all].
  case_bool_decide as Hp; [done|]. destruct (Hc p) as [Hf Hd]; [done|].
  destruct (is_dir ds p) eqn:Ed.
  { assert (mkdir dir_mode p ds fs = Err AlreadyExists) as -> by (unfold mkdir; by rewrite is_dir_file_free, Ed). done. }
  destruct (parent p) as [q|] eqn:Eq.
  2: { unfold is_dir in Ed. apply parent_none in Eq as [-> | ->]; done. }
  assert (clear_way q fs) as Hcq.
  { intros q' Hq'. apply Hc. by eapply rtc_l. }
  destruct (is_dir ds q) eqn:Eqd.
  { destruct (mkdir_in_parent dir_mode p q ds fs Hc Eq Eqd Ed) as [ds' Hm].
    by destruct (mkdir dir_mode p ds fs). }
  assert (mkdir dir_mode p ds fs = Err NotFound) as ->.
  { unfold mkdir. rewrite is_dir_file_free, Ed, Eq, Eqd by done. destruct (Hcq q) as [-> _]; [done|].
    by rewrite bool_decide_false by (by intros []). }
  pose proof (IH q ds ltac:(apply parent_shorter in Eq; lia) Hcq) as Hok.
  destruct (create_dir_all_spec fuel dir_mode q ds fs) as [_ Hq].
  destruct (create_dir_all fuel dir_mode q ds fs) as [ds1 r]. cbn [fst snd] in *. subst r. specialize (Hq eq_refl).
  destruct (is_dir ds1 p) eqn:Ed1.
  - by destruct (mkdir dir_mode p ds1 fs).
  - destruct (mkdir_in_parent dir_mode p q ds1 fs Hc Eq Hq Ed1) as [ds' Hm]. by destruct (mkdir dir_mode p ds1 fs).
Qed.

(** Making the directory of the token file touches no directory that is there, gives
    the ones it makes to their owner alone, whatever the umask, and when it succeeds
    the directory is there; it does succeed when no file and no refusal stands in the
    way. *)
Lemma private_dir_spec p ds fs (out := create_private_dir p ds fs) :
  ds ⊆ out.1
  ∧ (∀ q m, out.1 !! q = Some m → ds !! q = Some m ∨ private_mode m)
  ∧ (out.2 = Ok tt → is_dir out.1 p = true)
  ∧ (clear_way p fs → out.2 = Ok tt).
Proof using.
  destruct (create_dir_all_spec (S (length p)) 0x1c0 p ds fs) as [[Hs Hg] Hd].
  split; [exact Hs|]. split; [|split; [exact Hd|apply create_dir_all_succeeds; lia]].
  intros q m [Hq| ->]%Hg; [by left|right]. unfold private_mode.
  rewrite <- Z.land_assoc, (Z.land_comm (Z.lnot umask)), Z.land_assoc. apply Z.land_0_l.
Qed.

(** ** Saving, directories included *)

(** [path.parent().filter(|p| !p.as_os_str().is_empty())] *)
Definition token_dir (path : bytes) : option bytes :=
  q ← parent path; match q with [] => None | _ => Some q end.

(** [save] where making the directory is computed; the other outcomes are inputs. *)
Definition save_in (io : Io) (path binding : bytes) (t : LxToken) ds fs : Dirs * list FS :=
  if token_is_empty t || bool_decide (nl ∈ token t) || bool_decide (cr ∈ token t) then (ds, save io path binding t fs)
  else
    match token_dir path with
    | None => (ds, save io path binding t fs)
    | Some q =>
        let '(ds, r) := create_private_dir q ds fs in
        (ds, save {| mkdir_ok := match r with Ok _ => true | Err _ => false end; remove_ok := remove_ok io;
                     create_ok := create_ok io; written := written io; sync_ok := sync_ok io;
                     rename_ok := rename_ok io |} path binding t fs)
    end.

(** The directories of a save: none that was there is touched, new ones are private. *)
Lemma save_in_private io path b t ds fs :
  let ds' := (save_in io path b t ds fs).1 in
  ds ⊆ ds' ∧ ∀ q m, ds' !! q = Some m → ds !! q = Some m ∨ private_mode m.
Proof using.
  unfold save_in. destruct (_ || _); [by auto|]. destruct (token_dir path) as [q|]; [|by auto].
  destruct (private_dir_spec q ds fs) as (Hs & Hg & _). by destruct (create_private_dir q ds fs) as [ds' r].
Qed.
End tree.

(** ** The unit test [missing_parent_directories_are_created] *)

(** In a fresh directory, with nothing denied. *)
Definition missing_parent_directories_are_created : bool :=
  let ds := {[ bs "/tmp" := 0x1ff; bs "/tmp/nested" := 0x1ff ]} in
  let path := bs "/tmp/nested/a/b/token.cfg" in
  let '(ds', states) := save_in (λ _, false) 0x12 all_ok path (bs "binding-a") (new_token (bs "eyJ") 5 Sha256) ds ∅ in
  is_dir ds' (bs "/tmp/nested/a/b")
  && match load true path (bs "binding-a") (final ∅ states) with Some _ => true | None => false end.

Lemma missing_parent_directories_are_created_ok : missing_parent_directories_are_created = true.
Proof. vm_compute. reflexivity. Qed.
