(* ===== verification/Scan.v ===== *)
(** * client/pending.rs, the cheap [LL.control] scan

    [find_either] compares eight bytes per step with the arithmetic of 64-bit
    words; [find_control_key] jumps from quote to quote; [extract_ll_control]
    reads the value without building a document. *)

From S2P Require Import Prelude RustStr External Models Errors.

Definition CONTROL_KEY_SCAN_LIMIT : Z := 512.
Definition CONTROL_VALUE_LIMIT : Z := 8 * 1024.

(** ** Definitions *)

(** [u64::from_le_bytes] of eight bytes. *)
Definition word_at (chunk : bytes) : Z := le_Z chunk.

Definition ONES : Z := 0x0101010101010101.
Definition HIGHS : Z := 0x8080808080808080.
Definition repeat_byte (b : byte) : Z := u8 b * ONES.

(** [!word] has ones above bit 63, which the conjunction drops. *)
Definition zero_byte_mask (word : Z) : Z :=
  Z.land (Z.land (wrap 64 (word - ONES)) (Z.lnot word)) HIGHS.

(** [u64::trailing_zeros] of a non-zero word. *)
Fixpoint trailing_zeros_fuel (fuel : nat) (z : Z) : Z :=
  match fuel with
  | O => 0
  | S fuel => if Z.odd z then 0 else 1 + trailing_zeros_fuel fuel (z / 2)
  end.
Definition trailing_zeros (z : Z) : Z := trailing_zeros_fuel 64 z.

(** [iter().position(p)] *)
Fixpoint position (p : byte → bool) (l : bytes) : option Z :=
  match l with
  | [] => None
  | x :: l => if p x then Some 0 else (λ i, 1 + i) <$> position p l
  end.

Definition either (a b : byte) (x : byte) : bool := byteb x a || byteb x b.

(** The [for chunk in chunks] loop, then the remainder. *)
Fixpoint find_in_chunks (a b : byte) (offset : Z) (chunks : list bytes) (remainder : bytes) :
    option Z :=
  match chunks with
  | chunk :: chunks =>
      let word := word_at chunk in
      let mask := Z.lor (zero_byte_mask (Z.lxor word (repeat_byte a)))
                        (zero_byte_mask (Z.lxor word (repeat_byte b))) in
      if negb (mask =? 0) then Some (offset + trailing_zeros mask / 8)
      else find_in_chunks a b (offset + 8) chunks remainder
  | [] => (λ i, offset + i) <$> position (either a b) remainder
  end.

Definition find_either (haystack : bytes) (a b : byte) : option Z :=
  let '(chunks, remainder) := as_chunks 8 haystack in
  find_in_chunks a b 0 chunks remainder.

Definition find_byte (haystack : bytes) (needle : byte) : option Z :=
  find_either haystack needle needle.

Definition quote_char : byte := Byte.x22.
Definition backslash : byte := Byte.x5c.
Definition colon_char : byte := Byte.x3a.
Definition KEY : bytes := [quote_char] ++ bs "control" ++ [quote_char].

(** The [while from <= last] loop; every turn moves [from] forward, so the length
    of the window is enough fuel. *)
Fixpoint key_loop (fuel : nat) (window : bytes) (last from : Z) : option Z :=
  match fuel with
  | O => None
  | S fuel =>
      if from <=? last then
        match find_byte (drop (Z.to_nat from) window) quote_char with
        | None => None
        | Some i =>
            let at_ := from + i in
            if last <? at_ then None
            else if (word_at (take 8 (drop (Z.to_nat at_) window)) =? word_at (take 8 KEY))
                    && byteb (nth (Z.to_nat (at_ + 8)) window Byte.x00) quote_char
            then Some at_
            else key_loop fuel window last (at_ + 1)
        end
      else None
  end.

Definition find_control_key (window : bytes) : option Z :=
  if zlen window <? zlen KEY then None
  else key_loop (S (length window)) window (zlen window - zlen KEY) 0.

Definition extract_ll_control (payload : bytes) : option bytes :=
  let key_window := take (Z.to_nat (Z.min (zlen payload) CONTROL_KEY_SCAN_LIMIT)) payload in
  key ← find_control_key key_window;
  let key_end := key + zlen KEY in
  let after_key := drop (Z.to_nat key_end) payload in
  colon ← find_byte after_key colon_char;
  let after_colon := drop (Z.to_nat (colon + 1)) after_key in
  quote ← position (λ b, negb (is_ascii_whitespace b)) after_colon;
  if negb (byteb (nth (Z.to_nat quote) after_colon Byte.x00) quote_char) then None
  else
    let value := drop (Z.to_nat (quote + 1)) after_colon in
    let value := take (Z.to_nat (Z.min (zlen value) CONTROL_VALUE_LIMIT)) value in
    end_ ← find_either value quote_char backslash;
    if negb (byteb (nth (Z.to_nat end_) value Byte.x00) quote_char) then None
    else
      let text := take (Z.to_nat end_) value in
      if utf8_valid text then Some text else None.

(** ** The word search *)

(** The masks of an [n]-byte word. *)
Fixpoint ones (n : nat) : Z := match n with O => 0 | S n => 1 + 256 * ones n end.
Fixpoint highs (n : nat) : Z := match n with O => 0 | S n => 128 + 256 * highs n end.
Definition zmask (n : nat) (w : Z) : Z :=
  Z.land (Z.land ((w - ones n) mod 256 ^ Z.of_nat n) (Z.lnot w)) (highs n).

Lemma zero_byte_mask_8 w : zero_byte_mask w = zmask 8 w.
Proof. reflexivity. Qed.

Lemma repeat_byte_8 b : repeat_byte b = u8 b * ones 8.
Proof. reflexivity. Qed.

Lemma mod_byte x y m : 0 <= x < 256 → 0 < m → (x + 256 * y) mod (256 * m) = x + 256 * (y mod m).
Proof.
  intros Hx Hm. rewrite Z.rem_mul_r by lia.
  rewrite (Z.mul_comm 256 y), Z.mod_add, Z.div_add by lia.
  by rewrite Z.mod_small, Z.div_small by lia.
Qed.

Lemma zmask_nonneg n w : 0 <= zmask n w.
Proof.
  unfold zmask. apply Z.land_nonneg. right. induction n; cbn [highs]; lia.
Qed.

Lemma zmask_step n b c w : 0 <= b < 256 → 0 <= c < 256 → ∀ v,
  b + 256 * w - ones (S n) = c + 256 * v →
  zmask (S n) (b + 256 * w)
  = Z.land (Z.land c (255 - b)) 128
    + 256 * Z.land (Z.land (v mod 256 ^ Z.of_nat n) (Z.lnot w)) (highs n).
Proof.
  intros Hb Hc v Hv. unfold zmask. rewrite Hv, Nat2Z.inj_succ, Z.pow_succ_r by lia.
  rewrite mod_byte by lia.
  replace (Z.lnot (b + 256 * w)) with ((255 - b) + 256 * Z.lnot w) by (unfold Z.lnot; lia).
  cbn [highs]. rewrite land_byte by lia. apply land_byte; [|lia].
  apply (op_range Z.land andb eq_refl (λ a b i _, Z.land_spec a b i) land_nonneg' 8); lia.
Qed.

(** A zero byte sets bit 7; the bytes above may be wrong, but they do not matter. *)
Lemma zmask_zero n w : ∃ k, 0 <= k ∧ zmask (S n) (0 + 256 * w) = 128 + 256 * k.
Proof.
  rewrite (zmask_step n 0 255 w ltac:(lia) ltac:(lia) (w - ones n - 1)) by (cbn [ones]; lia).
  eexists. split; [|reflexivity]. apply Z.land_nonneg. right. induction n; cbn [highs]; lia.
Qed.

(** A byte that is not zero contributes nothing and borrows nothing. *)
Lemma zmask_pos n b w : 0 < b < 256 → zmask (S n) (b + 256 * w) = 0 + 256 * zmask n w.
Proof.
  intros Hb. rewrite (zmask_step n b (b - 1) w ltac:(lia) ltac:(lia) (w - ones n)) by (cbn [ones]; lia).
  f_equal. rewrite <- Z.land_assoc. change 128 with (2 ^ 7) at 1.
  apply Z.bits_inj'. intros i Hi. rewrite !Z.land_spec, Z.bits_0, Z.pow2_bits_eqb by lia.
  destruct (Z.eqb_spec 7 i) as [<-|]; [|by rewrite !andb_false_r]. rewrite andb_true_r.
  rewrite !Z.testbit_odd, !Z.shiftr_div_pow2 by lia. change (2 ^ 7) with 128.
  destruct (Z.le_gt_cases b 128) as [H|H].
  - rewrite (Z.div_small (b - 1)) by lia. done.
  - rewrite (Z.div_small (255 - b)) by lia. by rewrite andb_false_r.
Qed.

Lemma lxor_u8 x a : 0 <= Z.lxor (u8 x) (u8 a) < 256 ∧ (Z.lxor (u8 x) (u8 a) = 0 ↔ x = a).
Proof.
  split; [apply (lxor_range 8); [lia|apply u8_range|apply u8_range]|].
  split; [|intros ->; apply Z.lxor_nilpotent]. intros H%Z.lxor_eq. by apply u8_inj.
Qed.

Definition xored (l : bytes) (a : byte) : Z := Z.lxor (le_Z l) (u8 a * ones (length l)).

Lemma xored_cons x l a : xored (x :: l) a = Z.lxor (u8 x) (u8 a) + 256 * xored l a.
Proof.
  unfold xored. cbn [le_Z length ones].
  replace (u8 a * (1 + 256 * ones (length l))) with (u8 a + 256 * (u8 a * ones (length l))) by lia.
  apply lxor_byte; apply u8_range.
Qed.

Lemma zmask_xored x l a :
  if byteb x a then ∃ k, 0 <= k ∧ zmask (S (length l)) (xored (x :: l) a) = 128 + 256 * k
  else zmask (S (length l)) (xored (x :: l) a) = 0 + 256 * zmask (length l) (xored l a).
Proof.
  rewrite xored_cons. destruct (lxor_u8 x a) as [Hr H0]. destruct (byteb x a) eqn:E.
  - apply byteb_true in E. rewrite (proj2 H0 E). apply zmask_zero.
  - apply byteb_false in E. apply zmask_pos. assert (Z.lxor (u8 x) (u8 a) ≠ 0) by tauto. lia.
Qed.

(** The lowest bit of the combined mask marks the first of either byte. *)
Lemma combined_mask l a b :
  let mask := Z.lor (zmask (length l) (xored l a)) (zmask (length l) (xored l b)) in
  match position (either a b) l with
  | None => mask = 0
  | Some i => 0 <= i < zlen l ∧ ∃ k, 0 <= k ∧ mask = 2 ^ (8 * i + 7) * (1 + 2 * k)
  end.
Proof.
  induction l as [|x l IH]; [cbn; unfold zmask; cbn [highs]; by rewrite !Z.land_0_r|]. cbn [position length]. unfold either at 1.
  pose proof (zmask_xored x l a) as Ha. pose proof (zmask_xored x l b) as Hb.
  set (ma := zmask (length l) (xored l a)) in *. set (mb := zmask (length l) (xored l b)) in *.
  assert (∀ k k' c c', 0 <= k → 0 <= k' → Z.lor c c' = 128 → 0 <= c < 256 → 0 <= c' < 256 →
    0 <= 0 < zlen (x :: l) ∧ ∃ j, 0 <= j
      ∧ Z.lor (c + 256 * k) (c' + 256 * k') = 2 ^ (8 * 0 + 7) * (1 + 2 * j)) as Hhit.
  { intros k k' c c' Hk Hk' Hc ? ?. split; [unfold zlen; cbn [length]; lia|]. rewrite lor_byte, Hc by lia.
    exists (Z.lor k k'). split; [apply Z.lor_nonneg; lia|]. change (2 ^ (8 * 0 + 7)) with 128. lia. }
  assert (0 <= ma ∧ 0 <= mb) as [? ?] by (split; apply zmask_nonneg).
  destruct (byteb x a), (byteb x b); cbn [orb].
  - destruct Ha as (k & ? & ->), Hb as (k' & ? & ->). apply Hhit; done || lia.
  - destruct Ha as (k & ? & ->). rewrite Hb. apply Hhit; done || lia.
  - destruct Hb as (k & ? & ->). rewrite Ha. apply Hhit; done || lia.
  - rewrite Ha, Hb, lor_byte by lia. change (Z.lor 0 0) with 0.
    destruct (position (either a b) l) as [i|]; cbn [fmap option_fmap option_map].
    + destruct IH as (Hi & k & Hk & ->). split; [unfold zlen in *; cbn [length]; lia|].
      exists k. split; [done|]. replace (8 * (1 + i) + 7) with (8 + (8 * i + 7)) by lia.
      rewrite (Z.pow_add_r 2 8) by lia. change (2 ^ 8) with 256. ring.
    + rewrite IH. lia.
Qed.

Lemma trailing_zeros_fuel_spec n j k :
  0 <= j < Z.of_nat n → trailing_zeros_fuel n (2 ^ j * (1 + 2 * k)) = j.
Proof.
  revert j. induction n as [|n IH]; intros j Hj; [lia|]. cbn [trailing_zeros_fuel].
  destruct (Z.eq_dec j 0) as [->|Hj0].
  - rewrite Z.mul_1_l, Z.odd_add, Z.odd_mul. done.
  - replace (2 ^ j * (1 + 2 * k)) with (2 * (2 ^ (j - 1) * (1 + 2 * k))).
    + rewrite Z.odd_mul. cbn [Z.odd andb]. rewrite Z.mul_comm, Z.div_mul by lia.
      rewrite IH by lia. lia.
    + rewrite Z.mul_assoc, <- Z.pow_succ_r by lia. do 2 f_equal. lia.
Qed.

Lemma position_app p l k :
  position p (l ++ k) = match position p l with
                        | Some i => Some i
                        | None => (λ i, zlen l + i) <$> position p k
                        end.
Proof.
  induction l as [|x l IH]; cbn [app position].
  - change (zlen []) with 0. by destruct (position p k).
  - destruct (p x); [done|]. rewrite IH. destruct (position p l); [done|].
    destruct (position p k); [|done]. simpl. f_equal. unfold zlen. cbn [length]. lia.
Qed.

Lemma find_in_chunks_spec a b offset recs tail :
  Forall (λ r, length r = 8%nat) recs →
  find_in_chunks a b offset recs tail
  = (λ i, offset + i) <$> position (either a b) (concat recs ++ tail).
Proof.
  intros Hr. revert offset. induction Hr as [|r recs Hr _ IH]; intros offset; [done|].
  cbn [find_in_chunks concat]. cbn zeta. rewrite <- app_assoc, position_app.
  pose proof (combined_mask r a b) as Hm. unfold xored in Hm. rewrite Hr in Hm.
  unfold word_at. rewrite (zero_byte_mask_8 (Z.lxor _ (repeat_byte a))),
    (zero_byte_mask_8 (Z.lxor _ (repeat_byte b))), !repeat_byte_8. cbn zeta in Hm.
  destruct (position (either a b) r) as [i|].
  - destruct Hm as (Hi & k & Hk & ->). unfold zlen in Hi. rewrite Hr in Hi.
    rewrite (proj2 (Z.eqb_neq _ 0)).
    + cbn [negb fmap option_fmap option_map]. unfold trailing_zeros.
      rewrite trailing_zeros_fuel_spec by lia. do 2 f_equal.
      rewrite Z.mul_comm, Z.div_add_l by lia. change (7 / 8) with 0. lia.
    + assert (0 < 2 ^ (8 * i + 7)) by (apply Z.pow_pos_nonneg; lia). nia.
  - rewrite Hm. cbn [Z.eqb negb]. rewrite IH. unfold zlen. rewrite Hr.
    destruct (position _ (concat recs ++ tail)); [|done]. simpl. f_equal. lia.
Qed.

Lemma find_either_position l a b : find_either l a b = position (either a b) l.
Proof.
  destruct (records_decomp 8 l) as (recs & tail & -> & Hr & _ & Ht); [lia|].
  assert (Forall (λ r, length r = 8%nat) recs) as Hr'.
  { eapply Forall_impl; [exact Hr|]. unfold zlen. simpl. lia. }
  unfold find_either. rewrite as_chunks_concat; [|lia|done|unfold zlen in Ht; lia].
  rewrite find_in_chunks_spec by done. by destruct (position _ _).
Qed.

(** The word-at-a-time search agrees with the byte-at-a-time one on every
    input: it returns the first index that holds either byte, also when both
    bytes occur in one word and when the borrow of the subtraction marks bytes
    above the match. *)
Lemma find_either_naive l a b :
  find_either l a b = position (λ x, byteb x a || byteb x b) l.
Proof. apply find_either_position. Qed.

Lemma position_ext p q l : (∀ x, p x = q x) → position p l = position q l.
Proof. intros H. induction l as [|x l IH]; simpl; [done|]. by rewrite H, IH. Qed.

Lemma find_byte_position l c : find_byte l c = position (λ x, byteb x c) l.
Proof.
  unfold find_byte. rewrite find_either_position. apply position_ext. intros x.
  unfold either. apply orb_diag.
Qed.

Lemma position_Some p l i :
  position p l = Some i →
  ∃ pre x post, l = pre ++ x :: post ∧ i = zlen pre ∧ p x = true ∧ Forall (λ y, p y = false) pre.
Proof.
  revert i. induction l as [|y l IH]; intros i; simpl; [done|].
  destruct (p y) eqn:E.
  - intros [= <-]. by exists [], y, l.
  - destruct (position p l) as [j|]; [|done]. intros [= <-].
    destruct (IH j eq_refl) as (pre & x & post & -> & -> & Hx & Hpre).
    exists (y :: pre), x, post. unfold zlen. cbn [length]. repeat split; auto; lia.
Qed.

Lemma position_None p l : position p l = None → Forall (λ y, p y = false) l.
Proof.
  induction l as [|y l IH]; simpl; [constructor|]. destruct (p y) eqn:E; [done|].
  destruct (position p l); [done|]. auto.
Qed.

Lemma position_here p pre x post :
  Forall (λ y, p y = false) pre → p x = true → position p (pre ++ x :: post) = Some (zlen pre).
Proof.
  intros Hpre Hx. rewrite position_app.
  assert (position p pre = None) as ->.
  { induction Hpre as [|y l Hy _ IH]; [done|]. simpl. by rewrite Hy, IH. }
  simpl. rewrite Hx. simpl. f_equal. lia.
Qed.

(** ** The key search *)

Lemma find_too_short p s : zlen s < zlen p → find p s = None.
Proof.
  intros H. destruct (find p s) as [i|] eqn:E; [|done].
  apply find_Some in E as (? & ? & _). lia.
Qed.

Lemma find_absent c p s : Forall (λ y, byteb y c = false) s → find (c :: p) s = None.
Proof.
  intros Hs. destruct (find (c :: p) s) as [i|] eqn:E; [|done].
  apply find_Some in E as (_ & _ & Hst). apply starts_with_true in Hst as [r Hr].
  assert (c ∈ s) as Hin.
  { rewrite <- (take_drop (Z.to_nat i) s), Hr. apply elem_of_app. right. apply list_elem_of_here. }
  rewrite Forall_forall in Hs. specialize (Hs _ Hin). cbn in Hs. by rewrite byteb_refl in Hs.
Qed.

Lemma find_cons p b s :
  find p (b :: s) = if starts_with p (b :: s) then Some 0 else (λ i, i + 1) <$> find p s.
Proof. cbn [find]. destruct (starts_with p (b :: s)); [done|]. by destruct (find p s). Qed.

(** Comparing a word and a byte is comparing with the key. *)
Lemma key_here s : zlen KEY <= zlen s →
  (word_at (take 8 s) =? word_at (take 8 KEY)) && byteb (nth 8 s Byte.x00) quote_char
  = starts_with KEY s.
Proof.
  intros Hs. destruct (starts_with KEY s) eqn:E.
  - apply starts_with_true in E as [r ->]. done.
  - apply andb_false_iff. destruct (Z.eqb_spec (word_at (take 8 s)) (word_at (take 8 KEY))) as [Hw|];
      [right|by left].
    apply le_Z_inj in Hw; [|rewrite !length_take; unfold zlen in Hs; change (length KEY) with 9%nat in *; lia].
    destruct (byteb (nth 8 s Byte.x00) quote_char) eqn:Eb; [|done]. exfalso.
    apply byteb_true in Eb.
    rewrite <- (take_drop 8 s), Hw in E. unfold zlen in Hs. change (length KEY) with 9%nat in Hs.
    assert (drop 8 s = quote_char :: drop 9 s) as Hd.
    { do 8 (destruct s as [|? s]; [cbn in Hs; lia|]). destruct s as [|x s]; [cbn in Hs; lia|].
      cbn in Eb |- *. by rewrite Eb. }
    rewrite Hd in E. change (take 8 KEY ++ quote_char :: drop 9 s) with (KEY ++ drop 9 s) in E.
    by rewrite starts_with_app in E.
Qed.

Lemma find_key_skip pre t : quote_char ∉ pre →
  find KEY (pre ++ t) = match find KEY t with Some i => Some (zlen pre + i) | None => None end.
Proof. exact (find_skip quote_char (tail KEY) pre t). Qed.

Lemma key_loop_spec fuel w from :
  zlen KEY <= zlen w → 0 <= from → zlen w - from < Z.of_nat fuel →
  key_loop fuel w (zlen w - zlen KEY) from = (λ i, from + i) <$> find KEY (drop (Z.to_nat from) w).
Proof.
  intros Hw. revert from. induction fuel as [|fuel IH]; intros from Hf Hfuel; cbn [key_loop].
  - rewrite find_too_short; [done|]. unfold zlen in *. rewrite length_drop.
    change (length KEY) with 9%nat in *. lia.
  - set (u := drop (Z.to_nat from) w).
    assert (from <= zlen w → zlen u = zlen w - from) as Hu
      by (unfold u, zlen; rewrite length_drop; lia).
    destruct (Z.leb_spec from (zlen w - zlen KEY)) as [Hle|Hgt].
    2: { rewrite find_too_short; [done|]. unfold u, zlen in *. rewrite length_drop.
         change (length KEY) with 9%nat in *. lia. }
    specialize (Hu ltac:(pose proof (zlen_nonneg KEY); lia)). rewrite find_byte_position.
    destruct (position _ u) as [i|] eqn:Ep.
    2: { apply position_None in Ep. change KEY with (quote_char :: tail KEY).
         by rewrite find_absent. }
    apply position_Some in Ep as (pre & x & post & Hsplit & -> & Hx & Hpre).
    apply byteb_true in Hx as ->.
    assert (quote_char ∉ pre) as Hq.
    { intros Hin. rewrite Forall_forall in Hpre. specialize (Hpre _ Hin). cbn in Hpre.
      by rewrite byteb_refl in Hpre. }
    rewrite Hsplit, find_key_skip by done.
    assert (drop (Z.to_nat (from + zlen pre)) w = quote_char :: post) as Hdrop.
    { pose proof (zlen_nonneg pre). rewrite Z2Nat.inj_add, <- drop_drop by lia. fold u.
      rewrite Hsplit. by apply drop_zlen_app. }
    assert (zlen (quote_char :: post) = zlen w - from - zlen pre) as Hpl.
    { rewrite Hsplit, zlen_app in Hu. lia. }
    destruct (Z.ltb_spec (zlen w - zlen KEY) (from + zlen pre)) as [Hlt|Hge].
    { rewrite find_too_short by lia. done. }
    rewrite Hdrop.
    replace (nth (Z.to_nat (from + zlen pre + 8)) w Byte.x00)
      with (nth 8 (quote_char :: post) Byte.x00).
    2: { pose proof (zlen_nonneg pre). rewrite <- Hdrop, nth_skipn. f_equal. lia. }
    rewrite key_here, find_cons by lia. destruct (starts_with KEY (quote_char :: post)).
    { simpl. f_equal. lia. }
    pose proof (zlen_nonneg pre). rewrite IH by lia.
    replace (drop (Z.to_nat (from + zlen pre + 1)) w) with post.
    2: { rewrite Z2Nat.inj_add, <- drop_drop, Hdrop by lia. done. }
    destruct (find KEY post); [|done]. simpl. f_equal. lia.
Qed.

Lemma find_control_key_find window : find_control_key window = find KEY window.
Proof.
  unfold find_control_key. destruct (Z.ltb_spec (zlen window) (zlen KEY)) as [Hs|Hs].
  - by rewrite find_too_short.
  - rewrite key_loop_spec by (unfold zlen in *; lia).
    change (drop (Z.to_nat 0) window) with window. by destruct (find KEY window).
Qed.

(** Jumping from quote to quote finds the key exactly where a search at
    every offset does, and nothing when that does not, for every window. *)
Lemma find_control_key_naive window : find_control_key window = find KEY window.
Proof. apply find_control_key_find. Qed.

(** ** The value *)

(** [p] is a document whose first control key, within the first 512 bytes, has
    the plain string value [s]. *)
Definition control_field (p s : bytes) : Prop :=
  ∃ pre mid ws rest,
    p = pre ++ KEY ++ mid ++ [colon_char] ++ ws ++ [quote_char] ++ s ++ [quote_char] ++ rest
    ∧ find KEY (take (Z.to_nat CONTROL_KEY_SCAN_LIMIT) p) = Some (zlen pre)
    ∧ (colon_char ∉ mid)
    ∧ Forall (λ b, is_ascii_whitespace b = true) ws
    ∧ Forall (λ b, either quote_char backslash b = false) s
    ∧ zlen s < CONTROL_VALUE_LIMIT
    ∧ utf8_valid s = true.

Lemma take_min_zlen {A} (l : list A) n : take (Z.to_nat (Z.min (zlen l) n)) l = take (Z.to_nat n) l.
Proof.
  unfold zlen. destruct (Z.le_gt_cases (Z.of_nat (length l)) n).
  - rewrite Z.min_l by lia. rewrite !take_ge by lia. done.
  - by rewrite Z.min_r by lia.
Qed.

Lemma find_take_split p n k :
  find KEY (take n p) = Some k → ∃ pre rest, p = pre ++ KEY ++ rest ∧ k = zlen pre.
Proof.
  intros E. apply find_Some in E as (Hk & Hl & Hs). apply starts_with_true in Hs as [r Hr].
  exists (take (Z.to_nat k) (take n p)), (r ++ drop n p). split.
  - rewrite (app_assoc KEY), <- Hr, app_assoc, take_drop. by rewrite take_drop.
  - unfold zlen in *. rewrite length_take. lia.
Qed.

Lemma not_elem_Forall c l : c ∉ l ↔ Forall (λ y, byteb y c = false) l.
Proof.
  rewrite Forall_forall. split.
  - intros H x Hx. apply byteb_neq. by intros ->.
  - intros H Hin. specialize (H _ Hin). cbn in H. by rewrite byteb_refl in H.
Qed.

(** Skipping [n + 1] bytes after a position. *)
Lemma drop_after {A} (pre : list A) x post :
  drop (Z.to_nat (zlen pre + 1)) (pre ++ x :: post) = post.
Proof.
  rewrite Z2Nat.inj_add by (auto with lox; lia). rewrite <- drop_drop, drop_zlen_app by done. done.
Qed.

Lemma nth_at (pre : bytes) x post : nth (Z.to_nat (zlen pre)) (pre ++ x :: post) Byte.x00 = x.
Proof. unfold zlen. rewrite Nat2Z.id. by rewrite nth_middle. Qed.

(** What happens behind the key. *)
Definition after_key_scan (after_key : bytes) : option bytes :=
  colon ← find_byte after_key colon_char;
  let after_colon := drop (Z.to_nat (colon + 1)) after_key in
  quote ← position (λ b, negb (is_ascii_whitespace b)) after_colon;
  if negb (byteb (nth (Z.to_nat quote) after_colon Byte.x00) quote_char) then None
  else
    let value := drop (Z.to_nat (quote + 1)) after_colon in
    let value := take (Z.to_nat (Z.min (zlen value) CONTROL_VALUE_LIMIT)) value in
    end_ ← find_either value quote_char backslash;
    if negb (byteb (nth (Z.to_nat end_) value Byte.x00) quote_char) then None
    else
      let text := take (Z.to_nat end_) value in
      if utf8_valid text then Some text else None.

Lemma extract_after_key p :
  extract_ll_control p =
    match find KEY (take (Z.to_nat CONTROL_KEY_SCAN_LIMIT) p) with
    | Some k => after_key_scan (drop (Z.to_nat (k + zlen KEY)) p)
    | None => None
    end.
Proof.
  unfold extract_ll_control. rewrite take_min_zlen, find_control_key_find.
  by destruct (find KEY _).
Qed.

Lemma after_key_scan_Some t s :
  after_key_scan t = Some s →
  ∃ mid ws rest,
    t = mid ++ [colon_char] ++ ws ++ [quote_char] ++ s ++ [quote_char] ++ rest
    ∧ (colon_char ∉ mid) ∧ Forall (λ b, is_ascii_whitespace b = true) ws
    ∧ Forall (λ b, either quote_char backslash b = false) s
    ∧ zlen s < CONTROL_VALUE_LIMIT ∧ utf8_valid s = true.
Proof.
  unfold after_key_scan. rewrite find_byte_position.
  destruct (position (λ x, byteb x colon_char) t) as [i|] eqn:Ec; [|done]. cbn [mbind option_bind].
  apply position_Some in Ec as (mid & x & post & -> & -> & Hx & Hmid).
  apply byteb_true in Hx as ->. rewrite drop_after.
  destruct (position _ post) as [j|] eqn:Ej; [|done]. cbn [mbind option_bind].
  apply position_Some in Ej as (ws & q & value & -> & -> & _ & Hws). rewrite nth_at.
  destruct (byteb q quote_char) eqn:Eq; [|done]. apply byteb_true in Eq as ->. cbn [negb].
  rewrite drop_after, take_min_zlen, find_either_position.
  destruct (position _ (take _ value)) as [e|] eqn:Ee; [|done]. cbn [mbind option_bind].
  apply position_Some in Ee as (body & y & post & Hsplit & -> & _ & Hbody).
  rewrite Hsplit, nth_at. destruct (byteb y quote_char) eqn:Ey; [|done].
  apply byteb_true in Ey as ->. cbn [negb]. rewrite take_zlen_app by done.
  destruct (utf8_valid body) eqn:Eu; [|done]. intros [= <-].
  exists mid, ws, (post ++ drop (Z.to_nat CONTROL_VALUE_LIMIT) value).
  repeat split; auto.
  - do 4 f_equal. rewrite <- (take_drop (Z.to_nat CONTROL_VALUE_LIMIT) value) at 1.
    rewrite Hsplit. by rewrite <- app_assoc.
  - by apply not_elem_Forall.
  - eapply Forall_impl; [exact Hws|]. simpl. intros b. by destruct (is_ascii_whitespace b).
  - apply (f_equal length) in Hsplit. rewrite length_take, length_app in Hsplit.
    unfold zlen. cbn [length] in Hsplit. lia.
Qed.

Lemma after_key_scan_complete mid ws s rest :
  (colon_char ∉ mid) → Forall (λ b, is_ascii_whitespace b = true) ws →
  Forall (λ b, either quote_char backslash b = false) s →
  zlen s < CONTROL_VALUE_LIMIT → utf8_valid s = true →
  after_key_scan (mid ++ [colon_char] ++ ws ++ [quote_char] ++ s ++ [quote_char] ++ rest) = Some s.
Proof.
  intros Hmid Hws Hs Hl Hu. unfold after_key_scan. rewrite find_byte_position. cbn [app].
  rewrite position_here; [|by apply not_elem_Forall|apply byteb_refl]. cbn [mbind option_bind].
  rewrite drop_after. rewrite position_here; [| |done].
  2: { eapply Forall_impl; [exact Hws|]. intros b Hb. cbn in *. by rewrite Hb. }
  cbn [mbind option_bind]. rewrite nth_at, byteb_refl. cbn [negb].
  rewrite drop_after, take_min_zlen, find_either_position.
  assert (take (Z.to_nat CONTROL_VALUE_LIMIT) (s ++ quote_char :: rest)
          = s ++ quote_char :: take (Z.to_nat CONTROL_VALUE_LIMIT - length s - 1) rest) as ->.
  { unfold zlen in Hl. rewrite take_app, take_ge by lia. f_equal.
    destruct (Z.to_nat CONTROL_VALUE_LIMIT - length s)%nat eqn:E; [lia|].
    cbn [take]. do 2 f_equal. lia. }
  rewrite position_here; [|done|done]. cbn [mbind option_bind].
  rewrite nth_at, byteb_refl. cbn [negb]. rewrite take_zlen_app by done. by rewrite Hu.
Qed.

(** [C38] The cheap scan is exact: it returns [s] exactly when the payload's first
    control key lies within the first 512 bytes and its value is the string [s],
    of fewer than 8192 bytes of valid UTF-8 without escapes. In every other case
    it returns [None], and it never reads out of bounds. *)
Theorem extract_ll_control_exact p s :
  extract_ll_control p = Some s ↔ control_field p s.
Proof.
  rewrite extract_after_key. split.
  - destruct (find KEY _) as [k|] eqn:E; [|done].
    destruct (find_take_split p _ k E) as (pre & t & Hp & ->). rewrite Hp at 1.
    rewrite app_assoc, drop_zlen_app by (by rewrite zlen_app).
    intros (mid & ws & rest & -> & Hmid & Hws & Hs & Hl & Hu)%after_key_scan_Some.
    exists pre, mid, ws, rest. rewrite <- Hp. repeat split; auto.
  - intros (pre & mid & ws & rest & Hp & -> & Hmid & Hws & Hs & Hl & Hu).
    rewrite Hp at 1. rewrite app_assoc, drop_zlen_app by (by rewrite zlen_app).
    by apply after_key_scan_complete.
Qed.
