(* ===== verification/Pending.v ===== *)
(** * client/pending.rs: the queue of outstanding commands, and client/visu.rs

    A oneshot sender is an identifier; what is sent on it is recorded in the list
    of deliveries an operation returns. [Instant]s are integers. *)

From Stdlib Require Import Sorting.Sorted.
From S2P Require Import Prelude RustStr External Models Errors Session Crypto Auth Scan.

(** ** Commands and their verbs *)

(** [s.split('/').take(n)], joined again: the loop adds up the lengths. *)
Definition take_segments (s : bytes) (n : nat) : bytes :=
  let end_ := fold_left (λ '(i, e) seg, ((i + 1)%nat, (if (0 <? i)%nat then e + 1 else e) + zlen seg))
                (take n (split slash s)) (0%nat, 0) in
  take (Z.to_nat (Z.min (snd end_) (zlen s))) s.

Definition letter_j : byte := Byte.x6a.

Definition canonical (cmd : bytes) : bytes :=
  let s := trim_end_matches nul (trim cmd) in
  let s := default s (strip_prefix [slash] s) in
  match strip_prefix [letter_j] s with
  | Some rest => if starts_with (bs "dev/") rest then rest else s
  | None => s
  end.

Definition verb (cmd : bytes) : bytes :=
  let s := canonical cmd in
  let segments := if starts_with (bs "dev/") s then 3%nat else 1%nat in
  take_segments s segments.

Definition control_matches (control plaintext_cmd : bytes) : bool :=
  bool_decide (verb control = verb plaintext_cmd).

Definition cmd_label (cmd : bytes) : bytes :=
  let segments := if starts_with (bs "jdev/") cmd || starts_with (bs "dev/") cmd
                  then 3%nat else 1%nat in
  take_segments cmd segments.

(** ** The queue *)

Abbreviation Sender := nat.
Abbreviation Delivery := (nat * result Error (list Byte.byte))%type.

Record PendingEntry := {
  plaintext_cmd : bytes;
  wire_cmd : bytes;
  resp : option Sender;
  deadline : Z;
}.

Record Resolved := {
  r_plaintext_cmd : bytes;
  r_resp : option Sender;
  matched : bool;
  actual : option bytes;
}.

Record PendingQueue := {
  entries : list PendingEntry;
  mismatches : Z;
  unsolicited : Z;
  timeouts : Z;
}.
Definition new_queue : PendingQueue :=
  {| entries := []; mismatches := 0; unsolicited := 0; timeouts := 0 |}.

Definition queue_len (q : PendingQueue) : Z := zlen (entries q).
Definition next_deadline (q : PendingQueue) : option Z := deadline <$> head (entries q).

Definition push (cmd wire : bytes) (resp : option Sender) (deadline : Z) (q : PendingQueue) :
    PendingQueue :=
  {| entries := entries q ++ [{| plaintext_cmd := cmd; wire_cmd := wire; resp := resp;
                                 deadline := deadline |}];
     mismatches := mismatches q; unsolicited := unsolicited q; timeouts := timeouts q |}.

Definition note_unsolicited (q : PendingQueue) : PendingQueue :=
  {| entries := entries q; mismatches := mismatches q; unsolicited := unsolicited q + 1;
     timeouts := timeouts q |}.

(** The [while let Some(front)] loop of [expire]. *)
Fixpoint expire_loop (now : Z) (es : list PendingEntry) : list PendingEntry * list Delivery * Z :=
  match es with
  | [] => ([], [], 0)
  | front :: es' =>
      if now <? deadline front then (es, [], 0)
      else
        let '(rest, out, n) := expire_loop now es' in
        (rest,
         match resp front with
         | Some tx => [(tx, Err (Timeout (bs "no response to " ++ cmd_label (plaintext_cmd front))))]
         | None => []
         end ++ out,
         n + 1)
  end.

Definition expire (now : Z) (q : PendingQueue) : PendingQueue * list Delivery * Z :=
  let '(rest, out, n) := expire_loop now (entries q) in
  ({| entries := rest; mismatches := mismatches q; unsolicited := unsolicited q;
      timeouts := timeouts q + n |}, out, n).

Definition fail_all (reason : bytes) (q : PendingQueue) : PendingQueue * list Delivery * Z :=
  ({| entries := []; mismatches := mismatches q; unsolicited := unsolicited q;
      timeouts := timeouts q |},
   concat (map (λ e, match resp e with Some tx => [(tx, Err (Closed reason))] | None => [] end)
             (entries q)),
   zlen (entries q)).

Section resolve.
Context {U : Utf8Text} {A : AesCbc} {B : Base64} {P : PercentDecode}.

Definition decode_control (control : bytes) (keys : SessionKeys) : option bytes :=
  if contains CMD_ENCRYPT control then
    plain ← res_ok (decrypt_control_response keys control);
    Some (strip_salt_prefix plain)
  else Some control.

Definition resolve (control : option bytes) (keys : SessionKeys) (q : PendingQueue) :
    option Resolved * PendingQueue :=
  match entries q with
  | [] => (None, q)
  | entry :: es =>
      let '(ok, decoded) :=
        match control with
        | None => (true, None)
        | Some ctrl =>
            if bool_decide (canonical ctrl = canonical (wire_cmd entry)) then (true, None)
            else
              let decoded := decode_control ctrl keys in
              (match decoded with
               | Some plain => control_matches plain (plaintext_cmd entry)
               | None => false
               end, decoded)
        end in
      (Some {| r_plaintext_cmd := plaintext_cmd entry; r_resp := resp entry;
               matched := ok; actual := decoded |},
       {| entries := es;
          mismatches := if ok then mismatches q else mismatches q + 1;
          unsolicited := unsolicited q; timeouts := timeouts q |})
  end.
End resolve.

(** ** visu.rs *)

Record VisuPending := { v_uuid : bytes; v_value : bytes; visu_pw : bytes }.
Definition VisuQueue : Type := list VisuPending.

Definition visu_push (item : VisuPending) (q : VisuQueue) : VisuQueue :=
  (match q with [] => q | _ :: q => q end) ++ [item].
Definition visu_drain (q : VisuQueue) : VisuQueue * list VisuPending := ([], q).

(** ** Labels *)

Lemma split_app c l r : c ∉ l → split c (l ++ c :: r) = l :: split c r.
Proof.
  induction l as [|b l IH]; intros Hc; cbn [app split]; [by rewrite byteb_refl|].
  apply not_elem_of_cons in Hc as [Hb Hl]. rewrite byteb_neq by congruence. by rewrite IH.
Qed.

Lemma split_last_segment c l : c ∉ l → split c l = [l].
Proof.
  induction l as [|b l IH]; intros Hc; [done|]. cbn [split].
  apply not_elem_of_cons in Hc as [Hb Hl]. rewrite byteb_neq by congruence. by rewrite IH.
Qed.

Lemma take_segments_1 a r : slash ∉ a → take_segments (a ++ slash :: r) 1 = a.
Proof.
  intros Ha. unfold take_segments. rewrite split_app by done. cbn [firstn fold_left]. rewrite take_0. cbn [fold_left fst snd].
  change (0 <? 0)%nat with false. rewrite zlen_app. pose proof (zlen_nonneg (slash :: r)).
  rewrite Z.min_l by lia. apply take_zlen_app. lia.
Qed.

Lemma take_segments_3 a b c r :
  (slash ∉ a) → (slash ∉ b) → (slash ∉ c) →
  take_segments (a ++ slash :: b ++ slash :: c ++ slash :: r) 3 = a ++ slash :: b ++ slash :: c.
Proof.
  intros Ha Hb Hc. unfold take_segments. rewrite !split_app by done.
  cbn [firstn fold_left]. rewrite take_0. cbn [fold_left fst snd]. change (0 <? 0)%nat with false. change (0 <? 0 + 1)%nat with true.
  change (0 <? 0 + 1 + 1)%nat with true. cbn iota.
  replace (a ++ slash :: b ++ slash :: c ++ slash :: r)
    with ((a ++ slash :: b ++ slash :: c) ++ slash :: r) by (by app_norm).
  assert (0 + zlen a + 1 + zlen b + 1 + zlen c = zlen (a ++ slash :: b ++ slash :: c)) as ->.
  { unfold zlen. rewrite !length_app. cbn [length]. rewrite !length_app. cbn [length]. lia. }
  rewrite (zlen_app _ (slash :: r)). pose proof (zlen_nonneg (slash :: r)).
  rewrite Z.min_l by lia. by apply take_zlen_app.
Qed.

(** A command of three literal segments and an argument. *)
Lemma label_3 (a b c : bytes) arg :
  (slash ∉ a) → (slash ∉ b) → (slash ∉ c) → a = bs "jdev" →
  cmd_label ((a ++ [slash] ++ b ++ [slash] ++ c ++ [slash]) ++ arg)
  = a ++ [slash] ++ b ++ [slash] ++ c.
Proof.
  intros Ha Hb Hc ->. unfold cmd_label.
  change (starts_with (bs "jdev/") ((bs "jdev" ++ [slash] ++ b ++ [slash] ++ c ++ [slash]) ++ arg))
    with true. cbn [orb]. app_norm. by apply (take_segments_3 (bs "jdev")).
Qed.

Ltac no_slash := apply (bool_decide_unpack _); vm_compute; exact I.

(** The label of a command, which is what logs and timeout errors show, does
    not depend on its arguments: for every command that carries a credential
    hash, a token hash or a visualisation hash, whatever the hash and the rest,
    only the verb is left. *)
Lemma cmd_label_hides_secrets h u p i n rest :
  cmd_label (cmd_request_token h u p i n) = bs "jdev/sys/getjwt"
  ∧ cmd_label (cmd_auth_with_token h u) = bs "authwithtoken"
  ∧ cmd_label (cmd_refresh_token h u) = bs "jdev/sys/refreshjwt"
  ∧ cmd_label (cmd_check_token h u) = bs "jdev/sys/checktoken"
  ∧ cmd_label (cmd_kill_token h u) = bs "jdev/sys/killtoken"
  ∧ cmd_label (bs "jdev/sps/ios/" ++ h ++ rest) = bs "jdev/sps/ios".
Proof.
  split; [|split; [|split; [|split; [|split]]]].
  - apply (label_3 (bs "jdev") (bs "sys") (bs "getjwt")); [no_slash..|done].
  - exact (take_segments_1 (bs "authwithtoken") (h ++ [slash] ++ u) ltac:(no_slash)).
  - apply (label_3 (bs "jdev") (bs "sys") (bs "refreshjwt")); [no_slash..|done].
  - apply (label_3 (bs "jdev") (bs "sys") (bs "checktoken")); [no_slash..|done].
  - apply (label_3 (bs "jdev") (bs "sys") (bs "killtoken")); [no_slash..|done].
  - apply (label_3 (bs "jdev") (bs "sps") (bs "ios")); [no_slash..|done].
Qed.

(** ** Answers in order *)

Section order.
Context {U : Utf8Text} {A : AesCbc} {B : Base64} {P : PercentDecode}.

(** What happens to the queue of one connection. [Answer] is an incoming type-0
    payload with its control field: the waiter that is resolved gets it. *)
Inductive op :=
| Push (cmd wire : bytes) (resp : option Sender) (deadline : Z)
| Answer (control : option bytes) (payload : bytes)
| Expire (now : Z)
| FailAll (reason : bytes).

Definition queue_step (keys : SessionKeys) (o : op) (q : PendingQueue) :
    PendingQueue * list Delivery :=
  match o with
  | Push cmd wire tx d => (push cmd wire tx d q, [])
  | Answer control payload =>
      match resolve control keys q with
      | (Some r, q) => (q, match r_resp r with Some tx => [(tx, Ok payload)] | None => [] end)
      | (None, q) => (note_unsolicited q, [])
      end
  | Expire now => let '(q, out, _) := expire now q in (q, out)
  | FailAll reason => let '(q, out, _) := fail_all reason q in (q, out)
  end.

Fixpoint queue_run (keys : SessionKeys) (ops : list op) (q : PendingQueue) :
    PendingQueue * list Delivery :=
  match ops with
  | [] => (q, [])
  | o :: ops =>
      let '(q, out) := queue_step keys o q in
      let '(q, out') := queue_run keys ops q in (q, out ++ out')
  end.

Definition waiting (es : list PendingEntry) : list Sender := omap resp es.
Definition pushed (ops : list op) : list Sender :=
  omap (λ o, match o with Push _ _ tx _ => tx | _ => None end) ops.

Lemma expire_loop_waiting now es :
  let '(rest, out, n) := expire_loop now es in waiting es = map fst out ++ waiting rest.
Proof using.
  induction es as [|e es IH]; [done|]. cbn [expire_loop].
  destruct (now <? deadline e); [done|].
  destruct (expire_loop now es) as [[rest out] n]. rewrite map_app. unfold waiting in *.
  cbn [omap list_omap]. rewrite IH. by destruct (resp e).
Qed.

Lemma fail_all_waiting reason q :
  let '(q', out, n) := fail_all reason q in map fst out = waiting (entries q) ∧ entries q' = [].
Proof using.
  cbn. split; [|done]. unfold waiting. induction (entries q) as [|e es IH]; [done|].
  cbn [map concat omap list_omap]. rewrite map_app, IH. by destruct (resp e).
Qed.

Lemma queue_step_waiting keys o q :
  let '(q', out) := queue_step keys o q in
  waiting (entries q) ++ pushed [o] = map fst out ++ waiting (entries q').
Proof using.
  destruct o as [cmd wire tx d|control payload|now|reason]; cbn [queue_step].
  - cbn [push entries map app]. unfold waiting. rewrite omap_app. done.
  - cbn [pushed omap list_omap]. rewrite app_nil_r. unfold resolve.
    destruct (entries q) as [|e es] eqn:E; [cbn; by rewrite E|].
    destruct (match control with Some _ => _ | None => _ end) as [ok dec]. cbn.
    by destruct (resp e).
  - cbn [pushed omap list_omap]. rewrite app_nil_r. unfold expire.
    pose proof (expire_loop_waiting now (entries q)) as H.
    by destruct (expire_loop now (entries q)) as [[rest out] n].
  - cbn [pushed omap list_omap]. rewrite app_nil_r.
    pose proof (fail_all_waiting reason q) as H. destruct (fail_all reason q) as [[q' out] n].
    destruct H as [-> ->]. by rewrite app_nil_r.
Qed.

Lemma queue_run_waiting keys ops q :
  let '(q', out) := queue_run keys ops q in
  waiting (entries q) ++ pushed ops = map fst out ++ waiting (entries q').
Proof using.
  revert q. induction ops as [|o ops IH]; intros q; [by rewrite app_nil_r|]. cbn [queue_run].
  pose proof (queue_step_waiting keys o q) as Hs. destruct (queue_step keys o q) as [q1 out1].
  specialize (IH q1). destruct (queue_run keys ops q1) as [q2 out2].
  rewrite map_app, <- (app_assoc (map fst out1)), <- IH, (app_assoc (map fst out1)), <- Hs.
  rewrite <- (app_assoc (waiting (entries q))). f_equal.
  unfold pushed. by rewrite <- omap_app.
Qed.

(** No waiter is lost, answered twice or overtaken: under any interleaving of
    commands, answers, timeouts and failures, the waiters that have been answered
    are, in order, the first ones that were registered, and the others are still
    queued; once the session fails its queue, every waiter has been answered
    exactly once. *)
Lemma waiters_answered_in_order keys ops reason :
  (let '(q, out) := queue_run keys ops new_queue in
   pushed ops = map fst out ++ waiting (entries q))
  ∧ (let '(q, out) := queue_run keys (ops ++ [FailAll reason]) new_queue in
     map fst out = pushed ops ∧ entries q = []).
Proof using.
  split; [apply (queue_run_waiting keys ops new_queue)|].
  assert (∀ q, entries (queue_run keys (ops ++ [FailAll reason]) q).1 = []) as Hempty.
  { induction ops as [|o ops IH]; intros q; [done|]. cbn [app queue_run].
    destruct (queue_step keys o q) as [q1 out1]. specialize (IH q1).
    by destruct (queue_run keys (ops ++ [FailAll reason]) q1). }
  specialize (Hempty new_queue).
  pose proof (queue_run_waiting keys (ops ++ [FailAll reason]) new_queue) as H.
  destruct (queue_run keys (ops ++ [FailAll reason]) new_queue) as [q out].
  cbn [fst] in Hempty. split; [|done]. rewrite Hempty, app_nil_r in H. rewrite <- H.
  unfold pushed. rewrite omap_app. by rewrite app_nil_r.
Qed.
End order.

(** ** Timeouts *)

Definition by_deadline (a b : PendingEntry) : Prop := deadline a <= deadline b.

Lemma expire_loop_split now es :
  let '(rest, out, n) := expire_loop now es in
  ∃ gone, es = gone ++ rest ∧ n = zlen gone
    ∧ Forall (λ e, deadline e <= now) gone
    ∧ (∀ e, head rest = Some e → now < deadline e)
    ∧ out = omap (λ e, (λ tx, (tx, Err (Timeout (bs "no response to " ++ cmd_label (plaintext_cmd e)))))
                         <$> resp e) gone.
Proof.
  induction es as [|e es IH]; [by exists []|]. cbn [expire_loop].
  destruct (Z.ltb_spec now (deadline e)) as [Hlt|Hge].
  - exists []. split; [done|]. split; [done|]. split; [constructor|]. split; [|done].
    by intros ? [= <-].
  - destruct (expire_loop now es) as [[rest out] n]. destruct IH as (gone & -> & -> & Hg & Hr & ->).
    exists (e :: gone). split; [done|]. split; [unfold zlen; cbn [length]; lia|].
    split; [by constructor|]. split; [done|]. cbn [omap list_omap]. by destruct (resp e).
Qed.

(** Every command shares one timeout, so the queue is sorted by deadline;
    then [expire] fails exactly the commands whose deadline has passed, each with
    a timeout that names only its verb, counts them, and leaves the others alone
    in their order. *)
Lemma expire_exact now q :
  StronglySorted by_deadline (entries q) →
  let '(q', out, n) := expire now q in
  entries q' = filter (λ e, now < deadline e) (entries q)
  ∧ out = omap (λ e, (λ tx, (tx, Err (Timeout (bs "no response to " ++ cmd_label (plaintext_cmd e)))))
                       <$> resp e)
            (filter (λ e, deadline e <= now) (entries q))
  ∧ n = zlen (filter (λ e, deadline e <= now) (entries q))
  ∧ timeouts q' = timeouts q + n.
Proof.
  intros Hs. unfold expire. pose proof (expire_loop_split now (entries q)) as H.
  destruct (expire_loop now (entries q)) as [[rest out] n].
  destruct H as (gone & He & -> & Hg & Hr & ->). cbn [entries timeouts]. rewrite He in Hs |- *.
  assert (Forall (λ e, now < deadline e) rest) as Hrest.
  { destruct rest as [|e rest]; [constructor|]. pose proof (Hr e eq_refl).
    assert (StronglySorted by_deadline (e :: rest)) as Hs'.
    { clear -Hs. induction gone as [|x gone IH]; [done|]. inversion Hs; auto. }
    inversion Hs' as [|? ? _ Hle]; subst. constructor; [done|].
    eapply Forall_impl; [exact Hle|]. unfold by_deadline. simpl. lia. }
  assert (filter (λ e, now < deadline e) (gone ++ rest) = rest
          ∧ filter (λ e, deadline e <= now) (gone ++ rest) = gone) as [-> ->]; [|done].
  rewrite !filter_app. split.
  - rewrite list_filter_none, list_filter_all; [done|done|].
    eapply Forall_impl; [exact Hg|]. simpl. lia.
  - rewrite list_filter_all, list_filter_none; [by rewrite app_nil_r| |done].
    eapply Forall_impl; [exact Hrest|]. simpl. lia.
Qed.

Definition sample_queue : PendingQueue :=
  push (bs "jdev/sys/getkey2/admin") (bs "w2") (Some 2%nat) 60
    (push (bs "jdev/sys/getjwt/SECRET/u") (bs "w1") (Some 1%nat) 30 new_queue).

Lemma expire_exact_witness :
  let '(q', out, n) := expire 45 sample_queue in
  entries q' = filter (λ e, 45 < deadline e) (entries sample_queue)
  ∧ out = [(1%nat, Err (Timeout (bs "no response to jdev/sys/getjwt")))] ∧ n = 1.
Proof.
  pose proof (expire_exact 45 sample_queue) as H.
  destruct (expire 45 sample_queue) as [[q' out] n] eqn:E.
  destruct H as (H1 & H2 & H3 & _).
  { repeat constructor; vm_compute; congruence. }
  rewrite H2, H3. split; [exact H1|]. split; vm_compute; reflexivity.
Defined.

(** ** The echo *)

Definition plain_byte (b : byte) : bool := (33 <=? u8 b) && (u8 b <=? 126).

Lemma strip_any_plain b t : plain_byte b = true → strip_any white_space (b :: t) = None.
Proof. destruct b; intros H; try (vm_compute in H; discriminate); reflexivity. Qed.

Lemma strip_any_rev_plain b t :
  is_ascii b = true → (plain_byte b = true ∨ b = nul) →
  strip_any (map (@rev byte) white_space) (b :: t) = None.
Proof.
  intros Ha Hb. destruct b; try (vm_compute in Ha; discriminate);
    try reflexivity; destruct Hb as [H|H]; (vm_compute in H; discriminate) || discriminate.
Qed.

Lemma strip_all_none ps n s : strip_any ps s = None → strip_all_fuel ps n s = s.
Proof. intros H. destruct n; [done|]. cbn [strip_all_fuel]. by rewrite H. Qed.

Lemma trim_plain a s z :
  plain_byte a = true → is_ascii z = true → (plain_byte z = true ∨ z = nul) →
  trim (a :: s ++ [z]) = a :: s ++ [z].
Proof.
  intros Ha Hz Hz'. unfold trim, trim_start.
  rewrite strip_all_none by by apply strip_any_plain.
  unfold trim_end. rewrite strip_all_none.
  - apply rev_involutive.
  - cbn [rev]. rewrite rev_app_distr. cbn [rev app]. by apply strip_any_rev_plain.
Qed.

(** The spellings of an echo: a leading slash, [dev] for [jdev], padding. *)
Inductive echo_of (w : bytes) : bytes → Prop :=
| echo_verbatim n : echo_of w (w ++ replicate n nul)
| echo_slash n : echo_of w ([slash] ++ w ++ replicate n nul)
| echo_dev rest n : w = [letter_j] ++ rest → echo_of w (rest ++ replicate n nul)
| echo_slash_dev rest n : w = [letter_j] ++ rest → echo_of w ([slash] ++ rest ++ replicate n nul).

Lemma trim_padded a s n :
  plain_byte a = true → Forall (λ b, plain_byte b = true) s →
  trim_end_matches nul (trim (a :: s ++ replicate n nul)) = a :: s.
Proof.
  intros Ha Hs.
  assert (last (a :: s) ≠ Some nul) as Hlast.
  { intros E. apply last_Some_elem_of, elem_of_cons in E as [<-|E]; [done|].
    rewrite Forall_forall in Hs. specialize (Hs _ E). done. }
  destruct n as [|n].
  - cbn [replicate]. rewrite app_nil_r. destruct s as [|z s _] using rev_ind.
    + unfold trim, trim_start. rewrite strip_all_none by by apply strip_any_plain.
      unfold trim_end. cbn [rev app]. rewrite strip_all_none.
      * by apply trim_end_matches_id.
      * apply strip_any_rev_plain; [|by left]. revert Ha. unfold plain_byte, is_ascii. zbool; done.
    + apply Forall_app in Hs as [_ Hz]. inversion Hz as [|? ? Hz' _]; subst.
      rewrite trim_plain; [by apply trim_end_matches_id|done| |by left].
      revert Hz'. unfold plain_byte, is_ascii. zbool; done.
  - rewrite replicate_S_end, app_assoc, trim_plain by auto.
    rewrite <- app_assoc, <- replicate_S_end. change (a :: s ++ ?t) with ((a :: s) ++ t).
    rewrite trim_end_matches_pad. by apply trim_end_matches_id.
Qed.

Lemma canonical_echo body e :
  Forall (λ b, plain_byte b = true) body →
  echo_of (bs "jdev/" ++ body) e → canonical e = bs "dev/" ++ body.
Proof.
  intros Hb He.
  assert (Forall (λ b, plain_byte b = true) (bs "ev/" ++ body)) as H1
    by (apply Forall_app; split; [repeat constructor|done]).
  assert (Forall (λ b, plain_byte b = true) (bs "dev/" ++ body)) as H2
    by (apply Forall_app; split; [repeat constructor|done]).
  assert (Forall (λ b, plain_byte b = true) (bs "jdev/" ++ body)) as H3
    by (apply Forall_app; split; [repeat constructor|done]).
  assert (∀ rest, bs "jdev/" ++ body = [letter_j] ++ rest → rest = bs "dev/" ++ body) as Hrest.
  { intros rest E. by apply (app_inv_head [letter_j]) in E. }
  destruct He as [n|n|rest n Hw|rest n Hw]; try apply Hrest in Hw as ->; unfold canonical.
  - change ((bs "jdev/" ++ body) ++ replicate n nul)
      with (letter_j :: (bs "dev/" ++ body) ++ replicate n nul).
    by rewrite trim_padded.
  - change ([slash] ++ (bs "jdev/" ++ body) ++ replicate n nul)
      with (slash :: (bs "jdev/" ++ body) ++ replicate n nul).
    by rewrite trim_padded.
  - change ((bs "dev/" ++ body) ++ replicate n nul)
      with (Byte.x64 :: (bs "ev/" ++ body) ++ replicate n nul).
    by rewrite trim_padded.
  - change ([slash] ++ (bs "dev/" ++ body) ++ replicate n nul)
      with (slash :: (bs "dev/" ++ body) ++ replicate n nul).
    by rewrite trim_padded.
Qed.

Section echo.
Context {U : Utf8Text} {A : AesCbc} {B : Base64} {X : Hex} {P : PercentDecode}.
Context {AL : AesCbcLaws} {BL : Base64Laws} {XL : HexLaws} {PL : PercentDecodeLaws}.

Lemma escaped_plain b : is_b64 b = true → Forall (λ c, plain_byte c = true) (escaped b).
Proof using. destruct b; intros H; try (vm_compute in H; discriminate); repeat constructor. Qed.

Lemma encrypt_wire d k cmd st wire :
  wf_keys k → (encrypt d k cmd st).2 = Ok wire →
  ∃ body, wire = bs "jdev/" ++ body ∧ Forall (λ b, plain_byte b = true) body.
Proof using AL BL.
  intros Hk. destruct (encrypt_spec d k cmd st Hk) as (c & _ & _ & ->). cbn [snd].
  intros [= <-]. exists (bs "sys/enc/" ++ concat (map escaped (b64_encode c))).
  split; [done|]. apply Forall_app. split; [repeat constructor|].
  pose proof (b64_encode_alphabet c) as Hb.
  induction Hb as [|b l Hb _ IH]; [constructor|]. cbn [map concat].
  apply Forall_app. split; [by apply escaped_plain|done].
Qed.

Lemma decode_own d k cmd st sv wire :
  wf_keys k → in_sync st sv → zlen (rng_salt d) = SALT_BYTES → is_command cmd →
  (encrypt d k cmd st).2 = Ok wire → decode_control wire k = Some cmd.
Proof using AL BL XL PL.
  intros Hk Hs Hd Hc Hw.
  assert (contains CMD_ENCRYPT wire = true) as Hcont.
  { destruct (encrypt_spec d k cmd st Hk) as (c & _ & _ & E). rewrite E in Hw. cbn [snd] in Hw.
    apply (f_equal res_ok) in Hw. cbn [res_ok] in Hw. inversion Hw. exact (contains_prefix CMD_ENCRYPT _). }
  destruct (encrypt_all_served k [(d, cmd)] st sv Hk Hs) as (wires & He & Hv); [by apply Forall_singleton|].
  cbn [encrypt_all] in He. destruct (encrypt d k cmd st) as [st' r]. cbn [snd] in Hw. subst r.
  destruct wires as [|w [|? ?]]; simplify_eq/=.
  inversion Hv as [|? ? ? ? ? m ? ? Hdec Hstrip]; subst.
  unfold decode_control. rewrite Hcont, Hdec. cbn [res_ok mbind option_bind]. by rewrite Hstrip.
Qed.

End echo.

#[local] Instance utf8_text_model : Utf8Text := {| utf8_error _ := bs "invalid utf-8" |}.


(** ** A late answer *)

(** A waiter that timed out leaves the queue although its answer is still on
    the way. When the answer comes, it resolves the next waiter: that one receives
    the payload of the other command as a success. When the two commands share
    their verb (two [jdev/sps/io] commands, say), it is not even counted as a
    mismatch. *)
Lemma late_answer_resolves_next `{Utf8Text} `{AesCbc} `{Base64} `{PercentDecode}
    keys now e1 e2 es m u t tx ctrl payload :
  deadline e1 <= now < deadline e2 → resp e2 = Some tx →
  let q := {| entries := e1 :: e2 :: es; mismatches := m; unsolicited := u; timeouts := t |} in
  let '(q1, _, n) := expire now q in
  ∃ m', queue_step keys (Answer (Some ctrl) payload) q1
        = ({| entries := es; mismatches := m'; unsolicited := u; timeouts := t + 1 |},
           [(tx, Ok payload)])
        ∧ (decode_control ctrl keys = Some (plaintext_cmd e1) →
           verb (plaintext_cmd e1) = verb (plaintext_cmd e2) → m' = m).
Proof.
  intros Hd Htx q. unfold expire. cbn [q entries expire_loop].
  rewrite (proj2 (Z.ltb_ge _ _)), (proj2 (Z.ltb_lt _ _)) by lia.
  cbn [queue_step resolve entries]. destruct (bool_decide _); [cbn; rewrite Htx; eauto|].
  cbn. rewrite Htx. eexists. split; [done|]. intros -> Hv. unfold control_matches.
  by rewrite bool_decide_true.
Qed.

Lemma late_answer_resolves_next_witness :
  let e1 := {| plaintext_cmd := bs "jdev/sps/io/a/on"; wire_cmd := bs "w1"; resp := Some 1%nat; deadline := 30 |} in
  let e2 := {| plaintext_cmd := bs "jdev/sps/io/b/off"; wire_cmd := bs "w2"; resp := Some 2%nat; deadline := 60 |} in
  let '(q1, _, _) := expire 31 {| entries := [e1; e2]; mismatches := 0; unsolicited := 0; timeouts := 0 |} in
  @queue_step utf8_text_model aes_model base64_model percent_model sample_keys
    (Answer (Some (bs "jdev/sps/io/a/on")) (bs "answer to a")) q1
  = ({| entries := []; mismatches := 0; unsolicited := 0; timeouts := 1 |},
     [(2%nat, Ok (bs "answer to a"))]).
Proof.
  intros e1 e2.
  pose proof (@late_answer_resolves_next utf8_text_model aes_model base64_model percent_model
    sample_keys 31 e1 e2 [] 0 0 0 2%nat (bs "jdev/sps/io/a/on") (bs "answer to a")) as H.
  destruct H as (m' & Hq & Hm); [split; vm_compute; congruence|reflexivity|].
  cbv zeta. rewrite Hm in Hq; [exact Hq|vm_compute; reflexivity|vm_compute; reflexivity].
Defined.
