(* ===== verification/State.v ===== *)
(** * Shared state: client/state.rs, metrics.rs, client/keepalive.rs, client/reconnect.rs

    Everything the façade, the supervisor, the reader and the writer share. The
    token store is an interface: [SharedState] is verified against its laws, and
    the token file of [Store] discharges them. Clock readings are inputs. *)

From S2P Require Import Prelude RustStr External Models Errors Session Crypto Auth Store.

(** ** keepalive.rs *)

Definition KEEP_ALIVE_PERIOD_SECS : Z := 60.
Definition CONNECT_DELAY_SECS : Z := 15.
Definition LONG_BACKOFF_SECS : Z := 5 * 60.
Definition TOKEN_REFRESH_SECONDS_BEFORE_EXPIRY : Z := 24 * 60 * 60.
Definition TOKEN_REFRESH_DEFAULT_SECONDS : Z := 2 * 24 * 60 * 60.
Definition PRODUCTIVE_SESSION_SECS : Z := 60.
Definition TOKEN_REFRESH_MIN_DELAY_SECS : Z := 15.
Definition COMMAND_TIMEOUT_SECS : Z := 30.
Definition SHUTDOWN_COMMAND_TIMEOUT_SECS : Z := 3.
Definition SHUTDOWN_JOIN_TIMEOUT_SECS : Z := 10.
Definition READ_IDLE_TIMEOUT_SECS : Z := 2 * KEEP_ALIVE_PERIOD_SECS + 30.
Definition MAX_MISSED_KEEPALIVES : Z := 3.
Definition MIN_PAYLOAD_THROUGHPUT_BYTES_PER_SEC : Z := 32 * 1024.
Definition MAX_PAYLOAD_EXTENSION_SECS : Z := 10 * 60.

(** Durations are in nanoseconds. *)
Definition from_secs (n : Z) : Z := n * 1000000000.

Definition read_timeout (base announced_len : Z) : Z :=
  if announced_len =? 0 then base
  else
    let extra := Z.min (div_ceil announced_len MIN_PAYLOAD_THROUGHPUT_BYTES_PER_SEC)
                   MAX_PAYLOAD_EXTENSION_SECS in
    base + from_secs extra.

(** The window for a frame is never shorter than the base and never extended by
    more than the cap; below the cap it covers the announced payload at the
    assumed throughput. *)
Lemma read_timeout_bounds base len :
  0 <= len →
  base <= read_timeout base len <= base + from_secs MAX_PAYLOAD_EXTENSION_SECS
  ∧ (read_timeout base len < base + from_secs MAX_PAYLOAD_EXTENSION_SECS →
     from_secs len <= (read_timeout base len - base) * MIN_PAYLOAD_THROUGHPUT_BYTES_PER_SEC).
Proof.
  intros Hl. unfold read_timeout, div_ceil, MIN_PAYLOAD_THROUGHPUT_BYTES_PER_SEC,
    MAX_PAYLOAD_EXTENSION_SECS, from_secs.
  destruct (Z.eqb_spec len 0) as [->|Hne]; [lia|].
  pose proof (Z.div_mod (len + 32 * 1024 - 1) (32 * 1024) ltac:(lia)).
  pose proof (Z.mod_pos_bound (len + 32 * 1024 - 1) (32 * 1024) ltac:(lia)).
  set (q := (len + 32 * 1024 - 1) / (32 * 1024)) in *. lia.
Qed.

(** ** reconnect.rs *)

Definition should_continue (attempt max_attempts : Z) : bool :=
  (max_attempts =? 0) || (attempt <? max_attempts).

Inductive Backoff := Normal | Long.
#[export] Instance Backoff_eq_dec : EqDecision Backoff.
Proof. solve_decision. Defined.

Definition codez (code : option Z) (n : Z) : bool := bool_decide (code = Some n).

Definition backoff_for_close (code : option Z) : Backoff :=
  if codez code 4003 || codez code 4007 || codez code 4008 then Long else Normal.

Definition terminal_close (code : option Z) : option Error :=
  if codez code 4006 then Some UserDisabled else None.

Definition token_survives_close (code : option Z) : bool :=
  negb (codez code 4004 || codez code 4005 || codez code 4006).

Definition describe_close_code (code : option Z) : bytes :=
  match code with
  | None => bs "closed without close code"
  | Some n =>
      if n =? 1000 then bs "normal closure"
      else if n =? 1001 then bs "endpoint going away (shutdown/reboot)"
      else if n =? 1005 then bs "closed without status code"
      else if n =? 1006 then bs "abnormal closure (no close frame)"
      else if n =? 1011 then bs "Miniserver internal error"
      else if n =? 1012 then bs "Miniserver restarting"
      else if n =? 4003 then bs "blocked: too many failed login attempts"
      else if n =? 4004 then bs "a user has been changed"
      else if n =? 4005 then bs "connected user has been changed"
      else if n =? 4006 then bs "user has been disabled"
      else if n =? 4007 then bs "Miniserver performing an update"
      else if n =? 4008 then bs "no event slots available"
      else bs "unrecognized close code"
  end.

(** ** metrics.rs *)

Definition MESSAGE_TYPE_COUNT : Z := 8.

Inductive ConnState := CClosed | Connecting | Connected | Reconnecting.
#[export] Instance ConnState_eq_dec : EqDecision ConnState.
Proof. solve_decision. Defined.

Definition conn_as_str (s : ConnState) : bytes :=
  match s with
  | CClosed => bs "CLOSED"
  | Connecting => bs "CONNECTING"
  | Connected => bs "CONNECTED"
  | Reconnecting => bs "RECONNECTING"
  end.
(** [state as u8] *)
Definition conn_as_u8 (s : ConnState) : Z :=
  match s with CClosed => 0 | Connecting => 1 | Connected => 2 | Reconnecting => 3 end.
Definition from_u8 (v : Z) : ConnState :=
  if v =? 1 then Connecting else if v =? 2 then Connected else if v =? 3 then Reconnecting
  else CClosed.

Lemma conn_state_roundtrip s : from_u8 (conn_as_u8 s) = s.
Proof. by destruct s. Qed.

(** The [AtomicU64] fields of [MetricsState] by name. *)
Inductive Counter :=
| connects | reconnects | reconnect_attempts | reconnect_failures | disconnects
| messages_received | commands_sent | command_timeouts | command_errors
| correlation_mismatches | unsolicited_responses | keepalive_misses
| controls_rejected_offline | controls_rejected_backpressure.
#[export] Instance Counter_eq_dec : EqDecision Counter.
Proof. solve_decision. Defined.

Definition field_index (c : Counter) : nat :=
  match c with
  | connects => 0 | reconnects => 1 | reconnect_attempts => 2 | reconnect_failures => 3
  | disconnects => 4 | messages_received => 5 | commands_sent => 6 | command_timeouts => 7
  | command_errors => 8 | correlation_mismatches => 9 | unsolicited_responses => 10
  | keepalive_misses => 11 | controls_rejected_offline => 12 | controls_rejected_backpressure => 13
  end%nat.

Record MetricsState := {
  (** the atomics, in the order of their fields *)
  counters : list Z;
  by_type : list Z;
  by_close_code : gmap (option Z) Z;
  connected_since : option Z * option Z;
  last_keepalive_rtt : option Z;
}.
Definition new_metrics : MetricsState :=
  {| counters := replicate 14 0; by_type := replicate (Z.to_nat MESSAGE_TYPE_COUNT) 0; by_close_code := ∅;
     connected_since := (None, None); last_keepalive_rtt := None |}.

(** [fetch_add] on an [AtomicU64] wraps around. *)
Definition fetch_add (n x : Z) : Z := (x + n) mod 2 ^ 64.
Definition bump_by (c : Counter) (n : Z) (m : MetricsState) : MetricsState :=
  {| counters := alter (fetch_add n) (field_index c) (counters m);
     by_type := by_type m; by_close_code := by_close_code m;
     connected_since := connected_since m; last_keepalive_rtt := last_keepalive_rtt m |}.
Definition counter (m : MetricsState) (c : Counter) : Z := default 0 (counters m !! field_index c).
Definition bump (c : Counter) (m : MetricsState) : MetricsState := bump_by c 1 m.

Definition mark_connected (mono wall : Z) (m : MetricsState) : MetricsState :=
  {| counters := counters m; by_type := by_type m; by_close_code := by_close_code m;
     connected_since := (Some mono, Some wall); last_keepalive_rtt := last_keepalive_rtt m |}.

Definition mark_disconnected (close_code : option Z) (m : MetricsState) : MetricsState :=
  let m := bump disconnects m in
  {| counters := counters m; by_type := by_type m;
     by_close_code := <[close_code := default 0 (by_close_code m !! close_code) + 1]> (by_close_code m);
     connected_since := (None, None); last_keepalive_rtt := last_keepalive_rtt m |}.

Definition record_message (msg_type : Z) (m : MetricsState) : MetricsState :=
  let m := bump messages_received m in
  if msg_type <? MESSAGE_TYPE_COUNT then
    {| counters := counters m; by_type := alter (fetch_add 1) (Z.to_nat msg_type) (by_type m);
       by_close_code := by_close_code m; connected_since := connected_since m;
       last_keepalive_rtt := last_keepalive_rtt m |}
  else m.

Definition set_keepalive_rtt (rtt : Z) (m : MetricsState) : MetricsState :=
  {| counters := counters m; by_type := by_type m; by_close_code := by_close_code m;
     connected_since := connected_since m; last_keepalive_rtt := Some rtt |}.

Record LoxMetrics := {
  m_state : ConnState;
  m_counters : list Z;
  m_by_type : list Z;
  m_by_close_code : gmap (option Z) Z;
  m_connected_since_monotonic : option Z;
  m_connected_since_wall : option Z;
  m_token_valid_until : option Z;
  m_last_keepalive_rtt : option Z;
}.
Definition snapshot (state : ConnState) (token_valid_until : option Z) (m : MetricsState) : LoxMetrics :=
  {| m_state := state; m_counters := counters m; m_by_type := by_type m;
     m_by_close_code := by_close_code m;
     m_connected_since_monotonic := fst (connected_since m);
     m_connected_since_wall := snd (connected_since m);
     m_token_valid_until := token_valid_until; m_last_keepalive_rtt := last_keepalive_rtt m |}.

(** In nanoseconds; [elapsed] saturates. *)
Definition uptime (now : Z) (m : LoxMetrics) : Z :=
  match m_connected_since_monotonic m with
  | Some t => Z.max 0 (now - t)
  | None => 0
  end.

(** The uptime is the time since the connection was marked, and nothing once its end
    has been. *)
Lemma uptime_marks st v mono wall code now m :
  mono <= now →
  uptime now (snapshot st v (mark_connected mono wall m)) = now - mono
  ∧ uptime now (snapshot st v (mark_disconnected code m)) = 0.
Proof. intros Hn. unfold uptime. cbn. lia. Qed.

(** ** The token store, as an interface *)

Class TokenStore (S : Type) := {
  ts_load : bytes → S → option LxToken;
  ts_save : bytes → LxToken → S → S;
  ts_clear : bytes → S → S;
}.

(** What the client relies on: a load returns the token last saved under that
    binding or what was there before, and clearing only takes away. [storable]
    bounds the bindings the client uses. *)
Class TokenStoreLaws (S : Type) `{!TokenStore S} (storable : bytes → Prop) := {
  ts_save_law b t s b' t' :
    storable b → wf_token t → ts_load b' (ts_save b t s) = Some t' →
    (b' = b ∧ t' = t) ∨ ts_load b' s = Some t';
  ts_clear_law b s b' t' : ts_load b' (ts_clear b s) = Some t' → ts_load b' s = Some t';
}.

(** [FileTokenStore] at a path, with given outcomes of the system calls. *)
Definition FileTokenStore (io : Io) (read_ok : bool) (path : bytes) : TokenStore FS :=
  {| ts_load b fs := load read_ok path b fs;
     ts_save b t fs := final fs (save io path b t fs);
     ts_clear b fs := clear io path fs |}.

Lemma load_clear ro io path b (fs : FS) t :
  load ro path b (clear io path fs) = Some t → load ro path b fs = Some t.
Proof.
  unfold clear. destruct (remove_ok io); [|done]. unfold load, read_record.
  by rewrite lookup_delete_eq.
Qed.

Lemma load_same ro path b (fs fs' : FS) :
  fs' !! path = fs !! path → load ro path b fs' = load ro path b fs.
Proof. unfold load, read_record. by intros ->. Qed.

Lemma load_final ro io path b t (fs : FS) b' t' :
  with_extension path (bs "tmp") ≠ path → one_line b → wf_token t →
  load ro path b' (final fs (save io path b t fs)) = Some t' →
  (b' = b ∧ t' = t) ∨ load ro path b' fs = Some t'.
Proof.
  intros Htmp Hb Hw. unfold final, save. destruct (token_is_empty t) eqn:Ee.
  { cbn. intros Hl. right. by eapply load_clear. }
  destruct (last (write_record io path b t fs).1) as [fs'|] eqn:El; cbn; [|by right].
  intros Hl. apply last_Some_elem_of, write_record_states in El as [Ht [E|[m E]]]; [| |done].
  - right. by rewrite <- (load_same ro path b' fs fs').
  - left. eapply load_new_record; eauto. intros E'. unfold token_is_empty in Ee. by rewrite E' in Ee.
Qed.

Lemma FileTokenStore_laws io ro path :
  with_extension path (bs "tmp") ≠ path →
  @TokenStoreLaws FS (FileTokenStore io ro path) one_line.
Proof.
  intros Htmp. constructor; cbn.
  - intros. by eapply load_final.
  - intros b fs b' t'. apply load_clear.
Qed.

(** ** SharedState *)

Record TokenPersistence (S : Type) := { store : S; binding : bytes }.
Arguments store {S}. Arguments binding {S}. Arguments Build_TokenPersistence {S}.

Record SharedState (S : Type) := {
  metrics : MetricsState;
  state_cell : Z;
  shared_token : LxToken;
  persist : option (TokenPersistence S);
}.
Arguments metrics {S}. Arguments state_cell {S}. Arguments shared_token {S}. Arguments persist {S}.
Arguments Build_SharedState {S}.

Section shared.
Context {S : Type} {TS : TokenStore S}.

Definition new_shared : SharedState S :=
  {| metrics := new_metrics; state_cell := conn_as_u8 CClosed; shared_token := default_token;
     persist := None |}.
Definition with_token_store (st : S) (b : bytes) : SharedState S :=
  {| metrics := new_metrics; state_cell := conn_as_u8 CClosed; shared_token := default_token;
     persist := Some {| store := st; binding := b |} |}.

Definition upd_metrics (f : MetricsState → MetricsState) (s : SharedState S) : SharedState S :=
  {| metrics := f (metrics s); state_cell := state_cell s; shared_token := shared_token s;
     persist := persist s |}.
Definition set_state (c : ConnState) (s : SharedState S) : SharedState S :=
  {| metrics := metrics s; state_cell := conn_as_u8 c; shared_token := shared_token s;
     persist := persist s |}.
Definition get_state (s : SharedState S) : ConnState := from_u8 (state_cell s).

(** The store is written while the lock on the token is held. *)
Definition set_token (t : LxToken) (s : SharedState S) : SharedState S :=
  {| metrics := metrics s; state_cell := state_cell s; shared_token := t;
     persist := (λ p, {| store := ts_save (binding p) t (store p); binding := binding p |}) <$> persist s |}.
Definition clear_shared_token (s : SharedState S) : SharedState S :=
  {| metrics := metrics s; state_cell := state_cell s; shared_token := clear_token (shared_token s);
     persist := (λ p, {| store := ts_clear (binding p) (store p); binding := binding p |}) <$> persist s |}.

(** [None] is the overflow panic of [seconds_to_expire]. *)
Definition restore_token (checks : bool) (now : Z) (s : SharedState S) : option (SharedState S) :=
  match persist s with
  | None => Some s
  | Some p =>
      match ts_load (binding p) (store p) with
      | None => Some s
      | Some t =>
          let discard :=
            {| metrics := metrics s; state_cell := state_cell s; shared_token := shared_token s;
               persist := Some {| store := ts_clear (binding p) (store p); binding := binding p |} |} in
          if token_is_empty t then Some discard
          else
            secs ← seconds_to_expire checks now t;
            if secs <=? 0 then Some discard
            else Some {| metrics := metrics s; state_cell := state_cell s; shared_token := t;
                         persist := Some p |}
      end
  end.

Definition token_valid_until (s : SharedState S) : option Z :=
  if token_is_empty (shared_token s) then None else Some (valid_until (shared_token s)).

(** ** Where a token comes from *)

(** What the tasks of one client do to the token, in the order of the lock. *)
Inductive token_op := SetToken (t : LxToken) | ClearToken | RestoreToken (now : Z).

Definition token_step (checks : bool) (o : token_op) (s : SharedState S) : option (SharedState S) :=
  match o with
  | SetToken t => Some (set_token t s)
  | ClearToken => Some (clear_shared_token s)
  | RestoreToken now => restore_token checks now s
  end.
Fixpoint token_run (checks : bool) (ops : list token_op) (s : SharedState S) : option (SharedState S) :=
  match ops with
  | [] => Some s
  | o :: ops => s ← token_step checks o s; token_run checks ops s
  end.

(** A process that opens the store under a binding, and the store it leaves. *)
Definition process (checks : bool) (b : bytes) (ops : list token_op) (st : S) : option (SharedState S) :=
  token_run checks ops (with_token_store st b).
Fixpoint processes (checks : bool) (runs : list (bytes * list token_op)) (st : S) : option S :=
  match runs with
  | [] => Some st
  | (b, ops) :: runs =>
      s ← process checks b ops st;
      p ← persist s;
      processes checks runs (store p)
  end.

Definition set_by (b : bytes) (t : LxToken) (runs : list (bytes * list token_op)) : Prop :=
  ∃ ops, (b, ops) ∈ runs ∧ SetToken t ∈ ops.

Context {storable : bytes → Prop} {TL : TokenStoreLaws S storable}.

(** The tokens a client sets have an expiry of 64 bits. *)
Definition wf_op (o : token_op) : Prop := match o with SetToken t => wf_token t | _ => True end.

Lemma token_step_provenance checks o s s' p (known : bytes → LxToken → Prop) :
  persist s = Some p → storable (binding p) → wf_op o →
  (∀ b t, ts_load b (store p) = Some t → known b t) →
  (token_is_empty (shared_token s) = true ∨ known (binding p) (shared_token s)) →
  (∀ t, o = SetToken t → known (binding p) t) →
  token_step checks o s = Some s' →
  ∃ p', persist s' = Some p' ∧ binding p' = binding p
    ∧ (∀ b t, ts_load b (store p') = Some t → known b t)
    ∧ (token_is_empty (shared_token s') = true ∨ known (binding p) (shared_token s')).
Proof using TL.
  intros Hp Hst Hw Hk Ht Ho. destruct o as [t| |now]; cbn [token_step].
  - intros [= <-]. cbn [set_token persist shared_token]. rewrite Hp. eexists. split; [done|]. split; [done|].
    split; [|by auto]. cbn. intros b t' [[-> ->]|Hl]%ts_save_law; auto.
  - intros [= <-]. cbn [clear_shared_token persist shared_token]. rewrite Hp. eexists. split; [done|].
    split; [done|]. split; [|by left]. cbn. intros b t' Hl%ts_clear_law. auto.
  - unfold restore_token. rewrite Hp.
    destruct (ts_load (binding p) (store p)) as [t|] eqn:El; [|intros [= <-]; eauto 6].
    assert (∀ b t', ts_load b (ts_clear (binding p) (store p)) = Some t' → known b t') as Hc.
    { intros b t' Hl%ts_clear_law. auto. }
    destruct (token_is_empty t); [intros [= <-]; cbn; eauto 6|].
    destruct (seconds_to_expire checks now t) as [secs|]; [|done]. cbn [mbind option_bind].
    destruct (secs <=? 0); intros [= <-]; cbn; eauto 7.
Qed.

Lemma token_run_provenance checks ops s s' p (known : bytes → LxToken → Prop) :
  persist s = Some p → storable (binding p) → Forall wf_op ops →
  (∀ b t, ts_load b (store p) = Some t → known b t) →
  (token_is_empty (shared_token s) = true ∨ known (binding p) (shared_token s)) →
  (∀ t, SetToken t ∈ ops → known (binding p) t) →
  token_run checks ops s = Some s' →
  ∃ p', persist s' = Some p' ∧ binding p' = binding p
    ∧ (∀ b t, ts_load b (store p') = Some t → known b t)
    ∧ (token_is_empty (shared_token s') = true ∨ known (binding p) (shared_token s')).
Proof using TL.
  revert s p. induction ops as [|o ops IH]; intros s p Hp Hst Hw Hk Ht Ho; cbn [token_run].
  { intros [= <-]. eauto. }
  inversion Hw as [|? ? Hwo Hws]; subst.
  destruct (token_step checks o s) as [s1|] eqn:Es; [|done]. cbn [mbind option_bind].
  eapply token_step_provenance in Es as (p1 & Hp1 & Hb1 & Hk1 & Ht1); eauto.
  - rewrite <- Hb1 in *. eapply IH; eauto. intros t Hin. apply Ho. by apply elem_of_cons; right.
  - intros t ->. apply Ho. apply list_elem_of_here.
Qed.

Lemma processes_provenance checks runs st st' (known : bytes → LxToken → Prop) :
  Forall (λ r, storable (fst r) ∧ Forall wf_op (snd r)) runs →
  (∀ b t, ts_load b st = Some t → known b t) →
  (∀ b t, set_by b t runs → known b t) →
  processes checks runs st = Some st' →
  ∀ b t, ts_load b st' = Some t → known b t.
Proof using TL.
  revert st. induction runs as [|[b ops] runs IH]; intros st Hf Hk Hset; cbn [processes].
  { by intros [= <-]. }
  inversion Hf as [|? ? [Hb Hw] Hf']; subst. cbn [fst snd] in *.
  unfold process. destruct (token_run _ _ _) as [s|] eqn:Er; [|done]. cbn [mbind option_bind].
  eapply (token_run_provenance _ _ _ _ {| store := st; binding := b |} known) in Er
    as (p & -> & Hb' & Hk' & _); eauto.
  - cbn [mbind option_bind]. intros H. eapply IH; eauto. intros b' t (ops' & Hin & Ht).
    apply Hset. exists ops'. split; [by apply elem_of_cons; right|done].
  - intros t Hin. apply Hset. exists ops. split; [apply list_elem_of_here|done].
Qed.

(** [C14] A client never ends up with another account's token. Any number of
    processes may use one store in turn, each under its own binding, setting,
    clearing and restoring tokens in any order; a token a process then holds is
    one that a process with the same binding had set, or one the store held under
    that binding from the start. The store only has to keep its contract. *)
Theorem token_provenance checks runs st st' b ops s :
  Forall (λ r, storable (fst r) ∧ Forall wf_op (snd r)) (runs ++ [(b, ops)]) →
  processes checks runs st = Some st' →
  process checks b ops st' = Some s →
  token_is_empty (shared_token s) = false →
  ts_load b st = Some (shared_token s) ∨ set_by b (shared_token s) (runs ++ [(b, ops)]).
Proof using TL.
  intros [Hf Hl]%Forall_app Hr Hp Hne. inversion Hl as [|? ? [Hb Hw] _]; subst. cbn [fst snd] in *.
  set (known b' t := ts_load b' st = Some t ∨ set_by b' t (runs ++ [(b, ops)])).
  assert (∀ b' t, ts_load b' st' = Some t → known b' t) as Hk.
  { eapply (processes_provenance checks runs st st' known); [done|by left| |done].
    intros b' t (o & Hin & Ht). right. exists o. split; [|done]. apply elem_of_app. by left. }
  eapply (token_run_provenance _ _ _ _ {| store := st'; binding := b |} known) in Hp
    as (p & _ & _ & _ & [He|Hk']); eauto.
  - congruence.
  - intros t Hin. right. exists ops. split; [|done]. apply elem_of_app. right. by apply list_elem_of_here.
Qed.
End shared.

(** One account, restarted. *)
Definition sample_shared (st : FS) : SharedState FS :=
  {| metrics := new_metrics; state_cell := 0; shared_token := sample_token;
     persist := Some {| store := st; binding := bs "aa" |} |}.

Lemma token_provenance_witness :
  let TS := FileTokenStore all_ok true sample_path in
  let st' := final ∅ (save all_ok sample_path (bs "aa") sample_token ∅) in
  let runs := [(bs "aa", [RestoreToken 0; SetToken sample_token])] in
  let ops := [RestoreToken 1700000000] in
  @ts_load FS TS (bs "aa") ∅ = Some sample_token ∨ set_by (bs "aa") sample_token (runs ++ [(bs "aa", ops)]).
Proof.
  intros TS st' runs ops.
  apply (@token_provenance FS TS one_line
           (FileTokenStore_laws all_ok true sample_path ltac:(vm_compute; congruence)) true
           runs ∅ st' (bs "aa") ops (sample_shared st')).
  - apply Forall_cons; split; [|apply Forall_singleton];
      (split; [by apply one_lineb_true|repeat constructor; done]).
  - vm_cast_no_check (@eq_refl (option FS) (Some st')).
  - vm_cast_no_check (@eq_refl (option (SharedState FS)) (Some (sample_shared st'))).
  - reflexivity.
Defined.

(** ** Liveness *)

Record Liveness := { sent : Z; acked : Z; sent_at : option Z }.
Definition new_liveness : Liveness := {| sent := 0; acked := 0; sent_at := None |}.

Definition record_sent (now : Z) (l : Liveness) : Liveness :=
  {| sent := fetch_add 1 (sent l); acked := acked l; sent_at := Some now |}.

(** The three accesses of [record_ack]: the load, the update, and taking the
    instant. The writer may run between them. *)
Definition ack_update (loaded : Z) (l : Liveness) : Liveness :=
  {| sent := sent l; acked := if acked l <? loaded then acked l + 1 else acked l;
     sent_at := sent_at l |}.
Definition take_sent_at (l : Liveness) : Liveness * option Z :=
  ({| sent := sent l; acked := acked l; sent_at := None |}, sent_at l).
Definition record_ack (l : Liveness) : Liveness * option Z := take_sent_at (ack_update (sent l) l).

(** [saturating_sub] *)
Definition missed (l : Liveness) : Z := Z.max 0 (sent l - acked l).

(** Where the reader is inside [record_ack]. *)
Inductive ack_pc := Outside | Loaded (n : Z) | Updated.
Record LiveSys := { live : Liveness; pc : ack_pc }.

(** One atomic access of the writer ([LSend]) or of the reader. *)
Inductive live_label := LSend | LLoad | LUpdate | LTake.
Inductive live_step : live_label → LiveSys → LiveSys → Prop :=
| live_send l p now : live_step LSend {| live := l; pc := p |} {| live := record_sent now l; pc := p |}
| live_load l : live_step LLoad {| live := l; pc := Outside |} {| live := l; pc := Loaded (sent l) |}
| live_update l n :
    live_step LUpdate {| live := l; pc := Loaded n |} {| live := ack_update n l; pc := Updated |}
| live_take l :
    live_step LTake {| live := l; pc := Updated |} {| live := fst (take_sent_at l); pc := Outside |}.

Inductive live_trace : list live_label → LiveSys → Prop :=
| live_nil : live_trace [] {| live := new_liveness; pc := Outside |}
| live_snoc tr lb s s' : live_trace tr s → live_step lb s s' → live_trace (tr ++ [lb]) s'.

#[export] Instance live_label_eq_dec : EqDecision live_label.
Proof. solve_decision. Defined.
Definition occurs (lb : live_label) (tr : list live_label) : Z := zlen (filter (λ x, x = lb) tr).

Lemma occurs_snoc lb tr x :
  occurs lb (tr ++ [x]) = occurs lb tr + (if decide (x = lb) then 1 else 0).
Proof.
  unfold occurs. rewrite filter_app, zlen_app. f_equal. cbn. by destruct (decide (x = lb)).
Qed.

Lemma occurs_nonneg lb tr : 0 <= occurs lb tr.
Proof. apply zlen_nonneg. Qed.

Lemma live_invariant tr s :
  live_trace tr s → occurs LSend tr < 2 ^ 64 →
  sent (live s) = occurs LSend tr
  ∧ 0 <= acked (live s) <= Z.min (occurs LSend tr) (occurs LUpdate tr)
  ∧ match pc s with Loaded n => n <= occurs LSend tr | _ => True end.
Proof.
  induction 1 as [|tr lb s s' _ IH Hs]; [done|]. rewrite !occurs_snoc. intros Hlt.
  destruct IH as (Hsent & Hack & Hpc).
  { destruct (decide (lb = LSend)); lia. }
  pose proof (occurs_nonneg LSend tr) as H0.
  destruct Hs as [l p now|l|l n|l]; repeat case_decide; try done;
    cbn [live pc sent acked record_sent ack_update take_sent_at fst] in *; repeat split; try lia.
  - unfold fetch_add. rewrite Hsent, Z.mod_small; lia.
  - destruct p; lia || done.
  - destruct (Z.ltb_spec (acked l) n); lia.
  - destruct (Z.ltb_spec (acked l) n); lia.
Qed.

(** The keepalive counters under any interleaving of the writer and the
    reader, down to the single atomic accesses: an unsolicited answer banks no
    credit ([acked <= sent], so [missed] never saturates), and a lost answer is
    never forgiven, as [missed] is at least the number of keepalives sent minus
    the number of answers seen, and at most the number sent. *)
Lemma liveness_counts tr s :
  live_trace tr s → occurs LSend tr < 2 ^ 64 →
  acked (live s) <= sent (live s)
  ∧ missed (live s) = sent (live s) - acked (live s)
  ∧ occurs LSend tr - occurs LUpdate tr <= missed (live s) <= occurs LSend tr.
Proof.
  intros Ht Hlt. destruct (live_invariant tr s Ht Hlt) as (-> & Ha & _). unfold missed.
  destruct (live_invariant tr s Ht Hlt) as (-> & _). lia.
Qed.

(** A keepalive goes out between the load and the update of an answer nobody
    asked for: it is not paid off by it. *)
Lemma liveness_counts_witness :
  ∃ s, live_trace [LLoad; LSend; LUpdate; LTake] s ∧ missed (live s) = 1
       ∧ occurs LSend [LLoad; LSend; LUpdate; LTake] - occurs LUpdate [LLoad; LSend; LUpdate; LTake]
         <= missed (live s).
Proof.
  assert (live_trace [LLoad; LSend; LUpdate; LTake]
    {| live := {| sent := 1; acked := 0; sent_at := None |}; pc := Outside |}) as Ht.
  { apply (live_snoc [LLoad; LSend; LUpdate] LTake {| live := {| sent := 1; acked := 0; sent_at := Some 7 |}; pc := Updated |});
      [|apply live_take].
    apply (live_snoc [LLoad; LSend] LUpdate {| live := {| sent := 1; acked := 0; sent_at := Some 7 |}; pc := Loaded 0 |});
      [|apply live_update].
    apply (live_snoc [LLoad] LSend {| live := new_liveness; pc := Loaded 0 |}); [|apply live_send].
    apply (live_snoc [] LLoad {| live := new_liveness; pc := Outside |}); [constructor|apply live_load]. }
  eexists. split; [exact Ht|]. split; [reflexivity|].
  apply (liveness_counts _ _ Ht). reflexivity.
Defined.

(** Seen in one piece, an answer takes away one missed keepalive. *)
Lemma record_ack_missed l :
  acked l <= sent l → missed (fst (record_ack l)) = Z.max 0 (missed l - 1).
Proof.
  intros H. unfold missed. cbn. destruct (Z.ltb_spec (acked l) (sent l)); lia.
Qed.
