(* ===== verification/Handler.v ===== *)
(** * client/handler.rs: callbacks, the unwind guard and the channel adapter

    A consumer's handler is a state with one transition per callback, which either
    returns or unwinds; in both cases its state may have changed. A closure handed
    to the guard is the list of callbacks it makes: an unwind in one of them skips
    the rest. The guard also carries the history of callbacks entered, which the
    theorems speak about and the code does not have. *)

From S2P Require Import Prelude RustStr External Models Errors Uuid Header EventTables.

Inductive ClientEvent :=
| EvConnected
| EvReconnected
| EvConnectionClosed (close_code : option Z)
| EvClosed.

(** The methods of [LoxHandler]. *)
Inductive Call :=
| on_value (uuid : LoxoneUuid) (value : Z)
| on_text (uuid icon : LoxoneUuid) (text : bytes)
| on_daytimer (event : Daytimer.DaytimerEvent)
| on_weather (event : Weather.WeatherEvent)
| on_json (payload : bytes)
| on_binary (payload : bytes)
| on_keepalive
| on_event (event : ClientEvent)
| on_raw_payload (msg_type : Z) (payload : bytes).

Inductive outcome (H : Type) := Returned (h : H) | Unwound (h : H).
Arguments Returned {H}. Arguments Unwound {H}.

Class LoxHandler (H : Type) := invoke : Call → H → outcome H.

(** A closure's callbacks: the final state, and the ones entered. *)
Fixpoint run_calls {H} `{!LoxHandler H} (cs : list Call) (h : H) : outcome H * list Call :=
  match cs with
  | [] => (Returned h, [])
  | c :: cs =>
      match invoke c h with
      | Returned h => let '(o, made) := run_calls cs h in (o, c :: made)
      | Unwound h => (Unwound h, [c])
      end
  end.

(** ** HandlerGuard *)

Record HandlerGuard (H : Type) := { handler : H; panicked : bool; history : list Call }.
Arguments handler {H}. Arguments panicked {H}. Arguments history {H}.
Arguments Build_HandlerGuard {H}.

Section guard.
Context {H : Type} {LH : LoxHandler H}.

Definition new_guard (h : H) : HandlerGuard H := {| handler := h; panicked := false; history := [] |}.

Definition guard {R} (cs : list Call) (r : R) (g : HandlerGuard H) : HandlerGuard H * option R :=
  if panicked g then (g, None)
  else
    match run_calls cs (handler g) with
    | (Returned h, made) =>
        ({| handler := h; panicked := panicked g; history := history g ++ made |}, Some r)
    | (Unwound h, made) =>
        ({| handler := h; panicked := true; history := history g ++ made |}, None)
    end.

Definition guard_or_fail {R} (cs : list Call) (r : R) (g : HandlerGuard H) : HandlerGuard H * Result R :=
  let '(g, o) := guard cs r g in (g, match o with Some r => Ok r | None => Err HandlerPanic end).

Definition lifecycle (event : ClientEvent) (g : HandlerGuard H) : HandlerGuard H :=
  match run_calls [on_event event] (handler g) with
  | (Returned h, made) =>
      {| handler := h; panicked := panicked g; history := history g ++ made |}
  | (Unwound h, made) => {| handler := h; panicked := true; history := history g ++ made |}
  end.

(** What a handler may promise: from the states [I] describes no callback unwinds, and
    it stays in these states. The theorems on progress are proved against this
    interface. *)
Class Steady (I : H → Prop) : Prop :=
  steady_returns c h : I h → ∃ h', invoke c h = Returned h' ∧ I h'.
Definition calm (I : H → Prop) (g : HandlerGuard H) : Prop := panicked g = false ∧ I (handler g).

Lemma steady_calls I `{!Steady I} cs (h : H) : I h → ∃ h', run_calls cs h = (Returned h', cs) ∧ I h'.
Proof using.
  revert h. induction cs as [|c cs IH]; intros h Hh; cbn [run_calls]; [by eauto|].
  destruct (steady_returns c h Hh) as (h' & -> & Hh'). destruct (IH h' Hh') as (h'' & -> & Hh''). eauto.
Qed.

(** A guarded closure either made all its callbacks, or the last one it entered
    unwound and the guard is shut. *)
Lemma guard_spec {R} cs (r : R) g g' o :
  guard cs r g = (g', o) →
  match o with
  | Some r' => r' = r ∧ panicked g = false ∧ panicked g' = false ∧ history g' = history g ++ cs
  | None =>
      panicked g' = true
      ∧ (panicked g = true → g' = g)
      ∧ ∃ made, made `prefix_of` cs ∧ history g' = history g ++ made
  end.
Proof using.
  unfold guard. destruct (panicked g) eqn:Hp.
  { intros [= <- <-]. split; [done|]. split; [done|]. exists []. split; [apply prefix_nil|by rewrite app_nil_r]. }
  assert (∀ h, match run_calls cs h with
               | (Returned _, made) => made = cs
               | (Unwound _, made) => made `prefix_of` cs
               end) as Hrun.
  { clear. induction cs as [|c cs IH]; intros h; cbn [run_calls]; [done|].
    destruct (invoke c h) as [h'|h'].
    - specialize (IH h'). destruct (run_calls cs h') as [[?|?] made]; [by subst|by apply prefix_cons].
    - apply prefix_cons, prefix_nil. }
  specialize (Hrun (handler g)). destruct (run_calls cs (handler g)) as [[h|h] made]; intros [= <- <-]; cbn.
  - by subst.
  - split; [done|]. split; [done|]. eauto.
Qed.

Lemma guard_or_fail_spec {R} cs (r : R) g g' o :
  guard_or_fail cs r g = (g', o) →
  match o with
  | Ok r' => r' = r ∧ panicked g = false ∧ panicked g' = false ∧ history g' = history g ++ cs
  | Err e => e = HandlerPanic ∧ panicked g' = true ∧ (panicked g = true → g' = g)
             ∧ ∃ made, made `prefix_of` cs ∧ history g' = history g ++ made
  end.
Proof using.
  unfold guard_or_fail. destruct (guard cs r g) as [g1 [r'|]] eqn:E; intros [= <- <-];
    apply guard_spec in E; [done|]. by destruct E.
Qed.

Lemma lifecycle_history ev g :
  history (lifecycle ev g) = history g ++ [on_event ev]
  ∧ (panicked g = true → panicked (lifecycle ev g) = true).
Proof using. unfold lifecycle. cbn. destruct (invoke (on_event ev) (handler g)); cbn; auto. Qed.

(** What the client does with the guard. *)
Inductive guard_op := GCalls (cs : list Call) | GLifecycle (ev : ClientEvent).
Definition guard_step (o : guard_op) (g : HandlerGuard H) : HandlerGuard H :=
  match o with
  | GCalls cs => fst (guard cs tt g)
  | GLifecycle ev => lifecycle ev g
  end.

Definition lifecycle_of (o : guard_op) : list Call :=
  match o with GCalls _ => [] | GLifecycle ev => [on_event ev] end.

Lemma shut_step o g :
  panicked g = true →
  panicked (guard_step o g) = true ∧ history (guard_step o g) = history g ++ lifecycle_of o.
Proof using.
  intros Hp. destruct o as [cs|ev]; cbn [guard_step lifecycle_of].
  - unfold guard. rewrite Hp. cbn. by rewrite app_nil_r.
  - destruct (lifecycle_history ev g) as [-> ?]. auto.
Qed.

(** After an unwind the handler is entered again only to be told of the lifecycle. *)
Lemma shut_run ops g :
  panicked g = true →
  let g' := fold_left (λ g o, guard_step o g) ops g in
  panicked g' = true ∧ history g' = history g ++ concat (map lifecycle_of ops).
Proof using.
  revert g. induction ops as [|o ops IH]; intros g Hp; cbn; [by rewrite app_nil_r|].
  destruct (shut_step o g Hp) as [Hp' Hh]. destruct (IH _ Hp') as [-> ->].
  rewrite Hh. by rewrite <- app_assoc.
Qed.
End guard.

(** ** ChannelHandler *)

Inductive OwnedEvent :=
| OwnedValue (uuid : LoxoneUuid) (value : Z)
| OwnedText (uuid icon : LoxoneUuid) (text : bytes)
| OwnedJson (payload : bytes)
| OwnedBinary (payload : bytes)
| OwnedKeepalive
| OwnedLifecycle (event : ClientEvent).

(** The bounded channel both ends of which the model owns: [queue] holds what has
    been sent and not received, [rx_closed] that the receiver is gone. *)
Record ChannelHandler := {
  queue : list OwnedEvent;
  buffer : Z;
  rx_closed : bool;
  dropped : Z;
}.

(** [mpsc::channel] panics on a zero buffer. *)
Definition new_channel (n : Z) : option ChannelHandler :=
  if n =? 0 then None else Some {| queue := []; buffer := n; rx_closed := false; dropped := 0 |}.

Definition ch_send (event : OwnedEvent) (c : ChannelHandler) : ChannelHandler :=
  if rx_closed c || (buffer c <=? zlen (queue c)) then
    {| queue := queue c; buffer := buffer c; rx_closed := rx_closed c;
       dropped := (dropped c + 1) mod 2 ^ 64 |}
  else
    {| queue := queue c ++ [event]; buffer := buffer c; rx_closed := rx_closed c; dropped := dropped c |}.

(** What a callback sends; the callbacks that are not overridden send nothing. *)
Definition owned (c : Call) : option OwnedEvent :=
  match c with
  | on_value uuid value => Some (OwnedValue uuid value)
  | on_text uuid icon text => Some (OwnedText uuid icon text)
  | on_json payload => Some (OwnedJson payload)
  | on_binary payload => Some (OwnedBinary payload)
  | on_keepalive => Some OwnedKeepalive
  | on_event event => Some (OwnedLifecycle event)
  | on_daytimer _ | on_weather _ | on_raw_payload _ _ => None
  end.

#[export] Instance channel_handler : LoxHandler ChannelHandler := λ c ch,
  Returned match owned c with Some e => ch_send e ch | None => ch end.

(** The consumer's side: receive one event, or hang up. *)
Inductive ch_op := ChCall (c : Call) | ChRecv | ChHangUp.
Definition ch_step (o : ch_op) (s : ChannelHandler * list OwnedEvent) : ChannelHandler * list OwnedEvent :=
  let '(ch, got) := s in
  match o with
  | ChCall c => (match invoke c ch with Returned ch | Unwound ch => ch end, got)
  | ChRecv =>
      match queue ch with
      | e :: q => ({| queue := q; buffer := buffer ch; rx_closed := rx_closed ch; dropped := dropped ch |},
                   got ++ [e])
      | [] => (ch, got)
      end
  | ChHangUp => ({| queue := []; buffer := buffer ch; rx_closed := true; dropped := dropped ch |}, got)
  end.
Definition ch_run (ops : list ch_op) (s : ChannelHandler * list OwnedEvent) :=
  fold_left (λ s o, ch_step o s) ops s.
Definition ch_events (ops : list ch_op) : list OwnedEvent :=
  omap (λ o, match o with ChCall c => owned c | _ => None end) ops.

Lemma ch_run_inv ops ch got :
  (∀ o, o ∈ ops → o ≠ ChHangUp) → 0 <= dropped ch → dropped ch + zlen ops < 2 ^ 64 →
  zlen (queue ch) <= buffer ch → rx_closed ch = false →
  let '(ch', got') := ch_run ops (ch, got) in
  ∃ taken, taken `sublist_of` ch_events ops
    ∧ got' ++ queue ch' = got ++ queue ch ++ taken
    ∧ dropped ch' = dropped ch + (zlen (ch_events ops) - zlen taken)
    ∧ zlen (queue ch') <= buffer ch.
Proof.
  revert ch got. induction ops as [|o ops IH]; intros ch got Ho H0 Hd Hq Hc.
  { exists []. split; [done|]. split; [by rewrite app_nil_r|]. split; [cbn; lia|done]. }
  change (ch_run (o :: ops) (ch, got)) with (ch_run ops (ch_step o (ch, got))).
  assert (∀ o, o ∈ ops → o ≠ ChHangUp) as Ho' by (intros ? ?; apply Ho; by apply elem_of_cons; right).
  pose proof (zlen_nonneg ops) as Hn. rewrite zlen_cons in Hd.
  destruct o as [c| |]; [| |by destruct (Ho ChHangUp (list_elem_of_here _ _))].
  - cbn [ch_step invoke channel_handler]. unfold ch_events. cbn [omap list_omap]. fold (ch_events ops).
    destruct (owned c) as [e|]; [|apply IH; lia || done]. unfold ch_send. rewrite Hc. cbn [orb].
    destruct (Z.leb_spec (buffer ch) (zlen (queue ch))) as [Hfull|Hroom].
    + rewrite Z.mod_small by lia.
      specialize (IH {| queue := queue ch; buffer := buffer ch; rx_closed := false;
                        dropped := dropped ch + 1 |} got Ho').
      cbn [dropped queue buffer rx_closed] in IH.
      destruct (ch_run ops _) as [ch' got']. destruct IH as (taken & Ht & Hg & Hdr & Hl); try lia; try done.
      exists taken. split; [by apply sublist_cons|]. split; [done|]. rewrite zlen_cons. split; [lia|done].
    + specialize (IH {| queue := queue ch ++ [e]; buffer := buffer ch; rx_closed := false;
                        dropped := dropped ch |} got Ho').
      cbn [dropped queue buffer rx_closed] in IH.
      destruct (ch_run ops _) as [ch' got'].
      destruct IH as (taken & Ht & Hg & Hdr & Hl); try (rewrite ?zlen_app; change (zlen [e]) with 1; lia); try done.
      exists (e :: taken). split; [by apply sublist_skip|]. split; [rewrite Hg; by rewrite <- !app_assoc|].
      rewrite !zlen_cons. split; [lia|done].
  - cbn [ch_step]. destruct (queue ch) as [|e q] eqn:Eq.
    + specialize (IH ch got Ho'). rewrite Eq in IH. apply IH; lia || done.
    + specialize (IH {| queue := q; buffer := buffer ch; rx_closed := rx_closed ch; dropped := dropped ch |}
                     (got ++ [e]) Ho').
      cbn [dropped queue buffer rx_closed] in IH.
      destruct (ch_run ops _) as [ch' got']. rewrite zlen_cons in Hq.
      destruct IH as (taken & Ht & Hg & Hdr & Hl); try lia; try done.
      exists taken. split; [done|]. split; [rewrite Hg; by rewrite <- !app_assoc|]. done.
Qed.

(** The adapter loses nothing silently: while the receiver is there, what has
    been received and what is still queued is, in order, the events minus as many
    as the drop counter says, and the queue stays within its bound. *)
Theorem channel_conserves n ops ch :
  new_channel n = Some ch → 0 < n → zlen ops < 2 ^ 64 → (∀ o, o ∈ ops → o ≠ ChHangUp) →
  let '(ch', got) := ch_run ops (ch, []) in
  (got ++ queue ch') `sublist_of` ch_events ops
  ∧ dropped ch' = zlen (ch_events ops) - zlen (got ++ queue ch')
  ∧ zlen (queue ch') <= n.
Proof.
  unfold new_channel. destruct (Z.eqb_spec n 0) as [|_]; [done|]. intros [= <-] Hn Hl Ho.
  pose proof (ch_run_inv ops {| queue := []; buffer := n; rx_closed := false; dropped := 0 |} [] Ho) as H.
  destruct (ch_run ops _) as [ch' got]. cbn [dropped queue buffer rx_closed app] in H.
  destruct H as (taken & Ht & -> & -> & Hq); [lia|lia|unfold zlen; cbn [length]; lia|done|]. split; [done|]. split; [lia|done].
Qed.
