(* ===== verification/World.v ===== *)
(** * What one session owns

    The supervisor builds these objects per session (client/io.rs, [session_once])
    and shares them between the reader and the writer: behind [Arc]s the queues,
    the counters and the token; as channels the messages to the writer. The
    record also holds what a session has done to the outside: the frames written
    and the answers sent to waiting callers. A function of the code that mutates
    these and can fail is a state and error computation on the record. *)

From S2P Require Import Prelude RustStr External Models Errors Session Crypto Auth Store State Scan.
From S2P Require Import Pending Uuid Header EventTables Handler.

(** [fastwebsockets::OpCode] *)
Inductive OpCode := Continuation | OpText | OpBinary | OpClose | Ping | Pong.
#[export] Instance OpCode_eq_dec : EqDecision OpCode.
Proof. solve_decision. Defined.

(** client/writer.rs *)
Inductive WriterMsg :=
| Obligated (opcode : OpCode) (payload : bytes)
| Command (cmd : bytes) (resp : option Sender)
| Shutdown.

(** client/io.rs *)
Inductive IoCommand :=
| Encrypted (cmd : bytes) (resp : Sender)
| Control (uuid value : bytes)
| VisuControl (uuid value visu_pw : bytes)
| DropSession
| Stop.

Record World (S H : Type) := {
  shared : SharedState S;
  pending : PendingQueue;
  visu : VisuQueue;
  liveness : Liveness;
  guarded : HandlerGuard H;
  w_salt : SaltState;
  stopped : bool;
  (** messages on their way to the writer, and whether it still receives *)
  out_queue : list WriterMsg;
  writer_gone : bool;
  (** frames on the wire, oldest first; [false] marks one whose write failed and
      of which only a part may be there *)
  wire : list (OpCode * bytes * bool);
  (** [true] once the read half has been told to fail *)
  aborted : bool;
  delivered : list Delivery;
}.
Arguments shared {S H}. Arguments pending {S H}. Arguments visu {S H}. Arguments liveness {S H}.
Arguments guarded {S H}. Arguments w_salt {S H}. Arguments stopped {S H}. Arguments out_queue {S H}.
Arguments writer_gone {S H}. Arguments wire {S H}. Arguments aborted {S H}. Arguments delivered {S H}.
Arguments Build_World {S H}.

Section world.
Context {S H : Type}.
Implicit Types w : World S H.

Definition upd_shared (f : SharedState S → SharedState S) w : World S H :=
  Build_World (f (shared w)) (pending w) (visu w) (liveness w) (guarded w) (w_salt w) (stopped w)
    (out_queue w) (writer_gone w) (wire w) (aborted w) (delivered w).
Definition set_pending (q : PendingQueue) w : World S H :=
  Build_World (shared w) q (visu w) (liveness w) (guarded w) (w_salt w) (stopped w)
    (out_queue w) (writer_gone w) (wire w) (aborted w) (delivered w).
Definition set_visu (v : VisuQueue) w : World S H :=
  Build_World (shared w) (pending w) v (liveness w) (guarded w) (w_salt w) (stopped w)
    (out_queue w) (writer_gone w) (wire w) (aborted w) (delivered w).
Definition set_liveness (l : Liveness) w : World S H :=
  Build_World (shared w) (pending w) (visu w) l (guarded w) (w_salt w) (stopped w)
    (out_queue w) (writer_gone w) (wire w) (aborted w) (delivered w).
Definition set_guarded (g : HandlerGuard H) w : World S H :=
  Build_World (shared w) (pending w) (visu w) (liveness w) g (w_salt w) (stopped w)
    (out_queue w) (writer_gone w) (wire w) (aborted w) (delivered w).
Definition set_salt (s : SaltState) w : World S H :=
  Build_World (shared w) (pending w) (visu w) (liveness w) (guarded w) s (stopped w)
    (out_queue w) (writer_gone w) (wire w) (aborted w) (delivered w).
Definition set_stopped (b : bool) w : World S H :=
  Build_World (shared w) (pending w) (visu w) (liveness w) (guarded w) (w_salt w) b
    (out_queue w) (writer_gone w) (wire w) (aborted w) (delivered w).
Definition set_out_queue (ms : list WriterMsg) w : World S H :=
  Build_World (shared w) (pending w) (visu w) (liveness w) (guarded w) (w_salt w) (stopped w)
    ms (writer_gone w) (wire w) (aborted w) (delivered w).
Definition set_writer_gone (b : bool) w : World S H :=
  Build_World (shared w) (pending w) (visu w) (liveness w) (guarded w) (w_salt w) (stopped w)
    (out_queue w) b (wire w) (aborted w) (delivered w).
Definition put_frame (f : OpCode * bytes * bool) w : World S H :=
  Build_World (shared w) (pending w) (visu w) (liveness w) (guarded w) (w_salt w) (stopped w)
    (out_queue w) (writer_gone w) (wire w ++ [f]) (aborted w) (delivered w).
Definition set_aborted (b : bool) w : World S H :=
  Build_World (shared w) (pending w) (visu w) (liveness w) (guarded w) (w_salt w) (stopped w)
    (out_queue w) (writer_gone w) (wire w) b (delivered w).
Definition deliver (ds : list Delivery) w : World S H :=
  Build_World (shared w) (pending w) (visu w) (liveness w) (guarded w) (w_salt w) (stopped w)
    (out_queue w) (writer_gone w) (wire w) (aborted w) (delivered w ++ ds).

Definition count (c : Counter) w : World S H := upd_shared (upd_metrics (bump c)) w.
Definition count_by (c : Counter) (n : Z) w : World S H := upd_shared (upd_metrics (bump_by c n)) w.

(** [resp.send(r)] on an optional waiter *)
Definition answer (resp : option Sender) (r : result Error bytes) w : World S H :=
  match resp with Some tx => deliver [(tx, r)] w | None => w end.

(** [out_tx.send(msg)]: fails when the receiver is gone. *)
Definition out_send (m : WriterMsg) w : World S H * bool :=
  if writer_gone w then (w, false) else (set_out_queue (out_queue w ++ [m]) w, true).
End world.

(** The parts a step leaves alone are found by computation. *)
Ltac world_simpl :=
  cbn [shared pending visu liveness guarded w_salt stopped out_queue writer_gone wire aborted delivered
       upd_shared set_pending set_visu set_liveness set_guarded set_salt set_stopped set_out_queue
       set_writer_gone put_frame set_aborted deliver count count_by] in *.

(** ** State and error computations *)

Definition M (W A : Type) : Type := W → W * Result A.
#[export] Instance M_ret W : MRet (M W) := λ A a w, (w, Ok a).
#[export] Instance M_bind W : MBind (M W) := λ A B f m w,
  match m w with (w, Ok a) => f a w | (w, Err e) => (w, Err e) end.

Definition modify {W} (f : W → W) : M W unit := λ w, (f w, Ok tt).
Definition gets {W A} (f : W → A) : M W A := λ w, (w, Ok (f w)).
Definition throw {W A} (e : Error) : M W A := λ w, (w, Err e).
Definition lift {W A} (r : Result A) : M W A := λ w, (w, r).
(** [.map_err(f)] on a computation *)
Definition map_err_m {W A} (f : Error → Error) (m : M W A) : M W A := λ w,
  let '(w, r) := m w in (w, match r with Ok a => Ok a | Err e => Err (f e) end).

Lemma bind_ok {W A B} (m : M W A) (f : A → M W B) w w' a :
  m w = (w', Ok a) → (m ≫= f) w = f a w'.
Proof. unfold mbind, M_bind. by intros ->. Qed.
Lemma bind_err {W A B} (m : M W A) (f : A → M W B) w w' e :
  m w = (w', Err e) → (m ≫= f) w = (w', Err e).
Proof. unfold mbind, M_bind. by intros ->. Qed.

(** A guarded closure. *)
Definition guard_m {S H} `{!LoxHandler H} {R} (cs : list Call) (r : R) : M (World S H) R := λ w,
  let '(g, o) := guard_or_fail cs r (guarded w) in (set_guarded g w, o).

(** Run the first computation of a bind in a hypothesis; the second goal is the
    one in which it fails. *)
Ltac bind_step E s1 a Em :=
  match type of E with
  | mbind _ ?m ?s0 = _ =>
      destruct (m s0) as [s1 [a|?]] eqn:Em;
      [rewrite (bind_ok _ _ _ _ _ Em) in E|rewrite (bind_err _ _ _ _ _ Em) in E]
  end.
