(* ===== verification/Reader.v ===== *)
(** * client/reader.rs: the read loop

    A read is an input: how long it took and what came of it. [read_frame] of the
    WebSocket library may first ask for a control frame to be sent (the close echo,
    a pong); that request is part of the input too. *)

From S2P Require Import Prelude RustStr External Models Errors Session Crypto Auth Store State Scan.
From S2P Require Import Pending Uuid Header EventTables Handler World.

Inductive ReadOutcome :=
| ROClosed (close_code : option Z)
| IdleTimeout
| Failed (e : Error).

Inductive FrameExpect :=
| ExpectHeader (announced : Z)
| ExpectPayload (msg_type : Z) (len : Z).
Definition START : FrameExpect := ExpectHeader 0.
Definition announced_len (e : FrameExpect) : Z :=
  match e with ExpectHeader announced => announced | ExpectPayload _ len => len end.

(** [u16::from_be_bytes] *)
Definition parse_close_code (payload : bytes) : option Z :=
  match payload with
  | b0 :: b1 :: _ => Some (u8 b0 * 256 + u8 b1)
  | _ => None
  end.

Section reader.
Context {S H : Type} {TS : TokenStore S} {LH : LoxHandler H}.
Context {zc : ZeroCopy} {J : Json} {D : Digests} {X : Hex}.
Context {U : Utf8Text} {A : AesCbc} {B : Base64} {P : PercentDecode}.
(** the session keys, the idle window, and the text of the error [read_frame]
    returns when the requested control frame cannot be sent *)
Context (keys : SessionKeys) (idle_timeout : Z) (send_failed : bytes).
Implicit Types w : World S H.

(** The callbacks for a message, and whether it was an event at all. *)
Definition dispatch_event (msg_type : Z) (payload : bytes) : list Call * bool :=
  match mt_from_u8 msg_type with
  | Some BinaryFile => ([on_binary payload], true)
  | Some ValueStates => (map (λ '(uuid, value), on_value uuid value) (Value.walk_values payload), true)
  | Some TextStates =>
      (map (λ '(uuid, icon, text), on_text uuid icon text) (Text.walk_texts payload), true)
  | Some DaytimerStates => (map on_daytimer (Daytimer.walk_daytimers payload), true)
  | Some WeatherStates => (map on_weather (Weather.walk_weather payload), true)
  | _ => ([], false)
  end.

(** The [for item in items] loop of [flush_visu]. *)
Fixpoint send_secured (key_salt : KeySalt) (items : list VisuPending) w : World S H :=
  match items with
  | [] => w
  | item :: items =>
      match hash_visu_password key_salt (visu_pw item) with
      | Ok hash =>
          let cmd := bs "jdev/sps/ios/" ++ hash ++ bs "/" ++ v_uuid item ++ bs "/" ++ v_value item in
          let '(w, sent) := out_send (Command cmd None) w in
          if sent then send_secured key_salt items w else w
      | Err _ => send_secured key_salt items w
      end
  end.

Definition flush_visu (payload : bytes) w : World S H :=
  match parse_key_salt payload with
  | Err _ => set_visu (fst (visu_drain (visu w))) w
  | Ok key_salt =>
      let '(v, items) := visu_drain (visu w) in
      send_secured key_salt items (set_visu v w)
  end.

Definition on_text_message (payload : bytes) : M (World S H) unit :=
  let control := extract_ll_control payload in
  resolved ← (λ w,
    let '(r, q) := resolve control keys (pending w) in
    (set_pending (match r with None => note_unsolicited q | Some _ => q end) w, Ok r));
  match resolved with
  | None =>
      _ ← modify (count unsolicited_responses);
      guard_m [on_json payload] tt
  | Some r =>
      _ ← modify (λ w, if matched r then w else count correlation_mismatches w);
      _ ← modify (λ w, if starts_with CMD_GET_VISUAL_PASSWD (r_plaintext_cmd r)
                          && match visu w with [] => false | _ => true end
                       then flush_visu payload w else w);
      modify (answer (r_resp r) (Ok payload))
  end.

(** The arm for type-6 messages up to the callback; [elapsed] saturates. *)
Definition on_ack (now : Z) w : World S H :=
  let '(l, sent) := record_ack (liveness w) in
  let w := set_liveness l w in
  match sent with
  | Some t => upd_shared (upd_metrics (set_keepalive_rtt (Z.max 0 (now - t)))) w
  | None => w
  end.

Definition dispatch (now msg_type : Z) (payload : bytes) : M (World S H) unit :=
  _ ← modify (upd_shared (upd_metrics (record_message msg_type)));
  let '(calls, is_event) := dispatch_event msg_type payload in
  dispatched ← guard_m (on_raw_payload msg_type payload :: calls) is_event;
  if dispatched : bool then mret tt
  else
    match mt_from_u8 msg_type with
    | Some Text => on_text_message payload
    | Some Keepalive =>
        _ ← modify (on_ack now);
        guard_m [on_keepalive] tt
    | _ => mret tt
    end.

Definition on_data_frame (now : Z) (expect : FrameExpect) (payload : bytes) :
    M (World S H) (FrameExpect * option ReadOutcome) :=
  match expect with
  | ExpectHeader _ =>
      match parse_header payload with
      | Ok (Some hdr) =>
          if is_estimated hdr then mret (ExpectHeader (payload_len hdr), None)
          else if u8 (identifier hdr) =? mt_as_u8 OutOfService then
            mret (expect, Some (ROClosed (Some 1012)))
          else
            let len := payload_len hdr in
            if len =? 0 then
              _ ← dispatch now (u8 (identifier hdr)) [];
              mret (START, None)
            else mret (ExpectPayload (u8 (identifier hdr)) len, None)
      | Ok None => mret (expect, None)
      | Err _ => mret (expect, None)
      end
  | ExpectPayload msg_type _ =>
      _ ← dispatch now msg_type payload;
      mret (START, None)
  end.

(** One call of [read_frame]: how long it takes, the control frame it asks for
    first, and its result, with the time at which it returns. *)
Record Read := {
  waited : Z;
  obligated : option (OpCode * bytes);
  frame : (OpCode * bytes) + bytes;
  at_ : Z;
}.

Definition read_frame (r : Read) w : World S H * ((OpCode * bytes) + bytes) :=
  match obligated r with
  | None => (w, frame r)
  | Some (opcode, payload) =>
      let '(w, sent) := out_send (Obligated opcode payload) w in
      (w, if sent then frame r else inr send_failed)
  end.

(** One iteration of the loop: [Some] is the outcome the loop returns. *)
Definition read_step (r : Read) (expect : FrameExpect) w : World S H * FrameExpect * option ReadOutcome :=
  if read_timeout idle_timeout (announced_len expect) <? waited r then (w, expect, Some IdleTimeout)
  else
    match read_frame r w with
    | (w, inr e) => (w, expect, Some (Failed (WebSocket e)))
    | (w, inl (opcode, payload)) =>
        match opcode with
        | OpClose => (w, expect, Some (ROClosed (parse_close_code payload)))
        | OpText | OpBinary =>
            match on_data_frame (at_ r) expect payload w with
            | (w, Ok (expect, o)) => (w, expect, o)
            | (w, Err e) => (w, expect, Some (Failed e))
            end
        | Ping | Pong | Continuation => (w, expect, None)
        end
    end.

(** [None]: all reads are consumed and the loop goes on. *)
Fixpoint run (reads : list Read) (expect : FrameExpect) w : World S H * option ReadOutcome :=
  match reads with
  | [] => (w, None)
  | r :: reads =>
      match read_step r expect w with
      | (w, expect, None) => run reads expect w
      | (w, _, Some o) => (w, Some o)
      end
  end.

(** ** The stream of messages *)

(** A message as the reader hands it on: its type, its payload, when it was complete. *)
Definition Msg : Type := Z * bytes * Z.

(** The frames of a sequence of messages. Before a message there may be frames
    that are no header and headers with the estimated bit; an exact header with a
    length is followed by its payload. *)
Inductive encodes : list (bytes * Z) → list Msg → Prop :=
| enc_nil : encodes [] []
| enc_junk p t fs ms :
    (∀ h, parse_header p ≠ Ok (Some h)) → encodes fs ms → encodes ((p, t) :: fs) ms
| enc_estimated p t h fs ms :
    parse_header p = Ok (Some h) → is_estimated h = true → encodes fs ms → encodes ((p, t) :: fs) ms
| enc_empty p t h fs ms :
    parse_header p = Ok (Some h) → is_estimated h = false →
    u8 (identifier h) ≠ mt_as_u8 OutOfService → payload_len h = 0 →
    encodes fs ms → encodes ((p, t) :: fs) ((u8 (identifier h), [], t) :: ms)
| enc_payload p t h body t' fs ms :
    parse_header p = Ok (Some h) → is_estimated h = false →
    u8 (identifier h) ≠ mt_as_u8 OutOfService → payload_len h ≠ 0 →
    encodes fs ms → encodes ((p, t) :: (body, t') :: fs) ((u8 (identifier h), body, t') :: ms).

Definition is_data (o : OpCode) : bool := match o with OpText | OpBinary => true | _ => false end.

(** The data frames among the reads. *)
Definition data_frames (reads : list Read) : list (bytes * Z) :=
  omap (λ r, match frame r with
             | inl (o, p) => if is_data o then Some (p, at_ r) else None
             | inr _ => None
             end) reads.

(** A read in time, of anything but a close frame. *)
Definition live_read (r : Read) : Prop :=
  waited r <= idle_timeout ∧ obligated r = None
  ∧ ∃ o p, frame r = inl (o, p) ∧ o ≠ OpClose.

Fixpoint dispatch_all (ms : list Msg) : M (World S H) unit :=
  match ms with
  | [] => mret tt
  | (ty, payload, t) :: ms => _ ← dispatch t ty payload; dispatch_all ms
  end.

Definition encodes_at (e : FrameExpect) (fs : list (bytes * Z)) (ms : list Msg) : Prop :=
  match e with
  | ExpectHeader _ => encodes fs ms
  | ExpectPayload ty _ =>
      ∃ body t fs' ms', fs = (body, t) :: fs' ∧ ms = (ty, body, t) :: ms' ∧ encodes fs' ms'
  end.

Definition outcome_of (r : World S H * Result unit) : World S H * option ReadOutcome :=
  match r with
  | (w, Ok _) => (w, None)
  | (w, Err e) => (w, Some (Failed e))
  end.

Lemma read_window e : 0 <= announced_len e → idle_timeout <= read_timeout idle_timeout (announced_len e).
Proof using. intros Hl. by apply read_timeout_bounds. Qed.

Lemma live_read_step r e w :
  live_read r → 0 <= announced_len e →
  read_step r e w
  = match frame r with
    | inl (o, p) =>
        if is_data o then
          match on_data_frame (at_ r) e p w with
          | (w, Ok (e, o)) => (w, e, o)
          | (w, Err err) => (w, e, Some (Failed err))
          end
        else (w, e, None)
    | inr _ => (w, e, None)
    end.
Proof using.
  intros (Hw & Ho & o & p & Hf & Hc) Hl. unfold read_step, read_frame.
  rewrite (proj2 (Z.ltb_ge _ _)), Ho, Hf by (pose proof (read_window e Hl); lia).
  by destruct o.
Qed.

Lemma payload_len_nonneg h : 0 <= payload_len h.
Proof using. apply le_Z_range. Qed.

(** The effect of one data frame on what is left to dispatch. *)
Lemma data_frame_refines t e p fs ms w :
  encodes_at e ((p, t) :: fs) ms →
  (∃ e', on_data_frame t e p w = (w, Ok (e', None)) ∧ 0 <= announced_len e' ∧ encodes_at e' fs ms)
  ∨ (0 <= announced_len e → on_data_frame t e p w = (w, Ok (e, None)) ∧ encodes_at e fs ms)
  ∨ (∃ ty payload ms', ms = (ty, payload, t) :: ms' ∧ encodes fs ms'
       ∧ on_data_frame t e p w
         = match dispatch t ty payload w with
           | (w, Ok _) => (w, Ok (START, None))
           | (w, Err err) => (w, Err err)
           end).
Proof using.
  destruct e as [announced|ty len]; cbn [encodes_at on_data_frame].
  - inversion 1 as [|? ? ? ? Hp Hr|? ? h ? ? Hp He Hr|? ? h ? ? Hp He Hid Hlen Hr|? ? h body t' fs' ms' Hp He Hid Hlen Hr];
      subst.
    + right. left. intros _. destruct (parse_header p) as [[h|]|err]; [by destruct (Hp h)|done|done].
    + left. rewrite Hp, He. eexists. split; [done|]. split; [apply payload_len_nonneg|done].
    + right. right. rewrite Hp, He, (proj2 (Z.eqb_neq _ _)), Hlen by done. cbn [Z.eqb].
      exists (u8 (identifier h)), [], ms0. split; [done|]. split; [done|].
      unfold mbind, M_bind. by destruct (dispatch t _ [] w) as [w' [[]|err]].
    + left. rewrite Hp, He, (proj2 (Z.eqb_neq _ _)), (proj2 (Z.eqb_neq _ _)) by done.
      eexists. split; [done|]. split; [apply payload_len_nonneg|]. cbn. eauto 10.
  - intros (body & t' & fs' & ms' & [= <- <- <-] & -> & Hr). right. right.
    exists ty, p, ms'. split; [done|]. split; [done|].
    unfold mbind, M_bind. by destruct (dispatch t ty p w) as [w' [[]|err]].
Qed.

Lemma run_refines reads e ms w :
  Forall live_read reads → 0 <= announced_len e → encodes_at e (data_frames reads) ms →
  run reads e w = outcome_of (dispatch_all ms w).
Proof using.
  intros Hl. revert e ms w. induction Hl as [|r reads Hr _ IH]; intros e ms w He Henc.
  { destruct e as [a|ty len]; cbn [encodes_at data_frames omap list_omap] in Henc; [by inversion Henc|].
    by destruct Henc as (? & ? & ? & ? & ? & _). }
  cbn [run]. rewrite live_read_step by done. unfold data_frames in Henc. cbn [omap list_omap] in Henc.
  destruct Hr as (_ & _ & o & p & Hf & _). rewrite Hf in Henc |- *.
  destruct (is_data o); [|by apply IH].
  apply (data_frame_refines (at_ r) e p _ ms w) in Henc
    as [(e' & -> & He' & Henc)|[Hj|(ty & payload & ms' & -> & Henc & ->)]].
  - by apply IH.
  - destruct (Hj He) as [-> Henc]. by apply IH.
  - cbn [dispatch_all]. unfold mbind, M_bind.
    destruct (dispatch (at_ r) ty payload w) as [w' [[]|err]]; [|done]. by apply IH.
Qed.

(** ** The callbacks of a message *)

Lemma guard_m_spec {R} cs (r : R) w w' o :
  guard_m cs r w = (w', o) →
  w' = set_guarded (guarded w') w
  ∧ match o with
    | Ok r' => r' = r ∧ panicked (guarded w) = false ∧ panicked (guarded w') = false
               ∧ history (guarded w') = history (guarded w) ++ cs
    | Err e => e = HandlerPanic ∧ panicked (guarded w') = true
               ∧ (panicked (guarded w) = true → guarded w' = guarded w)
               ∧ ∃ made, made `prefix_of` cs ∧ history (guarded w') = history (guarded w) ++ made
    end.
Proof using.
  unfold guard_m. destruct (guard_or_fail cs r (guarded w)) as [g o'] eqn:E. intros [= <- <-].
  split; [done|]. by apply guard_or_fail_spec in E.
Qed.

(** What [on_text_message] does when a waiter is there. *)
Definition resolved_world (payload : bytes) (r : Resolved) w : World S H :=
  let w := if matched r then w else count correlation_mismatches w in
  let w := if starts_with CMD_GET_VISUAL_PASSWD (r_plaintext_cmd r)
                && match visu w with [] => false | _ => true end
           then flush_visu payload w else w in
  answer (r_resp r) (Ok payload) w.

Lemma on_text_message_eq payload w :
  on_text_message payload w
  = match resolve (extract_ll_control payload) keys (pending w) with
    | (None, q) =>
        guard_m [on_json payload] tt (count unsolicited_responses (set_pending (note_unsolicited q) w))
    | (Some r, q) => (resolved_world payload r (set_pending q w), Ok tt)
    end.
Proof using.
  unfold on_text_message, mbind, M_bind. by destruct (resolve (extract_ll_control payload) keys (pending w)) as [[r|] q].
Qed.

Lemma send_secured_frame ks items w :
  ∃ ms, send_secured ks items w = set_out_queue (out_queue w ++ ms) w
    ∧ Forall (λ m, ∃ item hash, item ∈ items ∧ hash_visu_password ks (visu_pw item) = Ok hash
               ∧ m = Command (bs "jdev/sps/ios/" ++ hash ++ bs "/" ++ v_uuid item
                              ++ bs "/" ++ v_value item) None) ms.
Proof using.
  revert w. induction items as [|item items IH]; intros w; cbn [send_secured].
  { exists []. split; [|done]. rewrite app_nil_r. by destruct w. }
  assert (∀ ms, Forall (λ m, ∃ i hash, i ∈ items ∧ hash_visu_password ks (visu_pw i) = Ok hash
            ∧ m = Command (bs "jdev/sps/ios/" ++ hash ++ bs "/" ++ v_uuid i ++ bs "/" ++ v_value i) None) ms →
          Forall (λ m, ∃ i hash, i ∈ item :: items ∧ hash_visu_password ks (visu_pw i) = Ok hash
            ∧ m = Command (bs "jdev/sps/ios/" ++ hash ++ bs "/" ++ v_uuid i ++ bs "/" ++ v_value i) None) ms)
    as Hweak.
  { intros ms Hms. eapply Forall_impl; [exact Hms|]. intros m (i & h & Hi & ?). exists i, h.
    split; [by apply elem_of_cons; right|done]. }
  destruct (hash_visu_password ks (visu_pw item)) as [hash|err] eqn:Eh.
  - unfold out_send. destruct (writer_gone w).
    + exists []. split; [|done]. rewrite app_nil_r. by destruct w.
    + set (m := Command _ None).
      destruct (IH (set_out_queue (out_queue w ++ [m]) w)) as (ms & -> & Hms).
      exists (m :: ms). cbn [out_queue set_out_queue]. rewrite <- (app_assoc (out_queue w)). split; [done|].
      constructor; [|by apply Hweak]. exists item, hash. split; [apply list_elem_of_here|done].
  - destruct (IH w) as (ms & -> & Hms). exists ms. split; [done|by apply Hweak].
Qed.

(** Only the queue of secured commands and the messages to the writer change. *)
Lemma flush_visu_frame payload w :
  ∃ ms, flush_visu payload w = set_out_queue (out_queue w ++ ms) (set_visu [] w)
    ∧ Forall (λ m, ∃ ks item hash, parse_key_salt payload = Ok ks ∧ item ∈ visu w
               ∧ hash_visu_password ks (visu_pw item) = Ok hash
               ∧ m = Command (bs "jdev/sps/ios/" ++ hash ++ bs "/" ++ v_uuid item
                              ++ bs "/" ++ v_value item) None) ms.
Proof using.
  unfold flush_visu. destruct (parse_key_salt payload) as [ks|err]; cbn [visu_drain fst].
  - destruct (send_secured_frame ks (visu w) (set_visu [] w)) as (ms & -> & Hms).
    exists ms. split; [done|]. eapply Forall_impl; [exact Hms|].
    intros m (item & hash & ? & ? & ->). eauto 10.
  - exists []. split; [|done]. rewrite app_nil_r. by destruct w.
Qed.

(** The callbacks of a message beyond the table it carries. *)
Definition extra_calls (ty : Z) (payload : bytes) w : list Call :=
  match mt_from_u8 ty with
  | Some Text => match entries (pending w) with [] => [on_json payload] | _ => [] end
  | Some Keepalive => [on_keepalive]
  | _ => []
  end.

Definition table_calls (ty : Z) (payload : bytes) : list Call :=
  on_raw_payload ty payload :: fst (dispatch_event ty payload).

Definition guard_post (w w' : World S H) (r : Result unit) (cs : list Call) : Prop :=
  match r with
  | Ok _ => panicked (guarded w) = false ∧ panicked (guarded w') = false
            ∧ history (guarded w') = history (guarded w) ++ cs
  | Err e => e = HandlerPanic ∧ panicked (guarded w') = true
             ∧ (panicked (guarded w) = true → guarded w' = guarded w)
             ∧ ∃ made, made `prefix_of` cs ∧ history (guarded w') = history (guarded w) ++ made
  end.

Lemma resolved_world_guarded payload r w : guarded (resolved_world payload r w) = guarded w.
Proof using.
  unfold resolved_world, answer.
  assert (∀ w0 : World S H, guarded (match r_resp r with Some tx => deliver [(tx, Ok payload)] w0 | None => w0 end)
          = guarded w0) as -> by (by destruct (r_resp r)).
  set (w0 := if matched r then _ else _). assert (guarded w0 = guarded w) as <- by (by unfold w0; destruct (matched r)).
  destruct (_ && _); [|done]. by destruct (flush_visu_frame payload w0) as (ms & -> & _).
Qed.

Lemma on_text_message_calls payload w w' r :
  panicked (guarded w) = false → on_text_message payload w = (w', r) →
  guard_post w w' r (match entries (pending w) with [] => [on_json payload] | _ => [] end).
Proof using.
  intros Hp. rewrite on_text_message_eq. unfold resolve. destruct (entries (pending w)) as [|e es].
  - intros E. apply guard_m_spec in E as [_ E]. destruct r as [[]|err]; cbn in E |- *; [|done].
    by destruct E as (_ & ? & ? & ?).
  - destruct (match extract_ll_control payload with Some _ => _ | None => _ end) as [ok dec].
    intros [= <- <-]. cbn [guard_post]. rewrite resolved_world_guarded. cbn [guarded set_pending].
    by rewrite app_nil_r.
Qed.

Lemma dispatch_calls t ty payload w w' r :
  dispatch t ty payload w = (w', r) →
  guard_post w w' r (table_calls ty payload ++ extra_calls ty payload w).
Proof using.
  unfold dispatch, table_calls. destruct (dispatch_event ty payload) as [calls ev] eqn:Ede.
  unfold mbind at 1, M_bind at 1. cbn [modify]. set (w0 := upd_shared _ w).
  destruct (guard_m (on_raw_payload ty payload :: calls) ev w0) as [w1 [d|err]] eqn:E.
  2:{ rewrite (bind_err _ _ _ _ _ E). intros [= <- <-]. apply guard_m_spec in E as [_ (? & ? & ? & made & Hm & ?)].
      split; [done|]. split; [done|]. split; [done|]. exists made. split; [|done].
      cbn [fst]. by apply prefix_app_r. }
  rewrite (bind_ok _ _ _ _ _ E). apply guard_m_spec in E as [Hw1 (-> & Hp & Hp1 & Hh)].
  assert (pending w1 = pending w) as Hpend by (by rewrite Hw1).
  assert (∀ r0 cs, guard_post w1 w' r0 cs → guard_post w w' r0 ((on_raw_payload ty payload :: calls) ++ cs))
    as Hseq.
  { intros [[]|err] cs; cbn [guard_post].
    - intros (_ & ? & ->). rewrite Hh. by rewrite <- app_assoc.
    - intros (? & ? & _ & made & Hm & ->). split; [done|]. split; [done|].
      split; [cbn in Hp; congruence|]. exists ((on_raw_payload ty payload :: calls) ++ made). split.
      + by apply prefix_app.
      + rewrite Hh. by rewrite <- app_assoc. }
  assert (guard_post w1 w1 (Ok tt) []) as Hskip by (cbn; by rewrite app_nil_r).
  cbn [fst]. unfold extra_calls. rewrite <- Hpend. unfold dispatch_event in Ede.
  destruct (mt_from_u8 ty) as [[]|]; injection Ede as <- <-; try (by intros [= <- <-]; apply Hseq).
  - intros Et. apply Hseq. by apply on_text_message_calls.
  - unfold mbind, M_bind. cbn [modify]. intros Et. apply Hseq. apply guard_m_spec in Et as [_ Et].
    assert (guarded (on_ack t w1) = guarded w1) as Hg.
    { unfold on_ack. destruct (record_ack _) as [l [s|]]; done. }
    rewrite Hg in Et. destruct r as [[]|err]; [by destruct Et as (_ & ?)|done].
Qed.

(** The callbacks that carry a payload: everything but answers nobody waits for,
    keepalives and lifecycle events. *)
Definition is_table (c : Call) : bool :=
  match c with on_json _ | on_keepalive | on_event _ => false | _ => true end.

Lemma table_calls_tables ty payload : Forall (λ c, is_table c = true) (table_calls ty payload).
Proof using.
  unfold table_calls, dispatch_event. constructor; [done|].
  destruct (mt_from_u8 ty) as [[]|]; cbn [fst]; try constructor; try done;
    apply Forall_map, Forall_true; by try (intros [[? ?] ?] || intros [? ?] || intros ?).
Qed.

Lemma extra_calls_tables ty payload w : filter (λ c, is_table c = true) (extra_calls ty payload w) = [].
Proof using. unfold extra_calls. destruct (mt_from_u8 ty) as [[]|]; try done. by destruct (entries _). Qed.

Lemma dispatch_all_history ms w w' :
  dispatch_all ms w = (w', Ok tt) →
  filter (λ c, is_table c = true) (history (guarded w'))
  = filter (λ c, is_table c = true) (history (guarded w))
    ++ concat (map (λ '(ty, payload, _), table_calls ty payload) ms).
Proof using.
  revert w. induction ms as [|[[ty payload] t] ms IH]; intros w; cbn [dispatch_all].
  { intros [= <-]. by rewrite app_nil_r. }
  destruct (dispatch t ty payload w) as [w1 [[]|err]] eqn:E;
    [rewrite (bind_ok _ _ _ _ _ E)|by rewrite (bind_err _ _ _ _ _ E)].
  intros ->%IH. apply dispatch_calls in E as (_ & _ & ->). rewrite !filter_app.
  rewrite extra_calls_tables, (list_filter_all _ (table_calls ty payload)) by apply table_calls_tables.
  cbn [map concat]. by rewrite app_nil_r, <- app_assoc.
Qed.

(** [C1] The read loop decodes the stream. For reads in time and without a close
    frame, with control frames anywhere between them: if the data frames are those
    of a sequence of messages, each possibly announced by estimated headers and
    preceded by frames that are no header, then the loop does what dispatching
    the messages one after the other does, and stops at the first that fails.
    When none fails, the callbacks carrying data are exactly those of the
    messages, in order: the raw payload, then the records of its table. *)
Theorem reader_decodes_stream reads ms w :
  Forall live_read reads → encodes (data_frames reads) ms →
  run reads START w = outcome_of (dispatch_all ms w)
  ∧ ∀ w', run reads START w = (w', None) →
      filter (λ c, is_table c = true) (history (guarded w'))
      = filter (λ c, is_table c = true) (history (guarded w))
        ++ concat (map (λ '(ty, payload, _), table_calls ty payload) ms).
Proof using.
  intros Hl He. assert (run reads START w = outcome_of (dispatch_all ms w)) as Hrun by (by apply run_refines).
  split; [done|]. rewrite Hrun. intros w'. unfold outcome_of.
  destruct (dispatch_all ms w) as [w1 [[]|err]] eqn:E; intros [= <-]. by apply dispatch_all_history.
Qed.

(** ** Unwinding handlers *)

Lemma out_send_guarded m w : guarded (fst (out_send m w)) = guarded w.
Proof using. unfold out_send. by destruct (writer_gone w). Qed.

Lemma read_step_panic r e w w' e' o :
  panicked (guarded w) = false → read_step r e w = (w', e', o) →
  (panicked (guarded w') = true ∧ o = Some (Failed HandlerPanic))
  ∨ (panicked (guarded w') = false ∧ o ≠ Some (Failed HandlerPanic)).
Proof using.
  intros Hp. unfold read_step. destruct (_ <? _); [intros [= <- <- <-]; by right|].
  assert (panicked (guarded (fst (read_frame r w))) = false) as Hf.
  { unfold read_frame. destruct (obligated r) as [[op p]|]; [|done].
    pose proof (out_send_guarded (Obligated op p) w) as Ho.
    destruct (out_send (Obligated op p) w). cbn in *. by rewrite Ho. }
  destruct (read_frame r w) as [w1 [[op p]|err]]; cbn [fst] in Hf; [|intros [= <- <- <-]; by right].
  assert (∀ ty payload w2 r2, dispatch (at_ r) ty payload w1 = (w2, r2) →
    match r2 with Ok _ => panicked (guarded w2) = false
                | Err e0 => e0 = HandlerPanic ∧ panicked (guarded w2) = true end) as Hd.
  { intros ty payload w2 [[]|e0] E; apply dispatch_calls in E; [by destruct E as (_ & ? & _)|].
    by destruct E as (? & ? & _). }
  assert (∀ w2 r2, on_data_frame (at_ r) e p w1 = (w2, r2) →
    match r2 with
    | Ok (_, o2) => panicked (guarded w2) = false ∧ o2 ≠ Some (Failed HandlerPanic)
    | Err e0 => e0 = HandlerPanic ∧ panicked (guarded w2) = true end) as Hdf.
  { intros w2 r2. unfold on_data_frame. destruct e as [a|ty len].
    - destruct (parse_header p) as [[h|]|e0]; try (by intros [= <- <-]).
      destruct (is_estimated h); [by intros [= <- <-]|]. destruct (_ =? mt_as_u8 OutOfService); [by intros [= <- <-]|].
      destruct (payload_len h =? 0); [|by intros [= <- <-]]. unfold mbind, M_bind.
      destruct (dispatch _ _ _ w1) as [w3 r3] eqn:E. apply Hd in E. by destruct r3; intros [= <- <-].
    - unfold mbind, M_bind. destruct (dispatch _ _ _ w1) as [w3 r3] eqn:E. apply Hd in E.
      by destruct r3; intros [= <- <-]. }
  destruct (on_data_frame (at_ r) e p w1) as [w2 [[e2 o2]|e0]]; destruct (Hdf _ _ eq_refl) as [E1 E2];
    destruct op; intros [= <- <- <-]; try (by right); left; by subst.
Qed.

(** A callback that unwinds ends the session and nothing else pretends to: the
    read loop fails with [HandlerPanic] exactly when the guard has caught an unwind. *)
Lemma reader_panic_iff reads e w w' o :
  panicked (guarded w) = false → run reads e w = (w', o) →
  panicked (guarded w') = true ↔ o = Some (Failed HandlerPanic).
Proof using.
  revert e w. induction reads as [|r reads IH]; intros e w Hp; cbn [run].
  { intros [= <- <-]. rewrite Hp. by split. }
  destruct (read_step r e w) as [[w1 e1] o1] eqn:E.
  apply read_step_panic in E as [[Hp1 ->]|[Hp1 Ho1]]; [| |done].
  - by intros [= <- <-].
  - destruct o1 as [o1|]; [|by apply IH]. intros [= <- <-]. rewrite Hp1. by split.
Qed.

(** ** What a message changes *)

Lemma mt_from_text ty : mt_from_u8 ty = Some Text → ty = mt_as_u8 Text.
Proof using. destruct ty as [|p|p]; [done| |done]. do 3 (destruct p as [p|p|]; try done). Qed.

(** The parts of the world the reader works on: a message that is no answer
    leaves the queues and the channels alone; an answer resolves the head. *)
Lemma dispatch_effect t ty payload w w' r :
  dispatch t ty payload w = (w', r) →
  (pending w' = pending w ∧ visu w' = visu w ∧ out_queue w' = out_queue w ∧ delivered w' = delivered w)
  ∨ ty = mt_as_u8 Text
    ∧ ∃ w0, pending w0 = pending w ∧ visu w0 = visu w ∧ out_queue w0 = out_queue w
        ∧ delivered w0 = delivered w ∧ writer_gone w0 = writer_gone w
        ∧ on_text_message payload w0 = (w', r).
Proof using.
  unfold dispatch. destruct (dispatch_event ty payload) as [calls ev] eqn:Ede.
  unfold mbind at 1, M_bind at 1. cbn [modify]. set (w0 := upd_shared _ w).
  destruct (guard_m (on_raw_payload ty payload :: calls) ev w0) as [w1 [d|err]] eqn:E.
  2:{ rewrite (bind_err _ _ _ _ _ E). apply guard_m_spec in E as [-> _]. intros [= <- <-]. by left. }
  rewrite (bind_ok _ _ _ _ _ E). apply guard_m_spec in E as [Hw1 _].
  assert (pending w1 = pending w ∧ visu w1 = visu w ∧ out_queue w1 = out_queue w
          ∧ delivered w1 = delivered w ∧ writer_gone w1 = writer_gone w) as (<- & <- & <- & <- & <-)
    by (rewrite Hw1; done).
  destruct d; [intros [= <- <-]; by left|].
  destruct (mt_from_u8 ty) as [mt|] eqn:Emt; [|intros [= <- <-]; by left].
  destruct mt; try (intros [= <- <-]; by left).
  - right. split; [|by exists w1].
    by apply mt_from_text.
  - unfold mbind, M_bind. cbn [modify]. intros Et. left. apply guard_m_spec in Et as [-> _].
    unfold on_ack. destruct (record_ack _) as [l [s|]]; done.
Qed.

Lemma resolved_world_effect payload r w :
  ∃ ms, pending (resolved_world payload r w) = pending w
    ∧ delivered (resolved_world payload r w)
      = delivered w ++ match r_resp r with Some tx => [(tx, Ok payload)] | None => [] end
    ∧ out_queue (resolved_world payload r w) = out_queue w ++ ms
    ∧ (visu (resolved_world payload r w) = visu w ∧ ms = []
       ∨ starts_with CMD_GET_VISUAL_PASSWD (r_plaintext_cmd r) = true
         ∧ visu (resolved_world payload r w) = []
         ∧ Forall (λ m, ∃ ks item hash, parse_key_salt payload = Ok ks ∧ item ∈ visu w
               ∧ hash_visu_password ks (visu_pw item) = Ok hash
               ∧ m = Command (bs "jdev/sps/ios/" ++ hash ++ bs "/" ++ v_uuid item
                              ++ bs "/" ++ v_value item) None) ms).
Proof using.
  unfold resolved_world. set (w0 := if matched r then w else _).
  assert (pending w0 = pending w ∧ delivered w0 = delivered w ∧ out_queue w0 = out_queue w ∧ visu w0 = visu w)
    as (<- & <- & <- & <-) by (unfold w0; by destruct (matched r)).
  destruct (starts_with _ _ && _) eqn:Ev.
  - apply andb_true_iff in Ev as [Ev _]. destruct (flush_visu_frame payload w0) as (ms & -> & Hms).
    exists ms. unfold answer. destruct (r_resp r); cbn; rewrite ?app_nil_r; auto 10.
  - exists []. unfold answer. destruct (r_resp r); cbn; rewrite ?app_nil_r; auto 10.
Qed.

(** Towards the queue of waiters a message is nothing or one answer. *)
Lemma dispatch_queue t ty payload w w' r :
  dispatch t ty payload w = (w', r) →
  ∃ ops out, (ops = [] ∨ ∃ control p, ops = [Answer control p])
    ∧ queue_run keys ops (pending w) = (pending w', out)
    ∧ delivered w' = delivered w ++ out.
Proof using.
  intros E. apply dispatch_effect in E as [(Hp & _ & _ & Hd)|(_ & w0 & <- & _ & _ & <- & _ & E)].
  { exists [], []. rewrite Hp, Hd. cbn. rewrite app_nil_r. auto. }
  exists [Answer (extract_ll_control payload) payload]. rewrite on_text_message_eq in E.
  cbn [queue_run queue_step].
  destruct (resolve (extract_ll_control payload) keys (pending w0)) as [[r0|] q].
  - injection E as <- _. destruct (resolved_world_effect payload r0 (set_pending q w0)) as (ms & Hp & Hd & _).
    eexists. split; [by eauto|]. rewrite Hp, Hd. cbn. by rewrite app_nil_r.
  - apply guard_m_spec in E as [-> _]. exists []. split; [by eauto|]. cbn. by rewrite app_nil_r.
Qed.

(** What belongs to the writer. *)
Definition same_io (w w' : World S H) : Prop :=
  w_salt w' = w_salt w ∧ wire w' = wire w ∧ stopped w' = stopped w
  ∧ writer_gone w' = writer_gone w ∧ aborted w' = aborted w.

Lemma same_io_trans w1 w2 w3 : same_io w1 w2 → same_io w2 w3 → same_io w1 w3.
Proof using. unfold same_io. intuition congruence. Qed.

Lemma resolved_world_io payload r w :
  same_io w (resolved_world payload r w) ∧ liveness (resolved_world payload r w) = liveness w.
Proof using.
  unfold resolved_world. set (w0 := if matched r then w else _).
  assert (same_io w w0 ∧ liveness w0 = liveness w) as [Hio <-] by (unfold w0; by destruct (matched r)).
  destruct (starts_with _ _ && _).
  - destruct (flush_visu_frame payload w0) as (ms & -> & _). unfold answer. by destruct (r_resp r).
  - unfold answer. by destruct (r_resp r).
Qed.

Lemma dispatch_io t ty payload w w' r :
  dispatch t ty payload w = (w', r) →
  same_io w w' ∧ (liveness w' = liveness w ∨ liveness w' = fst (record_ack (liveness w))).
Proof using.
  unfold dispatch. destruct (dispatch_event ty payload) as [calls ev].
  unfold mbind at 1, M_bind at 1. cbn [modify]. set (w0 := upd_shared _ w).
  destruct (guard_m (on_raw_payload ty payload :: calls) ev w0) as [w1 [d|err]] eqn:E.
  2:{ rewrite (bind_err _ _ _ _ _ E). apply guard_m_spec in E as [-> _]. intros [= <- <-]. by split; [|left]. }
  rewrite (bind_ok _ _ _ _ _ E). apply guard_m_spec in E as [Hw1 _].
  assert (same_io w w1 ∧ liveness w1 = liveness w) as [Hio Hl] by (rewrite Hw1; done).
  assert (same_io w w1 ∧ (liveness w1 = liveness w ∨ liveness w1 = fst (record_ack (liveness w)))) as Hw
    by auto.
  destruct d; [by intros [= <- <-]|]. destruct (mt_from_u8 ty) as [[]|]; try (by intros [= <- <-]).
  - rewrite on_text_message_eq. destruct (resolve _ keys (pending w1)) as [[r0|] q].
    + intros [= <- <-]. destruct (resolved_world_io payload r0 (set_pending q w1)) as [Hio' ->].
      split; [exact (same_io_trans _ _ _ Hio Hio')|by left].
    + intros Et. apply guard_m_spec in Et as [-> _]. done.
  - unfold mbind, M_bind. cbn [modify]. intros Et. apply guard_m_spec in Et as [-> _].
    unfold on_ack. rewrite Hl. destruct (record_ack (liveness w)) as [l [s|]]; cbn; auto.
Qed.

(** [C33] Secured commands. The reader sends the writer a command only while it
    resolves the waiter of a [getvisusalt]: each such command is a queued secured
    control with its password replaced by the hash under the key and salt of this
    very answer, and the queue of secured controls is empty afterwards. No other
    message touches that queue. *)
Theorem secured_commands t ty payload w w' r :
  dispatch t ty payload w = (w', r) →
  ∃ ms, out_queue w' = out_queue w ++ ms
    ∧ (visu w' = visu w ∧ ms = []
       ∨ ty = mt_as_u8 Text ∧ visu w' = []
         ∧ (∃ e es, entries (pending w) = e :: es
              ∧ starts_with CMD_GET_VISUAL_PASSWD (plaintext_cmd e) = true)
         ∧ Forall (λ m, ∃ ks item hash, parse_key_salt payload = Ok ks ∧ item ∈ visu w
               ∧ hash_visu_password ks (visu_pw item) = Ok hash
               ∧ m = Command (bs "jdev/sps/ios/" ++ hash ++ bs "/" ++ v_uuid item
                              ++ bs "/" ++ v_value item) None) ms).
Proof using.
  intros E. apply dispatch_effect in E as [(_ & Hv & Ho & _)|(-> & w0 & <- & <- & <- & _ & _ & E)].
  { exists []. rewrite app_nil_r. auto. }
  rewrite on_text_message_eq in E. unfold resolve in E. destruct (entries (pending w0)) as [|e es].
  { apply guard_m_spec in E as [-> _]. exists []. rewrite app_nil_r. auto. }
  destruct (match extract_ll_control payload with Some _ => _ | None => _ end) as [ok dec].
  injection E as <- _. set (r0 := {| r_plaintext_cmd := _ |}). set (q := {| entries := es |}).
  destruct (resolved_world_effect payload r0 (set_pending q w0)) as (ms & _ & _ & Ho & Hv).
  exists ms. split; [exact Ho|]. destruct Hv as [Hv|(Hs & Hv & Hms)]; [by left|right].
  split; [done|]. split; [done|]. split; [by eauto|done].
Qed.
End reader.

(** ** Samples *)

(** A client without a token store, and the handler of the trait's defaults. *)
Definition no_store : TokenStore unit :=
  {| ts_load _ _ := None; ts_save _ _ s := s; ts_clear _ s := s |}.
Definition idle_handler : LoxHandler unit := λ _ h, Returned h.
(** A handler with a bug in [on_value]. *)
Definition buggy_handler : LoxHandler unit := λ c h,
  match c with on_value _ _ => Unwound h | _ => Returned h end.

#[local] Existing Instances zerocopy_model json_model digests_model hex_model aes_model base64_model
  percent_model no_store.
#[local] Instance reader_utf8 : Utf8Text := {| utf8_error _ := bs "invalid utf-8" |}.

Definition sample_world : World unit unit :=
  {| shared := new_shared; pending := new_queue; visu := []; liveness := new_liveness;
     guarded := new_guard tt; w_salt := salt_default; stopped := false; out_queue := [];
     writer_gone := false; wire := []; aborted := false; delivered := [] |}.

Definition read_of (o : OpCode) (p : bytes) : Read :=
  {| waited := 1; obligated := None; frame := inl (o, p); at_ := 0 |}.
Definition sample_header (ty : byte) (info : byte) (l : Z) : bytes :=
  encode_header {| bin_type := MAGIC; identifier := ty; info := info; reserved := Byte.x00;
                   len := le_bytes 4 l |}.

(** A text that is no header, an estimate, a table of values with a ping in the
    middle, and a keepalive answer. *)
Definition sample_reads : list Read :=
  [read_of OpText (bs "hello");
   read_of OpBinary (sample_header Byte.x02 Byte.x01 24);
   read_of OpBinary (sample_header Byte.x02 Byte.x00 24);
   read_of Ping [];
   read_of OpBinary (replicate 24 Byte.x07);
   read_of OpBinary (sample_header Byte.x06 Byte.x00 0)].

Lemma sample_encodes :
  encodes (data_frames sample_reads) [(2, replicate 24 Byte.x07, 0); (6, [], 0)].
Proof.
  apply enc_junk; [intros h; vm_compute; congruence|].
  eapply enc_estimated; [vm_compute; reflexivity|reflexivity|].
  eapply (enc_payload _ _ (hdr_of_bytes (sample_header Byte.x02 Byte.x00 24)));
    [vm_compute; reflexivity|reflexivity|done|done|].
  eapply (enc_empty _ _ (hdr_of_bytes (sample_header Byte.x06 Byte.x00 0)));
    [vm_compute; reflexivity|reflexivity|done|done|constructor].
Qed.

Lemma sample_live : Forall (live_read 100) sample_reads.
Proof.
  repeat apply Forall_cons_2; [..|by apply Forall_nil];
    (split; [done|]; split; [done|]; eexists _, _; split; [reflexivity|done]).
Qed.

Lemma reader_decodes_stream_witness :
  let rd := @run unit unit idle_handler _ _ _ _ _ _ _ _ sample_keys 100 [] in
  rd sample_reads START sample_world
  = outcome_of (@dispatch_all unit unit idle_handler _ _ _ _ _ _ _ _ sample_keys
                  [(2, replicate 24 Byte.x07, 0); (6, [], 0)] sample_world)
  ∧ filter (λ c, is_table c = true) (history (guarded (fst (rd sample_reads START sample_world))))
    = [on_raw_payload 2 (replicate 24 Byte.x07);
       on_value {| uuid_bytes := replicate 16 Byte.x07 |} (le_Z (replicate 8 Byte.x07));
       on_raw_payload 6 []].
Proof.
  intros rd.
  destruct (@reader_decodes_stream unit unit idle_handler _ _ _ _ _ _ _ _ sample_keys 100 [] sample_reads
              [(2, replicate 24 Byte.x07, 0); (6, [], 0)] sample_world sample_live sample_encodes) as [Hr Hh].
  split; [exact Hr|].
  set (w' := fst (rd sample_reads START sample_world)).
  rewrite (Hh w'); [vm_compute; reflexivity|].
  vm_cast_no_check (@eq_refl (World unit unit * option ReadOutcome) (w', None)).
Defined.

(** The handler with the bug takes the loop down at the table of values. *)
Lemma reader_panic_iff_witness :
  let rd := @run unit unit buggy_handler _ _ _ _ _ _ _ _ sample_keys 100 [] sample_reads START sample_world in
  snd rd = Some (Failed HandlerPanic) ∧ panicked (guarded (fst rd)) = true.
Proof.
  intros rd. assert (snd rd = Some (Failed HandlerPanic)) as Ho by (vm_compute; reflexivity).
  split; [exact Ho|].
  apply (@reader_panic_iff unit unit buggy_handler _ _ _ _ _ _ _ _ sample_keys 100 [] sample_reads START
           sample_world (fst rd) (snd rd)); [reflexivity|exact (surjective_pairing rd)|exact Ho].
Defined.

Definition visu_answer : bytes := Eval vm_compute in
  json_text (bs "{'LL':{'control':'w','code':'200','value':{'key':'4141','salt':'ab','hashAlg':'SHA256'}}}").

(** A secured control waits for its [getvisusalt]. *)
Definition visu_world : World unit unit :=
  set_visu [{| v_uuid := bs "u"; v_value := bs "on"; visu_pw := bs "1234" |}]
    (set_pending (push (bs "jdev/sys/getvisusalt/admin") (bs "w") None 30 new_queue) sample_world).

Lemma secured_commands_witness :
  let d := @dispatch unit unit idle_handler _ _ _ _ _ _ _ _ sample_keys 0 0 visu_answer visu_world in
  length (out_queue (fst d)) = 1%nat ∧ visu (fst d) = []
  ∧ ∃ ms, out_queue (fst d) = out_queue visu_world ++ ms
    ∧ (visu (fst d) = visu visu_world ∧ ms = []
       ∨ 0 = mt_as_u8 Text ∧ visu (fst d) = []
         ∧ (∃ e es, entries (pending visu_world) = e :: es
              ∧ starts_with CMD_GET_VISUAL_PASSWD (plaintext_cmd e) = true)
         ∧ Forall (λ m, ∃ ks item hash, parse_key_salt visu_answer = Ok ks ∧ item ∈ visu visu_world
               ∧ hash_visu_password ks (visu_pw item) = Ok hash
               ∧ m = Command (bs "jdev/sps/ios/" ++ hash ++ bs "/" ++ v_uuid item
                              ++ bs "/" ++ v_value item) None) ms).
Proof.
  intros d. split; [vm_compute; reflexivity|]. split; [vm_compute; reflexivity|].
  pose proof (surjective_pairing d) as E. unfold d at 1 in E. clearbody d.
  exact (@secured_commands unit unit idle_handler _ _ _ _ _ _ _ _ sample_keys 0 0 visu_answer visu_world
           (fst d) (snd d) E).
Defined.
