(* ===== verification/Writer.v ===== *)
(** * client/writer.rs: the writer task

    One iteration of the loop takes the [select!] arm that fired, decides what to
    send, writes it and expires waiters. The arm, the randomness, the clock and
    the outcome of the write are inputs. [biased] puts the reader's messages
    first: an arm of the other kinds fires only when there is none. *)

From S2P Require Import Prelude RustStr External Models Errors Session Crypto Auth Store State Scan.
From S2P Require Import Pending Uuid Header EventTables Handler World.

Definition WRITE_TIMEOUT_SECS : Z := 20.

Record WriterConfig := {
  username : bytes;
  keepalive_period : Z;
  command_timeout : Z;
  max_missed_keepalives : Z;
  max_pending : Z;
  kill_token_on_stop : bool;
}.

Inductive Outgoing :=
| OText (text : bytes)
| OControl (opcode : OpCode) (payload : bytes)
| OStop
| OClose
| OIdle.

Inductive WriteResult := WOk | WErr (msg : bytes) | WStalled.

(** What an iteration of the loop finds. *)
Inductive Arm :=
| ArmOutClosed
| ArmCmd (cmd : option IoCommand)
| ArmTick
| ArmExpiry.

Definition KEEPALIVE : bytes := bs "keepalive".

Section writer.
Context {S H : Type} {TS : TokenStore S}.
Context {J : Json} {D : Digests} {X : Hex} {A : AesCbc} {B : Base64}.
Context (keys : SessionKeys) (cfg : WriterConfig).
Implicit Types w : World S H.

(** The clock and the randomness of one command. *)
Record Env := { draw : Draw; now : Z }.

Definition prepare_command (env : Env) (cmd : bytes) (resp : option Sender) w : World S H * Outgoing :=
  let '(st, r) := encrypt (draw env) keys cmd (w_salt w) in
  let w := set_salt st w in
  match r with
  | Ok encrypted =>
      let deadline := now env + command_timeout cfg in
      (set_pending (push cmd encrypted resp deadline (pending w)) w, OText encrypted)
  | Err e => (answer resp (Err e) (count command_errors w), OIdle)
  end.

Definition on_writer_msg (env : Env) (msg : WriterMsg) w : World S H * Outgoing :=
  match msg with
  | Obligated opcode payload => (w, OControl opcode payload)
  | Command cmd resp => prepare_command env cmd resp w
  | Shutdown => (w, OStop)
  end.

Definition on_io_command (env : Env) (cmd : IoCommand) w : World S H * Outgoing :=
  match cmd with
  | Stop => (w, OClose)
  | DropSession => (w, OStop)
  | Encrypted cmd resp =>
      let w := count commands_sent w in
      if max_pending cfg <=? queue_len (pending w) then
        let w := count command_errors w in
        (answer (Some resp)
           (Err (Protocol (bs "too many commands in flight (max " ++ display_Z (max_pending cfg) ++ bs ")")))
           w, OIdle)
      else prepare_command env cmd (Some resp) w
  | Control uuid value =>
      let w := count commands_sent w in
      prepare_command env (bs "jdev/sps/io/" ++ uuid ++ bs "/" ++ value) None w
  | VisuControl uuid value visu_pw =>
      let w := count commands_sent w in
      let w := set_visu (visu_push {| v_uuid := uuid; v_value := value; visu_pw := visu_pw |} (visu w)) w in
      prepare_command env (cmd_get_visu_salt (username cfg)) None w
  end.

Definition on_keepalive_tick (env : Env) w : World S H * Outgoing :=
  let m := missed (liveness w) in
  if max_missed_keepalives cfg <=? m then (count_by keepalive_misses m w, OStop)
  else (set_liveness (record_sent (now env) (liveness w)) w, OText KEEPALIVE).

(** When the timer arm is due: at the oldest deadline, or in an hour. *)
Definition next_expiry w : option Z := next_deadline (pending w).
Definition expiry (t : Z) w : Z := default (t + from_secs 3600) (next_expiry w).

Definition expire_pending (t : Z) w : World S H :=
  let '(q, out, expired) := expire t (pending w) in
  let w := deliver out (set_pending q w) in
  if 0 <? expired then count_by command_timeouts expired w else w.

Definition write_frame (res : WriteResult) (opcode : OpCode) (payload : bytes) : M (World S H) unit := λ w,
  match res with
  | WOk => (put_frame (opcode, payload, true) w, Ok tt)
  | WErr m => (put_frame (opcode, payload, false) w, Err (WebSocket m))
  | WStalled => (put_frame (opcode, payload, false) w, Err (Timeout (bs "socket write stalled")))
  end.

(** ** Shutdown *)

(** One request of the shutdown path: its waiter, what the reader does before the
    write and while the writer waits, and what comes of the wait. *)
Inductive Reply := ReplyTimeout | ReplyGone | ReplyAnswer (r : Result bytes).
Record RequestEnv := {
  req_env : Env;
  req_tx : Sender;
  before_write : World S H → World S H;
  req_write : WriteResult;
  meanwhile : World S H → World S H;
  reply : Reply;
}.

Definition request (r : RequestEnv) (cmd : bytes) : M (World S H) bytes :=
  let label := cmd_label cmd in
  out ← (λ w, let '(w, o) := prepare_command (req_env r) cmd (Some (req_tx r)) w in (w, Ok o));
  match out with
  | OText text =>
      _ ← modify (before_write r);
      _ ← write_frame (req_write r) OpText text;
      _ ← modify (meanwhile r);
      match reply r with
      | ReplyTimeout => throw (Timeout label)
      | ReplyGone => throw ChannelClosed
      | ReplyAnswer a => lift a
      end
  | _ => throw (Protocol (bs "could not encrypt " ++ label))
  end.

Record CloseEnv := {
  getkey_env : RequestEnv;
  kill_env : RequestEnv;
  close_write : WriteResult;
}.

Definition kill_token (c : CloseEnv) : M (World S H) unit :=
  t ← gets (λ w, shared_token (shared w));
  if token_is_empty t then mret tt
  else
    key_resp ← request (getkey_env c) CMD_GET_KEY;
    hash ← lift (build_token_hash key_resp t);
    _ ← request (kill_env c) (cmd_kill_token hash (username cfg));
    mret tt.

(** [Frame::close(1000, b"bye")] *)
Definition close_payload : bytes := [Byte.x03; Byte.xe8] ++ bs "bye".

Definition graceful_close (c : CloseEnv) w : World S H :=
  let w := if kill_token_on_stop cfg
           then upd_shared clear_shared_token (fst (kill_token c w)) else w in
  fst (write_frame (close_write c) OpClose close_payload w).

Definition finish w : World S H :=
  let '(q, out, _) := fail_all (bs "session ended") (pending w) in
  let w := deliver out (set_pending q w) in
  let w := set_visu (fst (visu_drain (visu w))) w in
  set_aborted true w.

(** ** The loop *)

Record Step := {
  arm : Arm;
  env : Env;
  write : WriteResult;
  closing : CloseEnv;
  expire_at : Z;
}.

(** What the [select!] yields. *)
Definition decide_outgoing (s : Step) w : World S H * Outgoing :=
  match out_queue w with
  | m :: ms => on_writer_msg (env s) m (set_out_queue ms w)
  | [] =>
      match arm s with
      | ArmOutClosed => (w, OStop)
      | ArmCmd (Some Stop) | ArmCmd None => (w, OClose)
      | ArmCmd (Some cmd) => on_io_command (env s) cmd w
      | ArmTick => on_keepalive_tick (env s) w
      | ArmExpiry => (w, OIdle)
      end
  end.

(** The write that follows; [false] leaves the loop. *)
Definition perform (s : Step) (outgoing : Outgoing) w : World S H * bool :=
  match outgoing with
  | OIdle => (expire_pending (expire_at s) w, true)
  | OText text =>
      match write_frame (write s) OpText text w with
      | (w, Ok _) => (expire_pending (expire_at s) w, true)
      | (w, Err _) => (count command_errors w, false)
      end
  | OControl opcode payload =>
      match write_frame (write s) opcode payload w with
      | (w, Ok _) => (expire_pending (expire_at s) w, true)
      | (w, Err _) => (w, false)
      end
  | OStop => (w, false)
  | OClose => (graceful_close (closing s) (set_stopped true w), false)
  end.

Definition iteration (s : Step) w : World S H * bool :=
  let '(w, outgoing) := decide_outgoing s w in perform s outgoing w.

(** After the loop; the receiver of the reader's messages goes away with the task. *)
Definition leave w : World S H := set_writer_gone true (set_out_queue [] (finish w)).

(** [false]: the steps are consumed and the loop goes on. *)
Fixpoint run_writer (steps : list Step) w : World S H * bool :=
  match steps with
  | [] => (w, false)
  | s :: steps =>
      match iteration s w with
      | (w, true) => run_writer steps w
      | (w, false) => (leave w, true)
      end
  end.
End writer.

Arguments Step : clear implicits.
Arguments CloseEnv : clear implicits.
Arguments RequestEnv : clear implicits.
