(* ===== verification/Duplex.v ===== *)
(** * The reader and the writer of a session, interleaved

    The two tasks share the queue of waiters, the queue of secured controls, the
    keepalive counters and the channel to the writer. This file runs them against
    each other in every order and shows what the session promises its callers:
    every command it takes is answered once, answers go to commands in the order
    they are on the wire, the Miniserver can decrypt the wire, and the limits on
    outstanding commands and unanswered keepalives hold. *)

From S2P Require Import Prelude RustStr External Models Errors Session Crypto Auth Store State Scan.
From S2P Require Import Pending Uuid Header EventTables Handler World Reader Writer.

Section duplex.
Context {S H : Type} {TS : TokenStore S} {LH : LoxHandler H}.
Context {zc : ZeroCopy} {J : Json} {D : Digests} {X : Hex}.
Context {U : Utf8Text} {A : AesCbc} {B : Base64} {P : PercentDecode}.
Context {AL : AesCbcLaws} {BL : Base64Laws}.
Context (keys : SessionKeys) (idle_timeout : Z) (send_failed : bytes) (cfg : WriterConfig).
Context (Hkeys : wf_keys keys).
Implicit Types w : World S H.

(** ** How a step changes the queue of waiters

    [new] are the commands it enqueues and [rej] the waiters it turns away. *)
Record evolves (new : list PendingEntry) (rej : list Sender) (w w' : World S H) : Prop := {
  ev_order : entries (pending w') `suffix_of` (entries (pending w) ++ new);
  ev_waiters :
    map fst (delivered w') ++ waiting (entries (pending w'))
    ≡ₚ map fst (delivered w) ++ waiting (entries (pending w)) ++ waiting new ++ rej;
  ev_salt : ∃ ds, length ds = length new
    ∧ ∀ more, encrypt_all keys (zip ds (map plaintext_cmd new) ++ more) (w_salt w)
              = map (λ e, Ok (wire_cmd e)) new ++ encrypt_all keys more (w_salt w');
}.

Lemma evolves_refl w w' :
  pending w' = pending w → delivered w' = delivered w → w_salt w' = w_salt w → evolves [] [] w w'.
Proof using.
  intros Hp Hd Hs. constructor; rewrite ?Hp, ?Hd, ?Hs.
  - by rewrite app_nil_r.
  - by rewrite !app_nil_r.
  - by exists [].
Qed.

Lemma waiting_app es es' : waiting (es ++ es') = waiting es ++ waiting es'.
Proof using. apply omap_app. Qed.

Lemma evolves_trans n1 r1 n2 r2 w1 w2 w3 :
  evolves n1 r1 w1 w2 → evolves n2 r2 w2 w3 → evolves (n1 ++ n2) (r1 ++ r2) w1 w3.
Proof using.
  intros [Ho1 Hw1 (ds1 & Hl1 & Hs1)] [Ho2 Hw2 (ds2 & Hl2 & Hs2)]. constructor.
  - etrans; [exact Ho2|]. rewrite app_assoc. by apply suffix_app.
  - rewrite Hw2, (app_assoc (map fst (delivered w2))), Hw1, !waiting_app. solve_Permutation.
  - exists (ds1 ++ ds2). split; [rewrite !length_app; lia|]. intros more.
    rewrite map_app, zip_with_app by (rewrite length_map; done).
    by rewrite <- app_assoc, Hs1, Hs2, map_app, <- app_assoc.
Qed.

(** A step that only takes from the queue, answering whom it takes. *)
Lemma evolves_queue ops out w w' :
  pushed ops = [] → queue_run keys ops (pending w) = (pending w', out) →
  delivered w' = delivered w ++ out → w_salt w' = w_salt w →
  entries (pending w') `suffix_of` entries (pending w) → evolves [] [] w w'.
Proof using.
  intros Hp Hr Hd Hs Ho. constructor.
  - by rewrite app_nil_r.
  - pose proof (queue_run_waiting keys ops (pending w)) as Hq. rewrite Hr, Hp, app_nil_r in Hq.
    rewrite Hd, map_app, Hq. cbn. rewrite app_nil_r. solve_Permutation.
  - exists []. split; [done|]. by rewrite Hs.
Qed.

(** ** The reader's side *)

(** What the reader may put into the channel: the library only ever asks for
    control frames to be sent. *)
Definition from_reader (m : WriterMsg) : Prop :=
  match m with
  | Obligated opcode _ => is_data opcode = false
  | Command _ resp => resp = None
  | Shutdown => True
  end.
Definition control_only (r : Read) : Prop :=
  match obligated r with Some (opcode, _) => is_data opcode = false | None => True end.

(** A change the reader can make. *)
Record reader_change (w w' : World S H) : Prop := {
  rc_evolves : evolves [] [] w w';
  rc_io : same_io w w';
  rc_live : liveness w' = liveness w ∨ liveness w' = fst (record_ack (liveness w));
  rc_out : ∃ ms, out_queue w' = out_queue w ++ ms ∧ Forall from_reader ms;
}.

Lemma queue_answer_suffix ops q q' out :
  ops = [] ∨ (∃ control p, ops = [Answer control p]) → queue_run keys ops q = (q', out) →
  pushed ops = [] ∧ entries q' `suffix_of` entries q.
Proof using.
  intros [->|(control & p & ->)]; cbn [queue_run queue_step].
  { by intros [= <- <-]. }
  unfold resolve. destruct (entries q) as [|e es] eqn:E.
  - intros [= <- <-]. cbn. by rewrite E.
  - destruct (match control with Some _ => _ | None => _ end). intros [= <- <-]. cbn.
    split; [done|]. by apply suffix_cons_r.
Qed.

Lemma dispatch_change t ty payload w w' r :
  dispatch keys t ty payload w = (w', r) → reader_change w w'.
Proof using.
  intros E. pose proof (dispatch_io _ _ _ _ _ _ _ E) as [Hio Hl].
  pose proof (dispatch_queue _ _ _ _ _ _ _ E) as (ops & out & Hops & Hq & Hd).
  destruct (queue_answer_suffix _ _ _ _ Hops Hq) as [Hpush Hsuf].
  constructor; [|done|done|].
  - by eapply evolves_queue; eauto; apply Hio.
  - apply dispatch_effect in E as [(_ & _ & Ho & _)|(_ & w0 & _ & Hv & <- & _ & _ & E)].
    { exists []. by rewrite Ho, app_nil_r. }
    rewrite on_text_message_eq in E. destruct (resolve _ keys (pending w0)) as [[r0|] q].
    + injection E as <- _. destruct (resolved_world_effect payload r0 (set_pending q w0))
        as (ms & _ & _ & Ho & [[_ ->]|(_ & _ & Hms)]); exists ms + exists []; split; try exact Ho; [done|].
      eapply Forall_impl; [exact Hms|]. by intros m (? & ? & ? & _ & _ & _ & ->).
    + apply guard_m_spec in E as [-> _]. exists []. by rewrite app_nil_r.
Qed.

Lemma reader_change_refl w w' :
  pending w' = pending w → delivered w' = delivered w → same_io w w' → liveness w' = liveness w →
  (∃ ms, out_queue w' = out_queue w ++ ms ∧ Forall from_reader ms) → reader_change w w'.
Proof using.
  intros Hp Hd Hio Hl Ho. constructor; auto. apply evolves_refl; [done|done|apply Hio].
Qed.

Lemma read_frame_change r w w' f :
  control_only r → read_frame send_failed r w = (w', f) →
  w' = w ∨ ∃ m, from_reader m ∧ w' = set_out_queue (out_queue w ++ [m]) w.
Proof using.
  unfold control_only, read_frame, out_send. destruct (obligated r) as [[op p]|]; [|intros _ [= <- _]; by left].
  intros Hc. destruct (writer_gone w); intros [= <- _]; [by left|]. right. by exists (Obligated op p).
Qed.

Lemma on_data_frame_change t e p w w' r :
  on_data_frame keys t e p w = (w', r) → w' = w ∨ ∃ ty payload r', dispatch keys t ty payload w = (w', r').
Proof using.
  unfold on_data_frame. destruct e as [a|ty len].
  - destruct (parse_header p) as [[h|]|e0]; try (intros [= <- _]; by left).
    destruct (is_estimated h); [intros [= <- _]; by left|].
    destruct (_ =? mt_as_u8 OutOfService); [intros [= <- _]; by left|].
    destruct (payload_len h =? 0); [|intros [= <- _]; by left]. unfold mbind, M_bind.
    destruct (dispatch _ _ _ _ w) as [w3 r3] eqn:E. destruct r3; intros [= <- _]; eauto.
  - unfold mbind, M_bind. destruct (dispatch _ _ _ _ w) as [w3 r3] eqn:E. destruct r3; intros [= <- _]; eauto.
Qed.

(** One read, in whatever state the reader is. *)
Lemma read_step_change r e w w' e' o :
  control_only r → read_step keys idle_timeout send_failed r e w = (w', e', o) → reader_change w w'.
Proof using.
  intros Hc. unfold read_step.
  assert (reader_change w w) as Hsame by (apply reader_change_refl; try done; exists []; by rewrite app_nil_r).
  destruct (_ <? _); [by intros [= <- _ _]|].
  destruct (read_frame send_failed r w) as [w1 f] eqn:Ef.
  assert (∀ w2, w2 = w1 ∨ (∃ ty payload r', dispatch keys (at_ r) ty payload w1 = (w2, r')) → reader_change w w2)
    as Hstep.
  { intros w2 H2. apply (read_frame_change _ _ _ _ Hc) in Ef as [->|(m & Hm & ->)].
    - destruct H2 as [->|(ty & payload & r' & E)]; [done|by eapply dispatch_change].
    - assert (∃ ms, out_queue w ++ [m] = out_queue w ++ ms ∧ Forall from_reader ms) as Hms
        by (exists [m]; split; [done|by apply Forall_singleton]).
      destruct H2 as [->|(ty & payload & r' & E)].
      { by apply reader_change_refl. }
      apply dispatch_change in E as [[Ho Hw Hs] Hio Hl (ms & Hout & Hf)]. constructor.
      + by constructor.
      + exact Hio.
      + exact Hl.
      + exists (m :: ms). rewrite Hout. cbn. rewrite <- app_assoc. split; [done|by constructor]. }
  destruct f as [[op p]|err]; [|intros [= <- _ _]; by apply Hstep; left].
  destruct op; try (intros [= <- _ _]; by apply Hstep; left);
    (destruct (on_data_frame keys (at_ r) e p w1) as [w2 [[e2 o2]|err]] eqn:Ed;
     apply on_data_frame_change in Ed; intros [= <- _ _]; by apply Hstep).
Qed.

(** What the other tasks of the client do to the objects of a session: the reader
    reads, in whatever state it is; the refresher writes a token; the façade counts
    a control it has refused. *)
Inductive elsewhere : World S H → World S H → Prop :=
| else_read r e w w' e' o :
    control_only r → read_step keys idle_timeout send_failed r e w = (w', e', o) → elsewhere w w'
| else_token t w : elsewhere w (upd_shared (set_token t) w)
| else_refused c w :
    c = controls_rejected_offline ∨ c = controls_rejected_backpressure → elsewhere w (count c w).

Lemma elsewhere_change w w' : elsewhere w w' → reader_change w w'.
Proof using.
  intros [r e w1 w2 e' o Hc Hr|t w1|c w1 _]; [by eapply read_step_change|..];
    (apply reader_change_refl; try done; exists []; by rewrite app_nil_r).
Qed.

Lemma elsewhere_changes w w' : rtc elsewhere w w' → rtc reader_change w w'.
Proof using.
  induction 1 as [w|w1 w2 w3 Hc _ IH]; [done|]. eapply rtc_l; [by apply elsewhere_change|done].
Qed.

(** ** The writer's side *)

(** The commands among the frames on the wire. *)
Definition command_texts (frames : list (OpCode * bytes * bool)) : list bytes :=
  omap (λ '(o, p, _), if bool_decide (o = OpText ∧ p ≠ KEEPALIVE) then Some p else None) frames.

(** The command an iteration has decided to write. *)
Definition pending_text (o : Outgoing) : list bytes :=
  match o with OText t => if bool_decide (t = KEEPALIVE) then [] else [t] | _ => [] end.

Lemma command_texts_snoc frames f :
  command_texts (frames ++ [f]) = command_texts frames ++ command_texts [f].
Proof using. apply omap_app. Qed.

Lemma put_text t b w :
  command_texts (wire (put_frame (OpText, t, b) w)) = command_texts (wire w) ++ pending_text (OText t).
Proof using.
  cbn [wire put_frame]. rewrite command_texts_snoc. f_equal. cbn.
  destruct (decide (t = KEEPALIVE)) as [->|Hne]; [done|]. by rewrite bool_decide_true, bool_decide_false.
Qed.

(** The parts [prepare_command] does not touch. *)
Definition same_link (w w' : World S H) : Prop :=
  wire w' = wire w ∧ out_queue w' = out_queue w ∧ liveness w' = liveness w
  ∧ writer_gone w' = writer_gone w ∧ stopped w' = stopped w ∧ aborted w' = aborted w
  ∧ guarded w' = guarded w.

(** Encryption cannot fail, so a command is enqueued and becomes the next frame. *)
Lemma prepare_spec env cmd tx w w' o :
  prepare_command keys cfg env cmd tx w = (w', o) →
  ∃ e, o = OText (wire_cmd e) ∧ pending_text o = [wire_cmd e]
    ∧ plaintext_cmd e = cmd ∧ resp e = tx
    ∧ entries (pending w') = entries (pending w) ++ [e]
    ∧ evolves [e] [] w w' ∧ same_link w w' ∧ visu w' = visu w.
Proof using AL BL Hkeys.
  unfold prepare_command. destruct (encrypt_spec (draw env) keys cmd (w_salt w) Hkeys) as (c & _ & _ & E).
  rewrite E. intros [= <- <-]. eexists {| plaintext_cmd := cmd; wire_cmd := _; resp := tx; deadline := _ |}.
  split; [done|]. split; [done|]. split; [done|]. split; [done|]. split; [done|].
  split; [|done]. constructor.
  - done.
  - cbn [pending set_pending push entries delivered set_salt]. rewrite waiting_app. solve_Permutation.
  - exists [draw env]. split; [done|]. intros more. cbn [map zip zip_with app encrypt_all wire_cmd plaintext_cmd].
    by rewrite E.
Qed.

(** The waiters an iteration accepts responsibility for. *)
Definition takes (s : Step S H) w : list Sender :=
  match out_queue w, arm s with
  | [], ArmCmd (Some (Encrypted _ tx)) => [tx]
  | _, _ => []
  end.

Lemma same_link_refl w : same_link w w.
Proof using. done. Qed.

(** What deciding does: the commands [new] join the queue exactly when they are
    the next frame, the waiters of [txs] are queued or turned away, and nothing
    is written yet. *)
Definition control_ok (o : Outgoing) : Prop :=
  match o with OControl op _ => is_data op = false | _ => True end.
Definition decided (txs : list Sender) w w' (o : Outgoing) : Prop :=
  ∃ new rej, evolves new rej w w' ∧ waiting new ++ rej = txs
    ∧ map wire_cmd new = pending_text o
    ∧ wire w' = wire w ∧ writer_gone w' = writer_gone w
    ∧ Forall from_reader (out_queue w') ∧ control_ok o.

Lemma decided_quiet w w' o :
  evolves [] [] w w' → wire w' = wire w → writer_gone w' = writer_gone w →
  Forall from_reader (out_queue w') → pending_text o = [] → control_ok o → decided [] w w' o.
Proof using. intros Hev Hw Hg Ho Ht Hc. exists [], []. by rewrite Ht. Qed.

Lemma decided_prepare env cmd tx w w0 w1 o :
  Forall from_reader (out_queue w0) → evolves [] [] w w0 → wire w0 = wire w →
  writer_gone w0 = writer_gone w → prepare_command keys cfg env cmd tx w0 = (w1, o) →
  decided (option_list tx) w w1 o.
Proof using AL BL Hkeys.
  intros Ho Hev Hw Hg Hp.
  apply prepare_spec in Hp as (e & -> & Htext & _ & <- & _ & Hev1 & (Hw1 & Ho1 & _ & Hg1 & _) & _).
  exists [e], []. split; [exact (evolves_trans [] [] [e] [] w w0 w1 Hev Hev1)|].
  split; [cbn; by destruct (resp e)|]. rewrite Htext, Hw1, Hg1, Ho1. done.
Qed.

(** A command over the queue's capacity is refused, and its waiter told so. *)
Lemma decided_io_command env cmd w w' o :
  Forall from_reader (out_queue w) → on_io_command keys cfg env cmd w = (w', o) →
  decided (match cmd with Encrypted _ tx => [tx] | _ => [] end) w w' o.
Proof using AL BL Hkeys.
  intros Hout. destruct cmd as [cmd tx|uuid value|uuid value pw| |]; cbn [on_io_command].
  - destruct (max_pending cfg <=? _).
    + intros [= <- <-]. exists [], [tx]. split; [|done]. constructor.
      * cbn. by rewrite app_nil_r.
      * cbn. rewrite map_app. cbn. solve_Permutation.
      * by exists [].
    + intros E. refine (decided_prepare _ _ (Some tx) w _ w' o _ _ _ _ E); [done|by apply evolves_refl|done..].
  - intros E. refine (decided_prepare _ _ None w _ w' o _ _ _ _ E); [done|by apply evolves_refl|done..].
  - intros E. refine (decided_prepare _ _ None w _ w' o _ _ _ _ E); [done|by apply evolves_refl|done..].
  - intros [= <- <-]. by apply decided_quiet; [apply evolves_refl|..].
  - intros [= <- <-]. by apply decided_quiet; [apply evolves_refl|..].
Qed.

Lemma decided_writer_msg env m ms w w' o :
  Forall from_reader (m :: ms) → out_queue w = m :: ms →
  on_writer_msg keys cfg env m (set_out_queue ms w) = (w', o) → decided [] w w' o.
Proof using AL BL Hkeys.
  intros Hout Eq. inversion Hout as [|? ? Hm Hms]; subst.
  destruct m as [op p|cmd tx|]; cbn [on_writer_msg].
  - intros [= <- <-]. by apply decided_quiet; [apply evolves_refl|..].
  - intros E. cbn in Hm. subst tx.
    refine (decided_prepare _ _ None w _ w' o _ _ _ _ E); [done|by apply evolves_refl|done..].
  - intros [= <- <-]. by apply decided_quiet; [apply evolves_refl|..].
Qed.

Lemma decide_spec s w w' o :
  Forall from_reader (out_queue w) → decide_outgoing keys cfg s w = (w', o) →
  decided (takes s w) w w' o.
Proof using AL BL Hkeys.
  unfold decide_outgoing, takes. intros Hout.
  destruct (out_queue w) as [|m ms] eqn:Eq; [|by apply decided_writer_msg].
  assert (Forall from_reader (out_queue w)) as Hout' by by rewrite Eq.
  destruct (arm s) as [|[cmd|]| |].
  - intros [= <- <-]. by apply decided_quiet; [apply evolves_refl|..].
  - intros E. refine (decided_io_command (env s) cmd w w' o Hout' _). by destruct cmd.
  - intros [= <- <-]. by apply decided_quiet; [apply evolves_refl|..].
  - unfold on_keepalive_tick. destruct (_ <=? _); intros [= <- <-];
      by apply decided_quiet; [apply evolves_refl|..].
  - intros [= <- <-]. by apply decided_quiet; [apply evolves_refl|..].
Qed.

(** While the writer closes the session, the other tasks go on. *)
Definition wf_request (r : RequestEnv S H) : Prop :=
  ∀ w, rtc elsewhere w (before_write r w) ∧ rtc elsewhere w (meanwhile r w).
Definition wf_close (c : CloseEnv S H) : Prop := wf_request (getkey_env c) ∧ wf_request (kill_env c).

Lemma reader_changes_spec w w' :
  rtc reader_change w w' →
  evolves [] [] w w' ∧ same_io w w' ∧ (Forall from_reader (out_queue w) → Forall from_reader (out_queue w')).
Proof using.
  induction 1 as [w|w1 w2 w3 [Hev Hio _ (ms & Ho & Hms)] _ (Hev' & Hio' & Ho')].
  { split; [by apply evolves_refl|done]. }
  split; [exact (evolves_trans [] [] [] [] _ _ _ Hev Hev')|].
  split; [exact (same_io_trans _ _ _ Hio Hio')|]. intros Hf. apply Ho'. rewrite Ho.
  by apply Forall_app.
Qed.

Lemma write_frame_spec res op p w w' r :
  write_frame res op p w = (w', r) → ∃ b, w' = put_frame (op, p, b) w.
Proof using. unfold write_frame. destruct res; intros [= <- _]; eauto. Qed.

Lemma evolves_put new rej w w' f :
  evolves new rej w w' → evolves new rej w (put_frame f w').
Proof using. intros [Ho Hw Hs]. by constructor. Qed.

(** A request of the shutdown path is one command, written once. *)
Lemma request_spec r cmd w w' res :
  wf_request r → request keys cfg r cmd w = (w', res) →
  ∃ e, resp e = Some (req_tx r) ∧ plaintext_cmd e = cmd ∧ evolves [e] [] w w'
    ∧ command_texts (wire w') = command_texts (wire w) ++ [wire_cmd e].
Proof using AL BL Hkeys.
  intros Hr. unfold request. set (pc := λ w0 : World S H, _).
  destruct (prepare_command keys cfg (req_env r) cmd (Some (req_tx r)) w) as [w1 o1] eqn:E1.
  assert (pc w = (w1, Ok o1)) as Hpc by (unfold pc; by rewrite E1). rewrite (bind_ok _ _ _ _ _ Hpc).
  apply prepare_spec in E1 as (e & -> & Htext & Hcmd & Htx & _ & Hev & (Hw1 & _) & _).
  destruct (Hr w1) as [Hb%elsewhere_changes _]. apply reader_changes_spec in Hb as (Hevb & (_ & Hwb & _) & _).
  unfold mbind at 1, M_bind at 1. cbn [modify]. set (w2 := before_write r w1) in *.
  destruct (write_frame (req_write r) OpText (wire_cmd e) w2) as [w3 r3] eqn:E3.
  pose proof (write_frame_spec _ _ _ _ _ _ E3) as [b Hw3].
  assert (evolves [e] [] w w3 ∧ command_texts (wire w3) = command_texts (wire w) ++ [wire_cmd e]) as [Hev3 Ht3].
  { rewrite Hw3. split; [apply evolves_put; exact (evolves_trans [e] [] [] [] w w1 w2 Hev Hevb)|].
    by rewrite put_text, Htext, Hwb, Hw1. }
  destruct r3 as [[]|err]; [|rewrite (bind_err _ _ _ _ _ E3); intros [= <- _]; by exists e].
  rewrite (bind_ok _ _ _ _ _ E3). unfold mbind, M_bind. cbn [modify]. intros E. exists e.
  split; [done|]. split; [done|].
  assert (w' = meanwhile r w3) as -> by (revert E; destruct (reply r); by intros [= <- _]).
  destruct (Hr w3) as [_ Hm%elsewhere_changes]. apply reader_changes_spec in Hm as (Hevm & (_ & Hwm & _) & _).
  split; [exact (evolves_trans [e] [] [] [] w w3 _ Hev3 Hevm)|]. by rewrite Hwm.
Qed.

Lemma kill_token_spec c w w' res :
  wf_close c → kill_token keys cfg c w = (w', res) →
  ∃ new, evolves new [] w w' ∧ command_texts (wire w') = command_texts (wire w) ++ map wire_cmd new
    ∧ waiting new `sublist_of` [req_tx (getkey_env c); req_tx (kill_env c)].
Proof using AL BL Hkeys.
  intros [Hc1 Hc2]. unfold kill_token, mbind at 1, M_bind at 1. cbn [gets].
  destruct (token_is_empty _).
  { intros [= <- _]. exists []. rewrite app_nil_r. split; [by apply evolves_refl|]. split; [done|].
    apply sublist_nil_l. }
  destruct (request keys cfg (getkey_env c) CMD_GET_KEY w) as [w1 r1] eqn:E1.
  pose proof (request_spec _ _ _ _ _ Hc1 E1) as (e1 & Htx1 & _ & Hev1 & Ht1).
  assert (∃ new, evolves new [] w w1 ∧ command_texts (wire w1) = command_texts (wire w) ++ map wire_cmd new
    ∧ waiting new `sublist_of` [req_tx (getkey_env c); req_tx (kill_env c)]) as Hone.
  { exists [e1]. split; [done|]. split; [done|]. cbn. rewrite Htx1. apply sublist_skip, sublist_nil_l. }
  destruct r1 as [key_resp|err]; [|rewrite (bind_err _ _ _ _ _ E1); by intros [= <- _]].
  rewrite (bind_ok _ _ _ _ _ E1). unfold mbind at 1, M_bind at 1. cbn [lift].
  destruct (build_token_hash key_resp _) as [hash|err]; [|by intros [= <- _]].
  destruct (request keys cfg (kill_env c) (cmd_kill_token hash (username cfg)) w1) as [w2 r2] eqn:E2.
  pose proof (request_spec _ _ _ _ _ Hc2 E2) as (e2 & Htx2 & _ & Hev2 & Ht2). intros E.
  assert (w' = w2) as -> by (revert E; unfold mbind, M_bind; rewrite E2; destruct r2; by intros [= <- _]).
  exists [e1; e2]. split; [exact (evolves_trans [e1] [] [e2] [] w w1 w2 Hev1 Hev2)|].
  split; [by rewrite Ht2, Ht1, <- app_assoc|]. cbn. by rewrite Htx1, Htx2.
Qed.

Lemma expire_evolves t w : evolves [] [] w (expire_pending t w) ∧ wire (expire_pending t w) = wire w
  ∧ out_queue (expire_pending t w) = out_queue w ∧ writer_gone (expire_pending t w) = writer_gone w
  ∧ liveness (expire_pending t w) = liveness w
  ∧ entries (pending (expire_pending t w)) `suffix_of` entries (pending w).
Proof using U P.
  unfold expire_pending. destruct (expire t (pending w)) as [[q out] n] eqn:E.
  assert (entries q `suffix_of` entries (pending w)) as Hsuf.
  { revert E. unfold expire. pose proof (expire_loop_split t (entries (pending w))) as Hl.
    destruct (expire_loop t (entries (pending w))) as [[rest out'] n']. destruct Hl as (gone & -> & _).
    intros [= <- _ _]. cbn. by exists gone. }
  assert (∀ w0, pending w0 = q → delivered w0 = delivered w ++ out → w_salt w0 = w_salt w →
          evolves [] [] w w0) as Hev.
  { intros w0 Hp Hd Hs. apply (evolves_queue [Expire t] out); try done.
    - cbn [queue_run queue_step]. rewrite E, Hp. by rewrite app_nil_r.
    - by rewrite Hp. }
  destruct (0 <? n); (split; [by apply Hev|done]).
Qed.

(** What writing out does: what was decided follows on the wire, then the
    commands [new] the writer sends itself, none unless it leaves. *)
Definition performed (reqs : list Sender) o w w' (cont : bool) : Prop :=
  ∃ new, evolves new [] w w'
    ∧ command_texts (wire w') = command_texts (wire w) ++ pending_text o ++ map wire_cmd new
    ∧ (cont = true → new = [] ∧ out_queue w' = out_queue w ∧ writer_gone w' = writer_gone w)
    ∧ waiting new `sublist_of` reqs.

Lemma performed_simple reqs o w w' cont :
  evolves [] [] w w' → command_texts (wire w') = command_texts (wire w) ++ pending_text o →
  out_queue w' = out_queue w → writer_gone w' = writer_gone w → performed reqs o w w' cont.
Proof using.
  intros Hev Ht Ho Hg. exists []. cbn [map]. rewrite app_nil_r.
  split; [done|]. split; [done|]. split; [done|apply sublist_nil_l].
Qed.

Lemma performed_expire reqs o now w w' :
  performed reqs o w w' true → performed reqs o w (expire_pending now w') true.
Proof using U P.
  intros (new & Hev & Ht & Hc & Hs). destruct (Hc eq_refl) as (-> & Ho & Hg).
  destruct (expire_evolves now w') as (Hev1 & Hw1 & Ho1 & Hg1 & _).
  exists []. rewrite Hw1, Ho1, Hg1. split; [exact (evolves_trans [] [] [] [] _ _ _ Hev Hev1)|done].
Qed.

(** The frame of a decision carries its command's text, if it has one. *)
Definition frame_of (o : Outgoing) : option (OpCode * bytes) :=
  match o with OText t => Some (OpText, t) | OControl op p => Some (op, p) | _ => None end.

Lemma frame_text o op p :
  control_ok o → frame_of o = Some (op, p) → command_texts [(op, p, true)] = pending_text o.
Proof using.
  destruct o as [t|op' p'| | |]; intros Hc [= <- <-]; cbn.
  - destruct (decide (t = KEEPALIVE)) as [->|Hne]; [done|].
    by rewrite bool_decide_true, bool_decide_false.
  - rewrite bool_decide_false; [done|]. intros [-> _]. done.
Qed.

Lemma performed_write reqs o op p res w w' r cont :
  control_ok o → frame_of o = Some (op, p) → write_frame res op p w = (w', r) →
  performed reqs o w w' cont.
Proof using.
  intros Hc Hf E. apply write_frame_spec in E as [b ->].
  apply performed_simple; [by apply evolves_put, evolves_refl| |done..]. cbn [wire put_frame].
  by rewrite command_texts_snoc, <- (frame_text o op p Hc Hf).
Qed.

Lemma performed_close c w :
  wf_close c →
  performed [req_tx (getkey_env c); req_tx (kill_env c)] OClose w (graceful_close keys cfg c (set_stopped true w)) false.
Proof using AL BL Hkeys U P.
  intros Hclose. unfold graceful_close. set (w0 := set_stopped true w).
  destruct (write_frame (close_write c) OpClose close_payload _) as [w2 r2] eqn:E2.
  apply write_frame_spec in E2 as [b ->]. cbn [fst].
  destruct (kill_token_on_stop cfg).
  - destruct (kill_token keys cfg c w0) as [w1 r1] eqn:E1.
    apply kill_token_spec in E1 as (new & Hev & Ht & Hs); [|done]. exists new. split.
    { destruct Hev as [Ho Hw Hsalt]. by constructor. }
    split; [|by split].
    cbn [fst wire put_frame upd_shared]. rewrite command_texts_snoc. cbn. by rewrite app_nil_r.
  - exists []. split; [by apply evolves_put, evolves_refl|]. cbn [wire put_frame set_stopped w0].
    rewrite command_texts_snoc. split; [done|]. split; [done|apply sublist_nil_l].
Qed.

(** Writing out what was decided. *)
Lemma perform_spec s o w w' cont :
  wf_close (closing s) → control_ok o → perform keys cfg s o w = (w', cont) →
  performed [req_tx (getkey_env (closing s)); req_tx (kill_env (closing s))] o w w' cont.
Proof using AL BL Hkeys U P.
  intros Hclose Hctl. destruct o as [t|op p| | |]; cbn [perform].
  - destruct (write_frame (write s) OpText t w) as [w1 [[]|err]] eqn:E; intros [= <- <-].
    + by eapply performed_expire, performed_write.
    + destruct (performed_write [] (OText t) OpText t _ w w1 _ true Hctl eq_refl E) as (new & [] & Ht & Hc & _).
      destruct (Hc eq_refl) as (-> & Ho & Hg). rewrite app_nil_r in Ht. by apply performed_simple.
  - destruct (write_frame (write s) op p w) as [w1 [[]|err]] eqn:E; intros [= <- <-].
    + by eapply performed_expire, performed_write.
    + by eapply performed_write.
  - intros [= <- <-]. by apply performed_simple; [apply evolves_refl|rewrite app_nil_r|..].
  - intros [= <- <-]. by apply performed_close.
  - intros [= <- <-]. apply performed_expire.
    by apply performed_simple; [apply evolves_refl|rewrite app_nil_r|..].
Qed.

(** ** The two tasks together *)

(** A session as the supervisor starts it, on the salt state the handshake left. *)
Definition fresh (st : SaltState) w : Prop :=
  pending w = new_queue ∧ delivered w = [] ∧ wire w = [] ∧ out_queue w = [] ∧ writer_gone w = false
  ∧ liveness w = new_liveness ∧ w_salt w = st.

(** The reachable states of a session. [k] counts the iterations of the writer,
    [taken] lists the waiters of the commands it took from the façade, [reqs] those
    of its own requests while closing, and [pc] holds what it has decided to write
    and not yet written. The other tasks run at any time; the façade sets the
    stop flag and the supervisor the connection state ([dx_flag]); [dx_shutdown] is
    the supervisor's message at the end of the session. *)
Inductive duplex (st : SaltState) :
  nat → list Sender → list Sender → option (Step S H * Outgoing) → World S H → Prop :=
| dx_start w : fresh st w → duplex st 0 [] [] None w
| dx_else k taken reqs pc w w' :
    duplex st k taken reqs pc w → elsewhere w w' → duplex st k taken reqs pc w'
| dx_flag k taken reqs pc w w' :
    duplex st k taken reqs pc w → (w' = set_stopped true w ∨ ∃ c, w' = upd_shared (set_state c) w) →
    duplex st k taken reqs pc w'
| dx_shutdown k taken reqs pc w :
    duplex st k taken reqs pc w → writer_gone w = false →
    duplex st k taken reqs pc (set_out_queue (out_queue w ++ [Shutdown]) w)
| dx_decide k taken reqs w s w' o :
    duplex st k taken reqs None w → writer_gone w = false → wf_close (closing s) →
    decide_outgoing keys cfg s w = (w', o) → duplex st (k + 1) (taken ++ takes s w) reqs (Some (s, o)) w'
| dx_perform k taken reqs s o w w' :
    duplex st k taken reqs (Some (s, o)) w →
    perform keys cfg s o w = (w', true) → duplex st k taken reqs None w'
| dx_leave k taken reqs s o w w' :
    duplex st k taken reqs (Some (s, o)) w →
    perform keys cfg s o w = (w', false) →
    duplex st k taken [req_tx (getkey_env (closing s)); req_tx (kill_env (closing s))] None (leave w').

Definition pc_text (pc : option (Step S H * Outgoing)) : list bytes :=
  match pc with Some (_, o) => pending_text o | None => [] end.
Definition pc_ok (pc : option (Step S H * Outgoing)) : Prop :=
  match pc with
  | Some (s, o) => wf_close (closing s) ∧ control_ok o
  | None => True
  end.

(** What has happened since the start of the session: [all] are its commands. *)
Record session_inv (st : SaltState) taken reqs pc w : Prop := {
  si_start : ∃ w0 all rej own, fresh st w0 ∧ evolves all rej w0 w
    ∧ map wire_cmd all = command_texts (wire w) ++ pc_text pc
    ∧ waiting all ++ rej ≡ₚ taken ++ own ∧ own `sublist_of` reqs;
  si_out : Forall from_reader (out_queue w);
  si_pc : pc_ok pc;
  si_gone : writer_gone w = true → pc = None ∧ entries (pending w) = [];
  si_reqs : writer_gone w = false → reqs = [];
}.

Lemma suffix_of_nil {T} (l : list T) : l `suffix_of` [] → l = [].
Proof using. intros [k Hk]. symmetry in Hk. by apply app_eq_nil in Hk as [_ ->]. Qed.

Lemma session_inv_change st taken reqs pc w w' :
  session_inv st taken reqs pc w → reader_change w w' → session_inv st taken reqs pc w'.
Proof using.
  intros [(w0 & all & rej & own & Hf & Hev & Ht & Htx & Hs) Hout Hpc Hgone Hreqs]
    [Hev' (_ & Hw & _ & Hg & _) _ (ms & Ho & Hms)]. constructor.
  - exists w0, all, rej, own. split; [done|]. rewrite Hw. split; [|done].
    rewrite <- (app_nil_r all), <- (app_nil_r rej). by eapply evolves_trans.
  - rewrite Ho. by apply Forall_app.
  - done.
  - rewrite Hg. intros H'. destruct (Hgone H') as [-> He]. split; [done|].
    apply suffix_of_nil. destruct Hev' as [Hsuf _ _]. by rewrite He in Hsuf.
  - by rewrite Hg.
Qed.

(** The queues and the wire are all the invariant speaks of. *)
Lemma session_inv_flag st taken reqs pc w w' :
  session_inv st taken reqs pc w →
  pending w' = pending w ∧ delivered w' = delivered w ∧ w_salt w' = w_salt w ∧ wire w' = wire w
  ∧ out_queue w' = out_queue w ∧ writer_gone w' = writer_gone w →
  session_inv st taken reqs pc w'.
Proof using.
  intros [(w0 & all & rej & own & Hf & [H1 H2 H3] & Ht) Hout Hpc Hgone Hreqs] (Ep & Ed & Es & Ew & Eo & Eg).
  constructor; rewrite ?Ep, ?Eo, ?Eg; try done. exists w0, all, rej, own. split; [done|].
  split; [constructor; by rewrite ?Ep, ?Ed, ?Es|by rewrite Ew].
Qed.

Lemma leave_spec w :
  evolves [] [] w (leave w) ∧ wire (leave w) = wire w ∧ out_queue (leave w) = []
  ∧ entries (pending (leave w)) = [] ∧ writer_gone (leave w) = true.
Proof using U P.
  split; [|done]. apply (evolves_queue [FailAll (bs "session ended")] (fail_all (bs "session ended") (pending w)).1.2); try done.
  - cbn. by rewrite app_nil_r.
  - apply suffix_nil.
Qed.

Lemma session_inv_start st w : fresh st w → session_inv st [] [] None w.
Proof using.
  intros Hf. pose proof Hf as (_ & _ & Hw & Ho & Hg & _). constructor; rewrite ?Ho, ?Hg; try done.
  exists w, [], [], []. split; [done|]. split; [by apply evolves_refl|]. by rewrite Hw.
Qed.

Lemma session_inv_shutdown st taken reqs pc w :
  session_inv st taken reqs pc w →
  session_inv st taken reqs pc (set_out_queue (out_queue w ++ [Shutdown]) w).
Proof using.
  intros [(w0 & all & rej & own & Hf & [H1 H2 H3] & Ht) Hout Hpc Hgone Hreqs]. constructor; try done.
  - exists w0, all, rej, own. split; [done|]. split; [by constructor|done].
  - cbn. apply Forall_app. split; [done|by apply Forall_singleton].
Qed.

Lemma session_inv_decided st taken reqs txs w w' s o :
  session_inv st taken reqs None w → writer_gone w = false → wf_close (closing s) →
  decided txs w w' o → session_inv st (taken ++ txs) reqs (Some (s, o)) w'.
Proof using.
  intros [(w0 & all & rej & own & Hf & Hev & Ht & Htx & Hs) Hout _ Hgone Hreqs] Hg Hcl
    (new & rej' & Hev' & <- & Htext & Hw & Hg' & Hout' & Hctl).
  constructor; [|done|done|rewrite Hg', Hg; done|by rewrite Hg'].
  exists w0, (all ++ new), (rej ++ rej'), own. split; [done|].
  split; [by eapply evolves_trans|]. rewrite Hw, map_app, Ht, Htext. cbn [pc_text]. rewrite app_nil_r.
  split; [done|]. split; [|done]. rewrite waiting_app.
  transitivity ((waiting all ++ rej) ++ waiting new ++ rej'); [solve_Permutation|].
  rewrite Htx. solve_Permutation.
Qed.

(** The writer is still there while it has something left to write. *)
Lemma session_inv_here st taken reqs x w :
  session_inv st taken reqs (Some x) w → writer_gone w = false.
Proof using. intros [_ _ _ Hgone _]. destruct (writer_gone w); [|done]. by destruct (Hgone eq_refl). Qed.

Lemma session_inv_performed st taken reqs own s o w w' :
  session_inv st taken reqs (Some (s, o)) w → performed own o w w' true →
  session_inv st taken reqs None w'.
Proof using.
  intros Hinv (new & Hev' & Ht' & Hc & _). pose proof (session_inv_here _ _ _ _ _ Hinv) as Hwg.
  destruct Hinv as [(w0 & all & rej & own' & Hf & Hev & Ht & Htx) Hout _ _ Hreqs].
  destruct (Hc eq_refl) as (-> & Ho & Hg).
  constructor; [|by rewrite Ho|done|rewrite Hg, Hwg; done|by rewrite Hg].
  exists w0, all, rej, own'. split; [done|]. split.
  { rewrite <- (app_nil_r all), <- (app_nil_r rej). by eapply evolves_trans. }
  rewrite Ht', Ht. cbn [map]. by rewrite !app_nil_r.
Qed.

Lemma session_inv_leave st taken reqs own s o w w' :
  session_inv st taken reqs (Some (s, o)) w → performed own o w w' false →
  session_inv st taken own None (leave w').
Proof using U P.
  intros Hinv (new & Hev' & Ht' & _ & Hsub). pose proof (session_inv_here _ _ _ _ _ Hinv) as Hwg.
  destruct Hinv as [(w0 & all & rej & own' & Hf & Hev & Ht & Htx & Hs) _ _ _ Hreqs].
  destruct (leave_spec w') as (Hevl & Hwl & Hol & Hel & Hgl).
  rewrite (Hreqs Hwg) in Hs. apply sublist_nil_r in Hs as ->.
  constructor; [|by rewrite Hol|done|done|by rewrite Hgl].
  exists w0, (all ++ new), rej, (waiting new). split; [done|]. split.
  { rewrite <- (app_nil_r (all ++ new)), <- (app_nil_r rej), <- (app_nil_r (rej ++ [])).
    eapply evolves_trans; [by eapply evolves_trans|]. done. }
  rewrite Hwl, Ht', map_app, Ht, app_nil_r, <- app_assoc. split; [done|]. split; [|done].
  rewrite app_nil_r in Htx. rewrite waiting_app, <- Htx. solve_Permutation.
Qed.

Lemma duplex_inv st k taken reqs pc w :
  duplex st k taken reqs pc w → session_inv st taken reqs pc w.
Proof using AL BL Hkeys.
  induction 1 as [w Hf|k taken reqs pc w w' _ IH He|k taken reqs pc w w' _ IH Hw'|k taken reqs pc w _ IH Hg
    |k taken reqs w s w' o _ IH Hg Hcl Hd|k taken reqs s o w w' _ IH Hp|k taken reqs s o w w' _ IH Hp].
  - by apply session_inv_start.
  - eapply session_inv_change; [done|]. by apply elsewhere_change.
  - eapply session_inv_flag; [done|]. destruct Hw' as [->|[c ->]]; done.
  - by apply session_inv_shutdown.
  - apply session_inv_decided with w; [done..|]. by apply decide_spec; [destruct IH|].
  - destruct (si_pc _ _ _ _ _ IH) as [Hcl Hctl].
    eapply session_inv_performed; [done|]. by apply perform_spec.
  - destruct (si_pc _ _ _ _ _ IH) as [Hcl Hctl].
    eapply session_inv_leave; [done|]. by apply perform_spec.
Qed.

(** [C4] Every caller is answered exactly once. In every state of a session,
    however the reader and the writer interleave, the waiters answered and the
    waiters still queued are together the waiters of the commands the writer took,
    plus those of its own requests while closing; once the writer has left, all
    of them have been answered: by the Miniserver's payload, by a timeout, by a
    refusal or by the end of the session. *)
Theorem session_answers_everyone st k taken reqs pc w :
  duplex st k taken reqs pc w →
  ∃ own, own `sublist_of` reqs
    ∧ map fst (delivered w) ++ waiting (entries (pending w)) ≡ₚ taken ++ own
    ∧ (writer_gone w = true → map fst (delivered w) ≡ₚ taken ++ own).
Proof using AL BL Hkeys.
  intros [(w0 & all & rej & own & (Hp0 & Hd0 & _) & [_ Hw _] & _ & Htx & Hs) _ _ Hgone _]%duplex_inv.
  exists own. split; [done|]. rewrite Hp0, Hd0 in Hw. cbn in Hw. rewrite Htx in Hw. split; [done|].
  intros Hg. destruct (Hgone Hg) as [_ He]. by rewrite He, app_nil_r in Hw.
Qed.

Context {XL : HexLaws} {PL : PercentDecodeLaws}.


(** ** Limits *)

(** Answers to keepalives, as many as there may be. *)
Definition acks (l l' : Liveness) : Prop :=
  sent l' = sent l ∧ (acked l <= sent l → acked l <= acked l' <= sent l).

Lemma acks_refl l : acks l l.
Proof using. split; [done|]. lia. Qed.
Lemma acks_trans l1 l2 l3 : acks l1 l2 → acks l2 l3 → acks l1 l3.
Proof using.
  intros [Hs1 Ha1] [Hs2 Ha2]. split; [congruence|]. intros H1. rewrite Hs1 in Ha2.
  specialize (Ha1 H1). specialize (Ha2 ltac:(lia)). lia.
Qed.
Lemma acks_record l : acks l (fst (record_ack l)).
Proof using. split; [done|]. cbn. destruct (Z.ltb_spec (acked l) (sent l)); lia. Qed.

Lemma reader_changes_live w w' : rtc reader_change w w' → acks (liveness w) (liveness w').
Proof using.
  induction 1 as [w|w1 w2 w3 Hc _ IH]; [apply acks_refl|]. eapply acks_trans; [|exact IH].
  destruct (rc_live _ _ Hc) as [->| ->]; [apply acks_refl|apply acks_record].
Qed.

Lemma request_live r cmd w w' res :
  wf_request r → request keys cfg r cmd w = (w', res) → acks (liveness w) (liveness w').
Proof using AL BL Hkeys.
  intros Hr. unfold request. set (pc := λ w0 : World S H, _).
  destruct (prepare_command keys cfg (req_env r) cmd (Some (req_tx r)) w) as [w1 o1] eqn:E1.
  assert (pc w = (w1, Ok o1)) as Hpc by (unfold pc; by rewrite E1). rewrite (bind_ok _ _ _ _ _ Hpc).
  apply prepare_spec in E1 as (e & -> & _ & _ & _ & _ & _ & (_ & _ & Hl1 & _) & _).
  destruct (Hr w1) as [Hb%elsewhere_changes%reader_changes_live _]. rewrite Hl1 in Hb.
  unfold mbind at 1, M_bind at 1. cbn [modify]. set (w2 := before_write r w1) in *.
  destruct (write_frame (req_write r) OpText (wire_cmd e) w2) as [w3 r3] eqn:E3.
  pose proof (write_frame_spec _ _ _ _ _ _ E3) as [b Hw3].
  assert (liveness w3 = liveness w2) as Hl3 by (by rewrite Hw3).
  destruct r3 as [[]|err]; [|rewrite (bind_err _ _ _ _ _ E3); intros [= <- _]; by rewrite Hl3].
  rewrite (bind_ok _ _ _ _ _ E3). unfold mbind, M_bind. cbn [modify]. intros E.
  assert (w' = meanwhile r w3) as -> by (revert E; destruct (reply r); by intros [= <- _]).
  destruct (Hr w3) as [_ Hm%elsewhere_changes%reader_changes_live]. rewrite Hl3 in Hm. by eapply acks_trans.
Qed.

Lemma kill_token_live c w w' res :
  wf_close c → kill_token keys cfg c w = (w', res) → acks (liveness w) (liveness w').
Proof using AL BL Hkeys.
  intros [Hc1 Hc2]. unfold kill_token, mbind at 1, M_bind at 1. cbn [gets].
  destruct (token_is_empty _); [intros [= <- _]; apply acks_refl|].
  destruct (request keys cfg (getkey_env c) CMD_GET_KEY w) as [w1 r1] eqn:E1.
  pose proof (request_live _ _ _ _ _ Hc1 E1) as H1.
  destruct r1 as [key_resp|err]; [|rewrite (bind_err _ _ _ _ _ E1); by intros [= <- _]].
  rewrite (bind_ok _ _ _ _ _ E1). unfold mbind at 1, M_bind at 1. cbn [lift].
  destruct (build_token_hash key_resp _) as [hash|err]; [|by intros [= <- _]].
  destruct (request keys cfg (kill_env c) (cmd_kill_token hash (username cfg)) w1) as [w2 r2] eqn:E2.
  pose proof (request_live _ _ _ _ _ Hc2 E2) as H2. intros E.
  assert (w' = w2) as -> by (revert E; unfold mbind, M_bind; rewrite E2; destruct r2; by intros [= <- _]).
  by eapply acks_trans.
Qed.

Lemma perform_live s o w w' cont :
  wf_close (closing s) → perform keys cfg s o w = (w', cont) → acks (liveness w) (liveness w').
Proof using AL BL Hkeys U P.
  intros Hc.
  assert (∀ t w0, liveness (expire_pending t w0) = liveness w0) as Hexp by (intros; apply expire_evolves).
  destruct o as [t|op p| | |]; cbn [perform].
  - destruct (write_frame _ _ _ w) as [w1 [[]|err]] eqn:E; apply write_frame_spec in E as [b ->];
      intros [= <- _]; rewrite ?Hexp; apply acks_refl.
  - destruct (write_frame _ _ _ w) as [w1 [[]|err]] eqn:E; apply write_frame_spec in E as [b ->];
      intros [= <- _]; rewrite ?Hexp; apply acks_refl.
  - intros [= <- _]. apply acks_refl.
  - intros [= <- _]. unfold graceful_close.
    destruct (write_frame (close_write (closing s)) OpClose close_payload _) as [w2 r2] eqn:E2.
    apply write_frame_spec in E2 as [b ->]. cbn [fst]. destruct (kill_token_on_stop cfg); [|apply acks_refl].
    destruct (kill_token keys cfg (closing s) (set_stopped true w)) as [w1 r1] eqn:E1.
    by apply kill_token_live in E1.
  - intros [= <- _]. rewrite Hexp. apply acks_refl.
Qed.

Definition waiters w : Z := zlen (waiting (entries (pending w))).

Lemma waiting_suffix es es' : es' `suffix_of` es → zlen (waiting es') <= zlen (waiting es).
Proof using. intros [k ->]. rewrite waiting_app, zlen_app. pose proof (zlen_nonneg (waiting k)). lia. Qed.

Lemma waiting_le es : zlen (waiting es) <= zlen es.
Proof using.
  induction es as [|e es IH]; [done|]. unfold waiting in *. cbn [omap list_omap].
  destruct (resp e); rewrite ?zlen_cons; lia.
Qed.

Lemma prepare_waiters env cmd tx w w' o :
  prepare_command keys cfg env cmd tx w = (w', o) →
  liveness w' = liveness w
  ∧ waiters w' <= match tx with Some _ => queue_len (pending w) + 1 | None => waiters w end.
Proof using AL BL Hkeys.
  intros E. apply prepare_spec in E as (e & _ & _ & _ & <- & He & _ & (_ & _ & Hl & _) & _).
  split; [done|]. unfold waiters, queue_len. rewrite He, waiting_app, zlen_app.
  pose proof (waiting_le (entries (pending w))).
  assert (waiting [e] = option_list (resp e)) as -> by (unfold waiting; cbn; by destruct (resp e)).
  destruct (resp e) as [tx|];
    [change (zlen (option_list (Some tx))) with 1|change (zlen (option_list (@None Sender))) with 0]; lia.
Qed.

(** A keepalive goes out only below the limit, a command only below the other. *)
Lemma decide_limits s w w' o :
  Forall from_reader (out_queue w) → decide_outgoing keys cfg s w = (w', o) →
  (liveness w' = liveness w
   ∨ missed (liveness w) < max_missed_keepalives cfg ∧ ∃ t, liveness w' = record_sent t (liveness w))
  ∧ waiters w' <= Z.max (waiters w) (max_pending cfg).
Proof using AL BL Hkeys.
  intros Hout. unfold decide_outgoing.
  assert (∀ w0 o0, (w0, o0) = (w', o) → liveness w0 = liveness w → pending w0 = pending w →
    (liveness w' = liveness w ∨ missed (liveness w) < max_missed_keepalives cfg ∧ ∃ t, liveness w' = record_sent t (liveness w))
    ∧ waiters w' <= Z.max (waiters w) (max_pending cfg)) as Hquiet.
  { intros w0 o0 [= <- <-] Hl Hp. split; [by left|]. unfold waiters. rewrite Hp. lia. }
  assert (∀ env0 cmd w0, liveness w0 = liveness w → waiters w0 = waiters w →
    prepare_command keys cfg env0 cmd None w0 = (w', o) →
    (liveness w' = liveness w ∨ missed (liveness w) < max_missed_keepalives cfg ∧ ∃ t, liveness w' = record_sent t (liveness w))
    ∧ waiters w' <= Z.max (waiters w) (max_pending cfg)) as Hprep.
  { intros env0 cmd w0 Hl Hw E. apply prepare_waiters in E as [-> E]. split; [by left|]. lia. }
  destruct (out_queue w) as [|m ms].
  - destruct (arm s) as [|[cmd|]| |]; try (intros E; by eapply Hquiet).
    + destruct cmd as [cmd tx|uuid value|uuid value pw| |]; cbn [on_io_command];
        try (intros E; by eapply Hquiet); try (intros E; by eapply Hprep in E).
      destruct (Z.leb_spec (max_pending cfg) (queue_len (pending (count commands_sent w)))) as [Hle|Hlt];
        [intros E; by eapply Hquiet|].
      intros E. apply prepare_waiters in E as [-> E]. split; [by left|]. cbn in Hlt, E. lia.
    + unfold on_keepalive_tick. destruct (Z.leb_spec (max_missed_keepalives cfg) (missed (liveness w))) as [Hle|Hlt];
        [intros E; by eapply Hquiet|]. intros [= <- <-]. split; [right; by eauto|]. unfold waiters. cbn. lia.
  - inversion Hout as [|? ? Hm _]; subst. destruct m as [op p|cmd tx|]; cbn [on_writer_msg];
      try (intros E; by eapply Hquiet). cbn in Hm. subst tx. intros E. by eapply Hprep in E.
Qed.

Definition live_ok (k : nat) (l : Liveness) : Prop :=
  0 <= acked l <= sent l ∧ sent l <= Z.of_nat k ∧ sent l - acked l <= max_missed_keepalives cfg.

Lemma live_ok_acks k l l' : acks l l' → live_ok k l → live_ok k l'.
Proof using. intros [Hs Ha] (H1 & H2 & H3). specialize (Ha ltac:(lia)). unfold live_ok. rewrite Hs. lia. Qed.

Lemma duplex_limits st k taken reqs pc w :
  0 <= max_missed_keepalives cfg → 0 <= max_pending cfg → Z.of_nat k < 2 ^ 64 →
  duplex st k taken reqs pc w → waiters w <= max_pending cfg ∧ live_ok k (liveness w).
Proof using AL BL Hkeys.
  intros Hmm Hmp Hk Hd. revert Hk.
  induction Hd as [w Hf|k taken reqs pc w w' Hd IH He|k taken reqs pc w w' _ IH Hw'|k taken reqs pc w _ IH _
    |k taken reqs w s w' o Hd IH Hg Hcl Hdec|k taken reqs s o w w' Hd IH Hp|k taken reqs s o w w' Hd IH Hp]; intros Hk.
  - destruct Hf as (Hp & _ & _ & _ & _ & Hl & _). unfold waiters, live_ok. rewrite Hp, Hl.
    split; [done|]. cbn. lia.
  - destruct (IH Hk) as [Hw Hl]. apply elsewhere_change in He as Hr. split.
    + pose proof (waiting_suffix _ _ (ev_order _ _ _ _ (rc_evolves _ _ Hr))) as Hsuf.
      rewrite app_nil_r in Hsuf. unfold waiters in *. lia.
    + eapply live_ok_acks; [|exact Hl]. by apply reader_changes_live, rtc_once.
  - destruct Hw' as [->|[c ->]]; by apply IH.
  - by apply IH.
  - destruct (IH ltac:(lia)) as (Hw & Ha & Hs & Hm). apply duplex_inv in Hd.
    apply decide_limits in Hdec as [Hl Hw']; [|apply Hd]. split; [lia|]. unfold live_ok.
    destruct Hl as [->|[Hlt [t ->]]]; [lia|]. cbn [record_sent sent acked]. unfold fetch_add.
    unfold missed in Hlt. rewrite Z.mod_small by lia. lia.
  - destruct (IH Hk) as [Hw Hl]. pose proof (duplex_inv _ _ _ _ _ _ Hd) as [_ _ [Hcl Hctl] _ _].
    split; [|by eapply live_ok_acks; [eapply perform_live|]].
    apply perform_spec in Hp as (new & Hev & _ & Hc & _); [|done|done]. destruct (Hc eq_refl) as [-> _].
    pose proof (waiting_suffix _ _ (ev_order _ _ _ _ Hev)) as Hsuf. rewrite app_nil_r in Hsuf.
    unfold waiters in *. lia.
  - destruct (IH Hk) as [_ Hl]. pose proof (duplex_inv _ _ _ _ _ _ Hd) as [_ _ [Hcl Hctl] _ _]. split.
    + unfold waiters. destruct (leave_spec w') as (_ & _ & _ & -> & _). done.
    + change (liveness (leave w')) with (liveness w'). by eapply live_ok_acks; [eapply perform_live|].
Qed.

(** [C27] The limits hold in every state of a session: at most [max_pending] callers
    wait, at most [max_missed_keepalives] keepalives are unanswered, no answer is
    banked, and a keepalive tick ends the session exactly when the limit of
    unanswered keepalives is reached. *)
Theorem session_limits st k taken reqs pc w :
  0 <= max_missed_keepalives cfg → 0 <= max_pending cfg → Z.of_nat k < 2 ^ 64 →
  duplex st k taken reqs pc w →
  waiters w <= max_pending cfg
  ∧ acked (liveness w) <= sent (liveness w)
  ∧ missed (liveness w) <= max_missed_keepalives cfg
  ∧ ∀ s, out_queue w = [] → arm s = ArmTick →
      snd (decide_outgoing keys cfg s w) = OStop ↔ missed (liveness w) = max_missed_keepalives cfg.
Proof using AL BL Hkeys.
  intros Hmm Hmp Hk Hd. destruct (duplex_limits _ _ _ _ _ _ Hmm Hmp Hk Hd) as (Hw & Ha & Hs & Hm).
  assert (missed (liveness w) = sent (liveness w) - acked (liveness w)) as Hmiss by (unfold missed; lia).
  split; [done|]. split; [lia|]. split; [lia|]. intros s Ho Harm. unfold decide_outgoing. rewrite Ho, Harm.
  unfold on_keepalive_tick.
  destruct (Z.leb_spec (max_missed_keepalives cfg) (missed (liveness w))); cbn; split; [lia|done|done|lia].
Qed.
End duplex.

(** ** A session *)

#[local] Existing Instances zerocopy_model json_model digests_model hex_model aes_model base64_model
  percent_model no_store reader_utf8.
#[local] Existing Instance idle_handler.

Definition sample_cfg : WriterConfig :=
  {| username := bs "admin"; keepalive_period := from_secs 60; command_timeout := from_secs 30;
     max_missed_keepalives := 3; max_pending := 32; kill_token_on_stop := true |}.

Definition sample_request (tx : Sender) : RequestEnv unit unit :=
  {| req_env := {| draw := sample_draw 9; now := 0 |}; req_tx := tx; before_write := id;
     req_write := WOk; meanwhile := id; reply := ReplyTimeout |}.
Definition sample_step (a : Arm) : Step unit unit :=
  {| arm := a; env := {| draw := sample_draw 5; now := 1000 |}; write := WOk;
     closing := {| getkey_env := sample_request 100; kill_env := sample_request 101; close_write := WOk |};
     expire_at := 2000 |}.

(** The writer takes a command, writes it, sends a keepalive, and its channel closes. *)
Definition sample_dec a w := decide_outgoing sample_keys sample_cfg (sample_step a) w.
Definition sample_per a o w := perform sample_keys sample_cfg (sample_step a) o w.
Definition arm1 : Arm := ArmCmd (Some (Encrypted (bs "jdev/sys/getkey") 7%nat)).
Definition world1 : World unit unit := fst (sample_per arm1 (snd (sample_dec arm1 sample_world)) (fst (sample_dec arm1 sample_world))).
Definition world2 : World unit unit := fst (sample_per ArmTick (snd (sample_dec ArmTick world1)) (fst (sample_dec ArmTick world1))).
Definition world3 : World unit unit :=
  leave (fst (sample_per ArmOutClosed (snd (sample_dec ArmOutClosed world2)) (fst (sample_dec ArmOutClosed world2)))).

Lemma sample_wf a : wf_close sample_keys 100 [] (closing (sample_step a)).
Proof. split; intros w; split; apply rtc_refl. Qed.

(** One iteration of the sample writer. *)
Lemma sample_iteration st k taken reqs w a :
  duplex sample_keys 100 [] sample_cfg st k taken reqs None w → writer_gone w = false →
  snd (sample_per a (snd (sample_dec a w)) (fst (sample_dec a w))) = true →
  duplex sample_keys 100 [] sample_cfg st (k + 1) (taken ++ takes (sample_step a) w) reqs None
    (fst (sample_per a (snd (sample_dec a w)) (fst (sample_dec a w)))).
Proof.
  intros Hd Hg Hp. eapply dx_perform.
  - eapply (dx_decide _ _ _ _ _ _ _ _ _ (sample_step a) (fst (sample_dec a w)) (snd (sample_dec a w))); [done|done|apply sample_wf|].
    apply surjective_pairing.
  - fold (sample_per a (snd (sample_dec a w)) (fst (sample_dec a w))). rewrite <- Hp. apply surjective_pairing.
Qed.

Lemma sample_duplex2 : duplex sample_keys 100 [] sample_cfg salt_default 2 [7%nat] [] None world2.
Proof.
  apply (sample_iteration salt_default 1 [7%nat] [] world1 ArmTick); [|vm_compute; reflexivity|vm_compute; reflexivity].
  apply (sample_iteration salt_default 0 [] [] sample_world arm1); [|vm_compute; reflexivity|vm_compute; reflexivity].
  apply dx_start. repeat split.
Qed.

Lemma sample_duplex3 :
  duplex sample_keys 100 [] sample_cfg salt_default 3 [7%nat] [100%nat; 101%nat] None world3.
Proof.
  eapply (dx_leave _ _ _ _ _ _ _ [] (sample_step ArmOutClosed) (snd (sample_dec ArmOutClosed world2))).
  - eapply (dx_decide _ _ _ _ _ 2 [7%nat] [] world2 (sample_step ArmOutClosed)); [apply sample_duplex2|vm_compute; reflexivity
      |apply sample_wf|apply surjective_pairing].
  - vm_compute. reflexivity.
Qed.

Lemma session_answers_everyone_witness :
  ∃ own, own `sublist_of` [100%nat; 101%nat]
    ∧ map fst (delivered world3) ++ waiting (entries (pending world3)) ≡ₚ [7%nat] ++ own
    ∧ (writer_gone world3 = true → map fst (delivered world3) ≡ₚ [7%nat] ++ own).
Proof.
  apply (session_answers_everyone (AL := aes_model_laws) (BL := base64_model_laws) sample_keys 100 [] sample_cfg
           eq_refl salt_default 3 [7%nat] [100%nat; 101%nat] None world3 sample_duplex3).
Defined.


Lemma session_limits_witness :
  missed (liveness world2) = 1 ∧ waiters world2 = 1
  ∧ waiters world2 <= max_pending sample_cfg
  ∧ acked (liveness world2) <= sent (liveness world2)
  ∧ missed (liveness world2) <= max_missed_keepalives sample_cfg.
Proof.
  split; [vm_compute; reflexivity|]. split; [vm_compute; reflexivity|].
  destruct (session_limits (AL := aes_model_laws) (BL := base64_model_laws) sample_keys 100 [] sample_cfg
           eq_refl salt_default 2 [7%nat] [] None world2) as (H1 & H2 & H3 & _);
    [vm_compute; congruence|vm_compute; congruence|reflexivity|apply sample_duplex2|].
  split; [exact H1|]. split; [exact H2|exact H3].
Defined.

(** ** Closing *)

(** Whatever the requests come to, the close frame is the last thing written; the
    token is forgotten exactly when it was to be killed, and without a token
    nothing but the close frame goes out. *)
Lemma graceful_close_spec {S H} `{!TokenStore S, !Json, !Digests, !Hex, !AesCbc, !Base64}
    keys cfg (c : CloseEnv S H) w :
  let w' := graceful_close keys cfg c w in
  (∃ b, last (wire w') = Some (OpClose, close_payload, b))
  ∧ (kill_token_on_stop cfg = true → token_is_empty (shared_token (shared w')) = true)
  ∧ (kill_token_on_stop cfg = false → shared w' = shared w)
  ∧ (kill_token_on_stop cfg = false ∨ token_is_empty (shared_token (shared w)) = true →
     ∃ b, wire w' = wire w ++ [(OpClose, close_payload, b)]).
Proof.
  unfold graceful_close.
  destruct (write_frame (close_write c) OpClose close_payload _) as [w2 r2] eqn:E2.
  apply write_frame_spec in E2 as [b ->]. cbn [fst wire put_frame shared].
  split; [exists b; by rewrite last_snoc|].
  destruct (kill_token_on_stop cfg); (split; [done|]; split; [done|]).
  - intros [?|He]; [done|]. exists b. unfold kill_token, mbind, M_bind. cbn [gets]. by rewrite He.
  - intros _. by exists b.
Qed.

(** A stalled write is meant to be the last use of the write half; on the way out
    it is not: when the [getkey] before the [killtoken] stalls, the close frame is
    written behind half a frame. *)
Lemma close_after_stalled_write :
  let c := {| getkey_env := {| req_env := {| draw := sample_draw 9; now := 0 |}; req_tx := 100%nat;
                               before_write := id; req_write := WStalled; meanwhile := id;
                               reply := ReplyTimeout |};
              kill_env := sample_request 101; close_write := WOk |} in
  let w := upd_shared (set_token (new_token (bs "eyJ") 500000000 Sha256)) sample_world in
  map (λ '(op, _, complete), (op, complete)) (wire (graceful_close sample_keys sample_cfg c w))
  = [(OpText, false); (OpClose, true)].
Proof. vm_compute. reflexivity. Qed.
