(* ===== verification/Tls.v ===== *)
(** * client/tls.rs: certificate policy and pinning

    The X.509 parser and rustls are parameters: parsing a certificate, taking its
    public key, checking a handshake signature, and what WebPKI verification says.
    The pin is one slot shared by every connection of a client. *)

From S2P Require Import Prelude RustStr External Models Errors Session Crypto.

(** [x509_cert]: parsing, and the DER form of the leaf's public key info. *)
Class X509 := {
  Certificate : Type;
  from_der : bytes → result bytes Certificate;
  load_pem_chain : bytes → result bytes (list Certificate);
  spki_to_der : Certificate → result bytes bytes;
}.

Inductive TlsMode :=
| WebPki
| PinOnFirstUse
| Pinned (spki_sha256 : bytes)
| Insecure.
#[export] Instance TlsMode_eq_dec : EqDecision TlsMode.
Proof. solve_decision. Defined.

Definition pins (m : TlsMode) : bool :=
  match m with PinOnFirstUse | Pinned _ => true | WebPki | Insecure => false end.

(** The verifier the rustls configuration is built with. *)
Inductive Verifier := WebPkiVerifier | SpkiPinVerifier (learn : bool) | NoCertVerifier.

Record TlsContext := { tls_mode : TlsMode; pin : option bytes; verifier : Verifier }.

(** [builder] is what [with_safe_default_protocol_versions] returns. *)
Definition tls_new (builder : result bytes unit) (mode : TlsMode) : Result TlsContext :=
  let pin := match mode with Pinned spki => Some spki | _ => None end in
  _ ← map_err Tls builder;
  let config := match mode with
                | WebPki => WebPkiVerifier
                | PinOnFirstUse | Pinned _ =>
                    SpkiPinVerifier (match mode with PinOnFirstUse => true | _ => false end)
                | Insecure => NoCertVerifier
                end in
  Ok {| tls_mode := mode; pin := pin; verifier := config |}.

Definition pinned_spki (c : TlsContext) : option bytes := pin c.
Definition needs_pin_bootstrap (c : TlsContext) : bool :=
  pins (tls_mode c) && match pinned_spki c with None => true | Some _ => false end.

Definition set_pin (p : option bytes) (c : TlsContext) : TlsContext :=
  {| tls_mode := tls_mode c; pin := p; verifier := verifier c |}.

Definition mode (c : TlsContext) : TlsMode := tls_mode c.
(** Cloning the connector shares the configuration, of which the verifier matters. *)
Definition connector (c : TlsContext) : Verifier := verifier c.

Inductive RustlsError := General (msg : bytes) | InvalidCertificate.

(** [rustls]: the check of a handshake signature by the provider's algorithms, and
    the schemes they support. *)
Class Rustls := {
  rustls_verify_tls12 : bytes → bytes → bytes → result RustlsError unit;
  rustls_verify_tls13 : bytes → bytes → bytes → result RustlsError unit;
  provider_schemes : list Z;
}.

Section tls.
Context {D : Digests} {X : Hex} {C : X509} {RL : Rustls}.

Definition adopt_spki (spki : bytes) (c : TlsContext) : TlsContext * Result unit :=
  if negb (pins (tls_mode c)) then (c, Ok tt)
  else
    match pin c with
    | Some existing =>
        if bool_decide (existing = spki) then (c, Ok tt)
        else (c, Err (TlsPinMismatch (hex_encode existing) (hex_encode spki)))
    | None => (set_pin (Some spki) c, Ok tt)
    end.

Definition spki_sha256_of (cert : Certificate) : Result bytes :=
  der ← map_err (λ e, Tls (bs "SPKI encode: " ++ e)) (spki_to_der cert);
  Ok (sha256 der).

Definition spki_sha256 (cert_der : bytes) : Result bytes :=
  cert ← map_err (λ e, Tls (bs "certificate parse: " ++ e)) (from_der cert_der);
  spki_sha256_of cert.

(** The Miniserver's own certificate is the last of the chain. *)
Definition spki_sha256_from_pem_chain (pem : bytes) : Result bytes :=
  chain ← map_err (λ e, Tls (bs "certificate chain parse: " ++ e)) (load_pem_chain pem);
  leaf ← ok_or (last chain) (Tls (bs "certificate chain is empty"));
  spki_sha256_of leaf.

(** [SpkiPinVerifier::verify_server_cert] on the shared slot. *)
Definition verify_server_cert (learn : bool) (end_entity : bytes) (slot : option bytes) :
    option bytes * result RustlsError unit :=
  match spki_sha256 end_entity with
  | Err e => (slot, Err (General (error_display e)))
  | Ok presented =>
      match slot with
      | Some expected =>
          if bool_decide (expected = presented) then (slot, Ok tt) else (slot, Err InvalidCertificate)
      | None => if learn then (Some presented, Ok tt) else (slot, Err InvalidCertificate)
      end
  end.

(** The certificate check of one TLS handshake; [webpki] is the verdict of the
    chain and host name check where that is the policy. *)
Definition check_certificate (webpki : result RustlsError unit) (end_entity : bytes) (c : TlsContext) :
    TlsContext * result RustlsError unit :=
  match verifier c with
  | WebPkiVerifier => (c, webpki)
  | SpkiPinVerifier learn =>
      let '(slot, r) := verify_server_cert learn end_entity (pin c) in (set_pin slot c, r)
  | NoCertVerifier => (c, Ok tt)
  end.

(** The signature checks of the verifiers; [WebPkiVerifier] is rustls' own. *)
Definition verify_tls12_signature (v : Verifier) (message cert dss : bytes) : result RustlsError unit :=
  match v with
  | WebPkiVerifier | SpkiPinVerifier _ => rustls_verify_tls12 message cert dss
  | NoCertVerifier => Ok tt
  end.
Definition verify_tls13_signature (v : Verifier) (message cert dss : bytes) : result RustlsError unit :=
  match v with
  | WebPkiVerifier | SpkiPinVerifier _ => rustls_verify_tls13 message cert dss
  | NoCertVerifier => Ok tt
  end.
Definition supported_verify_schemes (v : Verifier) : list Z := provider_schemes.

(** The peer of one TLS handshake: its certificate with the verdict of the chain and
    host name check, the signed transcript, and how the handshake goes otherwise. *)
Record Peer := {
  cert : bytes;
  webpki : result RustlsError unit;
  tls13 : bool;
  transcript : bytes;
  dss : bytes;
  (** the text of a refusal by a verifier *)
  alert : RustlsError → bytes;
  tls_rest : result bytes unit;
}.

Definition verify_signature (v : Verifier) (p : Peer) : result RustlsError unit :=
  if tls13 p then verify_tls13_signature v (transcript p) (cert p) (dss p)
  else verify_tls12_signature v (transcript p) (cert p) (dss p).

(** [connector().connect(server_name, tcp)]: the certificate, then the signature,
    then the rest. *)
Definition tls_connect (p : Peer) (c : TlsContext) : TlsContext * Result unit :=
  let failed e := Err (Tls (bs "TLS handshake: " ++ e)) in
  match check_certificate (webpki p) (cert p) c with
  | (c, Err e) => (c, failed (alert p e))
  | (c, Ok _) =>
      (c, match verify_signature (connector c) p with
          | Err e => failed (alert p e)
          | Ok _ => match tls_rest p with Err e => failed e | Ok _ => Ok tt end
          end)
  end.

(** The peer has signed the handshake with the key of its certificate. *)
Definition proves_key (p : Peer) : Prop :=
  (if tls13 p then rustls_verify_tls13 (transcript p) (cert p) (dss p)
   else rustls_verify_tls12 (transcript p) (cert p) (dss p)) = Ok tt.

(** ** The pin does not move *)

(** What the connections of a client do to its context, with the keys accepted and
    the peers they were accepted from. *)
Inductive tls_op := Connect (p : Peer) | Adopt (spki : bytes).

Definition tls_step (o : tls_op) (c : TlsContext) : TlsContext * list (bytes * option Peer) :=
  match o with
  | Connect p =>
      match tls_connect p c with
      | (c, Ok _) => (c, match spki_sha256 (cert p) with Ok spki => [(spki, Some p)] | Err _ => [] end)
      | (c, Err _) => (c, [])
      end
  | Adopt spki =>
      match adopt_spki spki c with
      | (c, Ok _) => (c, [(spki, None)])
      | (c, Err _) => (c, [])
      end
  end.
Fixpoint tls_run (ops : list tls_op) (c : TlsContext) : TlsContext * list (bytes * option Peer) :=
  match ops with
  | [] => (c, [])
  | o :: ops =>
      let '(c, a) := tls_step o c in
      let '(c, a') := tls_run ops c in (c, a ++ a')
  end.

Definition wf_context (c : TlsContext) : Prop :=
  verifier c = SpkiPinVerifier (match tls_mode c with PinOnFirstUse => true | _ => false end)
  ∧ pins (tls_mode c) = true
  ∧ (pin c = None → tls_mode c = PinOnFirstUse).

(** A key accepted under a pin. *)
Definition accepted_under (c : TlsContext) (a : bytes * option Peer) : Prop :=
  pin c = Some (fst a)
  ∧ match snd a with Some p => spki_sha256 (cert p) = Ok (fst a) ∧ proves_key p | None => True end.

(** The certificate check keeps a pin, and passes nothing but it. *)
Lemma check_certificate_pin w cert c c' r :
  wf_context c → check_certificate w cert c = (c', r) →
  wf_context c' ∧ verifier c' = verifier c ∧ (∀ p, pin c = Some p → pin c' = Some p)
  ∧ (r = Ok tt → ∃ s, spki_sha256 cert = Ok s ∧ pin c' = Some s).
Proof using.
  intros Hw. pose proof Hw as (Hv & Hp & Hn). unfold check_certificate. rewrite Hv. unfold verify_server_cert.
  assert (∀ q, wf_context (set_pin (Some q) c)) as Hset by (intros q; by split).
  assert (set_pin (pin c) c = c) as Hid by (by destruct c).
  destruct (spki_sha256 cert) as [s|e]; [|intros [= <- <-]; by rewrite Hid].
  destruct (pin c) as [q|] eqn:Ep.
  - case_bool_decide; rewrite Hid; intros [= <- <-]; subst; (split; [done|]); (split; [done|]);
      (split; [by rewrite Ep|]); [by eauto|done].
  - rewrite (Hn eq_refl). intros [= <- <-]. split; [apply Hset|].
    split; [cbn; by rewrite Hv, (Hn eq_refl)|]. split; [done|]. by eauto.
Qed.

Lemma tls_step_pin o c c' accepted :
  wf_context c → tls_step o c = (c', accepted) →
  wf_context c' ∧ (∀ p, pin c = Some p → pin c' = Some p) ∧ Forall (accepted_under c') accepted.
Proof using.
  intros Hw. pose proof Hw as (Hv & Hp & Hn). destruct o as [p|spki]; cbn [tls_step].
  - unfold tls_connect. destruct (check_certificate _ _ c) as [c1 r1] eqn:E1.
    apply check_certificate_pin in E1 as (Hw1 & Hv1 & Hk & Hok); [|done].
    destruct r1 as [[]|e]; [|intros [= <- <-]; done]. destruct (Hok eq_refl) as (s & Hs & Hpin).
    unfold connector. rewrite Hs. destruct (verify_signature (verifier c1) p) as [[]|e] eqn:Es; [|by intros [= <- <-]].
    destruct (tls_rest p); intros [= <- <-]; [|done]. split; [done|]. split; [done|]. apply Forall_singleton.
    split; [done|]. split; [done|]. rewrite Hv1, Hv in Es. exact Es.
  - unfold adopt_spki. rewrite Hp. cbn [negb]. destruct (pin c) as [p|] eqn:Ep.
    + case_bool_decide; intros [= <- <-]; subst; rewrite Ep; (split; [done|]); (split; [done|]);
        [by apply Forall_singleton|done].
    + intros [= <- <-]. split; [by split|]. split; [done|]. by apply Forall_singleton.
Qed.

Lemma tls_run_pin ops c c' accepted :
  wf_context c → tls_run ops c = (c', accepted) →
  (∀ p, pin c = Some p → pin c' = Some p) ∧ Forall (accepted_under c') accepted.
Proof using.
  revert c accepted. induction ops as [|o ops IH]; intros c accepted Hw; cbn [tls_run].
  { intros [= <- <-]. done. }
  destruct (tls_step o c) as [c1 a1] eqn:E1. destruct (tls_run ops c1) as [c2 a2] eqn:E2. intros [= <- <-].
  apply tls_step_pin in E1 as (Hw1 & Hk1 & Ha1); [|done].
  destruct (IH _ _ Hw1 E2) as (Hk2 & Ha2). split; [auto|].
  apply Forall_app. split; [|done]. eapply Forall_impl; [exact Ha1|]. intros a [Hpin Hp]. split; [auto|done].
Qed.


(** The pin is taken before the signature is checked: a peer that cannot sign is
    refused, and its key stays. *)
Lemma pin_taken_unproved p c s :
  verifier c = SpkiPinVerifier true → pin c = None → spki_sha256 (cert p) = Ok s →
  verify_signature (SpkiPinVerifier true) p = Err InvalidCertificate →
  ∃ e, tls_connect p c = (set_pin (Some s) c, Err e).
Proof using.
  intros Hv Hn Hs He. unfold tls_connect, check_certificate, verify_server_cert. rewrite Hv, Hs, Hn.
  unfold connector. cbn [set_pin verifier]. rewrite Hv, He. by eexists.
Qed.
End tls.

(** Certificates as names, whose key is the name: the second server is refused. *)
Definition x509_model : X509 :=
  {| Certificate := bytes; from_der b := Ok b; load_pem_chain b := Ok [b]; spki_to_der c := Ok c |}.
(** A signature is the transcript with the name of the signer. *)
Definition rustls_model : Rustls :=
  let check m c d := if bool_decide (d = m ++ c) then Ok tt else Err InvalidCertificate in
  {| rustls_verify_tls12 := check; rustls_verify_tls13 := check; provider_schemes := [1027; 2052] |}.
Definition peer_named (name : bytes) : Peer :=
  {| cert := name; webpki := Ok tt; tls13 := true; transcript := bs "hello"; dss := bs "hello" ++ name;
     alert _ := bs "bad certificate"; tls_rest := Ok tt |}.

