(* ===== verification/Http.v ===== *)
(** * client/connect.rs and client/http.rs: endpoints, the abortable read half, HTTP

    The URL parser and the network are parameters: what a connection attempt comes
    to is an input, step by step. The TLS context is threaded through, because a
    connection may learn the pin. *)

From S2P Require Import Prelude RustStr External Models Errors Session Crypto Auth Store State Uuid.
From S2P Require Import Header EventTables Scan Pending Handler World Tls.

(** ** connect.rs *)

(** The [url] crate: parsing and the parts read; [url_base] is the URL printed
    after its path, query and fragment have been cleared. *)
Class Url := {
  UrlT : Type;
  url_parse : bytes → result bytes UrlT;
  host_str : UrlT → option bytes;
  scheme : UrlT → bytes;
  url_port : UrlT → option Z;
  url_base : UrlT → bytes;
}.

Record Endpoints := {
  http_base : bytes;
  ws_url : bytes;
  host : bytes;
  port : Z;
  use_tls : bool;
}.

Definition from_loxone_url `{!Url} (loxone_url : bytes) : Result Endpoints :=
  let url_str := trim loxone_url in
  let url_str := if negb (starts_with (bs "http://") url_str) && negb (starts_with (bs "https://") url_str)
                 then bs "http://" ++ url_str else url_str in
  url ← map_err Protocol (url_parse url_str);
  host ← ok_or (host_str url) (Protocol (bs "URL missing host"));
  let use_tls := bool_decide (scheme url = bs "https") in
  let port := default (if use_tls then 443 else 80) (url_port url) in
  let http_base := trim_end_matches slash (url_base url) in
  let ws_scheme := if use_tls then bs "wss" else bs "ws" in
  let ws_url := ws_scheme ++ bs "://" ++ host ++ bs ":" ++ display_Z port ++ bs "/ws/rfc6455" in
  Ok {| http_base := http_base; ws_url := ws_url; host := host; port := port; use_tls := use_tls |}.

(** The read half with its abort switch. [abort] names the one-shot channel whose
    receiver it holds. *)
Record AbortableRead (I : Type) := { ar_inner : I; ar_abort : nat; ar_aborted : bool }.
Arguments ar_inner {_}. Arguments ar_abort {_}. Arguments ar_aborted {_}.
Arguments Build_AbortableRead {_}.
Definition abortable_new {I} (inner : I) (abort : nat) : AbortableRead I :=
  {| ar_inner := inner; ar_abort := abort; ar_aborted := false |}.

(** One poll. [fired] says of a channel whether its sender has sent or is gone,
    [poll_inner] is one poll of the stream below. *)
Definition poll_read {I R} (fired : nat → bool) (poll_inner : I → I * R) (this : AbortableRead I) :
    AbortableRead I * (bytes + R) :=
  let aborted := ar_aborted this || fired (ar_abort this) in
  let this := {| ar_inner := ar_inner this; ar_abort := ar_abort this; ar_aborted := aborted |} in
  if aborted then (this, inl (bs "read half aborted by the writer"))
  else
    let '(inner, r) := poll_inner (ar_inner this) in
    ({| ar_inner := inner; ar_abort := ar_abort this; ar_aborted := false |}, inr r).

Fixpoint poll_reads {I R} (polls : list ((nat → bool) * (I → I * R))) (this : AbortableRead I) :
    AbortableRead I * list (bytes + R) :=
  match polls with
  | [] => (this, [])
  | (fired, poll_inner) :: polls =>
      let '(this, r) := poll_read fired poll_inner this in
      let '(this, rs) := poll_reads polls this in (this, r :: rs)
  end.

(** Once aborted, the stream below is never polled again: every poll fails and the
    stream stays where it was, whatever the channel says later. *)
Lemma poll_reads_aborted {I R} (polls : list ((nat → bool) * (I → I * R))) this :
  ar_aborted this = true →
  (poll_reads polls this).1 = this
  ∧ Forall (λ r, r = inl (bs "read half aborted by the writer")) (poll_reads polls this).2.
Proof.
  intros Ha. induction polls as [|[fired poll_inner] polls [IH1 IH2]]; [done|].
  assert (poll_read fired poll_inner this = (this, inl (bs "read half aborted by the writer"))) as E.
  { unfold poll_read. rewrite Ha. destruct this; cbn in *. by subst. }
  cbn. rewrite E. destruct (poll_reads polls this) as [this' rs]. cbn in *. auto.
Qed.

(** A poll after the handle has fired aborts, also when it is the first. *)
Lemma poll_reads_fired {I R} fired (poll_inner : I → I * R) polls this :
  fired (ar_abort this) = true →
  ar_inner (poll_reads ((fired, poll_inner) :: polls) this).1 = ar_inner this
  ∧ Forall (λ r, r = inl (bs "read half aborted by the writer"))
      (poll_reads ((fired, poll_inner) :: polls) this).2.
Proof.
  intros Hf. cbn. unfold poll_read. rewrite Hf, orb_true_r.
  match goal with |- context [poll_reads polls ?t] => pose proof (poll_reads_aborted polls t eq_refl) as [E1 E2] end.
  destruct (poll_reads polls _) as [this' rs]. cbn in *. subst. auto.
Qed.

(** ** The WebSocket and its halves *)
Record WsFlags := { auto_close : bool; auto_pong : bool; writev : bool }.
Record WsSocket (St : Type) := { ws_stream : St; ws_flags : WsFlags }.
Arguments ws_stream {_}. Arguments ws_flags {_}. Arguments Build_WsSocket {_}.
Definition configure_ws {St} (ws : WsSocket St) : WsSocket St :=
  {| ws_stream := ws_stream ws;
     ws_flags := {| auto_close := true; auto_pong := true; writev := true |} |}.

Section split.
Context {St I W : Type} (io_split : St → I * W).
(** [WebSocket::split] of the WebSocket library: it takes the function that splits
    the stream, which may be called more than once as far as its type says. The
    cell the function captures is threaded; [None] is a panic. *)
Context (ws_split : (option nat → St → option nat * option (AbortableRead I * W)) →
                    option nat → WsSocket St →
                    option ((AbortableRead I * WsFlags) * (W * WsFlags))).
(** It calls the function once and gives each half the flags of the whole. *)
Definition splits_once : Prop := ∀ f slot ws,
  ws_split f slot ws
  = '(r, w) ← (f slot (ws_stream ws)).2; Some ((r, ws_flags ws), (w, ws_flags ws)).

Definition split_fn (slot : option nat) (stream : St) : option nat * option (AbortableRead I * W) :=
  let '(r, w) := io_split stream in
  match slot with
  | None => (None, None)
  | Some abort => (None, Some (abortable_new r abort, w))
  end.
Definition split_ws (channel : nat) (ws : WsSocket St) :
    option ((AbortableRead I * WsFlags) * (W * WsFlags) * nat) :=
  '(r, w) ← ws_split split_fn (Some channel) ws; Some (r, w, channel).

(** Splitting a configured socket does not panic; both halves answer pings and
    close frames by themselves; the read half is the one the handle ends. *)
Lemma split_configured channel ws :
  splits_once →
  ∃ r w, split_ws channel (configure_ws ws) = Some (r, w, channel)
    ∧ (r.1, w.1) = (abortable_new (io_split (ws_stream ws)).1 channel, (io_split (ws_stream ws)).2)
    ∧ auto_close r.2 ∧ auto_pong r.2 ∧ auto_close w.2 ∧ auto_pong w.2.
Proof.
  intros Hs. unfold split_ws. rewrite Hs. unfold split_fn. cbn.
  destruct (io_split (ws_stream ws)) as [r w]. cbn. do 2 eexists. split; [done|]. auto.
Qed.
End split.

(** The upgrade request of [ws_connect]. *)
Record WsRequest := { ws_uri : bytes; ws_host : bytes; ws_protocol : bytes }.
Definition ws_request (e : Endpoints) : WsRequest :=
  let host_header :=
    if (negb (use_tls e) && (port e =? 80)) || (use_tls e && (port e =? 443)) then host e
    else host e ++ bs ":" ++ display_Z (port e) in
  {| ws_uri := bs "/ws/rfc6455"; ws_host := host_header; ws_protocol := bs "remotecontrol" |}.

(** What the steps of a connection come to. *)
Record Net := {
  tcp : result bytes unit;
  server_name : result bytes unit;
  peer : Peer;
  build : result bytes unit;
  upgrade : result bytes unit;
  http1 : result bytes unit;
  status : result bytes Z;
  body : result bytes bytes;
}.

Section net.
Context {D : Digests} {X : Hex} {C : X509} {RL : Rustls}.

Definition addr_of (h : bytes) (p : Z) : bytes := h ++ bs ":" ++ display_Z p.

Definition ws_connect (n : Net) (e : Endpoints) : M TlsContext unit :=
  let addr := addr_of (host e) (port e) in
  _ ← lift (map_err (λ m, WebSocket (bs "TCP connect " ++ addr ++ bs ": " ++ m)) (tcp n));
  _ ← lift (map_err WebSocket (build n));
  _ ← (if use_tls e then
         _ ← lift (map_err (λ m, WebSocket (bs "invalid server name: " ++ m)) (server_name n));
         tls_connect (peer n)
       else mret tt);
  lift (map_err (λ m, WebSocket (bs "WS handshake: " ++ m)) (upgrade n)).

(** ** http.rs *)

Definition CMD_GET_PUBLIC_KEY : bytes := bs "jdev/sys/getPublicKey".
Definition CMD_GET_CERTIFICATE : bytes := bs "jdev/sys/getcertificate".
Definition CMD_API_KEY : bytes := bs "jdev/cfg/apiKey".
Definition CMD_API : bytes := bs "jdev/cfg/api".
Definition TIMEOUT_SECS : Z := 30.
Definition REACHABILITY_TIMEOUT_SECS : Z := 3.

Record ApiInfo := {
  snr : option bytes;
  version : option bytes;
  https_status : option Z;
  local : option bool;
  has_event_slots : option bool;
}.

Definition fill_from (self other : ApiInfo) : ApiInfo :=
  {| snr := opt_or (snr self) (snr other);
     version := opt_or (version self) (version other);
     https_status := opt_or (https_status self) (https_status other);
     local := opt_or (local self) (local other);
     has_event_slots := opt_or (has_event_slots self) (has_event_slots other) |}.

Record HttpClient := { h_host : bytes; h_port : Z; h_use_tls : bool; authority : bytes }.

Definition http_new (e : Endpoints) : HttpClient :=
  let default_port := if use_tls e then 443 else 80 in
  let authority := if port e =? default_port then host e else host e ++ bs ":" ++ display_Z (port e) in
  {| h_host := host e; h_port := port e; h_use_tls := use_tls e; authority := authority |}.

(** The two connections name the host in the same way. *)
Lemma host_header_agrees e : ws_host (ws_request e) = authority (http_new e).
Proof using.
  unfold ws_request, http_new. cbn. destruct (use_tls e); cbn; rewrite ?orb_false_r, ?orb_false_l; done.
Qed.

Context {B : Base64} {J : Json}.

Definition basic_auth (username password : bytes) : bytes :=
  bs "Basic " ++ b64_encode (username ++ bs ":" ++ password).

(** The request that goes out; the network sees nothing else of the client. *)
Record HttpRequest := { uri : bytes; host_header : bytes; authorization : option bytes }.
Definition http_request (h : HttpClient) (path : bytes) (credentials : option (bytes * bytes)) : HttpRequest :=
  {| uri := bs "/" ++ path; host_header := authority h;
     authorization := (λ '(u, p), basic_auth u p) <$> credentials |}.

(** A network answers a request, or the time runs out. *)
Definition Network : Type := HttpRequest → option Net.

Definition get_inner (h : HttpClient) (n : Net) : M TlsContext (Z * bytes) :=
  let addr := addr_of (h_host h) (h_port h) in
  _ ← lift (map_err (λ m, Http (bs "TCP connect " ++ addr ++ bs ": " ++ m)) (tcp n));
  _ ← (if h_use_tls h then
         _ ← lift (map_err (λ m, Tls (bs "invalid server name: " ++ m)) (server_name n));
         tls_connect (peer n)
       else mret tt);
  _ ← lift (map_err Http (http1 n));
  _ ← lift (map_err Http (build n));
  st ← lift (map_err Http (status n));
  b ← lift (map_err Http (body n));
  mret (st, b).

Definition http_get (net : Network) (h : HttpClient) (path : bytes) (credentials : option (bytes * bytes)) :
    M TlsContext (Z * bytes) :=
  match net (http_request h path credentials) with
  | None => throw (Timeout (bs "HTTP GET /" ++ path))
  | Some n => get_inner h n
  end.

Definition get_ll (net : Network) (h : HttpClient) (path : bytes) (credentials : option (bytes * bytes)) :
    M TlsContext bytes :=
  '(st, b) ← http_get net h path credentials;
  if negb (st =? 200) then throw (HttpStatus st (bs "GET /" ++ path)) else mret b.

(** [Ok None]: [normalize_public_key_pem] panicked. *)
Definition get_public_key (net : Network) (h : HttpClient) (username password : bytes) :
    M TlsContext (option bytes) :=
  b ← get_ll net h CMD_GET_PUBLIC_KEY (Some (username, password));
  root ← lift (parse_json b);
  ll ← lift (ok_or (value_get root (bs "LL")) (Protocol (bs "getPublicKey missing LL")));
  public_key ← lift (ok_or (get_str ll (bs "value")) (Protocol (bs "getPublicKey missing LL.value")));
  if is_empty public_key then throw (Protocol (bs "public key is empty"))
  else mret (normalize_public_key_pem public_key).

Definition get_certificate (net : Network) (h : HttpClient) (username password : bytes) : M TlsContext bytes :=
  b ← get_ll net h CMD_GET_CERTIFICATE (Some (username, password));
  root ← lift (parse_json b);
  chain ← lift (ok_or (ll ← value_get root (bs "LL"); get_str ll (bs "value"))
                  (Protocol (bs "getcertificate missing LL.value")));
  if negb (contains (bs "BEGIN CERTIFICATE") chain)
  then throw (Protocol (bs "getcertificate returned no PEM block")) else mret chain.

Definition bootstrap_pin (net : Network) (h : HttpClient) (username password : bytes) : M TlsContext bytes :=
  pem ← get_certificate net h username password;
  spki ← lift (spki_sha256_from_pem_chain pem);
  _ ← adopt_spki spki;
  mret spki.

(** *** api and apiKey *)

Definition string_field (v : Value) (key : bytes) : option bytes :=
  field ← value_get v key;
  s ← opt_or (as_str field) (display_Z <$> as_u64 field);
  if is_empty s then None else Some s.

Definition u8_field (v : Value) (key : bytes) : option Z :=
  field ← value_get v key;
  n ← opt_or (as_u64 field) (s ← as_str field; parse_u64 (trim s));
  if n <? 256 then Some n else None.

Definition bool_field (v : Value) (key : bytes) : option bool :=
  field ← value_get v key;
  match as_bool field with
  | Some b => Some b
  | None =>
      match as_u64 field with
      | Some n => Some (negb (n =? 0))
      | None =>
          s ← as_str field;
          let s := trim s in
          if codeb s (bs "true") || codeb s (bs "1") then Some true
          else if codeb s (bs "false") || codeb s (bs "0") then Some false else None
      end
  end.

Definition from_value (v : Value) : ApiInfo :=
  {| snr := string_field v (bs "snr"); version := string_field v (bs "version");
     https_status := u8_field v (bs "httpsStatus"); local := bool_field v (bs "local");
     has_event_slots := bool_field v (bs "hasEventSlots") |}.

Definition single_quote : byte := Byte.x27.
Definition parse_relaxed_object (raw : bytes) : Result Value :=
  let strict := from_slice raw in
  let relaxed :=
    let normalized := map (λ b, if byteb b single_quote then quote else b) raw in
    v ← map_err (λ e, JsonError (bs "LL.value: " ++ e)) (from_slice normalized);
    if negb (is_object v) then Err (Protocol (bs "LL.value string is not an object")) else Ok v in
  match strict with
  | Ok v => if is_object v then Ok v else relaxed
  | Err _ => relaxed
  end.

Definition parse_api_info (payload : bytes) : Result ApiInfo :=
  root ← parse_json payload;
  ll ← ok_or (value_get root (bs "LL")) (Protocol (bs "api response missing LL"));
  _ ← match ll_status_code ll with
      | Some code => if negb (codeb code (bs "200"))
                     then Err (Protocol (bs "api response LL status " ++ code)) else Ok tt
      | None => Ok tt
      end;
  value ← ok_or (value_get ll (bs "value")) (Protocol (bs "api response missing LL.value"));
  match as_str value with
  | Some raw => v ← parse_relaxed_object raw; Ok (from_value v)
  | None => if is_object value then Ok (from_value value)
            else Err (Protocol (bs "api response LL.value is not an object"))
  end.

Definition fetch_api_info (net : Network) (h : HttpClient) (path : bytes) : M TlsContext ApiInfo :=
  b ← get_ll net h path None;
  lift (parse_api_info b).

Definition api_info (net : Network) (h : HttpClient) : M TlsContext ApiInfo := λ c,
  let '(c, key) := fetch_api_info net h CMD_API_KEY c in
  let '(c, api) := fetch_api_info net h CMD_API c in
  (c, match key, api with
      | Ok info, Ok extra => Ok (fill_from info extra)
      | Ok info, Err _ => Ok info
      | Err _, Ok info => Ok info
      | Err e, Err _ => Err e
      end).
End net.
