(* ===== verification/Config.v ===== *)
(** * The configuration of client/mod.rs *)

From S2P Require Import Prelude RustStr External Errors Session Crypto Auth Store State Tls.

Definition COMMAND_CHANNEL_DEPTH : Z := 32.
Definition MAX_PENDING_COMMANDS : Z := 32.

(** [token_store] holds the store as it is when the client connects. *)
Record ConnectConfig (S : Type) := {
  loxone_url : bytes;
  c_username : bytes;
  c_password : bytes;
  tls : TlsMode;
  receive_updates : bool;
  local_only : bool;
  max_reconnect_attempts : Z;
  client_uuid : bytes;
  client_info : bytes;
  token_permission : TokenPermission;
  keepalive_secs : Z;
  connect_delay_secs : Z;
  long_backoff_secs : Z;
  command_timeout_secs : Z;
  read_idle_timeout_secs : Z;
  c_max_missed_keepalives : Z;
  max_pending_commands : Z;
  command_channel_depth : Z;
  token_store : option S;
  c_kill_token_on_stop : bool;
}.
Arguments loxone_url {S}. Arguments c_username {S}. Arguments c_password {S}. Arguments tls {S}.
Arguments receive_updates {S}. Arguments local_only {S}. Arguments max_reconnect_attempts {S}.
Arguments client_uuid {S}. Arguments client_info {S}. Arguments token_permission {S}.
Arguments keepalive_secs {S}. Arguments connect_delay_secs {S}. Arguments long_backoff_secs {S}.
Arguments command_timeout_secs {S}. Arguments read_idle_timeout_secs {S}.
Arguments c_max_missed_keepalives {S}. Arguments max_pending_commands {S}.
Arguments command_channel_depth {S}. Arguments token_store {S}. Arguments c_kill_token_on_stop {S}.
Arguments Build_ConnectConfig {S}.

Definition config_new {S} (url user pass : bytes) : ConnectConfig S :=
  {| loxone_url := url; c_username := user; c_password := pass; tls := WebPki;
     receive_updates := true; local_only := false; max_reconnect_attempts := 0;
     client_uuid := DEFAULT_CLIENT_UUID; client_info := DEFAULT_CLIENT_INFO;
     token_permission := App; keepalive_secs := KEEP_ALIVE_PERIOD_SECS;
     connect_delay_secs := CONNECT_DELAY_SECS; long_backoff_secs := LONG_BACKOFF_SECS;
     command_timeout_secs := COMMAND_TIMEOUT_SECS; read_idle_timeout_secs := READ_IDLE_TIMEOUT_SECS;
     c_max_missed_keepalives := MAX_MISSED_KEEPALIVES; max_pending_commands := MAX_PENDING_COMMANDS;
     command_channel_depth := COMMAND_CHANNEL_DEPTH; token_store := None; c_kill_token_on_stop := true |}.

Definition cfg_with_token_store {S} (st : S) (c : ConnectConfig S) : ConnectConfig S :=
  {| loxone_url := loxone_url c; c_username := c_username c; c_password := c_password c; tls := tls c;
     receive_updates := receive_updates c; local_only := local_only c;
     max_reconnect_attempts := max_reconnect_attempts c; client_uuid := client_uuid c;
     client_info := client_info c; token_permission := token_permission c;
     keepalive_secs := keepalive_secs c; connect_delay_secs := connect_delay_secs c;
     long_backoff_secs := long_backoff_secs c; command_timeout_secs := command_timeout_secs c;
     read_idle_timeout_secs := read_idle_timeout_secs c;
     c_max_missed_keepalives := c_max_missed_keepalives c; max_pending_commands := max_pending_commands c;
     command_channel_depth := command_channel_depth c; token_store := Some st;
     c_kill_token_on_stop := c_kill_token_on_stop c |}.

(** The defaults are consistent: the idle window outlasts two keepalive periods,
    so that a quiet connection is not torn down before its keepalives answer. *)
Lemma defaults_consistent {S} url user pass (c := @config_new S url user pass) :
  2 * keepalive_secs c < read_idle_timeout_secs c ∧ command_timeout_secs c < keepalive_secs c
  ∧ connect_delay_secs c < long_backoff_secs c.
Proof. done. Qed.
