(* ===== verification/Handshake.v ===== *)
(** * client/handshake.rs: key exchange, authentication, subscription

    The handshake owns both halves of the connection. What the Miniserver sends is
    a list of reads the handshake consumes; when it is exhausted, the next read
    times out. Writes succeed or fail as the list [hwrites] says. *)

From S2P Require Import Prelude RustStr External Models Errors Session Crypto Auth Store State Scan.
From S2P Require Import Pending Uuid Header EventTables Handler World Reader Tls Config.

Definition TOKEN_MIN_REMAINING_SECS : Z := 300.
Definition MAX_INTERLEAVED_FRAMES : nat := 64.

(** One call of [read_frame] under its timeout. *)
Inductive HRead := HFrame (opcode : OpCode) (payload : bytes) | HFail (msg : bytes) | HSilent.

Record HState (S H : Type) := {
  hw : World S H;
  hreads : list HRead;
  (** the writes to come: [Some] is the text of a failure; none left is success *)
  hwrites : list (option bytes);
  (** how many commands have been encrypted *)
  htick : nat;
}.
Arguments hw {S H}. Arguments hreads {S H}. Arguments hwrites {S H}. Arguments htick {S H}.
Arguments Build_HState {S H}.

(** [seconds_to_expire] in a build without overflow checks. *)
Definition remaining (now : Z) (t : LxToken) : Z := default 0 (seconds_to_expire false now t).

Inductive LlOutcome := LlOk | TokenRejected (code : bytes) | LlFailed (e : Error).

Section handshake.
Context {S H : Type} {TS : TokenStore S} {LH : LoxHandler H}.
Context {zc : ZeroCopy} {J : Json} {D : Digests} {X : Hex} {A : AesCbc} {B : Base64}.
(** the session keys, the configuration, the randomness of the commands and the clock *)
Context (keys : SessionKeys) (cfg : ConnectConfig S) (draws : nat → Draw) (now : Z).

Definition HM (T : Type) : Type := M (HState S H) T.

Definition upd_hw (f : World S H → World S H) (s : HState S H) : HState S H :=
  {| hw := f (hw s); hreads := hreads s; hwrites := hwrites s; htick := htick s |}.
(** A computation on the world. *)
Definition in_world {T} (m : M (World S H) T) : HM T := λ s,
  let '(w, r) := m (hw s) in (upd_hw (λ _, w) s, r).

Definition classify (payload : bytes) : LlOutcome :=
  match payload_ll_status payload with
  | Some code =>
      if codeb code (bs "200") then LlOk
      else if ll_status_invalidates_token code then TokenRejected code
      else LlFailed (ll_status_error code)
  | None => LlFailed (Protocol (bs "response is not an LL envelope"))
  end.

(** *** Frames *)

Definition send_text (text : bytes) : HM unit := λ s,
  match hwrites s with
  | Some m :: ws =>
      ({| hw := put_frame (OpText, text, false) (hw s); hreads := hreads s; hwrites := ws; htick := htick s |},
       Err (WebSocket m))
  | None :: ws =>
      ({| hw := put_frame (OpText, text, true) (hw s); hreads := hreads s; hwrites := ws; htick := htick s |},
       Ok tt)
  | [] => (upd_hw (put_frame (OpText, text, true)) s, Ok tt)
  end.

Definition read_frame_bytes : HM bytes := λ s,
  let timed_out := Err (Timeout (bs "handshake response")) in
  match hreads s with
  | [] => (s, timed_out)
  | r :: rs =>
      ({| hw := hw s; hreads := rs; hwrites := hwrites s; htick := htick s |},
       match r with
       | HSilent => timed_out
       | HFail m => Err (WebSocket m)
       | HFrame opcode payload =>
           if bool_decide (opcode = OpClose) then Err (Closed (bs "closed during handshake")) else Ok payload
       end)
  end.

Definition read_header : HM WsBinHdr :=
  raw ← read_frame_bytes;
  o ← lift (parse_header raw);
  lift (ok_or o (Protocol (bs "expected 8-byte header, got " ++ display_Z (zlen raw) ++ bs " bytes"))).

(** The [for _ in 0..MAX_INTERLEAVED_FRAMES] loop. *)
Fixpoint read_loop (budget : nat) : HM bytes :=
  match budget with
  | O => throw (Protocol (bs "no handshake answer within the interleaved frame budget"))
  | Datatypes.S budget =>
      hdr ← read_header;
      let ty := u8 (identifier hdr) in
      if is_estimated hdr then read_loop budget
      else if ty =? mt_as_u8 OutOfService then throw (Closed (bs "out of service"))
      else
        payload ← (if payload_len hdr =? 0 then mret [] else read_frame_bytes);
        if ty =? mt_as_u8 Text then
          _ ← in_world (guard_m [on_raw_payload ty payload] tt);
          mret payload
        else
          let '(calls, dispatched) := dispatch_event ty payload in
          _ ← in_world (guard_m (on_raw_payload ty payload :: calls) dispatched);
          read_loop budget
  end.
Definition read_payload : HM bytes := read_loop MAX_INTERLEAVED_FRAMES.

(** *** Requests *)

(** Encrypting advances the salt, whether or not it succeeds. *)
Definition encrypt_next (cmd : bytes) : HM bytes := λ s,
  let '(st, r) := encrypt (draws (htick s)) keys cmd (w_salt (hw s)) in
  ({| hw := set_salt st (hw s); hreads := hreads s; hwrites := hwrites s; htick := Datatypes.S (htick s) |}, r).

Definition hs_request (cmd : bytes) : HM bytes :=
  encrypted ← encrypt_next cmd;
  _ ← send_text encrypted;
  read_payload.

Definition exchange (session_b64 : bytes) : HM unit :=
  _ ← send_text (CMD_KEY_EXCHANGE ++ session_b64);
  resp ← read_payload;
  root ← lift (parse_json resp);
  _ ← lift (require_ll_ok root);
  mret tt.
Definition key_exchange (session_b64 : bytes) : HM unit :=
  map_err_m (in_step (bs "keyexchange")) (exchange session_b64).

Definition enable_updates : HM unit :=
  resp ← hs_request CMD_ENABLE_UPDATES;
  match payload_ll_status resp with
  | Some code =>
      if negb (codeb code (bs "200"))
      then throw (in_step (bs "enablebinstatusupdate") (ll_status_error code)) else mret tt
  | None => mret tt
  end.

(** *** The token *)

(** [Ok None]: the Miniserver refused the token. *)
Definition reuse_token (t : LxToken) : HM (option LxToken) :=
  key_resp ← map_err_m (in_step (bs "getkey")) (hs_request CMD_GET_KEY);
  hash ← lift (map_err (in_step (bs "getkey")) (build_token_hash key_resp t));
  auth ← map_err_m (in_step (bs "authwithtoken")) (hs_request (cmd_auth_with_token hash (c_username cfg)));
  match classify auth with
  | LlOk =>
      let '(t, r) := apply_valid_until t auth in
      _ ← lift (map_err (in_step (bs "authwithtoken")) r);
      mret (Some t)
  | TokenRejected _ => mret None
  | LlFailed e => throw (in_step (bs "authwithtoken") e)
  end.

Definition hs_kill_token (t : LxToken) : HM unit :=
  key_resp ← hs_request CMD_GET_KEY;
  hash ← lift (build_token_hash key_resp t);
  _ ← hs_request (cmd_kill_token hash (c_username cfg));
  mret tt.

(** The failure of a computation is logged and ignored. *)
Definition ignore_err {T} (m : HM T) : HM unit := λ s, (fst (m s), Ok tt).

Definition acquire_token (displaced : option LxToken) : HM LxToken :=
  _ ← match displaced with Some old => ignore_err (hs_kill_token old) | None => mret tt end;
  getkey2 ← map_err_m (in_step (bs "getkey2")) (hs_request (cmd_getkey2 (c_username cfg)));
  '(cmd, alg) ← lift (map_err (in_step (bs "getkey2"))
    (build_acquire_token_cmd getkey2 (c_username cfg) (c_password cfg) (token_permission cfg)
       (client_uuid cfg) (client_info cfg)));
  resp ← map_err_m (in_step (cmd_label cmd)) (hs_request cmd);
  t ← lift (parse_token_response resp alg);
  if is_empty (token t) then throw (Auth (bs "acquire_token: empty token")) else mret t.

Definition put_token (t : LxToken) : HM unit := modify (upd_hw (upd_shared (set_token t))).
Definition drop_token : HM unit := modify (upd_hw (upd_shared clear_shared_token)).

Definition authenticate : HM unit :=
  existing ← gets (λ s, shared_token (shared (hw s)));
  let fresh :=
    t ← acquire_token None;
    put_token t in
  if negb (token_is_empty existing) then
    if remaining now existing <? TOKEN_MIN_REMAINING_SECS then
      t ← acquire_token (Some existing);
      put_token t
    else
      reused ← reuse_token existing;
      match reused with
      | Some t => put_token t
      | None => _ ← drop_token; fresh
      end
  else fresh.

(** The whole handshake of [session_once]. *)
Definition handshake (session_b64 : bytes) : HM unit :=
  _ ← key_exchange session_b64;
  _ ← authenticate;
  if receive_updates cfg then enable_updates else mret tt.

(** ** What every step of the handshake preserves

    A relation that the primitives respect is respected by everything built from
    them, errors and early returns included. *)

Definition follows {T} (R : relation (HState S H)) (m : HM T) : Prop := ∀ s, R s (fst (m s)).

Class Listened (R : relation (HState S H)) : Prop := {
  resp_pre :: PreOrder R;
  resp_read : follows R read_frame_bytes;
  resp_guard {T} cs (b : T) : Forall (λ c, is_table c = true) cs → follows R (in_world (guard_m cs b));
}.
Class Respected (R : relation (HState S H)) : Prop := {
  resp_listened :: Listened R;
  resp_send t : follows R (send_text t);
  resp_encrypt cmd : follows R (encrypt_next cmd);
}.
Lemma respected_of (R : relation (HState S H)) :
  PreOrder R → (∀ t, follows R (send_text t)) → follows R read_frame_bytes →
  (∀ T cs (b : T), Forall (λ c, is_table c = true) cs → follows R (in_world (guard_m cs b))) →
  (∀ cmd, follows R (encrypt_next cmd)) → Respected R.
Proof using. intros H1 H2 H3 H4 H5. split; [by split|done|done]. Qed.

(** Or whole requests, which encrypt, send and wait for the answer. *)
Class Spoken (R : relation (HState S H)) : Prop := {
  spk_pre :: PreOrder R;
  spk_request cmd : follows R (hs_request cmd);
  spk_exchange b : follows R (key_exchange b);
}.
Class TokenRespected (R : relation (HState S H)) : Prop := {
  resp_put t : follows R (put_token t);
  resp_drop : follows R drop_token;
}.

Section follows.
Context (R : relation (HState S H)) {HP : PreOrder R}.

Lemma follows_pure {T} (m : HM T) : (∀ s, fst (m s) = s) → follows R m.
Proof using HP. intros Hm s. rewrite Hm. reflexivity. Qed.
Lemma follows_ret {T} (a : T) : follows R (mret a).
Proof using HP. by apply follows_pure. Qed.
Lemma follows_throw {T} e : follows R (throw e : HM T).
Proof using HP. by apply follows_pure. Qed.
Lemma follows_lift {T} (r : Result T) : follows R (lift r).
Proof using HP. by apply follows_pure. Qed.
Lemma follows_gets {T} (f : HState S H → T) : follows R (gets f).
Proof using HP. by apply follows_pure. Qed.

Lemma follows_bind {T V} (m : HM T) (f : T → HM V) :
  follows R m → (∀ a, follows R (f a)) → follows R (m ≫= f).
Proof using HP.
  intros Hm Hf s. specialize (Hm s). destruct (m s) as [s1 [a|e]] eqn:E; cbn [fst] in Hm.
  - rewrite (bind_ok _ _ _ _ _ E). transitivity s1; [done|apply Hf].
  - by rewrite (bind_err _ _ _ _ _ E).
Qed.

Lemma follows_map_err {T} f (m : HM T) : follows R m → follows R (map_err_m f m).
Proof using. intros Hm s. specialize (Hm s). unfold map_err_m. by destruct (m s). Qed.

Lemma follows_ignore {T} (m : HM T) : follows R m → follows R (ignore_err m).
Proof using. intros Hm s. apply Hm. Qed.
End follows.

Create HintDb follows.
Hint Resolve follows_ret follows_throw follows_lift follows_gets follows_bind follows_map_err follows_ignore
  resp_pre resp_listened spk_pre resp_send resp_read resp_guard resp_encrypt spk_request spk_exchange : follows.

Section listened.
Context (R : relation (HState S H)) {HL : Listened R}.

Lemma follows_read_header : follows R read_header.
Proof using HL. unfold read_header. auto with follows. Qed.

Lemma follows_read_loop n : follows R (read_loop n).
Proof using HL.
  induction n as [|n IH]; cbn [read_loop]; [auto with follows|].
  apply follows_bind; [apply _|apply follows_read_header|]. intros hdr.
  destruct (is_estimated hdr); [done|]. destruct (_ =? mt_as_u8 OutOfService); [auto with follows|].
  apply follows_bind; [apply _|destruct (payload_len hdr =? 0); auto with follows|]. intros payload.
  destruct (_ =? mt_as_u8 Text).
  { apply follows_bind; [apply _|apply resp_guard; by apply Forall_singleton|]. auto with follows. }
  pose proof (table_calls_tables (u8 (identifier hdr)) payload) as Ht. unfold table_calls in Ht.
  destruct (dispatch_event _ payload) as [calls d].
  apply follows_bind; [apply _|by apply resp_guard|]. auto with follows.
Qed.

End listened.

Section respected.
Context (R : relation (HState S H)) {HR : Respected R}.

Lemma follows_request cmd : follows R (hs_request cmd).
Proof using HR.
  unfold hs_request. apply follows_bind; [apply _|auto with follows|]. intros enc.
  apply follows_bind; [apply _|auto with follows|]. intros _. apply follows_read_loop, _.
Qed.
Hint Resolve follows_request follows_read_loop : follows.

Lemma follows_exchange b : follows R (key_exchange b).
Proof using HR. unfold key_exchange, exchange, read_payload. auto 10 with follows. Qed.

#[global] Instance respected_spoken : Spoken R.
Proof using HR. split; [apply _|apply follows_request|apply follows_exchange]. Qed.
End respected.

Section spoken.
Context (R : relation (HState S H)) {HS : Spoken R}.

Lemma follows_reuse t : follows R (reuse_token t).
Proof using HS.
  unfold reuse_token. apply follows_bind; [apply _|auto with follows|]. intros key.
  apply follows_bind; [apply _|auto with follows|]. intros hash.
  apply follows_bind; [apply _|auto with follows|]. intros auth.
  destruct (classify auth); [|auto with follows..].
  destruct (apply_valid_until t auth) as [t' r]. auto with follows.
Qed.

Lemma follows_acquire o : follows R (acquire_token o).
Proof using HS.
  unfold acquire_token, hs_kill_token.
  apply follows_bind; [apply _|destruct o; auto 10 with follows|]. intros _.
  apply follows_bind; [apply _|auto with follows|]. intros g.
  apply follows_bind; [apply _|auto with follows|]. intros [cmd alg].
  apply follows_bind; [apply _|auto with follows|]. intros resp.
  apply follows_bind; [apply _|auto with follows|]. intros t. destruct (is_empty (token t)); auto with follows.
Qed.

Lemma follows_enable : follows R enable_updates.
Proof using HS.
  unfold enable_updates. apply follows_bind; [apply _|auto with follows|]. intros resp.
  destruct (payload_ll_status resp) as [code|]; [destruct (negb _)|]; auto with follows.
Qed.

Context {HT : TokenRespected R}.

Lemma follows_put_acquired o : follows R (t ← acquire_token o; put_token t).
Proof using HS HT. apply follows_bind; [apply _|apply follows_acquire|]. intros t. apply resp_put. Qed.

Lemma follows_authenticate : follows R authenticate.
Proof using HS HT.
  unfold authenticate. apply follows_bind; [apply _|auto with follows|]. intros existing.
  destruct (negb _); [|apply follows_put_acquired]. destruct (_ <? _); [apply follows_put_acquired|].
  apply follows_bind; [apply _|apply follows_reuse|]. intros [t|]; [apply resp_put|].
  apply follows_bind; [apply _|apply resp_drop|]. intros _. apply follows_put_acquired.
Qed.

Lemma follows_handshake b : follows R (handshake b).
Proof using HS HT.
  unfold handshake. apply follows_bind; [apply _|apply spk_exchange|]. intros _.
  apply follows_bind; [apply _|apply follows_authenticate|]. intros _.
  destruct (receive_updates cfg); [apply follows_enable|auto with follows].
Qed.
End spoken.

(** The token is out of reach of the exchange, and reads are consumed in order. *)
Definition quiet (s s' : HState S H) : Prop :=
  shared (hw s') = shared (hw s) ∧ hreads s' `suffix_of` hreads s.

Lemma quiet_guard {T} cs (b : T) : follows quiet (in_world (guard_m cs b)).
Proof using. intros s. unfold in_world, guard_m. by destruct (guard_or_fail cs b (guarded (hw s))). Qed.

#[local] Instance quiet_respected : Respected quiet.
Proof using.
  unfold quiet. apply respected_of.
  - split.
    + done.
    + intros s1 s2 s3 [H1 Hs1] [H2 Hs2]. split; [congruence|by etrans].
  - intros t s. unfold send_text. by destruct (hwrites s) as [|[m|] ws].
  - intros s. unfold read_frame_bytes. destruct (hreads s) as [|r rs] eqn:E; cbn.
    + by rewrite E.
    + split; [done|by apply suffix_cons_r].
  - intros T cs b _. apply quiet_guard.
  - intros cmd s. unfold encrypt_next. by destruct (encrypt _ keys cmd _).
Qed.

Lemma quiet_run {T} (m : HM T) s s' r : follows quiet m → m s = (s', r) → quiet s s'.
Proof using. intros Hm E. specialize (Hm s). by rewrite E in Hm. Qed.

(** A payload comes from a frame the Miniserver sent, unless it is empty. *)
Definition from_wire (p : bytes) (reads : list HRead) : Prop := p = [] ∨ ∃ op, HFrame op p ∈ reads.

Lemma from_wire_suffix p rs rs' : rs' `suffix_of` rs → from_wire p rs' → from_wire p rs.
Proof using.
  intros [k ->] [->|[op Hin]]; [by left|right]. exists op. apply elem_of_app. by right.
Qed.

Lemma read_frame_from_wire s s' p : read_frame_bytes s = (s', Ok p) → from_wire p (hreads s).
Proof using.
  unfold read_frame_bytes. destruct (hreads s) as [|[op q|m|] rs]; try done. case_bool_decide; [done|].
  intros [= <- <-]. right. exists op. apply list_elem_of_here.
Qed.

Lemma read_loop_from_wire n s s' p : read_loop n s = (s', Ok p) → from_wire p (hreads s).
Proof using keys draws A B X.
  revert s. induction n as [|n IH]; intros s; cbn [read_loop]; [done|].
  destruct (read_header s) as [s1 [hdr|e]] eqn:Eh; [|by rewrite (bind_err _ _ _ _ _ Eh)].
  rewrite (bind_ok _ _ _ _ _ Eh). apply (quiet_run _ _ _ _ (follows_read_header quiet)) in Eh as [_ Hs1].
  destruct (is_estimated hdr); [intros E%IH; by eapply from_wire_suffix|].
  destruct (_ =? mt_as_u8 OutOfService); [done|].
  set (rd := if payload_len hdr =? 0 then _ else _).
  destruct (rd s1) as [s2 [payload|e]] eqn:Ep; [|by rewrite (bind_err _ _ _ _ _ Ep)].
  rewrite (bind_ok _ _ _ _ _ Ep).
  assert (from_wire payload (hreads s1) ∧ hreads s2 `suffix_of` hreads s1) as [Hp Hs2].
  { revert Ep. unfold rd. destruct (payload_len hdr =? 0); [intros [= <- <-]; by split; [left|]|].
    intros E. split; [by eapply read_frame_from_wire|]. by apply (quiet_run _ _ _ _ (resp_read (R:=quiet))) in E as [_ ?]. }
  destruct (_ =? mt_as_u8 Text).
  - match goal with |- context [in_world ?m] => destruct (in_world m s2) as [s3 [[]|e]] eqn:Eg end; [|by rewrite (bind_err _ _ _ _ _ Eg)].
    rewrite (bind_ok _ _ _ _ _ Eg). intros [= <- <-]. by eapply from_wire_suffix.
  - destruct (dispatch_event _ payload) as [calls d].
    match goal with |- context [in_world ?m] => destruct (in_world m s2) as [s3 [b|e]] eqn:Eg end; [|by rewrite (bind_err _ _ _ _ _ Eg)].
    rewrite (bind_ok _ _ _ _ _ Eg). apply (quiet_run _ _ _ _ (quiet_guard _ _)) in Eg as [_ Hs3].
    intros E%IH. do 3 (eapply from_wire_suffix; [done|]). done.
Qed.

Lemma read_payload_from_wire s s' p : read_payload s = (s', Ok p) → from_wire p (hreads s).
Proof using keys draws A B X. apply read_loop_from_wire. Qed.

Lemma request_from_wire cmd s s' p : hs_request cmd s = (s', Ok p) → from_wire p (hreads s).
Proof using.
  unfold hs_request. destruct (encrypt_next cmd s) as [s1 [enc|e]] eqn:E1; [|by rewrite (bind_err _ _ _ _ _ E1)].
  rewrite (bind_ok _ _ _ _ _ E1). apply (quiet_run _ _ _ _ (resp_encrypt (R:=quiet) _)) in E1 as [_ H1].
  destruct (send_text enc s1) as [s2 [[]|e]] eqn:E2; [|by rewrite (bind_err _ _ _ _ _ E2)].
  rewrite (bind_ok _ _ _ _ _ E2). apply (quiet_run _ _ _ _ (resp_send (R:=quiet) _)) in E2 as [_ H2].
  intros E%read_payload_from_wire. do 2 (eapply from_wire_suffix; [done|]). done.
Qed.

(** ** The fate of the token *)

Lemma apply_valid_until_nonempty t payload :
  token_is_empty t = false → token_is_empty (fst (apply_valid_until t payload)) = false.
Proof using.
  intros Ht. unfold apply_valid_until. destruct (root ← parse_json payload; _) as [[value until]|e]; [|done].
  destruct (get_str value (bs "token")) as [new|]; [|done]. by destruct new.
Qed.

(** The Miniserver refused the token: it answered with a status that says so. *)
Definition refusal (auth : bytes) : Prop :=
  ∃ code, payload_ll_status auth = Some code ∧ code ≠ bs "200" ∧ ll_status_invalidates_token code = true.

Lemma reuse_token_spec t s s' r :
  token_is_empty t = false → reuse_token t s = (s', r) →
  quiet s s'
  ∧ match r with
    | Ok (Some t') => token_is_empty t' = false
    | Ok None => ∃ auth, from_wire auth (hreads s) ∧ refusal auth
    | Err _ => True
    end.
Proof using.
  intros Ht E. split; [exact (quiet_run _ _ _ _ (follows_reuse quiet t) E)|]. revert E. unfold reuse_token.
  assert (∀ f cmd s0 s1 p, map_err_m f (hs_request cmd) s0 = (s1, Ok p) →
    from_wire p (hreads s0) ∧ hreads s1 `suffix_of` hreads s0) as Hreq.
  { intros f cmd s0 s1 p. unfold map_err_m. destruct (hs_request cmd s0) as [s2 [q|e]] eqn:Eq; [|done].
    intros [= <- <-]. split; [by eapply request_from_wire|].
    by apply (quiet_run _ _ _ _ (follows_request quiet cmd)) in Eq as [_ ?]. }
  intros E. bind_step E s1 key E1; [|by injection E as _ <-]. apply Hreq in E1 as [_ Hs1].
  bind_step E s1' hash Eh; [|by injection E as _ <-].
  assert (s1' = s1) as -> by (by injection Eh).
  bind_step E s2 auth E2; [|by injection E as _ <-]. apply Hreq in E2 as [Hauth _]. revert E. unfold classify.
  destruct (payload_ll_status auth) as [code|] eqn:Ec; [|by intros [= _ <-]].
  destruct (codeb code (bs "200")) eqn:E200.
  - pose proof (apply_valid_until_nonempty t auth Ht) as Hne. destruct (apply_valid_until t auth) as [t' [[]|e]].
    + by intros [= _ <-].
    + by intros [= _ <-].
  - destruct (ll_status_invalidates_token code) eqn:Ei; [|by intros [= _ <-]]. intros [= _ <-].
    exists auth. split; [by eapply from_wire_suffix|]. exists code. split; [done|]. split; [|done].
    intros ->. by rewrite (proj2 (codeb_true _ _)) in E200.
Qed.

Lemma acquire_token_spec o s s' r :
  acquire_token o s = (s', r) →
  quiet s s' ∧ match r with Ok t => token_is_empty t = false | Err _ => True end.
Proof using.
  intros E. split; [exact (quiet_run _ _ _ _ (follows_acquire quiet o) E)|]. revert E. unfold acquire_token.
  intros E. bind_step E s1 u E1; [|by injection E as _ <-].
  bind_step E s2 g E2; [|by injection E as _ <-].
  bind_step E s3 c E3; [|by injection E as _ <-]. destruct c as [cmd alg].
  bind_step E s4 rsp E4; [|by injection E as _ <-].
  bind_step E s5 t E5; [|by injection E as _ <-].
  unfold token_is_empty. destruct (is_empty (token t)) eqn:El; by injection E as _ <-.
Qed.


Lemma authenticate_cases s s' r :
  authenticate s = (s', r) →
  let old := shared (hw s) in
  match r with
  | Ok _ => ∃ t, token_is_empty t = false
              ∧ (shared (hw s') = set_token t old
                 ∨ shared (hw s') = set_token t (clear_shared_token old))
  | Err _ => shared (hw s') = old
             ∨ shared (hw s') = clear_shared_token old
               ∧ ∃ auth, from_wire auth (hreads s) ∧ refusal auth
  end.
Proof using.
  intros E old. unfold authenticate in E. bind_step E s0 existing E0; [|done].
  injection E0 as <- <-.
  assert (∀ o s1 s2 r2, quiet s s1 → (t ← acquire_token o; put_token t) s1 = (s2, r2) →
    match r2 with
    | Ok _ => ∃ t, token_is_empty t = false ∧ shared (hw s2) = set_token t old
    | Err _ => shared (hw s2) = old end) as Hacq.
  { intros o s1 s2 r2 [Hsh _] Ea. bind_step Ea s3 t Et;
      apply acquire_token_spec in Et as [[Ht _] Hne]; injection Ea as <- <-; cbn.
    - exists t. split; [done|]. by rewrite Ht, Hsh.
    - by rewrite Ht, Hsh. }
  assert (quiet s s) as Hq by reflexivity.
  destruct (token_is_empty (shared_token (shared (hw s)))) eqn:He; cbn [negb] in E.
  { apply Hacq in E; [|done]. destruct r; [|by left]. destruct E as (t & ? & ?). eauto. }
  destruct (remaining now _ <? _).
  { apply Hacq in E; [|done]. destruct r; [|by left]. destruct E as (t & ? & ?). eauto. }
  bind_step E s1 reused Er; apply reuse_token_spec in Er as [[Hsh Hsuf] Hr]; try done.
  2:{ injection E as <- <-. by left. }
  destruct reused as [t|].
  { injection E as <- <-. exists t. split; [done|]. left. cbn. by rewrite Hsh. }
  bind_step E s2 u Eu; [|done]. injection Eu as <- _.
  destruct ((t ← acquire_token None; put_token t) (upd_hw (upd_shared clear_shared_token) s1)) as [s3 r3] eqn:Ea.
  injection E as <- <-. bind_step Ea s4 t Et; apply acquire_token_spec in Et as [[Ht _] Hne]; injection Ea as <- <-.
  - exists t. split; [done|]. right. cbn. by rewrite Ht; cbn; rewrite Hsh.
  - right. cbn. rewrite Ht. cbn. by rewrite Hsh.
Qed.


(** ** Tables that overtake an answer *)

(** Frames the handshake passes over while it waits, with the messages in them:
    estimated headers, and messages that are neither an answer nor out of service. *)
Inductive skips : list HRead → list (Z * bytes) → nat → Prop :=
| skip_nil : skips [] [] 0
| skip_estimated op p h fs ms n :
    op ≠ OpClose → parse_header p = Ok (Some h) → is_estimated h = true →
    skips fs ms n → skips (HFrame op p :: fs) ms (Datatypes.S n)
| skip_empty op p h fs ms n :
    op ≠ OpClose → parse_header p = Ok (Some h) → is_estimated h = false →
    u8 (identifier h) ≠ mt_as_u8 OutOfService → u8 (identifier h) ≠ mt_as_u8 Text → payload_len h = 0 →
    skips fs ms n → skips (HFrame op p :: fs) ((u8 (identifier h), []) :: ms) (Datatypes.S n)
| skip_message op p h op' body fs ms n :
    op ≠ OpClose → parse_header p = Ok (Some h) → is_estimated h = false →
    u8 (identifier h) ≠ mt_as_u8 OutOfService → u8 (identifier h) ≠ mt_as_u8 Text → payload_len h ≠ 0 →
    op' ≠ OpClose →
    skips fs ms n →
    skips (HFrame op p :: HFrame op' body :: fs) ((u8 (identifier h), body) :: ms) (Datatypes.S n).

(** The frames of an answer. *)
Inductive answer_frames : list HRead → bytes → Prop :=
| answer_empty op p h :
    op ≠ OpClose → parse_header p = Ok (Some h) → is_estimated h = false →
    u8 (identifier h) = mt_as_u8 Text → payload_len h = 0 → answer_frames [HFrame op p] []
| answer_payload op p h op' body :
    op ≠ OpClose → parse_header p = Ok (Some h) → is_estimated h = false →
    u8 (identifier h) = mt_as_u8 Text → payload_len h ≠ 0 → op' ≠ OpClose →
    answer_frames [HFrame op p; HFrame op' body] body.

Definition set_reads (rs : list HRead) (s : HState S H) : HState S H :=
  {| hw := hw s; hreads := rs; hwrites := hwrites s; htick := htick s |}.

Lemma read_frame_next op p rs s :
  hreads s = HFrame op p :: rs → op ≠ OpClose → read_frame_bytes s = (set_reads rs s, Ok p).
Proof using. intros Hr Ho. unfold read_frame_bytes. rewrite Hr. by rewrite bool_decide_false. Qed.

Lemma read_header_next op p h rs s :
  hreads s = HFrame op p :: rs → op ≠ OpClose → parse_header p = Ok (Some h) →
  read_header s = (set_reads rs s, Ok h).
Proof using.
  intros Hr Ho Hp. unfold read_header. rewrite (bind_ok _ _ _ _ _ (read_frame_next _ _ _ _ Hr Ho)).
  unfold lift, mbind, M_bind. by rewrite Hp.
Qed.

Context (I : H → Prop) {HS : Steady I}.

(** With a steady handler, a guarded closure makes all its callbacks. *)
Lemma guard_returns {T} cs (b : T) s :
  calm I (guarded (hw s)) →
  ∃ g, calm I g ∧ history g = history (guarded (hw s)) ++ cs
    ∧ in_world (guard_m cs b) s = (upd_hw (set_guarded g) s, Ok b).
Proof using HS.
  intros [Hp Hh]. unfold in_world, guard_m, guard_or_fail, guard. rewrite Hp.
  destruct (steady_calls I cs (handler (guarded (hw s))) Hh) as (h' & -> & Hh').
  eexists. split; [|split; [|reflexivity]]; done.
Qed.

Lemma skip_one ty payload s (calls := fst (dispatch_event ty payload)) :
  calm I (guarded (hw s)) → ∀ k,
  ∃ g, calm I g ∧ history g = history (guarded (hw s)) ++ table_calls ty payload
    ∧ (let '(calls, dispatched) := dispatch_event ty payload in
       _ ← in_world (guard_m (on_raw_payload ty payload :: calls) dispatched); read_loop k) s
      = read_loop k (upd_hw (set_guarded g) s).
Proof using HS.
  intros Hp k. unfold table_calls. destruct (dispatch_event ty payload) as [cs d] eqn:Ed. cbn [fst].
  destruct (guard_returns (on_raw_payload ty payload :: cs) d s Hp) as (g & Hg & Hh & E).
  exists g. split; [done|]. split; [done|]. by rewrite (bind_ok _ _ _ _ _ E).
Qed.

Lemma read_loop_skips fs ms n :
  skips fs ms n → ∀ k rest s, hreads s = fs ++ rest → calm I (guarded (hw s)) →
  ∃ g, calm I g
    ∧ history g = history (guarded (hw s)) ++ concat (map (λ '(ty, p), table_calls ty p) ms)
    ∧ read_loop (n + k) s = read_loop k (set_reads rest (upd_hw (set_guarded g) s)).
Proof using HS.
  induction 1 as [|op p h fs ms n Ho Hp He _ IH|op p h fs ms n Ho Hp He Hid Htx Hl _ IH
                 |op p h op' body fs ms n Ho Hp He Hid Htx Hl Ho' _ IH]; intros k rest s Hr Hpan.
  - exists (guarded (hw s)). split; [done|]. split; [by rewrite app_nil_r|]. cbn [app] in Hr. subst rest.
    by destruct s as [[] ? ? ?].
  - cbn [app] in Hr. cbn [plus read_loop]. rewrite (bind_ok _ _ _ _ _ (read_header_next _ _ _ _ _ Hr Ho Hp)). rewrite He.
    apply (IH k rest (set_reads (fs ++ rest) s) eq_refl Hpan).
  - cbn [app] in Hr. cbn [plus read_loop]. rewrite (bind_ok _ _ _ _ _ (read_header_next _ _ _ _ _ Hr Ho Hp)).
    rewrite He, (proj2 (Z.eqb_neq _ _)), Hl by done. cbn [Z.eqb].
    unfold mbind at 1, M_bind at 1. cbn [mret M_ret]. rewrite (proj2 (Z.eqb_neq _ _)) by done.
    destruct (skip_one (u8 (identifier h)) [] (set_reads (fs ++ rest) s) Hpan (n + k)) as (g1 & Hg1 & Hh1 & ->).
    destruct (IH k rest (upd_hw (set_guarded g1) (set_reads (fs ++ rest) s)) eq_refl Hg1) as (g & Hg & Hh & ->).
    exists g. split; [done|]. split; [|done]. rewrite Hh. cbn [hw upd_hw guarded set_guarded map concat].
    rewrite Hh1. by rewrite <- app_assoc.
  - cbn [app] in Hr. cbn [plus read_loop]. rewrite (bind_ok _ _ _ _ _ (read_header_next _ _ _ _ _ Hr Ho Hp)).
    rewrite He, (proj2 (Z.eqb_neq _ _)), (proj2 (Z.eqb_neq (payload_len h) _)) by done.
    rewrite (bind_ok _ _ _ _ _ (read_frame_next op' body (fs ++ rest) (set_reads (HFrame op' body :: fs ++ rest) s) eq_refl Ho')).
    change (set_reads (fs ++ rest) (set_reads _ s)) with (set_reads (fs ++ rest) s).
    rewrite (proj2 (Z.eqb_neq _ _)) by done.
    destruct (skip_one (u8 (identifier h)) body (set_reads (fs ++ rest) s) Hpan (n + k)) as (g1 & Hg1 & Hh1 & ->).
    destruct (IH k rest (upd_hw (set_guarded g1) (set_reads (fs ++ rest) s)) eq_refl Hg1) as (g & Hg & Hh & ->).
    exists g. split; [done|]. split; [|done]. rewrite Hh. cbn [hw upd_hw guarded set_guarded map concat].
    rewrite Hh1. by rewrite <- app_assoc.
Qed.

(** The answer ends the loop. *)
Lemma read_loop_answer fs p k rest s :
  answer_frames fs p → hreads s = fs ++ rest → calm I (guarded (hw s)) →
  ∃ g, calm I g ∧ history g = history (guarded (hw s)) ++ [on_raw_payload (mt_as_u8 Text) p]
    ∧ read_loop (Datatypes.S k) s = (upd_hw (set_guarded g) (set_reads rest s), Ok p).
Proof using HS.
  intros Ha Hr Hp. cbn [read_loop].
  destruct Ha as [op hd h Ho Hh He Hid Hl|op hd h op' body Ho Hh He Hid Hl Ho'];
    cbn [app] in Hr; rewrite (bind_ok _ _ _ _ _ (read_header_next _ _ _ _ _ Hr Ho Hh)), He, Hid; cbn [mt_as_u8 Z.eqb].
  - rewrite Hl. cbn [Z.eqb]. unfold mbind at 1, M_bind at 1. cbn [mret M_ret].
    destruct (guard_returns [on_raw_payload 0 []] tt (set_reads rest s) Hp) as (g & Hgp & Hg & E).
    exists g. split; [done|]. split; [done|]. by rewrite (bind_ok _ _ _ _ _ E).
  - rewrite (proj2 (Z.eqb_neq (payload_len h) _)) by done.
    rewrite (bind_ok _ _ _ _ _ (read_frame_next op' body rest (set_reads (HFrame op' body :: rest) s) eq_refl Ho')).
    change (set_reads rest (set_reads _ s)) with (set_reads rest s).
    destruct (guard_returns [on_raw_payload 0 body] tt (set_reads rest s) Hp) as (g & Hgp & Hg & E).
    exists g. split; [done|]. split; [done|]. by rewrite (bind_ok _ _ _ _ _ E).
Qed.

(** An answer that fewer than 64 other headers overtake is returned; the world is as
    it was, but for the handler. *)
Lemma read_payload_answer fs ms n as_ p rest s :
  calm I (guarded (hw s)) → skips fs ms n → (n < MAX_INTERLEAVED_FRAMES)%nat →
  answer_frames as_ p → hreads s = fs ++ as_ ++ rest →
  ∃ g, calm I g
    ∧ history g = history (guarded (hw s))
        ++ concat (map (λ '(ty, p), table_calls ty p) ms) ++ [on_raw_payload (mt_as_u8 Text) p]
    ∧ read_payload s = (set_reads rest (upd_hw (set_guarded g) s), Ok p).
Proof using HS.
  intros Hp Hs Hn Ha Hr. unfold read_payload.
  destruct (read_loop_skips _ _ _ Hs (MAX_INTERLEAVED_FRAMES - n) _ s Hr Hp) as (g & Hg & Hh & E).
  replace (n + (MAX_INTERLEAVED_FRAMES - n))%nat with MAX_INTERLEAVED_FRAMES in E by lia. rewrite E.
  destruct (MAX_INTERLEAVED_FRAMES - n)%nat as [|k] eqn:Ek; [lia|].
  edestruct (read_loop_answer as_ p k rest) as (g' & Hg' & Hh' & ->); [exact Ha|reflexivity|exact Hg|].
  exists g'. split; [done|]. split; [|reflexivity].
  rewrite Hh'. cbn [hw upd_hw guarded set_guarded set_reads]. by rewrite Hh, <- app_assoc.
Qed.

(** [C18] No table is lost while the handshake waits. If fewer than 64 headers of
    other messages come before the answer, [read_payload] returns the answer,
    has consumed exactly these frames, and has handed every message that came
    before it to the handler, in order and record by record. With 64 or more the
    wait ends with a protocol error, and the handler has still seen them all. *)
Theorem handshake_forwards_tables fs ms n as_ p rest s :
  calm I (guarded (hw s)) →
  skips fs ms n → hreads s = fs ++ as_ ++ rest →
  ((n < MAX_INTERLEAVED_FRAMES)%nat → answer_frames as_ p →
   ∃ s', read_payload s = (s', Ok p) ∧ hreads s' = rest
     ∧ history (guarded (hw s')) = history (guarded (hw s))
         ++ concat (map (λ '(ty, p), table_calls ty p) ms) ++ [on_raw_payload (mt_as_u8 Text) p])
  ∧ (n = MAX_INTERLEAVED_FRAMES →
     ∃ s' m, read_payload s = (s', Err (Protocol m))
       ∧ history (guarded (hw s')) = history (guarded (hw s))
           ++ concat (map (λ '(ty, p), table_calls ty p) ms)).
Proof using HS.
  intros Hp Hs Hr. split.
  - intros Hn Ha. destruct (read_payload_answer _ _ _ _ _ _ s Hp Hs Hn Ha Hr) as (g & _ & Hh & ->). by eexists.
  - intros ->. destruct (read_loop_skips _ _ _ Hs 0 _ s Hr Hp) as (g & Hg & Hh & E).
    rewrite Nat.add_0_r in E. unfold read_payload. rewrite E. eexists _, _. split; [reflexivity|]. exact Hh.
Qed.
End handshake.

(** ** The salt after the handshake *)

Section sync.
Context {S H : Type} {TS : TokenStore S} {LH : LoxHandler H}.
Context {zc : ZeroCopy} {J : Json} {D : Digests} {X : Hex} {A : AesCbc} {B : Base64}.
Context {AL : AesCbcLaws} {BL : Base64Laws} {XL : HexLaws}.
Context (keys : SessionKeys) (cfg : ConnectConfig S) (draws : nat → Draw) (now : Z).
Context (Hkeys : wf_keys keys) (Hdraws : ∀ n, zlen (rng_salt (draws n)) = SALT_BYTES).

Definition sync_kept (s s' : HState S H) : Prop :=
  (∃ sv, in_sync (w_salt (hw s)) sv) → ∃ sv, in_sync (w_salt (hw s')) sv.

Lemma encrypt_in_sync d cmd st sv :
  zlen (rng_salt d) = SALT_BYTES → in_sync st sv → ∃ v, in_sync (fst (encrypt d keys cmd st)) (Some v).
Proof using AL BL XL Hkeys.
  intros Hd Hs. destruct (fill_in_sync d cmd st sv Hd Hs) as (m & v & _ & _ & _ & Hv).
  destruct (encrypt_spec d keys cmd st Hkeys) as (c & _ & _ & ->). by exists v.
Qed.

#[local] Instance sync_respected : Respected keys draws sync_kept.
Proof using AL BL XL Hkeys Hdraws.
  unfold sync_kept. apply respected_of.
  - split; [by intros ?|]. intros s1 s2 s3 H1 H2 ?. auto.
  - intros t s. unfold send_text. by destruct (hwrites s) as [|[m|] ws].
  - intros s. unfold read_frame_bytes. by destruct (hreads s) as [|r rs].
  - intros T cs b _ s. unfold in_world, guard_m. by destruct (guard_or_fail cs b (guarded (hw s))).
  - intros cmd s [sv Hsv]. unfold encrypt_next.
    destruct (encrypt_in_sync (draws (htick s)) cmd _ sv (Hdraws _) Hsv) as [v Hv].
    destruct (encrypt (draws (htick s)) keys cmd (w_salt (hw s))) as [st r]. by exists (Some v).
Qed.

(** Setting and dropping the token leave the salt alone. *)
#[local] Instance sync_token : TokenRespected sync_kept.
Proof using. constructor; [intros t|]; intros s Hs; exact Hs. Qed.

(** Client and Miniserver agree on the salt when the session starts: its commands
    continue where the handshake stopped. *)
Lemma handshake_in_sync b64 s s' r :
  in_sync (w_salt (hw s)) None → handshake keys cfg draws now b64 s = (s', r) →
  ∃ sv, in_sync (w_salt (hw s')) sv.
Proof using AL BL XL Hkeys Hdraws.
  intros Hs E. pose proof (follows_handshake keys cfg draws now sync_kept b64 s ltac:(by eexists)) as Hf.
  by rewrite E in Hf.
Qed.
End sync.

(** ** Samples *)

#[local] Existing Instances zerocopy_model json_model digests_model hex_model aes_model base64_model
  percent_model no_store reader_utf8.
#[local] Existing Instance idle_handler.

Definition frames_of (p : bytes) : list HRead :=
  [HFrame OpBinary (sample_header Byte.x00 Byte.x00 (zlen p)); HFrame OpText p].

(** The handler that does nothing is steady in every state. *)
#[export] Instance idle_steady : Steady (LH := idle_handler) (λ _, True).
Proof. intros c h _. by exists h. Qed.

(** A stored token, a [getkey] answer, a refusal, and then silence. *)
Definition refused_answer : bytes := json_text (bs "{'LL':{'code':'401'}}").
(** A table of values overtakes the answer. *)
Definition overtaken_state : HState unit unit :=
  {| hw := sample_world;
     hreads := [HFrame OpBinary (sample_header Byte.x02 Byte.x01 24);
                HFrame OpBinary (sample_header Byte.x02 Byte.x00 24); HFrame OpBinary (replicate 24 Byte.x07)]
               ++ frames_of refused_answer ++ [HSilent];
     hwrites := []; htick := 0 |}.

Lemma handshake_forwards_tables_witness :
  ∃ s', read_payload (LH := idle_handler) overtaken_state = (s', Ok refused_answer)
    ∧ hreads s' = [HSilent]
    ∧ history (guarded (hw s')) = history (guarded (hw overtaken_state))
        ++ concat (map (λ '(ty, p), table_calls ty p) [(2, replicate 24 Byte.x07)])
        ++ [on_raw_payload (mt_as_u8 Text) refused_answer].
Proof.
  assert (skips [HFrame OpBinary (sample_header Byte.x02 Byte.x01 24);
                HFrame OpBinary (sample_header Byte.x02 Byte.x00 24); HFrame OpBinary (replicate 24 Byte.x07)]
            [(2, replicate 24 Byte.x07)] 2) as Hs.
  { eapply skip_estimated; [done|vm_compute; reflexivity|reflexivity|].
    eapply (skip_message _ _ (hdr_of_bytes (sample_header Byte.x02 Byte.x00 24)));
      [done|vm_compute; reflexivity|reflexivity|done|done|done|done|constructor]. }
  assert (answer_frames (frames_of refused_answer) refused_answer) as Ha.
  { eapply (answer_payload _ _ (hdr_of_bytes (sample_header Byte.x00 Byte.x00 (zlen refused_answer))));
      [done|vm_compute; reflexivity|reflexivity|reflexivity|done|done]. }
  apply (@handshake_forwards_tables unit unit idle_handler zerocopy_model (λ _, True) idle_steady _ _ 2
           (frames_of refused_answer) refused_answer [HSilent] overtaken_state (conj eq_refl I) Hs eq_refl);
    [unfold MAX_INTERLEAVED_FRAMES; lia|exact Ha].
Defined.
