(* ===== verification/Refresh.v ===== *)
(** * client/refresh.rs: the token refresher

    The refresher sleeps, asks the writer for a key and for a refresh, and writes
    the extended token back. It shares the token with the other tasks of the
    client, so what they do to the shared state while it sleeps, waits for an
    answer or has just read the token is an input at each of these points. *)

From S2P Require Import Prelude RustStr External Models Errors Session Crypto Auth Store State Scan.
From S2P Require Import Pending Uuid Header EventTables Handler World Reader.

Definition MAX_REFRESH_ATTEMPTS : Z := 3.

Section refresh.
Context {S : Type} {TS : TokenStore S} {J : Json} {D : Digests} {X : Hex}.
Implicit Types s : SharedState S.

(** The shared state and the commands handed to the channel. *)
Record RState := { r_shared : SharedState S; r_cmds : list IoCommand }.

(** One command through the writer: whether the channel takes it, its waiter, what
    the other tasks do meanwhile, and the answer; [None] is a dropped waiter. *)
Record SendEnv := {
  accepted : bool;
  send_tx : Sender;
  others : SharedState S → SharedState S;
  answered : option (Result bytes);
}.

Definition send (e : SendEnv) (cmd : bytes) : M RState bytes := λ st,
  let sh := others e (r_shared st) in
  if accepted e then
    ({| r_shared := sh; r_cmds := r_cmds st ++ [Encrypted cmd (send_tx e)] |},
     default (Err ChannelClosed) (answered e))
  else ({| r_shared := sh; r_cmds := r_cmds st |}, Err ChannelClosed).

(** [before_set] is what happens between the second look at the token and the
    write; the lock is not held in between. *)
Record Attempt := {
  getkey_send : SendEnv;
  refresh_send : SendEnv;
  before_set : SharedState S → SharedState S;
}.

Definition upd_r (f : SharedState S → SharedState S) (st : RState) : RState :=
  {| r_shared := f (r_shared st); r_cmds := r_cmds st |}.

(** [Ok false]: there was no token to refresh, or it has been replaced. *)
Definition refresh_once (a : Attempt) (username : bytes) : M RState bool :=
  t ← gets (λ st, shared_token (r_shared st));
  if token_is_empty t then mret false
  else
    key_resp ← send (getkey_send a) CMD_GET_KEY;
    hash ← lift (build_token_hash key_resp t);
    resp ← send (refresh_send a) (cmd_refresh_token hash username);
    current ← gets (λ st, shared_token (r_shared st));
    if token_is_empty current || negb (bool_decide (token current = token t)) then mret false
    else
      let '(current, r) := apply_valid_until current resp in
      _ ← lift r;
      _ ← modify (upd_r (before_set a));
      _ ← modify (upd_r (set_token current));
      mret true.

(** The token is looked at twice, under one lock each: [first] and [second] are the
    shared states then. [None] is an overflow panic. *)
Definition next_refresh_delay (checks : bool) (now : Z) (first second : SharedState S) : option Z :=
  secs ← match token_valid_until first with
         | None => Some TOKEN_REFRESH_DEFAULT_SECONDS
         | Some _ =>
             left ← seconds_to_expire checks now (shared_token second);
             d ← add_i64 checks left (- TOKEN_REFRESH_SECONDS_BEFORE_EXPIRY);
             Some (Z.max d TOKEN_REFRESH_MIN_DELAY_SECS)
         end;
  Some (from_secs (Z.max secs 0)).

(** One turn of the loop: the clock, what happens between the two looks at the
    token and during the sleep, and the attempt. *)
Record Round := {
  round_now : Z;
  between : SharedState S → SharedState S;
  asleep : SharedState S → SharedState S;
  attempt : Attempt;
}.

Inductive Refresher := Going (failures : Z) | GaveUp | Overflowed.

Definition round_delay (checks : bool) (r : Round) (failures : Z) s : option Z :=
  if failures =? 0 then next_refresh_delay checks (round_now r) s (between r s)
  else Some (from_secs TOKEN_REFRESH_MIN_DELAY_SECS).

(** The loop over the turns given, with the delay and the result of each. *)
Fixpoint run_refresher (checks : bool) (username : bytes) (rounds : list Round) (failures : Z) (st : RState) :
    RState * list (Z * Result bool) * Refresher :=
  match rounds with
  | [] => (st, [], Going failures)
  | r :: rounds =>
      match round_delay checks r failures (r_shared st) with
      | None => (st, [], Overflowed)
      | Some delay =>
          let '(st, res) := refresh_once (attempt r) username (upd_r (λ s, asleep r (between r s)) st) in
          match res with
          | Ok _ =>
              let '(st, tr, o) := run_refresher checks username rounds 0 st in
              (st, (delay, res) :: tr, o)
          | Err _ =>
              let failures := failures + 1 in
              if MAX_REFRESH_ATTEMPTS <=? failures then
                ({| r_shared := r_shared st; r_cmds := r_cmds st ++ [DropSession] |},
                 [(delay, res)], GaveUp)
              else
                let '(st, tr, o) := run_refresher checks username rounds failures st in
                (st, (delay, res) :: tr, o)
          end
      end
  end.

(** ** How long it waits *)

Lemma next_refresh_delay_exact checks now first second d :
  next_refresh_delay checks now first second = Some d →
  from_secs TOKEN_REFRESH_MIN_DELAY_SECS <= d
  ∧ (token_valid_until first = None → d = from_secs TOKEN_REFRESH_DEFAULT_SECONDS).
Proof using.
  unfold next_refresh_delay. destruct (token_valid_until first) as [v|]; cbn [mbind option_bind].
  - destruct (seconds_to_expire checks now (shared_token second)) as [left|]; cbn; [|done].
    destruct (add_i64 checks left _) as [e|]; cbn; [|done]. intros [= <-]. split; [|done].
    unfold from_secs, TOKEN_REFRESH_MIN_DELAY_SECS. lia.
  - intros [= <-]. split; [|done]. vm_compute. congruence.
Qed.

Lemma round_delay_bound checks r failures s d :
  round_delay checks r failures s = Some d → from_secs TOKEN_REFRESH_MIN_DELAY_SECS <= d.
Proof using.
  unfold round_delay. destruct (failures =? 0); [|intros [= <-]; lia].
  intros E. by apply next_refresh_delay_exact in E as [? _].
Qed.

(** ** What a turn does to the token *)

(** The shared state the refresher finds when it looks at the token again. *)
Definition found (a : Attempt) s : SharedState S := others (refresh_send a) (others (getkey_send a) s).

(** Nobody but the refresher's own successful turn writes: otherwise the state is
    what the other tasks have made of it. *)
Definition only_others (a : Attempt) s s' : Prop :=
  s' = s ∨ s' = others (getkey_send a) s ∨ s' = found a s.

(** Commands of the refresher other than the last one. *)
Definition asks (st st' : RState) : Prop :=
  ∃ cmds, r_cmds st' = r_cmds st ++ cmds ∧ DropSession ∉ cmds.

#[local] Instance asks_preorder : PreOrder asks.
Proof using.
  split.
  - intros st. exists []. rewrite app_nil_r. split; [done|apply not_elem_of_nil].
  - intros s1 s2 s3 (c1 & E1 & H1) (c2 & E2 & H2). exists (c1 ++ c2).
    rewrite E2, E1, <- app_assoc. split; [done|]. by rewrite not_elem_of_app.
Qed.

Lemma send_spec e cmd st st' r :
  send e cmd st = (st', r) → r_shared st' = others e (r_shared st) ∧ asks st st'.
Proof using.
  unfold send. destruct (accepted e); intros [= <- _]; (split; [done|]).
  - exists [Encrypted cmd (send_tx e)]. split; [done|]. by intros ?%list_elem_of_singleton.
  - exists []. rewrite app_nil_r. split; [done|apply not_elem_of_nil].
Qed.

Lemma refresh_once_cases a u st st' r :
  refresh_once a u st = (st', r) →
  asks st st'
  ∧ match r with
    | Ok true =>
        token (shared_token (found a (r_shared st))) = token (shared_token (r_shared st))
        ∧ token (shared_token (r_shared st)) ≠ []
        ∧ ∃ payload t, apply_valid_until (shared_token (found a (r_shared st))) payload = (t, Ok tt)
            ∧ r_shared st' = set_token t (before_set a (found a (r_shared st)))
    | _ => only_others a (r_shared st) (r_shared st')
    end.
Proof using.
  intros E. unfold refresh_once in E. bind_step E s0 t E0; [|done]. injection E0 as <- <-.
  destruct (token_is_empty (shared_token (r_shared st))) eqn:Ht.
  { injection E as <- <-. split; [done|by left]. }
  bind_step E s1 key E1; apply send_spec in E1 as [Hs1 Hc1].
  2:{ injection E as <- <-. split; [done|by right; left]. }
  bind_step E s1' hash Eh; injection Eh as <- Eh.
  2:{ injection E as <- <-. split; [done|by right; left]. }
  bind_step E s2 rsp E2; apply send_spec in E2 as [Hs2 Hc2]; rewrite Hs1 in Hs2;
    fold (found a (r_shared st)) in Hs2; assert (asks st s2) as Hc by (by etransitivity).
  2:{ injection E as <- <-. split; [done|by right; right]. }
  bind_step E s3 held E3; [|done]. injection E3 as <- <-. rewrite Hs2 in E.
  destruct (token_is_empty (shared_token (found a (r_shared st)))) eqn:Hcur; cbn [orb] in E.
  { injection E as <- <-. split; [done|by right; right]. }
  case_bool_decide as Heq; cbn [negb] in E.
  2:{ injection E as <- <-. split; [done|by right; right]. }
  destruct (apply_valid_until (shared_token (found a (r_shared st))) rsp) as [t' [[]|e]] eqn:Ea;
    injection E as <- <-.
  - split; [done|]. split; [done|]. split.
    { intros Hn. unfold token_is_empty in Ht. by rewrite Hn in Ht. }
    exists rsp, t'. split; [done|]. cbn. by rewrite Hs2.
  - split; [done|by right; right].
Qed.


(** ** When it gives up *)

(** The number of failures at the end of a list of results, newest first. *)
Fixpoint streak (newest_first : list (Result bool)) : Z :=
  match newest_first with Err _ :: rs => 1 + streak rs | _ => 0 end.
Definition trailing (rs : list (Result bool)) : Z := streak (reverse rs).

Lemma trailing_snoc rs r : trailing (rs ++ [r]) = match r with Ok _ => 0 | Err _ => 1 + trailing rs end.
Proof using. unfold trailing. by rewrite reverse_snoc. Qed.

(** How a run that has seen [results] may have ended. *)
Definition ended (results : list (Result bool)) (st st' : RState) (o : Refresher) : Prop :=
  match o with
  | Going f => f = trailing results ∧ f < MAX_REFRESH_ATTEMPTS ∧ asks st st'
  | Overflowed => trailing results < MAX_REFRESH_ATTEMPTS ∧ asks st st'
  | GaveUp => trailing results = MAX_REFRESH_ATTEMPTS
              ∧ ∃ before, asks st before ∧ r_cmds st' = r_cmds before ++ [DropSession]
  end.

Lemma ended_after results st st1 st' o : asks st st1 → ended results st1 st' o → ended results st st' o.
Proof using.
  intros Ha. destruct o; cbn.
  - intros (? & ? & ?). split; [done|]. split; [done|]. by transitivity st1.
  - intros (? & b & ? & ?). split; [done|]. exists b. split; [by transitivity st1|done].
  - intros (? & ?). split; [done|]. by transitivity st1.
Qed.

(** The loop, started after the results [past]. *)
Lemma run_refresher_inv checks u rounds past st st' tr o :
  run_refresher checks u rounds (trailing past) st = (st', tr, o) → trailing past < MAX_REFRESH_ATTEMPTS →
  Forall (λ d, from_secs TOKEN_REFRESH_MIN_DELAY_SECS <= d) (map fst tr)
  ∧ (∀ n, (n < length tr)%nat → trailing (past ++ take n (map snd tr)) < MAX_REFRESH_ATTEMPTS)
  ∧ ended (past ++ map snd tr) st st' o.
Proof using.
  revert past st st' tr o. induction rounds as [|r rounds IH]; intros past st st' tr o; cbn [run_refresher].
  { intros [= <- <- <-] Hlt. rewrite app_nil_r. split; [done|]. split; [cbn; lia|done]. }
  destruct (round_delay checks r (trailing past) (r_shared st)) as [d|] eqn:Ed.
  2:{ intros [= <- <- <-] Hlt. rewrite app_nil_r. split; [done|]. split; [cbn; lia|done]. }
  apply round_delay_bound in Ed.
  destruct (refresh_once (attempt r) u _) as [st1 res] eqn:E1. apply refresh_once_cases in E1 as [Ha _].
  change (asks st st1) in Ha. intros E Hlt.
  assert (∀ tr' o', run_refresher checks u rounds (trailing (past ++ [res])) st1 = (st', tr', o') →
    trailing (past ++ [res]) < MAX_REFRESH_ATTEMPTS → tr = (d, res) :: tr' → o = o' →
    Forall (λ d, from_secs TOKEN_REFRESH_MIN_DELAY_SECS <= d) (map fst tr)
    ∧ (∀ n, (n < length tr)%nat → trailing (past ++ take n (map snd tr)) < MAX_REFRESH_ATTEMPTS)
    ∧ ended (past ++ map snd tr) st st' o) as Hgo.
  { intros tr' o' E' Hf -> ->. destruct (IH (past ++ [res]) st1 st' tr' o' E' Hf) as (Hd & Hp & Ho).
    cbn [map fst snd]. rewrite <- app_assoc in Ho. split; [by constructor|]. split; [|by eapply ended_after].
    intros [|n] Hn; [by rewrite app_nil_r|]. cbn [take]. specialize (Hp n). rewrite <- app_assoc in Hp.
    apply Hp. cbn in Hn. lia. }
  rewrite trailing_snoc in Hgo. destruct res as [b|e].
  - destruct (run_refresher checks u rounds 0 st1) as [[st2 tr'] o'] eqn:E2. injection E as <- <- <-.
    by eapply Hgo.
  - rewrite Z.add_comm in E. destruct (Z.leb_spec MAX_REFRESH_ATTEMPTS (1 + trailing past)) as [Hge|Hlt'].
    + injection E as <- <- <-. cbn [map snd fst]. split; [by repeat constructor|]. split.
      * intros [|n] Hn; [by rewrite app_nil_r|]. cbn in Hn. lia.
      * cbn [ended]. rewrite trailing_snoc. split; [lia|]. by exists st1.
    + destruct (run_refresher checks u rounds (1 + trailing past) st1) as [[st2 tr'] o'] eqn:E2.
      injection E as <- <- <-. by eapply Hgo.
Qed.

(** [C30] The refresher waits at least fifteen seconds before every attempt; it gives
    up exactly when the last three attempts have failed and never before, by asking
    once, as its last command, for the session to be dropped. *)
Theorem refresher_gives_up checks u rounds st :
  let '(st', tr, o) := run_refresher checks u rounds 0 st in
  Forall (λ d, from_secs TOKEN_REFRESH_MIN_DELAY_SECS <= d) (map fst tr)
  ∧ (∀ n, (n < length tr)%nat → trailing (take n (map snd tr)) < MAX_REFRESH_ATTEMPTS)
  ∧ match o with
    | Going f => f = trailing (map snd tr) ∧ f < MAX_REFRESH_ATTEMPTS ∧ asks st st'
    | Overflowed => trailing (map snd tr) < MAX_REFRESH_ATTEMPTS ∧ asks st st'
    | GaveUp => trailing (map snd tr) = MAX_REFRESH_ATTEMPTS
                ∧ ∃ before, asks st before ∧ r_cmds st' = r_cmds before ++ [DropSession]
    end.
Proof using.
  destruct (run_refresher checks u rounds 0 st) as [[st' tr] o] eqn:E.
  exact (run_refresher_inv _ _ _ [] _ _ _ _ E eq_refl).
Qed.
End refresh.

(** ** A refresh that loses a race *)

Definition sample_send (tx : Sender) (a : bytes) : @SendEnv unit :=
  {| accepted := true; send_tx := tx; others := id; answered := Some (Ok (json_text a)) |}.
Definition raced : Attempt :=
  {| getkey_send := sample_send 1 (bs "{'LL':{'code':'200','value':'4141'}}");
     refresh_send := sample_send 2 (bs "{'LL':{'code':'200','value':{'validUntil':500000000}}}");
     before_set := @clear_shared_token unit no_store |}.
Definition race_state : @RState unit :=
  {| r_shared := set_token (TS := no_store) (new_token (bs "eyJ") 400000000 Sha256) new_shared; r_cmds := [] |}.

(** The check of the token and the write are not one step: when the writer kills
    and forgets the token in between, the refresher puts the killed token back. *)
Lemma killed_token_comes_back :
  let r := refresh_once (TS := no_store) (J := json_model) (D := digests_model) (X := hex_model)
             raced (bs "admin") race_state in
  token_is_empty (shared_token (found raced (r_shared race_state))) = false
  ∧ match snd r with Ok b => b | Err _ => false end = true
  ∧ shared_token (r_shared (fst r)) = new_token (bs "eyJ") 500000000 Sha256.
Proof. split; [reflexivity|]. split; vm_compute; reflexivity. Qed.
