(* ===== verification/Steps.v ===== *)
(** * What every step of a session respects

    The tasks of a session change what they share through a few operations. A
    preorder on the session's state that these operations respect is respected by
    the reader, the writer, the shutdown path and every schedule of them: the
    frame conditions of [Frame] and the typing of [Typed] are two such preorders. *)

From S2P Require Import Prelude RustStr External Models Errors Session Crypto Auth Store State Scan.
From S2P Require Import Pending Uuid Header EventTables Handler World Reader Writer Duplex Tls Http Config Handshake.

(** The counters only the supervisor and the façade touch. *)
Definition sup_counter (c : Counter) : bool :=
  match c with
  | connects | reconnects | reconnect_attempts | reconnect_failures | disconnects => true
  | _ => false
  end.

(** The lifecycle events among the callbacks entered. *)
Definition events (h : list Call) : list ClientEvent :=
  omap (λ c, match c with on_event e => Some e | _ => None end) h.

Lemma events_app h h' : events (h ++ h') = events h ++ events h'.
Proof. apply omap_app. Qed.

Lemma events_tables cs : Forall (λ c, is_table c = true) cs → events cs = [].
Proof. induction 1 as [|c cs Hc _ IH]; [done|]. by destruct c. Qed.

Section steps.
Context {S H : Type} {TS : TokenStore S} {LH : LoxHandler H}.
Context {zc : ZeroCopy} {J : Json} {D : Digests} {X : Hex}.
Context {U : Utf8Text} {A : AesCbc} {B : Base64} {P : PercentDecode}.
Context (keys : SessionKeys).
Implicit Types w : World S H.

(** The operations. What a session alone holds (the queues to and from the wire,
    the waiters and their answers) is free to change. *)
Class Stepped (R : relation (World S H)) : Prop := {
  st_pre :: PreOrder R;
  st_free w w' :
    shared w' = shared w → guarded w' = guarded w → visu w' = visu w → liveness w' = liveness w →
    w_salt w' = w_salt w → (stopped w = true → stopped w' = true) → R w w';
  st_count c n w : sup_counter c = false → R w (count_by c n w);
  st_message ty w : R w (upd_shared (upd_metrics (record_message ty)) w);
  st_rtt n w : 0 <= n → R w (upd_shared (upd_metrics (set_keepalive_rtt n)) w);
  st_token t w : R w (upd_shared (set_token t) w);
  st_clear w : R w (upd_shared clear_shared_token w);
  st_guard {T} cs (r : T) w : events cs = [] → R w (set_guarded (guard_or_fail cs r (guarded w)).1 w);
  st_encrypt d cmd w : R w (set_salt (encrypt d keys cmd (w_salt w)).1 w);
  st_push v w : R w (set_visu (visu_push v (visu w)) w);
  st_drain w : R w (set_visu [] w);
  st_sent t w : R w (set_liveness (record_sent t (liveness w)) w);
  st_ack w : R w (set_liveness (record_ack (liveness w)).1 w);
}.

Section stepped.
Context (R : relation (World S H)) {HR : Stepped R}.

Definition steps {T} (m : M (World S H) T) : Prop := ∀ w, R w (fst (m w)).

Lemma steps_ret {T} (a : T) : steps (mret a).
Proof using HR. intros w. reflexivity. Qed.
Lemma steps_bind {T V} (m : M (World S H) T) (f : T → M (World S H) V) :
  steps m → (∀ a, steps (f a)) → steps (m ≫= f).
Proof using HR.
  intros Hm Hf w. specialize (Hm w). destruct (m w) as [w1 [a|e]] eqn:E; cbn [fst] in Hm.
  - rewrite (bind_ok _ _ _ _ _ E). transitivity w1; [done|apply Hf].
  - by rewrite (bind_err _ _ _ _ _ E).
Qed.
Lemma steps_modify (f : World S H → World S H) : (∀ w, R w (f w)) → steps (modify f).
Proof using. intros Hf w. apply Hf. Qed.
Lemma steps_guard {T} cs (r : T) : events cs = [] → steps (guard_m cs r).
Proof using HR.
  intros Hcs w. unfold guard_m. pose proof (st_guard cs r w Hcs) as Hg.
  by destruct (guard_or_fail cs r (guarded w)).
Qed.

(** ** The reader *)

Context (idle_timeout : Z) (send_failed : bytes).

Lemma stepped_answer tx r w : R w (answer tx r w).
Proof using HR. destruct tx; [by apply st_free|reflexivity]. Qed.

Lemma stepped_out_send m w : R w (fst (out_send m w)).
Proof using HR. unfold out_send. destruct (writer_gone w); [reflexivity|by apply st_free]. Qed.

Lemma stepped_send_secured ks items w : R w (send_secured ks items w).
Proof using HR.
  revert w. induction items as [|i items IH]; intros w; cbn [send_secured]; [reflexivity|].
  destruct (hash_visu_password ks (visu_pw i)); [|apply IH].
  match goal with |- context [out_send ?m w] =>
    pose proof (stepped_out_send m w) as Ho; destruct (out_send m w) as [w1 []] end; [|done].
  transitivity w1; [done|apply IH].
Qed.

Lemma stepped_flush payload w : R w (flush_visu payload w).
Proof using HR.
  unfold flush_visu. destruct (parse_key_salt payload); cbn [fst visu_drain]; [|apply st_drain].
  transitivity (set_visu [] w); [apply st_drain|apply stepped_send_secured].
Qed.

Lemma steps_text_message payload : steps (on_text_message keys payload).
Proof using HR.
  unfold on_text_message. apply steps_bind.
  { intros w. destruct (resolve _ keys (pending w)). by apply st_free. }
  intros [r|].
  - apply steps_bind; [apply steps_modify; intros w; destruct (matched r); [reflexivity|by apply st_count]|]. intros _.
    apply steps_bind; [apply steps_modify; intros w; destruct (_ && _); [apply stepped_flush|reflexivity]|]. intros _.
    apply steps_modify. intros w. apply stepped_answer.
  - apply steps_bind; [apply steps_modify; intros w; by apply st_count|]. intros _. by apply steps_guard.
Qed.

Lemma stepped_on_ack t w : R w (on_ack t w).
Proof using HR.
  unfold on_ack. pose proof (st_ack w) as Ha. destruct (record_ack (liveness w)) as [l [s|]]; [|done].
  transitivity (set_liveness l w); [done|]. apply st_rtt. lia.
Qed.

Lemma steps_dispatch t ty payload : steps (dispatch keys t ty payload).
Proof using HR.
  unfold dispatch. apply steps_bind; [apply steps_modify; intros w; apply st_message|].
  intros _. pose proof (events_tables _ (table_calls_tables ty payload)) as Ht. unfold table_calls in Ht.
  destruct (dispatch_event ty payload) as [calls ev]. apply steps_bind; [by apply steps_guard|].
  intros []; [apply steps_ret|]. destruct (mt_from_u8 ty) as [[]|]; try apply steps_ret; [apply steps_text_message|].
  apply steps_bind; [apply steps_modify; intros w; apply stepped_on_ack|]. intros _. by apply steps_guard.
Qed.

Lemma steps_data_frame t e payload : steps (on_data_frame keys t e payload).
Proof using HR.
  unfold on_data_frame. destruct e as [a|ty len].
  - destruct (parse_header payload) as [[h|]|]; try apply steps_ret.
    destruct (is_estimated h); [apply steps_ret|]. destruct (_ =? mt_as_u8 OutOfService); [apply steps_ret|].
    destruct (payload_len h =? 0); [|apply steps_ret].
    apply steps_bind; [apply steps_dispatch|]. intros _. apply steps_ret.
  - apply steps_bind; [apply steps_dispatch|]. intros _. apply steps_ret.
Qed.

Lemma stepped_read_step r e w w' e' o :
  read_step keys idle_timeout send_failed r e w = (w', e', o) → R w w'.
Proof using HR.
  unfold read_step. destruct (_ <? _); [by intros [= <- _ _]|].
  assert (R w (fst (read_frame send_failed r w))) as Hr.
  { unfold read_frame. destruct (obligated r) as [[op p]|]; [|reflexivity].
    pose proof (stepped_out_send (Obligated op p) w) as Ho. by destruct (out_send _ w) as [? []]. }
  destruct (read_frame send_failed r w) as [w1 [[op p]|err]]; cbn [fst] in Hr; [|by intros [= <- _ _]].
  assert (∀ w2 x, on_data_frame keys (at_ r) e p w1 = (w2, x) → R w w2) as Hd.
  { intros w2 x E. transitivity w1; [done|]. pose proof (steps_data_frame (at_ r) e p w1) as Hk. by rewrite E in Hk. }
  destruct op; try (by intros [= <- _ _]);
    (destruct (on_data_frame keys (at_ r) e p w1) as [w2 [[e2 o2]|err]] eqn:E; intros [= <- _ _]; by eapply Hd).
Qed.
Lemma stepped_elsewhere w w' : elsewhere keys idle_timeout send_failed w w' → R w w'.
Proof using HR.
  intros [r e w1 w2 e' o _ E|t w1|c w1 Hc].
  - by eapply stepped_read_step.
  - apply st_token.
  - apply st_count. by destruct Hc as [-> | ->].
Qed.

Lemma stepped_elsewheres w w' : rtc (elsewhere keys idle_timeout send_failed) w w' → R w w'.
Proof using HR.
  induction 1 as [w|w1 w2 w3 He _ IH]; [reflexivity|]. transitivity w2; [by apply stepped_elsewhere|done].
Qed.

(** ** The writer *)

Context (cfg : WriterConfig).

Lemma stepped_prepare env cmd tx w : R w (fst (prepare_command keys cfg env cmd tx w)).
Proof using HR.
  unfold prepare_command. pose proof (st_encrypt (draw env) cmd w) as He.
  destruct (encrypt _ keys cmd (w_salt w)) as [st [enc|e]]; cbn [fst] in *;
    (transitivity (set_salt st w); [done|]); [by apply st_free|].
  transitivity (count command_errors (set_salt st w)); [by apply st_count|apply stepped_answer].
Qed.

Lemma stepped_io_command env c w : R w (fst (on_io_command keys cfg env c w)).
Proof using HR.
  destruct c as [cmd tx|uuid value|uuid value pw| |]; cbn [on_io_command fst]; try reflexivity;
    (transitivity (count commands_sent w); [by apply st_count|]); try apply stepped_prepare.
  - destruct (_ <=? _); [|apply stepped_prepare]. cbn [fst].
    transitivity (count command_errors (count commands_sent w)); [by apply st_count|apply stepped_answer].
  - eapply transitivity; [|apply stepped_prepare]. apply st_push.
Qed.

Lemma stepped_decide s w : R w (fst (decide_outgoing keys cfg s w)).
Proof using HR.
  unfold decide_outgoing. destruct (out_queue w) as [|m ms].
  - destruct (arm s) as [|[c|]| |]; try reflexivity.
    + pose proof (stepped_io_command (env s) c w) as Hk. by destruct c.
    + unfold on_keepalive_tick. destruct (_ <=? _); [by apply st_count|apply st_sent].
  - transitivity (set_out_queue ms w); [by apply st_free|].
    destruct m as [op p|cmd tx|]; cbn [on_writer_msg fst]; try reflexivity. apply stepped_prepare.
Qed.

Lemma stepped_expire t w : R w (expire_pending t w).
Proof using HR.
  unfold expire_pending. destruct (expire t (pending w)) as [[q out] n].
  transitivity (deliver out (set_pending q w)); [by apply st_free|].
  destruct (0 <? n); [by apply st_count|reflexivity].
Qed.

Lemma steps_write res op p : steps (write_frame res op p).
Proof using HR. intros w. by destruct res; apply st_free. Qed.

Lemma steps_request r cmd : wf_request keys idle_timeout send_failed r → steps (request keys cfg r cmd).
Proof using HR.
  intros Hr. unfold request. apply steps_bind.
  { intros w. pose proof (stepped_prepare (req_env r) cmd (Some (req_tx r)) w) as Hp.
    by destruct (prepare_command _ _ _ _ _ w). }
  intros o. destruct o; try (intros w; reflexivity).
  apply steps_bind; [apply steps_modify; intros w; eapply stepped_elsewheres, Hr|]. intros _.
  apply steps_bind; [apply steps_write|]. intros _.
  apply steps_bind; [apply steps_modify; intros w; eapply stepped_elsewheres, Hr|]. intros _.
  destruct (reply r); intros w; reflexivity.
Qed.

Lemma steps_kill_token c : wf_close keys idle_timeout send_failed c → steps (kill_token keys cfg c).
Proof using HR.
  intros [H1 H2]. unfold kill_token. apply steps_bind; [intros w; reflexivity|]. intros t.
  destruct (token_is_empty t); [apply steps_ret|]. apply steps_bind; [by apply steps_request|]. intros k.
  apply steps_bind; [intros w; reflexivity|]. intros h. apply steps_bind; [by apply steps_request|].
  intros _. apply steps_ret.
Qed.

Lemma stepped_perform s o w :
  wf_close keys idle_timeout send_failed (closing s) → R w (fst (perform keys cfg s o w)).
Proof using HR.
  intros Hc. destruct o as [t|op p| | |]; cbn [perform fst]; try apply stepped_expire; try reflexivity.
  - pose proof (steps_write (write s) OpText t w) as Hw.
    destruct (write_frame (write s) OpText t w) as [w1 [[]|e]]; cbn [fst] in *;
      (transitivity w1; [done|]); [apply stepped_expire|by apply st_count].
  - pose proof (steps_write (write s) op p w) as Hw.
    destruct (write_frame (write s) op p w) as [w1 [[]|e]]; cbn [fst] in *; [|done].
    transitivity w1; [done|apply stepped_expire].
  - unfold graceful_close. eapply transitivity; [|apply steps_write].
    transitivity (set_stopped true w); [by apply st_free|]. destruct (kill_token_on_stop cfg); [|reflexivity].
    eapply transitivity; [by apply steps_kill_token|apply st_clear].
Qed.

Lemma stepped_leave w : R w (leave w).
Proof using HR.
  unfold leave, finish. destruct (fail_all _ _) as [[q out] n].
  transitivity (deliver out (set_pending q w)); [by apply st_free|].
  eapply transitivity; [apply st_drain|by apply st_free].
Qed.

(** ** The handshake *)

Context (ccfg : ConnectConfig S) (draws : nat → Draw) (now : Z).
Definition lifted (s s' : HState S H) : Prop := R (hw s) (hw s').

#[local] Instance lifted_respected : Respected keys draws lifted.
Proof using HR.
  unfold lifted. apply respected_of.
  - split; [intros s; reflexivity|]. intros s1 s2 s3 H1 H2. by transitivity (hw s2).
  - intros t s. unfold send_text. destruct (hwrites s) as [|[m|] ws]; by apply st_free.
  - intros s. unfold read_frame_bytes. by destruct (hreads s).
  - intros T cs b Hcs s. unfold in_world.
    pose proof (steps_guard cs b (events_tables _ Hcs) (hw s)) as Hk. by destruct (guard_m cs b (hw s)).
  - intros cmd s. unfold encrypt_next. pose proof (st_encrypt (draws (htick s)) cmd (hw s)) as He.
    by destruct (encrypt _ keys cmd _).
Qed.

#[local] Instance lifted_token : TokenRespected lifted.
Proof using HR. constructor; [intros t|]; intros s; [apply st_token|apply st_clear]. Qed.

Lemma stepped_handshake b64 s : R (hw s) (hw (fst (handshake keys ccfg draws now b64 s))).
Proof using HR. apply (follows_handshake keys ccfg draws now lifted b64 s). Qed.
End stepped.

(** A coarser preorder is respected as well. *)
Lemma stepped_weaken (R R' : relation (World S H)) :
  PreOrder R' → (∀ w w', R w w' → R' w w') → Stepped R → Stepped R'.
Proof using.
  intros Hpre Hw HR. split; [done|..]; intros; apply Hw.
  - by apply st_free.
  - by apply st_count.
  - apply st_message.
  - by apply st_rtt.
  - apply st_token.
  - apply st_clear.
  - by apply st_guard.
  - apply st_encrypt.
  - apply st_push.
  - apply st_drain.
  - apply st_sent.
  - apply st_ack.
Qed.
End steps.
