(* ===== verification/Frame.v ===== *)
(** * What a session leaves to the supervisor

    The connection state, the counters of connections and the lifecycle events are
    the supervisor's: nothing the handshake, the reader, the writer or the other
    tasks do to the shared objects touches them. A handler once unwound stays so,
    and a stop once requested stays requested. *)

From S2P Require Import Prelude RustStr External Models Errors Session Crypto Auth Store State Scan.
From S2P Require Import Pending Uuid Header EventTables Handler World Reader Writer Duplex Tls Config Handshake Steps.

Section kept.
Context {S H : Type} {TS : TokenStore S} {LH : LoxHandler H}.

Record kept_shared (s s' : SharedState S) : Prop := {
  k_count c : sup_counter c = true → counter (metrics s') c = counter (metrics s) c;
  k_fields : length (counters (metrics s')) = length (counters (metrics s));
  k_since : connected_since (metrics s') = connected_since (metrics s);
  k_codes : by_close_code (metrics s') = by_close_code (metrics s);
}.
Record kept_guard (g g' : HandlerGuard H) : Prop := {
  k_events : events (history g') = events (history g);
  k_panicked : panicked g = true → panicked g' = true;
}.
(** [lasting] is what also the supervisor's own bookkeeping at the end of a session
    keeps; the steps of a session keep the connection state as well. *)
Record lasting (w w' : World S H) : Prop := {
  k_shared : kept_shared (shared w) (shared w');
  k_guard : kept_guard (guarded w) (guarded w');
  k_stopped : stopped w = true → stopped w' = true;
}.
Record kept (w w' : World S H) : Prop := {
  k_lasting : lasting w w';
  k_state : state_cell (shared w') = state_cell (shared w);
}.

#[global] Instance kept_shared_preorder : PreOrder kept_shared.
Proof using.
  split; [done|]. intros s1 s2 s3 [B1 L1 C1 D1] [B2 L2 C2 D2].
  split; [|congruence..]. intros c Hc. by rewrite B2, B1.
Qed.
#[global] Instance kept_guard_preorder : PreOrder kept_guard.
Proof using. split; [done|]. intros g1 g2 g3 [A1 B1] [A2 B2]. split; [congruence|auto]. Qed.
#[global] Instance lasting_preorder : PreOrder lasting.
Proof using.
  split; [by split|]. intros w1 w2 w3 [A1 B1 C1] [A2 B2 C2].
  split; [by transitivity (shared w2)|by transitivity (guarded w2)|auto].
Qed.
#[global] Instance kept_preorder : PreOrder kept.
Proof using.
  split; [by split|]. intros w1 w2 w3 [A1 B1] [A2 B2]. split; [by transitivity w2|congruence].
Qed.

(** ** The shared state *)

Lemma field_index_inj c c' : field_index c = field_index c' → c = c'.
Proof using. by destruct c, c'. Qed.

Lemma counter_bump_ne c c' n m : c ≠ c' → counter (bump_by c n m) c' = counter m c'.
Proof using.
  intros Hne. unfold counter, bump_by. cbn [counters]. rewrite list_lookup_alter_ne; [done|].
  intros E. by apply Hne, field_index_inj.
Qed.

Lemma kept_bump c n (s : SharedState S) :
  sup_counter c = false → kept_shared s (upd_metrics (bump_by c n) s).
Proof using.
  intros Hc. split; [|apply length_alter|done|done]. intros c' Hc'. apply counter_bump_ne. congruence.
Qed.

Lemma kept_message ty (s : SharedState S) : kept_shared s (upd_metrics (record_message ty) s).
Proof using.
  transitivity (upd_metrics (bump_by messages_received 1) s); [by apply kept_bump|].
  unfold record_message. by destruct (ty <? MESSAGE_TYPE_COUNT).
Qed.

Lemma kept_rtt n (s : SharedState S) : kept_shared s (upd_metrics (set_keepalive_rtt n) s).
Proof using. done. Qed.
Lemma kept_set_token t (s : SharedState S) : kept_shared s (set_token t s).
Proof using. done. Qed.
Lemma kept_clear_token (s : SharedState S) : kept_shared s (clear_shared_token s).
Proof using. done. Qed.

(** ** The handler *)

Lemma kept_guard_calls {R} cs (r : R) (g : HandlerGuard H) :
  events cs = [] → kept_guard g (fst (guard_or_fail cs r g)).
Proof using.
  intros Hcs. destruct (guard_or_fail cs r g) as [g' o] eqn:E. apply guard_or_fail_spec in E. cbn [fst].
  destruct o as [r'|e].
  - destruct E as (_ & Hp & _ & Hh). split; [by rewrite Hh, events_app, Hcs, app_nil_r|congruence].
  - destruct E as (_ & Hp' & _ & made & [rest Hm] & Hh). split; [|done].
    rewrite Hm, events_app in Hcs. apply app_eq_nil in Hcs as [Hmade _].
    by rewrite Hh, events_app, Hmade, app_nil_r.
Qed.

(** ** Computations on the world *)

Lemma kept_shared_part (w w' : World S H) :
  kept_shared (shared w) (shared w') → state_cell (shared w') = state_cell (shared w) →
  guarded w' = guarded w → stopped w' = stopped w → kept w w'.
Proof using. intros Hs Hc Hg Ht. split; [|done]. split; [done|by rewrite Hg|by rewrite Ht]. Qed.

Lemma kept_same (w w' : World S H) :
  shared w' = shared w → guarded w' = guarded w → stopped w' = stopped w → kept w w'.
Proof using. intros Hs Hg Ht. apply kept_shared_part; [by rewrite Hs|by rewrite Hs|done|done]. Qed.

Lemma kept_count c n (w : World S H) : sup_counter c = false → kept w (count_by c n w).
Proof using. intros Hc. apply kept_shared_part; [by apply kept_bump|done..]. Qed.

End kept.

(** ** The steps of a session *)

Section stepped.
Context {S H : Type} {TS : TokenStore S} {LH : LoxHandler H}.
Context {D : Digests} {X : Hex} {A : AesCbc} {B : Base64}.
Context (keys : SessionKeys).

#[global] Instance kept_stepped : Stepped (S := S) (H := H) keys kept.
Proof using.
  split; intros; try (by apply kept_shared_part); try (by apply kept_same).
  - apply _.
  - split; [|congruence]. split; [|by apply reflexive_eq|done]. by apply reflexive_eq.
  - by apply kept_count.
  - apply kept_shared_part; [apply kept_message|done..].
  - split; [|done]. split; [done|by apply kept_guard_calls|done].
Qed.
#[global] Instance lasting_stepped : Stepped (S := S) (H := H) keys lasting.
Proof using. apply (stepped_weaken keys kept); [apply _|apply k_lasting|apply _]. Qed.
End stepped.
