(* ===== verification/Live.v ===== *)
(** * client/io.rs, [session_once]: the connected phase

    From the moment the client is connected until the supervisor has its command
    channel back, the reader runs on the supervisor's task, the writer and the
    refresher on their own, and the façade hands in commands. A schedule lists
    which of them makes the next step; a step that is not enabled does nothing. *)

From S2P Require Import Prelude RustStr External Models Errors Session Crypto Auth Store State Scan.
From S2P Require Import Pending Uuid Header EventTables Handler World Reader Writer Duplex Steps Frame.

Definition with_arm {S H} (a : Arm) (s : Step S H) : Step S H :=
  {| arm := a; env := env s; write := write s; closing := closing s; expire_at := expire_at s |}.

(** The command channel holds [inbox]; [popped] records what the writer has taken
    from it. [reading] is the reader's parser or how it ended, [deciding] what the
    writer has decided to write, and [told] whether the supervisor has reacted to
    the end of the read loop. *)
Record Live (S H : Type) := {
  lw : World S H;
  inbox : list IoCommand;
  popped : list IoCommand;
  reading : FrameExpect + ReadOutcome;
  deciding : option (Step S H * Outgoing);
  told : bool;
}.
Arguments lw {S H}. Arguments inbox {S H}. Arguments popped {S H}. Arguments reading {S H}.
Arguments deciding {S H}. Arguments told {S H}. Arguments Build_Live {S H}.

(** [ActPerform] also says how far the reader has come, for the case that the writer
    closes the session and waits for answers meanwhile. *)
Inductive Action (S H : Type) :=
| ActRead (r : Read)
| ActDecide (s : Step S H)
| ActPerform (progress : FrameExpect + ReadOutcome)
| ActEnqueue (c : IoCommand)
| ActToken (t : LxToken)
| ActRefused (c : Counter)
| ActStop
| ActWindDown.
Arguments ActRead {S H}. Arguments ActDecide {S H}. Arguments ActPerform {S H}. Arguments ActEnqueue {S H}.
Arguments ActToken {S H}. Arguments ActRefused {S H}. Arguments ActStop {S H}. Arguments ActWindDown {S H}.

Section live.
Context {S H : Type} {TS : TokenStore S} {LH : LoxHandler H}.
Context {zc : ZeroCopy} {J : Json} {D : Digests} {X : Hex}.
Context {U : Utf8Text} {A : AesCbc} {B : Base64} {P : PercentDecode}.
Context (keys : SessionKeys) (idle_timeout : Z) (send_failed : bytes) (cfg : WriterConfig) (depth : Z).
Implicit Types (w : World S H) (l : Live S H).

Definition set_lw w l : Live S H :=
  {| lw := w; inbox := inbox l; popped := popped l; reading := reading l; deciding := deciding l; told := told l |}.
Definition set_reading (e : FrameExpect + ReadOutcome) l : Live S H :=
  {| lw := lw l; inbox := inbox l; popped := popped l; reading := e; deciding := deciding l; told := told l |}.
Definition set_deciding (pc : option (Step S H * Outgoing)) l : Live S H :=
  {| lw := lw l; inbox := inbox l; popped := popped l; reading := reading l; deciding := pc; told := told l |}.
Definition set_inbox (cs : list IoCommand) l : Live S H :=
  {| lw := lw l; inbox := cs; popped := popped l; reading := reading l; deciding := deciding l; told := told l |}.

(** The writer's [select!], with the command it takes from the channel. The
    supervisor holds a sender of its own, so the channel never closes under it. *)
Definition writer_decides (s : Step S H) l : Live S H :=
  let '(w, o) := decide_outgoing keys cfg s (lw l) in set_deciding (Some (s, o)) (set_lw w l).

Definition takes_command (s : Step S H) l : Live S H :=
  match inbox l with
  | [] => l
  | c :: cs =>
      writer_decides (with_arm (ArmCmd (Some c)) s)
        {| lw := lw l; inbox := cs; popped := popped l ++ [c]; reading := reading l;
           deciding := deciding l; told := told l |}
  end.

Definition live_step (a : Action S H) l : Live S H :=
  match a with
  | ActRead r =>
      match reading l with
      | inl e =>
          let '(w, e, o) := read_step keys idle_timeout send_failed r e (lw l) in
          set_reading (match o with Some o => inr o | None => inl e end) (set_lw w l)
      | inr _ => l
      end
  | ActDecide s =>
      if writer_gone (lw l) then l
      else
        match deciding l, out_queue (lw l), arm s with
        | Some _, _, _ => l
        | None, [], ArmCmd _ => takes_command s l
        | None, [], ArmOutClosed => if told l then writer_decides s l else l
        | None, _, _ => writer_decides s l
        end
  | ActPerform progress =>
      match deciding l with
      | None => l
      | Some (s, o) =>
          let e := match o, reading l with OClose, inl _ => progress | _, e => e end in
          match perform keys cfg s o (lw l) with
          | (w, true) => set_deciding None (set_reading e (set_lw w l))
          | (w, false) => set_deciding None (set_reading e (set_lw (leave w) l))
          end
      end
  | ActEnqueue c => if zlen (inbox l) <? depth then set_inbox (inbox l ++ [c]) l else l
  | ActToken t => set_lw (upd_shared (set_token t) (lw l)) l
  | ActRefused c => set_lw (count c (lw l)) l
  | ActStop => set_lw (set_stopped true (lw l)) l
  | ActWindDown =>
      match reading l with
      | inr _ =>
          if told l then l
          else
            let w := if stopped (lw l) then lw l else upd_shared (set_state Reconnecting) (lw l) in
            {| lw := fst (out_send Shutdown w); inbox := inbox l; popped := popped l; reading := reading l;
               deciding := deciding l; told := true |}
      | inl _ => l
      end
  end.

Definition run_live (acts : list (Action S H)) l : Live S H := fold_left (λ l a, live_step a l) acts l.

(** The start: the reader expects a header, the writer has decided nothing. *)
Definition live_start w (cs : list IoCommand) : Live S H :=
  {| lw := w; inbox := cs; popped := []; reading := inl START; deciding := None; told := false |}.

(** Control frames are the only ones the WebSocket library asks to be sent, the
    other tasks do what [elsewhere] allows while the writer closes the session, and
    the façade counts its own refusals. *)
Definition wf_action (a : Action S H) : Prop :=
  match a with
  | ActRead r => control_only r
  | ActDecide s => wf_close keys idle_timeout send_failed (closing s)
  | ActRefused c => c = controls_rejected_offline ∨ c = controls_rejected_backpressure
  | _ => True
  end.

(** The commands that enter the channel. *)
Definition enqueued (a : Action S H) l : list IoCommand :=
  match a with ActEnqueue c => if zlen (inbox l) <? depth then [c] else [] | _ => [] end.

(** The waiters of the commands that are requests. *)
Definition senders (cs : list IoCommand) : list Sender :=
  omap (λ c, match c with Encrypted _ tx => Some tx | _ => None end) cs.

Lemma senders_app cs cs' : senders (cs ++ cs') = senders cs ++ senders cs'.
Proof using. apply omap_app. Qed.

(** ** The channel neither loses nor invents commands *)

Lemma writer_decides_inbox s l :
  popped (writer_decides s l) = popped l ∧ inbox (writer_decides s l) = inbox l.
Proof using. unfold writer_decides. by destruct (decide_outgoing keys cfg s (lw l)). Qed.

Lemma takes_command_inbox s l :
  popped (takes_command s l) ++ inbox (takes_command s l) = popped l ++ inbox l.
Proof using.
  unfold takes_command. destruct (inbox l) as [|c cs] eqn:E; [by rewrite E|].
  destruct (writer_decides_inbox (with_arm (ArmCmd (Some c)) s)
    {| lw := lw l; inbox := cs; popped := popped l ++ [c]; reading := reading l;
       deciding := deciding l; told := told l |}) as [-> ->]. cbn. by rewrite <- app_assoc.
Qed.

Lemma live_step_inbox a l :
  popped (live_step a l) ++ inbox (live_step a l) = popped l ++ inbox l ++ enqueued a l.
Proof using.
  destruct a as [r|s|p|c|t|c| |]; cbn [live_step enqueued]; rewrite ?app_nil_r; try done.
  - destruct (reading l); [|done]. by destruct (read_step _ _ _ _ _ _) as [[w e] o].
  - assert (popped (writer_decides s l) ++ inbox (writer_decides s l) = popped l ++ inbox l) as Hd
      by (by destruct (writer_decides_inbox s l) as [-> ->]).
    destruct (writer_gone (lw l)); [done|]. destruct (deciding l); [done|].
    destruct (out_queue (lw l)); [|done]. destruct (arm s); try done; [by destruct (told l)|apply takes_command_inbox].
  - destruct (deciding l) as [[s o]|]; [|done]. by destruct (perform keys cfg s o (lw l)) as [w []].
  - destruct (_ <? _); cbn; [done|by rewrite app_nil_r].
  - destruct (reading l); [done|]. by destruct (told l).
Qed.

(** The channel is never fuller than its depth. *)
Lemma live_step_depth a l : zlen (inbox l) <= depth → zlen (inbox (live_step a l)) <= depth.
Proof using.
  intros Hl. destruct a as [r|s|p|c|t|c| |]; cbn [live_step]; try done.
  - destruct (reading l); [|done]. by destruct (read_step _ _ _ _ _ _) as [[w e] o].
  - assert (zlen (inbox (writer_decides s l)) <= depth) as Hd by (by destruct (writer_decides_inbox s l) as [_ ->]).
    destruct (writer_gone (lw l)); [done|]. destruct (deciding l); [done|].
    destruct (out_queue (lw l)); [|done]. destruct (arm s); try done; [by destruct (told l)|].
    unfold takes_command. destruct (inbox l) as [|c cs] eqn:E; [by rewrite E|].
    match goal with |- zlen (inbox (writer_decides ?s0 ?l0)) <= _ => destruct (writer_decides_inbox s0 l0) as [_ ->] end.
    unfold zlen in *. cbn in *. lia.
  - destruct (deciding l) as [[s o]|]; [|done]. by destruct (perform keys cfg s o (lw l)) as [w []].
  - destruct (Z.ltb_spec (zlen (inbox l)) depth); [|done]. unfold zlen in *. cbn. rewrite length_app. cbn. lia.
  - destruct (reading l); [done|]. by destruct (told l).
Qed.

Lemma run_live_depth acts l : zlen (inbox l) <= depth → zlen (inbox (run_live acts l)) <= depth.
Proof using.
  revert l. induction acts as [|a acts IH]; intros l Hl; [done|]. by apply IH, live_step_depth.
Qed.

(** ** A schedule is an interleaving of the two tasks *)

#[local] Abbreviation duplex := (duplex keys idle_timeout send_failed cfg).

(** [l] is a state the two tasks can reach. *)
Definition interleaved (st : SaltState) (k : nat) (reqs : list Sender) l : Prop :=
  duplex st k (senders (popped l)) reqs (deciding l) (lw l).

Lemma writer_decides_duplex s l st k reqs :
  interleaved st k reqs l → deciding l = None → writer_gone (lw l) = false →
  wf_close keys idle_timeout send_failed (closing s) → ∀ cs,
  senders (popped l ++ cs) = senders (popped l) ++ takes s (lw l) →
  interleaved st (k + 1) reqs (writer_decides s
    {| lw := lw l; inbox := inbox l; popped := popped l ++ cs; reading := reading l;
       deciding := deciding l; told := told l |}).
Proof using.
  unfold interleaved, writer_decides. intros Hd Hn Hg Hc cs Hcs. cbn [lw].
  destruct (decide_outgoing keys cfg s (lw l)) as [w o] eqn:E. cbn [deciding set_deciding lw set_lw popped].
  rewrite Hcs. rewrite Hn in Hd. by eapply dx_decide.
Qed.

Lemma takes_nil s l cs :
  out_queue (lw l) = cs → cs ≠ [] ∨ (∀ c, arm s ≠ ArmCmd c) → takes s (lw l) = [].
Proof using.
  unfold takes. intros ->. destruct cs; [|done]. intros [?|Hs]; [done|].
  destruct (arm s) as [|c| |]; try done. by destruct (Hs c).
Qed.

(** The waiters of the requests a step makes when it closes the session. *)
Definition closer (s : Step S H) : list Sender :=
  [req_tx (getkey_env (closing s)); req_tx (kill_env (closing s))].

(** [l'] is reached from [l] by one step. *)
Definition advances (st : SaltState) (k : nat) (reqs : list Sender) l l' : Prop :=
  ∃ k' reqs', (k' <= k + 1)%nat ∧ interleaved st k' reqs' l'
    ∧ (reqs' = reqs ∨ ∃ s o, deciding l = Some (s, o) ∧ reqs' = closer s).

Lemma advances_same st k reqs l l' :
  interleaved st k reqs l' → advances st k reqs l l'.
Proof using. intros Hd. exists k, reqs. split; [lia|auto]. Qed.

Lemma advances_else st k reqs l l' :
  interleaved st k reqs l → popped l' = popped l → deciding l' = deciding l →
  (lw l' = lw l ∨ elsewhere keys idle_timeout send_failed (lw l) (lw l')) → advances st k reqs l l'.
Proof using.
  intros Hd Hp Hc He. apply advances_same. unfold interleaved in *. rewrite Hp, Hc.
  destruct He as [->|He]; [done|]. by eapply dx_else.
Qed.

Lemma live_decide_duplex s l st k reqs :
  wf_action (ActDecide s) → interleaved st k reqs l → advances st k reqs l (live_step (ActDecide s) l).
Proof using.
  cbn [live_step wf_action]. intros Ha Hd. pose proof (advances_else st k reqs l l Hd eq_refl eq_refl) as Hstay.
  destruct (writer_gone (lw l)) eqn:Hg; [by auto|]. destruct (deciding l) eqn:Hn; [by auto|].
  assert (∀ s0 cs, wf_close keys idle_timeout send_failed (closing s0) →
    senders (popped l ++ cs) = senders (popped l) ++ takes s0 (lw l) →
    ∀ ib, advances st k reqs l (writer_decides s0
      {| lw := lw l; inbox := ib; popped := popped l ++ cs; reading := reading l; deciding := deciding l; told := told l |}))
    as Hdec.
  { intros s0 cs Hc Hcs ib. exists (k + 1)%nat, reqs. split; [lia|]. split; [|by left].
    by apply (writer_decides_duplex s0 (set_inbox ib l)). }
  assert (takes s (lw l) = [] → advances st k reqs l (writer_decides s l)) as Hplain.
  { intros Ht. specialize (Hdec s [] Ha). rewrite app_nil_r, Ht, app_nil_r in Hdec.
    specialize (Hdec eq_refl (inbox l)). rewrite Hn in Hdec. destruct l. cbn in *. by subst. }
  destruct (out_queue (lw l)) as [|m ms] eqn:Ho; [|apply Hplain; eapply takes_nil; [exact Ho|by left]].
  destruct (arm s) as [|c| |] eqn:Harm; try (apply Hplain; eapply takes_nil; [exact Ho|right; by rewrite Harm]).
  - destruct (told l); [|by auto]. apply Hplain. eapply takes_nil; [exact Ho|right; by rewrite Harm].
  - unfold takes_command. destruct (inbox l) as [|c0 cs]; [by auto|]. apply Hdec; [done|].
    rewrite senders_app. f_equal. unfold takes. rewrite Ho. cbn. by destruct c0.
Qed.

Lemma live_step_duplex a l st k reqs :
  wf_action a → interleaved st k reqs l → advances st k reqs l (live_step a l).
Proof using.
  intros Ha Hd. pose proof (fun l' => advances_else st k reqs l l' Hd) as Helse.
  destruct a as [r|s|p|c|t|c| |]; [|by apply live_decide_duplex|..]; cbn [live_step]; cbn [wf_action] in Ha.
  - destruct (reading l) as [e|o]; [|by apply Helse; auto].
    destruct (read_step _ _ _ r e (lw l)) as [[w e'] o] eqn:E. apply Helse; try done. right. by eapply else_read.
  - destruct (deciding l) as [[s o]|] eqn:Hn; [|by apply Helse; auto].
    unfold interleaved in Hd. rewrite Hn in Hd.
    destruct (perform keys cfg s o (lw l)) as [w []] eqn:E.
    + apply advances_same. by eapply dx_perform.
    + eexists k, (closer s). split; [lia|]. split; [by eapply dx_leave|right; by eauto].
  - destruct (_ <? _); by apply Helse; auto.
  - apply Helse; try done. right. apply else_token.
  - apply Helse; try done. right. by apply else_refused.
  - apply advances_same. eapply dx_flag; [done|by left].
  - destruct (reading l); [by apply Helse; auto|]. destruct (told l); [by apply Helse; auto|].
    apply advances_same. unfold interleaved in *. cbn [popped deciding lw].
    set (w := if stopped (lw l) then lw l else _).
    assert (duplex st k (senders (popped l)) reqs (deciding l) w) as Hw.
    { unfold w. destruct (stopped (lw l)); [done|]. eapply dx_flag; [done|]. right. eauto. }
    unfold out_send. destruct (writer_gone w) eqn:Hg; [done|]. by apply dx_shutdown.
Qed.

(** What is being decided was scheduled. *)
Lemma live_step_deciding a l s o :
  deciding (live_step a l) = Some (s, o) →
  deciding l = Some (s, o) ∨ ∃ s0, a = ActDecide s0 ∧ closer s = closer s0.
Proof using.
  assert (∀ s0 l0, deciding (writer_decides s0 l0) = Some (s, o) → closer s = closer s0) as Hw.
  { intros s0 l0. unfold writer_decides. destruct (decide_outgoing keys cfg s0 (lw l0)). by intros [= <- _]. }
  destruct a as [r|s0|p|c|t|c| |]; cbn [live_step]; auto.
  - destruct (reading l); [|auto]. destruct (read_step _ _ _ _ _ _) as [[w e] o']. auto.
  - destruct (writer_gone (lw l)); [auto|]. destruct (deciding l) eqn:Hn; [rewrite Hn; auto|].
    intros E. right. exists s0. split; [done|]. revert E.
    destruct (out_queue (lw l)); [|apply Hw].
    destruct (arm s0); try apply Hw; [destruct (told l); [apply Hw|by rewrite Hn]|].
    unfold takes_command. destruct (inbox l); [by rewrite Hn|]. by intros E%Hw.
  - destruct (deciding l) as [[s1 o1]|] eqn:Hn; [|by rewrite Hn]. by destruct (perform keys cfg s1 o1 (lw l)) as [w []].
  - destruct (_ <? _); auto.
  - destruct (reading l); [auto|]. destruct (told l); auto.
Qed.

(** ** What a schedule keeps *)

Context {AL : AesCbcLaws} {BL : Base64Laws} (Hkeys : wf_keys keys).

Section stepped.
Context (R : relation (World S H)) {HR : Stepped keys R}.

Lemma stepped_decides s l : R (lw l) (lw (writer_decides s l)).
Proof using HR.
  unfold writer_decides. pose proof (stepped_decide keys R cfg s (lw l)) as Hk.
  by destruct (decide_outgoing keys cfg s (lw l)).
Qed.

(** A step of the schedule is a step of a task, but for the supervisor's own
    reaction to the end of the reader. *)
Lemma live_step_stepped a l st k reqs :
  wf_action a → interleaved st k reqs l →
  told (live_step a l) = told l ∨ (∀ w, R w (upd_shared (set_state Reconnecting) w)) →
  R (lw l) (lw (live_step a l)).
Proof using AL BL Hkeys HR.
  intros Ha Hd. destruct a as [r|s|p|c|t|c| |]; cbn [live_step]; cbn [wf_action] in Ha; intros Ht.
  - destruct (reading l) as [e|o]; [|reflexivity].
    destruct (read_step _ _ _ r e (lw l)) as [[w e'] o] eqn:E. by eapply stepped_read_step.
  - destruct (writer_gone (lw l)); [reflexivity|]. destruct (deciding l); [reflexivity|].
    destruct (out_queue (lw l)); [|apply stepped_decides].
    destruct (arm s); try apply stepped_decides; [destruct (told l); [apply stepped_decides|reflexivity]|].
    unfold takes_command. destruct (inbox l); [reflexivity|].
    match goal with |- R _ (lw (writer_decides ?s0 ?l0)) => exact (stepped_decides s0 l0) end.
  - destruct (deciding l) as [[s o]|] eqn:Hn; [|reflexivity].
    pose proof (duplex_inv keys idle_timeout send_failed cfg Hkeys _ _ _ _ _ _ Hd) as Hi.
    destruct Hi as [_ _ Hpc _ _]. rewrite Hn in Hpc. destruct Hpc as [Hc _].
    pose proof (stepped_perform keys R idle_timeout send_failed cfg s o (lw l) Hc) as Hp.
    destruct (perform keys cfg s o (lw l)) as [w []]; [done|].
    cbn [lw set_deciding set_reading set_lw]. transitivity w; [done|apply (stepped_leave keys R)].
  - destruct (_ <? _); reflexivity.
  - apply (st_token keys).
  - apply (st_count keys). by destruct Ha as [-> | ->].
  - by apply (st_free keys).
  - destruct (reading l); [reflexivity|]. destruct (told l) eqn:Ht0; [reflexivity|].
    destruct Ht as [[=]|Ht]. cbn [lw]. eapply transitivity; [|apply (stepped_out_send keys R)].
    destruct (stopped (lw l)); [reflexivity|apply Ht].
Qed.
End stepped.

(** Everything but the supervisor's own reaction keeps the connection state. *)
Lemma live_step_kept a l st k reqs :
  wf_action a → interleaved st k reqs l →
  lasting (lw l) (lw (live_step a l)) ∧ (told (live_step a l) = told l → kept (lw l) (lw (live_step a l))).
Proof using AL BL Hkeys.
  intros Ha Hd. split; [|intros Ht]; eapply live_step_stepped; eauto using lasting_stepped, kept_stepped.
  right. intros w. by split.
Qed.

Lemma writer_decides_told s l : told (writer_decides s l) = told l.
Proof using. unfold writer_decides. by destruct (decide_outgoing keys cfg s (lw l)). Qed.

Lemma live_step_told a l : told l = true → told (live_step a l) = true.
Proof using.
  intros Ht. destruct a as [r|s|p|c|t|c| |]; cbn [live_step]; try done.
  - destruct (reading l); [|done]. by destruct (read_step _ _ _ _ _ _) as [[w e] o].
  - destruct (writer_gone (lw l)); [done|]. destruct (deciding l); [done|].
    destruct (out_queue (lw l)); [|by rewrite writer_decides_told].
    destruct (arm s); rewrite ?Ht, ?writer_decides_told; try done.
    unfold takes_command. destruct (inbox l); [done|]. by rewrite writer_decides_told.
  - destruct (deciding l) as [[s o]|]; [|done]. by destruct (perform keys cfg s o (lw l)) as [w []].
  - by destruct (_ <? _).
  - destruct (reading l); [done|]. by rewrite Ht.
Qed.

(** The commands that enter the channel over a schedule. *)
Fixpoint arrivals (acts : list (Action S H)) l : list IoCommand :=
  match acts with
  | [] => []
  | a :: acts => enqueued a l ++ arrivals acts (live_step a l)
  end.

Definition closers (acts : list (Action S H)) : list Sender :=
  concat (map (λ a, match a with ActDecide s => closer s | _ => [] end) acts).

(** A session in the state a schedule has brought it to; [own] are the waiters of
    requests the writer may have made for itself. *)
Record session_of (st : SaltState) (w0 : World S H) (own : list Sender) l : Prop := {
  so_run : ∃ k reqs, interleaved st k reqs l ∧ reqs ⊆ own;
  so_deciding s o : deciding l = Some (s, o) → closer s ⊆ own;
  so_lasting : lasting w0 (lw l);
  so_state : told l = false → kept w0 (lw l);
}.

Lemma live_step_session a l st w0 own :
  wf_action a → session_of st w0 own l → session_of st w0 (own ++ closers [a]) (live_step a l).
Proof using AL BL Hkeys.
  intros Ha [(k & reqs & Hd & Hreqs) Hdec Hl Hs].
  destruct (live_step_kept a l st k reqs Ha Hd) as [Hl' Hs']. split.
  - destruct (live_step_duplex a l st k reqs Ha Hd) as (k' & reqs' & _ & Hd' & Hr). exists k', reqs'. split; [done|].
    destruct Hr as [->|(s & o & E & ->)]; [set_solver|]. specialize (Hdec s o E). set_solver.
  - intros s o [E|(s0 & -> & ->)]%live_step_deciding; [specialize (Hdec s o E); set_solver|].
    unfold closers. cbn [map concat]. rewrite app_nil_r. set_solver.
  - by transitivity (lw l).
  - intros Ht. assert (told l = false) as Htl.
    { destruct (told l) eqn:E; [|done]. by rewrite (live_step_told a l E) in Ht. }
    transitivity (lw l); [by apply Hs|]. apply Hs'. congruence.
Qed.

Lemma run_live_session acts l st w0 own :
  Forall wf_action acts → session_of st w0 own l → session_of st w0 (own ++ closers acts) (run_live acts l).
Proof using AL BL Hkeys.
  revert l own. induction acts as [|a acts IH]; intros l own Hacts Hl; [by rewrite app_nil_r|].
  inversion Hacts as [|? ? Ha Hacts']; subst. cbn [run_live fold_left].
  assert (own ++ closers (a :: acts) = (own ++ closers [a]) ++ closers acts) as ->.
  { unfold closers. cbn [map concat]. by rewrite app_nil_r, <- app_assoc. }
  apply IH; [done|]. by apply live_step_session.
Qed.

(** A preorder the tasks and the supervisor's reaction respect holds over a schedule. *)
Lemma run_live_stepped (R : relation (World S H)) {HR : Stepped keys R} acts l st k reqs :
  (∀ w, R w (upd_shared (set_state Reconnecting) w)) →
  Forall wf_action acts → interleaved st k reqs l → R (lw l) (lw (run_live acts l)).
Proof using AL BL Hkeys.
  intros Hs Hacts. revert l k reqs. induction Hacts as [|a acts Ha _ IH]; intros l k reqs Hd; [reflexivity|].
  cbn [run_live fold_left]. transitivity (lw (live_step a l)).
  - eapply live_step_stepped; eauto.
  - destruct (live_step_duplex a l st k reqs Ha Hd) as (k' & reqs' & _ & Hd' & _). by eapply IH.
Qed.

Lemma live_start_session w cs :
  fresh (w_salt w) w → session_of (w_salt w) w [] (live_start w cs).
Proof using.
  intros Hf. split; [|done|done|done]. exists 0%nat, []. split; [by apply dx_start|done].
Qed.

Lemma run_live_inbox acts l :
  popped (run_live acts l) ++ inbox (run_live acts l) = popped l ++ inbox l ++ arrivals acts l.
Proof using.
  revert l. induction acts as [|a acts IH]; intros l; cbn [run_live fold_left arrivals]; [by rewrite app_nil_r|].
  unfold run_live in IH. rewrite IH, (app_assoc (popped _)), live_step_inbox, <- !app_assoc. done.
Qed.
End live.
