(* ===== verification/Supervisor.v ===== *)
(** * client/io.rs: the supervisor

    One run of the supervisor connects, runs a session, and decides whether to
    connect again. What the network, the Miniserver and the callers do is an input
    of each session and of each wait; the connected phase is a schedule of
    [Live]. The supervisor's own records of what it has told the outside
    ([ready_log]), of the commands that have gone through its channel and of the
    sessions it has begun are what the theorems speak about. *)

From S2P Require Import Prelude RustStr External Models Errors Session Crypto Auth Store State Scan.
From S2P Require Import Pending Uuid Header EventTables Handler World Reader Writer Duplex Tls Http Config.
From S2P Require Import Handshake Steps Frame Live.

Inductive SessionOutcome :=
| SoStopped
| Disconnected (close_code : option Z)
| SoFailed (e : Error).

(** How the wait for the writer's task ends. *)
Inductive Join := Joined | WriterPanicked | JoinTimeout.

(** What callers do while no session runs. *)
Inductive Outside := OEnqueue (c : IoCommand) | ORefused (c : Counter) | OStop.

(** The inputs of one session: the callers before it is connected, the network for
    each exchange, the randomness, the clocks, the Miniserver's side of the
    handshake, the schedule of the connected phase, how the writer's task ends and
    how long the session has lasted. *)
Record SessionEnv (S H : Type) := {
  before : list Outside;
  probe_net : Network;
  pin_net : Network;
  key_net : Network;
  ws_net : Net;
  rng_key : bytes;
  rng_iv : bytes;
  rng_rsa : bytes;
  hs_reads : list HRead;
  hs_writes : list (option bytes);
  hs_draws : nat → Draw;
  hs_now : Z;
  mono : Z;
  wall : Z;
  acts : list (Action S H);
  join : Join;
  lasted : Z;
}.
Arguments before {S H}. Arguments probe_net {S H}. Arguments pin_net {S H}. Arguments key_net {S H}.
Arguments ws_net {S H}. Arguments rng_key {S H}. Arguments rng_iv {S H}. Arguments rng_rsa {S H}.
Arguments hs_reads {S H}. Arguments hs_writes {S H}. Arguments hs_draws {S H}. Arguments hs_now {S H}.
Arguments mono {S H}. Arguments wall {S H}. Arguments acts {S H}. Arguments join {S H}. Arguments lasted {S H}.
Arguments Build_SessionEnv {S H}.

(** The wait between two sessions: when it starts, and what callers have done and
    what the clock says at each look at the stop flag. *)
Record SupEnv (S H : Type) := {
  session : SessionEnv S H;
  wait_from : Z;
  polls : list (list Outside * Z);
}.
Arguments session {S H}. Arguments wait_from {S H}. Arguments polls {S H}. Arguments Build_SupEnv {S H}.

(** What has happened so far: the answers to [ready], the sessions begun and the
    productive ones among them, the commands that entered the channel, those the
    writers have taken and those lost with a writer that did not finish, the answers
    to waiters and the waiters of a session that has not ended or not in time. *)
Record Log := {
  ready_log : list (Result unit);
  sessions : nat;
  productive : nat;
  entered : list IoCommand;
  taken : list IoCommand;
  lost : list IoCommand;
  answered : list Delivery;
  adrift : list Sender;
}.
Definition no_log : Log :=
  {| ready_log := []; sessions := 0; productive := 0; entered := []; taken := []; lost := [];
     answered := []; adrift := [] |}.

Record Sup (S H : Type) := {
  sv_shared : SharedState S;
  sv_guard : HandlerGuard H;
  sv_tls : TlsContext;
  sv_stopped : bool;
  (** whether [ready] is still to be answered *)
  sv_ready : bool;
  (** the command channel with its content; [None] when it is lost *)
  sv_rx : option (list IoCommand);
  sv_attempt : Z;
  sv_ever : bool;
  sv_log : Log;
}.
Arguments sv_shared {S H}. Arguments sv_guard {S H}. Arguments sv_tls {S H}. Arguments sv_stopped {S H}.
Arguments sv_ready {S H}. Arguments sv_rx {S H}. Arguments sv_attempt {S H}. Arguments sv_ever {S H}.
Arguments sv_log {S H}. Arguments Build_Sup {S H}.

(** [Ended]: the supervisor has returned. [Died]: its task has panicked. [Ongoing]:
    the inputs are used up. *)
Inductive Status := Ongoing | Ended | Died.

Section setters.
Context {S H : Type}.
Implicit Types s : Sup S H.

Definition upd_sh (f : SharedState S → SharedState S) s : Sup S H :=
  {| sv_shared := f (sv_shared s); sv_guard := sv_guard s; sv_tls := sv_tls s; sv_stopped := sv_stopped s;
     sv_ready := sv_ready s; sv_rx := sv_rx s; sv_attempt := sv_attempt s; sv_ever := sv_ever s; sv_log := sv_log s |}.
Definition set_guard (g : HandlerGuard H) s : Sup S H :=
  {| sv_shared := sv_shared s; sv_guard := g; sv_tls := sv_tls s; sv_stopped := sv_stopped s;
     sv_ready := sv_ready s; sv_rx := sv_rx s; sv_attempt := sv_attempt s; sv_ever := sv_ever s; sv_log := sv_log s |}.
Definition set_tls (c : TlsContext) s : Sup S H :=
  {| sv_shared := sv_shared s; sv_guard := sv_guard s; sv_tls := c; sv_stopped := sv_stopped s;
     sv_ready := sv_ready s; sv_rx := sv_rx s; sv_attempt := sv_attempt s; sv_ever := sv_ever s; sv_log := sv_log s |}.
Definition set_stop (b : bool) s : Sup S H :=
  {| sv_shared := sv_shared s; sv_guard := sv_guard s; sv_tls := sv_tls s; sv_stopped := b;
     sv_ready := sv_ready s; sv_rx := sv_rx s; sv_attempt := sv_attempt s; sv_ever := sv_ever s; sv_log := sv_log s |}.
Definition set_rx (rx : option (list IoCommand)) s : Sup S H :=
  {| sv_shared := sv_shared s; sv_guard := sv_guard s; sv_tls := sv_tls s; sv_stopped := sv_stopped s;
     sv_ready := sv_ready s; sv_rx := rx; sv_attempt := sv_attempt s; sv_ever := sv_ever s; sv_log := sv_log s |}.
Definition set_tries (n : Z) s : Sup S H :=
  {| sv_shared := sv_shared s; sv_guard := sv_guard s; sv_tls := sv_tls s; sv_stopped := sv_stopped s;
     sv_ready := sv_ready s; sv_rx := sv_rx s; sv_attempt := n; sv_ever := sv_ever s; sv_log := sv_log s |}.
Definition set_ever s : Sup S H :=
  {| sv_shared := sv_shared s; sv_guard := sv_guard s; sv_tls := sv_tls s; sv_stopped := sv_stopped s;
     sv_ready := sv_ready s; sv_rx := sv_rx s; sv_attempt := sv_attempt s; sv_ever := true; sv_log := sv_log s |}.
Definition upd_log (f : Log → Log) s : Sup S H :=
  {| sv_shared := sv_shared s; sv_guard := sv_guard s; sv_tls := sv_tls s; sv_stopped := sv_stopped s;
     sv_ready := sv_ready s; sv_rx := sv_rx s; sv_attempt := sv_attempt s; sv_ever := sv_ever s; sv_log := f (sv_log s) |}.

(** [if let Some(tx) = ready.take() { tx.send(r) }] *)
Definition answer_ready (r : Result unit) s : Sup S H :=
  if sv_ready s then
    {| sv_shared := sv_shared s; sv_guard := sv_guard s; sv_tls := sv_tls s; sv_stopped := sv_stopped s;
       sv_ready := false; sv_rx := sv_rx s; sv_attempt := sv_attempt s; sv_ever := sv_ever s;
       sv_log := {| ready_log := ready_log (sv_log s) ++ [r]; sessions := sessions (sv_log s);
                    productive := productive (sv_log s); entered := entered (sv_log s);
                    taken := taken (sv_log s); lost := lost (sv_log s); answered := answered (sv_log s);
                    adrift := adrift (sv_log s) |} |}
  else s.
End setters.

Definition log_session (l : Log) : Log :=
  {| ready_log := ready_log l; sessions := Datatypes.S (sessions l); productive := productive l;
     entered := entered l; taken := taken l; lost := lost l; answered := answered l; adrift := adrift l |}.
Definition log_productive (l : Log) : Log :=
  {| ready_log := ready_log l; sessions := sessions l; productive := Datatypes.S (productive l);
     entered := entered l; taken := taken l; lost := lost l; answered := answered l; adrift := adrift l |}.
Definition log_entered (cs : list IoCommand) (l : Log) : Log :=
  {| ready_log := ready_log l; sessions := sessions l; productive := productive l;
     entered := entered l ++ cs; taken := taken l; lost := lost l; answered := answered l; adrift := adrift l |}.
Definition log_phase (cs : list IoCommand) (ds : list Delivery) (txs : list Sender) (l : Log) : Log :=
  {| ready_log := ready_log l; sessions := sessions l; productive := productive l;
     entered := entered l; taken := taken l ++ cs; lost := lost l; answered := answered l ++ ds;
     adrift := adrift l ++ txs |}.
Definition log_lost (cs : list IoCommand) (l : Log) : Log :=
  {| ready_log := ready_log l; sessions := sessions l; productive := productive l;
     entered := entered l; taken := taken l; lost := lost l ++ cs; answered := answered l;
     adrift := adrift l |}.

Section supervisor.
Context {S H : Type} {TS : TokenStore S} {LH : LoxHandler H}.
Context {zc : ZeroCopy} {J : Json} {D : Digests} {X : Hex} {C : X509} {RL : Rustls} {UR : Url} {R : Rsa}.
Context {U : Utf8Text} {A : AesCbc} {B : Base64} {P : PercentDecode}.
(** the configuration, the endpoints of the URL, the text of the error of a reader
    that cannot reach the writer *)
Context (cfg : ConnectConfig S) (ep : Endpoints) (send_failed : bytes).
Implicit Types s : Sup S H.

(** ** Callers *)

Definition outside (o : Outside) s : Sup S H :=
  match o with
  | OEnqueue c =>
      match sv_rx s with
      | Some cs =>
          if zlen cs <? Z.max (command_channel_depth cfg) 1
          then upd_log (log_entered [c]) (set_rx (Some (cs ++ [c])) s) else s
      | None => s
      end
  | ORefused c => upd_sh (upd_metrics (bump c)) s
  | OStop => set_stop true s
  end.
Definition outsides (os : list Outside) s : Sup S H := fold_left (λ s o, outside o s) os s.

(** ** Ending and waiting *)

Definition finish (error : option Error) s : Sup S H :=
  let s := upd_sh (set_state CClosed) s in
  let s := answer_ready (Err (default Stopped error)) s in
  set_guard (lifecycle EvClosed (sv_guard s)) s.

Definition SLICE : Z := 250000000.

(** [Asleep]: still so when the polls are used up; [Woken]: a stop is requested;
    [TooLong]: the deadline is past what the clock can represent, and the addition
    panics. *)
Inductive Wait := Asleep | Slept | Woken | TooLong.

Definition MAX_INSTANT : Z := (2 ^ 63 - 1) * 1000000000 + 999999999.

Fixpoint sleep_loop (deadline : Z) (polls : list (list Outside * Z)) s : Sup S H * Wait :=
  match polls with
  | [] => (s, Asleep)
  | (os, now) :: polls =>
      let s := outsides os s in
      if sv_stopped s then (s, Woken)
      else if deadline <=? now then (s, Slept)
      else sleep_loop deadline polls s
  end.

Definition sleep_unless_stopped (from total : Z) (polls : list (list Outside * Z)) s : Sup S H * Wait :=
  if MAX_INSTANT <? from + total then (s, TooLong) else sleep_loop (from + total) polls s.

Definition close_for_good s : Sup S H :=
  let s := upd_sh (set_state CClosed) s in
  set_guard (lifecycle EvClosed (sv_guard s)) s.

(** [attempt] is a [u32]. *)
Definition wait_reconnect (from : Z) (polls : list (list Outside * Z)) (backoff : Backoff) s : Sup S H * Wait :=
  if negb (should_continue (sv_attempt s) (max_reconnect_attempts cfg)) then (close_for_good s, Woken)
  else
    let s := set_tries ((sv_attempt s + 1) mod 2 ^ 32) s in
    let s := upd_sh (upd_metrics (bump reconnect_attempts)) s in
    let delay := match backoff with Normal => connect_delay_secs cfg | Long => long_backoff_secs cfg end in
    let s := upd_sh (set_state Reconnecting) s in
    match sleep_unless_stopped from (from_secs delay) polls s with
    | (s, Woken) => (close_for_good s, Woken)
    | r => r
    end.

(** ** Connecting *)

Definition http : HttpClient := http_new ep.

Definition preflight (net : Network) : M TlsContext unit := λ c,
  if negb (receive_updates cfg) && negb (local_only cfg) then (c, Ok tt)
  else
    match api_info net http c with
    | (c, Err _) => (c, Ok tt)
    | (c, Ok info) =>
        (c, if local_only cfg && bool_decide (local info = Some false) then Err NotLocal
            else if receive_updates cfg && bool_decide (has_event_slots info = Some false) then Err NoEventSlots
            else Ok tt)
    end.

Definition learn_pin (net : Network) : M TlsContext unit := λ c,
  if needs_pin_bootstrap c then
    match bootstrap_pin net http (c_username cfg) (c_password cfg) c with
    | (c, Err (TlsPinMismatch expected actual)) => (c, Err (TlsPinMismatch expected actual))
    | (c, _) => (c, Ok tt)
    end
  else (c, Ok tt).

(** Up to the WebSocket; the wrapped session key, or [None] for a panic on the way. *)
Definition establish (e : SessionEnv S H) (keys : SessionKeys) : M TlsContext (option bytes) :=
  _ ← preflight (probe_net e);
  _ ← learn_pin (pin_net e);
  public_key ← get_public_key (key_net e) http (c_username cfg) (c_password cfg);
  match (pem ← public_key; wrap_session_key (rng_rsa e) pem (session_payload keys)) with
  | None => mret None
  | Some wrapped =>
      session_b64 ← lift wrapped;
      _ ← ws_connect (ws_net e) ep;
      mret (Some session_b64)
  end.

(** ** A session *)

(** [Running]: the inputs end while the session goes on. *)
Inductive SessionRun :=
| Running
| Panicked
| Done (outcome : SessionOutcome) (connected_for : option Z).

Definition session_world (sh : SharedState S) (g : HandlerGuard H) (salt : SaltState) (stop : bool) : World S H :=
  {| shared := sh; pending := new_queue; visu := []; liveness := new_liveness; guarded := g; w_salt := salt;
     stopped := stop; out_queue := []; writer_gone := false; wire := []; aborted := false; delivered := [] |}.

Definition writer_cfg : WriterConfig :=
  {| username := c_username cfg; keepalive_period := from_secs (keepalive_secs cfg);
     command_timeout := from_secs (command_timeout_secs cfg);
     max_missed_keepalives := c_max_missed_keepalives cfg; max_pending := max_pending_commands cfg;
     kill_token_on_stop := c_kill_token_on_stop cfg |}.

Definition idle_window : Z := from_secs (read_idle_timeout_secs cfg).
Definition channel_depth : Z := Z.max (command_channel_depth cfg) 1.
Definition session_keys (e : SessionEnv S H) : SessionKeys := generate (rng_key e) (rng_iv e).

(** The bookkeeping once the handshake is through. *)
Definition connected (e : SessionEnv S H) (is_reconnect : bool) s : Sup S H :=
  let s := upd_sh (set_state Connected) s in
  let s := upd_sh (upd_metrics (mark_connected (mono e) (wall e))) s in
  let s := upd_sh (upd_metrics (bump (if is_reconnect then reconnects else connects))) s in
  let s := set_guard (lifecycle (if is_reconnect then EvReconnected else EvConnected) (sv_guard s)) s in
  answer_ready (Ok tt) s.

(** The connected phase, on the salt state the handshake has left. *)
Definition phase_start (salt : SaltState) s : Live S H :=
  live_start (session_world (sv_shared s) (sv_guard s) salt (sv_stopped s)) (default [] (sv_rx s)).
Definition phase_run (e : SessionEnv S H) (l : Live S H) : Live S H :=
  run_live (session_keys e) idle_window send_failed writer_cfg channel_depth (acts e) l.
Definition phase_arrivals (e : SessionEnv S H) (l : Live S H) : list IoCommand :=
  arrivals (session_keys e) idle_window send_failed writer_cfg channel_depth (acts e) l.

(** What the phase leaves behind. *)
Definition absorb (l : Live S H) (arrived : list IoCommand) s : Sup S H :=
  let s := upd_sh (λ _, shared (lw l)) s in
  let s := set_guard (guarded (lw l)) s in
  let s := set_stop (stopped (lw l)) s in
  let s := set_rx (Some (inbox l)) s in
  let s := upd_log (log_entered arrived) s in
  upd_log (log_phase (popped l) (delivered (lw l)) (waiting (entries (pending (lw l))))) s.

Definition outcome_of (stop : bool) (o : ReadOutcome) : SessionOutcome :=
  if stop then SoStopped
  else
    match o with
    | ROClosed close_code => Disconnected close_code
    | IdleTimeout => SoFailed (Timeout (bs "no frame within the reader idle window"))
    | Failed e => SoFailed e
    end.

Definition converse (e : SessionEnv S H) (salt : SaltState) s : Sup S H * SessionRun :=
  let l0 := phase_start salt s in
  let l := phase_run e l0 in
  let s := absorb l (phase_arrivals e l0) s in
  match reading l, told l with
  | inr o, true =>
      let result := Done (outcome_of (sv_stopped s) o) (Some (lasted e)) in
      match join e with
      | Joined => (s, if writer_gone (lw l) then result else Running)
      | _ => (upd_log (log_lost (inbox l)) (set_rx None s), result)
      end
  | _, _ => (s, Running)
  end.

(** The handshake, on the objects of a new session. *)
Definition session_handshake (e : SessionEnv S H) (session_b64 : bytes) s : HState S H * Result unit :=
  handshake (session_keys e) cfg (hs_draws e) (hs_now e) session_b64
    {| hw := session_world (sv_shared s) (sv_guard s) salt_default (sv_stopped s);
       hreads := hs_reads e; hwrites := hs_writes e; htick := 0 |}.

Definition session_once (e : SessionEnv S H) (is_reconnect : bool) s : Sup S H * SessionRun :=
  let s := outsides (before e) (upd_log log_session s) in
  let keys := session_keys e in
  match establish e keys (sv_tls s) with
  | (c, Err err) => (set_tls c s, Done (SoFailed err) None)
  | (c, Ok None) => (set_tls c s, Panicked)
  | (c, Ok (Some session_b64)) =>
      let s := set_tls c s in
      let '(hs, r) := session_handshake e session_b64 s in
      let s := set_guard (guarded (hw hs)) (upd_sh (λ _, shared (hw hs)) s) in
      match r with
      | Err err => (s, Done (SoFailed err) None)
      | Ok _ => converse e (w_salt (hw hs)) (connected e is_reconnect s)
      end
  end.

(** ** The loop *)

(** What follows a session: the end, or a wait. *)
Definition after_session (o : SessionOutcome) s : Sup S H * option Backoff :=
  match o with
  | SoStopped => (finish (Some Stopped) s, None)
  | Disconnected close_code =>
      let s := upd_sh (upd_metrics (mark_disconnected close_code)) s in
      let s := set_guard (lifecycle (EvConnectionClosed close_code) (sv_guard s)) s in
      let s := if token_survives_close close_code then s else upd_sh clear_shared_token s in
      match terminal_close close_code with
      | Some err => (finish (Some err) s, None)
      | None => (s, Some (backoff_for_close close_code))
      end
  | SoFailed err =>
      let s := upd_sh (upd_metrics (bump reconnect_failures)) s in
      if is_terminal err then (finish (Some err) s, None)
      else if negb (sv_ever s) then (finish (Some err) s, None)
      else (s, Some (if needs_long_backoff err then Long else Normal))
  end.

(** The effect of how long the session was connected. *)
Definition note_length (connected_for : option Z) s : Sup S H :=
  match connected_for with
  | None => s
  | Some len =>
      let s := set_ever s in
      if from_secs PRODUCTIVE_SESSION_SECS <=? len then upd_log log_productive (set_tries 0 s) else s
  end.

Definition iteration (e : SupEnv S H) s : Sup S H * option Status :=
  if sv_stopped s then (finish (Some Stopped) s, Some Ended)
  else if panicked (sv_guard s) then (finish (Some HandlerPanic) s, Some Ended)
  else
    let s := upd_sh (set_state (if sv_ever s then Reconnecting else Connecting)) s in
    match sv_rx s with
    | None => (finish None s, Some Ended)
    | Some _ =>
        match session_once (session e) (sv_ever s) s with
        | (s, Running) => (s, Some Ongoing)
        | (s, Panicked) => (s, Some Died)
        | (s, Done o connected_for) =>
            match after_session o (note_length connected_for s) with
            | (s, None) => (s, Some Ended)
            | (s, Some backoff) =>
                match wait_reconnect (wait_from e) (polls e) backoff s with
                | (s, Asleep) => (s, Some Ongoing)
                | (s, TooLong) => (s, Some Died)
                | (s, Woken) => (s, Some Ended)
                | (s, Slept) => (s, None)
                end
            end
        end
    end.

Fixpoint supervise (es : list (SupEnv S H)) s : Sup S H * Status :=
  match es with
  | [] => (s, Ongoing)
  | e :: es =>
      match iteration e s with
      | (s, Some st) => (s, st)
      | (s, None) => supervise es s
      end
  end.
End supervisor.

(** The whole task: the endpoints and the TLS configuration first. *)
Definition run_supervisor {S H} `{!TokenStore S, !LoxHandler H, !ZeroCopy, !Json, !Digests, !Hex, !X509, !Rustls, !Url, !Rsa}
    `{!Utf8Text, !AesCbc, !Base64, !PercentDecode} (cfg : ConnectConfig S) (builder : result bytes unit)
    (send_failed : bytes) (h : H) (sh : SharedState S) (cs : list IoCommand) (es : list (SupEnv S H)) :
    Sup S H * Status :=
  let start c := {| sv_shared := sh; sv_guard := new_guard h; sv_tls := c; sv_stopped := false; sv_ready := true;
                    sv_rx := Some cs; sv_attempt := 0; sv_ever := false; sv_log := log_entered cs no_log |} in
  match (ep ← from_loxone_url (loxone_url cfg); c ← tls_new builder (tls cfg); Ok (c, ep)) with
  | Err err => (finish (Some err) (start {| tls_mode := tls cfg; pin := None; verifier := WebPkiVerifier |}), Ended)
  | Ok (c, ep) => supervise cfg ep send_failed es (start c)
  end.

(** ** Samples *)

#[local] Existing Instances zerocopy_model json_model digests_model hex_model aes_model base64_model
  percent_model no_store reader_utf8 x509_model rustls_model rsa_model idle_handler.

(** URLs that are a plain host. *)
#[export] Instance url_model : Url := {|
  UrlT := bytes;
  url_parse s := match strip_prefix (bs "http://") s with
                 | Some h => Ok h
                 | None => Err (bs "relative URL without a base")
                 end;
  host_str := Some;
  scheme _ := bs "http";
  url_port _ := None;
  url_base h := bs "http://" ++ h ++ bs "/" |}.

Definition sample_cfg : ConnectConfig unit :=
  {| loxone_url := bs "miniserver.local"; c_username := bs "admin"; c_password := bs "secret"; tls := WebPki;
     receive_updates := true; local_only := false; max_reconnect_attempts := 3;
     client_uuid := DEFAULT_CLIENT_UUID; client_info := DEFAULT_CLIENT_INFO;
     token_permission := App; keepalive_secs := KEEP_ALIVE_PERIOD_SECS;
     connect_delay_secs := CONNECT_DELAY_SECS; long_backoff_secs := LONG_BACKOFF_SECS;
     command_timeout_secs := COMMAND_TIMEOUT_SECS; read_idle_timeout_secs := READ_IDLE_TIMEOUT_SECS;
     c_max_missed_keepalives := MAX_MISSED_KEEPALIVES; max_pending_commands := MAX_PENDING_COMMANDS;
     command_channel_depth := COMMAND_CHANNEL_DEPTH; token_store := None; c_kill_token_on_stop := true |}.
Definition no_net : Net :=
  {| tcp := Err (bs "refused"); server_name := Ok tt; peer := peer_named []; build := Ok tt; upgrade := Ok tt; http1 := Ok tt; status := Ok 200; body := Ok [] |}.

(** A session whose network is down; a caller asks for a command and then stops
    the client. The schedule is the one it would run once connected. *)
Definition sample_session : SessionEnv unit unit :=
  {| before := [OEnqueue (Encrypted (bs "jdev/sps/io") 7%nat); ORefused controls_rejected_offline; OStop];
     probe_net _ := None; pin_net _ := None; key_net _ := None; ws_net := no_net;
     rng_key := replicate 32 Byte.x01; rng_iv := replicate 16 Byte.x02; rng_rsa := [];
     hs_reads := []; hs_writes := [];
     hs_draws _ := {| rng_salt := replicate 16 Byte.x03; now_check := 0; now_stamp := 0 |};
     hs_now := 0; mono := 0; wall := 0;
     acts := [ActEnqueue DropSession; ActRefused controls_rejected_backpressure; ActStop; ActWindDown];
     join := Joined; lasted := 0 |}.
Definition sample_env : SupEnv unit unit :=
  {| session := sample_session; wait_from := 0; polls := [([OStop], 0)] |}.
