(* ===== verification/Lifecycle.v ===== *)
(** * What the supervisor promises the outside

    The lifecycle events, the answer to [connect], the connection state and the
    counters of connections are consistent over every run of the supervisor,
    whatever the network, the Miniserver, the handler and the callers do. *)

From S2P Require Import Prelude RustStr External Models Errors Session Crypto Auth Store State Scan.
From S2P Require Import Pending Uuid Header EventTables Handler World Reader Writer Duplex Tls Http Config.
From S2P Require Import Handshake Steps Frame Live Supervisor.

(** ** The order of lifecycle events *)

Inductive Phase := Fresh | Up | Down | Over.
#[export] Instance Phase_eq_dec : EqDecision Phase.
Proof. solve_decision. Defined.

#[export] Instance ClientEvent_eq_dec : EqDecision ClientEvent.
Proof. solve_decision. Defined.
#[export] Instance Status_eq_dec : EqDecision Status.
Proof. solve_decision. Defined.

(** A session may be lost without a [ConnectionClosed]: then a [Reconnected] follows
    a connection directly. *)
Definition next_phase (p : Phase) (e : ClientEvent) : option Phase :=
  match p, e with
  | Fresh, EvConnected => Some Up
  | Up, EvConnectionClosed _ => Some Down
  | Up, EvReconnected | Down, EvReconnected => Some Up
  | Over, _ => None
  | _, EvClosed => Some Over
  | _, _ => None
  end.
Definition phase_after (evs : list ClientEvent) : option Phase :=
  fold_left (λ o e, o ≫= λ p, next_phase p e) evs (Some Fresh).

Lemma phase_snoc evs e : phase_after (evs ++ [e]) = phase_after evs ≫= λ p, next_phase p e.
Proof. unfold phase_after. by rewrite fold_left_app. Qed.

Lemma phase_connected evs p :
  phase_after evs = Some p →
  match p with Fresh => evs = [] | Over => True | _ => EvConnected ∈ evs end.
Proof.
  revert p. induction evs as [|e evs IH] using rev_ind; intros p.
  { cbn. intros [= <-]. done. }
  rewrite phase_snoc. destruct (phase_after evs) as [q|]; [|done]. specialize (IH q eq_refl). cbn.
  destruct q, e; cbn; intros [= <-]; try done; set_solver.
Qed.

(** ** Counting events *)

Definition tally (f : ClientEvent → bool) (evs : list ClientEvent) : Z := zlen (filter (λ e, f e = true) evs).

Lemma tally_snoc f evs e : tally f (evs ++ [e]) = tally f evs + (if f e then 1 else 0).
Proof.
  unfold tally. rewrite filter_app, zlen_app. f_equal.
  destruct (f e) eqn:E; [rewrite filter_cons_True|rewrite filter_cons_False]; try done; congruence.
Qed.

Definition is_connected (e : ClientEvent) : bool := match e with EvConnected => true | _ => false end.
Definition is_reconnected (e : ClientEvent) : bool := match e with EvReconnected => true | _ => false end.
Definition is_connection_closed (e : ClientEvent) : bool :=
  match e with EvConnectionClosed _ => true | _ => false end.
Definition is_closed_with (code : option Z) (e : ClientEvent) : bool :=
  match e with EvConnectionClosed c => bool_decide (c = code) | _ => false end.

(** The counters are the events, at the width of the counters. *)
Record tallied (m : MetricsState) (evs : list ClientEvent) : Prop := {
  t_fields : length (counters m) = 14%nat;
  t_connects : counter m connects = tally is_connected evs mod 2 ^ 64;
  t_reconnects : counter m reconnects = tally is_reconnected evs mod 2 ^ 64;
  t_disconnects : counter m disconnects = tally is_connection_closed evs mod 2 ^ 64;
  t_codes code : default 0 (by_close_code m !! code) = tally (is_closed_with code) evs;
}.

Lemma counter_bump_eq c m : length (counters m) = 14%nat → counter (bump c m) c = fetch_add 1 (counter m c).
Proof.
  intros Hl. unfold counter, bump, bump_by. cbn [counters]. rewrite list_lookup_alter, decide_True by done.
  destruct (counters m !! field_index c) as [x|] eqn:E; [done|].
  apply lookup_ge_None in E. exfalso. rewrite Hl in E. destruct c; cbn in E; lia.
Qed.

Lemma bump_fields c n m : length (counters (bump_by c n m)) = length (counters m).
Proof. apply length_alter. Qed.

Lemma fetch_add_tally n : fetch_add 1 (n mod 2 ^ 64) = (n + 1) mod 2 ^ 64.
Proof. unfold fetch_add. by rewrite Z.add_mod_idemp_l. Qed.

Lemma tallied_other m evs e :
  tallied m evs → is_connected e = false → is_reconnected e = false → is_connection_closed e = false →
  tallied m (evs ++ [e]).
Proof.
  intros [Hl Hc Hr Hd Hm] E1 E2 E3. constructor; [done|..].
  - by rewrite tally_snoc, E1, Z.add_0_r.
  - by rewrite tally_snoc, E2, Z.add_0_r.
  - by rewrite tally_snoc, E3, Z.add_0_r.
  - intros code. rewrite tally_snoc, Hm. destruct e; cbn in E3 |- *; lia || done.
Qed.

Lemma tallied_up (b : bool) m evs :
  tallied m evs →
  tallied (bump (if b then reconnects else connects) m) (evs ++ [if b then EvReconnected else EvConnected]).
Proof.
  intros [Hl Hc Hr Hd Hm]. constructor.
  - by rewrite <- Hl, <- (bump_fields (if b then reconnects else connects) 1 m).
  - rewrite tally_snoc. destruct b; cbn.
    + unfold bump. by rewrite counter_bump_ne, Hc, Z.add_0_r.
    + by rewrite counter_bump_eq, Hc, fetch_add_tally.
  - rewrite tally_snoc. destruct b; cbn.
    + by rewrite counter_bump_eq, Hr, fetch_add_tally.
    + unfold bump. by rewrite counter_bump_ne, Hr, Z.add_0_r.
  - rewrite tally_snoc. destruct b; cbn; unfold bump; by rewrite counter_bump_ne, Hd, Z.add_0_r.
  - intros code. rewrite tally_snoc, <- Hm. destruct b; cbn; lia.
Qed.

Lemma tallied_down code m evs :
  tallied m evs → tallied (mark_disconnected code m) (evs ++ [EvConnectionClosed code]).
Proof.
  intros [Hl Hc Hr Hd Hm].
  assert (∀ c, counter (mark_disconnected code m) c = counter (bump disconnects m) c) as Hcounter by done.
  constructor.
  - by rewrite <- Hl, <- (bump_fields disconnects 1 m).
  - rewrite tally_snoc, Hcounter. cbn. unfold bump. by rewrite counter_bump_ne, Hc, Z.add_0_r.
  - rewrite tally_snoc, Hcounter. cbn. unfold bump. by rewrite counter_bump_ne, Hr, Z.add_0_r.
  - rewrite tally_snoc, Hcounter, counter_bump_eq, Hd by done. cbn. by rewrite fetch_add_tally.
  - intros c. rewrite tally_snoc. cbn. destruct (decide (code = c)) as [->|Hne].
    + rewrite bool_decide_true, lookup_insert_eq by done. cbn. by rewrite Hm.
    + rewrite bool_decide_false, lookup_insert_ne by done. by rewrite Hm, Z.add_0_r.
Qed.

Lemma tallied_kept {S} (s s' : SharedState S) evs :
  kept_shared s s' → tallied (metrics s) evs → tallied (metrics s') evs.
Proof.
  intros [Hc Hf _ Hm] [Tl Tc Tr Td Tm].
  constructor; rewrite ?Hf, ?(Hc connects), ?(Hc reconnects), ?(Hc disconnects), ?Hm by done; auto.
Qed.

(** ** The invariant *)

Section lifecycle.
Context {S H : Type} {TS : TokenStore S} {LH : LoxHandler H}.
Context {zc : ZeroCopy} {J : Json} {D : Digests} {X : Hex} {C : X509} {RL : Rustls} {UR : Url} {R : Rsa}.
Context {U : Utf8Text} {A : AesCbc} {B : Base64} {P : PercentDecode}.
Context {AL : AesCbcLaws} {BL : Base64Laws}.
Context (cfg : ConnectConfig S) (ep : Endpoints) (send_failed : bytes).
Implicit Types s : Sup S H.

(** The counters callers touch are those of refused controls; the schedule of a
    session is one of its tasks. *)
Definition wf_outside (o : Outside) : Prop :=
  match o with
  | ORefused c => c = controls_rejected_offline ∨ c = controls_rejected_backpressure
  | _ => True
  end.
Record wf_env (e : SupEnv S H) : Prop := {
  wf_before : Forall wf_outside (before (session e));
  wf_acts : Forall (wf_action (session_keys (session e)) (idle_window cfg) send_failed) (acts (session e));
  wf_polls : Forall (λ '(os, _), Forall wf_outside os) (polls e);
}.

(** What the supervisor does not do itself leaves its records alone. *)
Record carried s s' : Prop := {
  ca_shared : kept_shared (sv_shared s) (sv_shared s');
  ca_guard : kept_guard (sv_guard s) (sv_guard s');
  ca_stop : sv_stopped s = true → sv_stopped s' = true;
  ca_ready : sv_ready s' = sv_ready s;
  ca_rlog : ready_log (sv_log s') = ready_log (sv_log s);
  ca_ever : sv_ever s' = sv_ever s;
  ca_tries : sv_attempt s' = sv_attempt s;
}.

#[global] Instance carried_preorder : PreOrder carried.
Proof using.
  split; [by split|]. intros s1 s2 s3 [] []. split; try congruence; [by etransitivity|by etransitivity|auto].
Qed.

Record inv (p : Phase) s : Prop := {
  inv_phase : phase_after (events (history (sv_guard s))) = Some p;
  inv_ready : sv_ready s = bool_decide (p = Fresh);
  inv_rlog : ready_log (sv_log s) = if bool_decide (p = Fresh) then [] else [Ok tt];
  inv_tally : tallied (metrics (sv_shared s)) (events (history (sv_guard s)));
}.

Lemma inv_carried p s s' : carried s s' → inv p s → inv p s'.
Proof using.
  intros [Hs [He _] _ Hr Hl _ _] [H1 H2 H3 H4].
  split; rewrite ?He, ?Hr, ?Hl; try done. by eapply tallied_kept.
Qed.

Lemma carried_outside o s : wf_outside o → carried s (outside cfg o s).
Proof using.
  intros Ho. destruct o as [c|c|]; cbn [outside].
  - destruct (sv_rx s); [|done]. by destruct (_ <? _).
  - split; try done. apply kept_bump. by destruct Ho as [-> | ->].
  - by split.
Qed.

Lemma carried_outsides os s : Forall wf_outside os → carried s (outsides cfg os s).
Proof using.
  intros Hos. revert s. induction Hos as [|o os Ho _ IH]; intros s; [done|].
  transitivity (outside cfg o s); [by apply carried_outside|apply IH].
Qed.

Lemma carried_sleep from total polls s s' r :
  Forall (λ '(os, _), Forall wf_outside os) polls →
  sleep_unless_stopped cfg from total polls s = (s', r) → carried s s'.
Proof using.
  intros Hp. unfold sleep_unless_stopped. destruct (_ <? _); [by intros [= <- <-]|].
  revert s. induction Hp as [|[os t] polls Hos _ IH]; intros s; cbn [sleep_loop]; [by intros [= <- <-]|].
  pose proof (carried_outsides os s Hos) as Hc. destruct (sv_stopped _); [by intros [= <- <-]|].
  destruct (_ <=? t); [by intros [= <- <-]|]. intros Hc'%IH. by transitivity (outsides cfg os s).
Qed.

(** ** The supervisor's own steps *)

Lemma lifecycle_events ev (g : HandlerGuard H) :
  events (history (lifecycle ev g)) = events (history g) ++ [ev].
Proof using. destruct (lifecycle_history ev g) as [-> _]. by rewrite events_app. Qed.

Lemma inv_connected e (b : bool) p s :
  inv p s → p ≠ Over → b = negb (bool_decide (p = Fresh)) → inv Up (connected e b s).
Proof using.
  intros [H1 H2 H3 H4] Hp Hb. unfold connected, answer_ready.
  cbn [sv_ready set_guard upd_sh]. rewrite H2.
  assert (phase_after (events (history (lifecycle (if b then EvReconnected else EvConnected) (sv_guard s)))) = Some Up) as Hph.
  { rewrite lifecycle_events, phase_snoc, H1. subst b. by destruct p. }
  assert (tallied (bump (if b then reconnects else connects) (mark_connected (mono e) (wall e) (metrics (sv_shared s))))
    (events (history (lifecycle (if b then EvReconnected else EvConnected) (sv_guard s))))) as Ht.
  { rewrite lifecycle_events. apply tallied_up. by destruct H4. }
  destruct (bool_decide (p = Fresh)) eqn:Hf.
  - split; cbn [sv_guard sv_ready sv_log ready_log sv_shared metrics upd_metrics set_guard upd_sh]; try done. by rewrite H3.
  - split; cbn [sv_guard sv_ready sv_log ready_log sv_shared metrics upd_metrics set_guard upd_sh]; done.
Qed.

(** The end: [Closed] has been delivered, the state says so, and [ready] has been
    answered once. *)
Record over s : Prop := {
  ov_phase : phase_after (events (history (sv_guard s))) = Some Over;
  ov_last : last (events (history (sv_guard s))) = Some EvClosed;
  ov_ready : ∃ r, ready_log (sv_log s) = [r] ∧ (r = Ok tt ↔ EvConnected ∈ events (history (sv_guard s)));
  ov_state : get_state (sv_shared s) = CClosed;
  ov_tally : tallied (metrics (sv_shared s)) (events (history (sv_guard s)));
}.

Lemma over_of p s s' :
  inv p s → p ≠ Over → sv_guard s' = lifecycle EvClosed (sv_guard s) →
  metrics (sv_shared s') = metrics (sv_shared s) → get_state (sv_shared s') = CClosed →
  (∃ r, ready_log (sv_log s') = [r] ∧ (r = Ok tt ↔ p ≠ Fresh)) → over s'.
Proof using.
  intros [H1 H2 H3 H4] Hp Hg Hm Hst (r & Hr & Hok). pose proof (phase_connected _ _ H1) as Hc.
  split; rewrite ?Hg, ?Hm, ?lifecycle_events; try done.
  - rewrite phase_snoc, H1. by destruct p.
  - by rewrite last_snoc.
  - exists r. split; [done|]. rewrite Hok, elem_of_app, list_elem_of_singleton. destruct p; try done.
    + rewrite Hc. split; [done|]. intros [?%elem_of_nil|?]; done.
    + split; [by left|done].
    + split; [by left|done].
  - by apply tallied_other.
Qed.

Lemma finish_over err p s : inv p s → p ≠ Over → over (finish err s).
Proof using.
  intros Hi Hp. pose proof Hi as [_ H2 H3 _].
  eapply over_of; [exact Hi|done|..]; unfold finish, answer_ready; cbn [sv_ready upd_sh]; rewrite H2;
    destruct (bool_decide (p = Fresh)) eqn:Hf; try done; cbn [sv_log ready_log set_guard upd_sh]; rewrite H3.
  - eexists. split; [done|]. apply bool_decide_eq_true in Hf. split; [|done]. by intros [= ?].
  - exists (Ok tt). split; [done|]. apply bool_decide_eq_false in Hf. done.
Qed.

Lemma close_for_good_over p s : inv p s → p ≠ Over → p ≠ Fresh → over (close_for_good s).
Proof using.
  intros Hi Hp Hf. pose proof Hi as [_ _ H3 _]. eapply over_of; [exact Hi|done|done|done|done|].
  exists (Ok tt). cbn. rewrite H3, bool_decide_false by done. done.
Qed.

(** ** A session *)

(** What the two tasks of the connected phase leave the supervisor with. *)
Lemma phase_session e salt s :
  Forall (wf_action (session_keys e) (idle_window cfg) send_failed) (acts e) →
  session_of (session_keys e) (idle_window cfg) send_failed (writer_cfg cfg) salt
    (session_world (sv_shared s) (sv_guard s) salt (sv_stopped s)) (closers (acts e))
    (phase_run cfg send_failed e (phase_start salt s)).
Proof using AL BL.
  intros Ha. unfold phase_run, phase_start.
  apply (run_live_session (session_keys e) _ _ _ _ eq_refl _ _ _ _ [] Ha).
  by apply (live_start_session _ _ _ _ (session_world (sv_shared s) (sv_guard s) salt (sv_stopped s))).
Qed.

Lemma carried_absorb e salt s arrived :
  Forall (wf_action (session_keys e) (idle_window cfg) send_failed) (acts e) →
  carried s (absorb (phase_run cfg send_failed e (phase_start salt s)) arrived s).
Proof using AL BL. intros [_ _ [Hs Hg Hst] _]%(phase_session e salt s). by split. Qed.

Lemma carried_converse e salt s s' r :
  Forall (wf_action (session_keys e) (idle_window cfg) send_failed) (acts e) →
  converse cfg send_failed e salt s = (s', r) →
  carried s s' ∧ (r = Running ∨ ∃ o, r = Done o (Some (lasted e))).
Proof using AL BL.
  intros Ha. unfold converse.
  pose proof (carried_absorb e salt s (phase_arrivals cfg send_failed e (phase_start salt s)) Ha) as Hc.
  set (l := phase_run cfg send_failed e (phase_start salt s)) in *.
  destruct (reading l), (told l); try (intros [= <- <-]; by auto).
  destruct (join e); [destruct (writer_gone (lw l))|..]; intros [= <- <-]; eauto.
  all: split; [etransitivity; [exact Hc|by split]|by eauto].
Qed.

Lemma carried_handshake (e : SessionEnv S H) b64 s :
  let hs := (session_handshake cfg e b64 s).1 in
  carried s (set_guard (guarded (hw hs)) (upd_sh (λ _, shared (hw hs)) s)).
Proof using.
  intros hs. destruct (stepped_handshake (session_keys e) kept cfg (hs_draws e) (hs_now e) b64
    {| hw := session_world (sv_shared s) (sv_guard s) salt_default (sv_stopped s);
       hreads := hs_reads e; hwrites := hs_writes e; htick := 0 |}) as [[Hs Hg _] _].
  by split.
Qed.

(** A session either fails before it is connected or has gone through [connected]. *)
Lemma session_once_cases (e : SessionEnv S H) b s s' r :
  Forall wf_outside (before e) →
  Forall (wf_action (session_keys e) (idle_window cfg) send_failed) (acts e) →
  session_once cfg ep send_failed e b s = (s', r) →
  (carried s s' ∧ (r = Panicked ∨ ∃ err, r = Done (SoFailed err) None))
  ∨ ∃ s1 s2, carried s s1 ∧ s2 = connected e b s1 ∧ carried s2 s'
    ∧ (r = Running ∨ ∃ o, r = Done o (Some (lasted e))).
Proof using AL BL.
  intros Hb Ha. unfold session_once.
  assert (carried s (outsides cfg (before e) (upd_log log_session s))) as H0.
  { transitivity (upd_log log_session s); [by split|by apply carried_outsides]. }
  set (s0 := outsides cfg (before e) (upd_log log_session s)) in *.
  destruct (establish _ _ _ _ _) as [c [[b64|]|err]].
  2: { intros [= <- <-]. left. split; [|by auto]. etransitivity; [exact H0|by split]. }
  2: { intros [= <- <-]. left. split; [|by eauto]. etransitivity; [exact H0|by split]. }
  pose proof (carried_handshake e b64 (set_tls c s0)) as Hh. cbv zeta in Hh. cbn zeta beta.
  destruct (session_handshake _ _ _ _) as [hs r0]. cbn [fst] in Hh.
  assert (carried s (set_guard (guarded (hw hs)) (upd_sh (λ _, shared (hw hs)) (set_tls c s0)))) as Hs1.
  { etransitivity; [exact H0|]. transitivity (set_tls c s0); [by split|done]. }
  destruct r0 as [u|err]; [|intros [= <- <-]; left; by eauto].
  intros [Hc Hr]%carried_converse; [|done]. right. by eexists _, _.
Qed.

(** ** An iteration *)

Definition started (p : Phase) s : Prop := inv p s ∧ p ≠ Over ∧ sv_ever s = negb (bool_decide (p = Fresh)).

Lemma session_once_inv e p s s' r :
  Forall wf_outside (before e) →
  Forall (wf_action (session_keys e) (idle_window cfg) send_failed) (acts e) →
  started p s → session_once cfg ep send_failed e (sv_ever s) s = (s', r) →
  match r with
  | Running => inv Up s'
  | Panicked => inv p s'
  | Done o None => inv p s' ∧ sv_ever s' = sv_ever s ∧ ∃ err, o = SoFailed err
  | Done _ (Some _) => inv Up s'
  end.
Proof using AL BL.
  intros Hb Ha (Hi & Hp & He) [[Hc Hr]|(s1 & s2 & H1 & -> & H2 & Hr)]%session_once_cases; [..|done|done].
  - destruct Hr as [-> |(err & ->)]; [by eapply inv_carried|]. split; [by eapply inv_carried|].
    split; [apply Hc|by eauto].
  - assert (inv Up s') as Hi'.
    { eapply inv_carried; [exact H2|]. eapply inv_connected; [by eapply inv_carried|done..]. }
    by destruct Hr as [-> |(o & ->)].
Qed.

Lemma started_carried p s s' : carried s s' → started p s → started p s'.
Proof using.
  intros Hc (Hi & Hp & He). split; [by eapply inv_carried|]. split; [done|]. by rewrite (ca_ever _ _ Hc).
Qed.

(** Counters the events do not speak of. *)
Lemma inv_bump c n p s :
  c ≠ connects → c ≠ reconnects → c ≠ disconnects →
  inv p s → inv p (upd_sh (upd_metrics (bump_by c n)) s).
Proof using.
  intros H1 H2 H3 [? ? ? [Hl Hc Hr Hd Hm]]. split; try done.
  split; cbn [sv_shared upd_sh sv_guard metrics upd_metrics]; rewrite ?counter_bump_ne, ?bump_fields by done; done.
Qed.

Lemma note_length_started s (len : Z) : inv Up s → started Up (note_length (Some len) s).
Proof using.
  intros [H1 H2 H3 H4]. unfold note_length. destruct (_ <=? len); (split; [|done]); by split.
Qed.

Lemma after_session_inv o p s s' r :
  started p s → (∀ c, o = Disconnected c → p = Up) → after_session o s = (s', r) →
  match r with
  | None => over s'
  | Some _ => ∃ p', started p' s' ∧ p' ≠ Fresh
  end.
Proof using.
  intros (Hi & Hp & He) Hup. destruct o as [|code|err]; cbn [after_session].
  - intros [= <- <-]. by eapply finish_over.
  - specialize (Hup code eq_refl). subst p.
    set (s1 := set_guard _ _). assert (started Down s1) as Hd.
    { destruct Hi as [H1 H2 H3 H4]. split; [|done]. split; [|done|done|].
      - cbn. by rewrite lifecycle_events, phase_snoc, H1.
      - cbn. rewrite lifecycle_events. by apply tallied_down. }
    set (s2 := if token_survives_close code then s1 else upd_sh clear_shared_token s1).
    assert (started Down s2) as Hd2.
    { subst s2. destruct (token_survives_close code); [done|]. eapply started_carried; [|exact Hd]. by split. }
    destruct (terminal_close code); intros [= <- <-]; [eapply finish_over; [apply Hd2|done]|by exists Down].
  - pose proof (inv_bump reconnect_failures 1 p s ltac:(done) ltac:(done) ltac:(done) Hi) as Hb.
    destruct (is_terminal err); [intros [= <- <-]; by eapply finish_over|]. cbn [sv_ever upd_sh]. rewrite He.
    destruct (bool_decide (p = Fresh)) eqn:Hf; intros [= <- <-]; [by eapply finish_over|].
    apply bool_decide_eq_false in Hf. exists p. split; [|done]. split; [done|]. split; [done|]. cbn.
    by rewrite He, bool_decide_false.
Qed.

(** A session that fails ends without [ConnectionClosed] and leaves the time of the
    connection standing. *)
Lemma failure_is_silent err s s' bo :
  after_session (SoFailed err) s = (s', Some bo) →
  connected_since (metrics (sv_shared s')) = connected_since (metrics (sv_shared s))
  ∧ events (history (sv_guard s')) = events (history (sv_guard s)).
Proof using.
  cbn [after_session]. destruct (is_terminal err); [done|]. destruct (negb _); [done|]. by intros [= <- _].
Qed.

Lemma wait_reconnect_inv from ps backoff p s s' r :
  Forall (λ '(os, _), Forall wf_outside os) ps → started p s → p ≠ Fresh →
  wait_reconnect cfg from ps backoff s = (s', r) →
  match r with
  | Slept => started p s'
  | Woken => over s'
  | _ => inv p s'
  end.
Proof using.
  intros Hps Hs Hf. unfold wait_reconnect. destruct (should_continue _ _); cbn [negb].
  2: { destruct Hs as (Hi & Hp & _). intros [= <- <-]. by eapply close_for_good_over. }
  set (s1 := upd_sh (set_state Reconnecting) _). assert (started p s1) as Hs1.
  { destruct Hs as (Hi & Hp & He). split; [|done].
    pose proof (inv_bump reconnect_attempts 1 p s ltac:(done) ltac:(done) ltac:(done) Hi) as []. by split. }
  destruct (sleep_unless_stopped _ _ _ _ _) as [s2 r2] eqn:E.
  apply carried_sleep in E; [|done]. pose proof (started_carried _ _ _ E Hs1) as Hs2.
  destruct r2; intros [= <- <-]; [by destruct Hs2|done| |by destruct Hs2].
  destruct Hs2 as (Hi & Hp & _). by eapply close_for_good_over.
Qed.

Lemma iteration_inv e p s s' r :
  wf_env e → started p s → iteration cfg ep send_failed e s = (s', r) →
  match r with
  | None => ∃ p', started p' s'
  | Some Ended => over s'
  | Some _ => ∃ p', inv p' s' ∧ p' ≠ Over
  end.
Proof using AL BL.
  intros [Hb Ha Hp] Hs. pose proof Hs as (Hi & Hno & He). unfold iteration.
  destruct (sv_stopped s); [intros [= <- <-]; by eapply finish_over|].
  destruct (panicked (sv_guard s)); [intros [= <- <-]; by eapply finish_over|].
  set (s1 := upd_sh _ s). assert (started p s1) as Hs1 by (destruct Hi; split; [by split|done]).
  destruct (sv_rx s1); [|intros [= <- <-]; eapply finish_over; [apply Hs1|done]].
  destruct (session_once _ _ _ _ _ _) as [s2 r2] eqn:E. apply (session_once_inv _ p) in E; [|done..].
  destruct r2 as [| |o [len|]]; [intros [= <- <-]; by eexists| intros [= <- <-]; by eexists| |].
  1: pose proof (note_length_started s2 len E) as Hs3; destruct (after_session _ _) as [s4 r4] eqn:E4;
     eapply after_session_inv in E4; [|exact Hs3|done].
  2: destruct E as (Hi2 & He2 & err & ->); destruct (after_session _ _) as [s4 r4] eqn:E4;
     eapply (after_session_inv _ p) in E4; [|split; [done|]; split; [done|]; cbn; rewrite He2; apply Hs1|done].
  all: destruct r4 as [bo|]; [|by intros [= <- <-]]; destruct E4 as (q & Hq & Hqf);
    destruct (wait_reconnect _ _ _ _ _) as [s5 r5] eqn:E5; eapply wait_reconnect_inv in E5; [|done..];
    destruct r5; intros [= <- <-]; [exists q; split; [done|apply Hq]|by eexists|done|exists q; split; [done|apply Hq]].
Qed.

Lemma supervise_inv es p s :
  Forall wf_env es → started p s →
  let '(s', st) := supervise cfg ep send_failed es s in
  match st with
  | Ended => over s'
  | _ => ∃ p', inv p' s' ∧ p' ≠ Over
  end.
Proof using AL BL.
  intros Hes. revert p s. induction Hes as [|e es He _ IH]; intros p s Hs; cbn [supervise].
  { exists p. by destruct Hs as (? & ? & _). }
  destruct (iteration _ _ _ _ _) as [s1 [st|]] eqn:E; apply (iteration_inv _ p) in E; try done.
  destruct E as [q Hq]. by apply (IH q).
Qed.
End lifecycle.

Section promises.
Context {S H : Type} {TS : TokenStore S} {LH : LoxHandler H}.
Context {zc : ZeroCopy} {J : Json} {D : Digests} {X : Hex} {C : X509} {RL : Rustls} {UR : Url} {R : Rsa}.
Context {U : Utf8Text} {A : AesCbc} {B : Base64} {P : PercentDecode}.
Context {AL : AesCbcLaws} {BL : Base64Laws}.

Lemma tallied_start : tallied new_metrics [].
Proof using. by split; [done..|]; intros code; cbn; rewrite lookup_empty. Qed.

Lemma run_supervisor_inv (cfg : ConnectConfig S) builder send_failed (h : H) (sh : SharedState S) cs es :
  metrics sh = new_metrics → Forall (wf_env cfg send_failed) es →
  let '(s, st) := run_supervisor cfg builder send_failed h sh cs es in
  match st with
  | Ended => over s
  | _ => ∃ p, inv p s ∧ p ≠ Over
  end.
Proof using AL BL.
  intros Hm Hes. unfold run_supervisor. cbn zeta.
  set (start := λ c : TlsContext, {| sv_shared := sh; sv_guard := new_guard h; sv_tls := c; sv_stopped := false;
    sv_ready := true; sv_rx := Some cs; sv_attempt := 0; sv_ever := false; sv_log := log_entered cs no_log |}).
  assert (∀ c, started Fresh (start c)) as Hstart.
  { intros c. split; [|done]. split; try done. cbn. rewrite Hm. apply tallied_start. }
  destruct (_ ≫= _) as [[c ep]|err];
    [apply (supervise_inv cfg ep send_failed es Fresh (start c) Hes (Hstart c))|].
  eapply finish_over; [apply Hstart|done].
Qed.

(** [C6] What an application is told fits together, in every run of the supervisor:
    [Connected] comes first and once, [Reconnected] only after it, a
    [ConnectionClosed] only for a connection that is up, [Closed] last and once.
    [Closed] has been delivered exactly when the supervisor has returned, and the
    state then is [Closed]; [connect] is answered once, with success exactly when
    [Connected] has been delivered, and with the error at the latest when the
    supervisor returns. *)
Theorem supervisor_lifecycle (cfg : ConnectConfig S) builder send_failed (h : H) (sh : SharedState S) cs es :
  metrics sh = new_metrics → Forall (wf_env cfg send_failed) es →
  let '(s, st) := run_supervisor cfg builder send_failed h sh cs es in
  let evs := events (history (sv_guard s)) in
  ∃ p, phase_after evs = Some p
    ∧ (st = Ended ↔ p = Over)
    ∧ (st = Ended → get_state (sv_shared s) = CClosed)
    ∧ (st = Ended → ∃ r, ready_log (sv_log s) = [r] ∧ (r = Ok tt ↔ EvConnected ∈ evs))
    ∧ (st ≠ Ended → ready_log (sv_log s) = if decide (EvConnected ∈ evs) then [Ok tt] else []).
Proof using AL BL.
  intros Hm Hes. pose proof (run_supervisor_inv cfg builder send_failed h sh cs es Hm Hes) as Hr.
  destruct (run_supervisor _ _ _ _ _ _ _) as [s st]. cbn zeta. destruct (decide (st = Ended)) as [-> |Hst].
  - destruct Hr as [H1 _ H3 H4 _]. by exists Over.
  - assert (∃ p, inv p s ∧ p ≠ Over) as (p & [H1 H2 H3 H4] & Hp) by (by destruct st).
    exists p. split; [done|]. split; [done|]. split; [done|]. split; [done|]. intros _. rewrite H3.
    apply phase_connected in H1. destruct p; [by rewrite H1| | |done]; by rewrite decide_True.
Qed.

End promises.

(** ** Samples *)

#[local] Existing Instances zerocopy_model json_model digests_model hex_model aes_model base64_model
  percent_model no_store reader_utf8 x509_model rustls_model rsa_model idle_handler.
#[local] Existing Instances base64_model_laws aes_model_laws.

Lemma sample_env_wf : wf_env sample_cfg (bs "gone") sample_env.
Proof. split; repeat (apply List.Forall_cons || apply List.Forall_nil); cbn; auto using List.Forall. Qed.

Lemma supervisor_lifecycle_witness :
  let '(s, st) := run_supervisor sample_cfg (Ok tt) (bs "gone") tt new_shared [] [sample_env; sample_env] in
  let evs := events (history (sv_guard s)) in
  ∃ p, phase_after evs = Some p
    ∧ (st = Ended ↔ p = Over)
    ∧ (st = Ended → get_state (sv_shared s) = CClosed)
    ∧ (st = Ended → ∃ r, ready_log (sv_log s) = [r] ∧ (r = Ok tt ↔ EvConnected ∈ evs))
    ∧ (st ≠ Ended → ready_log (sv_log s) = if decide (EvConnected ∈ evs) then [Ok tt] else []).
Proof.
  apply (supervisor_lifecycle sample_cfg (Ok tt) (bs "gone") tt new_shared [] [sample_env; sample_env]);
    [reflexivity|repeat constructor; apply sample_env_wf].
Defined.

