(* ===== verification/Dialogue.v ===== *)
(** * The handshake against a Miniserver that answers

    The theorems of [Handshake] hold whatever the Miniserver does. This file is the
    other half: the Miniserver is a function from commands to answers, [dialogue]
    is the protocol of the token seen from outside, as the commands asked and the
    token they end with, and the handshake of the client carries it out: with a
    Miniserver that answers it asks exactly these commands, encrypted in order
    under one salt, and completes with that token set. *)

From S2P Require Import Prelude RustStr External Models Errors Session Crypto Auth Store State Scan.
From S2P Require Import Pending Uuid Header EventTables Handler World Reader Tls Config Handshake Supervisor.

(** ** The protocol *)

Section protocol.
Context {S : Type} {zc : ZeroCopy} {J : Json} {D : Digests} {X : Hex}.
Context (cfg : ConnectConfig S) (now : Z) (srv : bytes → bytes).

(** A new token: one request for the key and the salt of the user, one for the token. *)
Inductive issues : list bytes → LxToken → Prop :=
| issue cmd alg t :
    build_acquire_token_cmd (srv (cmd_getkey2 (c_username cfg))) (c_username cfg) (c_password cfg)
      (token_permission cfg) (client_uuid cfg) (client_info cfg) = Ok (cmd, alg) →
    parse_token_response (srv cmd) alg = Ok t → token_is_empty t = false →
    issues [cmd_getkey2 (c_username cfg); cmd] t.

(** The key for the hash of a token, and the answer to that hash. *)
Inductive presents (t : LxToken) : bytes → list bytes → Prop :=
| present hash :
    build_token_hash (srv CMD_GET_KEY) t = Ok hash →
    presents t (srv (cmd_auth_with_token hash (c_username cfg)))
      [CMD_GET_KEY; cmd_auth_with_token hash (c_username cfg)].

(** The farewell to a token; without a usable key there is nothing to say. *)
Inductive retires (t : LxToken) : list bytes → Prop :=
| retire hash : build_token_hash (srv CMD_GET_KEY) t = Ok hash →
    retires t [CMD_GET_KEY; cmd_kill_token hash (c_username cfg)]
| retire_keyless e : build_token_hash (srv CMD_GET_KEY) t = Err e → retires t [CMD_GET_KEY].

(** The token the client has, the commands it asks, what becomes of its state. *)
Inductive dialogue {TS : TokenStore S} (existing : LxToken) :
    list bytes → (SharedState S → SharedState S) → Prop :=
(** no token: get one *)
| dlg_first cmds t :
    token_is_empty existing = true → issues cmds t → dialogue existing cmds (set_token t)
(** a token about to expire: retire it and get another *)
| dlg_expiring old cmds t :
    token_is_empty existing = false → remaining now existing < TOKEN_MIN_REMAINING_SECS →
    retires existing old → issues cmds t → dialogue existing (old ++ cmds) (set_token t)
(** a token the Miniserver takes: it says until when *)
| dlg_accepted auth cmds t :
    token_is_empty existing = false → TOKEN_MIN_REMAINING_SECS ≤ remaining now existing →
    presents existing auth cmds → payload_ll_status auth = Some (bs "200") →
    apply_valid_until existing auth = (t, Ok tt) → dialogue existing cmds (set_token t)
(** a token the Miniserver refuses: forget it and get another *)
| dlg_refused auth old cmds t :
    token_is_empty existing = false → TOKEN_MIN_REMAINING_SECS ≤ remaining now existing →
    presents existing auth old → refusal auth → issues cmds t →
    dialogue existing (old ++ cmds) (λ sh, set_token t (clear_shared_token sh)).

(** The subscription, if the configuration asks for one; an answer without a status
    is taken as consent. *)
Definition subscription : list bytes := if receive_updates cfg then [CMD_ENABLE_UPDATES] else [].
Definition subscribes : Prop :=
  receive_updates cfg = true → payload_ll_status (srv CMD_ENABLE_UPDATES) ∈ [None; Some (bs "200")].
End protocol.

(** ** Running the handshake forward *)

Section forward.
Context {S H : Type} {TS : TokenStore S} {LH : LoxHandler H}.
Context {zc : ZeroCopy} {J : Json} {D : Digests} {X : Hex} {A : AesCbc} {B : Base64}.
Context {AL : AesCbcLaws} {BL : Base64Laws}.
Context (keys : SessionKeys) (cfg : ConnectConfig S) (draws : nat → Draw) (now : Z).
Context (Hkeys : wf_keys keys) (I : H → Prop) {HS : Steady I}.
Implicit Types s : HState S H.

(** The reads deliver answers, one after the other, each overtaken by fewer than 64
    other messages. *)
Inductive delivers : list bytes → list HRead → Prop :=
| deliver_none : delivers [] []
| deliver_next fs ms n as_ p ps rs :
    skips fs ms n → (n < MAX_INTERLEAVED_FRAMES)%nat → answer_frames as_ p →
    delivers ps rs → delivers (p :: ps) (fs ++ as_ ++ rs).

(** The connection is usable: the handler is steady, has not panicked, and writes succeed. *)
Definition usable s : Prop := calm I (guarded (hw s)) ∧ Forall (eq None) (hwrites s).
Definition hears (ps : list bytes) (rest : list HRead) s : Prop :=
  usable s ∧ ∃ rs, delivers ps rs ∧ hreads s = rs ++ rest.

(** [cmds] have been encrypted and written, in order, and [f] happened to the state
    that outlives the session. *)
Record asks (cmds : list bytes) (f : SharedState S → SharedState S) (s s' : HState S H) : Prop := {
  asks_shared : shared (hw s') = f (shared (hw s));
  asks_tick : htick s' = (htick s + length cmds)%nat;
  asks_wire : ∃ texts, wire (hw s') = wire (hw s) ++ map (λ t, (OpText, t, true)) texts
    ∧ ∀ more, encrypt_all keys (zip (draws <$> seq (htick s) (length cmds)) cmds ++ more) (w_salt (hw s))
              = map Ok texts ++ encrypt_all keys more (w_salt (hw s'));
}.

Lemma asks_nothing f s s' :
  shared (hw s') = f (shared (hw s)) → htick s' = htick s → wire (hw s') = wire (hw s) →
  w_salt (hw s') = w_salt (hw s) → asks [] f s s'.
Proof using.
  intros Hs Ht Hw Hsalt. split; [done|cbn; lia|]. exists []. rewrite Hw, Hsalt. by rewrite app_nil_r.
Qed.

Lemma asks_trans c1 f1 c2 f2 s1 s2 s3 :
  asks c1 f1 s1 s2 → asks c2 f2 s2 s3 → asks (c1 ++ c2) (λ sh, f2 (f1 sh)) s1 s3.
Proof using.
  intros [Hs1 Ht1 (t1 & Hw1 & He1)] [Hs2 Ht2 (t2 & Hw2 & He2)]. split.
  - by rewrite Hs2, Hs1.
  - rewrite Ht2, Ht1, length_app. lia.
  - exists (t1 ++ t2). split; [by rewrite Hw2, Hw1, map_app, app_assoc|]. intros more.
    rewrite length_app, seq_app, fmap_app, zip_with_app by (by rewrite length_fmap, length_seq).
    rewrite <- Ht1, <- app_assoc, He1, He2. by rewrite map_app, app_assoc.
Qed.

(** What a computation of the handshake does when [ps] are the next answers: the
    commands it asks, its effect on the shared state, and its result. *)
Definition does {T} (m : HM T) (cmds ps : list bytes) (f : SharedState S → SharedState S) (r : Result T) : Prop :=
  ∀ qs rest s, hears (ps ++ qs) rest s → ∃ s', m s = (s', r) ∧ asks cmds f s s' ∧ hears qs rest s'.

Lemma does_pure {T} (m : HM T) r : (∀ s, m s = (s, r)) → does m [] [] id r.
Proof using. intros Hm qs rest s Hh. exists s. split; [done|]. by split; [apply asks_nothing|]. Qed.
Lemma does_ret {T} (a : T) : does (mret a) [] [] id (Ok a).
Proof using. by apply does_pure. Qed.
Lemma does_lift {T} (r : Result T) : does (lift r) [] [] id r.
Proof using. by apply does_pure. Qed.
Lemma does_shared f : does (modify (upd_hw (upd_shared f)) : HM unit) [] [] f (Ok tt).
Proof using.
  intros qs rest s [Hu Hd]. eexists. split; [reflexivity|]. by split; [apply asks_nothing|split].
Qed.

Lemma does_bind {T V} (m : HM T) (k : T → HM V) c1 p1 f1 a c2 p2 f2 r :
  does m c1 p1 f1 (Ok a) → does (k a) c2 p2 f2 r →
  does (m ≫= k) (c1 ++ c2) (p1 ++ p2) (λ sh, f2 (f1 sh)) r.
Proof using.
  intros Hm Hk qs rest s Hh. rewrite <- app_assoc in Hh.
  destruct (Hm _ _ _ Hh) as (s1 & E1 & Ha1 & Hh1). destruct (Hk _ _ _ Hh1) as (s2 & E2 & Ha2 & Hh2).
  exists s2. rewrite (bind_ok _ _ _ _ _ E1). split; [done|]. split; [by eapply asks_trans|done].
Qed.
Lemma does_bind_err {T V} (m : HM T) (k : T → HM V) c p f e :
  does m c p f (Err e) → does (m ≫= k) c p f (Err e).
Proof using.
  intros Hm qs rest s Hh. destruct (Hm _ _ _ Hh) as (s1 & E1 & H1). exists s1.
  by rewrite (bind_err _ _ _ _ _ E1).
Qed.
Lemma does_map_err {T} g (m : HM T) c p f a :
  does m c p f (Ok a) → does (map_err_m g m) c p f (Ok a).
Proof using.
  intros Hm qs rest s Hh. destruct (Hm _ _ _ Hh) as (s1 & E1 & H1). exists s1. unfold map_err_m. by rewrite E1.
Qed.
Lemma does_ignore {T} (m : HM T) c p f r : does m c p f r → does (ignore_err m) c p f (Ok tt).
Proof using.
  intros Hm qs rest s Hh. destruct (Hm _ _ _ Hh) as (s1 & E1 & H1). exists s1. unfold ignore_err. by rewrite E1.
Qed.

(** The next answer is read, whatever overtakes it; only the handler notices. *)
Lemma hears_next p qs rest s :
  hears (p :: qs) rest s →
  ∃ g rs, read_payload s = (set_reads rs (upd_hw (set_guarded g) s), Ok p)
    ∧ hears qs rest (set_reads rs (upd_hw (set_guarded g) s)).
Proof using HS.
  intros [[Hp Hw] (rs & Hd & Hr)]. inversion Hd as [|fs ms n as_ ? ? rs' Hs Hn Ha Hd']; subst.
  rewrite <- !app_assoc in Hr.
  destruct (read_payload_answer I fs ms n as_ p _ s Hp Hs Hn Ha Hr) as (g & Hg & _ & E).
  exists g, (rs' ++ rest). split; [exact E|]. split; [done|]. by exists rs'.
Qed.

Lemma does_read p : does (read_payload (S := S) (H := H)) [] [p] id (Ok p).
Proof using HS.
  intros qs rest s (g & rs & -> & Hh)%hears_next. eexists. split; [reflexivity|]. by split; [apply asks_nothing|].
Qed.

(** The same, up to the shape of lists and functions. *)
Lemma does_eq {T} (m : HM T) c p f r c' p' f' :
  does m c p f r → c = c' → p = p' → (∀ sh, f sh = f' sh) → does m c' p' f' r.
Proof using.
  intros Hm <- <- Hf qs rest s Hh. destruct (Hm _ _ _ Hh) as (s' & E & [Hs Ht Hw] & Hh').
  exists s'. split; [done|]. split; [|done]. by split; [rewrite Hs|..].
Qed.

Lemma send_usable t s :
  usable s → ∃ s', send_text t s = (s', Ok tt) ∧ usable s'
    ∧ hw s' = put_frame (OpText, t, true) (hw s) ∧ hreads s' = hreads s ∧ htick s' = htick s.
Proof using.
  intros [Hp Hw]. unfold send_text, usable. destruct (hwrites s) as [|o ws] eqn:Ew.
  - eexists. split; [reflexivity|]. cbn. by rewrite Ew.
  - apply Forall_cons in Hw as [<- Hw]. by eexists.
Qed.

(** One request: encrypted, written, answered. *)
Lemma does_request cmd p : does (hs_request keys draws cmd) [cmd] [p] id (Ok p).
Proof using AL BL Hkeys HS.
  intros qs rest s [[Hp Hw] Hd]. unfold hs_request.
  destruct (encrypt_spec (draws (htick s)) keys cmd (w_salt (hw s)) Hkeys) as (c & _ & _ & E).
  set (text := CMD_ENCRYPT ++ _) in E.
  match type of E with _ = (?st, _) => set (salt' := st) in E end.
  set (s1 := {| hw := set_salt salt' (hw s); hreads := hreads s; hwrites := hwrites s;
                htick := Datatypes.S (htick s) |}).
  assert (encrypt_next keys draws cmd s = (s1, Ok text)) as E1 by (unfold encrypt_next; by rewrite E).
  rewrite (bind_ok _ _ _ _ _ E1).
  destruct (send_usable text s1) as (s2 & E2 & Hu2 & Hw2 & Hr2 & Ht2); [done|].
  rewrite (bind_ok _ _ _ _ _ E2).
  destruct (does_read p qs rest s2) as (s3 & E3 & [Hs3 Ht3 (t3 & Hw3 & He3)] & Hh3).
  { split; [done|]. by rewrite Hr2. }
  exists s3. split; [exact E3|]. split; [|exact Hh3]. split.
  - rewrite Hs3, Hw2. done.
  - rewrite Ht3, Ht2. cbn. lia.
  - exists (text :: t3). split.
    + rewrite Hw3, Hw2. cbn [wire put_frame set_salt s1 hw map]. by rewrite <- app_assoc.
    + intros more. cbn. rewrite E. f_equal. rewrite <- He3, Hw2. done.
Qed.

(** ** The steps of the handshake *)

Context (srv : bytes → bytes).

(** A request to the Miniserver. *)
Lemma does_ask cmd : does (hs_request keys draws cmd) [cmd] (map srv [cmd]) id (Ok (srv cmd)).
Proof using AL BL Hkeys HS. apply does_request. Qed.

Lemma does_retire t old :
  retires cfg srv t old → ∃ r, does (hs_kill_token keys cfg draws t) old (map srv old) id r.
Proof using AL BL Hkeys HS.
  intros [hash Hh|e Hh]; eexists; unfold hs_kill_token.
  - eapply does_eq; [eapply does_bind; [apply does_ask|rewrite Hh]|..].
    { eapply does_bind; [apply does_lift|]. eapply does_bind; [apply does_ask|apply does_ret]. }
    all: done.
  - eapply does_eq; [eapply does_bind; [apply does_ask|rewrite Hh]|..].
    { eapply does_bind_err, does_lift. }
    all: done.
Qed.

Lemma does_acquire displaced old cmds t :
  match displaced with Some d => retires cfg srv d old | None => old = [] end →
  issues cfg srv cmds t →
  does (acquire_token keys cfg draws displaced) (old ++ cmds) (map srv (old ++ cmds)) id (Ok t).
Proof using AL BL Hkeys HS.
  intros Hd [cmd alg t' Hb Hp Hne]. rewrite map_app. unfold acquire_token.
  eapply (does_bind _ _ _ _ id tt).
  { destruct displaced as [d|]; [|subst old; apply does_ret].
    destruct (does_retire d old Hd) as [r Hr]. by eapply does_ignore. }
  eapply does_eq; [eapply does_bind; [apply does_map_err, does_ask|rewrite Hb]|..].
  { eapply does_bind; [apply does_lift|]. cbn beta iota.
    eapply does_bind; [apply does_map_err, does_ask|].
    rewrite Hp. eapply does_bind; [apply does_lift|]. unfold token_is_empty in Hne. rewrite Hne. apply does_ret. }
  all: done.
Qed.

Lemma does_reuse t auth cmds r :
  presents cfg srv t auth cmds →
  match classify auth with
  | LlOk => ∃ t', apply_valid_until t auth = (t', Ok tt) ∧ r = Ok (Some t')
  | TokenRejected _ => r = Ok None
  | LlFailed e => r = Err (in_step (bs "authwithtoken") e)
  end →
  does (reuse_token keys cfg draws t) cmds (map srv cmds) id r.
Proof using AL BL Hkeys HS.
  intros [hash Hh] Hc. unfold reuse_token.
  eapply does_eq; [eapply does_bind; [apply does_map_err, does_ask|rewrite Hh]|..].
  { eapply does_bind; [apply does_lift|].
    eapply does_bind; [apply does_map_err, does_ask|]. set (a := srv (cmd_auth_with_token _ _)) in *.
    destruct (classify a) as [|c|e].
    - destruct Hc as (t' & -> & ->). eapply does_bind; [apply does_lift|apply does_ret].
    - subst r. apply does_ret.
    - subst r. by apply does_pure. }
  all: done.
Qed.

Lemma does_put displaced old cmds t :
  match displaced with Some d => retires cfg srv d old | None => old = [] end →
  issues cfg srv cmds t →
  does (t ← acquire_token keys cfg draws displaced; put_token t)
    (old ++ cmds) (map srv (old ++ cmds)) (set_token t) (Ok tt).
Proof using AL BL Hkeys HS.
  intros Hd Hi. eapply does_eq; [eapply does_bind; [by apply does_acquire|apply does_shared]|..];
    by rewrite ?app_nil_r.
Qed.

Lemma classify_refusal auth : refusal auth → ∃ code, classify auth = TokenRejected code.
Proof using.
  intros (code & Hs & Hne & Hi). exists code. unfold classify. rewrite Hs, Hi.
  destruct (codeb code (bs "200")) eqn:E; [|done]. by apply codeb_true in E.
Qed.

(** What [authenticate] does with a token that is not about to expire. *)
Definition reuse_or_replace (existing : LxToken) : HM unit (S := S) (H := H) :=
  reused ← reuse_token keys cfg draws existing;
  match reused with
  | Some t => put_token t
  | None => _ ← drop_token; t ← acquire_token keys cfg draws None; put_token t
  end.

Lemma does_renewed t auth cmds t' :
  presents cfg srv t auth cmds → payload_ll_status auth = Some (bs "200") →
  apply_valid_until t auth = (t', Ok tt) →
  does (reuse_or_replace t) cmds (map srv cmds) (set_token t') (Ok tt).
Proof using AL BL Hkeys HS.
  intros Hp Hs Ha. eapply does_eq.
  { eapply does_bind; [eapply (does_reuse t auth cmds (Ok (Some t')) Hp)|apply does_shared].
    unfold classify. rewrite Hs. by exists t'. }
  all: by rewrite ?app_nil_r.
Qed.

Lemma does_replaced t auth old cmds t' :
  presents cfg srv t auth old → refusal auth → issues cfg srv cmds t' →
  does (reuse_or_replace t) (old ++ cmds) (map srv (old ++ cmds))
    (λ sh, set_token t' (clear_shared_token sh)) (Ok tt).
Proof using AL BL Hkeys HS.
  intros Hp Hr Hi. destruct (classify_refusal auth Hr) as [code Hc]. eapply does_eq.
  { eapply does_bind; [eapply (does_reuse t auth old (Ok None) Hp); by rewrite Hc|].
    eapply does_bind; [apply does_shared|]. apply (does_put None [] cmds t' eq_refl Hi). }
  all: by rewrite ?map_app.
Qed.

(** [authenticate] carries out the protocol. *)
Lemma authenticate_follows cmds f qs rest s :
  dialogue cfg now srv (shared_token (shared (hw s))) cmds f → hears (map srv cmds ++ qs) rest s →
  ∃ s', authenticate keys cfg draws now s = (s', Ok tt) ∧ asks cmds f s s' ∧ hears qs rest s'.
Proof using AL BL Hkeys HS.
  intros Hd Hh. unfold authenticate, mbind at 1, M_bind at 1, gets. cbv zeta.
  set (existing := shared_token (shared (hw s))) in *.
  destruct Hd as [cmds t He Hi|old cmds t He Hrem Hr Hi|auth cmds t He Hrem Hp Hs Ha|auth old cmds t He Hrem Hp Hs Hi];
    rewrite He; cbn [negb].
  - apply (does_put None [] cmds t eq_refl Hi _ _ _ Hh).
  - rewrite (proj2 (Z.ltb_lt _ _)) by done. apply (does_put (Some existing) old cmds t Hr Hi _ _ _ Hh).
  - rewrite (proj2 (Z.ltb_ge _ _)) by done. apply (does_renewed existing auth cmds t Hp Hs Ha _ _ _ Hh).
  - rewrite (proj2 (Z.ltb_ge _ _)) by done. apply (does_replaced existing auth old cmds t Hp Hs Hi _ _ _ Hh).
Qed.

Lemma does_subscribe :
  subscribes cfg srv →
  does (if receive_updates cfg then enable_updates keys draws else mret tt)
    (subscription cfg) (map srv (subscription cfg)) id (Ok tt).
Proof using AL BL Hkeys HS.
  unfold subscribes, subscription. destruct (receive_updates cfg); intros Hs; [|apply does_ret].
  unfold enable_updates. eapply does_eq; [eapply does_bind; [apply does_ask|]|..].
  { specialize (Hs eq_refl). destruct (payload_ll_status _) as [code|]; [|apply does_ret].
    apply elem_of_cons in Hs as [?|[= ->]%list_elem_of_singleton]; [done|]. apply does_ret. }
  all: done.
Qed.

(** The Miniserver takes the session key. *)
Definition takes_key (b64 : bytes) : Prop :=
  is_Some (res_ok (root ← parse_json (srv (CMD_KEY_EXCHANGE ++ b64)); require_ll_ok root)).

Lemma exchange_follows b64 qs rest s :
  takes_key b64 → hears (srv (CMD_KEY_EXCHANGE ++ b64) :: qs) rest s →
  ∃ s', key_exchange b64 s = (s', Ok tt) ∧ hears qs rest s' ∧ htick s' = htick s
    ∧ shared (hw s') = shared (hw s) ∧ w_salt (hw s') = w_salt (hw s)
    ∧ wire (hw s') = wire (hw s) ++ [(OpText, CMD_KEY_EXCHANGE ++ b64, true)].
Proof using HS.
  unfold takes_key. destruct (parse_json _) as [root|] eqn:Hj; [|by intros []].
  cbn [mbind result_bind]. destruct (require_ll_ok root) as [ll|] eqn:Hl; [|by intros []].
  intros _ [Hu Hd]. unfold key_exchange, map_err_m, exchange.
  destruct (send_usable (CMD_KEY_EXCHANGE ++ b64) s Hu) as (s1 & E1 & Hu1 & Hw1 & Hr1 & Ht1).
  rewrite (bind_ok _ _ _ _ _ E1). rewrite <- Hr1 in Hd.
  destruct (hears_next _ _ _ _ (conj Hu1 Hd)) as (g & rs & E2 & Hh).
  rewrite (bind_ok _ _ _ _ _ E2). unfold lift, mbind, M_bind. rewrite Hj, Hl.
  eexists. split; [reflexivity|]. split; [exact Hh|]. cbn. by rewrite Hw1.
Qed.

Lemma handshake_follows b64 cmds f rest s (all := cmds ++ subscription cfg) :
  dialogue cfg now srv (shared_token (shared (hw s))) cmds f → takes_key b64 → subscribes cfg srv →
  hears (srv (CMD_KEY_EXCHANGE ++ b64) :: map srv all) rest s →
  ∃ s' texts, handshake keys cfg draws now b64 s = (s', Ok tt)
    ∧ shared (hw s') = f (shared (hw s)) ∧ hreads s' = rest ∧ usable s'
    ∧ wire (hw s') = wire (hw s) ++ (OpText, CMD_KEY_EXCHANGE ++ b64, true) :: map (λ t, (OpText, t, true)) texts
    ∧ encrypt_all keys (zip (draws <$> seq (htick s) (length all)) all) (w_salt (hw s)) = map Ok texts.
Proof using AL BL Hkeys HS.
  intros Hd Hk Hs Hh. unfold handshake.
  destruct (exchange_follows b64 _ _ _ Hk Hh) as (s1 & E1 & Hh1 & Ht1 & Hs1 & Hsalt1 & Hw1).
  rewrite (bind_ok _ _ _ _ _ E1). unfold all in Hh1. rewrite map_app in Hh1. rewrite <- Hs1 in Hd.
  destruct (authenticate_follows cmds f _ _ _ Hd Hh1) as (s2 & E2 & Ha2 & Hh2).
  rewrite (bind_ok _ _ _ _ _ E2). rewrite <- (app_nil_r (map srv _)) in Hh2.
  destruct (does_subscribe Hs _ _ _ Hh2) as (s3 & E3 & Ha3 & [Hu3 (rs & Hd3 & Hr3)]).
  destruct (asks_trans _ _ _ _ _ _ _ Ha2 Ha3) as [Hsh _ (texts & Hw & He)].
  exists s3, texts. split; [exact E3|]. rewrite Hsh, Hs1. split; [done|]. split; [|split; [done|split]].
  - inversion Hd3; subst. exact Hr3.
  - by rewrite Hw, Hw1, <- app_assoc.
  - specialize (He []). rewrite !app_nil_r, Ht1, Hsalt1 in He. exact He.
Qed.

Context {XL : HexLaws} {U : Utf8Text} {P : PercentDecode} {PL : PercentDecodeLaws}.

(** [C3] The handshake completes against a Miniserver that answers. The Miniserver
    is a function from commands to answers; its answers arrive in order, each
    overtaken by fewer than 64 other messages. Whatever token the client starts
    with, if the answers follow the protocol of the token and the handler does not
    unwind, the handshake returns [Ok]; the token that the protocol ends with is set, in memory and in the store;
    the wire carries the key exchange and one encrypted text per command of the
    protocol; and decrypting these texts gives the Miniserver exactly the commands
    it answered, in order. *)
Theorem handshake_completes b64 cmds f rest s (all := cmds ++ subscription cfg) :
  dialogue cfg now srv (shared_token (shared (hw s))) cmds f → takes_key b64 → subscribes cfg srv →
  hears (srv (CMD_KEY_EXCHANGE ++ b64) :: map srv all) rest s →
  in_sync (w_salt (hw s)) None → (∀ n, zlen (rng_salt (draws n)) = SALT_BYTES) → Forall is_command all →
  ∃ s' texts, handshake keys cfg draws now b64 s = (s', Ok tt)
    ∧ shared (hw s') = f (shared (hw s)) ∧ hreads s' = rest
    ∧ wire (hw s') = wire (hw s) ++ (OpText, CMD_KEY_EXCHANGE ++ b64, true) :: map (λ t, (OpText, t, true)) texts
    ∧ served keys None (draws <$> seq (htick s) (length all)) texts all.
Proof using AL BL XL PL Hkeys HS.
  intros Hd Hk Hs Hh Hsync Hdraws Hc.
  destruct (handshake_follows b64 cmds f rest s Hd Hk Hs Hh) as (s' & texts & E & Hsh & Hr & _ & Hw & He).
  exists s', texts. do 4 (split; [done|]). fold all in He.
  set (ds := draws <$> seq (htick s) (length all)) in *.
  assert (length ds = length all) as Hlen by (unfold ds; by rewrite length_fmap, length_seq).
  pose proof (encrypted_served keys (zip ds all) (w_salt (hw s)) None texts) as Hserved.
  change (map fst (zip ds all)) with ((zip ds all).*1) in Hserved.
  change (map snd (zip ds all)) with ((zip ds all).*2) in Hserved.
  rewrite fst_zip, snd_zip in Hserved by lia.
  apply Hserved; [done|done| |done|done]. apply Forall_fmap, Forall_true. intros n. apply Hdraws.
Qed.
End forward.

(** ** A Miniserver *)

#[local] Existing Instances zerocopy_model json_model digests_model hex_model aes_model base64_model
  percent_model no_store reader_utf8 idle_handler zerocopy_model_laws.

(** The frames of an answer: its header and its payload. *)
Lemma frames_of_answer p : 0 < zlen p < 2 ^ 32 → answer_frames (frames_of p) p.
Proof.
  intros Hl. assert (wf_hdr {| bin_type := MAGIC; identifier := Byte.x00; info := Byte.x00; reserved := Byte.x00;
    len := le_bytes 4 (zlen p) |}) as Hwf by apply le_bytes_length.
  eapply answer_payload; [done|by apply parse_header_encode|done|done| |done].
  unfold payload_len. cbn [len]. rewrite le_Z_le_bytes, Z.mod_small; lia.
Qed.

Lemma delivers_frames ps :
  Forall (λ p, 0 < zlen p < 2 ^ 32) ps → delivers ps (concat (map frames_of ps)).
Proof.
  induction 1 as [|p ps Hp _ IH]; [constructor|]. cbn [map concat].
  apply (deliver_next [] [] 0); [constructor|unfold MAX_INTERLEAVED_FRAMES; lia|by apply frames_of_answer|done].
Qed.

(** It takes any session key, refuses every token and issues new ones. *)
Definition ok_answer : bytes := Eval vm_compute in json_text (bs "{'LL':{'code':'200','value':'41'}}").
Definition key_salt_answer : bytes := Eval vm_compute in
  json_text (bs "{'LL':{'code':'200','value':{'key':'4141','salt':'ab','hashAlg':'SHA256'}}}").
Definition miniserver (cmd : bytes) : bytes :=
  if starts_with CMD_GET_KEY_AND_SALT cmd then key_salt_answer
  else if starts_with CMD_REQUEST_TOKEN_JWT cmd then refresh_answer
  else if starts_with CMD_AUTH_WITH_TOKEN cmd then refused_answer
  else ok_answer.

(** A client with a token that the Miniserver refuses. *)
Definition old_token : LxToken := new_token (bs "old") 1000 Sha256.
Definition sample_draws : nat → Draw := λ _, {| rng_salt := replicate 16 Byte.x03; now_check := 0; now_stamp := 0 |}.
Definition old_hash : bytes := Eval vm_compute in default [] (res_ok (build_token_hash ok_answer old_token)).
Definition token_cmd : bytes := Eval vm_compute in
  default [] (fst <$> res_ok (build_acquire_token_cmd key_salt_answer (c_username sample_cfg) (c_password sample_cfg)
    (token_permission sample_cfg) (client_uuid sample_cfg) (client_info sample_cfg))).
Definition refused_cmds : list bytes :=
  [CMD_GET_KEY; cmd_auth_with_token old_hash (c_username sample_cfg)]
  ++ [cmd_getkey2 (c_username sample_cfg); token_cmd].

Lemma refused_dialogue :
  dialogue (TS := no_store) sample_cfg 0 miniserver old_token refused_cmds
    (λ sh, set_token (new_token (bs "eyJ") 500000000 Sha256) (clear_shared_token sh)).
Proof.
  apply (dlg_refused sample_cfg 0 miniserver old_token refused_answer); [done|by vm_compute|..].
  - apply (present sample_cfg miniserver old_token old_hash). vm_compute. reflexivity.
  - exists (bs "401"). split; [vm_compute; reflexivity|]. done.
  - eapply issue; vm_compute; reflexivity.
Qed.

Definition refused_state : HState unit unit :=
  {| hw := upd_shared (set_token old_token) sample_world;
     hreads := concat (map frames_of (map miniserver ((CMD_KEY_EXCHANGE ++ bs "a2V5") :: refused_cmds ++ [CMD_ENABLE_UPDATES])))
               ++ [HSilent];
     hwrites := []; htick := 0 |}.

Lemma handshake_completes_witness :
  ∃ s' texts, handshake sample_keys sample_cfg sample_draws 0 (bs "a2V5") refused_state = (s', Ok tt)
    ∧ shared (hw s') = set_token (new_token (bs "eyJ") 500000000 Sha256)
                         (clear_shared_token (set_token old_token new_shared))
    ∧ hreads s' = [HSilent]
    ∧ wire (hw s') = (OpText, CMD_KEY_EXCHANGE ++ bs "a2V5", true) :: map (λ t, (OpText, t, true)) texts
    ∧ served sample_keys None (replicate 5 (sample_draws 0)) texts (refused_cmds ++ [CMD_ENABLE_UPDATES]).
Proof.
  apply (@handshake_completes _ _ no_store idle_handler _ _ _ _ _ _ aes_model_laws base64_model_laws
           sample_keys sample_cfg sample_draws 0 ltac:(done) (λ _, True) idle_steady miniserver
           hex_model_laws _ _ percent_model_laws (bs "a2V5") refused_cmds
           (λ sh, set_token (new_token (bs "eyJ") 500000000 Sha256) (clear_shared_token sh)) [HSilent] refused_state).
  - apply refused_dialogue.
  - unfold takes_key. apply (bool_decide_unpack _ (dec := is_Some_dec _)). vm_compute. done.
  - intros _. set_solver.
  - split; [done|]. eexists. split; [apply delivers_frames|reflexivity].
    repeat (apply Forall_cons; split; [vm_compute; done|]). constructor.
  - done.
  - done.
  - repeat (apply Forall_cons; split; [by split; vm_compute|]). constructor.
Defined.
