(* ===== verification/Typed.v ===== *)
(** * The machine types of the shared objects

    The model keeps the program's integers as [Z] and its bounded containers as
    lists. Here they are shown to stay what their Rust types and capacities say, in
    every state a run of the supervisor reaches: the additions the model writes
    without a wrap cannot overflow, the code in the state cell is always one of a
    [ConnState], the tables of counters keep their sizes and the channel and the
    queue of secured commands their bounds. *)

From S2P Require Import Prelude RustStr External Models Errors Session Crypto Auth Store State Scan.
From S2P Require Import Pending Uuid Header EventTables Handler World Reader Writer Duplex Tls Http Config.
From S2P Require Import Handshake Steps Frame Live Supervisor Lifecycle.

Definition u64 (n : Z) : Prop := 0 <= n < 2 ^ 64.
Definition u32 (n : Z) : Prop := 0 <= n < 2 ^ 32.

(** The fourteen atomics and the table per message type are [u64]; a close code is in
    the table once it has been seen; the two clocks of a connection are set
    together; a round trip is not negative. *)
Record metrics_typed (m : MetricsState) : Prop := {
  ty_fields : length (counters m) = 14%nat;
  ty_counters : Forall u64 (counters m);
  ty_types : length (by_type m) = Z.to_nat MESSAGE_TYPE_COUNT;
  ty_by_type : Forall u64 (by_type m);
  ty_codes : map_Forall (λ _ n, 1 <= n) (by_close_code m);
  ty_since : is_Some (connected_since m).1 ↔ is_Some (connected_since m).2;
  ty_rtt n : last_keepalive_rtt m = Some n → 0 <= n;
}.
Record shared_typed {S} (s : SharedState S) : Prop := {
  ty_metrics : metrics_typed (metrics s);
  ty_state : ∃ c, state_cell s = conn_as_u8 c;
}.
(** [salt_used_count] is counted up without a check; the keepalive counters are
    [AtomicU64]s, the second of which is counted up by a conditional store. *)
Record world_typed {S H} (w : World S H) : Prop := {
  ty_shared : shared_typed (shared w);
  ty_salt : 0 <= salt_used_count (w_salt w) <= SALT_MAX_USE_COUNT;
  ty_sent : u64 (sent (liveness w));
  ty_acked : u64 (acked (liveness w));
  ty_visu : (length (visu w) <= 1)%nat;
}.

(** ** Metrics *)

Lemma fetch_add_u64 n x : u64 (fetch_add n x).
Proof. apply Z.mod_pos_bound. lia. Qed.

Lemma Forall_alter_u64 n i l : Forall u64 l → Forall u64 (alter (fetch_add n) i l).
Proof. intros Hl. apply Forall_alter; [done|]. intros. apply fetch_add_u64. Qed.

Lemma metrics_typed_bump c n m : metrics_typed m → metrics_typed (bump_by c n m).
Proof.
  intros []. split; try done; cbn [counters bump_by]; [by rewrite length_alter|by apply Forall_alter_u64].
Qed.

Lemma metrics_typed_message ty m : metrics_typed m → metrics_typed (record_message ty m).
Proof.
  intros [] %(metrics_typed_bump messages_received 1). unfold record_message. destruct (ty <? _); [|done].
  split; try done; cbn [by_type]; [by rewrite length_alter|by apply Forall_alter_u64].
Qed.

Lemma metrics_typed_down code m : metrics_typed m → metrics_typed (mark_disconnected code m).
Proof.
  intros [? ? ? ? Hc ? ?] %(metrics_typed_bump disconnects 1). split; try done.
  unfold mark_disconnected, bump, bump_by. cbn [by_close_code]. apply map_Forall_insert_2; [|done].
  destruct (by_close_code m !! code) as [n|] eqn:E; [|done]. apply Hc in E. cbn. unfold id. lia.
Qed.

Section typed.
Context {S H : Type} {TS : TokenStore S} {LH : LoxHandler H}.
Context {zc : ZeroCopy} {J : Json} {D : Digests} {X : Hex} {C : X509} {RL : Rustls} {UR : Url} {RS : Rsa}.
Context {U : Utf8Text} {A : AesCbc} {B : Base64} {P : PercentDecode}.
Implicit Types (w : World S H) (sh : SharedState S) (s : Sup S H).

Lemma shared_typed_upd f sh :
  (metrics_typed (metrics sh) → metrics_typed (f (metrics sh))) → shared_typed sh → shared_typed (upd_metrics f sh).
Proof using. intros Hf []. split; [by apply Hf|done]. Qed.

Lemma shared_typed_state c sh : shared_typed sh → shared_typed (set_state c sh).
Proof using. intros []. split; [done|by exists c]. Qed.

(** ** The salt *)

Lemma fill_used d cmd st :
  0 <= salt_used_count st <= SALT_MAX_USE_COUNT →
  0 <= salt_used_count (fill_salted_plaintext d cmd st) <= SALT_MAX_USE_COUNT.
Proof using.
  unfold fill_salted_plaintext, new_salt_needed, SALT_MAX_USE_COUNT. cbn [salt set_scratch salt_used_count].
  destruct (is_empty (salt st)) eqn:Es; cbn [set_scratch salt_used_count salt generate_salt]; rewrite ?Es; cbn; [lia|].
  intros Hu. destruct (Z.ltb_spec 30 (salt_used_count st + 1)); cbn; [lia|].
  destruct (_ <? _); cbn; rewrite ?Es; cbn; lia.
Qed.

Lemma encrypt_used d keys cmd st :
  0 <= salt_used_count st <= SALT_MAX_USE_COUNT →
  0 <= salt_used_count (encrypt d keys cmd st).1 <= SALT_MAX_USE_COUNT.
Proof using.
  intros Hu. unfold encrypt. pose proof (fill_used d cmd st Hu) as Hf.
  repeat (case_match; cbn [fst] in * ); simplify_eq/=; cbn; try done.
Qed.
(** ** The tasks of a session *)

Definition preserved w w' : Prop := world_typed w → world_typed w'.

#[global] Instance preserved_preorder : PreOrder preserved.
Proof using. split; [by intros w ?|]. intros w1 w2 w3 H1 H2 Hw. by apply H2, H1. Qed.

Lemma preserved_shared f w :
  (shared_typed (shared w) → shared_typed (f (shared w))) → preserved w (upd_shared f w).
Proof using. intros Hf []. split; try done. by apply Hf. Qed.

Lemma preserved_metrics f w :
  (metrics_typed (metrics (shared w)) → metrics_typed (f (metrics (shared w)))) →
  preserved w (upd_shared (upd_metrics f) w).
Proof using. intros Hf. apply preserved_shared. by apply shared_typed_upd. Qed.

#[global] Instance preserved_stepped keys : Stepped keys preserved.
Proof using.
  split; try apply _.
  - intros w w' Hs _ Hv Hl Hx _ []. split; by rewrite ?Hs, ?Hv, ?Hl, ?Hx.
  - intros c n w _. apply preserved_metrics, metrics_typed_bump.
  - intros ty w. apply preserved_metrics, metrics_typed_message.
  - intros n w Hn. apply preserved_metrics. intros []. split; try done. by intros ? [= <-].
  - intros t w. apply preserved_shared. by intros [].
  - intros w. apply preserved_shared. by intros [].
  - intros T cs r w _ []. by split.
  - intros d cmd w []. split; try done. by apply encrypt_used.
  - intros v w [? ? ? ? Hv]. split; try done. cbn. destruct (visu w) as [|v1 [|]]; cbn in *; lia.
  - intros w []. split; try done. cbn. lia.
  - intros t w []. split; try done. apply fetch_add_u64.
  - intros w [? ? Hs Ha ?]. split; try done. cbn. unfold u64 in *. destruct (Z.ltb_spec (acked (liveness w)) (sent (liveness w))); lia.
Qed.

Lemma world_start sh g stop :
  shared_typed sh → world_typed (session_world sh g salt_default stop : World S H).
Proof using. intros Hs. split; try done; unfold u64, SALT_MAX_USE_COUNT; cbn; lia. Qed.
(** ** The supervisor *)

Context {AL : AesCbcLaws} {BL : Base64Laws}.
Context (cfg : ConnectConfig S) (ep : Endpoints) (send_failed : bytes).

(** The attempts fit their [u32] and stay within the limit, when there is one; the
    command channel holds no more than it was built for. *)
Record sup_typed s : Prop := {
  ty_sup : shared_typed (sv_shared s);
  ty_attempt : u32 (sv_attempt s);
  ty_limit : max_reconnect_attempts cfg ≠ 0 → sv_attempt s <= max_reconnect_attempts cfg;
  ty_channel cs : sv_rx s = Some cs → zlen cs <= channel_depth cfg;
}.

Lemma sup_typed_shared f s :
  (shared_typed (sv_shared s) → shared_typed (f (sv_shared s))) → sup_typed s → sup_typed (upd_sh f s).
Proof using. intros Hf []. split; try done. by apply Hf. Qed.

Lemma sup_typed_metrics f s :
  (metrics_typed (metrics (sv_shared s)) → metrics_typed (f (metrics (sv_shared s)))) →
  sup_typed s → sup_typed (upd_sh (upd_metrics f) s).
Proof using. intros Hf. apply sup_typed_shared. by apply shared_typed_upd. Qed.

Lemma sup_typed_state c s : sup_typed s → sup_typed (upd_sh (set_state c) s).
Proof using. apply sup_typed_shared, shared_typed_state. Qed.

(** The guard, the TLS context, the flags and the log are free. *)
Lemma sup_typed_same s s' :
  sv_shared s' = sv_shared s → sv_attempt s' = sv_attempt s → sv_rx s' = sv_rx s → sup_typed s → sup_typed s'.
Proof using. intros Hs Ha Hr []. split; by rewrite ?Hs, ?Ha, ?Hr. Qed.

Lemma sup_typed_answer r s : sup_typed s → sup_typed (answer_ready r s).
Proof using. apply sup_typed_same; unfold answer_ready; by destruct (sv_ready s). Qed.

Lemma sup_typed_finish err s : sup_typed s → sup_typed (finish err s).
Proof using.
  intros Hs%(sup_typed_state CClosed)%(sup_typed_answer (Err (default Stopped err))).
  revert Hs. by apply sup_typed_same.
Qed.

Lemma sup_typed_outside o s : sup_typed s → sup_typed (outside cfg o s).
Proof using.
  intros Hs. destruct o as [c|c|]; cbn [outside].
  - destruct (sv_rx s) as [cs|] eqn:E; [|done]. destruct (Z.ltb_spec (zlen cs) (Z.max (command_channel_depth cfg) 1)); [|done].
    destruct Hs. split; try done. intros cs' [= <-]. unfold channel_depth, zlen in *. rewrite length_app. cbn [length]. lia.
  - apply sup_typed_metrics; [|done]. apply metrics_typed_bump.
  - by apply (sup_typed_same s).
Qed.

Lemma sup_typed_outsides os s : sup_typed s → sup_typed (outsides cfg os s).
Proof using. revert s. induction os as [|o os IH]; intros s Hs; [done|]. by apply IH, sup_typed_outside. Qed.

Lemma sup_typed_sleep from total ps s : sup_typed s → sup_typed (sleep_unless_stopped cfg from total ps s).1.
Proof using.
  intros Hs. unfold sleep_unless_stopped. destruct (_ <? _); [done|]. revert s Hs.
  induction ps as [|[os t] ps IH]; intros s Hs; cbn [sleep_loop]; [done|].
  apply (sup_typed_outsides os) in Hs. destruct (sv_stopped _); [done|]. destruct (_ <=? t); [done|by apply IH].
Qed.

Lemma sup_typed_wait from ps backoff s :
  u32 (max_reconnect_attempts cfg) → sup_typed s → sup_typed (wait_reconnect cfg from ps backoff s).1.
Proof using.
  intros Hm Hs. assert (∀ s, sup_typed s → sup_typed (close_for_good s)) as Hclose.
  { intros s0 H0%(sup_typed_state CClosed). revert H0. by apply sup_typed_same. }
  unfold wait_reconnect. destruct (should_continue _ _) eqn:Ec; cbn [negb fst]; [|by apply Hclose].
  set (s1 := upd_sh (set_state Reconnecting) _). assert (sup_typed s1) as Hs1.
  { apply sup_typed_state, sup_typed_metrics; [apply metrics_typed_bump|]. destruct Hs as [? Ha ? ?].
    split; try done; cbn; [unfold u32; apply Z.mod_pos_bound; lia|]. intros Hne. unfold should_continue, u32 in *.
    rewrite orb_true_iff, Z.eqb_eq, Z.ltb_lt in Ec. rewrite Z.mod_small; lia. }
  pose proof (sup_typed_sleep from (from_secs (match backoff with Normal => connect_delay_secs cfg | Long => long_backoff_secs cfg end)) ps s1 Hs1) as Hw.
  destruct (sleep_unless_stopped _ _ _ _ _) as [s2 []]; cbn [fst] in *; try done. by apply Hclose.
Qed.
(** ** A session *)

Lemma shake_typed e b64 s : sup_typed s → world_typed (hw (session_handshake cfg e b64 s).1).
Proof using.
  intros []. unfold session_handshake.
  apply (stepped_handshake (session_keys e) preserved cfg (hs_draws e) (hs_now e) b64). by apply world_start.
Qed.

Lemma sup_typed_shaken w s :
  world_typed w → sup_typed s → sup_typed (set_guard (guarded w) (upd_sh (λ _, shared w) s)).
Proof using. intros [] []. by split. Qed.

Lemma sup_typed_connected e b s : sup_typed s → sup_typed (connected e b s).
Proof using.
  intros Hs. unfold connected. apply sup_typed_answer.
  apply (sup_typed_state Connected), (sup_typed_metrics (mark_connected (mono e) (wall e))),
    (sup_typed_metrics (bump (if b then reconnects else connects))) in Hs.
  - revert Hs. by apply sup_typed_same.
  - intros Hm. by apply metrics_typed_bump.
  - intros []. by split.
Qed.

Definition wf_session (e : SessionEnv S H) : Prop :=
  Forall (wf_action (session_keys e) (idle_window cfg) send_failed) (acts e).

Lemma phase_typed e salt s :
  wf_session e → sup_typed s → 0 <= salt_used_count salt <= SALT_MAX_USE_COUNT →
  world_typed (lw (phase_run cfg send_failed e (phase_start salt s)))
  ∧ zlen (inbox (phase_run cfg send_failed e (phase_start salt s))) <= channel_depth cfg.
Proof using AL BL.
  intros Ha Hs Hsalt. split.
  - pose proof (live_start_session (session_keys e) (idle_window cfg) send_failed (writer_cfg cfg)
      (session_world (sv_shared s) (sv_guard s) salt (sv_stopped s)) (default [] (sv_rx s)) ltac:(done)) as [(k & reqs & Hd & _) _ _ _].
    unfold phase_run, phase_start.
    eapply (run_live_stepped (session_keys e) _ _ _ (channel_depth cfg) eq_refl preserved); [|exact Ha|exact Hd|].
    + intros w. apply preserved_shared, shared_typed_state.
    + destruct Hs as [Hs _ _ _]. split; [done|exact Hsalt|done|done|cbn; lia].
  - apply run_live_depth. cbn. destruct Hs as [_ _ _ Hc]. unfold channel_depth in *.
    destruct (sv_rx s) as [cs|]; [by apply Hc|]. unfold zlen. cbn. lia.
Qed.
Lemma sup_typed_converse e salt s :
  wf_session e → sup_typed s → 0 <= salt_used_count salt <= SALT_MAX_USE_COUNT →
  sup_typed (converse cfg send_failed e salt s).1.
Proof using AL BL.
  intros Ha Hs Hsalt. destruct (phase_typed e salt s Ha Hs Hsalt) as [[Hw _ _ _ _] Hb]. unfold converse.
  set (l := phase_run cfg send_failed e (phase_start salt s)) in *.
  set (s1 := absorb l _ s). assert (sup_typed s1) as H1.
  { destruct Hs. split; try done. by intros cs [= <-]. }
  assert (sup_typed (upd_log (log_lost (inbox l)) (set_rx None s1))) as H2 by (destruct H1; by split).
  destruct (reading l), (told l); try done. by destruct (join e).
Qed.

Lemma sup_typed_session e b s :
  wf_session e → sup_typed s → sup_typed (session_once cfg ep send_failed e b s).1.
Proof using AL BL.
  intros Ha Hs. unfold session_once.
  assert (sup_typed (outsides cfg (before e) (upd_log log_session s))) as H0.
  { apply sup_typed_outsides. by apply (sup_typed_same s). }
  set (s0 := outsides cfg (before e) (upd_log log_session s)) in *.
  destruct (establish _ _ _ _ _) as [c r]. assert (sup_typed (set_tls c s0)) as H1 by (by apply (sup_typed_same s0)).
  destruct r as [[b64|]|err]; [|done|done]. cbn zeta.
  pose proof (shake_typed e b64 _ H1) as Hw.
  destruct (session_handshake cfg e b64 (set_tls c s0)) as [hs [u|err]]; cbn [fst] in *.
  - apply sup_typed_converse; [done|by apply sup_typed_connected, sup_typed_shaken|apply Hw].
  - by apply sup_typed_shaken.
Qed.

Lemma sup_typed_note len s : sup_typed s → sup_typed (note_length len s).
Proof using.
  intros Hs. destruct len as [n|]; [|done]. cbn [note_length].
  destruct (_ <=? n); [|by apply (sup_typed_same s)]. destruct Hs as [? ? Hl ?]. split; try done; cbn.
  intros Hne. specialize (Hl Hne). unfold u32 in *. lia.
Qed.

Lemma sup_typed_after o s : sup_typed s → sup_typed (after_session o s).1.
Proof using.
  intros Hs. destruct o as [|code|err]; cbn [after_session fst].
  - by apply sup_typed_finish.
  - set (s1 := set_guard _ _). assert (sup_typed s1) as H1.
    { apply (sup_typed_metrics (mark_disconnected code)) in Hs; [|apply metrics_typed_down].
      revert Hs. by apply sup_typed_same. }
    set (s2 := if token_survives_close code then s1 else _). assert (sup_typed s2) as H2.
    { unfold s2. destruct (token_survives_close code); [done|]. revert H1. apply sup_typed_shared. by intros []. }
    destruct (terminal_close code); [by apply sup_typed_finish|done].
  - apply (sup_typed_metrics (bump reconnect_failures)) in Hs; [|apply metrics_typed_bump].
    destruct (is_terminal err); [by apply sup_typed_finish|]. destruct (negb _); [by apply sup_typed_finish|done].
Qed.

Lemma sup_typed_iteration e s :
  u32 (max_reconnect_attempts cfg) → wf_session (session e) → sup_typed s →
  sup_typed (iteration cfg ep send_failed e s).1.
Proof using AL BL.
  intros Hm Ha Hs. unfold iteration. destruct (sv_stopped s); [by apply sup_typed_finish|].
  destruct (panicked (sv_guard s)); [by apply sup_typed_finish|].
  apply (sup_typed_state (if sv_ever s then Reconnecting else Connecting)) in Hs.
  set (s1 := upd_sh _ s) in *. destruct (sv_rx s1); [|by apply sup_typed_finish].
  pose proof (sup_typed_session (session e) (sv_ever s1) s1 Ha Hs) as H2.
  destruct (session_once _ _ _ _ _ _) as [s2 [| |o len]]; try done. cbn [fst] in H2.
  pose proof (sup_typed_after o _ (sup_typed_note len s2 H2)) as H4.
  destruct (after_session _ _) as [s4 [bo|]]; [|done]. cbn [fst] in H4.
  pose proof (sup_typed_wait (wait_from e) (polls e) bo s4 Hm H4) as H5.
  by destruct (wait_reconnect _ _ _ _ _) as [s5 []].
Qed.

Lemma sup_typed_supervise es s :
  u32 (max_reconnect_attempts cfg) → Forall (λ e, wf_session (session e)) es → sup_typed s →
  sup_typed (supervise cfg ep send_failed es s).1.
Proof using AL BL.
  intros Hm Hes. revert s. induction Hes as [|e es He _ IH]; intros s Hs; cbn [supervise]; [done|].
  pose proof (sup_typed_iteration e s Hm He Hs) as H1.
  destruct (iteration _ _ _ _ _) as [s1 [st|]]; [done|by apply IH].
Qed.
End typed.

Section promise.
Context {S H : Type} {TS : TokenStore S} {LH : LoxHandler H}.
Context {zc : ZeroCopy} {J : Json} {D : Digests} {X : Hex} {C : X509} {RL : Rustls} {UR : Url} {RS : Rsa}.
Context {U : Utf8Text} {A : AesCbc} {B : Base64} {P : PercentDecode}.
Context {AL : AesCbcLaws} {BL : Base64Laws}.

Lemma new_metrics_typed : metrics_typed new_metrics.
Proof using.
  split; try done; by apply Forall_replicate.
Qed.

End promise.

(** ** Samples *)

#[local] Existing Instances zerocopy_model json_model digests_model hex_model aes_model base64_model
  percent_model no_store reader_utf8 x509_model rustls_model rsa_model idle_handler.
#[local] Existing Instances base64_model_laws aes_model_laws.

