(* ===== verification/Correlate.v ===== *)
(** * Answers reach the commands they answer

    The Miniserver answers commands in the order they arrive, and the queue of
    waiters hands the answers out in that order. This file puts the reader, the
    writer and the queue together over the connected phase of a session: while
    nothing times out and nothing unasked arrives, the text messages received are,
    one by one, the answers to the commands on the wire, and what a caller
    receives is the message at the position of its own command. *)

From S2P Require Import Prelude RustStr External Models Errors Session Crypto Auth Store State Scan.
From S2P Require Import Pending Uuid Header EventTables Handler World Reader Writer Duplex Tls Http Config.
From S2P Require Import Handshake Steps Frame Live Supervisor Wire.

(** The text messages among the callbacks entered: the reader shows the handler
    every message raw before anything else. *)
Definition texts (h : list Call) : list bytes :=
  omap (λ c, match c with
             | on_raw_payload ty p => if ty =? mt_as_u8 Text then Some p else None
             | _ => None
             end) h.

(** The answers a caller gets from the Miniserver. *)
Definition oks (ds : list Delivery) : list (Sender * bytes) :=
  omap (λ '(tx, r), match r with Ok p => Some (tx, p) | Err _ => None end) ds.

(** Commands with the message each was answered by, and what the callers get. *)
Definition handed (answered : list (PendingEntry * bytes)) : list (Sender * bytes) :=
  omap (λ '(e, p), (λ tx, (tx, p)) <$> resp e) answered.

Lemma texts_app h h' : texts (h ++ h') = texts h ++ texts h'.
Proof. apply omap_app. Qed.
Lemma oks_app ds ds' : oks (ds ++ ds') = oks ds ++ oks ds'.
Proof. apply omap_app. Qed.
Lemma handed_app a a' : handed (a ++ a') = handed a ++ handed a'.
Proof. apply omap_app. Qed.

Section correlate.
Context {S H : Type} {TS : TokenStore S} {LH : LoxHandler H}.
Context {zc : ZeroCopy} {J : Json} {D : Digests} {X : Hex}.
Context {U : Utf8Text} {A : AesCbc} {B : Base64} {P : PercentDecode}.
Context (keys : SessionKeys).
Implicit Types (w : World S H) (l : Live S H).

(** The message names the command, or names none. *)
Definition echoes (e : PendingEntry) (p : bytes) : bool :=
  match extract_ll_control p with
  | None => true
  | Some ctrl =>
      bool_decide (canonical ctrl = canonical (wire_cmd e))
      || match decode_control ctrl keys with
         | Some plain => control_matches plain (plaintext_cmd e)
         | None => false
         end
  end.
Definition misnamed (answered : list (PendingEntry * bytes)) : Z :=
  zlen (List.filter (λ '(e, p), negb (echoes e p)) answered).

Lemma misnamed_app a a' : misnamed (a ++ a') = misnamed a + misnamed a'.
Proof using. unfold misnamed. by rewrite List.filter_app, zlen_app. Qed.

(** ** One message *)

Lemma texts_calls ty p w :
  texts (table_calls ty p ++ extra_calls ty p w) = if ty =? mt_as_u8 Text then [p] else [].
Proof using.
  rewrite texts_app. assert (texts (extra_calls ty p w) = []) as ->.
  { unfold extra_calls. destruct (mt_from_u8 ty) as [[]|]; try done. by destruct (entries _). }
  rewrite app_nil_r. unfold table_calls.
  assert (∀ cs, Forall (λ c, ∀ ty p, c ≠ on_raw_payload ty p) cs → texts cs = []) as Hnone.
  { induction 1 as [|c cs Hc _ IH]; [done|]. destruct c; try exact IH. by destruct (Hc msg_type payload). }
  change (on_raw_payload ty p :: ?cs) with ([on_raw_payload ty p] ++ cs).
  rewrite texts_app, (Hnone (dispatch_event ty p).1), app_nil_r; [by cbn; destruct (_ =? _)|].
  unfold dispatch_event. destruct (mt_from_u8 ty) as [[]|]; cbn [fst]; try constructor; try done;
    apply Forall_map, Forall_true; by try (intros [[? ?] ?] || intros [? ?] || intros ?).
Qed.

(** A text message whose callback returns is taken for an answer. *)
Lemma dispatch_text t p w w' :
  dispatch keys t (mt_as_u8 Text) p w = (w', Ok tt) →
  ∃ w0, pending w0 = pending w ∧ delivered w0 = delivered w ∧ on_text_message keys p w0 = (w', Ok tt).
Proof using.
  unfold dispatch. cbn [dispatch_event mt_from_u8 mt_as_u8]. unfold mbind at 1, M_bind at 1. cbn [modify].
  set (w0 := upd_shared _ w). change (mt_from_u8 0) with (Some Text). cbn iota.
  destruct (guard_m [on_raw_payload 0 p] false w0) as [w1 [d|err]] eqn:E.
  2:{ by rewrite (bind_err _ _ _ _ _ E). }
  rewrite (bind_ok _ _ _ _ _ E). apply guard_m_spec in E as [Hw1 (-> & _)]. intros Et.
  exists w1. by rewrite Hw1 in Et |- *.
Qed.

(** What a message does to the queue when the handler does not unwind: it is no text
    and changes nothing, or it answers the oldest command, or nobody asked for it. *)
Lemma dispatch_answers t ty p w w' r :
  dispatch keys t ty p w = (w', r) → panicked (guarded w') = false →
  panicked (guarded w) = false ∧ timeouts (pending w') = timeouts (pending w)
  ∧ unsolicited (pending w) <= unsolicited (pending w')
  ∧ (unsolicited (pending w') = unsolicited (pending w) →
     ∃ answered, entries (pending w) = map fst answered ++ entries (pending w')
       ∧ texts (history (guarded w')) = texts (history (guarded w)) ++ map snd answered
       ∧ oks (delivered w') = oks (delivered w) ++ handed answered
       ∧ mismatches (pending w') = mismatches (pending w) + misnamed answered).
Proof using.
  intros E Hp. pose proof (dispatch_calls _ _ _ _ _ _ _ E) as Hc.
  destruct r as [[]|err]; cbn [guard_post] in Hc; [|destruct Hc as (_ & Hp' & _); congruence].
  destruct Hc as (Hp0 & _ & Hh). split; [done|]. rewrite Hh, texts_app, texts_calls.
  destruct (Z.eqb_spec ty (mt_as_u8 Text)) as [->|Hne].
  - apply dispatch_text in E as (w0 & <- & <- & E). rewrite on_text_message_eq in E. unfold resolve in E.
    destruct (entries (pending w0)) as [|e es] eqn:Ees.
    { apply guard_m_spec in E as [-> _]. cbn. split; [done|]. split; [lia|]. lia. }
    destruct (match extract_ll_control p with Some _ => _ | None => _ end) as [ok dec] eqn:Eok.
    assert (ok = echoes e p) as Hok.
    { revert Eok. unfold echoes. destruct (extract_ll_control p) as [ctrl|]; [|by intros [= <- _]].
      case_bool_decide; by intros [= <- _]. }
    injection E as <-. set (r0 := {| r_plaintext_cmd := _ |}). set (q := {| entries := es |}).
    destruct (resolved_world_effect p r0 (set_pending q w0)) as (ms & Hq & Hd & _).
    rewrite Hq, Hd. cbn [pending set_pending q timeouts unsolicited entries mismatches r0 r_resp delivered].
    split; [done|]. split; [lia|]. intros _. exists [(e, p)]. split; [done|]. split; [done|].
    rewrite oks_app. unfold handed, misnamed. cbn. rewrite <- Hok. split; [by destruct (resp e)|].
    destruct ok; unfold zlen; cbn; lia.
  - apply dispatch_effect in E as [(Hq & _ & _ & Hd)|(-> & _)]; [|done]. rewrite Hq, Hd.
    split; [done|]. split; [lia|]. intros _. exists []. cbn. rewrite !app_nil_r. split; [done|].
    split; [done|]. split; [done|]. unfold misnamed, zlen. cbn. lia.
Qed.

(** ** Between two states of the phase *)

Context (idle_timeout : Z) (send_failed : bytes) (cfg : WriterConfig) (depth : Z).
Context {AL : AesCbcLaws} {BL : Base64Laws} (Hkeys : wf_keys keys).

(** Where a command of the queue comes from: it is encrypted on the wire, and its
    caller handed it in. *)
Definition made (cs : list IoCommand) (e : PendingEntry) : Prop :=
  (∃ d st, (encrypt d keys (plaintext_cmd e) st).2 = Ok (wire_cmd e))
  ∧ ∀ tx, resp e = Some tx → Encrypted (plaintext_cmd e) tx ∈ cs.

(** [new] are the commands written or about to be, [answered] those answered. *)
Record exchanged (new : list PendingEntry) (answered : list (PendingEntry * bytes)) l l' : Prop := {
  ex_queue : entries (pending (lw l)) ++ new = map fst answered ++ entries (pending (lw l'));
  ex_wire : command_texts (wire (lw l')) ++ pc_text (deciding l')
            = (command_texts (wire (lw l)) ++ pc_text (deciding l)) ++ map wire_cmd new;
  ex_texts : texts (history (guarded (lw l'))) = texts (history (guarded (lw l))) ++ map snd answered;
  ex_oks : oks (delivered (lw l')) = oks (delivered (lw l)) ++ handed answered;
  ex_mismatches : mismatches (pending (lw l')) = mismatches (pending (lw l)) + misnamed answered;
  ex_made : Forall (made (popped l')) new;
}.

(** While the writer is there and the handler has not unwound. *)
Definition converses l l' : Prop :=
  writer_gone (lw l') = false → panicked (guarded (lw l')) = false →
  writer_gone (lw l) = false ∧ panicked (guarded (lw l)) = false
  ∧ timeouts (pending (lw l)) <= timeouts (pending (lw l'))
  ∧ unsolicited (pending (lw l)) <= unsolicited (pending (lw l'))
  ∧ popped l ⊆ popped l'
  ∧ (timeouts (pending (lw l')) = timeouts (pending (lw l)) →
     unsolicited (pending (lw l')) = unsolicited (pending (lw l)) →
     ∃ new answered, exchanged new answered l l').

Lemma made_mono cs cs' e : cs ⊆ cs' → made cs e → made cs' e.
Proof using. intros Hs [He Htx]. split; [done|]. auto. Qed.

#[local] Instance converses_preorder : PreOrder converses.
Proof using.
  split.
  - intros l Hg Hp. do 2 (split; [done|]). do 2 (split; [lia|]). split; [done|]. intros _ _. exists [], [].
    split; cbn; rewrite ?app_nil_r; try done. unfold misnamed, zlen. cbn. lia.
  - intros l1 l2 l3 H1 H2 Hg Hp. destruct (H2 Hg Hp) as (Hg2 & Hp2 & Ht2 & Hu2 & Hs2 & He2).
    destruct (H1 Hg2 Hp2) as (Hg1 & Hp1 & Ht1 & Hu1 & Hs1 & He1). do 2 (split; [done|]). do 2 (split; [lia|]).
    split; [by etrans|]. intros Ht Hu.
    destruct (He1 ltac:(lia) ltac:(lia)) as (n1 & a1 & [Q1 W1 T1 O1 M1 F1]).
    destruct (He2 ltac:(lia) ltac:(lia)) as (n2 & a2 & [Q2 W2 T2 O2 M2 F2]). exists (n1 ++ n2), (a1 ++ a2). split.
    + by rewrite app_assoc, Q1, <- app_assoc, Q2, map_app, <- app_assoc.
    + by rewrite W2, W1, map_app, <- !app_assoc.
    + by rewrite T2, T1, map_app, <- app_assoc.
    + by rewrite O2, O1, handed_app, <- app_assoc.
    + rewrite M2, M1, misnamed_app. lia.
    + apply Forall_app. split; [|done]. eapply Forall_impl; [exact F1|]. intros e. by apply made_mono.
Qed.

(** Steps that leave the conversation alone. *)
Lemma converses_same l l' :
  pending (lw l') = pending (lw l) → delivered (lw l') = delivered (lw l) →
  wire (lw l') = wire (lw l) → writer_gone (lw l') = writer_gone (lw l) →
  guarded (lw l') = guarded (lw l) → popped l ⊆ popped l' → deciding l' = deciding l → converses l l'.
Proof using.
  intros Eq Ed Ew Eg Eh Ep Ec Hg Hp. rewrite Eq. rewrite Eg in Hg. rewrite Eh in Hp.
  do 2 (split; [done|]). do 2 (split; [lia|]). split; [done|]. intros _ _. exists [], [].
  split; cbn; rewrite ?Eq, ?Ed, ?Ew, ?Eh, ?Ec, ?app_nil_r; try done. unfold misnamed, zlen. cbn. lia.
Qed.

(** *** The reader *)

Lemma read_converses r e e' o l w' :
  control_only r → read_step keys idle_timeout send_failed r e (lw l) = (w', e', o) →
  ∀ e2, converses l (set_reading e2 (set_lw w' l)).
Proof using.
  intros Hc E e2. unfold read_step in E.
  assert (converses l (set_reading e2 (set_lw (lw l) l))) as Hsame by (by apply converses_same).
  destruct (_ <? _); [by injection E as <- _ _|].
  destruct (read_frame send_failed r (lw l)) as [w1 f] eqn:Ef.
  assert (converses l (set_lw w1 l)) as H1.
  { apply (read_frame_change _ _ _ _ _ Hc) in Ef as [->|(m & _ & ->)]; by apply converses_same. }
  assert (∀ w2, w2 = w1 ∨ (∃ ty p r', dispatch keys (at_ r) ty p w1 = (w2, r')) →
          converses l (set_reading e2 (set_lw w2 l))) as H2.
  { intros w2 [->|(ty & p & r' & Ed)]; (transitivity (set_lw w1 l); [done|]); [by apply converses_same|].
    pose proof (dispatch_io _ _ _ _ _ _ _ Ed) as [(_ & Hw & _ & Hg & _) _]. intros Hg2 Hp2.
    cbn [lw set_reading set_lw popped deciding] in *. rewrite Hg in Hg2.
    destruct (dispatch_answers _ _ _ _ _ _ Ed Hp2) as (Hp1 & Ht & Hu & Ha).
    do 2 (split; [done|]). do 2 (split; [lia|]). split; [done|]. intros _ Hu'.
    destruct (Ha Hu') as (answered & Q & T & O & M). exists [], answered.
    split; cbn; rewrite ?app_nil_r; try done. by rewrite Hw. }
  destruct f as [[op p]|err]; [|injection E as <- _ _; by apply H2; left].
  destruct op; try (injection E as <- _ _; by apply H2; left);
    (destruct (on_data_frame keys (at_ r) e p w1) as [w2 [[e3 o3]|err]] eqn:Ed;
     apply on_data_frame_change in Ed; injection E as <- _ _; by apply H2).
Qed.

(** *** The writer *)

(** The command a turn of the writer takes from the channel. *)
Definition offered (s : Step S H) w : list IoCommand :=
  match out_queue w, arm s with [], ArmCmd (Some c) => [c] | _, _ => [] end.

(** What deciding leaves alone, and the commands it enqueues. *)
Record decided (s : Step S H) (new : list PendingEntry) (o : Outgoing) w w' : Prop := {
  dc_entries : entries (pending w') = entries (pending w) ++ new;
  dc_counts : mismatches (pending w') = mismatches (pending w) ∧ timeouts (pending w') = timeouts (pending w)
              ∧ unsolicited (pending w') = unsolicited (pending w);
  dc_oks : oks (delivered w') = oks (delivered w);
  dc_same : guarded w' = guarded w ∧ wire w' = wire w ∧ writer_gone w' = writer_gone w;
  dc_text : map wire_cmd new = pending_text o;
  dc_made : Forall (made (offered s w)) new;
}.

Lemma prepare_decided s cmd tx w w0 w' o :
  decided s [] OIdle w w0 →
  (∀ t, tx = Some t → offered s w = [Encrypted cmd t]) →
  prepare_command keys cfg (env s) cmd tx w0 = (w', o) → ∃ new, decided s new o w w'.
Proof using AL BL Hkeys.
  intros [He (Hm & Ht & Hu) Ho (Hg & Hw & Hgo) _ _] Htx. unfold prepare_command.
  destruct (encrypt_spec (draw (env s)) keys cmd (w_salt w0) Hkeys) as (c & _ & _ & E). rewrite E.
  intros [= <- <-]. eexists [_]. split; cbn [pending set_pending set_salt push entries mismatches timeouts unsolicited].
  - by rewrite He, app_nil_r.
  - done.
  - done.
  - done.
  - cbn. done.
  - apply Forall_singleton. split; cbn [plaintext_cmd wire_cmd resp].
    + exists (draw (env s)), (w_salt w0). by rewrite E.
    + intros t Et. rewrite (Htx t Et). apply list_elem_of_here.
Qed.

Lemma decide_decided s w w' o :
  Forall from_reader (out_queue w) → decide_outgoing keys cfg s w = (w', o) → ∃ new, decided s new o w w'.
Proof using AL BL Hkeys.
  unfold decide_outgoing. intros Hout. pose proof (eq_refl (offered s w)) as Hof. unfold offered at 2 in Hof.
  assert (∀ w0 o0, pending w0 = pending w → oks (delivered w0) = oks (delivered w) → guarded w0 = guarded w →
    wire w0 = wire w → writer_gone w0 = writer_gone w → pending_text o0 = [] → decided s [] o0 w w0) as Hq.
  { intros w0 o0 Ep Eo Eg Ew Ego Et. split; rewrite ?Ep, ?app_nil_r; done. }
  assert (∀ w0 o0, (w0, o0) = (w', o) → pending w0 = pending w → oks (delivered w0) = oks (delivered w) →
    guarded w0 = guarded w → wire w0 = wire w → writer_gone w0 = writer_gone w → pending_text o0 = [] →
    ∃ new, decided s new o w w') as Hquiet.
  { intros w0 o0 [= -> ->] ? ? ? ? ? ?. exists []. by apply Hq. }
  destruct (out_queue w) as [|m ms].
  - destruct (arm s) as [|[cmd|]| |]; try (intros E; by eapply Hquiet).
    + destruct cmd as [cmd tx|uuid value|uuid value pw| |]; cbn [on_io_command]; try (intros E; by eapply Hquiet).
      * destruct (max_pending cfg <=? _).
        -- intros E. eapply Hquiet; [exact E|..]; try done. cbn [delivered deliver answer count]. rewrite oks_app. apply app_nil_r.
        -- intros E. refine (prepare_decided s cmd (Some tx) w _ w' o _ _ E); [by apply Hq|]. by intros t [= <-].
      * intros E. eapply prepare_decided; [| |exact E]; [by apply Hq|done].
      * intros E. eapply prepare_decided; [| |exact E]; [by apply Hq|done].
    + unfold on_keepalive_tick. destruct (_ <=? _); intros E; by eapply Hquiet.
  - inversion Hout as [|? ? Hm _]; subst. destruct m as [op p|cmd tx|]; cbn [on_writer_msg];
      try (intros E; by eapply Hquiet).
    cbn in Hm. subst tx. intros E. eapply prepare_decided; [| |exact E]; [by apply Hq|done].
Qed.

Lemma decides_converses s l :
  Forall from_reader (out_queue (lw l)) → deciding l = None →
  offered s (lw l) ⊆ popped l →
  converses l (writer_decides keys cfg s l).
Proof using AL BL Hkeys.
  intros Hout Hn Hof. unfold writer_decides.
  destruct (decide_outgoing keys cfg s (lw l)) as [w' o] eqn:E.
  apply decide_decided in E as (new & [He (Hm & Ht & Hu) Ho (Hg & Hw & Hgo) Htext Hmade]); [|done].
  intros Hg' Hp'. cbn [lw set_deciding set_lw popped] in *. rewrite Hgo in Hg'. rewrite Hg in Hp'.
  do 2 (split; [done|]). do 2 (split; [lia|]). split; [done|]. intros _ _. exists new, [].
  split; cbn [lw set_deciding set_lw popped deciding map app handed omap list_omap pc_text].
  - by rewrite He.
  - by rewrite Hw, Hn, Htext, app_nil_r.
  - by rewrite Hg, app_nil_r.
  - by rewrite Ho, app_nil_r.
  - rewrite Hm. unfold misnamed, zlen. cbn. lia.
  - eapply Forall_impl; [exact Hmade|]. intros e. by apply made_mono.
Qed.

Lemma expire_quiet t w :
  let w' := expire_pending t w in
  guarded w' = guarded w ∧ wire w' = wire w ∧ writer_gone w' = writer_gone w
  ∧ unsolicited (pending w') = unsolicited (pending w) ∧ timeouts (pending w) <= timeouts (pending w')
  ∧ (timeouts (pending w') = timeouts (pending w) → pending w' = pending w ∧ delivered w' = delivered w).
Proof using.
  unfold expire_pending, expire. pose proof (expire_loop_split t (entries (pending w))) as Hl.
  destruct (expire_loop t (entries (pending w))) as [[rest out] n].
  destruct Hl as (gone & Hes & -> & _ & _ & ->). pose proof (zlen_nonneg gone) as Hn.
  destruct (0 <? zlen gone); cbn; do 4 (split; [done|]); (split; [lia|]); intros Ht;
    (destruct gone; [|rewrite zlen_cons in *; pose proof (zlen_nonneg gone); lia]); cbn in *;
    rewrite <- Hes, Z.add_0_r, app_nil_r; by destruct (pending w).
Qed.

Lemma perform_converses s o l w' e :
  deciding l = Some (s, o) → match o with OControl op _ => is_data op = false | _ => True end →
  perform keys cfg s o (lw l) = (w', true) → converses l (set_deciding None (set_reading e (set_lw w' l))).
Proof using.
  intros Hd Hctl E.
  assert (∃ w1, w' = expire_pending (expire_at s) w1 ∧ pending w1 = pending (lw l)
    ∧ delivered w1 = delivered (lw l) ∧ guarded w1 = guarded (lw l) ∧ writer_gone w1 = writer_gone (lw l)
    ∧ command_texts (wire w1) = command_texts (wire (lw l)) ++ pending_text o)
    as (w1 & -> & Ep & Ede & Eg & Ego & Et).
  { destruct o as [t|op p| | |]; cbn [perform] in E.
    - destruct (write s); cbn [write_frame] in E; try discriminate. injection E as <-. eexists. do 5 (split; [done|]).
      by rewrite put_text.
    - destruct (write s); cbn [write_frame] in E; try discriminate. injection E as <-. eexists. do 5 (split; [done|]).
      cbn [wire put_frame pending_text]. rewrite command_texts_snoc. f_equal. cbn.
      rewrite bool_decide_false; [done|]. by intros [-> _].
    - discriminate.
    - discriminate.
    - injection E as <-. eexists. do 5 (split; [done|]). by rewrite app_nil_r. }
  destruct (expire_quiet (expire_at s) w1) as (Hg & Hw & Hgo & Hu & Ht & Hq). intros Hg' Hp'.
  cbn [lw set_deciding set_reading set_lw popped deciding] in *. rewrite Hgo, Ego in Hg'. rewrite Hg, Eg in Hp'.
  rewrite Ep in Ht, Hu. do 2 (split; [done|]). do 2 (split; [lia|]). split; [done|]. intros Ht' _.
  rewrite <- Ep in Ht'. destruct (Hq Ht') as [Hpe Hde]. exists [], [].
  split; cbn [lw set_deciding set_reading set_lw popped deciding map app handed omap list_omap pc_text];
    rewrite ?Hpe, ?Hde, ?Hg, ?Hw, ?Ep, ?Ede, ?Eg, ?app_nil_r; try done.
  - by rewrite Et, Hd.
  - unfold misnamed, zlen. cbn. lia.
Qed.

(** *** The schedule *)

Lemma live_step_converses a l st k reqs :
  wf_action keys idle_timeout send_failed a → interleaved keys idle_timeout send_failed cfg st k reqs l →
  converses l (live_step keys idle_timeout send_failed cfg depth a l).
Proof using AL BL Hkeys.
  intros Ha Hi. pose proof (duplex_inv keys idle_timeout send_failed cfg Hkeys _ _ _ _ _ _ Hi) as [_ Hout Hpc _ _].
  destruct a as [r|s|p|c|t|c| |]; cbn [live_step]; cbn [wf_action] in Ha; try (by apply converses_same).
  - destruct (reading l) as [e|o]; [|reflexivity].
    destruct (read_step _ _ _ r e (lw l)) as [[w e'] o] eqn:E. by eapply read_converses.
  - destruct (writer_gone (lw l)); [reflexivity|]. destruct (deciding l) eqn:Hn; [reflexivity|].
    assert (offered s (lw l) = [] → converses l (writer_decides keys cfg s l)) as Hplain.
    { intros Ho. apply decides_converses; [done|done|]. rewrite Ho. apply list_subseteq_nil. }
    unfold offered in Hplain. destruct (out_queue (lw l)) as [|m ms] eqn:Ho; [|by apply Hplain].
    destruct (arm s) as [|c| |]; try (by apply Hplain).
    + destruct (told l); [by apply Hplain|reflexivity].
    + unfold takes_command. destruct (inbox l) as [|c0 cs]; [reflexivity|]. set (l1 := {| lw := lw l |}).
      transitivity l1.
      * apply converses_same; try done. apply list_subseteq_app_l. done.
      * apply decides_converses; unfold offered; cbn; rewrite ?Ho; [done|done|]. by apply list_subseteq_app_r.
  - destruct (deciding l) as [[s o]|] eqn:Hn; [|reflexivity]. destruct Hpc as [_ Hctl].
    destruct (perform keys cfg s o (lw l)) as [w []] eqn:E; [by eapply perform_converses|]. by intros [=].
  - destruct (_ <? _); by apply converses_same.
  - destruct (reading l); [reflexivity|]. destruct (told l); [reflexivity|].
    apply converses_same; cbn [lw popped deciding]; try done; unfold out_send;
      destruct (stopped (lw l)); cbn [writer_gone upd_shared]; by destruct (writer_gone (lw l)) eqn:?.
Qed.

Lemma run_live_converses acts l st k reqs :
  Forall (wf_action keys idle_timeout send_failed) acts →
  interleaved keys idle_timeout send_failed cfg st k reqs l →
  converses l (run_live keys idle_timeout send_failed cfg depth acts l).
Proof using AL BL Hkeys.
  intros Hacts. revert l k reqs. induction Hacts as [|a acts Ha _ IH]; intros l k reqs Hi; [reflexivity|].
  cbn [run_live fold_left]. transitivity (live_step keys idle_timeout send_failed cfg depth a l).
  - by eapply live_step_converses.
  - destruct (live_step_duplex keys idle_timeout send_failed cfg depth a l st k reqs Ha Hi) as (k' & reqs' & _ & Hi' & _).
    by eapply IH.
Qed.
End correlate.

(** ** A session *)

Section session.
Context {S H : Type} {TS : TokenStore S} {LH : LoxHandler H}.
Context {zc : ZeroCopy} {J : Json} {D : Digests} {X : Hex} {V : X509} {RL : Rustls} {R : Rsa}.
Context {U : Utf8Text} {A : AesCbc} {B : Base64} {P : PercentDecode}.
Context {AL : AesCbcLaws} {BL : Base64Laws}.
Context (cfg : ConnectConfig S) (send_failed : bytes).

End session.

(** ** Two commands, one answered *)

#[local] Existing Instances zerocopy_model json_model digests_model hex_model aes_model base64_model
  percent_model no_store reader_utf8 x509_model rustls_model rsa_model idle_handler.
#[local] Existing Instances base64_model_laws aes_model_laws.

Definition key_answer : bytes :=
  json_text (bs "{'LL':{'control':'jdev/sys/getkey','value':'41','Code':'200'}}").
Definition turn : list (Action unit unit) := [ActDecide (sample_step (ArmCmd None)); ActPerform (inl START)].
Definition talk_session : SessionEnv unit unit :=
  let e := sample_session in
  {| before := before e; probe_net := probe_net e; pin_net := pin_net e; key_net := key_net e; ws_net := ws_net e;
     rng_key := rng_key e; rng_iv := rng_iv e; rng_rsa := rng_rsa e; hs_reads := hs_reads e;
     hs_writes := hs_writes e; hs_draws := hs_draws e; hs_now := hs_now e; mono := mono e; wall := wall e;
     acts := [ActEnqueue (Encrypted (bs "jdev/sys/getkey") 7%nat);
              ActEnqueue (Encrypted (bs "jdev/sps/io/a/on") 8%nat)] ++ turn ++ turn
             ++ [ActRead (read_of OpBinary (sample_header Byte.x00 Byte.x00 (zlen key_answer)));
                 ActRead (read_of OpText key_answer)];
     join := join e; lasted := lasted e |}.

