(* ===== verification/Reconnect.v ===== *)
(** * How the supervisor tries again

    The wait between two sessions ends in time and heeds a stop; no session begins
    once a stop has been seen; with a limit on attempts the number of sessions is
    bounded. *)

From S2P Require Import Prelude RustStr External Models Errors Session Crypto Auth Store State Scan.
From S2P Require Import Pending Uuid Header EventTables Handler World Reader Writer Duplex Tls Http Config.
From S2P Require Import Handshake Steps Frame Live Supervisor.

Section reconnect.
Context {S H : Type} {TS : TokenStore S} {LH : LoxHandler H}.
Context {zc : ZeroCopy} {J : Json} {D : Digests} {X : Hex} {C : X509} {RL : Rustls} {UR : Url} {R : Rsa}.
Context {U : Utf8Text} {A : AesCbc} {B : Base64} {P : PercentDecode}.
Context (cfg : ConnectConfig S).
Implicit Types s : Sup S H.

(** ** The wait *)

(** The looks at the flag come after the slices slept: [t] is the earliest time of
    the next one. *)
Fixpoint paced (deadline t : Z) (polls : list (list Outside * Z)) : Prop :=
  match polls with
  | [] => True
  | (_, now) :: polls => t <= now ∧ paced deadline (now + Z.min SLICE (deadline - now)) polls
  end.

Lemma sleep_loop_ends deadline t polls s :
  paced deadline t polls → polls ≠ [] → deadline - t <= SLICE * (zlen polls - 1) →
  snd (sleep_loop cfg deadline polls s) ≠ Asleep.
Proof using.
  revert t s. induction polls as [|[os now] polls IH]; intros t s; [done|]. cbn [paced sleep_loop].
  intros [Ht Hp] _. rewrite zlen_cons. intros Hd.
  destruct (sv_stopped _); [done|]. destruct (Z.leb_spec deadline now) as [|Hlt]; [done|].
  apply (IH _ _ Hp).
  - intros ->. change (zlen (@nil (list Outside * Z))) with 0 in Hd. lia.
  - unfold SLICE in *. destruct (Z.min_spec 250000000 (deadline - now)) as [[_ ->]|[_ ->]]; [lia|].
    pose proof (zlen_nonneg polls). lia.
Qed.

Lemma sleep_loop_result deadline polls s :
  let '(s', r) := sleep_loop cfg deadline polls s in
  match r with
  | Slept => sv_stopped s' = false ∧ Exists (λ '(_, now), deadline <= now) polls
  | Woken => sv_stopped s' = true
  | Asleep => True
  | TooLong => False
  end.
Proof using.
  revert s. induction polls as [|[os now] polls IH]; intros s; cbn [sleep_loop]; [done|].
  destruct (sv_stopped (outsides cfg os s)) eqn:Hs; [done|].
  destruct (Z.leb_spec deadline now); [split; [done|by apply Exists_cons_hd]|].
  specialize (IH (outsides cfg os s)). destruct (sleep_loop _ _ _ _) as [s' []]; try done.
  destruct IH. split; [done|by apply Exists_cons_tl].
Qed.

(** [C29] The wait between two sessions ends: with the flag looked at after each
    slice, a wait of [total] is over after at most [total / SLICE + 2] looks. It has
    then either lasted [total], with no stop requested, or a stop has been seen. *)
Theorem backoff_ends from total polls s :
  0 <= total → from + total <= MAX_INSTANT → paced (from + total) from polls →
  total / SLICE + 2 <= zlen polls →
  let '(s', r) := sleep_unless_stopped cfg from total polls s in
  (r = Slept ∧ sv_stopped s' = false ∧ Exists (λ '(_, now), from + total <= now) polls)
  ∨ (r = Woken ∧ sv_stopped s' = true).
Proof using.
  intros Ht Hm Hp Hl. unfold sleep_unless_stopped. destruct (Z.ltb_spec MAX_INSTANT (from + total)); [lia|].
  pose proof (sleep_loop_result (from + total) polls s) as Hr.
  assert (snd (sleep_loop cfg (from + total) polls s) ≠ Asleep) as Ha.
  { apply (sleep_loop_ends _ from); [done|intros ->; unfold zlen in Hl; cbn [length] in Hl; pose proof (Z.div_pos total SLICE Ht eq_refl); lia|].
    pose proof (Z.mod_pos_bound total SLICE eq_refl). pose proof (Z.div_mod total SLICE ltac:(done)). nia. }
  destruct (sleep_loop _ _ _ _) as [s' []]; try done; [by left|by right].
Qed.

(** ** Going round *)

Context (ep : Endpoints) (send_failed : bytes).

Lemma wait_reconnect_slept from ps backoff s s' :
  wait_reconnect cfg from ps backoff s = (s', Slept) → sv_stopped s' = false.
Proof using.
  unfold wait_reconnect, sleep_unless_stopped. destruct (negb _); [done|]. destruct (_ <? _); [done|].
  match goal with |- context[sleep_loop _ ?d _ ?s1] => pose proof (sleep_loop_result d ps s1) as Hr end.
  destruct (sleep_loop _ _ _ _) as [s2 []]; intros [= <-]. by destruct Hr.
Qed.

Lemma iteration_round e s s' : iteration cfg ep send_failed e s = (s', None) → sv_stopped s' = false.
Proof using.
  unfold iteration. destruct (sv_stopped s); [done|]. destruct (panicked _); [done|].
  destruct (sv_rx _); [|done]. destruct (session_once _ _ _ _ _ _) as [s1 []]; [done|done|].
  destruct (after_session _ _) as [s2 [bo|]]; [|done].
  destruct (wait_reconnect _ _ _ _ _) as [s3 []] eqn:E; intros [= <-]. by eapply wait_reconnect_slept.
Qed.

Lemma supervise_stopped es es' s :
  sv_stopped s = false → sv_stopped (fst (supervise cfg ep send_failed es s)) = true →
  supervise cfg ep send_failed (es ++ es') s = supervise cfg ep send_failed es s.
Proof using.
  revert s. induction es as [|e es IH]; intros s Hs; cbn [supervise app]; [cbn; congruence|].
  destruct (iteration _ _ _ _ _) as [s1 [st|]] eqn:E; [done|]. apply IH. by eapply iteration_round.
Qed.

(** ** The budget of attempts *)

Definition budget s : Z * nat * nat := (sv_attempt s, sessions (sv_log s), productive (sv_log s)).

Lemma budget_outsides os s : budget (outsides cfg os s) = budget s.
Proof using.
  revert s. induction os as [|o os IH]; intros s; [done|]. cbn [outsides fold_left]. etransitivity; [apply IH|].
  destruct o as [c|c|]; cbn [outside]; [|done|done]. destruct (sv_rx s); [|done]. by destruct (_ <? _).
Qed.

Lemma budget_sleep deadline ps s : budget (fst (sleep_loop cfg deadline ps s)) = budget s.
Proof using.
  revert s. induction ps as [|[os now] ps IH]; intros s; cbn [sleep_loop]; [done|].
  pose proof (budget_outsides os s). destruct (sv_stopped _); [done|]. destruct (_ <=? _); [done|].
  etransitivity; [apply IH|done].
Qed.

Lemma budget_ready r s : budget (answer_ready r s) = budget s.
Proof using. unfold answer_ready. by destruct (sv_ready s). Qed.

Lemma budget_finish err s : budget (finish err s) = budget s.
Proof using. exact (budget_ready (Err (default Stopped err)) (upd_sh (set_state CClosed) s)). Qed.

Lemma budget_converse e salt s : budget (fst (converse cfg send_failed e salt s)) = budget s.
Proof using. unfold converse. destruct (reading _); [done|]. destruct (told _); [|done]. by destruct (join e). Qed.

Lemma budget_session e b s :
  budget (fst (session_once cfg ep send_failed e b s))
  = (sv_attempt s, Datatypes.S (sessions (sv_log s)), productive (sv_log s)).
Proof using.
  unfold session_once. pose proof (budget_outsides (before e) (upd_log log_session s)) as Ho.
  set (s0 := outsides cfg (before e) (upd_log log_session s)) in *. transitivity (budget s0); [|exact Ho].
  destruct (establish _ _ _ _ _) as [c [[b64|]|err]]; [|done|done].
  destruct (session_handshake _ _ _ _) as [hs []]; [|done]. rewrite budget_converse. unfold connected.
  by rewrite budget_ready.
Qed.

Lemma budget_after o s : budget (fst (after_session o s)) = budget s.
Proof using.
  destruct o as [|code|err]; cbn [after_session].
  - apply budget_finish.
  - destruct (terminal_close code), (token_survives_close code); cbn [fst]; rewrite ?budget_finish; done.
  - destruct (is_terminal err); [cbn [fst]; by rewrite budget_finish|].
    destruct (negb _); cbn [fst]; rewrite ?budget_finish; done.
Qed.

(** At the head of the loop, with [m] attempts allowed in a row. *)
Definition within (m : Z) s : Prop :=
  0 <= sv_attempt s <= m
  ∧ Z.of_nat (sessions (sv_log s)) <= sv_attempt s + m * Z.of_nat (productive (sv_log s)).
Definition exhausted (m : Z) s : Prop :=
  Z.of_nat (sessions (sv_log s)) <= 1 + m * (1 + Z.of_nat (productive (sv_log s))).

Lemma budget_eq s s' :
  budget s' = budget s →
  sv_attempt s' = sv_attempt s ∧ sessions (sv_log s') = sessions (sv_log s)
  ∧ productive (sv_log s') = productive (sv_log s).
Proof using. by intros [= -> -> ->]. Qed.

Lemma wait_reconnect_budget from ps backoff s :
  let '(s', r) := wait_reconnect cfg from ps backoff s in
  (budget s' = budget s ∧ r ≠ Slept)
  ∨ (should_continue (sv_attempt s) (max_reconnect_attempts cfg) = true
     ∧ budget s' = budget (set_tries ((sv_attempt s + 1) mod 2 ^ 32) s)).
Proof using.
  unfold wait_reconnect. destruct (should_continue _ _); [|by left].
  unfold sleep_unless_stopped. destruct (_ <? _); [by right|].
  match goal with |- context[sleep_loop _ ?d _ ?s1] => pose proof (budget_sleep d ps s1) as Hb end.
  destruct (sleep_loop _ _ _ _) as [s2 []]; right; (split; [done|]); exact Hb.
Qed.

Lemma iteration_budget e m s s' r :
  max_reconnect_attempts cfg = m → 0 < m < 2 ^ 32 →
  within m s → iteration cfg ep send_failed e s = (s', r) →
  match r with None => within m s' | Some _ => exhausted m s' end.
Proof using.
  intros Hcfg Hm [Ha Hb] . unfold iteration.
  assert (exhausted m s) as He by (unfold exhausted; nia).
  assert (∀ err s0, budget s0 = budget s → exhausted m (finish err s0)) as Hfin.
  { intros err s0 Hs0. unfold exhausted. rewrite <- (budget_finish err) in Hs0. by apply budget_eq in Hs0 as (_ & -> & ->). }
  destruct (sv_stopped s); [intros [= <- <-]; by apply Hfin|].
  destruct (panicked _); [intros [= <- <-]; by apply Hfin|].
  destruct (sv_rx _); [|intros [= <- <-]; by apply Hfin].
  match goal with |- context[session_once _ _ _ ?se ?b ?s0] => pose proof (budget_session se b s0) as Hs end.
  destruct (session_once _ _ _ _ _ _) as [s1 r1]. cbn [fst upd_sh sv_attempt sv_log] in Hs.
  injection Hs as Ha1 Hs1 Hp1.
  assert (∀ len, let s2 := note_length len s1 in 0 <= sv_attempt s2 <= m
    ∧ Z.of_nat (sessions (sv_log s2)) <= 1 + sv_attempt s2 + m * Z.of_nat (productive (sv_log s2))) as Hn.
  { intros len. destruct len as [len|]; cbn [note_length]; [destruct (_ <=? _)|];
      cbn [upd_log set_tries set_ever sv_attempt sv_log log_productive sessions productive]; nia. }
  destruct r1 as [| |o len]; [intros [= <- <-]; unfold exhausted; nia..|].
  specialize (Hn len). cbn zeta in Hn. set (s2 := note_length len s1) in *.
  pose proof (budget_after o s2) as Hb2. destruct (after_session o s2) as [s3 [bo|]]; cbn [fst] in Hb2;
    apply budget_eq in Hb2 as (E1 & E2 & E3); [|intros [= <- <-]; unfold exhausted; nia].
  rewrite <- E1, <- E2, <- E3 in Hn. pose proof (wait_reconnect_budget (wait_from e) (polls e) bo s3) as Hw.
  destruct (wait_reconnect _ _ _ _ _) as [s4 r4].
  assert (exhausted m s4 ∧ (r4 = Slept → within m s4)) as [Hx Hw4].
  { unfold exhausted, within. destruct Hw as [[(E4 & E5 & E6)%budget_eq Hr]|[Hc (E4 & E5 & E6)%budget_eq]].
    - rewrite E5, E6. split; [nia|done].
    - cbn [set_tries sv_attempt sv_log] in E4, E5, E6. rewrite E4, E5, E6. rewrite Hcfg in Hc.
      apply orb_true_iff in Hc as [Hc|Hc]; [lia|]. rewrite Z.mod_small by lia. split; [nia|]. intros _. nia. }
  destruct r4; intros [= <- <-]; [done|by apply Hw4|done|done].
Qed.

Lemma supervise_budget es m s :
  max_reconnect_attempts cfg = m → 0 < m < 2 ^ 32 →
  within m s → exhausted m (fst (supervise cfg ep send_failed es s)).
Proof using.
  intros Hcfg Hm. revert s. induction es as [|e es IH]; intros s Hw; cbn [supervise].
  { destruct Hw. unfold exhausted. cbn [fst]. nia. }
  destruct (iteration _ _ _ _ _) as [s1 [st|]] eqn:E; eapply iteration_budget in E; try done. by apply IH.
Qed.
End reconnect.

Section claims.
Context {S H : Type} {TS : TokenStore S} {LH : LoxHandler H}.
Context {zc : ZeroCopy} {J : Json} {D : Digests} {X : Hex} {C : X509} {RL : Rustls} {UR : Url} {R : Rsa}.
Context {U : Utf8Text} {A : AesCbc} {B : Base64} {P : PercentDecode}.
Context (cfg : ConnectConfig S) (builder : result bytes unit) (send_failed : bytes).
Context (h : H) (sh : SharedState S) (cs : list IoCommand).

(** [C21] A limit on reconnection attempts is a limit on sessions: with
    [max_reconnect_attempts = m], [m] not zero, the supervisor begins at most [1 + m]
    sessions plus another [m] for each session that stayed up long enough to count
    as productive. *)
Theorem sessions_bounded es :
  0 < max_reconnect_attempts cfg < 2 ^ 32 →
  let l := sv_log (fst (run_supervisor cfg builder send_failed h sh cs es)) in
  Z.of_nat (sessions l) <= 1 + max_reconnect_attempts cfg * (1 + Z.of_nat (productive l)).
Proof using.
  intros Hm. cbn zeta. unfold run_supervisor. cbn zeta. destruct (_ ≫= _) as [[c ep]|err].
  - apply (supervise_budget cfg ep send_failed es); [done..|]. split; cbn; lia.
  - cbn [fst]. match goal with |- context[finish ?e ?s] => destruct (budget_eq _ _ (budget_finish e s)) as (_ & -> & ->) end.
    cbn [sv_log log_entered no_log sessions productive]. lia.
Qed.

(** [C28] A stop is final: if the stop flag is up at the end of some inputs, then
    whatever else the network and the callers would have done afterwards makes no
    difference to the run; no session begins after the one under way. *)
Theorem stop_is_final es es' :
  sv_stopped (fst (run_supervisor cfg builder send_failed h sh cs es)) = true →
  run_supervisor cfg builder send_failed h sh cs (es ++ es') = run_supervisor cfg builder send_failed h sh cs es.
Proof using.
  unfold run_supervisor. cbn zeta. destruct (_ ≫= _) as [[c ep]|err]; [|done]. by apply supervise_stopped.
Qed.
End claims.

(** ** Samples *)

#[local] Existing Instances zerocopy_model json_model digests_model hex_model aes_model base64_model
  percent_model no_store reader_utf8 x509_model rustls_model rsa_model idle_handler.

#[local] Abbreviation sample_run es := (run_supervisor sample_cfg (Ok tt) (bs "gone") tt new_shared [] es).

Lemma backoff_ends_witness :
  let '(s', r) := sleep_unless_stopped sample_cfg 0 300000000 [([], 0); ([], 250000000); ([], 300000000)]
                    (fst (sample_run [])) in
  (r = Slept ∧ sv_stopped s' = false
   ∧ Exists (λ '(_, now), 0 + 300000000 <= now) [([] : list Outside, 0); ([], 250000000); ([], 300000000)])
  ∨ (r = Woken ∧ sv_stopped s' = true).
Proof.
  apply (backoff_ends sample_cfg 0 300000000 [([], 0); ([], 250000000); ([], 300000000)] (fst (sample_run [])));
    [lia|unfold MAX_INSTANT; lia|cbn [paced]; unfold SLICE; lia|vm_compute; discriminate].
Defined.

Lemma sessions_bounded_witness :
  let l := sv_log (fst (sample_run [sample_env; sample_env])) in
  Z.of_nat (sessions l) <= 1 + 3 * (1 + Z.of_nat (productive l)).
Proof. apply (sessions_bounded sample_cfg (Ok tt) (bs "gone") tt new_shared [] [sample_env; sample_env]). cbn. lia. Defined.

Lemma stop_is_final_witness :
  sample_run ([sample_env] ++ [sample_env; sample_env]) = sample_run [sample_env].
Proof.
  apply (stop_is_final sample_cfg (Ok tt) (bs "gone") tt new_shared [] [sample_env] [sample_env; sample_env]).
  vm_compute. reflexivity.
Defined.
