(* ===== verification/Shutdown.v ===== *)
(** * A stop ends the session

    [Reconnect] shows that nothing follows a stop; this file shows that a stop is
    followed. Once [Stop] is in the command channel, every turn of the writer takes
    it one place closer, whatever the commands before it are, whatever becomes of
    the writes and whatever the other tasks do meanwhile: it is reached after as many
    turns as there are commands before it and messages of the reader. The writer then
    leaves, the reader it has aborted fails, and the supervisor comes to its end. *)

From S2P Require Import Prelude RustStr External Models Errors Session Crypto Auth Store State Scan.
From S2P Require Import Pending Uuid Header EventTables Handler World Reader Writer Duplex Tls Http Config.
From S2P Require Import Handshake Steps Frame Live Supervisor Lifecycle.

Section shutdown.
Context {S H : Type} {TS : TokenStore S} {LH : LoxHandler H}.
Context {zc : ZeroCopy} {J : Json} {D : Digests} {X : Hex}.
Context {U : Utf8Text} {A : AesCbc} {B : Base64} {P : PercentDecode}.
Context (keys : SessionKeys) (idle_timeout : Z) (send_failed : bytes) (cfg : WriterConfig) (depth : Z).
Implicit Types (w : World S H) (l : Live S H).
#[local] Abbreviation live_step := (live_step keys idle_timeout send_failed cfg depth).
#[local] Abbreviation run_live := (run_live keys idle_timeout send_failed cfg depth).

(** ** A turn of the writer *)

(** The writer's own steps leave the reader's messages alone. *)
Definition queues w w' : Prop := out_queue w' = out_queue w ∧ writer_gone w' = writer_gone w.

Lemma prepare_queues env cmd tx w : queues w (prepare_command keys cfg env cmd tx w).1.
Proof using.
  unfold prepare_command. destruct (encrypt _ keys cmd (w_salt w)) as [st [enc|e]]; [done|].
  unfold answer. by destruct tx.
Qed.

Lemma io_command_queues env c w : queues w (on_io_command keys cfg env c w).1.
Proof using.
  destruct c as [cmd tx|u v|u v pw| |]; cbn [on_io_command]; try done; [destruct (_ <=? _); [done|]|..];
    match goal with |- queues _ (prepare_command _ _ ?e ?c ?t ?w1).1 => exact (prepare_queues e c t w1) end.
Qed.

Lemma decide_queues s w :
  queues (match out_queue w with [] => w | _ :: ms => set_out_queue ms w end) (decide_outgoing keys cfg s w).1.
Proof using.
  unfold decide_outgoing. destruct (out_queue w) as [|m ms].
  - destruct (arm s) as [|[c|]| |]; try done.
    + destruct c; try done; apply io_command_queues.
    + unfold on_keepalive_tick. by destruct (_ <=? _).
  - destruct m as [op p|cmd tx|]; try done. apply prepare_queues.
Qed.

Lemma expire_queues t w : queues w (expire_pending t w).
Proof using. unfold expire_pending. destruct (expire t (pending w)) as [[q out] n]. by destruct (_ <? _). Qed.

Lemma perform_queues s o w w' : perform keys cfg s o w = (w', true) → queues w w'.
Proof using.
  unfold perform, write_frame.
  destruct o as [t|op p| | |]; try (by intros [=]); [destruct (write s)..|];
    try (by intros [=]); intros [= <-];
    match goal with |- queues _ (expire_pending ?t ?w1) => exact (expire_queues t w1) end.
Qed.

(** The writer is gone, or a [Stop] is at most [n] turns away. *)
Definition parted l : Prop := writer_gone (lw l) = true ∧ deciding l = None.
Definition heading (n : nat) l : Prop :=
  parted l
  ∨ writer_gone (lw l) = false
    ∧ ∃ cs cs', inbox l = cs ++ Stop :: cs'
      ∧ (length (out_queue (lw l)) + length cs + length (option_list (deciding l)) <= n)%nat.

(** The writer's [select!] is biased: with a command in its channel it takes the
    reader's messages, and then the command. *)
Definition takes_next (s : Step S H) : Prop := ∃ c, arm s = ArmCmd c.

Lemma perform_heads p l n s o :
  deciding l = Some (s, o) → writer_gone (lw l) = false →
  (∃ cs cs', inbox l = cs ++ Stop :: cs' ∧ (length (out_queue (lw l)) + length cs <= n)%nat) ∨ o = OClose →
  heading n (live_step (ActPerform p) l) ∧ (o = OClose → parted (live_step (ActPerform p) l)).
Proof using.
  intros Hd Hg Hn. cbn [Live.live_step]. rewrite Hd. destruct (perform keys cfg s o (lw l)) as [w []] eqn:E.
  - destruct (perform_queues _ _ _ _ E) as [Ho Hg']. destruct Hn as [(cs & cs' & Hi & Hl)| ->]; [|done].
    split; [|intros ->; done]. right. cbn. rewrite Hg', Ho. split; [done|]. exists cs, cs'. split; [done|]. lia.
  - assert (parted (set_deciding None (set_reading (match o, reading l with OClose, inl _ => p | _, e => e end)
      (set_lw (leave w) l)))) as Hp by done.
    split; [by left|done].
Qed.

Lemma turn_heads n s p l :
  takes_next s → heading n l →
  let l' := run_live [ActDecide s; ActPerform p] l in parted l' ∨ (0 < n)%nat ∧ heading (n - 1) l'.
Proof using.
  intros [c0 Hs] [[Hg Hd]|(Hg & cs & cs' & Hi & Hn)]; cbn [Live.run_live fold_left].
  { left. cbn [Live.live_step]. rewrite Hg. cbn [Live.live_step]. by rewrite Hd. }
  destruct (deciding l) as [[s0 o0]|] eqn:Hd; cbn in Hn.
  { assert (live_step (ActDecide s) l = l) as -> by (cbn [Live.live_step]; by rewrite Hg, Hd).
    right. split; [lia|]. apply (perform_heads p l _ s0 o0); [done|done|]. left. exists cs, cs'. split; [done|lia]. }
  cbn [Live.live_step]. rewrite Hg, Hd.
  pose proof (decide_queues s (lw l)) as Hq. destruct (out_queue (lw l)) as [|m ms] eqn:Ho.
  - rewrite Hs. unfold takes_command. destruct cs as [|c cs]; cbn [app] in Hi; rewrite Hi.
    + left. unfold writer_decides. cbn [lw].
      destruct (decide_outgoing keys cfg (with_arm (ArmCmd (Some Stop)) s) (lw l)) as [w o] eqn:E.
      unfold decide_outgoing in E. rewrite Ho in E. cbn [with_arm arm] in E. injection E as <- <-.
      eapply (perform_heads p _ 0); [reflexivity|exact Hg|by right|done].
    + right. split; [cbn in Hn; lia|]. unfold writer_decides. cbn [lw].
      clear Hq. pose proof (decide_queues (with_arm (ArmCmd (Some c)) s) (lw l)) as Hq. rewrite Ho in Hq.
      destruct (decide_outgoing keys cfg (with_arm (ArmCmd (Some c)) s) (lw l)) as [w o]. destruct Hq as [Hq1 Hq2].
      cbn [fst] in Hq1, Hq2. eapply perform_heads; [reflexivity|cbn; congruence|]. left. exists cs, cs'. split; [done|].
      cbn in *. rewrite Hq1, Ho. cbn. lia.
  - right. split; [cbn in Hn; lia|]. unfold writer_decides.
    destruct (decide_outgoing keys cfg s (lw l)) as [w o]. destruct Hq as [Hq1 Hq2]. cbn [fst] in Hq1, Hq2.
    assert (heading (n - 1) (live_step (ActPerform p) (set_deciding (Some (s, o)) (set_lw w l)))) as Hh.
    { eapply perform_heads; [reflexivity|cbn; cbn in Hq2; congruence|]. left. exists cs, cs'. split; [done|].
      cbn in *. rewrite Hq1. lia. }
    destruct (arm s); exact Hh.
Qed.
(** ** What the other tasks do meanwhile *)

Definition of_others (a : Action S H) : Prop :=
  match a with ActDecide _ | ActPerform _ => False | _ => True end.
(** How many messages for the writer a schedule adds to those of the reader. *)
Definition added (a : Action S H) l : nat := length (out_queue (lw (live_step a l))) - length (out_queue (lw l)).
Fixpoint messages (acts : list (Action S H)) l : nat :=
  match acts with [] => 0 | a :: acts => added a l + messages acts (live_step a l) end.

(** A change of the world that keeps the writer where it is. *)
Lemma heading_world n w l :
  writer_gone w = writer_gone (lw l) → heading n l →
  heading (n + (length (out_queue w) - length (out_queue (lw l)))) (set_lw w l).
Proof using.
  intros Hg [[Hp Hd]|(Ha & cs & cs' & Hi & Hn)]; [left; split; [cbn; congruence|done]|right].
  cbn. split; [congruence|]. exists cs, cs'. split; [done|]. lia.
Qed.

Lemma other_heads n a l :
  of_others a → wf_action keys idle_timeout send_failed a → heading n l → heading (n + added a l) (live_step a l).
Proof using.
  unfold added. intros Ho Hw Hh.
  destruct a as [r|s|p|c|t|c| |]; try done; cbn [Live.live_step]; cbn [wf_action] in Hw.
  - destruct (reading l) as [e|o]; [|by rewrite Nat.sub_diag, Nat.add_0_r].
    destruct (read_step keys idle_timeout send_failed r e (lw l)) as [[w e'] o] eqn:E.
    apply read_step_change in E as [_ (_ & _ & _ & Hg & _) _ _]; [|done]. by apply (heading_world n w l).
  - assert (heading n l → ∀ cs, heading (n + (length (out_queue (lw l)) - length (out_queue (lw l)))) (set_inbox (inbox l ++ cs) l)) as Hi.
    { intros [Hp|(Ha & ds & ds' & Hi & Hn)] cs; [by left|right]. cbn. split; [done|]. exists ds, (ds' ++ cs).
      rewrite Hi, <- app_assoc. split; [done|]. lia. }
    destruct (_ <? _); [by apply Hi|]. by rewrite Nat.sub_diag, Nat.add_0_r.
  - by apply (heading_world n (upd_shared (set_token t) (lw l)) l).
  - by apply (heading_world n (count c (lw l)) l).
  - by apply (heading_world n (set_stopped true (lw l)) l).
  - destruct (reading l) as [e|o]; [by rewrite Nat.sub_diag, Nat.add_0_r|].
    destruct (told l) eqn:Ht; [by rewrite Nat.sub_diag, Nat.add_0_r|].
    set (w := fst _). assert (writer_gone w = writer_gone (lw l)) as Hg.
    { unfold w, out_send. by destruct (stopped (lw l)); cbn; destruct (writer_gone (lw l)) eqn:E; cbn. }
    by apply (heading_world n w l).
Qed.

Lemma others_head n acts l :
  Forall of_others acts → Forall (wf_action keys idle_timeout send_failed) acts → heading n l →
  heading (n + messages acts l) (run_live acts l).
Proof using.
  intros Ho. revert n l. induction Ho as [|a acts Ha _ IH]; intros n l Hw Hh; [by rewrite Nat.add_0_r|].
  apply Forall_cons in Hw as [Hwa Hw]. cbn [messages Live.run_live fold_left].
  rewrite Nat.add_assoc. apply IH; [done|]. by apply other_heads.
Qed.

(** ** The end of the writer *)

(** A turn: the other tasks do something, then the writer decides and writes. *)
Definition turn (b : list (Action S H) * (Step S H * (FrameExpect + ReadOutcome))) : list (Action S H) :=
  b.1 ++ [ActDecide b.2.1; ActPerform b.2.2].
Definition wf_turn (b : list (Action S H) * (Step S H * (FrameExpect + ReadOutcome))) : Prop :=
  Forall of_others b.1 ∧ Forall (wf_action keys idle_timeout send_failed) b.1 ∧ takes_next b.2.1.

Lemma run_live_app acts acts' l : run_live (acts ++ acts') l = run_live acts' (run_live acts l).
Proof using. apply fold_left_app. Qed.

(** Once it has left it stays away. *)
Lemma parted_step a l :
  (of_others a → wf_action keys idle_timeout send_failed a) → parted l → parted (live_step a l).
Proof using.
  intros Hw [Hg Hd]. destruct a as [r|s|p|c|t|c| |]; cbn [Live.live_step].
  - destruct (reading l) as [e|o]; [|done].
    destruct (read_step keys idle_timeout send_failed r e (lw l)) as [[w e'] o] eqn:E.
    apply read_step_change in E as [_ (_ & _ & _ & Hg' & _) _ _]; [|by apply Hw]. split; [cbn; congruence|done].
  - by rewrite Hg.
  - by rewrite Hd.
  - by destruct (_ <? _).
  - done.
  - done.
  - done.
  - destruct (reading l); [done|]. destruct (told l); [done|]. unfold out_send, parted.
    destruct (stopped (lw l)); cbn; by rewrite Hg.
Qed.

Lemma parted_run acts l :
  Forall (λ a, of_others a → wf_action keys idle_timeout send_failed a) acts → parted l → parted (run_live acts l).
Proof using.
  intros Ha. revert l. induction Ha as [|a acts Ha _ IH]; intros l Hp; [done|]. by apply IH, parted_step.
Qed.

Lemma wf_turn_actions blocks :
  Forall wf_turn blocks →
  Forall (λ a, of_others a → wf_action keys idle_timeout send_failed a) (concat (map turn blocks)).
Proof using.
  induction 1 as [|b blocks (_ & Hw & _) _ IH]; [constructor|]. cbn [map concat]. apply Forall_app. split; [|done].
  apply Forall_app. split; [by eapply Forall_impl|]. by repeat constructor.
Qed.

Lemma messages_app acts acts' l : messages (acts ++ acts') l = (messages acts l + messages acts' (run_live acts l))%nat.
Proof using.
  revert l. induction acts as [|a acts IH]; intros l; [done|]. cbn [app messages]. rewrite IH.
  change (run_live (a :: acts) l) with (run_live acts (live_step a l)). lia.
Qed.

(** The writer leaves after as many turns as there are commands before the [Stop]
    and messages of the reader. *)
Lemma turns_part blocks n l :
  Forall wf_turn blocks → heading n l →
  (n + messages (concat (map turn blocks)) l < length blocks)%nat →
  parted (run_live (concat (map turn blocks)) l).
Proof using.
  intros Hb. revert n l. induction Hb as [|b blocks (Ho & Hw & Ht) Hb IH]; intros n l Hh Hn; [cbn in Hn; lia|].
  set (l1 := run_live b.1 l). set (l2 := run_live [ActDecide b.2.1; ActPerform b.2.2] l1).
  set (rest := concat (map turn blocks)) in *.
  change (concat (map turn (b :: blocks))) with ((b.1 ++ [ActDecide b.2.1; ActPerform b.2.2]) ++ rest) in *.
  assert (run_live (b.1 ++ [ActDecide b.2.1; ActPerform b.2.2]) l = l2) as El by (by rewrite run_live_app).
  rewrite run_live_app, El. rewrite messages_app, El, messages_app in Hn. fold l1 in Hn.
  pose proof (others_head n b.1 l Ho Hw Hh) as Hh1. fold l1 in Hh1. cbn [length] in Hn.
  destruct (turn_heads _ b.2.1 b.2.2 l1 Ht Hh1) as [Hp|[Hpos Hp]]; fold l2 in Hp.
  - apply parted_run; [by apply wf_turn_actions|done].
  - apply (IH _ l2 Hp). fold l2 in Hn. lia.
Qed.
End shutdown.

Section ending.
Context {S H : Type} {TS : TokenStore S} {LH : LoxHandler H}.
Context {zc : ZeroCopy} {J : Json} {D : Digests} {X : Hex} {C : X509} {RL : Rustls} {UR : Url} {R : Rsa}.
Context {U : Utf8Text} {A : AesCbc} {B : Base64} {P : PercentDecode}.
Context {AL : AesCbcLaws} {BL : Base64Laws}.
Context (cfg : ConnectConfig S) (ep : Endpoints) (send_failed : bytes) (e : SessionEnv S H).
Implicit Types s : Sup S H.
#[local] Abbreviation run_live := (run_live (session_keys e) (idle_window cfg) send_failed (writer_cfg cfg) (channel_depth cfg)).
#[local] Abbreviation wf_action := (wf_action (session_keys e) (idle_window cfg) send_failed).
#[local] Abbreviation messages := (messages (session_keys e) (idle_window cfg) send_failed (writer_cfg cfg) (channel_depth cfg)).

(** The last steps: the aborted read fails, and the supervisor reacts. *)
Lemma last_steps r m (l : Live S H) :
  parted l → control_only r → frame r = inr m →
  ∃ o, let l' := run_live [ActRead r; ActWindDown] l in
    reading l' = inr o ∧ told l' = true ∧ writer_gone (lw l') = true.
Proof using.
  intros Hp Hc Hf. cbn [Live.run_live fold_left]. set (l1 := live_step _ _ _ _ _ (ActRead r) l).
  assert (parted l1 ∧ ∃ o, reading l1 = inr o) as [[Hg Hd] [o Ho]].
  { split; [by apply parted_step|]. unfold l1. cbn [live_step]. destruct (reading l) as [e0|o] eqn:Er; [|by eauto].
    unfold read_step, read_frame. destruct (_ <? _); [by eexists|].
    destruct (obligated r) as [[op p]|]; [destruct (out_send _ _) as [w sent]|]; rewrite Hf; [destruct sent|]; by eexists. }
  exists o. cbn zeta. split; [|split; [|by apply parted_step]]; cbn [live_step]; rewrite Ho; by destruct (told l1) eqn:Ht.
Qed.

Lemma stop_lasts (acts : list (Action S H)) salt s pre :
  Forall wf_action (pre ++ acts) → stopped (lw (run_live pre (phase_start salt s))) = true →
  stopped (lw (run_live acts (run_live pre (phase_start salt s)))) = true.
Proof using AL BL.
  intros [Hpre Hacts]%Forall_app Hs.
  destruct (run_live_session (session_keys e) (idle_window cfg) send_failed (writer_cfg cfg) (channel_depth cfg) eq_refl
    pre (phase_start salt s) salt (session_world (sv_shared s) (sv_guard s) salt (sv_stopped s)) [] Hpre)
    as [(k & reqs & Hi & _) _ _ _].
  { by apply (live_start_session _ _ _ _ (session_world (sv_shared s) (sv_guard s) salt (sv_stopped s))). }
  pose proof (run_live_stepped (session_keys e) (idle_window cfg) send_failed (writer_cfg cfg) (channel_depth cfg) eq_refl
    lasting acts _ salt k reqs ltac:(by split) Hacts Hi) as [_ _ Hst]. by apply Hst.
Qed.

End ending.

(** ** Samples *)

#[local] Existing Instances zerocopy_model json_model digests_model hex_model aes_model base64_model
  percent_model no_store reader_utf8 x509_model rustls_model rsa_model idle_handler.
#[local] Existing Instances aes_model_laws base64_model_laws.

(** A control waits in the channel when the stop comes; the peer sends a ping, which
    asks for a pong, and then nothing more. *)
Definition ping_read : Read := {| waited := 1; obligated := Some (Pong, bs "hi"); frame := inl (Ping, bs "hi"); at_ := 0 |}.
Definition aborted_read : Read := {| waited := 1; obligated := None; frame := inr (bs "read half aborted by the writer"); at_ := 0 |}.
Definition stop_acts : list (Action unit unit) := [ActStop; ActEnqueue Stop].
Definition stop_turns : list (list (Action unit unit) * (Step unit unit * (FrameExpect + ReadOutcome))) :=
  [([ActRead ping_read], (sample_step (ArmCmd None), inl START)); ([], (sample_step (ArmCmd None), inl START));
   ([], (sample_step (ArmCmd None), inl START)); ([ActEnqueue DropSession], (sample_step (ArmCmd None), inl START))].
Definition stop_session : SessionEnv unit unit :=
  {| before := []; probe_net _ := None; pin_net _ := None; key_net _ := None; ws_net := no_net;
     rng_key := replicate 32 Byte.x01; rng_iv := replicate 16 Byte.x02; rng_rsa := [];
     hs_reads := []; hs_writes := []; hs_draws _ := sample_draw 3; hs_now := 0; mono := 0; wall := 0;
     acts := stop_acts ++ concat (map turn stop_turns) ++ [ActRead aborted_read; ActWindDown];
     join := Joined; lasted := 5 |}.
Definition stop_sup : Sup unit unit :=
  {| sv_shared := new_shared; sv_guard := new_guard tt;
     sv_tls := {| tls_mode := WebPki; pin := None; verifier := WebPkiVerifier |}; sv_stopped := false;
     sv_ready := false; sv_rx := Some [Control (bs "lamp") (bs "On")]; sv_attempt := 0; sv_ever := true; sv_log := no_log |}.

