(* ===== verification/Accounting.v ===== *)
(** * Where the commands go

    Every command that enters the channel is, at every moment of a run of the
    supervisor, with a writer that has taken it, still in the channel, or lost with
    a writer that did not come back; and every caller whose command a writer took
    is answered once or still waits in a session that has not ended. *)

From S2P Require Import Prelude RustStr External Models Errors Session Crypto Auth Store State Scan.
From S2P Require Import Pending Uuid Header EventTables Handler World Reader Writer Duplex Tls Http Config.
From S2P Require Import Handshake Steps Frame Live Supervisor Lifecycle.

Section accounting.
Context {S H : Type} {TS : TokenStore S} {LH : LoxHandler H}.
Context {zc : ZeroCopy} {J : Json} {D : Digests} {X : Hex} {C : X509} {RL : Rustls} {UR : Url} {R : Rsa}.
Context {U : Utf8Text} {A : AesCbc} {B : Base64} {P : PercentDecode}.
Context {AL : AesCbcLaws} {BL : Base64Laws}.
Context (cfg : ConnectConfig S) (ep : Endpoints) (send_failed : bytes).
Implicit Types s : Sup S H.

(** The books: [own] are the waiters of requests the writers made for themselves. *)
Record books (own : list Sender) s : Prop := {
  b_commands : entered (sv_log s) = taken (sv_log s) ++ lost (sv_log s) ++ default [] (sv_rx s);
  b_lost : is_Some (sv_rx s) → lost (sv_log s) = [];
  b_callers : ∃ own', own' ⊆ own
    ∧ map fst (answered (sv_log s)) ++ adrift (sv_log s) ≡ₚ senders (taken (sv_log s)) ++ own';
}.
(** Between two sessions nobody waits, unless the channel is gone. *)
Definition settled s : Prop := is_Some (sv_rx s) → adrift (sv_log s) = [].

(** What does not touch the channel or the books. *)
Definition accounts s :=
  (sv_rx s, entered (sv_log s), taken (sv_log s), lost (sv_log s), answered (sv_log s), adrift (sv_log s)).

Lemma books_same own s s' :
  accounts s' = accounts s → books own s → books own s' ∧ (settled s → settled s').
Proof using.
  intros [= Er Ee Et El Ea Ed] [H1 H2 H3]. split; [|unfold settled; by rewrite Er, Ed].
  split; rewrite ?Er, ?Ee, ?Et, ?El, ?Ea, ?Ed; done.
Qed.

Lemma accounts_rx s s' : accounts s' = accounts s → sv_rx s' = sv_rx s.
Proof using. by intros [= -> _ _ _ _ _]. Qed.
Lemma accounts_ready r s : accounts (answer_ready r s) = accounts s.
Proof using. unfold answer_ready. by destruct (sv_ready s). Qed.
Lemma accounts_finish err s : accounts (finish err s) = accounts s.
Proof using. exact (accounts_ready (Err (default Stopped err)) (upd_sh (set_state CClosed) s)). Qed.
Lemma accounts_after o s : accounts (fst (after_session o s)) = accounts s.
Proof using.
  destruct o as [|code|err]; cbn [after_session].
  - apply accounts_finish.
  - destruct (terminal_close code), (token_survives_close code); cbn [fst]; rewrite ?accounts_finish; done.
  - destruct (is_terminal err); [cbn [fst]; by rewrite accounts_finish|].
    destruct (negb _); cbn [fst]; rewrite ?accounts_finish; done.
Qed.
Lemma accounts_note len s : accounts (note_length len s) = accounts s.
Proof using. destruct len as [len|]; [cbn; by destruct (_ <=? len)|done]. Qed.

(** ** Callers between the sessions *)

Lemma books_outside o own s :
  books own s ∧ settled s → books own (outside cfg o s) ∧ settled (outside cfg o s).
Proof using.
  intros [Hb Hs]. destruct o as [c|c|]; cbn [outside].
  - destruct (sv_rx s) as [cs|] eqn:E; [|done]. destruct (_ <? _); [|done].
    destruct Hb as [H1 H2 H3]. rewrite E in H1, H2. specialize (H2 ltac:(eauto)).
    assert (adrift (sv_log s) = []) as Ha by (apply Hs; rewrite E; eauto).
    split; [|intros _; exact Ha]. split; [|done|exact H3]. cbn. rewrite H1, H2. cbn. by rewrite app_assoc.
  - destruct (books_same own s (upd_sh (upd_metrics (bump c)) s) eq_refl Hb) as [? Hs']. auto.
  - destruct (books_same own s (set_stop true s) eq_refl Hb) as [? Hs']. auto.
Qed.

Lemma books_outsides os own s :
  books own s ∧ settled s → books own (outsides cfg os s) ∧ settled (outsides cfg os s).
Proof using.
  revert s. induction os as [|o os IH]; intros s Hs; [done|]. by apply IH, books_outside.
Qed.

Lemma books_sleep deadline ps own s :
  books own s ∧ settled s →
  books own (fst (sleep_loop cfg deadline ps s)) ∧ settled (fst (sleep_loop cfg deadline ps s)).
Proof using.
  revert s. induction ps as [|[os now] ps IH]; intros s Hs; cbn [sleep_loop]; [done|].
  apply (books_outsides os) in Hs. destruct (sv_stopped _); [done|]. destruct (_ <=? _); [done|]. by apply IH.
Qed.

(** ** A session *)

Definition own_of (e : SupEnv S H) : list Sender := closers (acts (session e)).

Lemma books_absorb e salt own s :
  Forall (wf_action (session_keys e) (idle_window cfg) send_failed) (acts e) →
  is_Some (sv_rx s) → books own s → settled s →
  let l := phase_run cfg send_failed e (phase_start salt s) in
  let s' := absorb l (phase_arrivals cfg send_failed e (phase_start salt s)) s in
  books (own ++ closers (acts e)) s' ∧ (writer_gone (lw l) = true → adrift (sv_log s') = []).
Proof using AL BL.
  intros Ha [cs Hrx] [H1 H2 (own1 & Ho1 & H3)] Hs. cbn zeta.
  rewrite Hrx in H1, H2. specialize (H2 ltac:(eauto)). rewrite H2 in H1. cbn in H1.
  assert (adrift (sv_log s) = []) as Hd by (apply Hs; rewrite Hrx; eauto). rewrite Hd, app_nil_r in H3.
  pose proof (phase_session cfg send_failed e salt s Ha) as [(k & reqs & Hrun & Hreqs) _ _ _].
  pose proof (run_live_inbox (session_keys e) (idle_window cfg) send_failed (writer_cfg cfg) (channel_depth cfg)
    (acts e) (phase_start salt s)) as Hin.
  change (run_live _ _ _ _ _ _ _) with (phase_run cfg send_failed e (phase_start salt s)) in Hin.
  set (l := phase_run cfg send_failed e (phase_start salt s)) in *.
  apply duplex_inv in Hrun as [(w0 & all & rej & own2 & (Hp0 & Hd0 & _) & [_ Hw _] & _ & Htx & Hsub) _ _ Hgone _];
    [|reflexivity].
  rewrite Hp0, Hd0 in Hw. cbn in Hw. rewrite Htx in Hw.
  split; [|intros Hg; destruct (Hgone Hg) as [_ He]; cbn; by rewrite Hd, He].
  split; cbn [absorb upd_log set_rx set_stop set_guard upd_sh sv_log sv_rx log_phase log_entered entered taken lost answered adrift].
  - unfold id. cbn [default from_option]. rewrite H2. cbn [app]. unfold id. rewrite <- app_assoc, Hin.
    cbn [phase_start live_start popped inbox app]. rewrite H1, Hrx. cbn [default from_option]. unfold id.
    by rewrite <- !app_assoc.
  - done.
  - exists (own1 ++ own2). split.
    + apply sublist_subseteq in Hsub. clear -Ho1 Hsub Hreqs. set_solver.
    + rewrite Hd, map_app, senders_app. cbn [app]. rewrite <- app_assoc, Hw, H3. solve_Permutation.
Qed.

Lemma books_more own own' s : own ⊆ own' → books own s → books own' s.
Proof using. intros Hsub [H1 H2 (o & Ho & H3)]. split; [done|done|]. exists o. split; [by transitivity own|done]. Qed.

Lemma rx_outsides os s : is_Some (sv_rx s) → is_Some (sv_rx (outsides cfg os s)).
Proof using.
  revert s. induction os as [|o os IH]; intros s Hs; [done|]. apply IH. destruct o as [c|c|]; cbn [outside]; try done.
  destruct (sv_rx s) eqn:E; [|by destruct Hs]. destruct (_ <? _); [by eexists|]. by rewrite E.
Qed.

Lemma books_converse e salt own s s' r :
  Forall (wf_action (session_keys e) (idle_window cfg) send_failed) (acts e) →
  is_Some (sv_rx s) → books own s → settled s → converse cfg send_failed e salt s = (s', r) →
  books (own ++ closers (acts e)) s' ∧ (r ≠ Running → settled s').
Proof using AL BL.
  intros Ha Hrx Hb Hs. pose proof (books_absorb e salt own s Ha Hrx Hb Hs) as [Hb' Hg]. unfold converse.
  set (l := phase_run cfg send_failed e (phase_start salt s)) in *.
  set (s1 := absorb l _ s) in *. destruct (reading l); [by intros [= <- <-]|].
  destruct (told l); [|by intros [= <- <-]]. destruct (join e).
  { intros [= <- <-]. split; [done|]. destruct (writer_gone (lw l)); [|done]. intros _ _. by apply Hg. }
  all: intros [= <- <-]; split; [|by intros _ [? ?]]; destruct Hb' as [H1 H2 H3]; split; [|by intros [? ?]|exact H3];
    cbn in H1 |- *; rewrite app_nil_r, H1; done.
Qed.

Lemma books_session e b own s s' r :
  Forall (wf_action (session_keys e) (idle_window cfg) send_failed) (acts e) →
  is_Some (sv_rx s) → books own s → settled s → session_once cfg ep send_failed e b s = (s', r) →
  books (own ++ closers (acts e)) s' ∧ (r ≠ Running → settled s').
Proof using AL BL.
  intros Ha Hrx Hb Hs. unfold session_once.
  pose proof (books_same own s (upd_log log_session s) eq_refl Hb) as [Hb0 Hs0].
  pose proof (rx_outsides (before e) (upd_log log_session s) Hrx) as Hrx1.
  pose proof (books_outsides (before e) own _ (conj Hb0 (Hs0 Hs))) as [Hb1 Hs1].
  set (s1 := outsides cfg (before e) (upd_log log_session s)) in *.
  assert (∀ s2, accounts s2 = accounts s1 → books (own ++ closers (acts e)) s2 ∧ settled s2) as Hsame.
  { intros s2 E. destruct (books_same own s1 s2 E Hb1) as [Hb2 Hs2]. split; [|by apply Hs2].
    eapply books_more; [|done]. set_solver. }
  destruct (establish _ _ _ _ _) as [c [[b64|]|err]].
  2,3: intros [= <- <-]; by destruct (Hsame (set_tls c s1) eq_refl).
  destruct (session_handshake _ _ _ _) as [hs [u|err]].
  2: { intros [= <- <-]. by destruct (Hsame (set_guard (guarded (hw hs)) (upd_sh (λ _, shared (hw hs)) (set_tls c s1))) eq_refl). }
  set (s2 := connected e b _). assert (accounts s2 = accounts s1) as E2
    by (unfold s2, connected; by rewrite accounts_ready).
  destruct (books_same own s1 s2 E2 Hb1) as [Hb2 Hs2]. apply books_converse; [done| |done|by apply Hs2].
  by rewrite (accounts_rx _ _ E2).
Qed.

(** ** A run *)

Lemma books_wait from ps backoff own s :
  books own s ∧ settled s →
  books own (fst (wait_reconnect cfg from ps backoff s)) ∧ settled (fst (wait_reconnect cfg from ps backoff s)).
Proof using.
  intros [Hb Hs]. assert (∀ s', accounts s' = accounts s → books own s' ∧ settled s') as Hsame.
  { intros s' E. destruct (books_same own s s' E Hb) as [? Hs']. auto. }
  unfold wait_reconnect. destruct (negb _); [by apply Hsame|]. unfold sleep_unless_stopped.
  destruct (_ <? _); [by apply Hsame|].
  match goal with |- context[sleep_loop _ ?d _ ?s1] =>
    pose proof (books_sleep d ps own s1 (Hsame s1 eq_refl)) as Hl end.
  destruct (sleep_loop _ _ _ _) as [s2 []]; cbn [fst] in *; try done. destruct Hl as [Hb2 Hs2].
  destruct (books_same own s2 (close_for_good s2) eq_refl Hb2) as [? Hs']. auto.
Qed.

Lemma books_iteration e own s s' r :
  wf_env cfg send_failed e → books own s → settled s → iteration cfg ep send_failed e s = (s', r) →
  books (own ++ own_of e) s' ∧ (r ≠ Some Ongoing → settled s') ∧ (r = None → settled s').
Proof using AL BL.
  intros [_ Ha _] Hb Hs. unfold iteration.
  assert (∀ s1 err, accounts s1 = accounts s → books (own ++ own_of e) (finish err s1) ∧ settled (finish err s1)) as Hfin.
  { intros s1 err E. rewrite <- (accounts_finish err) in E. destruct (books_same own s _ E Hb) as [Hb1 Hs1].
    split; [|by apply Hs1]. eapply books_more; [|done]. set_solver. }
  destruct (sv_stopped s); [intros [= <- <-]; by destruct (Hfin s (Some Stopped) eq_refl)|].
  destruct (panicked _); [intros [= <- <-]; by destruct (Hfin s (Some HandlerPanic) eq_refl)|].
  set (s1 := upd_sh _ s). destruct (sv_rx s1) as [cs|] eqn:Erx;
    [|intros [= <- <-]; by destruct (Hfin s1 None eq_refl)].
  destruct (books_same own s s1 eq_refl Hb) as [Hb1 Hs1].
  destruct (session_once _ _ _ _ _ _) as [s2 r2] eqn:E2.
  apply (books_session _ _ own) in E2 as [Hb2 Hs2]; [|done|by rewrite Erx|done|by apply Hs1].
  destruct r2 as [| |o len]; [by intros [= <- <-]|intros [= <- <-]; split; [done|]; split; [|done]; by auto|].
  specialize (Hs2 ltac:(done)). pose proof (accounts_after o (note_length len s2)) as E3.
  rewrite accounts_note in E3. destruct (books_same _ s2 _ E3 Hb2) as [Hb3 Hs3]. specialize (Hs3 Hs2).
  destruct (after_session _ _) as [s3 [bo|]]; cbn [fst] in *; [|intros [= <- <-]; by auto].
  pose proof (books_wait (wait_from e) (polls e) bo _ _ (conj Hb3 Hs3)) as [Hb4 Hs4].
  destruct (wait_reconnect _ _ _ _ _) as [s4 []]; intros [= <- <-]; by auto.
Qed.

Lemma books_supervise es own s :
  Forall (wf_env cfg send_failed) es → books own s → settled s →
  let '(s', st) := supervise cfg ep send_failed es s in
  books (own ++ concat (map own_of es)) s' ∧ (st ≠ Ongoing → settled s').
Proof using AL BL.
  intros Hes. revert own s. induction Hes as [|e es He _ IH]; intros own s Hb Hs; cbn [supervise].
  { by rewrite app_nil_r. }
  cbn [map concat]. rewrite app_assoc.
  destruct (iteration _ _ _ _ _) as [s1 [st|]] eqn:E; apply (books_iteration _ own) in E as (Hb1 & Hs1 & Hn); try done.
  - split; [|intros Hst; apply Hs1; congruence]. eapply books_more; [|done]. set_solver.
  - by apply IH, Hn.
Qed.
End accounting.

Section claim.
Context {S H : Type} {TS : TokenStore S} {LH : LoxHandler H}.
Context {zc : ZeroCopy} {J : Json} {D : Digests} {X : Hex} {C : X509} {RL : Rustls} {UR : Url} {R : Rsa}.
Context {U : Utf8Text} {A : AesCbc} {B : Base64} {P : PercentDecode}.
Context {AL : AesCbcLaws} {BL : Base64Laws}.

(** [C5] No command and no caller is lost track of, over any number of sessions and
    reconnections: the commands that entered the channel are, in order, those the
    writers took, those lost with a writer that did not come back, and those still
    in the channel (none is lost while the channel is there); and the callers whose
    commands were taken, together with some of the writers' own requests, are each
    answered once or still wait. Once the supervisor has returned with its channel,
    nobody whose command was taken still waits. *)
Theorem commands_accounted (cfg : ConnectConfig S) builder send_failed (h : H) (sh : SharedState S) cs es :
  Forall (wf_env cfg send_failed) es →
  let '(s, st) := run_supervisor cfg builder send_failed h sh cs es in
  let l := sv_log s in
  entered l = taken l ++ lost l ++ default [] (sv_rx s)
  ∧ (is_Some (sv_rx s) → lost l = [])
  ∧ (∃ own, own ⊆ concat (map own_of es) ∧ map fst (answered l) ++ adrift l ≡ₚ senders (taken l) ++ own)
  ∧ (st = Ended → is_Some (sv_rx s) → adrift l = []).
Proof using AL BL.
  intros Hes. unfold run_supervisor. cbn zeta.
  set (start := λ c : TlsContext, {| sv_shared := sh; sv_guard := new_guard h; sv_tls := c; sv_stopped := false;
    sv_ready := true; sv_rx := Some cs; sv_attempt := 0; sv_ever := false; sv_log := log_entered cs no_log |}).
  assert (∀ c, books [] (start c) ∧ settled (start c)) as Hstart.
  { intros c. split; [|done]. split; [done|done|]. by exists []. }
  destruct (_ ≫= _) as [[c ep]|err].
  - destruct (Hstart c) as [Hb Hs]. pose proof (books_supervise cfg ep send_failed es [] (start c) Hes Hb Hs) as Hr.
    destruct (supervise _ _ _ _ _) as [s st]. destruct Hr as [[H1 H2 H3] Hst]. cbn zeta.
    split; [done|]. split; [done|]. split; [done|]. intros ->. by apply Hst.
  - match goal with |- context[finish ?e ?s0] =>
      destruct (Hstart (sv_tls s0)) as [Hb Hs];
      destruct (books_same [] s0 _ (accounts_finish e s0) Hb) as [[H1 H2 (o & Ho & H3)] Hs'] end.
    split; [done|]. split; [done|]. split; [|intros _; by apply Hs'].
    exists o. split; [|done]. transitivity (@nil Sender); [done|apply list_subseteq_nil].
Qed.
End claim.

(** ** Samples *)

#[local] Existing Instances zerocopy_model json_model digests_model hex_model aes_model base64_model
  percent_model no_store reader_utf8 x509_model rustls_model rsa_model idle_handler.
#[local] Existing Instances base64_model_laws aes_model_laws.

Lemma commands_accounted_witness :
  let '(s, st) := run_supervisor sample_cfg (Ok tt) (bs "gone") tt new_shared [Stop] [sample_env; sample_env] in
  let l := sv_log s in
  entered l = taken l ++ lost l ++ default [] (sv_rx s)
  ∧ (is_Some (sv_rx s) → lost l = [])
  ∧ (∃ own, own ⊆ concat (map own_of [sample_env; sample_env])
      ∧ map fst (answered l) ++ adrift l ≡ₚ senders (taken l) ++ own)
  ∧ (st = Ended → is_Some (sv_rx s) → adrift l = []).
Proof.
  apply (commands_accounted sample_cfg (Ok tt) (bs "gone") tt new_shared [Stop] [sample_env; sample_env]).
  repeat constructor; apply sample_env_wf.
Defined.
