(* ===== verification/Client.v ===== *)
(** * client/mod.rs: the façade

    [connect], the calls an application makes on a client, [stop] and the
    destructor. A call works on what the façade shares with the supervisor: the
    shared state, the stop flag and the command channel. The theorems show that the
    calls are the steps the theorems on the supervisor allow its callers, and that
    [connect] tells the truth. *)

From S2P Require Import Prelude RustStr External Models Errors Session Crypto Auth Store State Scan.
From S2P Require Import Pending Uuid Header EventTables Handler World Reader Writer Duplex Tls Http Config.
From S2P Require Import Handshake Steps Frame Live Supervisor Lifecycle.

(** What the façade sees; the channel is [None] once its receiver is gone. *)
Record View (S : Type) := {
  v_shared : SharedState S;
  v_stopped : bool;
  v_chan : option (list IoCommand);
}.
Arguments v_shared {S}. Arguments v_stopped {S}. Arguments v_chan {S}. Arguments Build_View {S}.

Inductive TrySendError := Full | ClosedChannel.

(** The fate of a oneshot: answered, dropped, or neither yet. *)
Inductive Reply := Answered (r : Result bytes) | Dropped | Silent.

(** How the wait for the IO task ends. *)
Inductive TaskEnd := TaskReturned | TaskFailed (msg : bytes) | TaskTimeout.

(** What the destructor does besides setting the flag. *)
Inductive DropEnd := AlreadyStopped | Queued | Deferred | AbortedTask.

Section facade.
Context {S : Type} {TS : TokenStore S} {J : Json} {D : Digests} {X : Hex}.
(** [max(command_channel_depth, 1)], and the username kept for [checktoken] *)
Context (depth : Z) (user : bytes).
Implicit Types v : View S.

Definition set_chan (ch : option (list IoCommand)) v : View S :=
  {| v_shared := v_shared v; v_stopped := v_stopped v; v_chan := ch |}.
Definition count_refusal (c : Counter) v : View S :=
  {| v_shared := upd_metrics (bump c) (v_shared v); v_stopped := v_stopped v; v_chan := v_chan v |}.
Definition raise_stop v : View S :=
  {| v_shared := v_shared v; v_stopped := true; v_chan := v_chan v |}.

(** ** The channel *)

Definition try_send (c : IoCommand) v : View S * option TrySendError :=
  match v_chan v with
  | None => (v, Some ClosedChannel)
  | Some cs => if zlen cs <? depth then (set_chan (Some (cs ++ [c])) v, None) else (v, Some Full)
  end.

(** [send(c).await]: [meanwhile] is what the other tasks do until there is room or
    the channel is closed; [None] when there is neither. *)
Definition send (meanwhile : View S → View S) (c : IoCommand) v : View S * option (Result unit) :=
  match try_send c (meanwhile v) with
  | (v, None) => (v, Some (Ok tt))
  | (v, Some ClosedChannel) => (v, Some (Err ChannelClosed))
  | (v, Some Full) => (v, None)
  end.

(** [?] on a call that has returned. *)
Definition and_then {T V} (r : View S * option (Result T)) (k : T → View S → View S * option (Result V)) :
    View S * option (Result V) :=
  match r with
  | (v, Some (Ok a)) => k a v
  | (v, Some (Err e)) => (v, Some (Err e))
  | (v, None) => (v, None)
  end.

(** ** Calls *)

Definition state v : ConnState := get_state (v_shared v).
Definition live v : bool := bool_decide (state v = Connected).
Definition view_metrics v : LoxMetrics :=
  snapshot (state v) (token_valid_until (v_shared v)) (metrics (v_shared v)).

Definition require_live v : View S * option (Result unit) :=
  if live v then (v, Some (Ok tt)) else (count_refusal controls_rejected_offline v, Some (Err NotConnected)).

Definition send_control (meanwhile : View S → View S) (uuid value : bytes) v : View S * option (Result unit) :=
  and_then (require_live v) (λ _, send meanwhile (Control uuid value)).

Definition try_send_control (uuid value : bytes) v : View S * option (Result unit) :=
  and_then (require_live v) (λ _ v,
    match try_send (Control uuid value) v with
    | (v, None) => (v, Some (Ok tt))
    | (v, Some Full) => (count_refusal controls_rejected_backpressure v, Some (Err Backpressure))
    | (v, Some ClosedChannel) => (v, Some (Err ChannelClosed))
    end).

Definition send_visu_control (meanwhile : View S → View S) (uuid value visu_pw : bytes) v :
    View S * option (Result unit) :=
  and_then (require_live v) (λ _, send meanwhile (VisuControl uuid value visu_pw)).

(** A request and its answer: the waiter, what the other tasks do until there is
    room and then until the answer, and the answer. *)
Record Exchange := {
  x_tx : Sender;
  x_room : View S → View S;
  x_rest : View S → View S;
  x_reply : Reply;
}.

Definition send_command (x : Exchange) (cmd : bytes) v : View S * option (Result bytes) :=
  and_then (send (x_room x) (Encrypted cmd (x_tx x)) v) (λ _ v,
    (x_rest x v,
     match x_reply x with
     | Answered r => Some r
     | Dropped => Some (Err ChannelClosed)
     | Silent => None
     end)).

Definition check_token (x_key x_check : Exchange) v : View S * option (Result bool) :=
  let token := shared_token (v_shared v) in
  if token_is_empty token then (v, Some (Ok false))
  else
    and_then (send_command x_key CMD_GET_KEY v) (λ key_resp v,
      match build_token_hash key_resp token with
      | Err e => (v, Some (Err e))
      | Ok hash =>
          and_then (send_command x_check (cmd_check_token hash user) v) (λ resp v,
            (v, Some (Ok (bool_decide (payload_ll_status resp = Some (bs "200"))))))
      end).

(** [join] says whether the client still holds the handle of the IO task. *)
Definition stop (meanwhile : View S → View S) (join : bool) (task : TaskEnd) v : View S * option (Result unit) :=
  match send meanwhile Stop (raise_stop v) with
  | (v, None) => (v, None)
  | (v, Some _) =>
      (v, Some (if negb join then Ok tt
                else match task with
                     | TaskReturned => Ok tt
                     | TaskFailed e => Err (WebSocket (bs "IO task join: " ++ e))
                     | TaskTimeout => Err (Timeout (bs "IO task did not stop in time"))
                     end))
  end.

(** [runtime]: whether the destructor runs within one. The deferred send is
    [send Stop] on a task of its own. *)
Definition drop_client (join runtime : bool) v : View S * DropEnd :=
  if negb join then (v, AlreadyStopped)
  else
    match try_send Stop (raise_stop v) with
    | (v, None) => (v, Queued)
    | (v, Some _) => (v, if runtime then Deferred else AbortedTask)
    end.
End facade.

(** ** The calls are the steps of the supervisor's callers *)

Section refinement.
Context {S : Type} {TS : TokenStore S} {J : Json} {D : Digests} {X : Hex}.
Context (depth : Z) (user : bytes).
Implicit Types v : View S.

Definition touch (o : Outside) v : View S :=
  match o with
  | OEnqueue c => fst (try_send depth c v)
  | ORefused c => count_refusal c v
  | OStop => raise_stop v
  end.

(** One call, with what it meets. *)
Inductive ClientCall :=
| CallSendControl (meanwhile : View S → View S) (uuid value : bytes)
| CallTrySendControl (uuid value : bytes)
| CallSendVisuControl (meanwhile : View S → View S) (uuid value visu_pw : bytes)
| CallSendCommand (x : Exchange (S := S)) (cmd : bytes)
| CallCheckToken (x_key x_check : Exchange (S := S))
| CallStop (meanwhile : View S → View S) (join : bool) (task : TaskEnd)
| CallDrop (join runtime : bool).

Definition run_call (c : ClientCall) v : View S :=
  match c with
  | CallSendControl m uuid value => fst (send_control depth m uuid value v)
  | CallTrySendControl uuid value => fst (try_send_control depth uuid value v)
  | CallSendVisuControl m uuid value pw => fst (send_visu_control depth m uuid value pw v)
  | CallSendCommand x cmd => fst (send_command depth x cmd v)
  | CallCheckToken x_key x_check => fst (check_token depth user x_key x_check v)
  | CallStop m join task => fst (stop depth m join task v)
  | CallDrop join runtime => fst (drop_client depth join runtime v)
  end.

(** The other tasks move by [others]; the call itself by the steps of callers. *)
Section others.
Context (others : relation (View S)).

Definition moves : relation (View S) := rtc (λ v v', others v v' ∨ ∃ o, wf_outside o ∧ v' = touch o v).
Definition lets (f : View S → View S) : Prop := ∀ v, rtc others v (f v).
Definition meets (c : ClientCall) : Prop :=
  match c with
  | CallSendControl m _ _ | CallSendVisuControl m _ _ _ | CallStop m _ _ => lets m
  | CallSendCommand x _ => lets (x_room x) ∧ lets (x_rest x)
  | CallCheckToken x y => lets (x_room x) ∧ lets (x_rest x) ∧ lets (x_room y) ∧ lets (x_rest y)
  | CallTrySendControl _ _ | CallDrop _ _ => True
  end.

Lemma moves_touch o v : wf_outside o → moves v (touch o v).
Proof using. intros Ho. apply rtc_once. right. by exists o. Qed.
Lemma moves_lets f v : lets f → moves v (f v).
Proof using. intros Hf. eapply rtc_subrel; [|apply Hf]. by left. Qed.
Lemma moves_trans v1 v2 v3 : moves v1 v2 → moves v2 v3 → moves v1 v3.
Proof using. unfold moves. intros H1 H2. by etransitivity. Qed.

Lemma moves_send m c v : lets m → moves v (fst (send depth m c v)).
Proof using.
  intros Hm. apply (moves_trans _ (m v)); [by apply moves_lets|].
  pose proof (moves_touch (OEnqueue c) (m v) I) as Ht. cbn [touch] in Ht. unfold send.
  by destruct (try_send _ _ _) as [v' [[]|]].
Qed.

Lemma moves_live v : moves v (fst (require_live v)).
Proof using.
  unfold require_live. destruct (live v); [by apply rtc_refl|].
  apply (moves_touch (ORefused controls_rejected_offline)). by left.
Qed.

Lemma moves_then {T V} v (r : View S * option (Result T)) (k : T → View S → View S * option (Result V)) :
  moves v (fst r) → (∀ a v', moves v' (fst (k a v'))) → moves v (fst (and_then r k)).
Proof using.
  intros Hr Hk. destruct r as [v' [[a|e]|]]; cbn [and_then fst] in *; [|done|done].
  by apply (moves_trans _ v').
Qed.

Lemma moves_command x cmd v : lets (x_room x) → lets (x_rest x) → moves v (fst (send_command depth x cmd v)).
Proof using. intros Hr Hs. apply moves_then; [by apply moves_send|]. intros _ v'. by apply moves_lets. Qed.

Lemma moves_check x y v :
  lets (x_room x) → lets (x_rest x) → lets (x_room y) → lets (x_rest y) →
  moves v (fst (check_token depth user x y v)).
Proof using.
  intros H1 H2 H3 H4. unfold check_token. destruct (token_is_empty _); [by apply rtc_refl|].
  apply moves_then; [by apply moves_command|]. intros key v'.
  destruct (build_token_hash _ _); [|by apply rtc_refl].
  apply moves_then; [by apply moves_command|]. intros resp v''. by apply rtc_refl.
Qed.

Lemma run_call_moves c v : meets c → moves v (run_call c v).
Proof using.
  destruct c as [m u x|u x|m u x p|x cmd|x y|m j t|j r]; cbn [meets run_call].
  - intros Hm. apply moves_then; [apply moves_live|]. intros _ v'. by apply moves_send.
  - intros _. apply moves_then; [apply moves_live|]. intros _ v'.
    pose proof (moves_touch (OEnqueue (Control u x)) v' I) as Ht. cbn [touch] in Ht.
    destruct (try_send _ _ _) as [v2 [[]|]]; [|done|done]. apply (moves_trans _ v2); [done|].
    apply (moves_touch (ORefused controls_rejected_backpressure)). by right.
  - intros Hm. apply moves_then; [apply moves_live|]. intros _ v'. by apply moves_send.
  - intros [Hr Hs]. by apply moves_command.
  - intros (H1 & H2 & H3 & H4). by apply moves_check.
  - intros Hm. apply (moves_trans _ (raise_stop v)); [by apply (moves_touch OStop)|].
    pose proof (moves_send m Stop (raise_stop v) Hm) as Hs. unfold stop.
    by destruct (send _ _ _ _) as [v' [|]].
  - intros _. unfold drop_client. destruct (negb j); [by apply rtc_refl|].
    apply (moves_trans _ (raise_stop v)); [by apply (moves_touch OStop)|].
    pose proof (moves_touch (OEnqueue Stop) (raise_stop v) I) as Ht. cbn [touch] in Ht.
    by destruct (try_send _ _ _) as [v' [|]].
Qed.
End others.
End refinement.
Arguments ClientCall : clear implicits.

(** ** Refusals *)

#[export] Instance result_eq_dec {E A} `{!EqDecision E, !EqDecision A} : EqDecision (result E A).
Proof. solve_decision. Defined.

Section refusals.
Context {S : Type} {TS : TokenStore S} {J : Json} {D : Digests} {X : Hex} (depth : Z).
Implicit Types v : View S.

(** A control, and the connection state and the channel the other tasks have brought
    about when it is sent. *)
Record Attempted := { a_state : ConnState; a_chan : option (list IoCommand); a_uuid : bytes; a_value : bytes }.
Definition meeting (a : Attempted) v : View S :=
  {| v_shared := set_state (a_state a) (v_shared v); v_stopped := v_stopped v; v_chan := a_chan a |}.
Fixpoint send_all (attempts : list Attempted) v : View S * list (option (Result unit)) :=
  match attempts with
  | [] => (v, [])
  | a :: attempts =>
      let '(v, r) := try_send_control depth (a_uuid a) (a_value a) (meeting a v) in
      let '(v, rs) := send_all attempts v in (v, r :: rs)
  end.

Definition refused (e : Error) (rs : list (option (Result unit))) : Z :=
  zlen (filter (λ r, r = Some (Err e)) rs).
Definition justified (a : Attempted) (r : option (Result unit)) : Prop :=
  match r with
  | Some (Ok _) => a_state a = Connected ∧ ∃ cs, a_chan a = Some cs ∧ zlen cs < depth
  | Some (Err NotConnected) => a_state a ≠ Connected
  | Some (Err Backpressure) => a_state a = Connected ∧ ∃ cs, a_chan a = Some cs ∧ depth <= zlen cs
  | Some (Err ChannelClosed) => a_state a = Connected ∧ a_chan a = None
  | _ => False
  end.

Record counted (rs : list (option (Result unit))) v : Prop := {
  n_fields : length (counters (metrics (v_shared v))) = 14%nat;
  n_offline : counter (metrics (v_shared v)) controls_rejected_offline = refused NotConnected rs mod 2 ^ 64;
  n_full : counter (metrics (v_shared v)) controls_rejected_backpressure = refused Backpressure rs mod 2 ^ 64;
}.

Lemma refused_snoc e rs r : refused e (rs ++ [r]) = refused e rs + (if decide (r = Some (Err e)) then 1 else 0).
Proof using.
  unfold refused. rewrite filter_app, zlen_app. f_equal.
  destruct (decide _) as [E|E]; [rewrite filter_cons_True|rewrite filter_cons_False]; done.
Qed.

Lemma try_send_control_spec a rs v :
  counted rs v →
  let '(v', r) := try_send_control depth (a_uuid a) (a_value a) (meeting a v) in
  counted (rs ++ [r]) v' ∧ justified a r.
Proof using.
  intros [Hf Ho Hb]. unfold try_send_control, require_live, live, state, get_state. cbn [meeting v_shared set_state state_cell].
  rewrite conn_state_roundtrip. destruct (bool_decide_reflect (a_state a = Connected)) as [Hst|Hst]; cbn [and_then].
  2: { split; [|done]. constructor; cbn [count_refusal v_shared upd_metrics metrics meeting set_state].
       - unfold bump. by rewrite bump_fields.
       - by rewrite counter_bump_eq, Ho, refused_snoc, decide_True, fetch_add_tally.
       - unfold bump. by rewrite counter_bump_ne, Hb, refused_snoc, decide_False, Z.add_0_r. }
  unfold try_send. cbn [meeting v_chan]. destruct (a_chan a) as [cs|] eqn:Ec.
  - destruct (Z.ltb_spec (zlen cs) depth) as [Hl|Hl]; (split; [|cbn; rewrite ?Ec; eauto]).
    + constructor; cbn [set_chan v_shared meeting set_state metrics]; rewrite ?refused_snoc, ?decide_False, ?Z.add_0_r; done.
    + constructor; cbn [count_refusal v_shared upd_metrics metrics meeting set_state].
      * unfold bump. by rewrite bump_fields.
      * unfold bump. by rewrite counter_bump_ne, Ho, refused_snoc, decide_False, Z.add_0_r.
      * by rewrite counter_bump_eq, Hb, refused_snoc, decide_True, fetch_add_tally.
  - split; [|done]. constructor; cbn [v_shared meeting set_state metrics];
      rewrite ?refused_snoc, ?decide_False, ?Z.add_0_r; done.
Qed.

Lemma send_all_spec attempts rs v :
  counted rs v →
  let '(v', rs') := send_all attempts v in counted (rs ++ rs') v' ∧ Forall2 justified attempts rs'.
Proof using.
  revert rs v. induction attempts as [|a attempts IH]; intros rs v Hc; cbn [send_all].
  { by rewrite app_nil_r. }
  apply (try_send_control_spec a) in Hc. destruct (try_send_control _ _ _ _) as [v1 r]. destruct Hc as [Hc Hj].
  apply IH in Hc. destruct (send_all attempts v1) as [v2 rs']. destruct Hc as [Hc Hr].
  rewrite <- app_assoc in Hc. split; [done|by constructor].
Qed.

End refusals.

(** ** connect *)

Section connecting.
Context {S H : Type} {TS : TokenStore S} {LH : LoxHandler H}.
Context {zc : ZeroCopy} {J : Json} {D : Digests} {X : Hex} {C : X509} {RL : Rustls} {UR : Url} {R : Rsa}.
Context {U : Utf8Text} {A : AesCbc} {B : Base64} {P : PercentDecode}.

Definition view_sup (s : Sup S H) : View S :=
  {| v_shared := sv_shared s; v_stopped := sv_stopped s; v_chan := sv_rx s |}.
Definition view_live (l : Live S H) : View S :=
  {| v_shared := shared (lw l); v_stopped := stopped (lw l); v_chan := Some (inbox l) |}.
Definition act_of (o : Outside) : Action S H :=
  match o with OEnqueue c => ActEnqueue c | ORefused c => ActRefused c | OStop => ActStop end.

(** [None] is the overflow panic of [restore_token]. *)
Definition connect_shared (checks : bool) (now : Z) (cfg : ConnectConfig S) : option (SharedState S) :=
  match token_store cfg with
  | Some st => restore_token checks now
      (with_token_store st (token_binding (loxone_url cfg) (c_username cfg) (client_uuid cfg)))
  | None => Some new_shared
  end.

(** The supervisor as far as its inputs go, and what [connect] has returned by then;
    when it fails it waits for the task. *)
Definition connect (checks : bool) (now : Z) (cfg : ConnectConfig S) (builder : result bytes unit)
    (send_failed : bytes) (h : H) (es : list (SupEnv S H)) : option (Sup S H * Status * option (Result unit)) :=
  sh ← connect_shared checks now cfg;
  let '(s, st) := run_supervisor cfg builder send_failed h sh [] es in
  let failed e := (set_stop true s, st, match st with Ongoing => None | _ => Some (Err e) end) in
  Some (match ready_log (sv_log s) with
        | Ok _ :: _ => (s, st, Some (Ok tt))
        | Err e :: _ => failed e
        | [] => match st with
                | Ongoing => (s, st, None)
                | _ => failed (WebSocket (bs "IO task exited before ready"))
                end
        end).

Lemma restore_metrics checks now (s s' : SharedState S) :
  restore_token checks now s = Some s' → metrics s' = metrics s.
Proof using.
  unfold restore_token. destruct (persist s) as [p|]; [|by intros [= <-]].
  destruct (ts_load (binding p) (store p)) as [t|]; [|by intros [= <-]].
  destruct (token_is_empty t); [by intros [= <-]|].
  destruct (seconds_to_expire checks now t) as [secs|]; [|done]. cbn. by destruct (secs <=? 0); intros [= <-].
Qed.

Lemma connect_shared_metrics checks now cfg sh : connect_shared checks now cfg = Some sh → metrics sh = new_metrics.
Proof using.
  unfold connect_shared. destruct (token_store cfg) as [st|]; [|by intros [= <-]]. by intros ->%restore_metrics.
Qed.

Context {AL : AesCbcLaws} {BL : Base64Laws}.

(** [C16] [connect] tells the truth: it succeeds exactly when [Connected] has been
    delivered; when it returns an error, the IO task is gone, and [Closed] is the
    last thing the handler has heard unless the task panicked; and it does return
    once the task is gone. *)
Theorem connect_truthful checks now (cfg : ConnectConfig S) builder send_failed (h : H) es :
  Forall (wf_env cfg send_failed) es →
  match connect checks now cfg builder send_failed h es with
  | None => connect_shared checks now cfg = None
  | Some (s, st, r) =>
      let evs := events (history (sv_guard s)) in
      (r = Some (Ok tt) ↔ EvConnected ∈ evs)
      ∧ (∀ e, r = Some (Err e) → st ≠ Ongoing ∧ (st = Ended → last evs = Some EvClosed))
      ∧ (r = None → st = Ongoing)
  end.
Proof using AL BL.
  intros Hes. unfold connect. destruct (connect_shared checks now cfg) as [sh|] eqn:Esh; [|done]. cbn [mbind option_bind].
  pose proof (run_supervisor_inv cfg builder send_failed h sh [] es (connect_shared_metrics _ _ _ _ Esh) Hes) as Hr.
  destruct (run_supervisor _ _ _ _ _ _ _) as [s st]. destruct (decide (st = Ended)) as [-> |Hst].
  - destruct Hr as [_ Hl (r & Hrl & Hok) _ _]. rewrite Hrl. destruct r as [[]|e]; cbn zeta.
    + split; [|done]. by rewrite <- Hok.
    + cbn. split; [|done]. rewrite <- Hok. done.
  - assert (∃ p, inv p s ∧ p ≠ Over) as (p & [Hp _ Hrl _] & Hno) by (by destruct st).
    apply phase_connected in Hp. rewrite Hrl. destruct p; [| | |done];
      [rewrite bool_decide_true by done|rewrite bool_decide_false by done..].
    + destruct st; [|done|]; cbn beta iota zeta; cbn [set_stop sv_guard]; rewrite Hp.
      all: split; [split; [done|by intros ?%not_elem_of_nil]|by split].
    + by split.
    + by split.
Qed.
End connecting.

(** ** Samples *)

#[local] Existing Instances zerocopy_model json_model digests_model hex_model aes_model base64_model
  percent_model no_store reader_utf8 x509_model rustls_model rsa_model idle_handler.
#[local] Existing Instances base64_model_laws aes_model_laws.

(** A full channel that a writer empties while a caller waits. *)
Definition drains : relation (View unit) := λ v v', v' = set_chan (Some []) v.
Definition full_view : View unit :=
  {| v_shared := set_state Connected new_shared; v_stopped := false; v_chan := Some (replicate 32 DropSession) |}.
Definition waiting_call : ClientCall unit := CallSendControl (set_chan (Some [])) (bs "uuid") (bs "On").


Lemma connect_truthful_witness :
  match connect true 0 sample_cfg (Ok tt) (bs "gone") tt [sample_env] with
  | None => connect_shared true 0 sample_cfg = None
  | Some (s, st, r) =>
      let evs := events (history (sv_guard s)) in
      (r = Some (Ok tt) ↔ EvConnected ∈ evs)
      ∧ (∀ e, r = Some (Err e) → st ≠ Ongoing ∧ (st = Ended → last evs = Some EvClosed))
      ∧ (r = None → st = Ongoing)
  end.
Proof.
  apply (connect_truthful true 0 sample_cfg (Ok tt) (bs "gone") tt [sample_env]).
  repeat constructor; apply sample_env_wf.
Defined.

Definition fresh_view : View unit := {| v_shared := new_shared; v_stopped := false; v_chan := Some [] |}.
Definition sample_attempts : list Attempted :=
  [{| a_state := Connected; a_chan := Some []; a_uuid := bs "u"; a_value := bs "1" |};
   {| a_state := Connected; a_chan := Some (replicate 32 DropSession); a_uuid := bs "u"; a_value := bs "2" |};
   {| a_state := Reconnecting; a_chan := Some []; a_uuid := bs "u"; a_value := bs "3" |}].

