(* ===== verification/Progress.v ===== *)
(** * A client connects

    The supervisor and [connect] against a Miniserver that is there: it is reachable,
    trusted under the client's TLS policy, hands out its public key, and answers the
    handshake as in [Dialogue]. Then every session that the supervisor begins gets to
    its connected phase, the first as well as a later one, and [connect] returns
    [Ok]. *)

From S2P Require Import Prelude RustStr External Models Errors Session Crypto Auth Store State Scan.
From S2P Require Import Pending Uuid Header EventTables Handler World Reader Writer Duplex Tls Http Config.
From S2P Require Import Handshake Steps Frame Live Supervisor Lifecycle Dialogue Client.

(** ** Connections *)

Section network.
Context {D : Digests} {X : Hex} {C : X509} {RL : Rustls} {B : Base64} {J : Json}.

(** The policy lets the peer in, and goes on doing so. *)
Definition trusts (p : Peer) (c : TlsContext) : Prop :=
  tls_rest p = Ok tt ∧ verify_signature (verifier c) p = Ok tt
  ∧ match verifier c with
    | WebPkiVerifier => webpki p = Ok tt
    | SpkiPinVerifier learn =>
        ∃ k, spki_sha256 (cert p) = Ok k ∧ (pin c = Some k ∨ pin c = None ∧ learn = true)
    | NoCertVerifier => True
    end.

Lemma trusts_connect p c :
  trusts p c → ∃ c', tls_connect p c = (c', Ok tt) ∧ trusts p c' ∧ tls_mode c' = tls_mode c ∧ verifier c' = verifier c.
Proof using.
  intros (Hr & Hs & Hv). pose proof (conj Hr (conj Hs Hv)) as Ht. unfold tls_connect, check_certificate, connector.
  destruct (verifier c) as [|learn|] eqn:Ev.
  - rewrite Hv, Ev, Hs, Hr. exists c. split; [done|]. split; [|done]. unfold trusts. by rewrite Ev.
  - destruct Hv as (k & Hk & Hp). unfold verify_server_cert. rewrite Hk.
    assert (∃ c', (let '(slot, r) := match pin c with
        | Some expected => if bool_decide (expected = k) then (pin c, Ok tt) else (pin c, Err InvalidCertificate)
        | None => if learn then (Some k, Ok tt) else (pin c, Err InvalidCertificate) end in (set_pin slot c, r))
      = (c', Ok tt) ∧ verifier c' = verifier c ∧ tls_mode c' = tls_mode c ∧ pin c' = Some k) as (c' & -> & Hv' & Hm' & Hp').
    { destruct Hp as [-> |[-> ->]]; [rewrite bool_decide_true by done|]; by eexists. }
    rewrite Hv', Ev, Hs, Hr. exists c'. split; [done|]. split; [|by rewrite Hv', Ev]. unfold trusts. rewrite Hv', Ev. by eauto 6.
  - rewrite Ev, Hs, Hr. exists c. split; [done|]. split; [|done]. unfold trusts. by rewrite Ev.
Qed.

Context (p : Peer) (tls_used : bool).

(** Where TLS is used, the peer is let in, and a pinning policy has a pinning verifier. *)
Definition welcomes (c : TlsContext) : Prop :=
  tls_used = true → trusts p c ∧ (pins (tls_mode c) = true → ∃ learn, verifier c = SpkiPinVerifier learn).

Lemma welcomes_connect c :
  tls_used = true → welcomes c → ∃ c', tls_connect p c = (c', Ok tt) ∧ welcomes c' ∧ tls_mode c' = tls_mode c.
Proof using.
  intros Ht Hc. destruct (Hc Ht) as [Hp Hv]. destruct (trusts_connect p c Hp) as (c' & E & Hp' & Hm & Hv').
  exists c'. split; [done|]. split; [|done]. intros _. by rewrite Hv', Hm.
Qed.

(** A computation on the TLS context that keeps the welcome, leaves the context alone
    without TLS, and does not complain about the pin. *)
Definition mild {T} (r : Result T) : Prop := ∀ a b, r ≠ Err (TlsPinMismatch a b).
Definition keeps {T} (m : M TlsContext T) : Prop := ∀ c, welcomes c →
  welcomes (m c).1 ∧ (tls_used = false → (m c).1 = c) ∧ mild (m c).2.

Lemma keeps_lift {T} (r : Result T) : mild r → keeps (lift r).
Proof using. by intros Hr c Hc. Qed.
Lemma mild_map_err {T E} (f : E → Error) (r : result E T) : (∀ e a b, f e ≠ TlsPinMismatch a b) → mild (map_err f r).
Proof using. intros Hf a b. destruct r as [|e]; [done|]. intros [= E1]. by eapply Hf. Qed.
Lemma mild_ok_or {T} (o : option T) e : mild (Err e : Result T) → mild (ok_or o e).
Proof using. by destruct o. Qed.
Lemma mild_bind {T V} (r : Result T) (f : T → Result V) : mild r → (∀ a, mild (f a)) → mild (r ≫= f).
Proof using. intros Hr Hf. destruct r as [a|e]; [apply Hf|]. intros a b [= ->]. by eapply Hr. Qed.
Lemma keeps_bind {T V} (m : M TlsContext T) (f : T → M TlsContext V) :
  keeps m → (∀ a, keeps (f a)) → keeps (m ≫= f).
Proof using.
  intros Hm Hf c Hc. destruct (Hm c Hc) as (Hw & Hsame & Hmild). unfold mbind, M_bind.
  destruct (m c) as [c1 [a|e]]; cbn [fst snd] in *.
  - destruct (Hf a c1 Hw) as (Hw1 & Hsame1 & Hmild1). split; [done|]. split; [|done].
    intros Ht. by rewrite Hsame1, Hsame.
  - split; [done|]. split; [done|]. intros a b [= ->]. by eapply Hmild.
Qed.
Lemma keeps_connect n {E} (f : E → Error) (s : result E unit) :
  peer n = p → (∀ e a b, f e ≠ TlsPinMismatch a b) →
  keeps (if tls_used then _ ← lift (map_err f s); tls_connect (peer n) else mret tt).
Proof using.
  intros Hp Hf. destruct tls_used eqn:Et; [|by apply keeps_lift].
  apply keeps_bind; [by apply keeps_lift, mild_map_err|]. intros _ c Hc.
  rewrite Hp. destruct (welcomes_connect c) as (c' & -> & Hc' & _); [done|done|]. split; [done|]. split; [congruence|done].
Qed.

Lemma keeps_get h n : h_use_tls h = tls_used → peer n = p → keeps (get_inner h n).
Proof using.
  intros Hh Hp. unfold get_inner. rewrite Hh. apply keeps_bind; [by apply keeps_lift, mild_map_err|]. intros _.
  apply keeps_bind; [by apply keeps_connect|]. intros _.
  repeat (apply keeps_bind; [by apply keeps_lift, mild_map_err|]; intros ?). by apply keeps_lift.
Qed.

(** Every connection of a network is to the peer. *)
Definition identifies (net : Network) : Prop := ∀ r n, net r = Some n → peer n = p.

Lemma keeps_get_ll net h path cr : h_use_tls h = tls_used → identifies net → keeps (get_ll net h path cr).
Proof using.
  intros Hh Hn. unfold get_ll, http_get. destruct (net _) as [n|] eqn:E; [|by intros c].
  apply keeps_bind; [apply keeps_get; [done|by eapply Hn]|]. intros [st b]. destruct (negb _); by intros c.
Qed.

(** The network gets through to the peer. *)
Definition reachable (n : Net) : Prop :=
  tcp n = Ok tt ∧ server_name n = Ok tt ∧ build n = Ok tt ∧ http1 n = Ok tt ∧ upgrade n = Ok tt.

Lemma tls_through n {E} (f : E → Error) (s : result E unit) c :
  peer n = p → s = Ok tt → welcomes c →
  ∃ c', (if tls_used then _ ← lift (map_err f s); tls_connect (peer n) else mret tt) c = (c', Ok tt) ∧ welcomes c'.
Proof using.
  intros Hp -> Hc. destruct tls_used eqn:Et; [|by exists c]. rewrite Hp.
  destruct (welcomes_connect c) as (c' & E1 & Hc' & _); [done|done|]. by exists c'.
Qed.

Lemma http_get_through net h path cr n st b c :
  h_use_tls h = tls_used → net (http_request h path cr) = Some n → reachable n → peer n = p →
  status n = Ok st → body n = Ok b → welcomes c →
  ∃ c', http_get net h path cr c = (c', Ok (st, b)) ∧ welcomes c'.
Proof using.
  intros Hh Hn (Ht & Hs & Hb & H1 & _) Hp Hst Hbody Hc. unfold http_get, get_inner. rewrite Hn, Hh, Ht.
  rewrite (bind_ok _ _ c c tt) by done.
  destruct (tls_through n (λ m, Tls (bs "invalid server name: " ++ m)) (server_name n) c Hp Hs Hc) as (c' & E & Hc').
  rewrite (bind_ok _ _ _ _ _ E), H1, Hb, Hst, Hbody. by exists c'.
Qed.

Lemma ws_connect_through n ep c :
  use_tls ep = tls_used → reachable n → peer n = p → welcomes c →
  ∃ c', ws_connect n ep c = (c', Ok tt) ∧ welcomes c'.
Proof using.
  intros Hh (Ht & Hs & Hb & _ & Hu) Hp Hc. unfold ws_connect. rewrite Hh, Ht, Hb.
  rewrite (bind_ok _ _ c c tt) by done. rewrite (bind_ok _ _ c c tt) by done.
  destruct (tls_through n (λ m, WebSocket (bs "invalid server name: " ++ m)) (server_name n) c Hp Hs Hc) as (c' & E & Hc').
  rewrite (bind_ok _ _ _ _ _ E), Hu. by exists c'.
Qed.
End network.

(** ** Up to the WebSocket *)

Section establishing.
Context {S H : Type}.
Context {J : Json} {D : Digests} {X : Hex} {C : X509} {RL : Rustls} {R : Rsa} {A : AesCbc} {B : Base64}.
Context (cfg : ConnectConfig S) (ep : Endpoints) (p : Peer).
#[local] Abbreviation welcomes := (welcomes p (use_tls ep)).
#[local] Abbreviation keeps := (keeps p (use_tls ep)).

(** What the Miniserver says about itself does not rule the client out. *)
Definition admissible (info : ApiInfo) : Prop :=
  (local_only cfg = true → local info ≠ Some false)
  ∧ (receive_updates cfg = true → has_event_slots info ≠ Some false).
Definition admits (net : Network) : Prop := ∀ r n b info,
  net r = Some n → body n = Ok b → parse_api_info b = Ok info → admissible info.

Lemma mild_relaxed raw : mild (parse_relaxed_object raw).
Proof using.
  unfold parse_relaxed_object.
  assert (∀ r : result bytes Value, mild (v ← map_err (λ e, JsonError (bs "LL.value: " ++ e)) r;
    if negb (is_object v) then Err (Protocol (bs "LL.value string is not an object")) else Ok v)) as Hr.
  { intros r. apply mild_bind; [by apply mild_map_err|]. intros v. by destruct (negb _). }
  destruct (from_slice raw) as [v|e]; [destruct (is_object v); [done|]|]; apply Hr.
Qed.

Lemma mild_api_info b : mild (parse_api_info b).
Proof using.
  unfold parse_api_info, parse_json. apply mild_bind; [by apply mild_map_err|]. intros root.
  apply mild_bind; [by apply mild_ok_or|]. intros ll.
  apply mild_bind; [destruct (ll_status_code ll) as [code|]; [by destruct (negb _)|done]|]. intros _.
  apply mild_bind; [by apply mild_ok_or|]. intros v. destruct (as_str v) as [raw|]; [|by destruct (is_object v)].
  apply mild_bind; [apply mild_relaxed|done].
Qed.

Lemma keeps_fetch net path : identifies p net → keeps (fetch_api_info net (http ep) path).
Proof using.
  intros Hn. apply keeps_bind; [by apply keeps_get_ll|]. intros b. apply keeps_lift, mild_api_info.
Qed.

Lemma bind_ok_inv {W T V} (m : M W T) (f : T → M W V) w w' b :
  (m ≫= f) w = (w', Ok b) → ∃ w1 a, m w = (w1, Ok a) ∧ f a w1 = (w', Ok b).
Proof using. unfold mbind, M_bind. destruct (m w) as [w1 [a|e]]; [by eauto|done]. Qed.

Lemma get_inner_body h n c c' st b : get_inner h n c = (c', Ok (st, b)) → body n = Ok b.
Proof using.
  unfold get_inner. intros E. do 5 (apply bind_ok_inv in E as (? & ? & _ & E)).
  apply bind_ok_inv in E as (? & ? & Eb & [= -> -> ->]). injection Eb as _ Eb. destruct (body n); by simplify_eq/=.
Qed.

Lemma fetch_admits net path c c' info :
  admits net → fetch_api_info net (http ep) path c = (c', Ok info) → admissible info.
Proof using.
  intros Ha (c1 & b & E2 & E)%bind_ok_inv. apply bind_ok_inv in E2 as (c2 & [st b'] & E1 & E2).
  unfold http_get in E1. destruct (net _) as [n|] eqn:En; [|done]. apply get_inner_body in E1.
  destruct (negb _); [done|]. injection E2 as _ <-. injection E as _ E. by eapply Ha.
Qed.

Lemma admissible_fill i j : admissible i → admissible j → admissible (fill_from i j).
Proof using.
  intros [H1 H2] [H3 H4]. unfold fill_from, opt_or. split; cbn; intros Hc.
  - destruct (local i); [by apply H1|by apply H3].
  - destruct (has_event_slots i); [by apply H2|by apply H4].
Qed.

Lemma preflight_passes net c :
  identifies p net → admits net → welcomes c → ∃ c', preflight cfg ep net c = (c', Ok tt) ∧ welcomes c'.
Proof using.
  intros Hn Ha Hc. unfold preflight. destruct (_ && _); [by exists c|]. unfold api_info.
  destruct (keeps_fetch net CMD_API_KEY Hn c Hc) as (H1 & _ & _).
  destruct (fetch_api_info net (http ep) CMD_API_KEY c) as [c1 key] eqn:E1. cbn [fst] in H1.
  destruct (keeps_fetch net CMD_API Hn c1 H1) as (H2 & _ & _).
  destruct (fetch_api_info net (http ep) CMD_API c1) as [c2 api] eqn:E2. cbn [fst] in H2.
  assert (∀ info, admissible info → (if local_only cfg && bool_decide (local info = Some false) then Err NotLocal
    else if receive_updates cfg && bool_decide (has_event_slots info = Some false) then Err NoEventSlots
    else Ok tt) = (Ok tt : Result unit)) as Hok.
  { intros info [Hl He]. destruct (local_only cfg); cbn [andb]; [rewrite bool_decide_false by auto|];
      (destruct (receive_updates cfg); cbn [andb]; [rewrite bool_decide_false by auto|]); done. }
  exists c2. split; [|done].
  destruct key as [i|], api as [j|]; [| | |done]; rewrite Hok; eauto using fetch_admits, admissible_fill.
Qed.

(** The key that [getcertificate] names is the key of the peer. *)
Definition certifies (net : Network) : Prop := ∀ c c' pem k,
  get_certificate net (http ep) (c_username cfg) (c_password cfg) c = (c', Ok pem) →
  spki_sha256_from_pem_chain pem = Ok k → use_tls ep = true → spki_sha256 (cert p) = Ok k.

Lemma keeps_certificate net : identifies p net → keeps (get_certificate net (http ep) (c_username cfg) (c_password cfg)).
Proof using.
  intros Hn. unfold get_certificate, parse_json. apply keeps_bind; [by apply keeps_get_ll|]. intros b.
  apply keeps_bind; [by apply keeps_lift, mild_map_err|]. intros root.
  apply keeps_bind; [by apply keeps_lift, mild_ok_or|]. intros chain.
  destruct (negb _); by intros c.
Qed.

Lemma mild_chain pem : mild (spki_sha256_from_pem_chain pem).
Proof using.
  unfold spki_sha256_from_pem_chain. apply mild_bind; [by apply mild_map_err|]. intros chain.
  apply mild_bind; [by apply mild_ok_or|]. intros leaf. unfold spki_sha256_of.
  by apply mild_bind; [apply mild_map_err|].
Qed.

(** The key of the peer can be adopted, and the peer stays welcome. *)
Lemma adopts k c :
  welcomes c → (use_tls ep = true → spki_sha256 (cert p) = Ok k) → (use_tls ep = false → pin c = None) →
  ∃ c', adopt_spki k c = (c', Ok tt) ∧ welcomes c'.
Proof using.
  intros Hc Hk Hn. unfold adopt_spki. destruct (pins (tls_mode c)) eqn:Ep; [|by exists c]. cbn [negb].
  destruct (use_tls ep) eqn:Et.
  - destruct (Hc eq_refl) as [(Hr & Hs & Hv) Hpin]. destruct (Hpin Ep) as [learn Hl]. rewrite Hl in Hv, Hs.
    destruct Hv as (k' & Hk' & Hor). assert (k' = k) as -> by (specialize (Hk eq_refl); congruence).
    destruct (pin c) as [k'|] eqn:Epin.
    + destruct Hor as [[= ->]|[? _]]; [|done]. rewrite bool_decide_true by done. by exists c.
    + eexists. split; [reflexivity|]. intros _. split; [|by eauto]. split; [done|]. cbn [verifier set_pin].
      rewrite Hl. split; [done|]. exists k. by auto.
  - rewrite (Hn eq_refl). eexists. split; [reflexivity|]. done.
Qed.

Lemma learn_pin_passes net c :
  identifies p net → certifies net → welcomes c → ∃ c', learn_pin cfg ep net c = (c', Ok tt) ∧ welcomes c'.
Proof using.
  intros Hn Hcert Hc. unfold learn_pin. destruct (needs_pin_bootstrap c) eqn:Eb; [|by exists c].
  assert (pin c = None) as Hpin.
  { apply andb_true_iff in Eb as [_ Eb]. unfold pinned_spki in Eb. by destruct (pin c). }
  unfold bootstrap_pin. destruct (keeps_certificate net Hn c Hc) as (Hw & Hsame & Hmild).
  destruct (get_certificate _ _ _ _ c) as [c1 [pem|e]] eqn:E1; cbn [fst snd] in *.
  2: { rewrite (bind_err _ _ _ _ _ E1). exists c1. split; [|done]. destruct e; try done. by edestruct Hmild. }
  rewrite (bind_ok _ _ _ _ _ E1). unfold mbind at 1, M_bind at 1, lift.
  destruct (spki_sha256_from_pem_chain pem) as [k|e] eqn:Ek.
  2: { exists c1. split; [|done]. pose proof (mild_chain pem) as Hm. rewrite Ek in Hm.
       destruct e; try done. by edestruct Hm. }
  destruct (adopts k c1 Hw) as (c2 & E2 & Hw2); [by eapply Hcert|intros Ht; by rewrite Hsame|].
  rewrite (bind_ok _ _ _ _ _ E2). by exists c2.
Qed.

(** The Miniserver hands out a public key under which the session key can be wrapped. *)
Definition public_key_of (b : bytes) : option bytes :=
  root ← res_ok (parse_json b); ll ← value_get root (bs "LL"); get_str ll (bs "value").
Definition offers_key (e : SessionEnv S H) (b64 : bytes) : Prop :=
  ∃ n b key pem,
    key_net e (http_request (http ep) CMD_GET_PUBLIC_KEY (Some (c_username cfg, c_password cfg))) = Some n
    ∧ reachable n ∧ status n = Ok 200 ∧ body n = Ok b
    ∧ public_key_of b = Some key ∧ key ≠ [] ∧ normalize_public_key_pem key = Some pem
    ∧ wrap_session_key (rng_rsa e) pem (session_payload (session_keys e)) = Some (Ok b64).

Record attends (e : SessionEnv S H) (b64 : bytes) : Prop := {
  att_peer : identifies p (probe_net e) ∧ identifies p (pin_net e) ∧ identifies p (key_net e) ∧ peer (ws_net e) = p;
  att_admits : admits (probe_net e);
  att_certifies : certifies (pin_net e);
  att_key : offers_key e b64;
  att_ws : reachable (ws_net e);
}.

Lemma establishes e b64 c :
  attends e b64 → welcomes c →
  ∃ c', establish cfg ep e (session_keys e) c = (c', Ok (Some b64)) ∧ welcomes c'.
Proof using.
  intros [(Hp1 & Hp2 & Hp3 & Hp4) Ha Hcert Hk Hws] Hc. unfold establish.
  destruct (preflight_passes _ _ Hp1 Ha Hc) as (c1 & E1 & Hc1). rewrite (bind_ok _ _ _ _ _ E1).
  destruct (learn_pin_passes _ _ Hp2 Hcert Hc1) as (c2 & E2 & Hc2). rewrite (bind_ok _ _ _ _ _ E2).
  destruct Hk as (n & b & key & pem & Hn & Hr & Hst & Hb & Hpk & Hne & Hpem & Hwrap). unfold public_key_of in Hpk.
  destruct (parse_json b) as [root|] eqn:Hj; [|done]. cbn [res_ok mbind option_bind] in Hpk.
  destruct (value_get root (bs "LL")) as [ll|] eqn:Hll; [|done]. cbn [mbind option_bind] in Hpk. rename Hpk into Hkey.
  destruct (http_get_through p (use_tls ep) (key_net e) (http ep) _ _ n 200 b c2 eq_refl Hn Hr (Hp3 _ _ Hn) Hst Hb Hc2)
    as (c3 & E3 & Hc3).
  assert (get_public_key (key_net e) (http ep) (c_username cfg) (c_password cfg) c2 = (c3, Ok (Some pem))) as E4.
  { unfold get_public_key. rewrite (bind_ok _ _ c2 c3 b) by (unfold get_ll; by rewrite (bind_ok _ _ _ _ _ E3)).
    rewrite (bind_ok _ _ c3 c3 root) by (unfold lift; by rewrite Hj).
    rewrite (bind_ok _ _ c3 c3 ll) by (unfold lift; by rewrite Hll).
    rewrite (bind_ok _ _ c3 c3 key) by (unfold lift; by rewrite Hkey). destruct key; [done|]. by rewrite <- Hpem. }
  rewrite (bind_ok _ _ _ _ _ E4). cbn [mbind option_bind]. rewrite Hwrap.
  destruct (ws_connect_through p (use_tls ep) (ws_net e) ep c3 eq_refl Hws Hp4 Hc3) as (c4 & E5 & Hc4).
  exists c4. split; [|done]. unfold mbind, M_bind, lift. by rewrite E5.
Qed.
End establishing.

(** ** Into the connected phase *)

Section connecting.
Context {S H : Type} {TS : TokenStore S} {LH : LoxHandler H}.
Context {zc : ZeroCopy} {J : Json} {D : Digests} {X : Hex} {C : X509} {RL : Rustls} {UR : Url} {R : Rsa}.
Context {U : Utf8Text} {A : AesCbc} {B : Base64} {P : PercentDecode}.
Context {AL : AesCbcLaws} {BL : Base64Laws}.
Context (I : H → Prop) {HS : Steady I}.
Context (cfg : ConnectConfig S) (ep : Endpoints) (send_failed : bytes) (p : Peer) (srv : bytes → bytes).
Implicit Types s : Sup S H.

(** The Miniserver answers the handshake of a session that starts with a token; [f]
    is what happens to the state that outlives the session. *)
Definition answers_handshake (e : SessionEnv S H) (b64 : bytes) (t : LxToken)
    (f : SharedState S → SharedState S) : Prop :=
  ∃ cmds rs rest, dialogue cfg (hs_now e) srv t cmds f ∧ takes_key srv b64 ∧ subscribes cfg srv
    ∧ Forall (eq None) (hs_writes e)
    ∧ delivers (srv (CMD_KEY_EXCHANGE ++ b64) :: map srv (cmds ++ subscription cfg)) rs
    ∧ hs_reads e = rs ++ rest.

(** Callers do not touch the token, the handler or the TLS context. *)
Lemma outsides_apart os s :
  shared_token (sv_shared (outsides cfg os s)) = shared_token (sv_shared s)
  ∧ sv_guard (outsides cfg os s) = sv_guard s ∧ sv_tls (outsides cfg os s) = sv_tls s
  ∧ sv_ready (outsides cfg os s) = sv_ready s ∧ ready_log (sv_log (outsides cfg os s)) = ready_log (sv_log s).
Proof using.
  revert s. induction os as [|o os IH]; intros s; [done|]. cbn [outsides fold_left].
  destruct (IH (outside cfg o s)) as (E1 & E2 & E3 & E4 & E5). unfold outsides in *. rewrite E1, E2, E3, E4, E5.
  destruct o as [c|c|]; cbn [outside]; [|done|done]. destruct (sv_rx s); [|done]. by destruct (_ <? _).
Qed.

Lemma session_reaches e b64 f again s (s0 := outsides cfg (before e) (upd_log log_session s)) :
  attends cfg ep p e b64 → answers_handshake e b64 (shared_token (sv_shared s)) f →
  welcomes p (use_tls ep) (sv_tls s) → calm I (sv_guard s) →
  ∃ s1 salt, session_once cfg ep send_failed e again s = converse cfg send_failed e salt (connected e again s1)
    ∧ sv_shared s1 = f (sv_shared s0) ∧ calm I (sv_guard s1)
    ∧ welcomes p (use_tls ep) (sv_tls s1) ∧ sv_ready s1 = sv_ready s ∧ ready_log (sv_log s1) = ready_log (sv_log s).
Proof using AL BL HS.
  intros Hatt (cmds & rs & rest & Hd & Hk & Hsub & Hw & Hdel & Hr) Hc Hp. unfold session_once. fold s0.
  destruct (outsides_apart (before e) (upd_log log_session s)) as (Et & Eg & Ec & Er & El). fold s0 in Et, Eg, Ec, Er, El.
  cbn [upd_log sv_shared sv_guard sv_tls sv_ready sv_log log_session ready_log] in Et, Eg, Ec, Er, El.
  destruct (establishes cfg ep p e b64 (sv_tls s0) Hatt ltac:(by rewrite Ec)) as (c' & -> & Hc').
  unfold session_handshake.
  match goal with |- context [handshake _ _ _ _ _ ?s1] =>
    destruct (handshake_follows (session_keys e) cfg (hs_draws e) (hs_now e) eq_refl I srv b64 cmds f rest s1)
      as (hs & texts & -> & Hsh & _ & [Hg _] & _) end.
  - cbn. by rewrite Et.
  - done.
  - done.
  - split; [split; [cbn; by rewrite Eg|done]|]. by exists rs.
  - by eexists _, _.
Qed.

(** ** [ready] is answered once *)

Definition settled (l : list (Result unit)) s : Prop := sv_ready s = false ∧ ready_log (sv_log s) = l.

Lemma settled_ready l r s : settled l s → settled l (answer_ready r s).
Proof using. intros [Hr Hl]. unfold answer_ready. by rewrite Hr. Qed.
Lemma settled_outsides l os s : settled l s → settled l (outsides cfg os s).
Proof using. unfold settled. by destruct (outsides_apart os s) as (_ & _ & _ & -> & ->). Qed.
Lemma settled_finish l err s : settled l s → settled l (finish err s).
Proof using. intros Hs. apply (settled_ready l (Err (default Stopped err)) (upd_sh (set_state CClosed) s) Hs). Qed.
Lemma settled_converse l e salt s : settled l s → settled l (fst (converse cfg send_failed e salt s)).
Proof using. intros Hs. unfold converse. destruct (reading _); [done|]. destruct (told _); [|done]. by destruct (join e). Qed.

Lemma settled_session l e again s : settled l s → settled l (fst (session_once cfg ep send_failed e again s)).
Proof using.
  intros Hs. unfold session_once.
  assert (settled l (outsides cfg (before e) (upd_log log_session s))) as H0 by (by apply settled_outsides).
  destruct (establish _ _ _ _ _) as [c [[b64|]|err]]; [|done|done].
  destruct (session_handshake _ _ _ _) as [hs []]; [|done]. apply settled_converse. unfold connected. by apply settled_ready.
Qed.

Lemma settled_after l o s : settled l s → settled l (fst (after_session o s)).
Proof using.
  intros Hs. destruct o as [|code|err]; cbn [after_session].
  - by apply settled_finish.
  - destruct (terminal_close code), (token_survives_close code); cbn [fst]; try apply settled_finish; done.
  - destruct (is_terminal err); [by apply settled_finish|]. destruct (negb _); [by apply settled_finish|done].
Qed.

Lemma settled_sleep l deadline ps s : settled l s → settled l (fst (sleep_loop cfg deadline ps s)).
Proof using.
  revert s. induction ps as [|[os now] ps IH]; intros s Hs; cbn [sleep_loop]; [done|].
  apply (settled_outsides l os) in Hs. destruct (sv_stopped _); [done|]. destruct (_ <=? _); [done|]. by apply IH.
Qed.

Lemma settled_wait l from ps backoff s : settled l s → settled l (fst (wait_reconnect cfg from ps backoff s)).
Proof using.
  intros Hs. unfold wait_reconnect. destruct (negb _); [done|]. unfold sleep_unless_stopped. destruct (_ <? _); [done|].
  match goal with |- context [sleep_loop _ ?d _ ?s1] => pose proof (settled_sleep l d ps s1 Hs) as Hl end.
  by destruct (sleep_loop _ _ _ _) as [s2 []].
Qed.

Lemma settled_note l len s : settled l s → settled l (note_length len s).
Proof using. intros Hs. destruct len; cbn [note_length]; [|done]. by destruct (_ <=? _). Qed.

(** What follows a session. *)
Definition aftermath (e : SupEnv S H) (r : Sup S H * SessionRun) : Sup S H * option Status :=
  match r with
  | (s, Running) => (s, Some Ongoing)
  | (s, Panicked) => (s, Some Died)
  | (s, Done o connected_for) =>
      match after_session o (note_length connected_for s) with
      | (s, None) => (s, Some Ended)
      | (s, Some backoff) =>
          match wait_reconnect cfg (wait_from e) (polls e) backoff s with
          | (s, Asleep) => (s, Some Ongoing)
          | (s, TooLong) => (s, Some Died)
          | (s, Woken) => (s, Some Ended)
          | (s, Slept) => (s, None)
          end
      end
  end.

Lemma settled_aftermath l e r : settled l (fst r) → settled l (fst (aftermath e r)).
Proof using.
  intros Hs. destruct r as [s [| |o len]]; cbn [fst aftermath] in *; [done|done|].
  pose proof (settled_after l o _ (settled_note l len s Hs)) as Ha.
  destruct (after_session o (note_length len s)) as [s1 [bo|]]; [|done]. cbn [fst] in Ha.
  apply (settled_wait l (wait_from e) (polls e) bo) in Ha. by destruct (wait_reconnect _ _ _ _ _) as [s2 []].
Qed.

Lemma settled_supervise l es s : settled l s → settled l (fst (supervise cfg ep send_failed es s)).
Proof using.
  revert s. induction es as [|e es IH]; intros s Hs; cbn [supervise]; [done|].
  assert (settled l (fst (iteration cfg ep send_failed e s))) as Hi.
  { unfold iteration. destruct (sv_stopped s); [by apply settled_finish|].
    destruct (panicked _); [by apply settled_finish|]. destruct (sv_rx _); [|by apply settled_finish].
    by apply (settled_aftermath l e), settled_session. }
  destruct (iteration _ _ _ _ _) as [s1 [st|]]; [done|by apply IH].
Qed.

(** ** Progress *)

Lemma dialogue_token now t cmds f :
  dialogue cfg now srv t cmds f → ∃ t', token_is_empty t' = false ∧ ∀ sh, shared_token (f sh) = t'.
Proof using.
  intros [? t' _ Hi|? ? t' _ _ _ Hi|auth ? t' He _ _ _ Ha|? ? ? t' _ _ _ _ Hi]; exists t'; (split; [|done]).
  3: { pose proof (apply_valid_until_nonempty t auth He) as Hn. by rewrite Ha in Hn. }
  all: by destruct Hi.
Qed.

(** [C8] A session connects. Whether it is the first session of the client or a
    later one, if the Miniserver is reachable, trusted and admits the client, and
    answers the handshake along one of the paths of the protocol, and the handler does
    not unwind, then the session enters its connected phase: the state is [Connected], a token is known, [ready]
    has been answered, the last thing the handler has heard of the connection is that
    it is up, and the Miniserver is still trusted, for the sessions to come. *)
Theorem session_connects e b64 f again s :
  attends cfg ep p e b64 → answers_handshake e b64 (shared_token (sv_shared s)) f →
  welcomes p (use_tls ep) (sv_tls s) → calm I (sv_guard s) →
  ∃ s2 salt, session_once cfg ep send_failed e again s = converse cfg send_failed e salt s2
    ∧ get_state (sv_shared s2) = Connected ∧ token_is_empty (shared_token (sv_shared s2)) = false
    ∧ sv_ready s2 = false
    ∧ last (events (history (sv_guard s2))) = Some (if again then EvReconnected else EvConnected)
    ∧ welcomes p (use_tls ep) (sv_tls s2).
Proof using AL BL HS.
  intros Hatt Hans Hc Hp.
  destruct (session_reaches e b64 f again s Hatt Hans Hc Hp) as (s1 & salt & E & Hsh & Hg & Hw & _ & _).
  exists (connected e again s1), salt. split; [exact E|].
  destruct Hans as (cmds & rs & rest & Hd & _). apply dialogue_token in Hd as (t' & Ht' & Hf).
  unfold connected, answer_ready. cbn [sv_ready upd_sh set_guard].
  assert (last (events (history (lifecycle (if again then EvReconnected else EvConnected) (sv_guard s1))))
    = Some (if again then EvReconnected else EvConnected)) as Hl.
  { rewrite lifecycle_events. apply last_snoc. }
  destruct (sv_ready s1) eqn:Er; cbn; rewrite Hsh, Hf; auto 6.
Qed.

(** The supervisor answers [ready] with success in its first session. *)
Lemma connect_ready checks now builder (h : H) e es c sh b64 f :
  I h → from_loxone_url (loxone_url cfg) = Ok ep → tls_new builder (tls cfg) = Ok c →
  connect_shared checks now cfg = Some sh → welcomes p (use_tls ep) c →
  attends cfg ep p (session e) b64 → answers_handshake (session e) b64 (shared_token sh) f →
  ∃ s st, connect checks now cfg builder send_failed h (e :: es) = Some (s, st, Some (Ok tt)).
Proof using AL BL HS.
  intros Hh Hep Hc Hsh Hw Hatt Hans. unfold connect. rewrite Hsh. cbn [mbind option_bind].
  unfold run_supervisor. rewrite Hep. cbn [mbind result_bind]. rewrite Hc. cbn [mbind result_bind].
  set (s0 := {| sv_shared := sh; sv_rx := _ |}).
  assert (settled [Ok tt] (fst (supervise cfg ep send_failed (e :: es) s0))) as [_ Hl].
  { set (s1 := upd_sh (set_state Connecting) s0).
    destruct (session_reaches (session e) b64 f false s1 Hatt Hans Hw (conj eq_refl Hh)) as (s2 & salt & E & _ & _ & _ & Hr & Hlog).
    assert (settled [Ok tt] (fst (aftermath e (session_once cfg ep send_failed (session e) false s1)))) as Hi.
    { apply settled_aftermath. rewrite E. apply settled_converse. unfold connected, answer_ready.
      cbn [sv_ready upd_sh set_guard]. rewrite Hr. by split; [|cbn; rewrite Hlog]. }
    change (supervise cfg ep send_failed (e :: es) s0)
      with (match aftermath e (session_once cfg ep send_failed (session e) false s1) with
            | (s, Some st) => (s, st) | (s, None) => supervise cfg ep send_failed es s end).
    destruct (aftermath _ _) as [s3 [st|]]; [done|by apply settled_supervise]. }
  destruct (supervise _ _ _ _ s0) as [s st]. cbn [fst] in Hl. rewrite Hl. by exists s, st.
Qed.

(** [C7] [connect] succeeds against a Miniserver that is there: reachable and trusted
    under the TLS policy of the configuration, handing out its public key, and
    answering the handshake along one of the paths of the protocol, with whatever
    token the store has given back, while the application's handler does not unwind. It
    returns [Ok] whatever happens afterwards. *)
Theorem connect_succeeds checks now builder (h : H) e es c sh b64 f :
  I h → from_loxone_url (loxone_url cfg) = Ok ep → tls_new builder (tls cfg) = Ok c →
  connect_shared checks now cfg = Some sh → welcomes p (use_tls ep) c →
  attends cfg ep p (session e) b64 → answers_handshake (session e) b64 (shared_token sh) f →
  ∃ s st, connect checks now cfg builder send_failed h (e :: es) = Some (s, st, Some (Ok tt)).
Proof using AL BL HS. apply connect_ready. Qed.
End connecting.

(** ** A Miniserver *)

#[local] Existing Instances zerocopy_model json_model digests_model hex_model aes_model base64_model
  percent_model no_store reader_utf8 x509_model rustls_model rsa_model idle_handler.
#[local] Existing Instances aes_model_laws base64_model_laws.

(** Behind TLS, with a certificate the client sees for the first time. *)
Definition tls_url_model : Url := {|
  UrlT := bytes; url_parse := Ok; host_str := Some; scheme _ := bs "https"; url_port _ := None; url_base h := h |}.
#[local] Existing Instance tls_url_model.

Definition house_cfg : ConnectConfig unit :=
  {| loxone_url := bs "https://home"; c_username := bs "admin"; c_password := bs "secret"; tls := PinOnFirstUse;
     receive_updates := true; local_only := true; max_reconnect_attempts := 3;
     client_uuid := DEFAULT_CLIENT_UUID; client_info := DEFAULT_CLIENT_INFO;
     token_permission := App; keepalive_secs := KEEP_ALIVE_PERIOD_SECS;
     connect_delay_secs := CONNECT_DELAY_SECS; long_backoff_secs := LONG_BACKOFF_SECS;
     command_timeout_secs := COMMAND_TIMEOUT_SECS; read_idle_timeout_secs := READ_IDLE_TIMEOUT_SECS;
     c_max_missed_keepalives := MAX_MISSED_KEEPALIVES; max_pending_commands := MAX_PENDING_COMMANDS;
     command_channel_depth := COMMAND_CHANNEL_DEPTH; token_store := None; c_kill_token_on_stop := true |}.
Definition house : Peer := peer_named (bs "house").
Definition house_ep : Endpoints := Eval vm_compute in
  default {| http_base := []; ws_url := []; host := []; port := 0; use_tls := false |}
    (res_ok (from_loxone_url (loxone_url house_cfg))).
Definition house_context : TlsContext := {| tls_mode := PinOnFirstUse; pin := None; verifier := SpkiPinVerifier true |}.
Definition house_net (b : bytes) : Net :=
  {| tcp := Ok tt; server_name := Ok tt; peer := house; build := Ok tt; upgrade := Ok tt; http1 := Ok tt;
     status := Ok 200; body := Ok b |}.
Definition info_answer : bytes := Eval vm_compute in
  json_text (bs "{'LL':{'code':'200','value':{'local':true,'hasEventSlots':true}}}").
Definition house_pem : bytes := Eval vm_compute in default [] (normalize_public_key_pem (bs "41")).
Definition wrapped_key (e : SessionEnv unit unit) : bytes :=
  default [] (r ← wrap_session_key (rng_rsa e) house_pem (session_payload (session_keys e)); res_ok r).

Definition first_cmds : list bytes := [cmd_getkey2 (c_username house_cfg); token_cmd].
Definition house_session : SessionEnv unit unit :=
  {| before := [OEnqueue (Encrypted (bs "jdev/sps/io") 7%nat)];
     probe_net _ := Some (house_net info_answer); pin_net _ := None; key_net _ := Some (house_net ok_answer);
     ws_net := house_net []; rng_key := replicate 32 Byte.x01; rng_iv := replicate 16 Byte.x02; rng_rsa := [];
     hs_reads := concat (map frames_of (map miniserver
       ((CMD_KEY_EXCHANGE ++ wrapped_key sample_session) :: first_cmds ++ [CMD_ENABLE_UPDATES])));
     hs_writes := []; hs_draws := sample_draws; hs_now := 0; mono := 0; wall := 0; acts := []; join := Joined;
     lasted := 0 |}.
Definition house_env : SupEnv unit unit := {| session := house_session; wait_from := 0; polls := [] |}.

Lemma house_attends : attends house_cfg house_ep house house_session (wrapped_key sample_session).
Proof.
  split.
  - split; [intros r n [= <-]; done|]. split; [by intros r n|]. split; [intros r n [= <-]; done|done].
  - intros r n b info [= <-] [= <-] Hi. vm_compute in Hi. injection Hi as <-. by split.
  - intros c c' pem k Hg. unfold get_certificate in Hg. apply bind_ok_inv in Hg as (? & ? & Hg & _).
    apply bind_ok_inv in Hg as (? & ? & Hg & _). discriminate Hg.
  - exists (house_net ok_answer), ok_answer, (bs "41"), house_pem. split; [done|]. split; [done|].
    split; [done|]. split; [done|]. split; [vm_compute; reflexivity|]. split; [done|].
    split; vm_compute; reflexivity.
  - done.
Qed.

Lemma house_answers :
  answers_handshake house_cfg miniserver house_session (wrapped_key sample_session) (shared_token (new_shared (S := unit)))
    (set_token (TS := no_store) (new_token (bs "eyJ") 500000000 Sha256)).
Proof.
  exists first_cmds. eexists. exists []. split; [|split; [|split; [|split; [|split]]]].
  - apply dlg_first; [done|]. eapply issue; vm_compute; reflexivity.
  - apply (bool_decide_unpack _ (dec := is_Some_dec _)). vm_compute. done.
  - intros _. set_solver.
  - constructor.
  - apply delivers_frames. repeat (apply Forall_cons; split; [vm_compute; done|]). constructor.
  - by rewrite app_nil_r.
Qed.

Lemma house_welcome : welcomes house (use_tls house_ep) house_context.
Proof.
  intros _. split; [|by eauto]. split; [done|]. split; [by vm_compute|]. eexists. split; [reflexivity|]. by right.
Qed.

Definition house_sup : Sup unit unit :=
  {| sv_shared := new_shared; sv_guard := new_guard tt; sv_tls := house_context; sv_stopped := false;
     sv_ready := false; sv_rx := Some []; sv_attempt := 1; sv_ever := true; sv_log := no_log |}.

Lemma session_connects_witness :
  ∃ s2 salt, session_once house_cfg house_ep (bs "gone") house_session true house_sup
             = converse house_cfg (bs "gone") house_session salt s2
    ∧ get_state (sv_shared s2) = Connected ∧ token_is_empty (shared_token (sv_shared s2)) = false
    ∧ sv_ready s2 = false
    ∧ last (events (history (sv_guard s2))) = Some EvReconnected
    ∧ welcomes house (use_tls house_ep) (sv_tls s2).
Proof.
  apply (session_connects (λ _, True) house_cfg house_ep (bs "gone") house miniserver
    house_session (wrapped_key sample_session) _ true house_sup house_attends house_answers house_welcome (conj eq_refl Logic.I)).
Defined.

Lemma connect_succeeds_witness :
  ∃ s st, connect true 0 house_cfg (Ok tt) (bs "gone") tt [house_env] = Some (s, st, Some (Ok tt)).
Proof.
  eapply (connect_succeeds (λ _, True) house_cfg house_ep (bs "gone") house miniserver true 0 (Ok tt) tt
    house_env [] house_context new_shared (wrapped_key sample_session));
    [exact Logic.I|vm_compute; reflexivity|reflexivity|reflexivity|apply house_welcome|apply house_attends|apply house_answers].
Defined.
