(* ===== verification/Redact.v ===== *)
(** * What the client prints of itself

    The hand-written [Debug] and [Display] implementations. A [Debug]
    implementation is the tree of calls it makes on the formatter; the tree is
    rendered as [{:?}] and as [{:#?}] do. The theorem is that no secret gets
    through: objects that differ in nothing but secrets print the same. *)

From S2P Require Import Prelude RustStr External Models Errors Session Crypto Auth Store State Scan.
From S2P Require Import Pending Uuid Header EventTables Handler World Reader Writer Duplex Tls Http Config.
From S2P Require Import Handshake Steps Frame Live Supervisor.

(** ** The formatter *)

(** [write_str], [Debug for str], [debug_struct] (finished exhaustively or not),
    [debug_tuple] and [debug_list]. *)
Inductive dbg :=
| DWrite (s : bytes)
| DStr (s : bytes)
| DStruct (name : bytes) (fields : list (bytes * dbg)) (exhaustive : bool)
| DTuple (name : bytes) (items : list dbg)
| DList (items : list dbg).

(** The standard library's [PadAdapter]: four spaces at the start of every line. *)
Fixpoint pad (on_newline : bool) (s : bytes) : bytes :=
  match s with
  | [] => []
  | b :: s => (if on_newline then bs "    " else []) ++ b :: pad (byteb b nl) s
  end.
Fixpoint commas (es : list bytes) : bytes :=
  match es with
  | [] => []
  | [e] => e
  | e :: es => e ++ bs ", " ++ commas es
  end.
Definition lines_of (es : list bytes) : bytes := concat (map (λ e, pad true (e ++ bs "," ++ [nl])) es).

Definition debug_struct (alternate : bool) (name : bytes) (fields : list bytes) (exhaustive : bool) : bytes :=
  match fields with
  | [] => name ++ if exhaustive then [] else bs " { .. }"
  | _ =>
      if alternate then
        name ++ bs " {" ++ [nl] ++ lines_of fields
        ++ (if exhaustive then [] else pad true (bs ".." ++ [nl])) ++ bs "}"
      else name ++ bs " { " ++ commas fields ++ if exhaustive then bs " }" else bs ", .. }"
  end.
(** [debug_tuple] with a name, and [debug_list]. *)
Definition debug_items (alternate : bool) (open close : bytes) (items : list bytes) : bytes :=
  match items with
  | [] => open ++ close
  | _ => if alternate then open ++ [nl] ++ lines_of items ++ close else open ++ commas items ++ close
  end.

Section render.
(** [str::escape_debug], whose tables of printable characters are not modelled. *)
Context (escape : bytes → bytes).

Fixpoint render (alternate : bool) (d : dbg) : bytes :=
  match d with
  | DWrite s => s
  | DStr s => [quote] ++ escape s ++ [quote]
  | DStruct name fields exhaustive =>
      debug_struct alternate name (map (λ '(n, v), n ++ bs ": " ++ render alternate v) fields) exhaustive
  | DTuple name items => match items with
                         | [] => name
                         | _ => debug_items alternate (name ++ bs "(") (bs ")") (map (render alternate) items)
                         end
  | DList items => debug_items alternate (bs "[") (bs "]") (map (render alternate) items)
  end.
End render.

(** ** Values of the standard library *)

Definition dbool (b : bool) : dbg := DWrite (if b then bs "true" else bs "false").
Definition dint (n : Z) : dbg := DWrite (display_Z n).
Definition doption {T} (f : T → dbg) (o : option T) : dbg :=
  match o with Some x => DTuple (bs "Some") [f x] | None => DWrite (bs "None") end.

(** [Debug for Duration]: the digits after the point end with the last that is not
    zero; nine are enough. *)
Fixpoint fraction (fuel : nat) (part divisor : Z) : bytes :=
  match fuel with
  | 0%nat => []
  | S fuel =>
      if part =? 0 then []
      else display_Z (part / divisor) ++ fraction fuel (part mod divisor) (divisor / 10)
  end.
Definition decimal (whole part divisor : Z) (suffix : bytes) : bytes :=
  match fraction 9 part divisor with
  | [] => display_Z whole
  | digits => display_Z whole ++ bs "." ++ digits
  end ++ suffix.
Definition micro : bytes := [Byte.xc2; Byte.xb5] ++ bs "s".
Definition dduration (nanos : Z) : dbg :=
  let secs := nanos / 1000000000 in
  let sub := nanos mod 1000000000 in
  DWrite (if 0 <? secs then decimal secs sub 100000000 (bs "s")
          else if 1000000 <=? sub then decimal (sub / 1000000) (sub mod 1000000) 100000 (bs "ms")
          else if 1000 <=? sub then decimal (sub / 1000) (sub mod 1000) 100 micro
          else decimal sub 0 1 (bs "ns")).

(** A duration of whole seconds prints as that number of seconds. *)
Lemma dduration_secs n : 1 <= n → dduration (from_secs n) = DWrite (display_Z n ++ bs "s").
Proof.
  intros Hn. unfold dduration, from_secs. rewrite Z.div_mul, Z.mod_mul by lia.
  destruct (Z.ltb_spec 0 n); [done|lia].
Qed.

(** ** auth/token.rs and crypto/session.rs *)

Definition Redacted (n : Z) : dbg :=
  DWrite (if n =? 0 then bs "<empty>" else bs "<redacted, " ++ display_Z n ++ bs " bytes>").

(** The derived implementations the others use. *)
Definition debug_hash_alg (a : HashAlg) : dbg := DWrite (match a with Sha1 => bs "Sha1" | Sha256 => bs "Sha256" end).
Definition debug_permission (p : TokenPermission) : dbg := DWrite (match p with Web => bs "Web" | App => bs "App" end).
Definition debug_conn_state (s : ConnState) : dbg :=
  DWrite (match s with
          | CClosed => bs "Closed"
          | Connecting => bs "Connecting"
          | Connected => bs "Connected"
          | Reconnecting => bs "Reconnecting"
          end).
Definition debug_tls_mode (m : TlsMode) : dbg :=
  match m with
  | WebPki => DWrite (bs "WebPki")
  | PinOnFirstUse => DWrite (bs "PinOnFirstUse")
  | Pinned spki => DStruct (bs "Pinned") [(bs "spki_sha256", DList (map (λ b, dint (u8 b)) spki))] true
  | Insecure => DWrite (bs "Insecure")
  end.
Definition debug_endpoints (e : Endpoints) : dbg :=
  DStruct (bs "Endpoints")
    [(bs "http_base", DStr (http_base e)); (bs "ws_url", DStr (ws_url e)); (bs "host", DStr (host e));
     (bs "port", dint (port e)); (bs "use_tls", dbool (use_tls e))] true.

Definition debug_token (t : LxToken) : dbg :=
  DStruct (bs "LxToken")
    [(bs "token", Redacted (zlen (token t))); (bs "valid_until", dint (valid_until t));
     (bs "hash_alg", debug_hash_alg (tok_hash_alg t))] true.

Definition debug_session_keys `{!AesCbc} (k : SessionKeys) : dbg := DStruct (bs "SessionKeys") [] false.

Definition debug_salt_state (st : SaltState) : dbg :=
  DStruct (bs "SaltState")
    [(bs "salt", DStr (salt st)); (bs "salt_used_count", dint (salt_used_count st));
     (bs "salt_time_stamp", dint (salt_time_stamp st))] false.

(** ** client *)

Definition debug_tls_context (c : TlsContext) : dbg :=
  DStruct (bs "TlsContext")
    [(bs "mode", debug_tls_mode (tls_mode c)); (bs "pinned", dbool (negb (is_none (pinned_spki c))))] true.

Definition debug_writer_config (c : WriterConfig) : dbg :=
  DStruct (bs "WriterConfig")
    [(bs "keepalive_period", dduration (keepalive_period c)); (bs "command_timeout", dduration (command_timeout c));
     (bs "max_missed_keepalives", dint (max_missed_keepalives c)); (bs "max_pending", dint (max_pending c));
     (bs "kill_token_on_stop", dbool (kill_token_on_stop c))] false.

(** [store_debug] is the [Debug] of the configured token store. *)
Definition debug_config {S} (store_debug : S → dbg) (c : ConnectConfig S) : dbg :=
  DStruct (bs "ConnectConfig")
    [(bs "loxone_url", DStr (loxone_url c)); (bs "username", DStr (c_username c));
     (bs "password", Redacted (zlen (c_password c))); (bs "tls", debug_tls_mode (tls c));
     (bs "receive_updates", dbool (receive_updates c)); (bs "local_only", dbool (local_only c));
     (bs "max_reconnect_attempts", dint (max_reconnect_attempts c)); (bs "client_uuid", DStr (client_uuid c));
     (bs "client_info", DStr (client_info c)); (bs "token_permission", debug_permission (token_permission c));
     (bs "keepalive_secs", dint (keepalive_secs c)); (bs "connect_delay_secs", dint (connect_delay_secs c));
     (bs "long_backoff_secs", dint (long_backoff_secs c)); (bs "command_timeout_secs", dint (command_timeout_secs c));
     (bs "read_idle_timeout_secs", dint (read_idle_timeout_secs c));
     (bs "max_missed_keepalives", dint (c_max_missed_keepalives c));
     (bs "max_pending_commands", dint (max_pending_commands c));
     (bs "command_channel_depth", dint (command_channel_depth c));
     (bs "token_store", doption store_debug (token_store c));
     (bs "kill_token_on_stop", dbool (c_kill_token_on_stop c))] true.
(** The derived implementation of the shipped store. *)
Definition debug_file_store (path : bytes) : dbg := DStruct (bs "FileTokenStore") [(bs "path", DStr path)] true.

(** The tasks' own objects: what they hold is given in full, with the shared part as
    the session's state. *)
Section tasks.
Context {S H : Type} {A : AesCbc}.
Definition debug_reader (keys : SessionKeys) (w : World S H) (idle_timeout : Z) : dbg :=
  DStruct (bs "Reader") [(bs "idle_timeout", dduration idle_timeout)] false.
Definition debug_writer (keys : SessionKeys) (w : World S H) (cfg : WriterConfig) : dbg :=
  DStruct (bs "Writer") [(bs "cfg", debug_writer_config cfg)] false.
Definition debug_handshake (keys : SessionKeys) (cfg : ConnectConfig S) (h : HState S H) : dbg :=
  DStruct (bs "Handshake") [] false.
Definition debug_session_ctx (cfg : ConnectConfig S) (e : Endpoints) (s : Sup S H) : dbg :=
  DStruct (bs "SessionCtx") [(bs "endpoints", debug_endpoints e)] false.
Definition debug_handler_guard (g : HandlerGuard H) : dbg :=
  DStruct (bs "HandlerGuard") [(bs "panicked", dbool (panicked g))] false.
Definition debug_client (sh : SharedState S) (stopped : bool) : dbg :=
  DStruct (bs "LoxClient") [(bs "state", debug_conn_state (get_state sh)); (bs "stopped", dbool stopped)] false.
End tasks.

(** ** Values *)

Definition display_conn_state (s : ConnState) : bytes := conn_as_str s.
Definition display_permission (p : TokenPermission) : bytes := display_Z (permission_id p).
Definition display_uuid (u : LoxoneUuid) : bytes := as_ascii (format_loxone_bytes u).
Definition debug_uuid (u : LoxoneUuid) : dbg := DWrite (bs "LoxoneUuid(" ++ display_uuid u ++ bs ")").
Definition display_uuid_str (k : LoxoneUuidStr) : bytes := key_as_str k.
Definition debug_uuid_str (k : LoxoneUuidStr) : dbg := DWrite (bs "LoxoneUuidStr(" ++ key_as_str k ++ bs ")").

Section entries.
Context {zc : ZeroCopy}.
(** [Debug for f64], on the bits of the number. *)
Context (f64_debug : Z → bytes).
Definition debug_daytimer_entry (e : Daytimer.DaytimerEntry) : dbg :=
  DStruct (bs "DaytimerEntry")
    [(bs "mode", dint (Daytimer.mode e)); (bs "from_minutes", dint (Daytimer.from_minutes e));
     (bs "to_minutes", dint (Daytimer.to_minutes e)); (bs "need_activate", dint (Daytimer.need_activate e));
     (bs "value", DWrite (f64_debug (Daytimer.value e)))] true.
Definition debug_weather_entry (e : Weather.WeatherEntry) : dbg :=
  DStruct (bs "WeatherEntry")
    [(bs "timestamp", dint (Weather.timestamp e)); (bs "weather_type", dint (Weather.weather_type e));
     (bs "wind_direction", dint (Weather.wind_direction e)); (bs "solar_radiation", dint (Weather.solar_radiation e));
     (bs "relative_humidity", dint (Weather.relative_humidity e));
     (bs "temperature", DWrite (f64_debug (Weather.temperature e)));
     (bs "perceived_temperature", DWrite (f64_debug (Weather.perceived_temperature e)));
     (bs "dew_point", DWrite (f64_debug (Weather.dew_point e)));
     (bs "precipitation", DWrite (f64_debug (Weather.precipitation e)));
     (bs "wind_speed", DWrite (f64_debug (Weather.wind_speed e)));
     (bs "barometric_pressure", DWrite (f64_debug (Weather.barometric_pressure e)))] true.
End entries.

(** ** No secret is printed *)

Section secrets.
Context {S H : Type} {A : AesCbc} (store_debug : S → dbg) (escape : bytes → bytes).

(** The objects that hold a secret. *)
Inductive object :=
| OConfig (c : ConnectConfig S)
| OToken (t : LxToken)
| OKeys (k : SessionKeys)
| OSalt (st : SaltState)
| OTls (c : TlsContext)
| OReader (keys : SessionKeys) (w : World S H) (idle_timeout : Z)
| OWriter (keys : SessionKeys) (w : World S H) (cfg : WriterConfig)
| OHandshake (keys : SessionKeys) (cfg : ConnectConfig S) (h : HState S H)
| OSession (cfg : ConnectConfig S) (e : Endpoints) (s : Sup S H)
| OClient (sh : SharedState S) (stopped : bool).

Definition debug_of (o : object) : dbg :=
  match o with
  | OConfig c => debug_config store_debug c
  | OToken t => debug_token t
  | OKeys k => debug_session_keys k
  | OSalt st => debug_salt_state st
  | OTls c => debug_tls_context c
  | OReader keys w idle => debug_reader keys w idle
  | OWriter keys w cfg => debug_writer keys w cfg
  | OHandshake keys cfg h => debug_handshake keys cfg h
  | OSession cfg e s => debug_session_ctx cfg e s
  | OClient sh stopped => debug_client sh stopped
  end.

Definition with_password (pw : bytes) (c : ConnectConfig S) : ConnectConfig S :=
  {| loxone_url := loxone_url c; c_username := c_username c; c_password := pw; tls := tls c;
     receive_updates := receive_updates c; local_only := local_only c;
     max_reconnect_attempts := max_reconnect_attempts c; client_uuid := client_uuid c;
     client_info := client_info c; token_permission := token_permission c;
     keepalive_secs := keepalive_secs c; connect_delay_secs := connect_delay_secs c;
     long_backoff_secs := long_backoff_secs c; command_timeout_secs := command_timeout_secs c;
     read_idle_timeout_secs := read_idle_timeout_secs c;
     c_max_missed_keepalives := c_max_missed_keepalives c; max_pending_commands := max_pending_commands c;
     command_channel_depth := command_channel_depth c; token_store := token_store c;
     c_kill_token_on_stop := c_kill_token_on_stop c |}.

(** Two objects that differ in nothing but secrets: the password and the token (not
    their lengths), key material, the commands in the buffers, in the queues and on
    their way, the pin a context has learned and what the tasks share. *)
Inductive alike : object → object → Prop :=
| alike_config c pw :
    zlen pw = zlen (c_password c) → alike (OConfig c) (OConfig (with_password pw c))
| alike_token t tk :
    zlen tk = zlen (token t) → alike (OToken t) (OToken (new_token tk (valid_until t) (tok_hash_alg t)))
| alike_keys k k' : alike (OKeys k) (OKeys k')
| alike_salt st plain b64 : alike (OSalt st) (OSalt (set_encoded b64 (set_scratch plain st)))
| alike_tls m v p p' :
    is_none p = is_none p' →
    alike (OTls {| tls_mode := m; pin := p; verifier := v |}) (OTls {| tls_mode := m; pin := p'; verifier := v |})
| alike_reader k k' w w' idle : alike (OReader k w idle) (OReader k' w' idle)
| alike_writer k k' w w' cfg : alike (OWriter k w cfg) (OWriter k' w' cfg)
| alike_handshake k k' cfg cfg' h h' : alike (OHandshake k cfg h) (OHandshake k' cfg' h')
| alike_session cfg cfg' e s s' : alike (OSession cfg e s) (OSession cfg' e s')
| alike_client sh sh' b : get_state sh = get_state sh' → alike (OClient sh b) (OClient sh' b).

(** Nothing secret is printed. With [{:?}] and with [{:#?}], objects of the
    client that differ in nothing but secrets print the same text: of a password or
    a token only the length can be seen, and of the session keys, the buffers with
    the last command, the queues of commands, a learned pin and a visualisation
    password nothing at all. *)
Lemma secrets_not_printed alternate o o' :
  alike o o' → render escape alternate (debug_of o) = render escape alternate (debug_of o').
Proof using.
  intros [c pw E|t tk E| | |m v p p' E| | | | |sh sh' b E]; cbn [debug_of]; try reflexivity; f_equal.
  - unfold debug_config, with_password. cbn [c_password]. by rewrite E.
  - unfold debug_token. cbn [token new_token]. by rewrite E.
  - unfold debug_tls_context, pinned_spki. cbn [pin]. by rewrite E.
  - unfold debug_client. by rewrite E.
Qed.
End secrets.

#[local] Existing Instances aes_model.
Definition unit_debug (u : unit) : dbg := DWrite (bs "()").

Lemma secrets_not_printed_witness :
  let c := config_new (bs "miniserver") (bs "admin") (bs "hunter2") in
  c_password c ≠ c_password (with_password (bs "letmein") c)
  ∧ render id true (debug_of unit_debug (OConfig (H := unit) c))
    = render id true (debug_of unit_debug (OConfig (H := unit) (with_password (bs "letmein") c))).
Proof.
  intros c. split; [done|].
  apply (secrets_not_printed unit_debug id true (OConfig c) (OConfig (with_password (bs "letmein") c))).
  by apply alike_config.
Defined.

(** Some of what is printed. *)
Lemma redacted_examples :
  let t := new_token (bs "eyJh") 7 Sha256 in
  render id false (debug_token t) = bs "LxToken { token: <redacted, 4 bytes>, valid_until: 7, hash_alg: Sha256 }"
  ∧ render id false (debug_token default_token) = bs "LxToken { token: <empty>, valid_until: 0, hash_alg: Sha1 }"
  ∧ render id true (debug_writer_config (writer_cfg sample_cfg))
    = bs "WriterConfig {" ++ [nl] ++ bs "    keepalive_period: 60s," ++ [nl] ++ bs "    command_timeout: 30s," ++ [nl]
      ++ bs "    max_missed_keepalives: 3," ++ [nl] ++ bs "    max_pending: 32," ++ [nl]
      ++ bs "    kill_token_on_stop: true," ++ [nl] ++ bs "    .." ++ [nl] ++ bs "}".
Proof. vm_compute. auto. Qed.
