(* ===== verification/Listen.v ===== *)
(** * examples/listen.rs: a program that prints what the Miniserver sends

    The handler of the example is an instance of the handler interface: what it
    prints is its state. The text of a number and of the metrics is a parameter,
    the readings of the clock and the lines standard output still takes are inputs.
    The program itself is its configuration from the environment, the call of
    [connect] and what follows it. *)

From S2P Require Import Prelude RustStr External Models Errors Session Crypto Auth Store State Scan.
From S2P Require Import Pending Uuid Header EventTables Handler World Reader Writer Duplex Tls Http Config.
From S2P Require Import Handshake Steps Frame Live Supervisor Lifecycle Dialogue Client Progress Redact.

(** ** [String::from_utf8_lossy] *)

(** U+FFFD *)
Definition replacement : bytes := [Byte.xef; Byte.xbf; Byte.xbd].

(** The second byte of a sequence of three or four. *)
Definition second3 (a b : byte) : bool :=
  if u8 a =? 224 then btw 160 191 b else if u8 a =? 237 then btw 128 159 b else cont b.
Definition second4 (a b : byte) : bool :=
  if u8 a =? 240 then btw 144 191 b else if u8 a =? 244 then btw 128 143 b else cont b.

(** A sequence that breaks off is one replacement character for the bytes that could
    have begun one. *)
Fixpoint from_utf8_lossy (s : bytes) : bytes :=
  match s with
  | [] => []
  | a :: s1 =>
      if u8 a <? 128 then a :: from_utf8_lossy s1
      else if btw 194 223 a then
        match s1 with
        | b :: s2 => if cont b then a :: b :: from_utf8_lossy s2 else replacement ++ from_utf8_lossy s1
        | [] => replacement
        end
      else if btw 224 239 a then
        match s1 with
        | b :: s2 =>
            if second3 a b then
              match s2 with
              | c :: s3 => if cont c then a :: b :: c :: from_utf8_lossy s3 else replacement ++ from_utf8_lossy s2
              | [] => replacement
              end
            else replacement ++ from_utf8_lossy s1
        | [] => replacement
        end
      else if btw 240 244 a then
        match s1 with
        | b :: s2 =>
            if second4 a b then
              match s2 with
              | c :: s3 =>
                  if cont c then
                    match s3 with
                    | d :: s4 =>
                        if cont d then a :: b :: c :: d :: from_utf8_lossy s4 else replacement ++ from_utf8_lossy s3
                    | [] => replacement
                    end
                  else replacement ++ from_utf8_lossy s2
              | [] => replacement
              end
            else replacement ++ from_utf8_lossy s1
        | [] => replacement
        end
      else replacement ++ from_utf8_lossy s1
  end.

(** Induction over suffixes. *)
Lemma suffix_ind (P : bytes → Prop) :
  (∀ s, (∀ t, (length t < length s)%nat → P t) → P s) → ∀ s, P s.
Proof. intros H. apply (well_founded_induction (wf_projected lt length (λ _ _, id) lt_wf)). exact H. Qed.

Lemma utf8_replaced s : utf8_valid (replacement ++ s) = utf8_valid s.
Proof. by apply utf8_valid_app. Qed.

(** What is printed is UTF-8. *)
Lemma lossy_valid s : utf8_valid (from_utf8_lossy s) = true.
Proof.
  induction s as [s IH] using suffix_ind. destruct s as [|a s1]; [done|]. cbn [from_utf8_lossy].
  assert (∀ t, (length t < length (a :: s1))%nat → utf8_valid (replacement ++ from_utf8_lossy t) = true) as Hr.
  { intros t Ht. rewrite utf8_replaced. by apply IH. }
  destruct (Z.ltb_spec (u8 a) 128) as [Ha|Ha].
  { cbn [utf8_valid]. rewrite (proj2 (Z.ltb_lt _ _)) by done. apply IH. cbn. lia. }
  assert ((u8 a <? 128) = false) as Ea by (by apply Z.ltb_ge).
  destruct (btw 194 223 a) eqn:E2.
  { destruct s1 as [|b s2]; [done|]. destruct (cont b) eqn:Eb; [|apply Hr; cbn; lia].
    cbn [utf8_valid]. rewrite Ea, E2, Eb. cbn [andb]. apply IH. cbn. lia. }
  destruct (btw 224 239 a) eqn:E3.
  { destruct s1 as [|b s2]; [done|]. destruct (second3 a b) eqn:Eb; [|apply Hr; cbn; lia].
    destruct s2 as [|c s3]; [done|]. destruct (cont c) eqn:Ec; [|apply Hr; cbn; lia].
    cbn [utf8_valid]. rewrite Ea, E2, E3, Ec. unfold second3 in Eb. rewrite Eb. cbn [andb]. apply IH. cbn. lia. }
  destruct (btw 240 244 a) eqn:E4; [|apply Hr; cbn; lia].
  destruct s1 as [|b s2]; [done|]. destruct (second4 a b) eqn:Eb; [|apply Hr; cbn; lia].
  destruct s2 as [|c s3]; [done|]. destruct (cont c) eqn:Ec; [|apply Hr; cbn; lia].
  destruct s3 as [|d s4]; [done|]. destruct (cont d) eqn:Ed; [|apply Hr; cbn; lia].
  cbn [utf8_valid]. rewrite Ea, E2, E3, E4, Ec, Ed. unfold second4 in Eb. rewrite Eb. cbn [andb]. apply IH. cbn. lia.
Qed.

(** A valid text is printed as it is. *)
Lemma lossy_id s : utf8_valid s = true → from_utf8_lossy s = s.
Proof.
  induction s as [s IH] using suffix_ind. destruct s as [|a s1]; [done|]. cbn [from_utf8_lossy utf8_valid].
  destruct (u8 a <? 128); [intros Hv; f_equal; apply IH; [cbn; lia|done]|].
  destruct s1 as [|b s2]; [done|]. destruct (btw 194 223 a).
  { intros [-> Hv]%andb_true_iff. do 2 f_equal. apply IH; [cbn; lia|done]. }
  destruct s2 as [|c s3]; [done|]. destruct (btw 224 239 a).
  { unfold second3. intros [[-> ->]%andb_true_iff Hv]%andb_true_iff. do 3 f_equal. apply IH; [cbn; lia|done]. }
  destruct s3 as [|d s4]; [done|]. unfold second4.
  intros [[[[-> ->]%andb_true_iff ->]%andb_true_iff ->]%andb_true_iff Hv]%andb_true_iff.
  do 4 f_equal. apply IH; [cbn; lia|done].
Qed.

(** ** The handler *)

(** The values counted, the readings of the clock to come in nanoseconds since the
    epoch, the lines standard output takes before it fails ([None]: it never does)
    and the lines printed. *)
Record PrintHandler := {
  values : Z;
  clock : nat → Z;
  room : option nat;
  printed : list bytes;
}.

Section printing.
(** overflow checks in the build; [{:.6}] of a number of seconds given in
    nanoseconds; [{}] of an [f64] given by its bits *)
Context (checks : bool) (fmt_secs : Z → bytes) (f64_display : Z → bytes).

(** [now()]: [None] is the panic of a clock before the epoch. *)
Definition now (h : PrintHandler) : option Z * PrintHandler :=
  let t := clock h 0%nat in
  (if t <? 0 then None else Some t,
   {| values := values h; clock := λ n, clock h (S n); room := room h; printed := printed h |}).

(** [println!] panics when standard output fails. *)
Definition println (line : bytes) (h : PrintHandler) : outcome PrintHandler :=
  match room h with
  | Some O => Unwound h
  | _ => Returned {| values := values h; clock := clock h; room := pred <$> room h; printed := printed h ++ [line] |}
  end.

Definition print_stamped (text : bytes) (h : PrintHandler) : outcome PrintHandler :=
  match now h with
  | (None, h) => Unwound h
  | (Some t, h) => println (fmt_secs t ++ bs " " ++ text) h
  end.

Definition debug_client_event (e : ClientEvent) : dbg :=
  match e with
  | EvConnected => DWrite (bs "Connected")
  | EvReconnected => DWrite (bs "Reconnected")
  | EvConnectionClosed code => DStruct (bs "ConnectionClosed") [(bs "close_code", doption dint code)] true
  | EvClosed => DWrite (bs "Closed")
  end.

(** The methods the example does not define do nothing. *)
Definition print_handler : LoxHandler PrintHandler := λ c h,
  match c with
  | on_value uuid value =>
      if checks && (values h =? 2 ^ 64 - 1) then Unwound h
      else
        print_stamped (bs "value  " ++ display_uuid uuid ++ bs " = " ++ f64_display value)
          {| values := (values h + 1) mod 2 ^ 64; clock := clock h; room := room h; printed := printed h |}
  | on_text uuid _ text => print_stamped (bs "text   " ++ display_uuid uuid ++ bs " = " ++ from_utf8_lossy text) h
  | on_event event => print_stamped (bs "event  " ++ render id false (debug_client_event event)) h
  | _ => Returned h
  end.

(** Standard output works, the clock is past the epoch and overflow is not checked:
    no callback unwinds, whatever the Miniserver sends. *)
Definition steady (h : PrintHandler) : Prop := checks = false ∧ room h = None ∧ ∀ n, 0 <= clock h n.

Lemma print_stamped_steady text h : steady h → ∃ h', print_stamped text h = Returned h' ∧ steady h'.
Proof using.
  intros (Hc & Hr & Ht). unfold print_stamped, now, println. rewrite (proj2 (Z.ltb_ge _ _)) by done. cbn [room]. rewrite Hr.
  eexists. split; [reflexivity|]. split; [done|]. split; [done|]. intros n. apply Ht.
Qed.

#[export] Instance print_steady : Steady (LH := print_handler) steady.
Proof using.
  intros c h Hs. unfold invoke. destruct c as [u v|u i t|e|e|p|p| |e|ty p]; cbn [print_handler]; try (by exists h);
    try (by apply print_stamped_steady).
  pose proof Hs as (Hc & Hr & Ht). rewrite Hc. cbn [andb]. by apply print_stamped_steady.
Qed.
End printing.

(** ** The program *)

(** [LOX_TLS]; [None] is the panic on an unknown word. *)
Definition listen_tls (v : option bytes) : option TlsMode :=
  match v with
  | None => Some WebPki
  | Some s =>
      if bool_decide (s = bs "webpki") then Some WebPki
      else if bool_decide (s = bs "tofu") then Some PinOnFirstUse
      else if bool_decide (s = bs "insecure") then Some Insecure else None
  end.

Definition with_tls {S} (m : TlsMode) (c : ConnectConfig S) : ConnectConfig S :=
  {| loxone_url := loxone_url c; c_username := c_username c; c_password := c_password c; tls := m;
     receive_updates := receive_updates c; local_only := local_only c;
     max_reconnect_attempts := max_reconnect_attempts c; client_uuid := client_uuid c;
     client_info := client_info c; token_permission := token_permission c;
     keepalive_secs := keepalive_secs c; connect_delay_secs := connect_delay_secs c;
     long_backoff_secs := long_backoff_secs c; command_timeout_secs := command_timeout_secs c;
     read_idle_timeout_secs := read_idle_timeout_secs c;
     c_max_missed_keepalives := c_max_missed_keepalives c; max_pending_commands := max_pending_commands c;
     command_channel_depth := command_channel_depth c; token_store := token_store c;
     c_kill_token_on_stop := c_kill_token_on_stop c |}.

(** The configuration from the environment; [None] is the panic of an [expect]. *)
Definition listen_config {S} (var : bytes → option bytes) : option (ConnectConfig S) :=
  let url := default (bs "http://127.0.0.1") (var (bs "LOX_URL")) in
  user ← var (bs "LOX_USER");
  pass ← var (bs "LOX_PASS");
  mode ← listen_tls (var (bs "LOX_TLS"));
  Some (with_tls mode (config_new url user pass)).

(** [Waiting]: the inputs end before the call does. *)
Inductive MainEnd := MainPanicked | MainReturned (r : Result unit) | Waiting.

Section main.
Context {zc : ZeroCopy} {J : Json} {D : Digests} {X : Hex} {C : X509} {RL : Rustls} {UR : Url} {R : Rsa}.
Context {U : Utf8Text} {A : AesCbc} {B : Base64} {P : PercentDecode} {TS : TokenStore unit}.
Context (checks : bool) (fmt_secs : Z → bytes) (f64_display : Z → bytes) (debug_metrics : LoxMetrics → bytes).

(** What the program finds when it has connected: the client's view then and when it
    stops, its own clock, whether standard output takes its two lines, whether the
    signal could be listened for, what happens to the view while [stop] waits for room,
    and how the IO task ends. *)
Record Later := {
  seen : View unit;
  spawned_at : Z;
  spawned_out : bool;
  signal_ok : bool;
  left : View unit;
  stopping_at : Z;
  stopping_out : bool;
  stop_room : View unit → View unit;
  task_end : TaskEnd;
}.

(** The lines of the program itself, and its end. *)
Definition main (var : bytes → option bytes) (wall_now : Z) (builder : result bytes unit) (send_failed : bytes)
    (h : PrintHandler) (es : list (SupEnv unit PrintHandler)) (l : Later) : list bytes * MainEnd :=
  match listen_config var with
  | None => ([], MainPanicked)
  | Some cfg =>
      match connect (LH := print_handler checks fmt_secs f64_display) checks wall_now cfg builder send_failed h es with
      | None => ([], MainPanicked)
      | Some (_, _, None) => ([], Waiting)
      | Some (_, _, Some (Err e)) => ([], MainReturned (Err e))
      | Some (_, _, Some (Ok _)) =>
          if (spawned_at l <? 0) || negb (spawned_out l) then ([], MainPanicked)
          else
            let spawned := fmt_secs (spawned_at l) ++ bs " client spawned; state=" ++ display_conn_state (state (seen l)) in
            let waited := match var (bs "LISTEN_SECONDS") with
                          | Some secs => bool_decide (is_Some (parse_u64 secs))
                          | None => signal_ok l
                          end in
            if negb waited || (stopping_at l <? 0) || negb (stopping_out l) then ([spawned], MainPanicked)
            else
              let stopping := fmt_secs (stopping_at l) ++ bs " stopping… metrics=" ++ debug_metrics (view_metrics (left l)) in
              ([spawned; stopping],
               match stop (Z.max (command_channel_depth cfg) 1) (stop_room l) true (task_end l) (left l) with
               | (_, None) => Waiting
               | (_, Some r) => MainReturned r
               end)
      end
  end.
End main.

(** The unknown word is the only setting of [LOX_TLS] that is not a mode, and the
    settings are read as they are. *)
Lemma listen_config_spec {S} var (cfg : ConnectConfig S) :
  listen_config var = Some cfg ↔
  ∃ user pass m, var (bs "LOX_USER") = Some user ∧ var (bs "LOX_PASS") = Some pass
    ∧ listen_tls (var (bs "LOX_TLS")) = Some m
    ∧ cfg = with_tls m (config_new (default (bs "http://127.0.0.1") (var (bs "LOX_URL"))) user pass).
Proof.
  unfold listen_config. split.
  - destruct (var (bs "LOX_USER")) as [user|]; [|done]. destruct (var (bs "LOX_PASS")) as [pass|]; [|done].
    cbn [mbind option_bind]. destruct (listen_tls _) as [m|] eqn:E; [|done]. intros [= <-]. by exists user, pass, m.
  - intros (user & pass & m & -> & -> & -> & ->). done.
Qed.

(** With the environment set, a working terminal and a Miniserver that is there, the
    program gets to its first line: its handler is one the client can rely on. *)
Section spawns.
Context {zc : ZeroCopy} {J : Json} {D : Digests} {X : Hex} {C : X509} {RL : Rustls} {UR : Url} {R : Rsa}.
Context {U : Utf8Text} {A : AesCbc} {B : Base64} {P : PercentDecode} {TS : TokenStore unit}.
Context {AL : AesCbcLaws} {BL : Base64Laws}.
Context (fmt_secs : Z → bytes) (f64_display : Z → bytes) (debug_metrics : LoxMetrics → bytes).
Context (p : Peer) (srv : bytes → bytes).

Lemma listen_spawns var cfg ep wall_now builder send_failed h e es c b64 f l :
  listen_config var = Some cfg → steady false h →
  from_loxone_url (loxone_url cfg) = Ok ep → tls_new builder (tls cfg) = Ok c → welcomes p (use_tls ep) c →
  attends cfg ep p (session e) b64 → answers_handshake cfg srv (session e) b64 (shared_token (new_shared (S := unit))) f →
  0 <= spawned_at l → spawned_out l = true →
  ∃ lines end_, main false fmt_secs f64_display debug_metrics var wall_now builder send_failed h (e :: es) l
    = ((fmt_secs (spawned_at l) ++ bs " client spawned; state=" ++ display_conn_state (state (seen l))) :: lines, end_).
Proof using AL BL.
  intros Hcfg Hs Hep Hc Hw Hatt Hans Hat Hout. unfold main. rewrite Hcfg.
  assert (connect_shared false wall_now cfg = Some new_shared) as Hsh.
  { apply listen_config_spec in Hcfg as (user & pass & m & _ & _ & _ & ->). done. }
  destruct (connect_ready (LH := print_handler false fmt_secs f64_display) (steady false) cfg ep send_failed p srv
    false wall_now builder h e es c new_shared b64 f Hs Hep Hc Hsh Hw Hatt Hans) as (s & st & ->).
  rewrite (proj2 (Z.ltb_ge _ _)), Hout by done. cbn [negb orb].
  destruct (negb _ || _ || _); by eexists _, _.
Qed.
End spawns.
