(* ===== verification/UnitData.v ===== *)
(** * The unit tests of the data formats, on the model

    The tests the crate keeps in uuid.rs, proto/*.rs and collect.rs, translated
    like the code they test and run on the definitions that model it, with the
    concrete models of the libraries. A test is a boolean; a test that loops over
    random values takes the number of rounds and passes for every one. An [f64] is
    its bit pattern. Tests of addresses, sizes and alignments are left out. *)

From S2P Require Import Prelude RustStr External Models Errors Uuid Header EventTables Collect.

Declare Scope test_scope.
Delimit Scope test_scope with test.
Notation "x ≟ y" := (bool_decide (x = y)) (at level 70) : test_scope.
Definition asserts (l : list bool) : bool := forallb id l.
Lemma asserts_all l : Forall (λ b, b = true) l → asserts l = true.
Proof. induction 1 as [|b l Hb _ IH]; [done|]. cbn. unfold id. by rewrite Hb. Qed.
Definition is_ok {A} (r : Result A) : bool := match r with Ok _ => true | Err _ => false end.
Definition is_err {A} (r : Result A) : bool := negb (is_ok r).
Definition ends_with (p s : bytes) : bool := starts_with (rev p) (rev s).
(** [[b; n]] *)
Definition filled (n : nat) (b : Z) : bytes := replicate n (byte_of b).
Open Scope test_scope.
#[local] Existing Instances zerocopy_model.

(** ** uuid.rs *)

Module UuidTests.
(** xorshift64* *)
Definition next_u64 (st : Z) : Z * Z :=
  let x := Z.lxor st (Z.shiftr st 12) in
  let x := Z.lxor x (Z.shiftl x 25 mod 2 ^ 64) in
  let x := Z.lxor x (Z.shiftr x 27) in
  (x, x * 0x2545f4914f6cdd1d mod 2 ^ 64).
Definition rng_uuid (st : Z) : Z * LoxoneUuid :=
  let '(st, a) := next_u64 st in
  let '(st, b) := next_u64 st in
  (st, LoxUuid (le_bytes 8 a ++ le_bytes 8 b)).
Fixpoint rounds (n : nat) (test : LoxoneUuid → bool) (st : Z) : bool :=
  match n with
  | O => true
  | S n => let '(st, u) := rng_uuid st in test u && rounds n test st
  end.

Definition roundtrip_loxone_format : bool :=
  let wire := map byte_of [0x9a; 0x5f; 0xfc; 0xed; 0x3f; 0xdf; 0xad; 0x4c; 0x9d; 0xdd; 0xcd; 0xc4; 0x2c; 0x73; 0x2b; 0xe2] in
  let uuid := LoxUuid wire in
  let s := format_loxone uuid in
  asserts [s ≟ bs "edfc5f9a-df3f-4cad-9dddcdc42c732be2";
           match parse s with Ok parsed => parsed ≟ uuid | Err _ => false end].

(** [format!("{byte:02x}")] is [hex2]. *)
Definition hex_lut_matches_format_macro : bool :=
  forallb (λ n, take 2 (drop (2 * n) HEX) ≟ hex2 (byte_of (Z.of_nat n))) (seq 0 256).

Definition lut_formatter_matches_format_macro (n : nat) : bool :=
  rounds n (λ uuid,
    let expected := reference_format uuid in
    asserts [format_loxone uuid ≟ expected;
             as_ascii (format_loxone_bytes uuid) ≟ expected;
             format_loxone_into uuid [] ≟ expected]) 0x123456789abcdef0.

Definition format_covers_edge_byte_values : bool :=
  forallb (λ b, let uuid := LoxUuid (filled 16 b) in format_loxone uuid ≟ reference_format uuid)
    [0x00; 0xff; 0x0f; 0xf0].

Definition format_bytes_has_dashes_at_loxone_positions : bool :=
  let out := format_loxone_bytes (LoxUuid (filled 16 0)) in
  asserts [length out ≟ LOXONE_UUID_STR_LEN;
           length (List.filter (byteb dash) out) ≟ 3%nat;
           nth_byte out 8 ≟ dash; nth_byte out 13 ≟ dash; nth_byte out 18 ≟ dash].

Definition format_into_appends_without_clearing : bool :=
  format_loxone_into (LoxUuid (filled 16 0)) (bs "uuid=") ≟ bs "uuid=00000000-0000-0000-0000000000000000".

Definition parse_roundtrips_random_uuids (n : nat) : bool :=
  rounds n (λ uuid, match parse (format_loxone uuid) with Ok u => u ≟ uuid | Err _ => false end) 0xdeadbeefcafef00d.

Definition parse_accepts_rfc4122_dashes_and_uppercase : bool :=
  match parse (bs "edfc5f9a-df3f-4cad-9ddd-cdc42c732be2"), parse (bs "EDFC5F9A-DF3F-4CAD-9DDDCDC42C732BE2") with
  | Ok a, Ok b => asserts [a ≟ b; format_loxone a ≟ bs "edfc5f9a-df3f-4cad-9dddcdc42c732be2"]
  | _, _ => false
  end.

Definition parse_rejects_bad_input : bool :=
  asserts [is_err (parse []); is_err (parse (bs "1234"));
           is_err (parse (bs "edfc5f9a-df3f-4cad-9dddcdc42c732be"));
           is_err (parse (bs "edfc5f9a-df3f-4cad-9dddcdc42c732be22"));
           is_err (parse (bs "gdfc5f9a-df3f-4cad-9dddcdc42c732be2"))].

Lemma rounds_all n test st : (∀ u, wf_uuid u → test u = true) → rounds n test st = true.
Proof.
  intros Ht. revert st. induction n as [|n IH]; intros st; cbn [rounds]; [done|].
  destruct (rng_uuid st) as [st' u] eqn:E. rewrite Ht, IH; [done|].
  unfold rng_uuid in E. destruct (next_u64 st) as [st1 a], (next_u64 st1) as [st2 b]. injection E as <- <-.
  reflexivity.
Qed.

Lemma uuid_tests_pass :
  asserts [roundtrip_loxone_format; hex_lut_matches_format_macro; format_covers_edge_byte_values;
           format_bytes_has_dashes_at_loxone_positions; format_into_appends_without_clearing;
           parse_accepts_rfc4122_dashes_and_uppercase; parse_rejects_bad_input] = true.
Proof. vm_compute. reflexivity. Qed.

(** Not only for the ten thousand and the thousand rounds of the crate. *)
Lemma uuid_random_tests_pass n :
  lut_formatter_matches_format_macro n = true ∧ parse_roundtrips_random_uuids n = true.
Proof.
  split; apply rounds_all; intros u Hu.
  - apply asserts_all. unfold format_loxone, format_loxone_into. rewrite as_ascii_format.
    repeat constructor; by apply bool_decide_eq_true.
  - rewrite format_loxone_reference, parse_reference by done. by apply bool_decide_eq_true.
Qed.
End UuidTests.

(** The first byte of a UUID, and the bit patterns of the numbers used. *)
Definition tag_of (u : LoxoneUuid) : Z := u8 (nth_byte (uuid_bytes u) 0).
Definition f0 : Z := 0.
Definition f1 : Z := 0x3ff0000000000000.
Definition f2 : Z := 0x4000000000000000.
Definition f3 : Z := 0x4008000000000000.
Definition f2_5 : Z := 0x4004000000000000.
(** All prefixes of a payload, as [for len in 0..=buf.len()] takes them. *)
Definition prefixes (buf : bytes) : list bytes := map (λ n, take n buf) (seq 0 (S (length buf))).

(** ** proto/header.rs *)

Module HeaderTests.
Definition header_buf (identifier info : Z) (len : Z) : bytes :=
  map byte_of [0x03; identifier; info; 0] ++ le_bytes 4 len.
Definition parse_value_header : bool :=
  match parse_header (header_buf 2 0 48) with
  | Ok (Some hdr) => asserts [message_type hdr ≟ Some ValueStates; payload_len hdr ≟ 48; negb (is_estimated hdr)]
  | _ => false
  end.
Definition estimated_bit : bool :=
  match parse_header (header_buf 2 INFO_ESTIMATED 0) with Ok (Some hdr) => is_estimated hdr | _ => false end.
Definition non_header_length : bool :=
  match parse_header (map byte_of [0x03; 0; 0; 0; 0; 0; 0]) with Ok None => true | _ => false end.
End HeaderTests.

(** ** proto/value.rs *)

Module ValueTests.
Import EventTables.Value.
Definition record (uuid : bytes) (value : Z) : bytes := uuid ++ le_bytes 8 value.

Definition walk_two_values : bool :=
  let buf := record (filled 16 0) f1 ++ record (filled 16 0xff) f2_5 in
  match walk_values buf with
  | [(u0, v0); (u1, v1)] => asserts [v0 ≟ f1; v1 ≟ f2_5; uuid_bytes u1 ≟ filled 16 0xff]
  | _ => false
  end.

Definition truncates_partial_record : bool :=
  length (walk_values (filled 24 0 ++ filled 10 1)) ≟ 1%nat.

Definition every_truncation_length_keeps_complete_records : bool :=
  let all := zip [0; 1; 2; 3] [f0; f1; f2; f3] in
  let buf := concat (map (λ '(i, v), record (filled 16 i) v) all) in
  forallb (λ b,
    let seen := map (λ '(u, v), (tag_of u, v)) (walk_values b) in
    asserts [zlen seen ≟ zlen b / VALUE_RECORD_SIZE; seen ≟ take (length seen) all]) (prefixes buf).

Definition empty_payload_yields_nothing : bool :=
  asserts [length (walk_values []) ≟ 0%nat; length (walk_values (filled 23 0)) ≟ 0%nat].

(** NaN, both infinities and the negative zero. *)
Definition preserves_special_float_values : bool :=
  let expected := [0x7ff8000000000000; 0x7ff0000000000000; 0xfff0000000000000; 0x8000000000000000] in
  map snd (walk_values (concat (map (record (filled 16 0)) expected))) ≟ expected.
End ValueTests.

(** ** proto/text.rs *)

Module TextTests.
Import EventTables.Text.
Definition push_record (uuid icon : Z) (text : bytes) : bytes :=
  filled 16 uuid ++ filled 16 icon ++ le_bytes 4 (zlen text) ++ text
  ++ filled (Z.to_nat ((4 - zlen text mod 4) mod 4)) 0.
Definition texts (buf : bytes) : list bytes := map (λ e, e.2) (walk_texts buf).

Definition walk_text_with_padding : bool :=
  let buf := push_record 0x11 0x22 (bs "hi") in
  asserts [zlen buf ≟ 40;
           match last (walk_texts buf) with
           | Some (u, i, t) => asserts [uuid_bytes u ≟ filled 16 0x11; uuid_bytes i ≟ filled 16 0x22; t ≟ bs "hi"]
           | None => false
           end].

Definition walk_text_exact_align : bool := texts (push_record 0 1 (bs "abcd")) ≟ [bs "abcd"].

Definition all_padding_residues_chain_correctly : bool :=
  forallb (λ first,
    let buf := push_record 1 1 first ++ push_record 2 2 (bs "second") in
    asserts [zlen buf mod 4 ≟ 0;
             map (λ '(u, _, t), (tag_of u, t)) (walk_texts buf) ≟ [(1, first); (2, bs "second")]])
    [bs ""; bs "a"; bs "ab"; bs "abc"].

Definition last_record_without_padding_is_dispatched : bool :=
  texts (filled 16 7 ++ filled 16 8 ++ le_bytes 4 3 ++ bs "abc") ≟ [bs "abc"].

Definition empty_text_is_dispatched : bool := map zlen (texts (push_record 3 4 [])) ≟ [0].

Definition overlong_text_length_stops_parsing : bool :=
  let buf := push_record 1 1 (bs "ok") ++ filled 16 2 ++ filled 16 2 ++ le_bytes 4 (2 ^ 32 - 1) ++ bs "short" in
  map (λ '(u, _, _), tag_of u) (walk_texts buf) ≟ [1].

Definition truncated_payload_never_panics : bool :=
  forallb (λ b, zlen (walk_texts b) <=? 2)
    (prefixes (push_record 1 1 (bs "first") ++ push_record 2 2 (bs "second text"))).
End TextTests.

Lemma proto_tests_pass :
  asserts [HeaderTests.parse_value_header; HeaderTests.estimated_bit; HeaderTests.non_header_length;
           ValueTests.walk_two_values; ValueTests.truncates_partial_record;
           ValueTests.every_truncation_length_keeps_complete_records; ValueTests.empty_payload_yields_nothing;
           ValueTests.preserves_special_float_values;
           TextTests.walk_text_with_padding; TextTests.walk_text_exact_align;
           TextTests.all_padding_residues_chain_correctly; TextTests.last_record_without_padding_is_dispatched;
           TextTests.empty_text_is_dispatched; TextTests.overlong_text_length_stops_parsing;
           TextTests.truncated_payload_never_panics] = true.
Proof. vm_compute. reflexivity. Qed.

(** ** proto/daytimer.rs *)

Module DaytimerTests.
Import EventTables.Daytimer.
(** The bits of [10.0 + f64::from(i)]. *)
Definition ten_plus (i : nat) : Z :=
  nth i [0x4024000000000000; 0x4026000000000000; 0x4028000000000000; 0x402a000000000000; 0x402c000000000000;
         0x402e000000000000; 0x4030000000000000] 0.
Definition entry (i : nat) : DaytimerEntry :=
  let n := Z.of_nat i in new n (60 * n) (60 * n + 30) 1 (ten_plus i).
Definition push_table (uuid : Z) (default_value : Z) (entries : list DaytimerEntry) : bytes :=
  filled 16 uuid ++ le_bytes 8 default_value ++ new_i32 (zlen entries) ++ concat (map as_bytes entries).
(** What [assert_same_entry] compares. *)
Definition decoded (e : DaytimerEntry) : list Z :=
  [mode e; from_minutes e; to_minutes e; need_activate e; value e].

Definition accessors_roundtrip_native_values : bool :=
  let half := 0xbfe0000000000000 in
  let e := new (-3) 480 510 1 half in
  asserts [decoded e ≟ [-3; 480; 510; 1; half];
           take 4 (as_bytes e) ≟ map byte_of [253; 255; 255; 255];
           drop 16 (as_bytes e) ≟ le_bytes 8 half].

Definition parse_daytimer_two_entries : bool :=
  match walk_daytimers (push_table 0xaa 0x400c000000000000 [entry 0; entry 1]) with
  | [ev] =>
      match entries ev with
      | [e0; e1] => asserts [uuid_bytes (uuid ev) ≟ filled 16 0xaa; default_value ev ≟ 0x400c000000000000;
                             mode e0 ≟ 0; from_minutes e1 ≟ 60; value e1 ≟ ten_plus 1]
      | _ => false
      end
  | _ => false
  end.

Definition slice_cast_matches_read_at : bool :=
  let expected := map entry (seq 0 7) in
  let buf := push_table 0x11 0xbff8000000000000 expected in
  match walk_daytimers buf with
  | [ev] =>
      asserts [map decoded (entries ev) ≟ map decoded expected;
               map (λ i, decoded <$> read_at buf (DAYTIMER_HEADER_SIZE + Z.of_nat i * SIZE)) (seq 0 7)
               ≟ map (λ e, Some (decoded e)) (entries ev)]
  | _ => false
  end.

Definition multiple_tables_back_to_back : bool :=
  let buf := push_table 1 f1 [entry 1] ++ push_table 2 f2 [] ++ push_table 3 f3 [entry 2; entry 3; entry 4] in
  map (λ ev, (tag_of (uuid ev), default_value ev, length (entries ev))) (walk_daytimers buf)
  ≟ [(1, f1, 1%nat); (2, f2, 0%nat); (3, f3, 3%nat)].

Definition zero_entries_still_dispatches_table : bool :=
  match walk_daytimers (push_table 0x42 0x401d000000000000 []) with
  | [ev] => asserts [length (entries ev) ≟ 0%nat; default_value ev ≟ 0x401d000000000000]
  | _ => false
  end.

Definition negative_entry_count_stops_parsing : bool :=
  let buf := push_table 1 f1 [entry 0] ++ filled 16 2 ++ le_bytes 8 f0 ++ new_i32 (-1) ++ filled 64 0 in
  map (λ ev, tag_of (uuid ev)) (walk_daytimers buf) ≟ [1].

Definition overlong_entry_count_stops_parsing : bool :=
  length (walk_daytimers (filled 16 9 ++ le_bytes 8 f0 ++ new_i32 (2 ^ 31 - 1) ++ filled 24 0)) ≟ 0%nat.

(** The raw walk is a total function of the model. *)
Definition truncated_payload_never_panics : bool :=
  forallb (λ b, zlen (walk_daytimers b) <=? 2)
    (prefixes (push_table 1 f1 [entry 0; entry 1] ++ push_table 2 f2 [entry 2])).

Definition raw_walk_matches_collected_walk : bool :=
  let buf := push_table 1 f1 [entry 1; entry 2] ++ push_table 2 f2 [] ++ push_table 3 f3 [entry 3] in
  let collected := concat (map (λ ev, map (λ e, (tag_of (uuid ev), mode e)) (entries ev)) (walk_daytimers buf)) in
  let calls := walk_daytimer_raw buf in
  let tables := omap (λ c, match c with TableFn u d n => Some (tag_of u, d, n) | _ => None end) calls in
  let raw := omap (λ c, match c with EntryFn u e => Some (tag_of u, mode e) | _ => None end) calls in
  asserts [raw ≟ collected; tables ≟ [(1, f1, 2); (2, f2, 0); (3, f3, 1)]].
End DaytimerTests.

(** ** proto/weather.rs *)

Module WeatherTests.
Import EventTables.Weather.
(** The bits of [21.5 + f64::from(i)]. *)
Definition warm (i : nat) : Z :=
  nth i [0x4035800000000000; 0x4036800000000000; 0x4037800000000000; 0x4038800000000000; 0x4039800000000000] 0.
Definition entry (i : nat) : WeatherEntry :=
  let n := Z.of_nat i in
  new (1000 + n) (2 + n) 180 500 70 (warm i) 0x4034000000000000 0x4024000000000000 0x3fb999999999999a
    0x400999999999999a 0x408faa0000000000.
Definition push_table (uuid : Z) (last_update : Z) (entries : list WeatherEntry) : bytes :=
  filled 16 uuid ++ le_bytes 4 last_update ++ new_i32 (zlen entries) ++ concat (map as_bytes entries).
Definition decoded (e : WeatherEntry) : list Z :=
  [timestamp e; weather_type e; wind_direction e; solar_radiation e; relative_humidity e; temperature e;
   perceived_temperature e; dew_point e; precipitation e; wind_speed e; barometric_pressure e].

Definition accessors_roundtrip_native_values : bool :=
  let e := entry 0 in
  asserts [decoded e ≟ [1000; 2; 180; 500; 70; warm 0; 0x4034000000000000; 0x4024000000000000; 0x3fb999999999999a;
                        0x400999999999999a; 0x408faa0000000000];
           take 8 (drop 20 (as_bytes e)) ≟ le_bytes 8 (warm 0)].

Definition parse_weather_one_entry : bool :=
  match walk_weather (push_table 0xbb 12345 [entry 0]) with
  | [ev] =>
      match entries ev with
      | [e] => asserts [last_update ev ≟ 12345; weather_type e ≟ 2; temperature e ≟ warm 0;
                        barometric_pressure e ≟ 0x408faa0000000000]
      | _ => false
      end
  | _ => false
  end.

Definition slice_cast_matches_read_at : bool :=
  let expected := map entry (seq 0 5) in
  let buf := push_table 0x11 7 expected in
  match walk_weather buf with
  | [ev] =>
      asserts [map decoded (entries ev) ≟ map decoded expected;
               map (λ i, decoded <$> read_at buf (WEATHER_HEADER_SIZE + Z.of_nat i * SIZE)) (seq 0 5)
               ≟ map (λ e, Some (decoded e)) (entries ev)]
  | _ => false
  end.

Definition multiple_tables_back_to_back : bool :=
  let buf := push_table 1 10 [entry 1] ++ push_table 2 20 [] ++ push_table 3 30 [entry 2; entry 3] in
  map (λ ev, (tag_of (uuid ev), last_update ev, length (entries ev))) (walk_weather buf)
  ≟ [(1, 10, 1%nat); (2, 20, 0%nat); (3, 30, 2%nat)].

Definition zero_entries_still_dispatches_table : bool :=
  match walk_weather (push_table 0x42 99 []) with
  | [ev] => asserts [length (entries ev) ≟ 0%nat; last_update ev ≟ 99]
  | _ => false
  end.

Definition negative_entry_count_stops_parsing : bool :=
  let buf := push_table 1 1 [entry 0] ++ filled 16 2 ++ le_bytes 4 0 ++ new_i32 (-3) ++ filled 200 0 in
  map (λ ev, tag_of (uuid ev)) (walk_weather buf) ≟ [1].

Definition overlong_entry_count_stops_parsing : bool :=
  length (walk_weather (filled 16 9 ++ le_bytes 4 0 ++ new_i32 (2 ^ 31 - 1) ++ filled 68 0)) ≟ 0%nat.

Definition truncated_payload_never_panics : bool :=
  forallb (λ b, zlen (walk_weather b) <=? 2)
    (prefixes (push_table 1 1 [entry 0; entry 1] ++ push_table 2 2 [entry 2])).
End WeatherTests.

Lemma table_tests_pass :
  asserts [DaytimerTests.accessors_roundtrip_native_values; DaytimerTests.parse_daytimer_two_entries;
           DaytimerTests.slice_cast_matches_read_at; DaytimerTests.multiple_tables_back_to_back;
           DaytimerTests.zero_entries_still_dispatches_table; DaytimerTests.negative_entry_count_stops_parsing;
           DaytimerTests.overlong_entry_count_stops_parsing; DaytimerTests.truncated_payload_never_panics;
           DaytimerTests.raw_walk_matches_collected_walk;
           WeatherTests.accessors_roundtrip_native_values; WeatherTests.parse_weather_one_entry;
           WeatherTests.slice_cast_matches_read_at; WeatherTests.multiple_tables_back_to_back;
           WeatherTests.zero_entries_still_dispatches_table; WeatherTests.negative_entry_count_stops_parsing;
           WeatherTests.overlong_entry_count_stops_parsing; WeatherTests.truncated_payload_never_panics] = true.
Proof. vm_compute. reflexivity. Qed.

(** ** collect.rs *)

Module CollectTests.
Definition value_record (tag value : Z) : bytes := filled 16 tag ++ le_bytes 8 value.
Definition text_record (tag : Z) (text : bytes) : bytes :=
  filled 16 tag ++ filled 16 tag ++ le_bytes 4 (zlen text) ++ text
  ++ filled (Z.to_nat ((4 - zlen text mod 4) mod 4)) 0.
Definition key (tag : Z) : LoxoneUuid := LoxUuid (filled 16 tag).

Definition collects_every_value_record : bool :=
  let map := collect_values (value_record 1 0x3ff8000000000000 ++ value_record 2 0xc00a000000000000) in
  asserts [size map ≟ 2%nat; map !! key 1 ≟ Some 0x3ff8000000000000; map !! key 2 ≟ Some 0xc00a000000000000].

Definition later_records_overwrite_earlier_ones : bool :=
  let map := collect_values (value_record 7 f1 ++ value_record 7 f2) in
  asserts [size map ≟ 1%nat; map !! key 7 ≟ Some f2].

Definition collects_texts_including_empty_ones : bool :=
  let map := collect_texts (text_record 3 (bs "hello") ++ text_record 4 []) in
  asserts [size map ≟ 2%nat; map !! key 3 ≟ Some (bs "hello"); map !! key 4 ≟ Some []].

Definition string_keys_are_reachable_from_a_parsed_name : bool :=
  let map := collect_values_by_name (value_record 9 0x4045000000000000) in
  let name := format_loxone (key 9) in
  match parse name with
  | Ok u => let k := format_loxone_key u in
            asserts [map !! k ≟ Some 0x4045000000000000; key_as_str k ≟ name]
  | Err _ => false
  end.

Definition inline_keys_are_always_valid_ascii : bool :=
  forallb (λ b, let k := format_loxone_key (key b) in
                asserts [length (key_as_str k) ≟ length (key_bytes k); forallb is_ascii (key_as_str k)])
    [0x00; 0x0f; 0x7f; 0x80; 0xff].

Definition both_key_flavours_agree_on_size : bool :=
  let payload := text_record 1 (bs "a") ++ text_record 2 (bs "bb") in
  size (collect_texts payload) ≟ size (collect_texts_by_name payload).

Definition the_hasher_reads_the_whole_uuid : bool :=
  let hash_of u := finish (hash_uuid false write_u64 u {| hash := 0 |}) in
  let base := filled 16 0 in
  forallb (λ n, negb (hash_of (LoxUuid (<[n := byte_of 0xff]> base)) ≟ hash_of (LoxUuid base))) (seq 0 16).

Lemma collect_tests_pass :
  asserts [collects_every_value_record; later_records_overwrite_earlier_ones; collects_texts_including_empty_ones;
           string_keys_are_reachable_from_a_parsed_name; inline_keys_are_always_valid_ascii;
           both_key_flavours_agree_on_size; the_hasher_reads_the_whole_uuid] = true.
Proof. vm_compute. reflexivity. Qed.
End CollectTests.
