(* ===== verification/UnitClient.v ===== *)
(** * The unit tests of the cryptography, the authentication and the client

    The tests the crate keeps in crypto/*.rs, auth/*.rs, client/*.rs, metrics.rs,
    error.rs and sync.rs, translated and run on the model as in [UnitData]. The
    libraries are the concrete models: the cipher is the identity on whole blocks
    and a digest is its input at the length of the digest, so tests of particular
    digests, keys and certificates are left out. A random draw and the clock are
    inputs; a channel's receiver is the list of what was delivered. *)

From S2P Require Import Prelude RustStr External Models Errors Session Crypto Auth Store State Scan.
From S2P Require Import Pending Uuid Header EventTables Handler World Reader Writer Duplex Tls Http Config.
From S2P Require Import Handshake Refresh Steps Frame Live Supervisor Redact Sync UnitData.

Open Scope test_scope.
#[local] Existing Instances zerocopy_model json_model digests_model hex_model aes_model base64_model
  percent_model no_store reader_utf8 x509_model rustls_model.

Definition ok_and {A} (r : Result A) (f : A → bool) : bool := match r with Ok a => f a | Err _ => false end.
Definition err_and {A} (r : Result A) (f : Error → bool) : bool := match r with Ok _ => false | Err e => f e end.
Definition some_and {A} (o : option A) (f : A → bool) : bool := match o with Some a => f a | None => false end.
Definition is_some {A} (o : option A) : bool := some_and o (λ _, true).
Definition keys_of (k iv : Z) : SessionKeys := from_key_iv (filled 32 k) (filled 16 iv).

(** ** crypto/session.rs *)

Module SessionTests.
(** [reference_encrypt] of the tests is the definition of the same name; a draw per
    command. *)
Definition encrypt_matches_the_reference_pipeline : bool :=
  let keys := keys_of 0x31 0x41 in
  forallb (λ len,
    let command := replicate len Byte.x78 in
    ok_and (encrypt (sample_draw 1) keys command salt_default).2 (λ wire,
      ok_and (decrypt_control_response keys wire) (λ plain,
        asserts [strip_salt_prefix plain ≟ command;
                 ok_and (reference_encrypt keys (plain ++ [nul])) (λ r, wire ≟ r)]))) (seq 0 64).

Definition percent_encoding_handles_runs_of_escapes : bool :=
  forallb (λ input, percent_encode_base64 input [] ≟ general_encode input)
    [bs ""; bs "+"; bs "///"; bs "+/="; bs "A+B/C="; bs "===="; bs "AAAA"].

Definition roundtrip_zerobyte_padding : bool :=
  let key := filled 32 0x11 in
  let iv := filled 16 0x22 in
  ok_and (aes_encrypt_zerobyte key iv (bs "salt/abc/jdev/sys/getkey" ++ [nul])) (λ ct,
    asserts [zlen ct mod 16 ≟ 0;
             ok_and (aes_decrypt_zerobyte key iv ct) (λ pt, pt ≟ bs "salt/abc/jdev/sys/getkey")]).

Definition encrypt_command_prefix : bool :=
  ok_and (encrypt (sample_draw 1) (keys_of 7 8) (bs "jdev/sys/getkey") salt_default).2 (λ enc,
    let body := drop (length CMD_ENCRYPT) enc in
    asserts [starts_with CMD_ENCRYPT enc; negb (contains (bs "/") body); negb (contains (bs "+") body);
             negb (contains (bs "=") body)]).

Definition a_reused_salt_state_does_not_carry_the_previous_command_over : bool :=
  let keys := keys_of 0x9a 0x0e in
  let '(reused, r0) := encrypt (sample_draw 1) keys (concat (replicate 50 (bs "long"))) salt_default in
  let '(reused, r) := encrypt (sample_draw 2) keys (bs "short") reused in
  is_ok r0 && ok_and r (λ wire,
    ok_and (decrypt_control_response keys wire) (λ plain,
      asserts [strip_salt_prefix plain ≟ bs "short";
               ok_and (reference_encrypt keys (plain ++ [nul])) (λ r, wire ≟ r)])).

Definition reset_clears_state : bool :=
  let '(st, r) := encrypt (sample_draw 1) (keys_of 1 2) (bs "a") salt_default in
  asserts [is_ok r; negb (is_empty (salt st)); is_empty (salt (reset st)); salt_used_count (reset st) ≟ 0].

Definition first_command_uses_salt_prefix : bool :=
  let plain := (salted_plaintext (sample_draw 1) (bs "jdev/sys/getkey") salt_default).2 in
  asserts [starts_with (bs "salt/") plain; ends_with (bs "/jdev/sys/getkey" ++ [nul]) plain;
           negb (starts_with (bs "nextSalt/") plain)].

(** The plaintexts of [cmd0], [cmd1], ... *)
Fixpoint plaintexts (ns : list nat) (st : SaltState) : SaltState * list bytes :=
  match ns with
  | [] => (st, [])
  | i :: ns =>
      let '(st, p) := salted_plaintext (sample_draw (Z.of_nat i)) (bs "cmd" ++ display_Z (Z.of_nat i)) st in
      let '(st, ps) := plaintexts ns st in (st, p :: ps)
  end.

Definition salt_is_reused_until_max_use_count : bool :=
  let '(st, first) := salted_plaintext (sample_draw 0) (bs "cmd0") salt_default in
  let active := salt st in
  let ps := (plaintexts (seq 1 29) st).2 in
  asserts [length ps ≟ 29%nat; forallb (starts_with (bs "salt/" ++ active ++ bs "/")) ps;
           starts_with (bs "salt/" ++ active ++ bs "/") first].

Definition salt_rotates_after_max_use_count : bool :=
  let st := (plaintexts (seq 0 31) salt_default).1 in
  let previous := salt st in
  let '(st, rotated) := salted_plaintext (sample_draw 77) (bs "rotate") st in
  let '(st', after) := salted_plaintext (sample_draw 78) (bs "next") st in
  asserts [starts_with (bs "nextSalt/" ++ previous ++ bs "/") rotated; ends_with (bs "/rotate" ++ [nul]) rotated;
           negb (salt st ≟ previous); starts_with (bs "salt/" ++ salt st' ++ bs "/") after].

Definition stale_salt_rotates_by_age : bool :=
  let now := 1000000 in
  let at_ := {| rng_salt := filled 16 9; now_check := now; now_stamp := now |} in
  let st := (salted_plaintext at_ (bs "cmd") salt_default).1 in
  let st := {| salt := salt st; salt_used_count := salt_used_count st;
               salt_time_stamp := now - SALT_MAX_AGE_SECONDS - 1; scratch := scratch st; encoded := encoded st |} in
  starts_with (bs "nextSalt/" ++ salt st ++ bs "/") (salted_plaintext at_ (bs "cmd") st).2.

Definition reset_restarts_the_salt_sequence : bool :=
  let st := (plaintexts (seq 0 32) salt_default).1 in
  asserts [negb (is_empty (salt st)); starts_with (bs "salt/") (salted_plaintext (sample_draw 1) (bs "first") (reset st)).2].

Definition session_payload_format : bool :=
  map zlen (split colon_char (session_payload (keys_of 0xab 0xcd))) ≟ [64; 32].

Definition encrypt_decrypt_control_roundtrip : bool :=
  let keys := keys_of 3 4 in
  ok_and (encrypt (sample_draw 1) keys (bs "jdev/sys/getkey2/admin") salt_default).2 (λ enc,
    ok_and (decrypt_control_response keys enc) (λ plain, strip_salt_prefix plain ≟ bs "jdev/sys/getkey2/admin")).

Definition strip_salt_prefix_variants : bool :=
  asserts [strip_salt_prefix (bs "salt/aabb/jdev/sys/getkey") ≟ bs "jdev/sys/getkey";
           strip_salt_prefix (bs "nextSalt/aabb/ccdd/jdev/sps/io/x/on") ≟ bs "jdev/sps/io/x/on";
           strip_salt_prefix (bs "salt/aabb/cmd" ++ [nul]) ≟ bs "cmd";
           strip_salt_prefix (bs "jdev/cfg/api") ≟ bs "jdev/cfg/api";
           strip_salt_prefix (bs "salt/only") ≟ bs "salt/only";
           strip_salt_prefix (bs "nextSalt/a/b") ≟ bs "nextSalt/a/b"].

Definition debug_hides_key_material : bool :=
  let rendered := render id false (debug_session_keys (keys_of 0x5a 0x5a)) in
  asserts [negb (contains (bs "5a") rendered); negb (contains (bs "90") rendered)].

Lemma session_tests_pass :
  asserts [encrypt_matches_the_reference_pipeline; percent_encoding_handles_runs_of_escapes;
           roundtrip_zerobyte_padding; encrypt_command_prefix;
           a_reused_salt_state_does_not_carry_the_previous_command_over; reset_clears_state;
           first_command_uses_salt_prefix; salt_is_reused_until_max_use_count; salt_rotates_after_max_use_count;
           stale_salt_rotates_by_age; reset_restarts_the_salt_sequence; session_payload_format;
           encrypt_decrypt_control_roundtrip; strip_salt_prefix_variants; debug_hides_key_material] = true.
Proof. vm_compute. reflexivity. Qed.
End SessionTests.

(** ** crypto/hash.rs *)

Module HashTests.
Definition to_uppercase (s : bytes) : bytes :=
  map (λ b, if (97 <=? u8 b) && (u8 b <=? 122) then byte_of (u8 b - 32) else b) s.
Definition password_hash_sha1_upper : bool :=
  let h := password_hash Sha1 (bs "pass") (bs "salt") in asserts [h ≟ to_uppercase h; zlen h ≟ 40].
Definition password_hash_sha256_upper : bool :=
  let h := password_hash Sha256 (bs "pass") (bs "salt") in asserts [h ≟ to_uppercase h; zlen h ≟ 64].
Definition credentials_hmac_deterministic : bool :=
  let ks := {| key_hex := bs "00112233445566778899aabbccddeeff00112233445566778899aabbccddeeff";
               ks_salt := bs "deadbeef"; hash_alg := Sha1 |} in
  ok_and (hash_credentials ks (bs "secret") (bs "admin")) (λ a,
    ok_and (hash_credentials ks (bs "secret") (bs "admin")) (λ b, asserts [a ≟ b; zlen a ≟ 40])).
Definition visu_hash_no_username : bool :=
  let ks := {| key_hex := bs "aabbccddeeff00112233445566778899aabbccddeeff00112233445566778899";
               ks_salt := bs "visusalt"; hash_alg := Sha256 |} in
  ok_and (hash_visu_password ks (bs "1234")) (λ h, zlen h ≟ 64).
Definition parse_alg : bool :=
  asserts [ok_and (hash_alg_parse (bs "SHA1")) (λ a, a ≟ Sha1);
           ok_and (hash_alg_parse (bs "SHA256")) (λ a, a ≟ Sha256); is_err (hash_alg_parse (bs "MD5"))].
End HashTests.

(** ** auth/token.rs *)

Module TokenTests.
Definition epoch_constant : bool := LOXONE_EPOCH ≟ 1230768000.
(** [now] is the clock; the token is good until 2058. *)
Definition far_future_positive (now : Z) : bool :=
  some_and (seconds_to_expire true now (new_token (bs "x") (50 * 365 * 24 * 3600) Sha1)) (λ s, 0 <? s).
Definition debug_redacts_the_token : bool :=
  let raw := bs "eyJhbGciOiJIUzI1NiJ9.secret" in
  let rendered := render id false (debug_token (new_token raw 1 Sha256)) in
  asserts [negb (contains (bs "secret") rendered); negb (contains (bs "eyJ") rendered);
           contains (bs "<redacted, " ++ display_Z (zlen raw) ++ bs " bytes>") rendered;
           contains (bs "<empty>") (render id false (debug_token default_token))].
End TokenTests.

(** ** auth/flow.rs *)

Module FlowTests.
Definition ll_code (code : bytes) : bytes := json_text (bs "{'LL':{'code':'" ++ code ++ bs "'}}").
Definition ll_code_casing : bool :=
  forallb (λ text, match from_slice (json_text text) with
                   | Ok v => ll_status_code v ≟ Some (bs "200")
                   | Err _ => false
                   end) [bs "{'Code':'200'}"; bs "{'code':'200'}"].
Definition token_commands_are_jwt_only : bool :=
  asserts [starts_with (bs "jdev/sys/getjwt/") (cmd_request_token (bs "abc") (bs "u") App DEFAULT_CLIENT_UUID DEFAULT_CLIENT_INFO);
           starts_with (bs "jdev/sys/refreshjwt/") (cmd_refresh_token (bs "abc") (bs "u"));
           starts_with (bs "jdev/sys/checktoken/") (cmd_check_token (bs "abc") (bs "u"));
           starts_with (bs "jdev/sys/killtoken/") (cmd_kill_token (bs "abc") (bs "u"))].
Definition permission_id_appears_in_getjwt : bool :=
  asserts [cmd_request_token (bs "h") (bs "u") Web (bs "uuid") (bs "info") ≟ bs "jdev/sys/getjwt/h/u/2/uuid/info";
           cmd_request_token (bs "h") (bs "u") App (bs "uuid") (bs "info") ≟ bs "jdev/sys/getjwt/h/u/4/uuid/info"].
Definition parse_token_json : bool :=
  ok_and (parse_token_response (json_text (bs "{'LL':{'code':'200','value':{'token':'eyJ','validUntil':500000000}}}")) Sha256)
    (λ t, asserts [token t ≟ bs "eyJ"; valid_until t ≟ 500000000; tok_hash_alg t ≟ Sha256]).
Definition ll_error_codes_carry_hints : bool :=
  forallb (λ code,
    match from_slice (ll_code code) with
    | Ok root => err_and (require_ll_ok root) (λ e,
        asserts [contains code (error_display e); contains (bs "(") (error_display e)])
    | Err _ => false
    end) [bs "400"; bs "401"; bs "403"; bs "404"; bs "420"; bs "500"; bs "503"].
Definition the_two_stateful_codes_keep_their_own_variant : bool :=
  asserts [ll_status_error (bs "423") ≟ UserDisabled; is_terminal (ll_status_error (bs "423"));
           ll_status_error (bs "901") ≟ TooManyConnections; needs_long_backoff (ll_status_error (bs "901"));
           match ll_status_error (bs "401") with Auth _ => true | _ => false end].
Definition only_auth_codes_invalidate_the_token : bool :=
  asserts (map ll_status_invalidates_token [bs "401"; bs "403"]
           ++ map (negb ∘ ll_status_invalidates_token) [bs "901"; bs "500"; bs "503"; bs "423"; bs "200"]).
Definition an_unnamed_refusal_still_costs_the_token : bool :=
  forallb ll_status_invalidates_token [bs "400"; bs "404"; bs "420"; bs "412"; bs ""].
Definition payload_status_extraction : bool :=
  asserts [payload_ll_status (json_text (bs "{'LL':{'control':'x','Code':'401'}}")) ≟ Some (bs "401");
           payload_ll_status (bs "not json") ≟ None; payload_ll_status (json_text (bs "{'other':1}")) ≟ None].
End FlowTests.

Lemma auth_tests_pass :
  asserts [HashTests.password_hash_sha1_upper; HashTests.password_hash_sha256_upper;
           HashTests.credentials_hmac_deterministic; HashTests.visu_hash_no_username; HashTests.parse_alg;
           TokenTests.epoch_constant; TokenTests.far_future_positive 1760000000; TokenTests.debug_redacts_the_token;
           FlowTests.ll_code_casing; FlowTests.token_commands_are_jwt_only; FlowTests.permission_id_appears_in_getjwt;
           FlowTests.parse_token_json; FlowTests.ll_error_codes_carry_hints;
           FlowTests.the_two_stateful_codes_keep_their_own_variant; FlowTests.only_auth_codes_invalidate_the_token;
           FlowTests.an_unnamed_refusal_still_costs_the_token; FlowTests.payload_status_extraction] = true.
Proof. vm_compute. reflexivity. Qed.

(** ** auth/store.rs *)

Module StoreTests.
(** A fresh directory: an empty file system. Every call succeeds. *)
Definition file : bytes := bs "/tmp/store/token.cfg".
Definition tok : LxToken := new_token (bs "eyJhbGciOiJIUzI1NiJ9.payload") 1234567 Sha256.
Definition saved (b : bytes) (t : LxToken) (fs : FS) : FS := final fs (save all_ok file b t fs).
Definition loaded (b : bytes) (fs : FS) : option LxToken := load true file b fs.
Definition written_file (text : bytes) (fs : FS) : FS := <[file := {| data := text; Store.mode := 0x1a4 |}]> fs.
Definition a : bytes := bs "binding-a".
Definition b : bytes := bs "binding-b".

Definition a_saved_token_comes_back_unchanged : bool :=
  asserts [is_none (loaded a ∅);
           some_and (loaded a (saved a tok ∅)) (λ t,
             asserts [token t ≟ token tok; valid_until t ≟ valid_until tok; tok_hash_alg t ≟ Sha256])].

Definition a_token_is_not_handed_to_a_different_identity : bool :=
  let fs := saved a tok ∅ in asserts [is_none (loaded b fs); is_some (loaded a fs)].

(** On what is hashed: the digest itself is a library's. *)
Definition the_binding_separates_url_user_and_client : bool :=
  let p u n c := binding_preimage u n c in
  let base := p (bs "http://ms.local") (bs "admin") (bs "uuid") in
  asserts [base ≟ p (bs "http://ms.local") (bs "admin") (bs "uuid");
           negb (base ≟ p (bs "http://other.local") (bs "admin") (bs "uuid"));
           negb (base ≟ p (bs "http://ms.local") (bs "guest") (bs "uuid"));
           negb (base ≟ p (bs "http://ms.local") (bs "admin") (bs "other"));
           negb (p (bs "ab") (bs "c") (bs "d") ≟ p (bs "a") (bs "bc") (bs "d"))].

Definition clearing_removes_the_file : bool :=
  let fs := saved a tok ∅ in
  let gone := clear all_ok file fs in
  asserts [is_some (fs !! file); is_none (gone !! file); is_none (loaded a gone);
           is_none (clear all_ok file gone !! file)].

Definition saving_an_empty_token_clears_instead_of_writing_one : bool :=
  is_none (saved a default_token (saved a tok ∅) !! file).

Definition a_damaged_file_is_ignored_rather_than_half_read : bool :=
  let damaged := written_file (bs "not a token file at all" ++ [nl]) ∅ in
  let short := written_file (TOKEN_MAGIC ++ [nl] ++ bs "binding=binding-a" ++ [nl]) ∅ in
  asserts [is_none (loaded a damaged); is_none (loaded a short); is_some (loaded a (saved a tok short))].

Definition a_token_cannot_forge_extra_fields : bool :=
  let forged := new_token (bs "evil" ++ [nl] ++ bs "binding=binding-b") 1234567 Sha256 in
  let fs := saved a forged (saved a tok ∅) in
  asserts [some_and (loaded a fs) (λ t, token t ≟ token tok); is_none (loaded b fs)].

Definition a_repeated_field_does_not_override_the_first : bool :=
  let fs := written_file (TOKEN_MAGIC ++ [nl] ++ bs "binding=binding-a" ++ [nl] ++ bs "hash_alg=SHA256" ++ [nl]
              ++ bs "valid_until=1" ++ [nl] ++ bs "token=t" ++ [nl] ++ bs "binding=binding-b" ++ [nl]) ∅ in
  asserts [is_some (loaded a fs); is_none (loaded b fs)].

Definition the_file_is_readable_only_by_its_owner : bool :=
  some_and (saved a tok ∅ !! file) (λ f, Z.land (Store.mode f) 0x1ff ≟ 0x180).

Definition a_save_over_a_leftover_temporary_still_ends_up_private : bool :=
  let tmp := with_extension file (bs "tmp") in
  let fs := saved a tok (<[tmp := {| data := bs "stale"; Store.mode := 0x1a4 |}]> ∅) in
  asserts [some_and (fs !! file) (λ f, Z.land (Store.mode f) 0x1ff ≟ 0x180); is_none (fs !! tmp)].

Definition debug_output_keeps_the_token_out_of_it : bool :=
  asserts [negb (contains (bs "payload") (render id false (debug_file_store file)));
           negb (contains (bs "payload") (render id false (debug_token tok)))].

Lemma store_tests_pass :
  asserts [a_saved_token_comes_back_unchanged; a_token_is_not_handed_to_a_different_identity;
           the_binding_separates_url_user_and_client; clearing_removes_the_file;
           saving_an_empty_token_clears_instead_of_writing_one; a_damaged_file_is_ignored_rather_than_half_read;
           a_token_cannot_forge_extra_fields; a_repeated_field_does_not_override_the_first;
           the_file_is_readable_only_by_its_owner; a_save_over_a_leftover_temporary_still_ends_up_private;
           debug_output_keeps_the_token_out_of_it] = true.
Proof. vm_compute. reflexivity. Qed.
End StoreTests.

(** ** client/pending.rs *)

Module PendingTests.
(** The clock stands at [0]; a waiter is the number of its channel. *)
Definition far_future : Z := from_secs 3600.
Definition no_keys : SessionKeys := keys_of 0 0.
Definition push_plain (cmd : bytes) (resp : option Sender) (deadline : Z) (q : PendingQueue) : PendingQueue :=
  push cmd cmd resp deadline q.
Definition getkey : bytes := bs "jdev/sys/getkey".
Definition on : bytes := bs "jdev/sps/io/a/on".
(** [q.resolve(control, keys)] that must find an entry. *)
Definition resolved (control : option bytes) (keys : SessionKeys) (q : PendingQueue)
    (f : Resolved → PendingQueue → bool) : bool :=
  match resolve control keys q with (Some r, q) => f r q | (None, _) => false end.

Definition fifo_order_across_pipelined_commands : bool :=
  let q := push_plain on (Some 2%nat) far_future (push_plain getkey (Some 1%nat) far_future new_queue) in
  (queue_len q ≟ 2) &&
  resolved (Some getkey) no_keys q (λ first q,
    resolved (Some on) no_keys q (λ second q,
      asserts [matched first; r_resp first ≟ Some 1%nat; matched second; r_resp second ≟ Some 2%nat;
               queue_len q ≟ 0; mismatches q ≟ 0])).

Definition control_command_gets_its_own_slot : bool :=
  let q := push_plain getkey (Some 1%nat) far_future (push_plain on None far_future new_queue) in
  resolved (Some on) no_keys q (λ ack q,
    resolved (Some getkey) no_keys q (λ answer _, asserts [is_none (r_resp ack); is_some (r_resp answer)])).

Definition mismatched_control_is_counted_but_still_resolves : bool :=
  let q := push_plain (bs "jdev/sys/getkey2/admin") None far_future new_queue in
  resolved (Some (bs "jdev/sps/io/other/on")) no_keys q (λ r q,
    asserts [negb (matched r); mismatches q ≟ 1; queue_len q ≟ 0]).

Definition missing_control_does_not_count_as_mismatch : bool :=
  let q := push_plain (bs "data/LoxAPP3.json") None far_future new_queue in
  resolved None no_keys q (λ r q, asserts [matched r; mismatches q ≟ 0]).

Definition empty_queue_resolves_to_none : bool :=
  let '(r, q) := resolve (Some getkey) no_keys new_queue in
  asserts [is_none r; unsolicited (note_unsolicited q) ≟ 1].

Definition expired_entries_fail_with_timeout : bool :=
  let q := push_plain getkey (Some 1%nat) (- from_secs 1) new_queue in
  let q := push_plain (bs "jdev/sys/getkey2/admin") (Some 2%nat) far_future q in
  let '(q, out, n) := expire 0 q in
  asserts [n ≟ 1; timeouts q ≟ 1; queue_len q ≟ 1;
           match out with [(tx, Err (Timeout _))] => tx ≟ 1%nat | _ => false end;
           (expire 0 q).2 ≟ 0].

Definition next_deadline_tracks_the_oldest_waiter : bool :=
  let first := from_secs 5 in
  let q := push_plain on None (from_secs 9) (push_plain getkey None first new_queue) in
  asserts [next_deadline new_queue ≟ None; next_deadline q ≟ Some first;
           negb (next_deadline (resolve (Some getkey) no_keys q).2 ≟ Some first)].

Definition fail_all_closes_every_waiter : bool :=
  let q := push_plain on None far_future (push_plain getkey (Some 1%nat) far_future new_queue) in
  let '(q, out, n) := fail_all (bs "session ended") q in
  asserts [n ≟ 2; match out with [(tx, Err (Closed _))] => tx ≟ 1%nat | _ => false end; queue_len q ≟ 0].

Definition a_verbatim_echo_never_reaches_the_cipher : bool :=
  ok_and (encrypt (sample_draw 1) (keys_of 9 3) (bs "jdev/sys/getkey2/admin") salt_default).2 (λ wire,
    resolved (Some wire) no_keys (push (bs "jdev/sys/getkey2/admin") wire None far_future new_queue) (λ r q,
      asserts [matched r; is_none (actual r); mismatches q ≟ 0])).

Definition the_fast_path_tolerates_the_echo_quirks : bool :=
  let '(q, ok) := fold_left (λ '(q, ok) echo,
      match resolve (Some echo) no_keys (push getkey (bs "jdev/sys/enc/BLOB") None far_future q) with
      | (Some r, q) => (q, asserts [ok; matched r; is_none (actual r)])
      | (None, q) => (q, false)
      end) [bs "/jdev/sys/enc/BLOB"; bs "dev/sys/enc/BLOB"; bs "jdev/sys/enc/BLOB" ++ [nul]] (new_queue, true) in
  ok && (mismatches q ≟ 0).

Definition an_unexpected_echo_falls_back_to_decrypting : bool :=
  let keys := keys_of 9 3 in
  let '(st, sent) := encrypt (sample_draw 1) keys (bs "jdev/sys/getkey2/admin") salt_default in
  let '(_, other) := encrypt (sample_draw 2) keys (bs "jdev/sps/io/light/on") st in
  ok_and sent (λ sent, ok_and other (λ other,
    resolved (Some other) keys (push (bs "jdev/sys/getkey2/admin") sent None far_future new_queue) (λ r q,
      asserts [negb (matched r); actual r ≟ Some (bs "jdev/sps/io/light/on"); mismatches q ≟ 1]))).

Definition a_reencoded_echo_still_correlates_through_the_fallback : bool :=
  let keys := keys_of 5 7 in
  let '(st, sent) := encrypt (sample_draw 1) keys getkey salt_default in
  let '(_, echoed) := encrypt (sample_draw 2) keys getkey (reset st) in
  ok_and sent (λ sent, ok_and echoed (λ echoed,
    negb (sent ≟ echoed) &&
    resolved (Some echoed) keys (push getkey sent None far_future new_queue) (λ r q,
      asserts [matched r; mismatches q ≟ 0]))).

Definition control_matching_tolerates_protocol_quirks : bool :=
  asserts [control_matches getkey getkey; control_matches (bs "dev/sys/getkey") getkey;
           control_matches (bs "/jdev/cfg/api") (bs "jdev/cfg/api"); control_matches (getkey ++ [nul]) getkey;
           control_matches (bs "authwithtoken/admin") (bs "authwithtoken/HASH/admin");
           negb (control_matches (bs "jdev/sys/getkey2/admin") (bs "jdev/sys/getvisusalt/admin"));
           negb (control_matches (bs "jdev/sps/io/x/on") getkey);
           negb (control_matches (bs "jdev/sps/io/x/on") (bs "authwithtoken/HASH/admin"));
           negb (control_matches (bs "jdev/sps/io/x/on") (bs "jdev/sys/getkey2/admin"))].

Definition getkey2_and_getvisusalt_are_distinguishable : bool :=
  let q := push_plain (bs "jdev/sys/getvisusalt/admin") None far_future new_queue in
  resolved (Some (bs "jdev/sys/getvisusalt/admin")) no_keys q (λ r _,
    asserts [matched r; starts_with (bs "jdev/sys/getvisusalt/") (r_plaintext_cmd r)]).

Definition control_scan_finds_the_field : bool :=
  extract_ll_control (json_text (bs "{'LL': {'control': 'jdev/sys/getkey', 'value': 'abc', 'Code': '200'}}")) ≟ Some getkey.

Definition word_search_matches_the_naive_scan : bool :=
  let buf := replicate 40 Byte.x78 in
  asserts [forallb (λ pos,
             let quoted := <[pos := quote_char]> buf in
             let escaped := <[pos := backslash]> buf in
             asserts [find_byte quoted quote_char ≟ position (byteb quote_char) quoted;
                      find_either escaped quote_char backslash ≟ position (either quote_char backslash) escaped])
             (seq 0 40);
           find_byte (bs "xxx") quote_char ≟ None; find_byte [] quote_char ≟ None].

Definition control_scan_skips_lookalike_keys : bool :=
  extract_ll_control (json_text (bs "{'contro':'no','controlx':'no','control':'yes'}")) ≟ Some (bs "yes").

Definition control_scan_handles_every_key_offset : bool :=
  forallb (λ pad, extract_ll_control (replicate pad Byte.x20 ++ json_text (bs "{'control':'jdev/sys/getkey'}")) ≟ Some getkey)
    (seq 0 24).

Definition control_scan_ignores_payloads_without_the_field : bool :=
  asserts [extract_ll_control (json_text (bs "{'lastModified':'2024'}")) ≟ None; extract_ll_control [] ≟ None;
           extract_ll_control (replicate (Z.to_nat CONTROL_KEY_SCAN_LIMIT) Byte.x20
                               ++ json_text (bs "{'LL':{'control':'jdev/sys/getkey'}}")) ≟ None].

Definition long_encrypted_control_values_are_still_read : bool :=
  let blob := replicate (Z.to_nat (CONTROL_KEY_SCAN_LIMIT * 2)) Byte.x61 in
  extract_ll_control (json_text (bs "{'LL':{'control':'jdev/sys/enc/") ++ blob ++ json_text (bs "','Code':'200'}}"))
  ≟ Some (bs "jdev/sys/enc/" ++ blob).

Definition absurd_control_values_are_rejected : bool :=
  let blob := replicate (Z.to_nat (CONTROL_VALUE_LIMIT + 1)) Byte.x61 in
  extract_ll_control (json_text (bs "{'LL':{'control':'") ++ blob ++ json_text (bs "'}}")) ≟ None.

Definition control_scan_rejects_non_string_and_escaped_values : bool :=
  asserts [extract_ll_control (json_text (bs "{'LL':{'control':123}}")) ≟ None;
           extract_ll_control (json_text (bs "{'LL':{'control':'a\/b'}}")) ≟ None;
           extract_ll_control (json_text (bs "{'LL':{'control':'unterminated")) ≟ None].

Definition encrypted_control_decodes_to_the_plaintext_command : bool :=
  let keys := keys_of 9 3 in
  ok_and (encrypt (sample_draw 1) keys (bs "jdev/sys/getkey2/admin") salt_default).2 (λ wire,
    some_and (decode_control wire keys) (λ decoded,
      asserts [decoded ≟ bs "jdev/sys/getkey2/admin"; control_matches decoded (bs "jdev/sys/getkey2/admin")])).

Definition plain_control_passes_through_decode : bool :=
  decode_control (bs "jdev/cfg/api") (keys_of 1 1) ≟ Some (bs "jdev/cfg/api").

Definition cmd_label_keeps_secrets_out_of_logs : bool :=
  asserts [cmd_label (bs "jdev/sys/getjwt/DEADBEEF/admin/4/uuid") ≟ bs "jdev/sys/getjwt";
           cmd_label (bs "authwithtoken/DEADBEEF/admin") ≟ bs "authwithtoken";
           cmd_label (bs "jdev/sps/ios/VISUHASH/uuid/on") ≟ bs "jdev/sps/ios";
           cmd_label (bs "keepalive") ≟ bs "keepalive"; cmd_label [] ≟ []].

Lemma pending_tests_pass :
  asserts [fifo_order_across_pipelined_commands; control_command_gets_its_own_slot;
           mismatched_control_is_counted_but_still_resolves; missing_control_does_not_count_as_mismatch;
           empty_queue_resolves_to_none; expired_entries_fail_with_timeout; next_deadline_tracks_the_oldest_waiter;
           fail_all_closes_every_waiter; a_verbatim_echo_never_reaches_the_cipher;
           the_fast_path_tolerates_the_echo_quirks; an_unexpected_echo_falls_back_to_decrypting;
           a_reencoded_echo_still_correlates_through_the_fallback; control_matching_tolerates_protocol_quirks;
           getkey2_and_getvisusalt_are_distinguishable; encrypted_control_decodes_to_the_plaintext_command;
           plain_control_passes_through_decode; cmd_label_keeps_secrets_out_of_logs] = true.
Proof. vm_compute. reflexivity. Qed.

Lemma scan_tests_pass :
  asserts [control_scan_finds_the_field; word_search_matches_the_naive_scan; control_scan_skips_lookalike_keys;
           control_scan_handles_every_key_offset; control_scan_ignores_payloads_without_the_field;
           long_encrypted_control_values_are_still_read; absurd_control_values_are_rejected;
           control_scan_rejects_non_string_and_escaped_values] = true.
Proof. vm_compute. reflexivity. Qed.
End PendingTests.

(** ** client/visu.rs, client/keepalive.rs, client/reconnect.rs, metrics.rs, client/state.rs *)

Module StateTests.
Definition item (uuid : bytes) : VisuPending := {| v_uuid := uuid; v_value := bs "on"; visu_pw := bs "1234" |}.
Definition newest_command_wins : bool :=
  let '(q, drained) := visu_drain (visu_push (item (bs "b")) (visu_push (item (bs "a")) [])) in
  asserts [zlen drained ≟ 1; some_and (drained !! 0%nat) (λ i, v_uuid i ≟ bs "b"); q ≟ []].

Definition BASE : Z := from_secs 150.
Definition header_frames_use_the_base_timeout : bool := read_timeout BASE 0 ≟ BASE.
Definition small_payloads_add_a_single_second : bool :=
  asserts [read_timeout BASE 1 ≟ BASE + from_secs 1; read_timeout BASE (32 * 1024) ≟ BASE + from_secs 1;
           read_timeout BASE (32 * 1024 + 1) ≟ BASE + from_secs 2].
Definition large_payloads_scale_with_announced_length : bool :=
  read_timeout BASE (8 * 1024 * 1024) ≟ BASE + from_secs 256.
Definition extension_is_capped : bool :=
  read_timeout BASE (2 ^ 32 - 1) ≟ BASE + from_secs MAX_PAYLOAD_EXTENSION_SECS.
Definition idle_timeout_outlives_a_keepalive_round : bool := KEEP_ALIVE_PERIOD_SECS <? READ_IDLE_TIMEOUT_SECS.

Definition zero_means_unlimited : bool :=
  asserts [should_continue 0 0; should_continue 9999 0; should_continue 2 3; negb (should_continue 3 3)].
Definition transient_failures_keep_the_short_delay : bool :=
  forallb (λ code, backoff_for_close code ≟ Normal) [None; Some 1000; Some 1001; Some 1006; Some 1012; Some 4004].
Definition structural_refusals_get_the_long_backoff : bool :=
  forallb (λ code, backoff_for_close code ≟ Long) [Some 4003; Some 4007; Some 4008].
Definition only_a_disabled_user_ends_the_client : bool :=
  asserts [match terminal_close (Some 4006) with Some UserDisabled => true | _ => false end;
           forallb (λ code, is_none (terminal_close code))
             [None; Some 1000; Some 1006; Some 4003; Some 4004; Some 4005; Some 4008]].
Definition only_user_changes_invalidate_the_token : bool :=
  asserts [forallb (λ code, negb (token_survives_close code)) [Some 4004; Some 4005; Some 4006];
           forallb token_survives_close [None; Some 1000; Some 1006; Some 1012; Some 4003; Some 4008]].

Definition state_roundtrips_through_the_atomic_cell : bool :=
  let cell : SharedState unit := new_shared in
  snd (fold_left (λ '(cell, ok) s,
      let cell := set_state s cell in
      (cell, asserts [ok; get_state cell ≟ s; display_conn_state (get_state cell) ≟ conn_as_str s]))
    [Connecting; Connected; Reconnecting; CClosed] (cell, get_state cell ≟ CClosed)).

Definition token_lifecycle : bool :=
  let shared : SharedState unit := new_shared in
  let set := set_token (new_token (bs "tok") 42 Sha256) shared in
  let cleared := clear_shared_token set in
  asserts [token_is_empty (shared_token shared); token_valid_until shared ≟ None; token_valid_until set ≟ Some 42;
           token_is_empty (shared_token cleared); token_valid_until cleared ≟ None].
Definition state_is_observable_without_locking : bool :=
  let shared : SharedState unit := new_shared in
  asserts [get_state shared ≟ CClosed; get_state (set_state Connected shared) ≟ Connected].

(** The clock readings do not matter to the counts. *)
Definition every_keepalive_needs_its_own_answer : bool :=
  let l1 := record_sent 1 new_liveness in
  let l3 := record_sent 3 (record_sent 2 l1) in
  let '(l4, first) := record_ack l3 in
  let '(l5, second) := record_ack l4 in
  asserts [missed new_liveness ≟ 0; missed l1 ≟ 1; missed l3 ≟ 3; is_some first; missed l4 ≟ 2;
           is_none second; missed l5 ≟ 1].
Definition an_unsolicited_answer_cannot_bank_credit : bool :=
  let l := fst (record_ack (fst (record_ack new_liveness))) in
  asserts [missed l ≟ 0; missed (record_sent 1 l) ≟ 1].

Lemma state_tests_pass :
  asserts [newest_command_wins; header_frames_use_the_base_timeout; small_payloads_add_a_single_second;
           large_payloads_scale_with_announced_length; extension_is_capped;
           idle_timeout_outlives_a_keepalive_round; zero_means_unlimited; transient_failures_keep_the_short_delay;
           structural_refusals_get_the_long_backoff; only_a_disabled_user_ends_the_client;
           only_user_changes_invalidate_the_token; state_roundtrips_through_the_atomic_cell; token_lifecycle;
           state_is_observable_without_locking; every_keepalive_needs_its_own_answer;
           an_unsolicited_answer_cannot_bank_credit] = true.
Proof. vm_compute. reflexivity. Qed.
End StateTests.

(** ** client/handler.rs *)

Module HandlerTests.
Definition full_queue_increments_the_drop_counter : bool :=
  let tick ch := match invoke on_keepalive ch with Returned ch | Unwound ch => ch end in
  some_and (new_channel 1) (λ ch,
    let once := tick ch in
    asserts [dropped once ≟ 0; dropped (tick (tick once)) ≟ 2]).

Record Panicky := { p_values : Z; p_events : Z; panic_on_value : bool }.
#[local] Instance panicky_handler : LoxHandler Panicky := λ c h,
  match c with
  | on_value _ _ =>
      let h := {| p_values := p_values h + 1; p_events := p_events h; panic_on_value := panic_on_value h |} in
      if panic_on_value h then Unwound h else Returned h
  | on_event _ =>
      Returned {| p_values := p_values h; p_events := p_events h + 1; panic_on_value := panic_on_value h |}
  | _ => Returned h
  end.
Definition panicky (panics : bool) : HandlerGuard Panicky :=
  new_guard {| p_values := 0; p_events := 0; panic_on_value := panics |}.
Definition one_value (value : Z) : list Call := [on_value (LoxUuid (filled 16 0)) value].

Definition a_healthy_handler_is_called_normally : bool :=
  let '(guard, r) := guard_or_fail (one_value 1) tt (panicky false) in
  asserts [is_ok r; negb (panicked guard); p_values (handler guard) ≟ 1].
Definition a_panicking_handler_is_absorbed_and_reported : bool :=
  let '(guard, r) := guard_or_fail (one_value 1) tt (panicky true) in
  err_and r (λ err, asserts [err ≟ HandlerPanic; is_terminal err; panicked guard]).
Definition nothing_re_enters_a_handler_that_panicked : bool :=
  let '(guard, _) := guard_or_fail (one_value 1) tt (panicky true) in
  let '(guard, _) := guard_or_fail (one_value 2) tt guard in
  p_values (handler guard) ≟ 1.
Definition the_closing_event_still_reaches_a_handler_that_panicked : bool :=
  let '(guard, _) := guard_or_fail (one_value 1) tt (panicky true) in
  p_events (handler (lifecycle EvClosed guard)) ≟ 1.

Lemma handler_tests_pass :
  asserts [full_queue_increments_the_drop_counter; a_healthy_handler_is_called_normally;
           a_panicking_handler_is_absorbed_and_reported; nothing_re_enters_a_handler_that_panicked;
           the_closing_event_still_reaches_a_handler_that_panicked] = true.
Proof. vm_compute. reflexivity. Qed.
End HandlerTests.

(** ** client/reader.rs, client/refresh.rs, client/handshake.rs *)

Module SessionTaskTests.
Definition announced_length_carries_through_the_frame_states : bool :=
  asserts [announced_len START ≟ 0; announced_len (ExpectHeader 4096) ≟ 4096; announced_len (ExpectPayload 2 96) ≟ 96].
Definition close_code_needs_two_bytes : bool :=
  asserts [parse_close_code [] ≟ None; parse_close_code [Byte.x0f] ≟ None;
           parse_close_code [Byte.x03; Byte.xe8] ≟ Some 1000;
           parse_close_code ([Byte.x0f; Byte.xa8] ++ bs "bye") ≟ Some 4008].

(** The clock is the one of the tests' year, and overflow checks are on. *)
Definition clock : Z := 1790000000.
Definition delay_of (s : SharedState unit) : option Z := next_refresh_delay true clock s s.
Definition no_token_uses_the_default_interval : bool :=
  delay_of new_shared ≟ Some (from_secs TOKEN_REFRESH_DEFAULT_SECONDS).
Definition refresh_is_scheduled_ahead_of_expiry : bool :=
  let shared := set_token (new_token (bs "tok") (40 * 365 * 24 * 3600) Sha256) new_shared in
  some_and (seconds_to_expire true clock (shared_token shared)) (λ remaining,
    delay_of shared ≟ Some (from_secs (remaining - TOKEN_REFRESH_SECONDS_BEFORE_EXPIRY))).
Definition imminent_expiry_is_floored_not_negative : bool :=
  delay_of (set_token (new_token (bs "tok") 1 Sha1) new_shared) ≟ Some (from_secs TOKEN_REFRESH_MIN_DELAY_SECS).

Definition with_code (code : bytes) : bytes := json_text (bs "{'LL':{'code':'" ++ code ++ bs "'}}").
Definition rejects (payload code : bytes) : bool :=
  match classify payload with TokenRejected got => got ≟ code | _ => false end.
Definition fails (payload : bytes) : bool := match classify payload with LlFailed _ => true | _ => false end.
Definition status_classification_drives_the_token_policy : bool :=
  asserts [match classify (json_text (bs "{'LL':{'code':'200','value':{}}}")) with LlOk => true | _ => false end;
           forallb (λ code, rejects (with_code code) code) [bs "401"; bs "403"];
           forallb (λ code, fails (with_code code)) [bs "500"; bs "503"]; fails (bs "garbage")].
Definition the_connection_limit_does_not_cost_the_token : bool :=
  match classify (with_code (bs "901")) with LlFailed TooManyConnections => true | _ => false end.
Definition a_restarted_miniserver_still_costs_the_token : bool := rejects (with_code (bs "400")) (bs "400").

Lemma task_tests_pass :
  asserts [announced_length_carries_through_the_frame_states; close_code_needs_two_bytes;
           no_token_uses_the_default_interval; refresh_is_scheduled_ahead_of_expiry;
           imminent_expiry_is_floored_not_negative; status_classification_drives_the_token_policy;
           the_connection_limit_does_not_cost_the_token; a_restarted_miniserver_still_costs_the_token] = true.
Proof. vm_compute. reflexivity. Qed.
End SessionTaskTests.

(** ** client/tls.rs, client/http.rs, client/mod.rs, error.rs, sync.rs, crypto/rsa_key.rs *)

Module TransportTests.
Definition context (m : TlsMode) : Result TlsContext := tls_new (Ok tt) m.
Definition pinned_mode_starts_with_its_pin : bool :=
  ok_and (context (Pinned (filled 32 7))) (λ ctx,
    asserts [pinned_spki ctx ≟ Some (filled 32 7); negb (needs_pin_bootstrap ctx)]).
Definition tofu_mode_needs_bootstrap_then_locks_in : bool :=
  ok_and (context PinOnFirstUse) (λ ctx,
    let '(first, r1) := adopt_spki (filled 32 1) ctx in
    let '(again, r2) := adopt_spki (filled 32 1) first in
    let '(_, r3) := adopt_spki (filled 32 2) again in
    asserts [needs_pin_bootstrap ctx; is_ok r1; pinned_spki first ≟ Some (filled 32 1);
             negb (needs_pin_bootstrap first); is_ok r2;
             match r3 with Err (TlsPinMismatch _ _) => true | _ => false end]).
Definition non_pinning_modes_ignore_adopted_spki : bool :=
  ok_and (context WebPki) (λ ctx,
    let '(after, r) := adopt_spki (filled 32 3) ctx in
    asserts [negb (needs_pin_bootstrap ctx); is_ok r; pinned_spki after ≟ None]).

(** Bodies are written with ['] for the double quote and [`] for the single one. *)
Definition body (s : bytes) : bytes := map (λ b, if byteb b Byte.x60 then single_quote else b) (json_text s).
Definition api (s : bytes) (f : ApiInfo → bool) : bool := ok_and (parse_api_info (body s)) f.
Definition value_as_object : bool :=
  api (bs "{'LL':{'control':'dev/cfg/apiKey','value':{'snr':'504F94A0B1C2',
            'version':'15.2.11.4','httpsStatus':1,'local':true},'Code':'200'}}") (λ info,
    asserts [snr info ≟ Some (bs "504F94A0B1C2"); version info ≟ Some (bs "15.2.11.4");
             https_status info ≟ Some 1; local info ≟ Some true; has_event_slots info ≟ None]).
Definition value_as_single_quoted_string : bool :=
  api (bs "{'LL':{'control':'dev/cfg/apiKey','value':'{`snr`:`504F94A0B1C2`,`version`:`15.2.11.4`,`key`:`313233`,`httpsStatus`:2,`local`:false}','Code':'200'}}") (λ info,
    asserts [snr info ≟ Some (bs "504F94A0B1C2"); version info ≟ Some (bs "15.2.11.4");
             https_status info ≟ Some 2; local info ≟ Some false]).
Definition value_as_double_quoted_string : bool :=
  api (bs "{'LL':{'value':'{\'snr\':\'504F94A0B1C2\',\'hasEventSlots\':true}','code':'200'}}") (λ info,
    asserts [snr info ≟ Some (bs "504F94A0B1C2"); has_event_slots info ≟ Some true; version info ≟ None]).
Definition missing_fields_stay_none : bool :=
  api (bs "{'LL':{'value':'{`snr`:`504F94A0B1C2`}','Code':'200'}}") (λ info,
    asserts [snr info ≟ Some (bs "504F94A0B1C2"); version info ≟ None; https_status info ≟ None;
             local info ≟ None; has_event_slots info ≟ None]).
Definition string_and_numeric_encodings_of_flags : bool :=
  api (bs "{'LL':{'value':'{`httpsStatus`:`1`,`local`:`true`,`hasEventSlots`:0}','Code':'200'}}") (λ info,
    asserts [https_status info ≟ Some 1; local info ≟ Some true; has_event_slots info ≟ Some false]).
Definition malformed_responses_are_errors : bool :=
  forallb (λ s, is_err (parse_api_info (body s)))
    [bs "{'LL':{'Code':'200'}}"; bs "{'LL':{'value':'nonsense','Code':'200'}}";
     bs "{'LL':{'value':{},'Code':'401'}}"; bs "not json"].
Definition api_fills_only_the_gaps : bool :=
  api (bs "{'LL':{'value':'{`snr`:`AA`,`version`:`15.0`,`local`:true}','Code':'200'}}") (λ key,
    api (bs "{'LL':{'value':'{`snr`:`BB`,`hasEventSlots`:false}','Code':'200'}}") (λ other,
      let key := fill_from key other in
      asserts [snr key ≟ Some (bs "AA"); has_event_slots key ≟ Some false; local key ≟ Some true])).
Definition basic_auth_header : bool := basic_auth (bs "admin") (bs "secret") ≟ bs "Basic YWRtaW46c2VjcmV0".

Definition debug_redacts_the_password : bool :=
  let cfg : ConnectConfig unit := config_new (bs "http://10.0.0.1") (bs "admin") (bs "hunter2") in
  let rendered := render id false (debug_config (λ _, DWrite []) cfg) in
  asserts [negb (contains (bs "hunter2") rendered); contains (bs "<redacted, 7 bytes>") rendered;
           contains (bs "admin") rendered].
Definition defaults_are_internally_consistent : bool :=
  let cfg : ConnectConfig unit := config_new (bs "host") (bs "u") (bs "p") in
  asserts [tls cfg ≟ WebPki; match token_permission cfg with App => true | _ => false end; keepalive_secs cfg <? read_idle_timeout_secs cfg;
           connect_delay_secs cfg <? long_backoff_secs cfg; 0 <? max_pending_commands cfg;
           0 <? command_channel_depth cfg; command_channel_depth cfg ≟ COMMAND_CHANNEL_DEPTH].

Definition a_refused_control_says_nothing_about_the_connection : bool :=
  forallb (λ e, asserts [negb (is_terminal e); negb (needs_long_backoff e)]) [NotConnected; Backpressure].

Definition recovers_from_poisoning : bool :=
  let m := unwrapped (Panics id) {| guarded := 7; poisoned := false |} in
  asserts [match mutex_lock m with inr _ => true | inl _ => false end; lock m ≟ 7].

Definition normalize_certificate_markers : bool :=
  some_and (normalize_public_key_pem
              (bs "-----BEGIN CERTIFICATE-----" ++ [nl] ++ bs "ABC" ++ [nl] ++ bs "-----END CERTIFICATE-----")) (λ out,
    asserts [contains (bs "BEGIN PUBLIC KEY") out; contains (bs "END PUBLIC KEY") out;
             negb (contains (bs "CERTIFICATE") out)]).

Lemma transport_tests_pass :
  asserts [pinned_mode_starts_with_its_pin; tofu_mode_needs_bootstrap_then_locks_in;
           non_pinning_modes_ignore_adopted_spki; value_as_object; value_as_single_quoted_string;
           value_as_double_quoted_string; missing_fields_stay_none; string_and_numeric_encodings_of_flags;
           malformed_responses_are_errors; api_fills_only_the_gaps; basic_auth_header; debug_redacts_the_password;
           defaults_are_internally_consistent; a_refused_control_says_nothing_about_the_connection;
           recovers_from_poisoning; normalize_certificate_markers] = true.
Proof. vm_compute. reflexivity. Qed.
End TransportTests.
